(* ===== verification/_CoqProject ===== *)
-Q . S2P
Prelude.v
RustStr.v
RustNet.v
Rule.v
Token.v
Glob.v
Parser.v
ParserProps.v
FilterEngine.v
FilterEngineProps.v
Instances.v
FilterSpec.v
Compiler.v
FilterTypes.v
Wire.v
Dns.v
DnsInstances.v
Clients.v
Block.v
RustFloat.v
QueryLog.v
Cache.v
CacheProps.v
Snapshot.v
SnapshotProps.v
Stats.v
StatsProps.v
Engine.v
EngineText.v
EngineProps.v
EngineInstances.v
EngineSafety.v
Spec.v
ProbeLog.v
Pool.v
PoolProps.v
PoolTerm.v
Config.v
ConfigProps.v
Auth.v
Http.v
Dto.v
App.v
AppProps.v
AppInstances.v
Api.v
ApiProps.v
ApiInstances.v
ApiErrors.v
ApiDoc.v
Startup.v
StartupProps.v
Server.v
ServerProps.v
ServerInstances.v
Persist.v
PersistProps.v
Assets.v
Framing.v
Listener.v
Accept.v
AcceptProps.v
AcceptInstances.v
Replies.v
Mux.v
TlsConf.v
Transports.v
Connect.v
ConnectProps.v
Answers.v
Store.v
Sql.v
StoreDb.v
StoreProps.v
SqlProps.v
StoreDbProps.v
StoreInstances.v
StoreRefine.v
StoreApi.v
Main.v
