(* ===== verification/Prelude.v ===== *)
(** * Bulwark: a verification library for the DNS filtering resolver

    Bulwark is a DNS resolver that filters.  A packet from a client is parsed, its name is
    checked against compiled filter lists, and the query is blocked, rewritten, answered from
    the cache or forwarded to an upstream; answers are filtered too.  The parts:

    - [crates/bulwark-filter]: rules, their parser, the compiled matching engine and the
      list compiler that deduplicates, disables and prunes rules;
    - [crates/bulwark-engine]: the query pipeline ([lib.rs]) around a wire scanner, the
      response cache with its restart snapshots, block responses, client identification, the
      query log and the statistics;
    - [crates/bulwark-upstream]: upstream specifications, the pool with health, ordering,
      failover and request coalescing, and the transports;
    - [crates/bulwark-config] and [server]: configuration, HTTP API, persistence and wiring.

    ** Files

    Foundations: this file (scopes, byte strings, [result], tactics, the hint database
    [bulwark]); [RustStr], [RustNet] and [RustFloat] model what the sources use of [str],
    [std::net] and [f64] (IEEE binary64, executable).

    Filter: [Rule] (rule.rs), [Token] (token.rs), [Parser] (parser.rs), [FilterEngine]
    (engine.rs) and [Compiler] (list.rs), one definition per function.  [Glob] gives the
    meaning of wildcard patterns, [ParserProps] the well-formedness of parsed rules,
    [FilterEngineProps] and [FilterSpec] the refinement of a linear scan, [FilterTypes] the
    types of the compiled tables, [Instances] concrete external crates.

    Engine: [Wire] (wire.rs), [Dns] (message types and transport.rs), [Clients] (clients.rs),
    [Block] (block.rs), [QueryLog] (querylog.rs), [Cache] and [Snapshot] (cache.rs), [Stats]
    (stats.rs), [Engine] (lib.rs), each with its properties in the same file or in the file
    with the suffix [Props].  [EngineText] shows that what reaches the filter is ASCII,
    [EngineInstances] that the filter engine and a small DNS library satisfy the interfaces of
    the pipeline, [EngineSafety] the contract of the pipeline; [DnsInstances] is the small
    DNS library.  [Listener] is server.rs from bytes to bytes around any engine, [Accept] its
    receive and accept loops with their permits, tasks, partial reads and writes and timers
    over the interface [EngineOps], which [AcceptInstances] implements by the pipeline;
    [AcceptProps] holds their contracts.  [Replies] follows packets through pipeline, cache,
    snapshots, pool and listeners.

    Upstream: [Spec] (spec.rs, error.rs), [ProbeLog] (probe_log.rs), [Pool], [PoolProps] and
    [PoolTerm] (pool.rs), [Framing] (length-prefixed messages), [Mux] (the connection that UDP
    and DNS over TLS share among queries), [Transports] (the query logic of plain.rs, dot.rs,
    doh.rs and doq.rs, and bootstrap.rs), [Connect] and [ConnectProps] (what the transports
    dial and keep: constructors, pinned HTTP clients, QUIC endpoint and connection, the
    factory), [Answers] (the trait [Transport], its five implementations, and the pool over
    them), [TlsConf] (tlsconf.rs: the configurations kept for the life of the process).

    Server: [Config] and [ConfigProps] (bulwark-config), [Auth] (auth.rs), [Http] (the headers
    api.rs reads), [Dto] (dto.rs), [App] and [AppProps] (app.rs: building the engine, applying
    a configuration), [Api], [ApiProps] and [ApiErrors] (api.rs: every endpoint, its
    middleware, and the interleavings of requests), [ApiDoc] (the routes and the description
    of the API in api.rs and openapi.rs, the download of lists), [Startup] and [StartupProps]
    (main.rs, persist.rs), [Persist] and [PersistProps] (the snapshot files, the system calls of
    the periodic saves and of the shutdown), [Main] (the whole of [main]), [Assets] (assets.rs).  [Store] and [StoreProps]
    are the rows and queries of store.rs and probe_store.rs; [Sql] reads the texts of their
    statements and says what a database makes of them, [SqlProps] and [StoreInstances] what
    holds of that and a database in memory; [StoreDb] and [StoreDbProps] are the stores over
    any such database, [StoreRefine] their refinement of a plain list, [StoreApi] the log
    endpoints over them.  [Server] and [ServerProps] interleave DNS traffic and API requests
    on one state.  [AppInstances], [ApiInstances] and [ServerInstances] run them on a concrete
    server.  [App] composes the compiler, the pool, the cache, the log and the statistics: its
    engine is the pipeline of [Engine] over the filter of [Compiler] and the pool of [Pool].

    ** Modelling conventions

    A machine integer is a [Z] whose casts and wrapping additions are written out ([wrap]);
    positions in buffers are [nat].  A byte is an [ascii], strings and buffers are byte lists.
    A Rust [Result] is [result], a computation that may panic returns [option] ([None] is the
    panic) or, in [Wire], a three-valued result.  Shared state behind locks is passed
    explicitly.  Asynchronous code is cut at its suspension points: [Engine.handle] ends in a
    response or in a suspended query that [Engine.resume] continues, and [Pool.step]
    interleaves calls, cancellations, upstream attempts and probes, [Mux.mux_step] the
    exchanges of a connection with its reader, [Api.api_step] requests with their suspensions,
    [Accept.udp_step], [Accept.conn_step] and [Accept.tcp_step] the listeners with their tasks.
    An update of the configuration runs under the update lock and is one step, or stops at one of
    its two suspensions when its client disconnects ([Api.cut_short]).  A save of a snapshot is
    a step per system call ([Persist.process_step]).  Time and randomness are
    arguments.  Crates the repository only calls ([regex], [ipnet], [lru], [hickory_proto],
    hash functions and the iteration order of hash maps, the writer channel, the YAML and JSON
    codecs, Argon2, HMAC and base64, the SQL engine) are type classes
    or section variables; where a proof needs documented behaviour of theirs it is a class of
    laws ([RegexLaws], [EdnsLaws], [LruLaws], [CodecLaws], [HeaderLaws], [ConfigCodecLaws],
    [SessionLaws], [SqlDbLaws], ...) with an instance.  The file system is the texts the server
    reads back, for the snapshots with the inodes behind their names; the outcome of each file
    operation, how far a write gets included, is an argument.

    Loops that are not structural carry fuel: the length of the text or buffer they consume
    (plus one), 64 for powers of two, the bit length for digits.  The fuel is enough by proof: the lemmas
    [hay_loop_spec], [ancestor_loop_spec], [group_loop_ok], [chunks_go_join] relate them to
    unbounded definitions, and running out of fuel is a panic in [Wire], which never occurs.

    ** What the theorems show

    - Filtering: the compiled engine with its arenas, hashed indexes, token index, regex sets
      and two phases answers every query with a highest-priority applying rule; compiling
      lists preserves that; pruning preserves whether a query is let through, excepted, blocked
      or rewritten, up to a block tied with a rewrite; the texts, lists and actions of the rules,
      which the content hash covers, determine the rules; verdicts without client-dependent
      rules are the same for all clients; [$badfilter] and duplicates work by signature; every
      field of the compiled tables is within its width and points where it should.
    - Pipeline: from any reachable state no step panics; what a filtered client gets is the
      server's own reply or a message whose names and addresses the rules do not block, the
      upstream answers behind the CNAME of a rewrite rule excepted; memoised verdicts are what
      the rules in force decide, across reloads to other lists and concurrent refreshes; only
      allowed cache misses reach the pool.
    - Cache and snapshots: shard invariant and capacity; lookup after insertion through the
      fresh, stale and expired phases; provenance of every hit; TTL clamping; snapshots whose
      records fit the reader's limits give back exactly the live entries with their ages, and no
      input breaks the import.
    - Wire: no panic on any input, exactness of patching, parsing of encoded queries.
    - Responses, clients, log, statistics: the shape of synthesised responses, longest-prefix
      identification, anonymisation, the Space-Saving bound, exact counters over records,
      settings, resets and imports, deterministic rankings.
    - Upstream pool: the order of trial, the failover outcome, the health state machine, the
      coalescing of concurrent queries, and that every call ends within a bounded number of
      steps; specifications read back from their text.
    - Listeners: a reply is the complete answer within the datagram the client asked for or a
      truncated one, which with at most one question is within it too; at
      most 1024 datagrams and 512 connections are served at a time, no permit is lost, every
      query taken up can be answered once and to its peer; a connection answers the frames it
      received in order, however they arrive, and is closed when it stalls.
    - Transports: a reply on a shared connection reaches the exchange that waits for it; no
      transport, and no call of the pool over them, returns a message with another id or another
      question than its query (a message without a question passes); the TLS configurations
      are fixed on first use; the bootstrap cache repeats its answer for five minutes, and a
      DNS over HTTPS
      request goes to an address not older than fifteen.
    - Composition: the bytes sent in reply to a packet begin with its id, whatever the packet's
      way through filter, cache, snapshots, coalescing pool and listener.
    - Server: a reload installs exactly the configuration that was requested and never panics on
      lists that fit; over all interleavings of requests, suspensions and disconnecting clients
      disk and engine agree on one valid configuration, and memory with them unless an update was
      cut short, and ids stay distinct; a restart resumes; tokens are accepted exactly when signed and unexpired, the
      login cookie comes back as a session, and without one nothing changes; the upstream
      text keeps its meaning when it is normalised.  The pipeline's contract holds of the
      whole server: DNS events run to their end and keep the configuration, whatever reloads
      happen between them.  A request that fails changes nothing but the file of a list.
      Every reply of the API is one its description declares or in an explicit list of those
      it leaves out; every request line has at most one route, and the description lists
      exactly the routes.
    - Files: at every step of every save a snapshot file is what it was or a complete snapshot,
      as long as the shutdown and a periodic task do not save it at the same time; [main] started
      on the files of a server serves again with its configuration, sessions and saved counters,
      or ends with an error that has its cause.
    - Stores: the texts of the statements, read as SQL, make the query store an append-only list
      with filtered pages, over every sequence of operations up to a COMMIT or ROLLBACK that the
      database refuses; rows read back as the entries
      they were, searches are literal and cannot inject SQL, a batch is visible completely or
      not at all; the log endpoints read and clear these stores.
    - Some theorems show behaviour the code does not intend: signatures of regex rules that
      collide, a block that pruning turns into a rewrite, a panic on an over-long rule line, a
      panic after importing a short histogram, snapshots that reverse recency or lose entries,
      specifications without a host, colliding identities, two concurrent setups, a refresh
      that overwrites another list, a failed deletion that loses a list's text, overrides of
      the environment that are saved, an overflow of an HTTP header that aborts, a cancelled
      write on a shared stream, a transaction that stays open, an address used for longer than
      its pin, a snapshot whose offsets overwrite the id, replies the API description leaves
      out, a signal handler whose absence ends the server, a truncated reply with many questions
      that exceeds the client's limit, an update cut short that leaves memory behind, two saves
      of one file that publish a torn one.

    ** Bounds

    The filter theorems assume rule sets within the 32-bit fields of the engine and raw lines
    and domains within its 16-bit lengths ([rules_ok], [limits_ok]), and ASCII query names, which
    [EngineText] proves of every name the pipeline produces.  The theorems about the pipeline
    and the server are about a set of list texts that are ASCII and within those limits
    ([lists_fit_engine]) and, where a memoised verdict may be used, on whose contents the
    standard library's hasher has no collision ([no_collision]: the hash has 64 bits).  [Pool.ordered] reads and writes
    the healths in one step.  [identity] lowercases byte-wise.

    ** Not modelled

    Sockets, TLS, HTTP and QUIC themselves, the DNS codec, the SQL engine and the YAML and JSON
    codecs with their defaults for missing fields (external); the rejections of requests axum
    cannot decode; a crash of the operating system, which may lose writes a process has made;
    the tracing and allocator set-up; the texts of the API description and the
    program that prints it, the build script, the benchmarks, examples and the web interface.
    In [Server] the answers of the pool are arbitrary, which covers every pool; [Replies] and
    [Answers] use the pool's own transition system.  Left in the plan: the ids of replies
    carried from [Replies] to the events of [Server]. *)
From Stdlib Require Export ZArith Lia Bool.
From stdpp Require Export base tactics list gmap strings numbers option fin_maps sorting.
From Stdlib Require Import Ascii.

(** ** Scopes and base types *)

Declare Scope bulwark_scope.
Delimit Scope bulwark_scope with bulwark.

(** A Rust [u8] is an [ascii] (eight bits, so the range is intrinsic); a [&str],
    [String], [&[u8]] or [Vec<u8>] is the list of its bytes. *)
Abbreviation byte := Ascii.ascii (only parsing).
Abbreviation bytes := (list Ascii.ascii) (only parsing).

(** String literals: [bs "abc"] is the byte string. *)
Definition bs (s : string) : bytes := String.list_ascii_of_string s.

(** The numeric value of a byte, and the byte of a number (modulo 256). *)
Definition u8 (b : byte) : Z := Z.of_N (N_of_ascii b).
Definition byte_of (z : Z) : byte := ascii_of_N (Z.to_N (z mod 256)).

(** Machine integers are [Z]; [wrap w] is the truncating cast [as u<w>]. *)
Definition wrap (w z : Z) : Z := z mod 2 ^ w.
Definition in_u (w z : Z) : Prop := (0 <= z < 2 ^ w)%Z.
Definition U16_MAX : Z := 65535.
Definition U32_MAX : Z := 4294967295.
Definition U64_MAX : Z := 18446744073709551615.

(** [checked_add] on [usize] (64 bits); positions and lengths are [nat]. *)
Definition checked_add (a b : nat) : option nat :=
  if (Z.of_nat a + Z.of_nat b <=? U64_MAX)%Z then Some (a + b) else None.

(** ** Results *)

(** Rust's [Result<A, E>]. *)
Inductive result (A E : Type) : Type :=
| Ok (a : A)
| Err (e : E).
Arguments Ok {A E} a.
Arguments Err {A E} e.

Definition result_bind {A B E} (m : result A E) (k : A → result B E) : result B E :=
  match m with
  | Ok a => k a
  | Err e => Err e
  end.

(** The [?] operator. *)
Notation "'let?' x := m 'in' k" := (result_bind m (λ x, k))
  (at level 10, x pattern, m at level 100, k at level 200) : bulwark_scope.
Notation "'let!' x := m 'in' k" := (mbind (M:=option) (λ x, k) m)
  (at level 10, x pattern, m at level 100, k at level 200) : bulwark_scope.
Open Scope bulwark_scope.

Definition result_ok {A E} (m : result A E) : option A :=
  match m with Ok a => Some a | Err _ => None end.

Definition ok_or {A E} (o : option A) (e : E) : result A E :=
  match o with Some a => Ok a | None => Err e end.

(** Functional record update is written out per record; booleans of the code are [bool]. *)

(** ** Automation *)

Create HintDb bulwark.

(** Closes a ground equation by evaluating both sides in the kernel's virtual machine, without
    writing their normal forms into the proof. *)
Ltac vm_refl := match goal with |- ?a = ?b => vm_cast_no_check (@eq_refl _ b) end.
(** Turns every boolean connective and [bool_decide] of the context into propositions. *)
Ltac bool_to_prop :=
  repeat match goal with
  | H : _ && _ = true |- _ => apply andb_true_iff in H as [? ?]
  | H : _ || _ = false |- _ => apply orb_false_iff in H as [? ?]
  | H : negb _ = true |- _ => apply negb_true_iff in H
  | H : negb _ = false |- _ => apply negb_false_iff in H
  | H : bool_decide _ = true |- _ => apply bool_decide_eq_true in H
  | H : bool_decide _ = false |- _ => apply bool_decide_eq_false in H
  end.

(** Case analysis on the scrutinee of a hypothesis that is a successful computation. *)
Ltac inv_some :=
  repeat match goal with
  | H : mbind _ ?m = Some _ |- _ => let E := fresh "E" in destruct m eqn:E; simpl in H; [|discriminate H]
  | H : (if ?c then _ else None) = Some _ |- _ => let E := fresh "E" in destruct c eqn:E; [|discriminate H]
  | H : (if ?c then None else _) = Some _ |- _ => let E := fresh "E" in destruct c eqn:E; [discriminate H|]
  | H : Some _ = Some _ |- _ => injection H as H; try subst
  end.

(** ** Bytes *)

Lemma u8_range b : (0 ≤ u8 b < 256)%Z.
Proof. unfold u8. pose proof (N_ascii_bounded b). lia. Qed.

Lemma u8_byte_of z : u8 (byte_of z) = (z mod 256)%Z.
Proof.
  unfold u8, byte_of. pose proof (Z.mod_pos_bound z 256 ltac:(lia)).
  rewrite N_ascii_embedding; lia.
Qed.

Lemma byte_of_u8 b : byte_of (u8 b) = b.
Proof.
  unfold byte_of. rewrite Z.mod_small by apply u8_range.
  unfold u8. rewrite N2Z.id. apply ascii_N_embedding.
Qed.

Lemma u8_inj a b : u8 a = u8 b → a = b.
Proof. intros H. by rewrite <- (byte_of_u8 a), H, byte_of_u8. Qed.

#[export] Instance u8_Inj : Inj (=) (=) u8.
Proof. intros a b; apply u8_inj. Qed.

Lemma wrap_small w z : in_u w z → wrap w z = z.
Proof. intros H. by apply Z.mod_small. Qed.

Lemma wrap_in_u w z : (0 ≤ w)%Z → in_u w (wrap w z).
Proof. intros H. apply Z.mod_pos_bound. by apply Z.pow_pos_nonneg. Qed.

Lemma checked_add_Some a b c : checked_add a b = Some c → c = a + b.
Proof. unfold checked_add. intros H. by inv_some. Qed.

#[export] Hint Resolve u8_range wrap_in_u : bulwark.

(** ** Options *)

Definition is_some {A} (o : option A) : bool := if o is Some _ then true else false.
Lemma is_Some_default {A} (o : option A) d : is_some o = true → o = Some (default d o).
Proof. by destruct o. Qed.
Lemma hit_default {A B} (o : option (option A * B)) a b :
  is_some (o ≫= fst) = true → o = Some (Some (default a (o ≫= fst)), from_option snd b o).
Proof. by destruct o as [[[x|] y]|]. Qed.

(** ** Generic list lemmas *)

Section lists.
Context {A : Type}.
Implicit Types l : list A.

Lemma existsb_Exists (f : A → bool) l : existsb f l = true ↔ Exists (λ x, f x = true) l.
Proof. rewrite existsb_exists, Exists_exists. by setoid_rewrite list_elem_of_In. Qed.

Lemma forallb_Forall (f : A → bool) l : forallb f l = true ↔ Forall (λ x, f x = true) l.
Proof. rewrite forallb_forall, Forall_forall. by setoid_rewrite list_elem_of_In. Qed.

Lemma existsb_elem (f : A → bool) l : existsb f l = true ↔ ∃ x, x ∈ l ∧ f x = true.
Proof. rewrite existsb_Exists. apply Exists_exists. Qed.

Lemma existsb_app_eq (f : A → bool) l k : existsb f (l ++ k) = existsb f l || existsb f k.
Proof. apply existsb_app. Qed.

Lemma drop_suffix_eq n l k : n ≤ length l → drop n l = k → l = take n l ++ k.
Proof. intros _ <-. by rewrite take_drop. Qed.

(** The first element of a list that satisfies a test some element satisfies. *)
Lemma list_find_first (f : A → bool) l x :
  x ∈ l → f x = true →
  ∃ i y, l !! i = Some y ∧ f y = true ∧ ∀ j z, j < i → l !! j = Some z → f z = false.
Proof.
  intros Hx Hf. induction l as [|a l IH]; [by apply elem_of_nil in Hx|].
  destruct (f a) eqn:Ea.
  - exists 0, a. split_and!; [done..|]. lia.
  - apply elem_of_cons in Hx as [->|Hx]; [congruence|].
    destruct (IH Hx) as (i & y & ? & ? & Hfirst). exists (S i), y. split_and!; [done..|].
    intros [|j] z Hj Hz; simpl in *; [congruence|]. eapply Hfirst; [|done]. lia.
Qed.

Lemma nodup_fmap_inj {B} (f : A → B) l x y :
  NoDup (f <$> l) → x ∈ l → y ∈ l → f x = f y → x = y.
Proof.
  induction l as [|a l IH]; csimpl; [by intros _ ?%elem_of_nil|].
  intros [Hn Hl]%NoDup_cons [->|Hx]%elem_of_cons [->|Hy]%elem_of_cons E; auto.
  - destruct Hn. rewrite E. by apply list_elem_of_fmap_2.
  - destruct Hn. rewrite <- E. by apply list_elem_of_fmap_2.
Qed.

End lists.
