(* ===== verification/RustStr.v ===== *)
(** * The [str] operations of the Rust standard library that the sources use.

    A [&str] is the list of its UTF-8 bytes.  Patterns that are single ASCII characters
    ([find('.')], [split('|')], [trim_end_matches('.')], ...) are byte operations, because
    an ASCII byte never occurs inside a multi-byte UTF-8 sequence.  The operations that
    look for Unicode white space ([trim], [split_whitespace]) decode the encodings of the
    [White_Space] characters. *)
From Stdlib Require Import Ascii.
From S2P Require Import Prelude.

(** ** Characters *)

(** [u8::is_ascii_digit], [is_ascii_lowercase], [is_ascii_uppercase],
    [is_ascii_alphanumeric]. *)
Definition is_ascii_digit (b : byte) : bool := (48 <=? u8 b)%Z && (u8 b <=? 57)%Z.
Definition is_ascii_lowercase (b : byte) : bool := (97 <=? u8 b)%Z && (u8 b <=? 122)%Z.
Definition is_ascii_uppercase (b : byte) : bool := (65 <=? u8 b)%Z && (u8 b <=? 90)%Z.
Definition is_ascii_alphanumeric (b : byte) : bool :=
  is_ascii_digit b || is_ascii_lowercase b || is_ascii_uppercase b.

(** [to_ascii_lowercase] and [to_ascii_uppercase], on a byte and on a string. *)
Definition lower_byte (b : byte) : byte :=
  if is_ascii_uppercase b then byte_of (u8 b + 32) else b.
Definition upper_byte (b : byte) : byte :=
  if is_ascii_lowercase b then byte_of (u8 b - 32) else b.
Definition to_ascii_lowercase (s : bytes) : bytes := lower_byte <$> s.
Definition to_ascii_uppercase (s : bytes) : bytes := upper_byte <$> s.
Definition eq_ignore_ascii_case (s t : bytes) : bool :=
  bool_decide (to_ascii_lowercase s = to_ascii_lowercase t).

(** ** Prefixes, suffixes, search *)

Definition starts_with (p s : bytes) : bool := bool_decide (take (length p) s = p).
Definition ends_with (p s : bytes) : bool := bool_decide (drop (length s - length p) s = p).
Definition strip_prefix (p s : bytes) : option bytes :=
  if starts_with p s then Some (drop (length p) s) else None.
Definition strip_suffix (p s : bytes) : option bytes :=
  if ends_with p s then Some (take (length s - length p) s) else None.

(** [s.find(c)]: the offset of the first occurrence. *)
Fixpoint find_byte (c : byte) (s : bytes) : option nat :=
  match s with
  | [] => None
  | b :: s => if bool_decide (b = c) then Some 0 else S <$> find_byte c s
  end.

(** [s.find("..")] for a string pattern. *)
Fixpoint find_str (p s : bytes) : option nat :=
  if starts_with p s then Some 0
  else match s with
       | [] => None
       | _ :: s => S <$> find_str p s
       end.

Definition contains_byte (c : byte) (s : bytes) : bool := bool_decide (c ∈ s).

(** ** Splitting *)

(** [s.split(c)]: always at least one piece. *)
Fixpoint split_byte (c : byte) (s : bytes) : list bytes :=
  match s with
  | [] => [[]]
  | b :: s =>
      if bool_decide (b = c) then [] :: split_byte c s
      else match split_byte c s with
           | [] => [[b]]
           | w :: ws => (b :: w) :: ws
           end
  end.

(** [s.split_once(c)], [s.split_once(".."))] and [s.rsplit_once(c)]. *)
Definition split_once (c : byte) (s : bytes) : option (bytes * bytes) :=
  (λ i, (take i s, drop (S i) s)) <$> find_byte c s.
Definition split_once_str (p s : bytes) : option (bytes * bytes) :=
  (λ i, (take i s, drop (i + length p) s)) <$> find_str p s.
Definition rsplit_once (c : byte) (s : bytes) : option (bytes * bytes) :=
  (λ i, (take (length s - S i) s, drop (length s - i) s)) <$> find_byte c (reverse s).

(** [s.splitn(n, c)] for n >= 1. *)
Fixpoint splitn (n : nat) (c : byte) (s : bytes) : list bytes :=
  match n with
  | 0 => []
  | 1 => [s]
  | S n => match split_once c s with
           | None => [s]
           | Some (a, b) => a :: splitn n c b
           end
  end.

(** [slice.join(sep)]. *)
Fixpoint join (sep : bytes) (l : list bytes) : bytes :=
  match l with
  | [] => []
  | [w] => w
  | w :: ws => w ++ sep ++ join sep ws
  end.

(** ** Trimming *)

Fixpoint trim_start_matches (f : byte → bool) (s : bytes) : bytes :=
  match s with
  | [] => []
  | b :: t => if f b then trim_start_matches f t else s
  end.
Definition trim_end_matches (c : byte) (s : bytes) : bytes :=
  reverse (trim_start_matches (λ b, bool_decide (b = c)) (reverse s)).
Definition trim_matches (c : byte) (s : bytes) : bytes :=
  trim_end_matches c (trim_start_matches (λ b, bool_decide (b = c)) s).

(** [char::is_whitespace]: the UTF-8 encodings of one, two and three bytes. *)
Definition ws1 (a : byte) : bool := ((9 <=? u8 a) && (u8 a <=? 13) || (u8 a =? 32))%Z.
Definition ws2 (a b : byte) : bool :=
  ((u8 a =? 194) && ((u8 b =? 133) || (u8 b =? 160)))%Z.
Definition ws3 (a b c : byte) : bool :=
  ((u8 a =? 225) && (u8 b =? 154) && (u8 c =? 128)
   || (u8 a =? 226) && (u8 b =? 128) &&
        ((128 <=? u8 c) && (u8 c <=? 138) || (u8 c =? 168) || (u8 c =? 169) || (u8 c =? 175))
   || (u8 a =? 226) && (u8 b =? 129) && (u8 c =? 159)
   || (u8 a =? 227) && (u8 b =? 128) && (u8 c =? 128))%Z.

Fixpoint trim_start (s : bytes) : bytes :=
  match s with
  | [] => []
  | a :: t =>
      if ws1 a then trim_start t
      else match t with
           | [] => s
           | b :: t2 =>
               if ws2 a b then trim_start t2
               else match t2 with
                    | [] => s
                    | c :: t3 => if ws3 a b c then trim_start t3 else s
                    end
           end
  end.

(** The same over the reversed string, where an encoding is read backwards. *)
Fixpoint trim_start_rev (s : bytes) : bytes :=
  match s with
  | [] => []
  | a :: t =>
      if ws1 a then trim_start_rev t
      else match t with
           | [] => s
           | b :: t2 =>
               if ws2 b a then trim_start_rev t2
               else match t2 with
                    | [] => s
                    | c :: t3 => if ws3 c b a then trim_start_rev t3 else s
                    end
           end
  end.
Definition trim_end (s : bytes) : bytes := reverse (trim_start_rev (reverse s)).
Definition trim (s : bytes) : bytes := trim_end (trim_start s).

(** [s.split_whitespace()]: [cur] is the reversed current word. *)
Definition flush_word (cur : bytes) (ws : list bytes) : list bytes :=
  match cur with [] => ws | _ => reverse cur :: ws end.
Fixpoint split_ws_go (cur : bytes) (s : bytes) : list bytes :=
  match s with
  | [] => flush_word cur []
  | a :: t =>
      if ws1 a then flush_word cur (split_ws_go [] t)
      else match t with
           | [] => flush_word (a :: cur) []
           | b :: t2 =>
               if ws2 a b then flush_word cur (split_ws_go [] t2)
               else match t2 with
                    | [] => split_ws_go (a :: cur) t
                    | c :: t3 =>
                        if ws3 a b c then flush_word cur (split_ws_go [] t3)
                        else split_ws_go (a :: cur) t
                    end
           end
  end.
Definition split_whitespace (s : bytes) : list bytes := split_ws_go [] s.

(** [s.lines()]: split at line feeds, a final empty piece dropped, one trailing carriage
    return of each terminated line removed. *)
Definition LF : byte := Ascii.ascii_of_nat 10.
Definition CR : byte := Ascii.ascii_of_nat 13.
Definition strip_cr (l : bytes) : bytes := default l (strip_suffix [CR] l).
Fixpoint lines_of (ps : list bytes) : list bytes :=
  match ps with
  | [] => []
  | [l] => match l with [] => [] | _ => [l] end
  | l :: ps => strip_cr l :: lines_of ps
  end.
Definition lines (s : bytes) : list bytes := lines_of (split_byte LF s).

(** ** Numbers *)

(** [u16::from_str] and the like: an optional plus sign, then digits, within the width. *)
Fixpoint digits_val (acc : Z) (s : bytes) : option Z :=
  match s with
  | [] => Some acc
  | b :: s => if is_ascii_digit b then digits_val (acc * 10 + (u8 b - 48))%Z s else None
  end.
Definition parse_uint (w : Z) (s : bytes) : option Z :=
  let s := match strip_prefix (bs "+") s with Some r => r | None => s end in
  match s with
  | [] => None
  | _ => let! v := digits_val 0 s in if (v <? 2 ^ w)%Z then Some v else None
  end.

(** Decimal rendering of a non-negative number ([format!("{n}")]); [fuel] bounds the digits. *)
Definition digit (n : Z) : byte := byte_of (48 + n).
Fixpoint dec_digits (fuel : nat) (n : Z) (acc : bytes) : bytes :=
  match fuel with
  | 0 => acc
  | S fuel =>
      if (n <? 10)%Z then digit n :: acc
      else dec_digits fuel (n / 10)%Z (digit (n mod 10) :: acc)
  end.
Definition show_dec (n : Z) : bytes := dec_digits (S (Z.to_nat (Z.log2 n))) n [].
