(* ===== verification/RustNet.v ===== *)
(** * [std::net] addresses: the parser of [core::net::parser] and the [Display] forms.

    The parser consumes the front of its input, so each reader returns the rest; a reader
    that fails consumes nothing ([read_atomically]). *)
From Stdlib Require Import Ascii.
From S2P Require Import Prelude RustStr.

(** [Ipv4Addr] (four octets), [Ipv6Addr] (eight 16-bit segments) and [IpAddr]. *)
Inductive ipv4 : Type := Ipv4 (a b c d : byte).
Inductive ipv6 : Type := Ipv6 (a b c d e f g h : Z).
Inductive ip_addr : Type := V4 (a : ipv4) | V6 (a : ipv6).

#[export] Instance ipv4_eq_dec : EqDecision ipv4.
Proof. solve_decision. Defined.
#[export] Instance ipv6_eq_dec : EqDecision ipv6.
Proof. solve_decision. Defined.
#[export] Instance ip_addr_eq_dec : EqDecision ip_addr.
Proof. solve_decision. Defined.

Definition ipv4_code (a : ipv4) : byte * byte * byte * byte :=
  let 'Ipv4 a b c d := a in (a, b, c, d).
Definition ipv6_code (a : ipv6) : list Z := let 'Ipv6 a b c d e f g h := a in [a; b; c; d; e; f; g; h].
Definition ipv6_of (l : list Z) : ipv6 :=
  let n i := nth i l 0%Z in Ipv6 (n 0) (n 1) (n 2) (n 3) (n 4) (n 5) (n 6) (n 7).

#[export] Instance ipv4_countable : Countable ipv4.
Proof.
  refine (inj_countable' ipv4_code (λ '(a, b, c, d), Ipv4 a b c d) _). by intros [].
Defined.
#[export] Instance ipv6_countable : Countable ipv6.
Proof. refine (inj_countable' ipv6_code ipv6_of _). by intros []. Defined.
#[export] Instance ip_addr_countable : Countable ip_addr.
Proof.
  refine (inj_countable' (λ a, match a with V4 a => inl a | V6 a => inr a end)
            (λ a, match a with inl a => V4 a | inr a => V6 a end) _).
  by intros [].
Defined.

(** ** Parsing *)

(** [char::to_digit]. *)
Definition to_digit (radix : Z) (b : byte) : option Z :=
  let v := u8 b in
  let d :=
    if is_ascii_digit b then Some (v - 48)%Z
    else if ((97 <=? v) && (v <=? 102))%Z then Some (v - 87)%Z
    else if ((65 <=? v) && (v <=? 70))%Z then Some (v - 55)%Z
    else None in
  let! d := d in if (d <? radix)%Z then Some d else None.

(** The digit loop of [read_number]: more than [max] digits fail. *)
Fixpoint read_digits (radix : Z) (max : nat) (acc : Z) (count : nat) (s : bytes)
  : option (Z * nat * bytes) :=
  match s with
  | [] => Some (acc, count, s)
  | b :: t =>
      match to_digit radix b with
      | None => Some (acc, count, s)
      | Some d =>
          if max <? S count then None
          else read_digits radix max (acc * radix + d)%Z (S count) t
      end
  end.

Definition read_number (radix : Z) (max : nat) (allow_zero_prefix : bool) (bound : Z) (s : bytes)
  : option (Z * bytes) :=
  let has_leading_zero := starts_with (bs "0") s in
  let! (v, count, rest) := read_digits radix max 0 0 s in
  if count =? 0 then None
  else if negb allow_zero_prefix && has_leading_zero && (1 <? count) then None
  else if (v <=? bound)%Z then Some (v, rest) else None.

Definition read_given_char (c : byte) (s : bytes) : option bytes :=
  match s with
  | b :: t => if bool_decide (b = c) then Some t else None
  | [] => None
  end.

Definition read_octet (s : bytes) : option (byte * bytes) :=
  let! (v, rest) := read_number 10 3 false 255 s in Some (byte_of v, rest).

Definition read_ipv4_addr (s : bytes) : option (ipv4 * bytes) :=
  let! (a, s) := read_octet s in
  let! s := read_given_char "."%char s in
  let! (b, s) := read_octet s in
  let! s := read_given_char "."%char s in
  let! (c, s) := read_octet s in
  let! s := read_given_char "."%char s in
  let! (d, s) := read_octet s in
  Some (Ipv4 a b c d, s).

(** [read_groups]: at most [n] groups, an embedded IPv4 address where two are left. *)
Fixpoint read_groups (n : nat) (first : bool) (s : bytes) : list Z * bool * bytes :=
  match n with
  | 0 => ([], false, s)
  | S n' =>
      let sep := if first then Some s else read_given_char ":"%char s in
      match (if 1 <? n then sep ≫= read_ipv4_addr else None) with
      | Some (Ipv4 a b c d, rest) => ([u8 a * 256 + u8 b; u8 c * 256 + u8 d]%Z, true, rest)
      | None =>
          match sep ≫= read_number 16 4 true 65535 with
          | Some (g, rest) =>
              let '(gs, v4, rest) := read_groups n' false rest in (g :: gs, v4, rest)
          | None => ([], false, s)
          end
      end
  end.

Definition read_ipv6_addr (s : bytes) : option (ipv6 * bytes) :=
  let '(head, head_v4, rest) := read_groups 8 true s in
  if length head =? 8 then Some (ipv6_of head, rest)
  else if head_v4 then None
  else
    let! rest := read_given_char ":"%char rest in
    let! rest := read_given_char ":"%char rest in
    let limit := 8 - (length head + 1) in
    let '(tail, _, rest) := read_groups limit true rest in
    Some (ipv6_of (head ++ replicate (8 - length head - length tail) 0%Z ++ tail), rest).

(** [parse_with]: the whole input is consumed. *)
Definition parse_all {A} (read : bytes → option (A * bytes)) (s : bytes) : option A :=
  match read s with
  | Some (a, []) => Some a
  | _ => None
  end.

Definition parse_ipv4 : bytes → option ipv4 := parse_all read_ipv4_addr.
Definition parse_ipv6 : bytes → option ipv6 := parse_all read_ipv6_addr.
Definition parse_ip : bytes → option ip_addr :=
  parse_all (λ s, match read_ipv4_addr s with
                  | Some (a, rest) => Some (V4 a, rest)
                  | None => let! (a, rest) := read_ipv6_addr s in Some (V6 a, rest)
                  end).

(** ** Predicates *)

Definition is_unspecified (ip : ip_addr) : bool :=
  match ip with
  | V4 (Ipv4 a b c d) => forallb (λ x, (u8 x =? 0)%Z) [a; b; c; d]
  | V6 a => forallb (Z.eqb 0) (ipv6_code a)
  end.
Definition is_loopback (ip : ip_addr) : bool :=
  match ip with
  | V4 (Ipv4 a _ _ _) => (u8 a =? 127)%Z
  | V6 a => bool_decide (a = Ipv6 0 0 0 0 0 0 0 1)
  end.

Definition UNSPECIFIED4 : ipv4 := Ipv4 (byte_of 0) (byte_of 0) (byte_of 0) (byte_of 0).
Definition UNSPECIFIED6 : ipv6 := Ipv6 0 0 0 0 0 0 0 0.

(** ** Display *)

Definition show_ipv4 (a : ipv4) : bytes :=
  let 'Ipv4 a b c d := a in join (bs ".") ((λ x, show_dec (u8 x)) <$> [a; b; c; d]).

Definition hex_digit (n : Z) : byte := if (n <? 10)%Z then byte_of (48 + n) else byte_of (87 + n).
Fixpoint hex_digits (fuel : nat) (n : Z) (acc : bytes) : bytes :=
  match fuel with
  | 0 => acc
  | S fuel =>
      if (n <? 16)%Z then hex_digit n :: acc
      else hex_digits fuel (n / 16)%Z (hex_digit (n mod 16) :: acc)
  end.
(** A segment is a [u16]. *)
Definition show_seg (n : Z) : bytes := hex_digits 4 (wrap 16 n) [].

(** The longest run of zero segments, the first one on ties: (start, length). *)
Fixpoint zero_span (i : nat) (cur best : nat * nat) (l : list Z) : nat * nat :=
  match l with
  | [] => best
  | x :: l =>
      if (x =? 0)%Z then
        let cur := if cur.2 =? 0 then (i, 1) else (cur.1, S cur.2) in
        zero_span (S i) cur (if best.2 <? cur.2 then cur else best) l
      else zero_span (S i) (0, 0) best l
  end.

(** [to_ipv4_mapped]: the ::ffff:0:0/96 prefix. *)
Definition ipv4_mapped (a : ipv6) : option ipv4 :=
  let 'Ipv6 s0 s1 s2 s3 s4 s5 s6 s7 := a in
  if forallb (Z.eqb 0) [s0; s1; s2; s3; s4] && (s5 =? 65535)%Z then
    Some (Ipv4 (byte_of (s6 / 256)) (byte_of s6) (byte_of (s7 / 256)) (byte_of s7))
  else None.

Definition show_segs (l : list Z) : bytes := join (bs ":") (show_seg <$> l).

Definition show_ipv6 (a : ipv6) : bytes :=
  match ipv4_mapped a with
  | Some v4 => bs "::ffff:" ++ show_ipv4 v4
  | None =>
      let l := ipv6_code a in
      let '(start, len) := zero_span 0 (0, 0) (0, 0) l in
      if 1 <? len then show_segs (take start l) ++ bs "::" ++ show_segs (drop (start + len) l)
      else show_segs l
  end.

Definition show_ip (ip : ip_addr) : bytes :=
  match ip with V4 a => show_ipv4 a | V6 a => show_ipv6 a end.

(** ** Tests of the parser and the printer *)

Example parse_ip_v4 : parse_ip (bs "192.168.1.10") =
  Some (V4 (Ipv4 (byte_of 192) (byte_of 168) (byte_of 1) (byte_of 10))).
Proof. vm_compute. reflexivity. Qed.
Example parse_ip_octal : parse_ip (bs "192.168.01.10") = None.
Proof. vm_compute. reflexivity. Qed.
Example parse_ip_v6 : parse_ip (bs "2001:db8::1") = Some (V6 (Ipv6 8193 3512 0 0 0 0 0 1)).
Proof. vm_compute. reflexivity. Qed.
Example parse_ip_v6_all : parse_ip (bs "1:2:3:4:5:6:1.2.3.4") = Some (V6 (Ipv6 1 2 3 4 5 6 258 772)).
Proof. vm_compute. reflexivity. Qed.
Example parse_ip_v6_dots : parse_ip (bs "::") = Some (V6 UNSPECIFIED6).
Proof. vm_compute. reflexivity. Qed.
Example parse_ip_v6_bad : parse_ip (bs "1::2::3") = None.
Proof. vm_compute. reflexivity. Qed.
Example show_ip_v6 : show_ip (V6 (Ipv6 8193 3512 0 0 1 0 0 1)) = bs "2001:db8::1:0:0:1".
Proof. vm_compute. reflexivity. Qed.
Example show_ip_mapped : show_ip (V6 (Ipv6 0 0 0 0 0 65535 258 772)) = bs "::ffff:1.2.3.4".
Proof. vm_compute. reflexivity. Qed.
