(* ===== verification/Rule.v ===== *)
(** * bulwark-filter: the rule model ([crates/bulwark-filter/src/rule.rs]).

    The crates [regex] and [ipnet] are interfaces: a class with the operations the sources
    call, and for [regex] a second class with the documented behaviour the engine relies
    on.  Everything else follows [rule.rs]. *)
From S2P Require Import Prelude RustStr RustNet.

(** ** External crates *)

(** [regex]: [RegexBuilder::new(src).size_limit(n).build()], [Regex::is_match],
    [Regex::as_str], and the [RegexSet] counterparts. *)
Class RegexLib : Type := {
  regex : Type;
  regex_build : bytes → Z → result regex bytes;
  regex_is_match : regex → bytes → bool;
  regex_as_str : regex → bytes;
  regex_set : Type;
  regex_set_build : list bytes → Z → result regex_set bytes;
  regex_set_matches : regex_set → bytes → list nat;
}.

(** Documented behaviour of [regex]: [as_str] is the source a regex was built from, and a
    [RegexSet] reports exactly the indices of the member patterns that match, each of them
    as the individually compiled regex would. *)
Class RegexLaws {RX : RegexLib} : Prop := {
  regex_as_str_build src lim re :
    regex_build src lim = Ok re → regex_as_str re = src;
  regex_set_matches_lt pats lim set text i :
    regex_set_build pats lim = Ok set → i ∈ regex_set_matches set text → i < length pats;
  regex_set_matches_iff pats lim set text i src lim' re :
    regex_set_build pats lim = Ok set → pats !! i = Some src → regex_build src lim' = Ok re →
    i ∈ regex_set_matches set text ↔ regex_is_match re text = true;
}.
Arguments RegexLaws : clear implicits.

(** [ipnet]: [IpNet] parsing, [contains] and [prefix_len]. *)
Class IpNetLib : Type := {
  ipnet : Type;
  ipnet_parse : bytes → option ipnet;
  ipnet_contains : ipnet → ip_addr → bool;
  ipnet_prefix_len : ipnet → Z;
}.

(** A regex value that [RegexBuilder] produced. *)
Definition built {RX : RegexLib} (re : regex) : Prop :=
  ∃ src lim, regex_build src lim = Ok re.

(** ** Data *)

Inductive Action : Type := Block | Allow | Rewrite.

#[export] Instance Action_eq_dec : EqDecision Action.
Proof. solve_decision. Defined.

Inductive RewriteRcode : Type := RcNoError | RcNxDomain | RcRefused | RcServFail.

Inductive RewriteData : Type :=
| RwA (ip : ipv4)
| RwAaaa (ip : ipv6)
| RwCname (target : bytes)
| RwTxt (text : bytes)
| RwMx (preference : Z) (exchange : bytes)
| RwPtr (target : bytes)
| RwRcode (rc : RewriteRcode).

#[export] Instance RewriteRcode_eq_dec : EqDecision RewriteRcode.
Proof. solve_decision. Defined.
#[export] Instance RewriteData_eq_dec : EqDecision RewriteData.
Proof. solve_decision. Defined.

Record DnsTypeFilter : Type := { dt_include : list bytes; dt_exclude : list bytes }.
Record CtagFilter : Type := { ct_include : list bytes; ct_exclude : list bytes }.
Record ClientInfo : Type := {
  ci_ip : option ip_addr;
  ci_name : option bytes;
  ci_tags : list bytes;
}.

(** [iter().any(|t| t == x)]. *)
Definition any_eq (x : bytes) (l : list bytes) : bool := existsb (λ t, bool_decide (t = x)) l.

(** [Vec::is_empty]. *)
Definition is_nil {A} (l : list A) : bool := match l with [] => true | _ => false end.

(** [DnsTypeFilter::matches]. *)
Definition dnstype_matches (f : DnsTypeFilter) (rtype : bytes) : bool :=
  if negb (is_nil (dt_exclude f)) && any_eq rtype (dt_exclude f) then false
  else if negb (is_nil (dt_include f)) then any_eq rtype (dt_include f)
  else true.

(** [CtagFilter::matches]; the closure [has] tests one filter tag against the client's. *)
Definition ctag_matches (f : CtagFilter) (tags : list bytes) : bool :=
  let has t := existsb (λ x, bool_decide (x = t)) tags in
  if existsb has (ct_exclude f) then false
  else if negb (is_nil (ct_include f)) then existsb has (ct_include f)
  else true.

Section rule.
Context {RX : RegexLib} {NL : IpNetLib}.

Inductive Pattern : Type :=
| Subdomain (d : bytes)
| Exact (d : bytes)
| Wildcard (re : regex)
| Regex (re : regex).

(** [Pattern::index_key]. *)
Definition index_key (p : Pattern) : option (bytes * bool) :=
  match p with
  | Subdomain d => Some (d, true)
  | Exact d => Some (d, false)
  | _ => None
  end.

Inductive ClientMatch : Type :=
| CmIp (ip : ip_addr)
| CmNet (net : ipnet)
| CmName (name : bytes).

Record ClientFilter : Type := { cf_include : list ClientMatch; cf_exclude : list ClientMatch }.

(** [ClientFilter::entry_matches] and [ClientFilter::matches]. *)
Definition entry_matches (m : ClientMatch) (client : ClientInfo) : bool :=
  match m with
  | CmIp ip => bool_decide (ci_ip client = Some ip)
  | CmNet net => match ci_ip client with Some ip => ipnet_contains net ip | None => false end
  | CmName n => bool_decide (ci_name client = Some n)
  end.
Definition client_matches (f : ClientFilter) (client : ClientInfo) : bool :=
  if existsb (λ m, entry_matches m client) (cf_exclude f) then false
  else if negb (is_nil (cf_include f)) then existsb (λ m, entry_matches m client) (cf_include f)
  else true.

Record RuleMods : Type := {
  important : bool;
  dnstype : option DnsTypeFilter;
  client : option ClientFilter;
  ctag : option CtagFilter;
  denyallow : list bytes;
  rewrite : option RewriteData;
}.

(** [RuleMods::default] and [RuleMods::is_empty]. *)
Definition mods_default : RuleMods :=
  {| important := false; dnstype := None; client := None; ctag := None;
     denyallow := []; rewrite := None |}.
Definition is_none {A} (o : option A) : bool := match o with None => true | _ => false end.
Definition mods_is_empty (m : RuleMods) : bool :=
  negb (important m) && is_none (dnstype m) && is_none (client m) && is_none (ctag m)
  && is_nil (denyallow m) && is_none (rewrite m).

Record Rule : Type := {
  rule_id : Z;
  raw : bytes;
  action : Action;
  pattern : Pattern;
  mods : option RuleMods;
  list_id : Z;
}.

Record BuildRule : Type := {
  rule : Rule;
  badfilter : bool;
  signature : bytes;
  index_tokens : list Z;
}.

(** [Rule::priority] and [Rule::rewrite]. *)
Definition action_score (a : Action) : Z :=
  match a with Allow => 2 | Block | Rewrite => 1 end.
Definition mods_important (m : option RuleMods) : bool :=
  match m with Some m => important m | None => false end.
Definition priority (r : Rule) : Z :=
  let score := action_score (action r) in
  if mods_important (mods r) then (score + 100)%Z else score.
Definition rule_rewrite (r : Rule) : option RewriteData := mods r ≫= rewrite.

(** ** Properties of the model *)

Lemma priority_pos r : (1 <= priority r)%Z.
Proof. unfold priority. destruct (action r), (mods_important _); simpl; lia. Qed.

(** Priority orders importance first, then exceptions over blocks and rewrites. *)
Lemma priority_important r1 r2 :
  mods_important (mods r1) = true → mods_important (mods r2) = false →
  (priority r2 < priority r1)%Z.
Proof. unfold priority. intros -> ->. destruct (action r1), (action r2); simpl; lia. Qed.

Lemma mods_is_empty_iff m : mods_is_empty m = true ↔ m = mods_default.
Proof.
  split; [|by intros ->]. destruct m as [i d c t [] r]; unfold mods_is_empty; simpl.
  all: destruct i, d, c, t, r; simpl; intros; done.
Qed.

End rule.
Arguments ClientFilter {_}.
Arguments RuleMods {_}.
Arguments Rule {_ _}.
Arguments BuildRule {_ _}.
