(* ===== verification/Token.v ===== *)
(** * bulwark-filter: tokenization ([crates/bulwark-filter/src/token.rs]).

    The reverse index of wildcard rules stores a rule under the hash of one of its tokens
    and looks rules up by the hashes of the query's tokens.  The loops of [token.rs] are
    modelled with their indices, and related to [runs], the maximal alphanumeric runs. *)
From Stdlib Require Import Ascii.
From S2P Require Import Prelude RustStr.

Definition MIN_TOKEN_LEN : nat := 3.
Definition is_token_char (b : byte) : bool := is_ascii_alphanumeric b.

(** [fast_hash]: FNV-1a on 32 bits over the lower-cased bytes. *)
Definition fnv_step (h : Z) (b : byte) : Z :=
  wrap 32 (Z.lxor h (u8 (lower_byte b)) * 16777619).
Definition fast_hash (s : bytes) : Z := foldl fnv_step 2166136261%Z s.

(** [&bytes[s..e]]. *)
Definition slice (s e : nat) (l : bytes) : bytes := take (e - s) (drop s l).

(** The loop shared by [tokenize_query_into] and [for_each_query_token]: [start] is the
    pending run's offset; [emit] is called on every run of at least [MIN_TOKEN_LEN] bytes. *)
Definition push_run (tokens : list Z) (run : bytes) : list Z :=
  if MIN_TOKEN_LEN <=? length run then tokens ++ [fast_hash run] else tokens.
Fixpoint query_token_loop (full : bytes) (i : nat) (rest : bytes) (start : option nat)
    (tokens : list Z) : list Z :=
  match rest with
  | [] => match start with
          | Some s => push_run tokens (drop s full)
          | None => tokens
          end
  | b :: rest =>
      if is_token_char b then
        query_token_loop full (S i) rest (match start with None => Some i | s => s end) tokens
      else match start with
           | Some s => query_token_loop full (S i) rest None (push_run tokens (slice s i full))
           | None => query_token_loop full (S i) rest None tokens
           end
  end.

(** [for_each_query_token]: the calls of the closure, in order. *)
Definition for_each_query_token (name : bytes) : list Z := query_token_loop name 0 name None [].

(** [Vec::dedup]: drops consecutive repetitions. *)
Fixpoint dedup (l : list Z) : list Z :=
  match l with
  | [] => []
  | x :: l' => match l' with
               | y :: _ => if (x =? y)%Z then dedup l' else x :: dedup l'
               | [] => [x]
               end
  end.
Definition sort_u32 (l : list Z) : list Z := merge_sort Z.le l.

(** [tokenize_query_into] (into a cleared buffer) and [tokenize_query]. *)
Definition tokenize_query (name : bytes) : list Z :=
  dedup (sort_u32 (query_token_loop name 0 name None [])).

(** The inner [while] of [tokenize_pattern_safe]: the length of the run at the front. *)
Fixpoint run_len (s : bytes) : nat :=
  match s with
  | b :: s => if is_token_char b then S (run_len s) else 0
  | [] => 0
  end.

Definition star : byte := "*"%char.
Definition not_star (o : option byte) : bool :=
  match o with Some b => negb (bool_decide (b = star)) | None => false end.

(** The outer [while] of [tokenize_pattern_safe]; every iteration advances [i], so
    [S (length full)] iterations are enough. *)
Fixpoint pattern_token_loop (fuel : nat) (full : bytes) (i : nat) (tokens : list Z) : list Z :=
  match fuel with
  | 0 => tokens
  | S fuel =>
      match full !! i with
      | None => tokens
      | Some b =>
          if negb (is_token_char b) then pattern_token_loop fuel full (S i) tokens
          else
            let start := i in
            let i := i + run_len (drop i full) in
            let left_ok := (0 <? start) && not_star (full !! (start - 1)) in
            let right_ok := (i <? length full) && not_star (full !! i) in
            let tokens :=
              if left_ok && right_ok && (MIN_TOKEN_LEN <=? i - start)
              then tokens ++ [fast_hash (slice start i full)] else tokens in
            pattern_token_loop fuel full i tokens
      end
  end.
Definition tokenize_pattern_safe (body : bytes) : list Z :=
  dedup (sort_u32 (pattern_token_loop (S (length body)) body 0 [])).

(** ** Reference: the maximal runs of token characters *)

(** [runs_go cur s]: the runs of [s], [cur] being the (reversed) run in progress. *)
Definition close_run (cur : bytes) (rs : list bytes) : list bytes :=
  match cur with [] => rs | _ => reverse cur :: rs end.
Fixpoint runs_go (cur : bytes) (s : bytes) : list bytes :=
  match s with
  | [] => close_run cur []
  | b :: s => if is_token_char b then runs_go (b :: cur) s else close_run cur (runs_go [] s)
  end.
Definition runs (s : bytes) : list bytes := runs_go [] s.

Definition long_run (r : bytes) : bool := MIN_TOKEN_LEN <=? length r.
Definition token_hashes (rs : list bytes) : list Z :=
  fast_hash <$> filter (λ r, long_run r = true) rs.

(** ** The query loop computes the hashes of the long runs *)

Lemma push_run_hashes tokens r : push_run tokens r = tokens ++ token_hashes [r].
Proof.
  unfold push_run, token_hashes, long_run. rewrite filter_cons, filter_nil.
  destruct (MIN_TOKEN_LEN <=? length r) eqn:E;
    [rewrite decide_True by done|rewrite decide_False by congruence]; simpl; [done|].
  by rewrite app_nil_r.
Qed.

Lemma token_hashes_app rs1 rs2 : token_hashes (rs1 ++ rs2) = token_hashes rs1 ++ token_hashes rs2.
Proof. unfold token_hashes. by rewrite filter_app, fmap_app. Qed.

Lemma slice_snoc_in (s i : nat) (full : bytes) (rest : bytes) :
  s ≤ i → drop i full = rest → drop s full = slice s i full ++ rest.
Proof.
  intros Hle <-. unfold slice.
  rewrite <- (take_drop (i - s) (drop s full)) at 1. rewrite drop_drop. do 2 f_equal. lia.
Qed.

(** Invariant of the loop: [cur] is the reverse of the slice of the pending run. *)
Definition pending_run (full : bytes) (i : nat) (start : option nat) : bytes :=
  match start with Some s => slice s i full | None => [] end.

Lemma drop_lookup_head i (full rest : bytes) b : drop i full = b :: rest → full !! i = Some b.
Proof. intros H. rewrite <- (Nat.add_0_r i), <- lookup_drop, H. done. Qed.

Lemma slice_extend s i (full rest : bytes) b :
  s ≤ i → drop i full = b :: rest → slice s (S i) full = slice s i full ++ [b].
Proof.
  intros Hle Hd%drop_lookup_head. unfold slice. replace (S i - s) with (S (i - s)) by lia.
  rewrite (take_S_r _ _ b); [done|]. rewrite lookup_drop. by replace (s + (i - s)) with i by lia.
Qed.

Lemma drop_S_tail i (full rest : bytes) b : drop i full = b :: rest → drop (S i) full = rest.
Proof. intros H. rewrite <- (Nat.add_1_r i), <- drop_drop, H. done. Qed.

Lemma slice_nonempty s i (full : bytes) : s < i → i ≤ length full → slice s i full ≠ [].
Proof.
  intros ?? E%(f_equal length). unfold slice in E.
  rewrite length_take, length_drop in E. simpl in E. lia.
Qed.

Lemma close_run_reverse l rs : l ≠ [] → close_run (reverse l) rs = l :: rs.
Proof.
  intros Hl. destruct (reverse l) as [|x k] eqn:E; simpl.
  - by rewrite <- (reverse_involutive l), E in Hl.
  - by rewrite <- E, reverse_involutive.
Qed.

Lemma query_token_loop_spec full rest i start tokens :
  drop i full = rest → i ≤ length full →
  (∀ s, start = Some s → s < i) →
  query_token_loop full i rest start tokens
  = tokens ++ token_hashes (runs_go (reverse (pending_run full i start)) rest).
Proof.
  revert i start tokens.
  induction rest as [|b rest IH]; intros i start tokens Hd Hi Hs; simpl.
  - destruct start as [s|]; simpl; [|by rewrite app_nil_r]. specialize (Hs s eq_refl).
    rewrite push_run_hashes, (slice_snoc_in s i full []) by (done || lia).
    by rewrite app_nil_r, close_run_reverse by (by apply slice_nonempty).
  - pose proof (drop_S_tail _ _ _ _ Hd) as Hd'.
    pose proof (lookup_lt_Some _ _ _ (drop_lookup_head _ _ _ _ Hd)) as Hi'.
    destruct (is_token_char b) eqn:Eb; [rewrite IH; [|done|lia|]|].
    + do 3 f_equal. destruct start as [s|]; simpl.
      * specialize (Hs s eq_refl). rewrite (slice_extend s i full rest b) by (done || lia).
        by rewrite reverse_app.
      * rewrite (slice_extend i i full rest b) by (done || lia).
        unfold slice at 1. by rewrite Nat.sub_diag.
    + intros s. destruct start as [s'|]; intros [= <-]; [specialize (Hs s' eq_refl)|]; lia.
    + destruct start as [s|]; rewrite IH; try done; simpl. specialize (Hs s eq_refl).
      rewrite push_run_hashes, <- (assoc_L (++)), <- token_hashes_app.
      by rewrite close_run_reverse by (apply slice_nonempty; lia).
Qed.

Lemma for_each_query_token_runs name : for_each_query_token name = token_hashes (runs name).
Proof. unfold for_each_query_token. rewrite query_token_loop_spec; [done|done|lia|done]. Qed.

(** ** Runs of a decomposed string *)

Definition all_token (r : bytes) : Prop := Forall (λ b, is_token_char b = true) r.
(** No token character at the end, respectively at the front. *)
Definition ends_break (u : bytes) : Prop :=
  u = [] ∨ ∃ u' x, u = u' ++ [x] ∧ is_token_char x = false.
Definition starts_break (v : bytes) : Prop :=
  v = [] ∨ ∃ x v', v = x :: v' ∧ is_token_char x = false.

Lemma close_run_app cur rs1 rs2 : close_run cur (rs1 ++ rs2) = close_run cur rs1 ++ rs2.
Proof. by destruct cur. Qed.

Lemma runs_go_break cur u x t :
  is_token_char x = false → runs_go cur (u ++ x :: t) = runs_go cur u ++ runs t.
Proof.
  intros Hx. revert cur. induction u as [|b u IH]; intros cur; simpl.
  - rewrite Hx. rewrite <- (app_nil_l (runs_go [] t)), close_run_app. done.
  - destruct (is_token_char b); rewrite IH; [done|]. apply close_run_app.
Qed.

Lemma runs_go_all cur r : all_token r → runs_go cur r = close_run (reverse r ++ cur) [].
Proof.
  revert cur. induction r as [|b r IH]; intros cur H; [done|].
  inversion H as [|? ? Hb Hr]; subst. simpl. rewrite Hb, IH by done.
  by rewrite reverse_cons, <- (assoc_L (++)).
Qed.

Lemma runs_all r : all_token r → r ≠ [] → runs r = [r].
Proof. intros ??. unfold runs. by rewrite runs_go_all, app_nil_r, close_run_reverse. Qed.

(** A maximal run of the decomposition is one of the runs. *)
Lemma runs_complete u r v :
  ends_break u → all_token r → r ≠ [] → starts_break v → r ∈ runs (u ++ r ++ v).
Proof.
  intros Hu Hr Hne Hv. unfold runs.
  assert (Hmid : ∀ v, starts_break v → r ∈ runs_go [] (r ++ v)).
  { intros w [->|(x & w' & -> & Hx)].
    - rewrite app_nil_r. change (r ∈ runs r). rewrite runs_all by done. set_solver.
    - rewrite runs_go_break by done. change (runs_go [] r) with (runs r).
      rewrite runs_all by done. set_solver. }
  destruct Hu as [->|(u' & x & -> & Hx)]; [by apply Hmid|].
  rewrite <- (assoc_L (++)). simpl. rewrite runs_go_break by done.
  apply elem_of_app. right. by apply Hmid.
Qed.

Lemma token_hashes_elem t rs :
  t ∈ token_hashes rs ↔ ∃ r, r ∈ rs ∧ long_run r = true ∧ t = fast_hash r.
Proof.
  unfold token_hashes. rewrite list_elem_of_fmap. setoid_rewrite list_elem_of_filter. naive_solver.
Qed.

Lemma dedup_elem x l : x ∈ dedup l ↔ x ∈ l.
Proof.
  induction l as [|y l IH]; [done|]. destruct l as [|z l]; [done|].
  change (dedup (y :: z :: l)) with
    (if (y =? z)%Z then dedup (z :: l) else y :: dedup (z :: l)).
  destruct (Z.eqb_spec y z) as [->|Hne]; rewrite ?elem_of_cons, IH; set_solver.
Qed.

Lemma sort_u32_elem x l : x ∈ sort_u32 l ↔ x ∈ l.
Proof. unfold sort_u32. by rewrite merge_sort_Permutation. Qed.

Lemma tokenize_query_elem t name : t ∈ tokenize_query name ↔ t ∈ for_each_query_token name.
Proof. unfold tokenize_query. by rewrite dedup_elem, sort_u32_elem. Qed.

(** ** The hash ignores case *)

Lemma lower_byte_idem b : lower_byte (lower_byte b) = lower_byte b.
Proof. destruct b as [[] [] [] [] [] [] [] []]; reflexivity. Qed.

Lemma is_token_char_lower b : is_token_char (lower_byte b) = is_token_char b.
Proof. destruct b as [[] [] [] [] [] [] [] []]; reflexivity. Qed.

Lemma fast_hash_lower s t : to_ascii_lowercase s = to_ascii_lowercase t → fast_hash s = fast_hash t.
Proof.
  unfold fast_hash. generalize 2166136261%Z as h. revert t.
  induction s as [|a s IH]; intros [|b t] h; simpl; try done.
  intros [= H1 H2]. unfold fnv_step at 2 4. rewrite H1. by apply IH.
Qed.

(** ** Safe tokens of a pattern *)

(** A token of [body] is safe when it is a maximal run delimited on both sides by
    characters other than the wildcard. *)
Definition safe_token (body : bytes) (t : Z) : Prop :=
  ∃ u l r x v, body = u ++ l :: r ++ x :: v ∧ is_token_char l = false ∧ l ≠ star ∧
    all_token r ∧ long_run r = true ∧ is_token_char x = false ∧ x ≠ star ∧ t = fast_hash r.

Lemma run_len_spec s :
  all_token (take (run_len s) s) ∧
  (∀ b, s !! run_len s = Some b → is_token_char b = false) ∧ run_len s ≤ length s.
Proof.
  induction s as [|b s (IH1 & IH2 & IH3)]; simpl; [repeat split; try done; constructor|].
  destruct (is_token_char b) eqn:Eb; simpl.
  - repeat split; [by constructor|done|lia].
  - repeat split; [constructor|by intros ? [= <-]|lia].
Qed.

(** Loop invariant: a token character under the cursor starts a maximal run. *)
Definition at_run_start (full : bytes) (i : nat) : Prop :=
  ∀ b c j, full !! i = Some b → is_token_char b = true → i = S j → full !! j = Some c →
    is_token_char c = false.

Lemma pattern_step_safe (full : bytes) i b t :
  full !! i = Some b → is_token_char b = true → at_run_start full i →
  let e := i + run_len (drop i full) in
  (0 <? i) && not_star (full !! (i - 1)) && ((e <? length full) && not_star (full !! e))
    && (MIN_TOKEN_LEN <=? e - i) = true →
  t = fast_hash (slice i e full) → safe_token full t.
Proof.
  intros Hb Htok Hinv e Hc ->. bool_to_prop.
  destruct i as [|j]; [done|]. simpl in *. rewrite Nat.sub_0_r in *.
  destruct (full !! j) as [l|] eqn:El; [|done].
  destruct (full !! e) as [x|] eqn:Ex; [|done]. simpl in *. bool_to_prop.
  destruct (run_len_spec (drop (S j) full)) as (Hall & Hend & _).
  exists (take j full), l, (slice (S j) e full), x, (drop (S e) full).
  assert (Hsl : slice (S j) e full = take (run_len (drop (S j) full)) (drop (S j) full)).
  { unfold slice. f_equal. unfold e. lia. }
  split_and!; try done.
  - rewrite <- (take_drop_middle full j l El) at 1. do 2 f_equal.
    rewrite <- (take_drop (run_len (drop (S j) full)) (drop (S j) full)) at 1.
    rewrite <- Hsl, drop_drop. f_equal. fold e. by apply drop_S.
  - by eapply (Hinv b l j).
  - by rewrite Hsl.
  - unfold long_run, slice. rewrite length_take, length_drop.
    apply Nat.leb_le. apply lookup_lt_Some in Ex.
    assert (MIN_TOKEN_LEN ≤ e - S j) by (by apply Nat.leb_le). lia.
  - eapply Hend. by rewrite lookup_drop.
Qed.

Lemma pattern_token_loop_sound fuel full i tokens t :
  at_run_start full i → t ∈ pattern_token_loop fuel full i tokens →
  t ∈ tokens ∨ safe_token full t.
Proof.
  revert i tokens. induction fuel as [|fuel IH]; intros i tokens Hinv Ht; simpl in Ht; [by left|].
  destruct (full !! i) as [b|] eqn:Eb; [|by left].
  destruct (is_token_char b) eqn:Etok; simpl in Ht.
  - apply IH in Ht.
    + destruct Ht as [Ht|]; [|by right]. destruct (_ && _) eqn:Ec in Ht; [|by left].
      apply elem_of_app in Ht as [|Ht%list_elem_of_singleton]; [by left|right].
      by eapply pattern_step_safe.
    + intros b' c j Hb' Htok' Hj Hc. exfalso.
      destruct (run_len_spec (drop i full)) as (_ & Hend & _).
      rewrite (Hend b') in Htok'; [done|]. by rewrite lookup_drop.
  - apply IH in Ht; [done|]. intros b' c j _ _ [= <-] Hc. congruence.
Qed.

Lemma tokenize_pattern_safe_sound body t : t ∈ tokenize_pattern_safe body → safe_token body t.
Proof.
  unfold tokenize_pattern_safe. rewrite dedup_elem, sort_u32_elem. intros Ht.
  apply pattern_token_loop_sound in Ht as [Ht%elem_of_nil|]; [done|done|].
  by intros b c j _ _ [=].
Qed.
