(* ===== verification/Glob.v ===== *)
(** * The meaning of AdBlock wildcard patterns, and why the token index is safe for them.

    [build_wildcard_regex] compiles a pattern body to a regex source.  [glob_matches] is
    what that source means on ASCII text: [*] any text without a line feed, [^] a character
    outside [[a-z0-9._-]] or the end of the text, any other character itself, letters
    without case; the anchors fix the two ends.  The main result is that every safe token
    of the pattern is a token of every text the pattern matches. *)
From Stdlib Require Import Ascii.
From S2P Require Import Prelude RustStr Token.

Definition caret : byte := "^"%char.
Definition dot : byte := "."%char.

(** [(?i)[^a-z0-9._-]]. *)
Definition sep_class (b : byte) : bool :=
  negb (is_ascii_alphanumeric b || existsb (λ c, bool_decide (b = c)) (bs "._-")).

(** A match of the pattern body at the front of [s]. *)
Fixpoint gmatch (end_anchor : bool) (body s : bytes) : bool :=
  match body with
  | [] => if end_anchor then bool_decide (s = []) else true
  | c :: body =>
      if bool_decide (c = star) then
        (fix skip (s : bytes) : bool :=
           gmatch end_anchor body s ||
           match s with
           | [] => false
           | b :: s => negb (bool_decide (b = LF)) && skip s
           end) s
      else if bool_decide (c = caret) then
        match s with
        | [] => gmatch end_anchor body []
        | b :: s => sep_class b && gmatch end_anchor body s
        end
      else
        match s with
        | [] => false
        | b :: s => bool_decide (lower_byte c = lower_byte b) && gmatch end_anchor body s
        end
  end.

(** The positions where an unanchored match may begin, and those after a dot. *)
Fixpoint suffixes (s : bytes) : list bytes :=
  s :: match s with [] => [] | _ :: t => suffixes t end.
Fixpoint after_dots (s : bytes) : list bytes :=
  match s with
  | [] => []
  | b :: t => if bool_decide (b = dot) then t :: after_dots t else after_dots t
  end.

(** The regex searched in the text: [(?:^|\.)], [^], or nothing in front. *)
Definition glob_matches (subdomain_anchor start_anchor end_anchor : bool) (body s : bytes) : bool :=
  existsb (gmatch end_anchor body)
    (if subdomain_anchor then s :: after_dots s
     else if start_anchor then [s] else suffixes s).

Definition is_ascii (s : bytes) : bool := forallb (λ b, (u8 b <? 128)%Z) s.
Lemma is_ascii_app s t : is_ascii (s ++ t) = is_ascii s && is_ascii t.
Proof. apply forallb_app. Qed.

(** ** Decomposing a match *)

Lemma suffixes_suffix s t : t ∈ suffixes s → ∃ p, s = p ++ t.
Proof.
  revert t. induction s as [|b s IH]; intros t; simpl; rewrite elem_of_cons.
  - intros [->|[]%elem_of_nil]. by exists [].
  - intros [->|Ht]; [by exists []|]. destruct (IH t Ht) as [p ->]. by exists (b :: p).
Qed.

Lemma after_dots_suffix s t : t ∈ after_dots s → ∃ p, s = p ++ dot :: t.
Proof.
  induction s as [|b s IH]; simpl; [by intros []%elem_of_nil|].
  case_bool_decide as Hb; [rewrite elem_of_cons; intros [->|Ht]|intros Ht].
  - exists []. by rewrite Hb.
  - destruct (IH Ht) as [p ->]. by exists (b :: p).
  - destruct (IH Ht) as [p ->]. by exists (b :: p).
Qed.

Lemma glob_matches_suffix sub st e body s :
  glob_matches sub st e body s = true → ∃ p t, s = p ++ t ∧ gmatch e body t = true.
Proof.
  unfold glob_matches. rewrite existsb_elem. intros (t & Ht & Hm).
  destruct sub; [|destruct st].
  - apply elem_of_cons in Ht as [->|Ht]; [by exists [], s|].
    apply after_dots_suffix in Ht as [p ->]. exists (p ++ [dot]), t. by rewrite <- (assoc_L (++)).
  - apply list_elem_of_singleton in Ht as ->. by exists [], s.
  - apply suffixes_suffix in Ht as [p ->]. by exists p, t.
Qed.

(** A match of a concatenation contains a match of the second part. *)
Lemma gmatch_app e x y s :
  gmatch e (x ++ y) s = true → ∃ p t, s = p ++ t ∧ gmatch e y t = true.
Proof.
  revert s. induction x as [|c x IH]; intros s; [by exists [], s|]. cbn [gmatch app].
  case_bool_decide as Hs; [|case_bool_decide].
  - induction s as [|b s IHs]; rewrite orb_true_iff; intros [Hm|Hm]; [by apply IH|done|by apply IH|].
    bool_to_prop. destruct IHs as (p & t & -> & ?); [done|]. by exists (b :: p), t.
  - destruct s as [|b s]; [apply IH|]. intros [_ Hm]%andb_true_iff.
    destruct (IH _ Hm) as (p & t & -> & ?). by exists (b :: p), t.
  - destruct s as [|b s]; [done|]. intros [_ Hm]%andb_true_iff.
    destruct (IH _ Hm) as (p & t & -> & ?). by exists (b :: p), t.
Qed.

Lemma token_not_special c : is_token_char c = true → c ≠ star ∧ c ≠ caret.
Proof. intros H. split; intros ->; done. Qed.

Lemma sep_class_break b : sep_class b = true → is_token_char b = false.
Proof. unfold sep_class, is_token_char. by destruct (is_ascii_alphanumeric b). Qed.

Lemma break_lower c b :
  lower_byte c = lower_byte b → is_token_char c = false → is_token_char b = false.
Proof. intros H Hc. by rewrite <- is_token_char_lower, <- H, is_token_char_lower. Qed.

(** A run of token characters consumes a run with the same letters up to case. *)
Lemma gmatch_run e r y s :
  all_token r → gmatch e (r ++ y) s = true →
  ∃ r' t, s = r' ++ t ∧ all_token r' ∧ to_ascii_lowercase r' = to_ascii_lowercase r
          ∧ gmatch e y t = true.
Proof.
  intros Hr. revert s. induction Hr as [|c r Hc Hr IH]; intros s Hm.
  { exists [], s. repeat split; [constructor|done]. }
  destruct (token_not_special c Hc) as [??]. cbn [gmatch app] in Hm.
  rewrite !bool_decide_eq_false_2 in Hm by done. destruct s as [|b s]; [done|].
  bool_to_prop. destruct (IH s) as (r' & t & -> & ? & Hl & ?); [done|].
  exists (b :: r'), t. repeat split; [|simpl; by f_equal|done].
  constructor; [|done]. rewrite <- is_token_char_lower. replace (lower_byte b) with (lower_byte c).
  by rewrite is_token_char_lower.
Qed.

(** A delimiter of the pattern that is not a wildcard meets a break of the text. *)
Lemma gmatch_break e c y s :
  is_token_char c = false → c ≠ star → gmatch e (c :: y) s = true →
  starts_break s ∧ (s = [] ∧ gmatch e y [] = true ∨ ∃ b t, s = b :: t ∧ gmatch e y t = true).
Proof.
  intros Hc Hs. cbn [gmatch]. rewrite (bool_decide_eq_false_2 (c = star)) by done.
  destruct s as [|b t]; case_bool_decide; try done; intros Hm.
  - split; [by left|by left].
  - bool_to_prop. split; [|right; by exists b, t]. right. exists b, t. by eauto using sep_class_break.
  - bool_to_prop. split; [|right; by exists b, t]. right. exists b, t. by eauto using break_lower.
Qed.

Lemma long_run_lower r r' :
  to_ascii_lowercase r' = to_ascii_lowercase r → long_run r' = long_run r.
Proof. intros H%(f_equal length). unfold to_ascii_lowercase, long_run in *. rewrite !length_fmap in H. by rewrite H. Qed.

Lemma long_run_nonempty r : long_run r = true → r ≠ [].
Proof. by intros H ->. Qed.

(** Every safe token of the body occurs among the tokens of a matching text. *)
Lemma safe_token_in_match e body p s t :
  gmatch e body s = true → safe_token body t → t ∈ for_each_query_token (p ++ s).
Proof.
  intros Hm (u & l & r & x & v & -> & Hl & Hls & Hr & Hlong & Hx & Hxs & ->).
  apply gmatch_app in Hm as (p1 & s1 & -> & Hm).
  destruct (gmatch_break _ _ _ _ Hl Hls Hm) as [Hb1 [(-> & Hm')|(b & s2 & -> & Hm')]]; clear Hm; rename Hm' into Hm.
  { apply gmatch_run in Hm as (r' & t' & E & _ & Hlow & _); [|done].
    symmetry in E. apply app_nil in E as [-> ->].
    destruct r; [by apply long_run_nonempty in Hlong|done]. }
  apply gmatch_run in Hm as (r' & s3 & -> & Hr' & Hlow & Hm); [|done].
  destruct (gmatch_break _ _ _ _ Hx Hxs Hm) as [Hb2 _].
  rewrite for_each_query_token_runs, token_hashes_elem.
  exists r'. split_and!.
  - replace (p ++ p1 ++ b :: r' ++ s3) with ((p ++ p1 ++ [b]) ++ r' ++ s3)
      by (by rewrite <- !(assoc_L (++))).
    apply runs_complete; [|done|apply long_run_nonempty; by rewrite (long_run_lower r)|done].
    right. exists (p ++ p1), b. split; [by rewrite (assoc_L (++))|].
    destruct Hb1 as [|(x' & v' & [= <- <-] & ?)]; done.
  - by rewrite (long_run_lower r).
  - symmetry. by apply fast_hash_lower.
Qed.

(** The tokens are taken from the lower-cased body; that does not change its meaning. *)
Lemma lower_byte_special c d : is_ascii_alphanumeric d = false → lower_byte c = d ↔ c = d.
Proof.
  intros Hd. split; [|intros ->].
  - intros <-. revert Hd. by destruct c as [[] [] [] [] [] [] [] []].
  - revert Hd. by destruct d as [[] [] [] [] [] [] [] []].
Qed.

Lemma gmatch_lower e body s : gmatch e (to_ascii_lowercase body) s = gmatch e body s.
Proof.
  unfold to_ascii_lowercase. revert s.
  induction body as [|c body IH]; intros s; [done|]. rewrite fmap_cons. cbn [gmatch].
  rewrite (bool_decide_ext _ _ (lower_byte_special c star eq_refl)).
  rewrite (bool_decide_ext _ _ (lower_byte_special c caret eq_refl)), lower_byte_idem.
  case_bool_decide; [|case_bool_decide; destruct s; rewrite ?IH; done].
  induction s as [|b s IHs]; rewrite IH; [done|]. by rewrite IHs.
Qed.

Lemma glob_tokens_sound sub st e body s t :
  glob_matches sub st e body s = true → t ∈ tokenize_pattern_safe (to_ascii_lowercase body) →
  t ∈ for_each_query_token s.
Proof.
  intros (p & q & -> & Hm)%glob_matches_suffix Ht%tokenize_pattern_safe_sound.
  eapply safe_token_in_match; [|done]. by rewrite gmatch_lower.
Qed.
