(* ===== verification/Parser.v ===== *)
(** * bulwark-filter: rule parsing ([crates/bulwark-filter/src/parser.rs]).

    One definition per function of the source; early returns are values of [result], the
    modifier loop of [parse_adblock] is a recursion over its tokens with the loop's
    variables as state. *)
From Stdlib Require Import Ascii.
From S2P Require Import Prelude RustStr RustNet Rule Token Glob.

Definition MAX_REGEX_LEN : nat := 1000.
Definition REGEX_SIZE_LIMIT : Z := 256 * 1024.

Inductive ParseError : Type :=
| EReg (msg : bytes)
| EInvalid (msg : bytes).

(** [is_blocking_ip]. *)
Definition is_blocking_ip (ip : ip_addr) : bool := is_unspecified ip || is_loopback ip.

(** [norm_domain]. *)
Definition norm_domain (d : bytes) : bytes := to_ascii_lowercase (trim_end_matches dot (trim d)).

(** [ip_literal]. *)
Definition ip_literal (s : bytes) : option bytes :=
  let bare := default s (strip_prefix (bs "[") s ≫= strip_suffix (bs "]")) in
  show_ip <$> parse_ip bare.

(** [is_cosmetic]: the byte scan, over the remaining suffix. *)
Fixpoint skip_markers (s : bytes) : bytes :=
  match s with
  | b :: t => if bool_decide (b ∈ bs "@?$%") then skip_markers t else s
  | [] => []
  end.
Fixpoint is_cosmetic (s : bytes) : bool :=
  match s with
  | [] => false
  | b :: t =>
      if bool_decide (b = "#"%char) then
        if starts_with (bs "#") (skip_markers t) then true else is_cosmetic t
      else if bool_decide (b = "$"%char) && (starts_with (bs "$$") s || starts_with (bs "$@$") s)
      then true
      else is_cosmetic t
  end.

(** [is_dns_hostname]. *)
Definition host_char (c : byte) : bool :=
  is_ascii_alphanumeric c || bool_decide (c = "-"%char) || bool_decide (c = "_"%char).
Definition host_label (l : bytes) : bool :=
  negb (is_nil l) && (length l <=? 63) && forallb host_char l.
Definition is_dns_hostname (d : bytes) : bool :=
  negb (is_nil d) && (length d <=? 253) && forallb host_label (split_byte dot d).

(** [HOSTS_NOISE]. *)
Definition HOSTS_NOISE : list bytes :=
  bs <$> ["localhost"; "localhost.localdomain"; "local"; "broadcasthost"; "ip6-localhost";
          "ip6-loopback"; "ip6-localnet"; "ip6-mcastprefix"; "ip6-allnodes";
          "ip6-allrouters"; "ip6-allhosts"; "0.0.0.0"].

(** [split_modifiers]. *)
Definition split_modifiers (s : bytes) : bytes * option bytes :=
  if starts_with (bs "/") s then
    match find_str (bs "/$") s with
    | Some idx => (take (S idx) s, Some (drop (idx + 2) s))
    | None => (s, None)
    end
  else
    match find_byte "$"%char s with
    | Some idx => (take idx s, Some (drop (S idx) s))
    | None => (s, None)
    end.

(** Lexicographic order of byte strings ([Vec<String>::sort]). *)
Fixpoint bytes_leb (s t : bytes) : bool :=
  match s, t with
  | [], _ => true
  | _ :: _, [] => false
  | a :: s, b :: t => if (u8 a <? u8 b)%Z then true else if (u8 a =? u8 b)%Z then bytes_leb s t else false
  end.
Definition bytes_le (s t : bytes) : Prop := bytes_leb s t = true.
#[export] Instance bytes_le_dec : RelDecision bytes_le.
Proof. intros s t. unfold bytes_le. apply _. Defined.

(** [make_signature]. *)
Definition signature_parts (mods : option bytes) : list bytes :=
  match mods with
  | Some m =>
      filter (λ s, negb (is_nil s) && negb (bool_decide (s = bs "badfilter")) = true)
        (trim <$> split_byte ","%char m)
  | None => []
  end.
Definition make_signature (action : Action) (pattern : bytes) (mods : option bytes) : bytes :=
  let prefix := if bool_decide (action = Allow) then bs "@@" else [] in
  prefix ++ to_ascii_lowercase pattern ++ bs "|$"
    ++ join (bs ",") (merge_sort bytes_le (signature_parts mods)).

(** The source text [build_wildcard_regex] hands to the regex compiler. *)
Definition wildcard_char (c : byte) : bytes :=
  if bool_decide (c = star) then bs ".*"
  else if bool_decide (c = caret) then bs "(?:[^a-z0-9._-]|$)"
  else if bool_decide (c ∈ bs "\.+?()[]{}|$") then ["\"%char; c]
  else [c].
Definition wildcard_src (body : bytes) (subdomain_anchor start_anchor end_anchor : bool) : bytes :=
  bs "(?i)"
    ++ (if subdomain_anchor then bs "(?:^|\.)" else if start_anchor then bs "^" else [])
    ++ mjoin (wildcard_char <$> body)
    ++ (if end_anchor then bs "$" else []).

(** [value.split('|').filter(|s| !s.is_empty())]. *)
Definition bar_items (value : bytes) : list bytes :=
  filter (λ s, is_nil s = false) (split_byte "|"%char value).

(** [parse_dnstype] and [parse_ctag]: the loop over the items. *)
Definition split_negated (f : bytes → bytes) (items : list bytes) : list bytes * list bytes :=
  foldl (λ '(inc, exc) t,
           match strip_prefix (bs "~") t with
           | Some neg => (inc, exc ++ [f neg])
           | None => (inc ++ [f t], exc)
           end) ([], []) items.
Definition parse_dnstype (value : bytes) : result DnsTypeFilter ParseError :=
  let '(inc, exc) := split_negated to_ascii_uppercase (bar_items value) in
  if is_nil inc && is_nil exc then Err (EInvalid (bs "$dnstype requires at least one record type"))
  else Ok {| dt_include := inc; dt_exclude := exc |}.
Definition parse_ctag (value : bytes) : result CtagFilter ParseError :=
  let '(inc, exc) := split_negated id (bar_items value) in
  if is_nil inc && is_nil exc then Err (EInvalid (bs "$ctag requires at least one tag"))
  else Ok {| ct_include := inc; ct_exclude := exc |}.

(** [ip_rewrite] and [parse_dnsrewrite]. *)
Definition ip_rewrite (ip : ip_addr) : RewriteData :=
  match ip with V4 a => RwA a | V6 a => RwAaaa a end.
Definition quote : byte := Ascii.ascii_of_nat 34.
Definition apostrophe : byte := Ascii.ascii_of_nat 39.

(** The [RCODE;TYPE;VALUE] form; [None] falls through to the next case. *)
Definition parse_full_rewrite (rtype data : bytes) : option (result RewriteData ParseError) :=
  let rtype := to_ascii_uppercase rtype in
  let bad what := EInvalid (bs "bad " ++ what ++ bs " in dnsrewrite: " ++ data) in
  if bool_decide (rtype = bs "A") then
    Some (match parse_ipv4 data with Some ip => Ok (RwA ip) | None => Err (bad (bs "A")) end)
  else if bool_decide (rtype = bs "AAAA") then
    Some (match parse_ipv6 data with Some ip => Ok (RwAaaa ip) | None => Err (bad (bs "AAAA")) end)
  else if bool_decide (rtype = bs "CNAME") then Some (Ok (RwCname (norm_domain data)))
  else if bool_decide (rtype = bs "TXT") then Some (Ok (RwTxt (trim_matches quote data)))
  else if bool_decide (rtype = bs "PTR") then Some (Ok (RwPtr (norm_domain data)))
  else if bool_decide (rtype = bs "MX") then
    Some (match split_whitespace data with
          | [] => Err (bad (bs "MX"))
          | p :: rest =>
              match parse_uint 16 p with
              | None => Err (bad (bs "MX"))
              | Some preference =>
                  match rest with
                  | [] => Err (bad (bs "MX"))
                  | exchange :: _ => Ok (RwMx preference (norm_domain exchange))
                  end
              end
          end)
  else None.

Definition parse_dnsrewrite (value : bytes) : result RewriteData ParseError :=
  let v := trim value in
  let up := to_ascii_uppercase v in
  if bool_decide (up = bs "NOERROR") then Ok (RwRcode RcNoError)
  else if bool_decide (up = bs "NXDOMAIN") then Ok (RwRcode RcNxDomain)
  else if bool_decide (up = bs "REFUSED") then Ok (RwRcode RcRefused)
  else if bool_decide (up = bs "SERVFAIL") then Ok (RwRcode RcServFail)
  else match parse_ip v with
  | Some ip => Ok (ip_rewrite ip)
  | None =>
      let full := match splitn 3 ";"%char v with
                  | [_; rtype; data] => parse_full_rewrite rtype data
                  | _ => None
                  end in
      match full with
      | Some r => r
      | None =>
          if contains_byte dot v && negb (contains_byte ";"%char v)
          then Ok (RwCname (norm_domain v))
          else Err (EInvalid (bs "unsupported dnsrewrite: " ++ value))
      end
  end.

Section parser.
Context {RX : RegexLib} {NL : IpNetLib}.

Inductive Parsed : Type :=
| PRules (rules : list BuildRule)
| PIgnored
| PUnsupported (line : bytes).

(** [compile_regex]. *)
Definition compile_regex (src : bytes) : result regex ParseError :=
  match regex_build src REGEX_SIZE_LIMIT with
  | Ok re => Ok re
  | Err e => Err (EReg e)
  end.

Definition build_wildcard_regex (body : bytes) (sub start endd : bool) : result regex ParseError :=
  compile_regex (wildcard_src body sub start endd).

(** The prefix and suffix anchors of [parse_pattern]. *)
Definition strip_anchors (p : bytes) : bool * bool * bool * bytes :=
  let '(sub, start, s) :=
    match strip_prefix (bs "||") p with
    | Some rest => (true, false, rest)
    | None => match strip_prefix (bs "|") p with
              | Some rest => (false, true, rest)
              | None => (false, false, p)
              end
    end in
  let '(endd, s) :=
    match strip_suffix (bs "^") s with
    | Some rest => (true, rest)
    | None => match strip_suffix (bs "|") s with
              | Some rest => (true, rest)
              | None => (false, s)
              end
    end in
  (sub, start, endd, trim_end_matches caret s).

(** [parse_pattern]. *)
Definition parse_pattern (p : bytes) : result (Pattern * list Z) ParseError :=
  if starts_with (bs "/") p && ends_with (bs "/") p && (2 <=? length p) then
    let inner := take (length p - 2) (drop 1 p) in
    if MAX_REGEX_LEN <? length inner then
      Err (EReg (bs "regex too long (" ++ show_dec (Z.of_nat (length inner)) ++ bs " > 1000 chars)"))
    else
      let? re := compile_regex (bs "(?i)" ++ inner) in
      Ok (Regex re, [])
  else
    let '(sub, start, endd, s) := strip_anchors p in
    if contains_byte star s || contains_byte caret s then
      let? re := build_wildcard_regex s sub start endd in
      Ok (Wildcard re, tokenize_pattern_safe (to_ascii_lowercase s))
    else
      match ip_literal s with
      | Some ip => Ok (Exact ip, [])
      | None =>
          let domain := norm_domain s in
          if is_nil domain then Err (EInvalid (bs "empty domain"))
          else if negb (is_dns_hostname domain) then
            Err (EInvalid (bs "not a DNS hostname: " ++ domain))
          else if start then Ok (Exact domain, [])
          else Ok (Subdomain domain, [])
      end.

(** [parse_client]. *)
Definition parse_client_spec (raw : bytes) : bool * ClientMatch :=
  let '(neg, spec) := match strip_prefix (bs "~") raw with
                      | Some rest => (true, rest)
                      | None => (false, raw)
                      end in
  let spec := trim_matches apostrophe (trim_matches quote spec) in
  let m := match ipnet_parse spec with
           | Some net => CmNet net
           | None => match parse_ip spec with
                     | Some ip => CmIp ip
                     | None => CmName spec
                     end
           end in
  (neg, m).
Definition parse_client (value : bytes) : result ClientFilter ParseError :=
  let '(inc, exc) :=
    foldl (λ '(inc, exc) raw,
             let '(neg, m) := parse_client_spec raw in
             if neg : bool then (inc, exc ++ [m]) else (inc ++ [m], exc)) ([], []) (bar_items value) in
  if is_nil inc && is_nil exc then Err (EInvalid (bs "$client requires at least one client"))
  else Ok {| cf_include := inc; cf_exclude := exc |}.

(** The variables of [parse_adblock]'s modifier loop. *)
Record ModState : Type := { ms_action : Action; ms_badfilter : bool; ms_mods : RuleMods }.

Definition set_action (a : Action) (s : ModState) : ModState :=
  {| ms_action := a; ms_badfilter := ms_badfilter s; ms_mods := ms_mods s |}.
Definition set_badfilter (s : ModState) : ModState :=
  {| ms_action := ms_action s; ms_badfilter := true; ms_mods := ms_mods s |}.
Definition map_mods (f : RuleMods → RuleMods) (s : ModState) : ModState :=
  {| ms_action := ms_action s; ms_badfilter := ms_badfilter s; ms_mods := f (ms_mods s) |}.

(** One iteration of the loop on a non-empty trimmed token; [Ok None] is the early
    [return Ok(Parsed::Unsupported(..))]. *)
Definition parse_mod (tok : bytes) (s : ModState) : result (option ModState) ParseError :=
  let '(key, value) := match split_once "="%char tok with
                       | Some (k, v) => (k, Some v)
                       | None => (tok, None)
                       end in
  let v := default [] value in
  if bool_decide (key = bs "important") then
    Ok (Some (map_mods (λ m, {| important := true; dnstype := dnstype m; client := client m;
      ctag := ctag m; denyallow := denyallow m; rewrite := rewrite m |}) s))
  else if bool_decide (key = bs "badfilter") then Ok (Some (set_badfilter s))
  else if bool_decide (key = bs "dnstype") then
    let? f := parse_dnstype v in
    Ok (Some (map_mods (λ m, {| important := important m; dnstype := Some f; client := client m;
      ctag := ctag m; denyallow := denyallow m; rewrite := rewrite m |}) s))
  else if bool_decide (key = bs "client") then
    let? f := parse_client v in
    Ok (Some (map_mods (λ m, {| important := important m; dnstype := dnstype m; client := Some f;
      ctag := ctag m; denyallow := denyallow m; rewrite := rewrite m |}) s))
  else if bool_decide (key = bs "ctag") then
    let? f := parse_ctag v in
    Ok (Some (map_mods (λ m, {| important := important m; dnstype := dnstype m; client := client m;
      ctag := Some f; denyallow := denyallow m; rewrite := rewrite m |}) s))
  else if bool_decide (key = bs "denyallow") then
    let domains := norm_domain <$> bar_items v in
    if is_nil domains then Err (EInvalid (bs "$denyallow requires at least one domain"))
    else
      Ok (Some (map_mods (λ m, {| important := important m; dnstype := dnstype m; client := client m;
        ctag := ctag m; denyallow := domains; rewrite := rewrite m |}) s))
  else if bool_decide (key = bs "dnsrewrite") then
    let? rw := parse_dnsrewrite v in
    let s := map_mods (λ m, {| important := important m; dnstype := dnstype m; client := client m;
      ctag := ctag m; denyallow := denyallow m; rewrite := Some rw |}) s in
    Ok (Some (if bool_decide (ms_action s = Block) then set_action Rewrite s else s))
  else Ok None.

Fixpoint parse_mods (toks : list bytes) (s : ModState) : result (option ModState) ParseError :=
  match toks with
  | [] => Ok (Some s)
  | tok :: toks =>
      let tok := trim tok in
      if is_nil tok then parse_mods toks s
      else
        let? o := parse_mod tok s in
        match o with
        | None => Ok None
        | Some s => parse_mods toks s
        end
  end.

(** [parse_adblock]. *)
Definition parse_adblock (line : bytes) : result Parsed ParseError :=
  let '(act, body) := match strip_prefix (bs "@@") line with
                      | Some rest => (Allow, rest)
                      | None => (Block, line)
                      end in
  let '(pattern_str, mods_str) := split_modifiers body in
  let pattern_str := trim pattern_str in
  if is_nil pattern_str then Err (EInvalid (bs "empty pattern"))
  else
    let sig := make_signature act pattern_str mods_str in
    let? (pat, toks) := parse_pattern pattern_str in
    let s0 := {| ms_action := act; ms_badfilter := false; ms_mods := mods_default |} in
    let? o := match mods_str with
              | Some ms => parse_mods (split_byte ","%char ms) s0
              | None => Ok (Some s0)
              end in
    match o with
    | None => Ok (PUnsupported line)
    | Some s =>
        Ok (PRules [{|
          rule := {| rule_id := 0; raw := line; action := ms_action s; pattern := pat;
                     mods := if mods_is_empty (ms_mods s) then None else Some (ms_mods s);
                     list_id := 0 |};
          badfilter := ms_badfilter s;
          signature := sig;
          index_tokens := toks |}])
    end.

(** [try_parse_hosts]. *)
Fixpoint take_hosts (toks : list bytes) : list bytes :=
  match toks with
  | [] => []
  | t :: toks => if starts_with (bs "#") t then [] else t :: take_hosts toks
  end.
Definition hosts_rule (first : bytes) (ip : ip_addr) (host : bytes) : option BuildRule :=
  let block := is_blocking_ip ip in
  let domain := norm_domain host in
  if is_nil domain || bool_decide (domain ∈ HOSTS_NOISE) then None
  else
    let '(act, ms) :=
      if block then (Block, None)
      else (Rewrite, Some {| important := false; dnstype := None; client := None; ctag := None;
                             denyallow := []; rewrite := Some (ip_rewrite ip) |}) in
    Some {|
      rule := {| rule_id := 0; raw := first ++ bs " " ++ host; action := act;
                 pattern := Exact domain; mods := ms; list_id := 0 |};
      badfilter := false;
      signature := bs "hosts|" ++ domain ++ bs "|" ++ (if block then bs "block" else bs "rewrite");
      index_tokens := [] |}.
Definition try_parse_hosts (line : bytes) : option (list BuildRule) :=
  match split_whitespace line with
  | [] => None
  | first :: parts =>
      let! ip := parse_ip first in
      let hosts := take_hosts parts in
      if is_nil hosts then None
      else Some (omap (hosts_rule first ip) hosts)
  end.

(** [parse_line]. *)
Definition parse_line (line : bytes) : result Parsed ParseError :=
  let line := trim line in
  if is_nil line then Ok PIgnored
  else if starts_with (bs "!") line || starts_with (bs "#") line || starts_with (bs "[") line
  then Ok PIgnored
  else match try_parse_hosts line with
  | Some rules => Ok (if is_nil rules then PIgnored else PRules rules)
  | None =>
      if is_cosmetic line then Ok (PUnsupported line)
      else parse_adblock line
  end.

End parser.
