(* ===== verification/ParserProps.v ===== *)
(** * Properties of the rule parser.

    [rule_wf] is what the matching engine needs of a rule, whatever produced it: regexes
    come from the regex compiler, index tokens occur in every matching name, rewrite rules
    carry rewrite data.  [parse_line] establishes it. *)
From Stdlib Require Import Ascii.
From S2P Require Import Prelude RustStr RustNet Rule Token Glob Parser.

(** ** Trimming is idempotent *)

Lemma trim_start_fix s : trim_start (trim_start s) = trim_start s.
Proof.
  remember (length s) as n eqn:En. revert s En.
  induction n as [n IH] using lt_wf_ind. intros [|a t] En; [done|]. simpl in *.
  destruct (ws1 a) eqn:E1; [by apply (IH (length t)); [lia|]|].
  destruct t as [|b t2]; simpl in *; [by rewrite E1|].
  destruct (ws2 a b) eqn:E2; [by apply (IH (length t2)); [lia|]|].
  destruct t2 as [|c t3]; simpl in *; [by rewrite E1, E2|].
  destruct (ws3 a b c) eqn:E3; [by apply (IH (length t3)); [lia|]|]. simpl. by rewrite E1, E2, E3.
Qed.
Lemma trim_start_rev_fix s : trim_start_rev (trim_start_rev s) = trim_start_rev s.
Proof.
  remember (length s) as n eqn:En. revert s En.
  induction n as [n IH] using lt_wf_ind. intros [|a t] En; [done|]. simpl in *.
  destruct (ws1 a) eqn:E1; [by apply (IH (length t)); [lia|]|].
  destruct t as [|b t2]; simpl in *; [by rewrite E1|].
  destruct (ws2 b a) eqn:E2; [by apply (IH (length t2)); [lia|]|].
  destruct t2 as [|c t3]; simpl in *; [by rewrite E1, E2|].
  destruct (ws3 c b a) eqn:E3; [by apply (IH (length t3)); [lia|]|]. simpl. by rewrite E1, E2, E3.
Qed.
Lemma trim_start_rev_suffix s : ∃ k, s = k ++ trim_start_rev s.
Proof.
  remember (length s) as n eqn:En. revert s En.
  induction n as [n IH] using lt_wf_ind. intros [|a t] En; [by exists []|]. simpl in *.
  destruct (ws1 a); [destruct (IH (length t) ltac:(lia) t eq_refl) as [k Hk]; exists (a :: k); by rewrite Hk at 1|].
  destruct t as [|b t2]; [by exists []|]. simpl in *.
  destruct (ws2 b a); [destruct (IH (length t2) ltac:(lia) t2 eq_refl) as [k Hk]; exists (a :: b :: k); by rewrite Hk at 1|].
  destruct t2 as [|c t3]; [by exists []|]. simpl in *.
  destruct (ws3 c b a); [|by exists []].
  destruct (IH (length t3) ltac:(lia) t3 eq_refl) as [k Hk]. exists (a :: b :: c :: k). by rewrite Hk at 1.
Qed.
Definition ws_head (s : bytes) : bool :=
  match s with
  | [] => false
  | [a] => ws1 a
  | [a; b] => ws1 a || ws2 a b
  | a :: b :: c :: _ => ws1 a || ws2 a b || ws3 a b c
  end.
Lemma trim_start_head s : ws_head (trim_start s) = false.
Proof.
  remember (length s) as n eqn:En. revert s En.
  induction n as [n IH] using lt_wf_ind. intros [|a t] En; [done|]. simpl in *.
  destruct (ws1 a) eqn:E1; [by apply (IH (length t)); [lia|]|].
  destruct t as [|b t2]; simpl in *; [by rewrite E1|].
  destruct (ws2 a b) eqn:E2; [by apply (IH (length t2)); [lia|]|].
  destruct t2 as [|c t3]; simpl in *; [by rewrite E1, E2|].
  destruct (ws3 a b c) eqn:E3; [by apply (IH (length t3)); [lia|]|]. simpl. by rewrite E1, E2, E3.
Qed.
Lemma trim_start_id s : ws_head s = false → trim_start s = s.
Proof.
  destruct s as [|a [|b [|c t]]]; simpl; [done|by intros ->| |].
  - intros [-> ->]%orb_false_iff. done.
  - intros [[-> ->]%orb_false_iff ->]%orb_false_iff. done.
Qed.
Lemma ws_head_prefix s k : ws_head (s ++ k) = false → ws_head s = false.
Proof.
  destruct s as [|a [|b [|c t]]]; simpl; [done| | |done]; destruct k as [|x [|y k]]; simpl; rewrite ?orb_false_iff; tauto.
Qed.
Lemma trim_start_trim s : trim_start (trim s) = trim s.
Proof.
  apply trim_start_id. destruct (trim_start_rev_suffix (reverse (trim_start s))) as [k Hk].
  apply (f_equal reverse) in Hk. rewrite reverse_involutive, reverse_app in Hk.
  apply (ws_head_prefix _ (reverse k)). unfold trim, trim_end. rewrite <- Hk. apply trim_start_head.
Qed.
Lemma trim_fix s : trim (trim s) = trim s.
Proof.
  unfold trim at 1. rewrite trim_start_trim. unfold trim, trim_end. by rewrite reverse_involutive, trim_start_rev_fix.
Qed.
(** Bytes that trimming keeps: ASCII, not white space. *)
Definition plain (b : byte) : bool := negb (ws1 b) && (u8 b <? 128)%Z.
Lemma plain_ws b : plain b = true → ws1 b = false ∧ (∀ c, ws2 b c = false) ∧ (∀ c d, ws3 b c d = false).
Proof.
  unfold plain. intros [H1%negb_true_iff H2%Z.ltb_lt]%andb_true_iff. split; [done|]. unfold ws2, ws3.
  assert (E : ∀ k, (128 <= k)%Z → (u8 b =? k)%Z = false) by (intros k Hk; apply Z.eqb_neq; lia).
  split; intros; rewrite !E by lia; done.
Qed.

(** Documented regex syntax: what the sources [build_wildcard_regex] emits mean on ASCII
    text (see [Glob]). *)
Class GlobLaws (RX : RegexLib) : Prop := {
  glob_law body sub st e lim re text :
    is_ascii body = true → is_ascii text = true →
    regex_build (wildcard_src body sub st e) lim = Ok re →
    regex_is_match re text = glob_matches sub st e body text;
}.

Section props.
Context {RX : RegexLib} {NL : IpNetLib}.

Definition pattern_regex (p : Pattern) : option regex :=
  match p with
  | Wildcard re | Regex re => Some re
  | _ => None
  end.

Record rule_wf (br : BuildRule) : Prop := {
  wf_built re : pattern_regex (pattern (rule br)) = Some re → built re;
  wf_tokens re text t :
    pattern_regex (pattern (rule br)) = Some re → is_ascii text = true →
    regex_is_match re text = true → t ∈ index_tokens br → t ∈ for_each_query_token text;
  wf_rewrite : action (rule br) = Rewrite → is_Some (rule_rewrite (rule br));
}.

(** ** ASCII is preserved by taking pieces of a string *)

Lemma is_ascii_subset s t : (∀ b, b ∈ t → b ∈ s) → is_ascii s = true → is_ascii t = true.
Proof.
  unfold is_ascii. rewrite !forallb_Forall, !Forall_forall. intros Hsub Hs b Hb. apply Hs, Hsub, Hb.
Qed.

Lemma trim_start_subset s b : b ∈ trim_start s → b ∈ s.
Proof.
  revert b. remember (length s) as n eqn:En. revert s En.
  induction n as [n IH] using lt_wf_ind. intros [|a t] En b; [done|]. simpl in *.
  destruct (ws1 a); [intros ?%(IH (length t)); [set_solver|lia|done]|].
  destruct t as [|b1 t2]; [done|]. simpl in *.
  destruct (ws2 a b1); [intros ?%(IH (length t2)); [set_solver|lia|done]|].
  destruct t2 as [|c t3]; [done|]. simpl in *.
  destruct (ws3 a b1 c); [intros ?%(IH (length t3)); [set_solver|lia|done]|done].
Qed.

Lemma trim_start_rev_subset s b : b ∈ trim_start_rev s → b ∈ s.
Proof.
  revert b. remember (length s) as n eqn:En. revert s En.
  induction n as [n IH] using lt_wf_ind. intros [|a t] En b; [done|]. simpl in *.
  destruct (ws1 a); [intros ?%(IH (length t)); [set_solver|lia|done]|].
  destruct t as [|b1 t2]; [done|]. simpl in *.
  destruct (ws2 b1 a); [intros ?%(IH (length t2)); [set_solver|lia|done]|].
  destruct t2 as [|c t3]; [done|]. simpl in *.
  destruct (ws3 c b1 a); [intros ?%(IH (length t3)); [set_solver|lia|done]|done].
Qed.

Lemma trim_subset s b : b ∈ trim s → b ∈ s.
Proof.
  unfold trim, trim_end. rewrite elem_of_reverse. intros H%trim_start_rev_subset.
  rewrite elem_of_reverse in H. by apply trim_start_subset.
Qed.

Lemma trim_start_matches_subset f s b : b ∈ trim_start_matches f s → b ∈ s.
Proof. induction s as [|a s IH]; simpl; [done|]. destruct (f a); set_solver. Qed.

Lemma trim_end_matches_subset c s b : b ∈ trim_end_matches c s → b ∈ s.
Proof.
  unfold trim_end_matches. rewrite elem_of_reverse. intros H%trim_start_matches_subset.
  by rewrite elem_of_reverse in H.
Qed.

Lemma take_subset n (s : bytes) b : b ∈ take n s → b ∈ s.
Proof. apply subseteq_take. Qed.
Lemma drop_subset n (s : bytes) b : b ∈ drop n s → b ∈ s.
Proof. apply subseteq_drop. Qed.

Lemma strip_prefix_subset p s r b : strip_prefix p s = Some r → b ∈ r → b ∈ s.
Proof. unfold strip_prefix. destruct (starts_with p s); intros [= <-]. apply drop_subset. Qed.
Lemma strip_suffix_subset p s r b : strip_suffix p s = Some r → b ∈ r → b ∈ s.
Proof. unfold strip_suffix. destruct (ends_with p s); intros [= <-]. apply take_subset. Qed.

Lemma split_modifiers_subset s b : b ∈ (split_modifiers s).1 → b ∈ s.
Proof.
  unfold split_modifiers. destruct (starts_with _ s); [destruct (find_str _ s)|destruct (find_byte _ s)];
    simpl; try done; apply take_subset.
Qed.

Lemma strip_anchors_subset p sub st e s b :
  strip_anchors p = (sub, st, e, s) → b ∈ s → b ∈ p.
Proof.
  unfold strip_anchors.
  destruct (strip_prefix (bs "||") p) as [r|] eqn:E1; [|destruct (strip_prefix (bs "|") p) as [r|] eqn:E2];
  match goal with |- context [strip_suffix (bs "^") ?x] =>
    destruct (strip_suffix (bs "^") x) as [q|] eqn:E3;
      [|destruct (strip_suffix (bs "|") x) as [q|] eqn:E4] end;
  intros [= <- <- <- <-] Hb%trim_end_matches_subset;
  eauto using strip_prefix_subset, strip_suffix_subset.
Qed.

(** ** [parse_pattern] *)

Lemma compile_regex_built src re : compile_regex src = Ok re → built re.
Proof.
  unfold compile_regex. destruct (regex_build _ _) eqn:E; intros [= <-].
  by exists src, REGEX_SIZE_LIMIT.
Qed.

Lemma parse_pattern_built p pat toks re :
  parse_pattern p = Ok (pat, toks) → pattern_regex pat = Some re → built re.
Proof.
  unfold parse_pattern. intros H Hre.
  destruct (_ && _) in H.
  - destruct (_ <? _) in H; [done|]. destruct (compile_regex _) eqn:E; [|done]. simpl in H.
    injection H as <- <-. injection Hre as <-. by eapply compile_regex_built.
  - destruct (strip_anchors p) as [[[sub st] e] s]. destruct (_ || _) in H.
    + destruct (build_wildcard_regex _ _ _ _) eqn:E; [|done]. simpl in H.
      injection H as <- <-. injection Hre as <-. by eapply compile_regex_built.
    + destruct (ip_literal s); [injection H as <- <-; done|].
      destruct (is_nil _); [done|]. destruct (negb _); [done|]. destruct st; by injection H as <- <-.
Qed.

Lemma parse_pattern_tokens `{!GlobLaws RX} p pat toks re text t :
  is_ascii p = true → is_ascii text = true →
  parse_pattern p = Ok (pat, toks) → pattern_regex pat = Some re →
  regex_is_match re text = true → t ∈ toks → t ∈ for_each_query_token text.
Proof.
  intros Hp Htext. unfold parse_pattern. intros H Hre Hm Ht.
  destruct (_ && _) in H.
  - destruct (_ <? _) in H; [done|]. destruct (compile_regex _) eqn:E; [|done]. simpl in H.
    injection H as <- <-. by apply elem_of_nil in Ht.
  - destruct (strip_anchors p) as [[[sub st] e] s] eqn:Es. destruct (_ || _) in H.
    + unfold build_wildcard_regex, compile_regex in H.
      destruct (regex_build _ _) as [re'|] eqn:E; [|done]. simpl in H.
      injection H as <- <-. injection Hre as ->.
      rewrite (glob_law s sub st e REGEX_SIZE_LIMIT re text) in Hm; [|by eauto using is_ascii_subset, strip_anchors_subset|done|done].
      by eapply glob_tokens_sound.
    + destruct (ip_literal s); [injection H as <- <-; by apply elem_of_nil in Ht|].
      destruct (is_nil _); [done|]. destruct (negb _); [done|].
      destruct st; injection H as <- <-; by apply elem_of_nil in Ht.
Qed.

(** Domains of adblock rules fit the [u8] length field of the compiled record. *)
Lemma is_dns_hostname_length d : is_dns_hostname d = true → 0 < length d ≤ 253.
Proof.
  unfold is_dns_hostname. intros H. bool_to_prop.
  match goal with H : (length d <=? 253) = true |- _ => apply Nat.leb_le in H end.
  destruct d; simpl in *; [done|lia].
Qed.

(** ** The modifier loop *)

(** A block with rewrite data has been turned into a rewrite, and only such blocks have. *)
Definition ms_ok (s : ModState) : Prop :=
  match ms_action s with
  | Rewrite => is_Some (rewrite (ms_mods s))
  | Block => rewrite (ms_mods s) = None
  | Allow => True
  end.

Lemma parse_mod_ok tok s s' : ms_ok s → parse_mod tok s = Ok (Some s') → ms_ok s'.
Proof.
  unfold parse_mod. destruct (match split_once _ tok with Some _ => _ | None => _ end) as [key value].
  intros Hs.
  repeat first
    [ case_bool_decide
    | match goal with |- context [result_bind ?m _] => destruct m; simpl; [|done] end
    | match goal with |- context [if is_nil ?l then _ else _] => destruct (is_nil l); [done|] end ];
  try (intros [= <-]); unfold ms_ok in *; simpl in *; try done.
  by destruct (ms_action s).
Qed.

Lemma parse_mods_ok toks s s' : ms_ok s → parse_mods toks s = Ok (Some s') → ms_ok s'.
Proof.
  revert s. induction toks as [|tok toks IH]; intros s Hs; simpl; [by intros [= <-]|].
  destruct (is_nil _); [by apply IH|].
  destruct (parse_mod _ s) as [[s1|]|] eqn:E; simpl; try done. apply IH. by eapply parse_mod_ok.
Qed.

Lemma rewrite_not_empty m : is_Some (rewrite m) → mods_is_empty m = false.
Proof.
  intros [d H]. unfold mods_is_empty. rewrite H. simpl. by rewrite andb_false_r.
Qed.

(** ** [parse_line] *)

Lemma parse_adblock_wf `{!GlobLaws RX} line rs :
  is_ascii line = true → parse_adblock line = Ok (PRules rs) → Forall rule_wf rs.
Proof.
  intros Hl. unfold parse_adblock.
  destruct (match strip_prefix (bs "@@") line with Some _ => _ | None => _ end) as [act body] eqn:Eb.
  destruct (split_modifiers body) as [ps ms] eqn:Em.
  assert (Hps : is_ascii (trim ps) = true).
  { eapply is_ascii_subset; [|exact Hl]. intros b Hb%trim_subset.
    assert (Hb' : b ∈ body) by (apply split_modifiers_subset; by rewrite Em).
    destruct (strip_prefix (bs "@@") line) eqn:E; injection Eb as <- <-;
      eauto using strip_prefix_subset. }
  assert (Hact : act ≠ Rewrite) by (destruct (strip_prefix _ line); by injection Eb as <- <-).
  destruct (is_nil (trim ps)); [done|].
  destruct (parse_pattern (trim ps)) as [[pat toks]|] eqn:Ep; simpl; [|done].
  destruct (match ms with Some _ => _ | None => _ end) as [[s|]|] eqn:Es; simpl; try done.
  intros [= <-]. constructor; [|constructor].
  assert (Hms : ms_ok s).
  { assert (H0 : ms_ok {| ms_action := act; ms_badfilter := false; ms_mods := mods_default |})
      by (by destruct act).
    destruct ms; [by eapply parse_mods_ok|by injection Es as <-]. }
  constructor; simpl.
  - intros re. by apply (parse_pattern_built _ _ _ _ Ep).
  - intros re text t Hre Ht Hm Hin. by apply (parse_pattern_tokens _ _ _ re text t Hps Ht Ep Hre Hm).
  - intros Ha. unfold ms_ok in Hms. rewrite Ha in Hms. unfold rule_rewrite. simpl.
    by rewrite rewrite_not_empty.
Qed.

Lemma hosts_rule_wf first ip host br : hosts_rule first ip host = Some br → rule_wf br.
Proof.
  unfold hosts_rule. destruct (_ || _); [done|].
  destruct (is_blocking_ip ip); intros [= <-]; constructor; simpl; done.
Qed.

Lemma try_parse_hosts_wf line rs : try_parse_hosts line = Some rs → Forall rule_wf rs.
Proof.
  unfold try_parse_hosts. destruct (split_whitespace line) as [|first parts]; [done|].
  intros H. inv_some. apply Forall_forall. intros br (host & _ & Hh)%list_elem_of_omap.
  by eapply hosts_rule_wf.
Qed.

Lemma parse_line_rules_wf `{!GlobLaws RX} line rs :
  is_ascii line = true → parse_line line = Ok (PRules rs) → Forall rule_wf rs.
Proof.
  intros Hl. unfold parse_line. destruct (is_nil _); [done|]. destruct (_ || _); [done|].
  destruct (try_parse_hosts (trim line)) as [rules|] eqn:Eh.
  - destruct (is_nil rules); [done|]. intros [= <-]. by eapply try_parse_hosts_wf.
  - destruct (is_cosmetic _); [done|]. apply parse_adblock_wf.
    eapply is_ascii_subset; [|exact Hl]. apply trim_subset.
Qed.

End props.
