(* ===== verification/FilterEngine.v ===== *)
(** * bulwark-filter: the compiled engine ([crates/bulwark-filter/src/engine.rs]).

    The records index shared arenas exactly as in the source: offsets and lengths carry
    the casts to [u32], [u16] and [u8], slicing checks bounds and UTF-8 boundaries, and an
    out-of-range index, a bad slice or the failing [expect] of [check] is the outcome
    [None] (a panic).  Hash maps are [gmap]s; the two random hashers are parameters. *)
From Stdlib Require Import Ascii.
From S2P Require Import Prelude RustStr RustNet Rule Token Glob Parser.

Definition NO_MODS : Z := U32_MAX.
Definition KIND_EXACT : Z := 0.
Definition KIND_SUBDOMAIN : Z := 1.
Definition KIND_WILDCARD : Z := 2.
Definition KIND_REGEX : Z := 3.

Definition FALLBACK_CHUNK : nat := 256.
Definition FALLBACK_REGEXSET_SIZE_LIMIT : Z := 16 * 1024 * 1024.

(** [RuleRecord]. *)
Record RuleRecord : Type := {
  raw_start : Z;
  dom_or_re : Z;
  mods_idx : Z;
  raw_len : Z;
  rec_list_id : Z;
  dom_len : Z;
  rec_action : Action;
  kind : Z;
}.

(** [MatchInfo] and [Verdict]. *)
Record MatchInfo : Type := { mi_rule : bytes; mi_list_id : Z; mi_rule_id : Z }.
Inductive Verdict : Type :=
| VAllow (rule : option MatchInfo)
| VBlock (info : MatchInfo)
| VRewrite (info : MatchInfo) (data : RewriteData).
Definition is_blocked (v : Verdict) : bool := match v with VBlock _ => true | _ => false end.

#[export] Instance MatchInfo_eq_dec : EqDecision MatchInfo.
Proof. solve_decision. Defined.
#[export] Instance Verdict_eq_dec : EqDecision Verdict.
Proof. solve_decision. Defined.

(** [&s[a..b]] on a [str]: in range and on character boundaries, or a panic. *)
Definition is_continuation (b : byte) : bool := ((128 <=? u8 b) && (u8 b <? 192))%Z.
Definition char_boundary (s : bytes) (i : nat) : bool :=
  match s !! i with
  | Some b => negb (is_continuation b)
  | None => i =? length s
  end.
Definition str_slice (s : bytes) (a b : Z) : option bytes :=
  let a := Z.to_nat a in
  let b := Z.to_nat b in
  if (a <=? b) && (b <=? length s) && char_boundary s a && char_boundary s b
  then Some (take (b - a) (drop a s)) else None.

(** [is_subdomain_of]. *)
Definition is_subdomain_of (domain base : bytes) : bool :=
  bool_decide (domain = base)
  || ((length base <? length domain) && ends_with base domain
      && bool_decide (domain !! (length domain - length base - 1) = Some dot)).

(** ** [DomainIndex] *)

(** [sort_unstable_by_key(|p| p.0)]: some permutation ordered by the key. *)
Class UnstableSort : Type := {
  sort_pairs : list (Z * Z) → list (Z * Z);
  sort_pairs_perm l : sort_pairs l ≡ₚ l;
  sort_pairs_sorted l : StronglySorted (λ p q, (p.1 <= q.1)%Z) (sort_pairs l);
}.

Record DomainIndex : Type := { di_map : gmap Z (Z * Z); di_hits : list Z }.

(** The inner [while] of [build]: the ids of the leading pairs with hash [h]. *)
Fixpoint take_group (h : Z) (pairs : list (Z * Z)) : list Z * list (Z * Z) :=
  match pairs with
  | (h', id) :: rest =>
      if (h' =? h)%Z then let '(ids, rest) := take_group h rest in (id :: ids, rest)
      else ([], pairs)
  | [] => ([], [])
  end.
(** The outer [while]: each iteration consumes at least one pair, so the number of pairs
    bounds the iterations. *)
Fixpoint group_loop (fuel : nat) (pairs : list (Z * Z)) (ix : DomainIndex) : DomainIndex :=
  match fuel, pairs with
  | S fuel, (h, _) :: _ =>
      let '(ids, rest) := take_group h pairs in
      let start := wrap 32 (Z.of_nat (length (di_hits ix))) in
      let hits := di_hits ix ++ ids in
      let len := wrap 32 (wrap 32 (Z.of_nat (length hits)) - start) in
      group_loop fuel rest {| di_map := <[h := (start, len)]> (di_map ix); di_hits := hits |}
  | _, _ => ix
  end.
Definition di_build {US : UnstableSort} (pairs : list (Z * Z)) : DomainIndex :=
  let pairs := sort_pairs pairs in
  group_loop (length pairs) pairs {| di_map := ∅; di_hits := [] |}.

(** [DomainIndex::get]: the slice [hits[start..start + len]] ([None]: out of range). *)
Definition vec_slice {A} (l : list A) (a b : nat) : option (list A) :=
  if (a <=? b) && (b <=? length l) then Some (take (b - a) (drop a l)) else None.
Definition di_get (ix : DomainIndex) (hash : Z) : option (list Z) :=
  match di_map ix !! hash with
  | Some (start, len) => vec_slice (di_hits ix) (Z.to_nat start) (Z.to_nat (wrap 32 (start + len)))
  | None => Some []
  end.
Definition di_is_empty (ix : DomainIndex) : bool := is_nil (di_hits ix).

(** The loop of [collect_domain] over the name and its parents. *)
Fixpoint hay_loop (fuel : nat) (hay : bytes) : list bytes :=
  match fuel with
  | 0 => []
  | S fuel =>
      hay :: match find_byte dot hay with
             | Some i => hay_loop fuel (drop (S i) hay)
             | None => []
             end
  end.

(** [slice.chunks(n)]. *)
Fixpoint chunks_go {A} (fuel n : nat) (l : list A) : list (list A) :=
  match fuel, l with
  | S fuel, _ :: _ => take n l :: chunks_go fuel n (drop n l)
  | _, _ => []
  end.
Definition chunks {A} (n : nat) (l : list A) : list (list A) := chunks_go (length l) n l.

(** [iter.min_by_key(f)]: the first minimal element. *)
Fixpoint min_by_key {A} (f : A → Z) (l : list A) : option A :=
  match l with
  | [] => None
  | x :: l => match min_by_key f l with
              | Some y => if (f y <? f x)%Z then Some y else Some x
              | None => Some x
              end
  end.

(** [entry(k).or_default()] with a push, and with an increment. *)
Definition push_at (k v : Z) (m : gmap Z (list Z)) : gmap Z (list Z) :=
  <[k := default [] (m !! k) ++ [v]]> m.
Definition incr_at (k : Z) (m : gmap Z Z) : gmap Z Z :=
  <[k := wrap 32 (default 0%Z (m !! k) + 1)]> m.

Section engine.
Context {RX : RegexLib} {NL : IpNetLib} {US : UnstableSort}.
(** [ahash::RandomState::hash_one] of the domain index, and the content hasher. *)
Context (dhash : bytes → Z) (chash : list (bytes * Z * Action) → Z).

(** ** [ScanGroup] *)

Record ScanGroup : Type := {
  scan_index : gmap Z (list Z);
  fallback_sets : list (regex_set * list Z);
  fallback_individual : list Z;
}.
Definition sg_is_empty (g : ScanGroup) : bool :=
  bool_decide (scan_index g = ∅) && is_nil (fallback_sets g) && is_nil (fallback_individual g).

(** The token frequencies and the choice of the rarest token. *)
Definition token_freq (meta : list (Z * list Z)) : gmap Z Z :=
  foldl (λ m '(_, toks), foldl (λ m t, incr_at t m) m toks) ∅ meta.
Definition index_rules (meta : list (Z * list Z)) : gmap Z (list Z) * list Z :=
  let freq := token_freq meta in
  foldl (λ '(ix, fb) '(id, toks),
           match min_by_key (λ t, default 0%Z (freq !! t)) toks with
           | Some tok => (push_at tok id ix, fb)
           | None => (ix, fb ++ [id])
           end) (∅, []) meta.

(** The wildcard and regex rules of a chunk, with their pattern sources. *)
Fixpoint chunk_patterns (records : list RuleRecord) (regexes : list regex) (chunk : list Z)
  : option (list (bytes * Z)) :=
  match chunk with
  | [] => Some []
  | id :: chunk =>
      let! r := records !! Z.to_nat id in
      let! rest := chunk_patterns records regexes chunk in
      if (kind r =? KIND_WILDCARD)%Z || (kind r =? KIND_REGEX)%Z then
        let! re := regexes !! Z.to_nat (dom_or_re r) in
        Some ((regex_as_str re, id) :: rest)
      else Some rest
  end.

(** One iteration of the chunk loop: a [RegexSet], or the rules individually. *)
Definition add_chunk (pats : list (bytes * Z)) (acc : list (regex_set * list Z) * list Z)
  : list (regex_set * list Z) * list Z :=
  let '(sets, indiv) := acc in
  if is_nil pats then acc
  else match regex_set_build pats.*1 FALLBACK_REGEXSET_SIZE_LIMIT with
       | Ok set => (sets ++ [(set, pats.*2)], indiv)
       | Err _ => (sets, indiv ++ pats.*2)
       end.
Fixpoint chunk_loop (records : list RuleRecord) (regexes : list regex) (cs : list (list Z))
    (acc : list (regex_set * list Z) * list Z) : option (list (regex_set * list Z) * list Z) :=
  match cs with
  | [] => Some acc
  | c :: cs =>
      let! pats := chunk_patterns records regexes c in
      chunk_loop records regexes cs (add_chunk pats acc)
  end.

(** [build_scan_group]. *)
Definition build_scan_group (meta : list (Z * list Z)) (records : list RuleRecord)
    (regexes : list regex) (token_index : bool) : option ScanGroup :=
  let '(ix, fb) := if token_index then index_rules meta else (∅, meta.*1) in
  let! (sets, indiv) := chunk_loop records regexes (chunks FALLBACK_CHUNK fb) ([], []) in
  Some {| scan_index := ix; fallback_sets := sets; fallback_individual := indiv |}.

(** ** [FilterEngine] *)

Record FilterEngine : Type := {
  rules : list RuleRecord;
  raw_arena : bytes;
  domain_arena : bytes;
  fe_mods : list RuleMods;
  regexes : list regex;
  exact : DomainIndex;
  subdomain : DomainIndex;
  override_scan : ScanGroup;
  block_scan : ScanGroup;
  has_client_dependent_rules : bool;
  content_hash : Z;
}.

(** The variables of [from_rules]' loop. *)
Record Building : Type := {
  b_records : list RuleRecord;
  b_raw : bytes;
  b_dom : bytes;
  b_mods : list RuleMods;
  b_regexes : list regex;
  b_exact : list (Z * Z);
  b_sub : list (Z * Z);
  b_override : list (Z * list Z);
  b_block : list (Z * list Z);
  b_client_dep : bool;
  b_hashed : list (bytes * Z * Action);
}.
Definition building_init : Building :=
  {| b_records := []; b_raw := []; b_dom := []; b_mods := []; b_regexes := []; b_exact := [];
     b_sub := []; b_override := []; b_block := []; b_client_dep := false; b_hashed := [] |}.


(** One iteration of the loop, for the rule numbered [length b_records]. *)
Definition add_rule (b : Building) (br : BuildRule) : Building :=
  let r := rule br in
  let id := wrap 32 (Z.of_nat (length (b_records b))) in
  let raw_start := wrap 32 (Z.of_nat (length (b_raw b))) in
  let raw_len := Z.min (Z.of_nat (length (raw r))) U16_MAX in
  let mods_idx := match mods r with
                  | Some _ => wrap 32 (Z.of_nat (length (b_mods b)))
                  | None => NO_MODS
                  end in
  let mods' := match mods r with Some m => b_mods b ++ [m] | None => b_mods b end in
  let dep := match mods r with Some m => is_some (client m) || is_some (ctag m) | None => false end in
  let override_capable := bool_decide (action r = Allow)
    || (negb (mods_idx =? NO_MODS)%Z && mods_important (mods r)) in
  let dom_start := wrap 32 (Z.of_nat (length (b_dom b))) in
  let re_idx := wrap 32 (Z.of_nat (length (b_regexes b))) in
  let record dom_or_re dom_len kind :=
    {| raw_start := raw_start; dom_or_re := dom_or_re; mods_idx := mods_idx; raw_len := raw_len;
       rec_list_id := wrap 16 (list_id r); dom_len := dom_len; rec_action := action r;
       kind := kind |} in
  let with_domain d kd ex sb :=
    {| b_records := b_records b ++ [record dom_start (wrap 8 (Z.of_nat (length d))) kd];
       b_raw := b_raw b ++ raw r; b_dom := b_dom b ++ d; b_mods := mods';
       b_regexes := b_regexes b; b_exact := ex; b_sub := sb; b_override := b_override b;
       b_block := b_block b; b_client_dep := b_client_dep b || dep;
       b_hashed := b_hashed b ++ [(raw r, list_id r, action r)] |} in
  let with_regex re kd :=
    let entry := (id, index_tokens br) in
    {| b_records := b_records b ++ [record re_idx 0%Z kd];
       b_raw := b_raw b ++ raw r; b_dom := b_dom b; b_mods := mods';
       b_regexes := b_regexes b ++ [re]; b_exact := b_exact b; b_sub := b_sub b;
       b_override := if override_capable then b_override b ++ [entry] else b_override b;
       b_block := if override_capable then b_block b else b_block b ++ [entry];
       b_client_dep := b_client_dep b || dep;
       b_hashed := b_hashed b ++ [(raw r, list_id r, action r)] |} in
  match pattern r with
  | Exact d => with_domain d KIND_EXACT (b_exact b ++ [(dhash d, id)]) (b_sub b)
  | Subdomain d => with_domain d KIND_SUBDOMAIN (b_exact b) (b_sub b ++ [(dhash d, id)])
  | Wildcard re => with_regex re KIND_WILDCARD
  | Regex re => with_regex re KIND_REGEX
  end.

(** [FilterEngine::from_rules]. *)
Definition from_rules (brs : list BuildRule) : option FilterEngine :=
  let b := foldl add_rule building_init brs in
  let! ov := build_scan_group (b_override b) (b_records b) (b_regexes b) false in
  let! bl := build_scan_group (b_block b) (b_records b) (b_regexes b) true in
  Some {| rules := b_records b; raw_arena := b_raw b; domain_arena := b_dom b;
          fe_mods := b_mods b; regexes := b_regexes b;
          exact := di_build (b_exact b); subdomain := di_build (b_sub b);
          override_scan := ov; block_scan := bl;
          has_client_dependent_rules := b_client_dep b; content_hash := chash (b_hashed b) |}.

(** The accessors [raw], [domain], [mods_of], [domain_matches] and [priority]. *)
Definition raw_of (e : FilterEngine) (r : RuleRecord) : option bytes :=
  str_slice (raw_arena e) (raw_start r) (raw_start r + raw_len r).
Definition domain_of (e : FilterEngine) (r : RuleRecord) : option bytes :=
  str_slice (domain_arena e) (dom_or_re r) (dom_or_re r + dom_len r).
Definition mods_of (e : FilterEngine) (r : RuleRecord) : option (option RuleMods) :=
  if (mods_idx r =? NO_MODS)%Z then Some None
  else let! m := fe_mods e !! Z.to_nat (mods_idx r) in Some (Some m).
Definition domain_matches (e : FilterEngine) (r : RuleRecord) (domain : bytes) : option bool :=
  if (kind r =? KIND_EXACT)%Z then let! d := domain_of e r in Some (bool_decide (d = domain))
  else if (kind r =? KIND_SUBDOMAIN)%Z then let! d := domain_of e r in Some (is_subdomain_of domain d)
  else Some true.
Definition rec_priority (e : FilterEngine) (r : RuleRecord) : option Z :=
  let! m := mods_of e r in
  Some (if mods_important m then action_score (rec_action r) + 100 else action_score (rec_action r))%Z.

Definition fe_len (e : FilterEngine) : nat := length (rules e).
Definition fe_is_empty (e : FilterEngine) : bool := is_nil (rules e).

(** [collect_domain]. *)
Fixpoint get_all (ix : DomainIndex) (hays : list bytes) : option (list Z) :=
  match hays with
  | [] => Some []
  | h :: hays =>
      let! ids := di_get ix (dhash h) in
      let! rest := get_all ix hays in
      Some (ids ++ rest)
  end.
Definition collect_domain (e : FilterEngine) (domain : bytes) : option (list Z) :=
  let! ex := if di_is_empty (exact e) then Some [] else di_get (exact e) (dhash domain) in
  let! sb := if di_is_empty (subdomain e) then Some []
             else get_all (subdomain e) (hay_loop (S (length domain)) domain) in
  Some (ex ++ sb).

(** The closure [check] of [scan_group], over a list of ids. *)
Fixpoint scan_ids (e : FilterEngine) (domain : bytes) (ids : list Z) : option (list Z) :=
  match ids with
  | [] => Some []
  | id :: ids =>
      let! r := rules e !! Z.to_nat id in
      let! hit :=
        if (kind r =? KIND_WILDCARD)%Z || (kind r =? KIND_REGEX)%Z then
          let! re := regexes e !! Z.to_nat (dom_or_re r) in Some (regex_is_match re domain)
        else Some false in
      let! rest := scan_ids e domain ids in
      Some (if hit : bool then id :: rest else rest)
  end.
Fixpoint scan_sets (domain : bytes) (sets : list (regex_set * list Z)) : option (list Z) :=
  match sets with
  | [] => Some []
  | (set, ids) :: sets =>
      let! out := mapM (λ idx, ids !! idx) (regex_set_matches set domain) in
      let! rest := scan_sets domain sets in
      Some (out ++ rest)
  end.
(** [scan_group]. *)
Definition scan_group (e : FilterEngine) (g : ScanGroup) (domain : bytes) (tokens : list Z)
  : option (list Z) :=
  let! a := scan_sets domain (fallback_sets g) in
  let! b := scan_ids e domain (fallback_individual g) in
  let! c := if bool_decide (scan_index g = ∅) then Some []
            else scan_ids e domain (mjoin ((λ t, default [] (scan_index g !! t)) <$> tokens)) in
  Some (a ++ b ++ c).

(** [applicable]. *)
Definition mods_applicable (m : option RuleMods) (act : Action) (domain rtype : bytes)
    (cl : ClientInfo) : bool :=
  match m with
  | None => true
  | Some m =>
      if match dnstype m with Some f => negb (dnstype_matches f rtype) | None => false end then false
      else if match client m with Some f => negb (client_matches f cl) | None => false end then false
      else if match ctag m with Some f => negb (ctag_matches f (ci_tags cl)) | None => false end then false
      else if match act with Block | Rewrite => true | Allow => false end
              && existsb (is_subdomain_of domain) (denyallow m) then false
      else true
  end.
Definition applicable (e : FilterEngine) (r : RuleRecord) (domain rtype : bytes) (cl : ClientInfo)
  : option bool :=
  let! m := mods_of e r in Some (mods_applicable m (rec_action r) domain rtype cl).

(** [consider]: [best] is the pair of [best] and [best_prio]. *)
Fixpoint consider (e : FilterEngine) (ids : list Z) (domain rtype : bytes) (cl : ClientInfo)
    (best : option (Z * Z)) : option (option (Z * Z)) :=
  match ids with
  | [] => Some best
  | id :: ids =>
      let! r := rules e !! Z.to_nat id in
      let! dm := domain_matches e r domain in
      let! ap := if dm : bool then applicable e r domain rtype cl else Some false in
      if ap : bool then
        let! prio := rec_priority e r in
        let better := match best with None => true | Some (_, bp) => (bp <? prio)%Z end in
        consider e ids domain rtype cl (if better then Some (id, prio) else best)
      else consider e ids domain rtype cl best
  end.

(** The normalisation at the head of [check]. *)
Definition normalize_query (domain : bytes) : bytes :=
  if existsb is_ascii_uppercase domain || ends_with (bs ".") domain
  then to_ascii_lowercase (trim_end_matches dot domain) else domain.

(** The two phases of [check]: domain and override candidates, then plain wildcard blocks. *)
Definition best_rule (e : FilterEngine) (domain rtype : bytes) (cl : ClientInfo)
  : option (option (Z * Z)) :=
  let! c1 := collect_domain e domain in
  let! c2 := scan_group e (override_scan e) domain [] in
  let! best := consider e (c1 ++ c2) domain rtype cl None in
  if negb (is_some best) && negb (sg_is_empty (block_scan e)) then
    let tokens := if bool_decide (scan_index (block_scan e) = ∅) then []
                  else for_each_query_token domain in
    let! c3 := scan_group e (block_scan e) domain tokens in
    consider e c3 domain rtype cl best
  else Some best.

(** [FilterEngine::check]. *)
Definition check (e : FilterEngine) (domain rtype : bytes) (cl : ClientInfo) : option Verdict :=
  let domain := normalize_query domain in
  let! best := best_rule e domain rtype cl in
  match best with
  | None => Some (VAllow None)
  | Some (id, _) =>
      let! r := rules e !! Z.to_nat id in
      let! txt := raw_of e r in
      let info := {| mi_rule := txt; mi_list_id := rec_list_id r; mi_rule_id := id |} in
      match rec_action r with
      | Allow => Some (VAllow (Some info))
      | Block => Some (VBlock info)
      | Rewrite =>
          let! m := mods_of e r in
          let! data := m ≫= rewrite in
          Some (VRewrite info data)
      end
  end.

End engine.
