(* ===== verification/FilterEngineProps.v ===== *)
(** * Correctness of the compiled engine.

    The reference semantics is a linear scan: a rule applies to a query when its pattern
    matches the name and its modifiers accept the query, and the verdict is that of an
    applying rule of the highest priority.  [check_correct] states that the engine, with
    its arenas, hashed indexes, token index, regex sets and two phases, computes such a
    verdict and never panics, for rule sets within the bounds of its integer fields. *)
From Stdlib Require Import Ascii.
From S2P Require Import Prelude RustStr RustNet Rule Token Glob Parser ParserProps FilterEngine.

(** ** Domain suffixes *)


Lemma after_dots_find s :
  after_dots s = match find_byte dot s with
                 | Some i => drop (S i) s :: after_dots (drop (S i) s)
                 | None => []
                 end.
Proof.
  induction s as [|b s IH]; simpl; [done|]. case_bool_decide; [done|].
  rewrite IH. by destruct (find_byte dot s).
Qed.

Lemma find_byte_lt c s i : find_byte c s = Some i → i < length s.
Proof.
  revert i. induction s as [|b s IH]; intros i; simpl; [done|].
  case_bool_decide; [intros [= <-]; lia|].
  destruct (find_byte c s) as [j|]; [|done]. intros [= <-]. specialize (IH j eq_refl). lia.
Qed.

(** The loop of [collect_domain] visits the name and everything after one of its dots. *)
Lemma hay_loop_spec fuel s : length s < fuel → hay_loop fuel s = s :: after_dots s.
Proof.
  revert s. induction fuel as [|fuel IH]; intros s Hs; [lia|]. simpl. f_equal.
  rewrite (after_dots_find s). destruct (find_byte dot s) as [i|] eqn:E; [|done].
  apply find_byte_lt in E. apply IH. rewrite length_drop. lia.
Qed.

Lemma after_dots_iff s t : t ∈ after_dots s ↔ ∃ p, s = p ++ dot :: t.
Proof.
  split; [apply after_dots_suffix|]. intros [p ->].
  induction p as [|b p IH]; simpl.
  - set_solver.
  - destruct (bool_decide _); set_solver.
Qed.

(** The suffix test of the engine is membership in that list. *)
Lemma is_subdomain_of_iff domain base :
  is_subdomain_of domain base = true ↔ base ∈ domain :: after_dots domain.
Proof.
  unfold is_subdomain_of, ends_with. rewrite elem_of_cons, after_dots_iff, orb_true_iff.
  rewrite !andb_true_iff, !bool_decide_eq_true, Nat.ltb_lt. split.
  - intros [->|[[Hlen Hend] Hdot]]; [by left|]. right.
    exists (take (length domain - length base - 1) domain).
    rewrite <- (take_drop (length domain - length base - 1) domain) at 1. f_equal.
    rewrite (drop_S _ _ _ Hdot). f_equal.
    etransitivity; [|exact Hend]. f_equal. lia.
  - intros [->|[p ->]]; [by left|]. right. rewrite length_app. simpl.
    split; [split; [lia|]|].
    + rewrite drop_app_ge by lia.
      replace (_ - _ - length p) with 1 by lia. done.
    + rewrite lookup_app_r by lia.
      by replace (_ - _ - 1 - length p) with 0 by lia.
Qed.

(** ** [DomainIndex] *)

Lemma take_group_app h pairs : pairs = ((λ id, (h, id)) <$> (take_group h pairs).1) ++ (take_group h pairs).2.
Proof.
  induction pairs as [|[h' id] pairs IH]; simpl; [done|].
  destruct (Z.eqb_spec h' h) as [->|]; simpl; [|done].
  destruct (take_group h pairs) as [ids rest]. simpl in *. by rewrite IH at 1.
Qed.

Lemma take_group_rest h pairs p rest :
  (take_group h pairs).2 = p :: rest → p.1 ≠ h.
Proof.
  induction pairs as [|[h' id] pairs IH]; simpl; [done|].
  destruct (Z.eqb_spec h' h) as [->|].
  - destruct (take_group h pairs) as [ids rest']. done.
  - by intros [= <- <-].
Qed.

(** The invariant of the outer loop: the ranges recorded so far are the hits of their
    hash, and the hashes recorded are not among the remaining ones. *)
Definition index_ok (ix : DomainIndex) (done : list (Z * Z)) : Prop :=
  length (di_hits ix) = length done ∧
  (∀ h start len, di_map ix !! h = Some (start, len) →
     (0 ≤ start)%Z ∧ (0 ≤ len)%Z ∧ (start + len ≤ Z.of_nat (length (di_hits ix)))%Z ∧
     ∀ id, id ∈ take (Z.to_nat len) (drop (Z.to_nat start) (di_hits ix)) ↔ (h, id) ∈ done) ∧
  (∀ h id, (h, id) ∈ done → is_Some (di_map ix !! h)).

Lemma index_ok_group ix done h ids :
  (Z.of_nat (length done + length ids) < 2 ^ 32)%Z →
  (∀ id, (h, id) ∉ done) → index_ok ix done →
  index_ok {| di_map := <[h := (wrap 32 (Z.of_nat (length (di_hits ix))),
                                wrap 32 (wrap 32 (Z.of_nat (length (di_hits ix ++ ids)))
                                         - wrap 32 (Z.of_nat (length (di_hits ix)))))]> (di_map ix);
              di_hits := di_hits ix ++ ids |} (done ++ ((λ id, (h, id)) <$> ids)).
Proof.
  intros Hb Hfresh (Hl & Hm & Hd).
  assert (W1 : wrap 32 (Z.of_nat (length (di_hits ix))) = Z.of_nat (length (di_hits ix)))
    by (apply wrap_small; unfold in_u; lia).
  assert (W2 : wrap 32 (Z.of_nat (length (di_hits ix ++ ids))) = Z.of_nat (length (di_hits ix ++ ids)))
    by (apply wrap_small; rewrite length_app; unfold in_u; lia).
  rewrite W1, W2, wrap_small by (rewrite length_app; unfold in_u; lia).
  rewrite length_app. split_and!; simpl.
  - rewrite !length_app, length_fmap. lia.
  - intros h' start len. destruct (decide (h = h')) as [<-|Hne].
    + rewrite lookup_insert_eq. intros [= <- <-]. rewrite length_app.
      split_and!; [lia..|]. intros id.
      rewrite Nat2Z.id, drop_app_length, take_ge by lia.
      rewrite elem_of_app, list_elem_of_fmap. split; [intros Hid; right; by exists id|].
      intros [[]%Hfresh|(i & [= ->] & ?)]; done.
    + rewrite lookup_insert_ne by done. intros E. destruct (Hm h' start len E) as (? & ? & ? & Hids).
      rewrite length_app. split_and!; [lia..|]. intros id.
      rewrite drop_app_le, take_app_le by (try rewrite length_drop; lia).
      rewrite Hids, elem_of_app, list_elem_of_fmap. split; [by left|].
      intros [?|(i & [= -> ->] & _)]; done.
  - intros h' id. rewrite elem_of_app, list_elem_of_fmap. intros [[x Hx]%Hd|(i & [= -> ->] & _)].
    + destruct (decide (h = h')) as [<-|Hne]; [rewrite lookup_insert_eq|rewrite lookup_insert_ne by done]; eauto.
    + rewrite lookup_insert_eq; eauto.
Qed.

Lemma group_loop_ok fuel pairs ix done :
  length pairs ≤ fuel →
  (Z.of_nat (length done + length pairs) < 2 ^ 32)%Z →
  StronglySorted (λ p q, (p.1 <= q.1)%Z) pairs →
  (∀ p q, p ∈ done → q ∈ pairs → (p.1 < q.1)%Z) →
  index_ok ix done → index_ok (group_loop fuel pairs ix) (done ++ pairs).
Proof.
  revert pairs ix done. induction fuel as [|fuel IH]; intros pairs ix done Hf Hb Hs Hlt Hok.
  { destruct pairs; simpl in *; [by rewrite app_nil_r|lia]. }
  destruct pairs as [|[h id0] pairs]; [by rewrite app_nil_r|].
  assert (Hcons : take_group h ((h, id0) :: pairs)
    = (id0 :: (take_group h pairs).1, (take_group h pairs).2)).
  { simpl. rewrite Z.eqb_refl. by destruct (take_group h pairs). }
  cbn [group_loop]. rewrite Hcons. pose proof (take_group_app h pairs) as Happ.
  pose proof (take_group_rest h pairs) as Hrest.
  destruct (take_group h pairs) as [ids rest]. cbn [fst snd] in *.
  replace (done ++ (h, id0) :: pairs)
    with ((done ++ ((λ id, (h, id)) <$> id0 :: ids)) ++ rest)
    by (rewrite Happ at 1; simpl; by rewrite <- app_assoc).
  assert (Hlp : length pairs = length ids + length rest)
    by (rewrite Happ, length_app, length_fmap; done).
  apply StronglySorted_inv in Hs as [Hs Hh]. rewrite Forall_forall in Hh.
  assert (Hr : ∀ q, q ∈ rest → (h < q.1)%Z).
  { intros q Hq. destruct rest as [|p rest]; [by apply elem_of_nil in Hq|].
    assert (p.1 ≠ h) by (by eapply Hrest).
    assert (h ≤ p.1)%Z by (apply Hh; rewrite Happ; set_solver).
    apply elem_of_cons in Hq as [->|Hq]; [lia|].
    rewrite Happ in Hs. apply StronglySorted_app_1_r, StronglySorted_inv in Hs as [_ Hs].
    rewrite Forall_forall in Hs. specialize (Hs q Hq). simpl in Hs. lia. }
  simpl length in *.
  apply IH; [lia|rewrite length_app, length_fmap; simpl; lia| | |].
  - rewrite Happ in Hs. by apply StronglySorted_app_1_r in Hs.
  - intros p q Hp Hq. rewrite elem_of_app, list_elem_of_fmap in Hp.
    destruct Hp as [Hp|(i & -> & Hi)]; [|by apply Hr].
    apply Hlt; [done|]. rewrite Happ. set_solver.
  - apply index_ok_group; [simpl; lia| |done].
    intros id Hin. specialize (Hlt _ (h, id0) Hin ltac:(set_solver)). simpl in Hlt. lia.
Qed.

Lemma sort_pairs_elem {US : UnstableSort} p pairs : p ∈ sort_pairs pairs ↔ p ∈ pairs.
Proof. by rewrite (sort_pairs_perm pairs). Qed.

Lemma di_build_ok {US : UnstableSort} pairs :
  (Z.of_nat (length pairs) < 2 ^ 32)%Z → index_ok (di_build pairs) (sort_pairs pairs).
Proof.
  intros Hb. unfold di_build. change (sort_pairs pairs) with ([] ++ sort_pairs pairs) at 3.
  apply group_loop_ok; [done| |apply sort_pairs_sorted|set_solver|].
  - simpl. by rewrite (sort_pairs_perm pairs).
  - split_and!; simpl; [done|set_solver|set_solver].
Qed.

(** A lookup never goes out of range and returns exactly the ids stored under the hash. *)
Lemma di_get_spec {US : UnstableSort} pairs h :
  (Z.of_nat (length pairs) < 2 ^ 32)%Z →
  ∃ ids, di_get (di_build pairs) h = Some ids ∧ ∀ id, id ∈ ids ↔ (h, id) ∈ pairs.
Proof.
  intros Hb. destruct (di_build_ok pairs Hb) as (Hl & Hm & Hd). unfold di_get.
  rewrite sort_pairs_perm in Hl.
  destruct (di_map _ !! h) as [[start len]|] eqn:E.
  - destruct (Hm h start len E) as (? & ? & ? & Hids). unfold vec_slice.
    rewrite (wrap_small 32) by (unfold in_u; lia).
    rewrite (proj2 (Nat.leb_le _ _)), (proj2 (Nat.leb_le _ _)) by lia. simpl.
    eexists; split; [done|]. intros id. rewrite <- sort_pairs_elem, <- Hids.
    by replace (Z.to_nat (start + len) - Z.to_nat start) with (Z.to_nat len) by lia.
  - exists []. split; [done|]. intros id. split; [by intros ?%elem_of_nil|].
    rewrite <- sort_pairs_elem. intros [x Hx]%Hd. congruence.
Qed.

Lemma di_is_empty_spec {US : UnstableSort} pairs :
  (Z.of_nat (length pairs) < 2 ^ 32)%Z → di_is_empty (di_build pairs) = true → pairs = [].
Proof.
  intros Hb. destruct (di_build_ok pairs Hb) as (Hl & _). unfold di_is_empty.
  rewrite sort_pairs_perm in Hl. destruct (di_hits _); [|done]. by destruct pairs.
Qed.

(** ** The arenas and records *)

(** A character-boundary prefix of at most [u16::MAX] bytes, as [raw] slices it. *)
Definition raw_view (s : bytes) : bytes := take (Z.to_nat U16_MAX) s.
Definition boundary_ok (s : bytes) : bool := char_boundary s 0.
Definition raw_ok (s : bytes) : bool :=
  boundary_ok s && char_boundary s (min (length s) (Z.to_nat U16_MAX)).

Lemma boundary_end s : char_boundary s (length s) = true.
Proof. unfold char_boundary. rewrite lookup_ge_None_2 by lia. apply Nat.eqb_refl. Qed.

Lemma char_boundary_app_l s t i :
  boundary_ok t = true → i ≤ length s → char_boundary s i = true → char_boundary (s ++ t) i = true.
Proof.
  intros Ht Hi Hs. unfold char_boundary in Hs |- *.
  destruct (decide (i < length s)).
  - rewrite lookup_app_l by done. destruct (lookup_lt_is_Some_2 s i) as [b Hb]; [done|].
    by rewrite Hb in *.
  - assert (i = length s) as -> by lia. rewrite lookup_app_r, Nat.sub_diag by lia.
    unfold boundary_ok, char_boundary in Ht. destruct t; simpl in *; [|done].
    rewrite length_app. simpl. apply Nat.eqb_eq. lia.
Qed.

Lemma char_boundary_app_r s t i : char_boundary (s ++ t) (length s + i) = char_boundary t i.
Proof.
  unfold char_boundary. rewrite lookup_app_r by lia.
  replace (length s + i - length s) with i by lia.
  destruct (t !! i); [done|]. rewrite length_app.
  destruct (Nat.eqb_spec i (length t)), (Nat.eqb_spec (length s + i) (length s + length t)); lia || done.
Qed.

Lemma boundary_app s t : boundary_ok s = true → boundary_ok t = true → boundary_ok (s ++ t) = true.
Proof. intros. apply char_boundary_app_l; [done|lia|done]. Qed.

Lemma boundary_join (l : list bytes) :
  Forall (λ s, boundary_ok s = true) l → boundary_ok (mjoin l) = true.
Proof. induction 1; simpl; [done|]. by apply boundary_app. Qed.

(** Slicing a member out of a concatenation of well-formed strings. *)
Lemma str_slice_arena (pre post : list bytes) s n :
  n ≤ length s → boundary_ok s = true → char_boundary s n = true →
  Forall (λ s, boundary_ok s = true) post →
  str_slice (mjoin (pre ++ s :: post)) (Z.of_nat (length (mjoin pre)))
    (Z.of_nat (length (mjoin pre)) + Z.of_nat n) = Some (take n s).
Proof.
  intros Hn H0 Hb Hpost%boundary_join. unfold str_slice.
  rewrite join_app. change (mjoin (s :: post)) with (s ++ mjoin post).
  rewrite <- Nat2Z.inj_add, !Nat2Z.id. rewrite !length_app.
  rewrite (proj2 (Nat.leb_le _ _)), (proj2 (Nat.leb_le _ _)) by lia. simpl.
  rewrite char_boundary_app_r, (char_boundary_app_l s) by (done || lia).
  rewrite <- (Nat.add_0_r (length (mjoin pre))) at 1.
  rewrite char_boundary_app_r, (char_boundary_app_l s) by (done || lia). simpl.
  rewrite drop_app_length, take_app_le by lia. f_equal. f_equal. lia.
Qed.

(** ** What [from_rules] builds *)

Section from_rules.
Context {RX : RegexLib} {NL : IpNetLib} {US : UnstableSort}.
Context (dhash : bytes → Z) (chash : list (bytes * Z * Action) → Z).
Implicit Types (br : BuildRule) (brs pre : list BuildRule).

Definition rule_domain br : bytes :=
  match pattern (rule br) with Exact d | Subdomain d => d | _ => [] end.
Definition rule_regex br : option regex := pattern_regex (pattern (rule br)).
Definition rule_kind br : Z :=
  match pattern (rule br) with
  | Exact _ => KIND_EXACT | Subdomain _ => KIND_SUBDOMAIN
  | Wildcard _ => KIND_WILDCARD | Regex _ => KIND_REGEX
  end.
Definition override_rule br : bool :=
  bool_decide (action (rule br) = Allow) || mods_important (mods (rule br)).
Definition client_dependent br : bool :=
  match mods (rule br) with Some m => is_some (client m) || is_some (ctag m) | None => false end.

Definition raws brs : list bytes := (λ br, raw (rule br)) <$> brs.
Definition doms brs : list bytes := rule_domain <$> brs.
Definition all_mods brs : list RuleMods := omap (λ br, mods (rule br)) brs.
Definition all_regexes brs : list regex := omap rule_regex brs.

(** The sizes the [u32] offsets of the engine can address. *)
Record sizes_ok brs : Prop := {
  sz_rules : (Z.of_nat (length brs) < U32_MAX)%Z;
  sz_raw : (Z.of_nat (length (mjoin (raws brs))) < 2 ^ 32)%Z;
  sz_dom : (Z.of_nat (length (mjoin (doms brs))) < 2 ^ 32)%Z;
}.

(** The record of a rule that follows [pre], with the casts discharged. *)
Definition record_of pre br : RuleRecord :=
  {| raw_start := Z.of_nat (length (mjoin (raws pre)));
     dom_or_re := match rule_regex br with
                  | Some _ => Z.of_nat (length (all_regexes pre))
                  | None => Z.of_nat (length (mjoin (doms pre)))
                  end;
     mods_idx := match mods (rule br) with
                 | Some _ => Z.of_nat (length (all_mods pre))
                 | None => NO_MODS
                 end;
     raw_len := Z.min (Z.of_nat (length (raw (rule br)))) U16_MAX;
     rec_list_id := wrap 16 (list_id (rule br));
     dom_len := wrap 8 (Z.of_nat (length (rule_domain br)));
     rec_action := action (rule br);
     kind := rule_kind br |}.

(** The per-rule entries of the four index inputs. *)
Definition exact_entry (i : nat) br : option (Z * Z) :=
  match pattern (rule br) with Exact d => Some (dhash d, Z.of_nat i) | _ => None end.
Definition sub_entry (i : nat) br : option (Z * Z) :=
  match pattern (rule br) with Subdomain d => Some (dhash d, Z.of_nat i) | _ => None end.
Definition scan_entry (override : bool) (i : nat) br : option (Z * list Z) :=
  match rule_regex br with
  | Some _ => if bool_decide (override_rule br = override) then Some (Z.of_nat i, index_tokens br) else None
  | None => None
  end.
Definition entries {E} (f : nat → BuildRule → option E) brs : list E := omap id (imap f brs).

Lemma entries_snoc {E} (f : nat → BuildRule → option E) brs br :
  entries f (brs ++ [br])
  = entries f brs ++ match f (length brs) br with Some e => [e] | None => [] end.
Proof.
  unfold entries. rewrite imap_app, omap_app. simpl. unfold compose. rewrite Nat.add_0_r.
  by destruct (f (length brs) br).
Qed.

Lemma entries_elem {E} (f : nat → BuildRule → option E) brs e :
  e ∈ entries f brs ↔ ∃ i br, brs !! i = Some br ∧ f i br = Some e.
Proof.
  unfold entries. rewrite list_elem_of_omap. split.
  - intros (o & Ho & Hid). apply list_elem_of_lookup in Ho as [i Hi].
    rewrite list_lookup_imap in Hi. destruct (brs !! i) as [br|] eqn:E1; simpl in Hi; [|done].
    injection Hi as Hi. unfold id in Hid. subst. by exists i, br.
  - intros (i & br & Hi & Hf). exists (f i br). split; [|done].
    apply list_elem_of_lookup. exists i. by rewrite list_lookup_imap, Hi.
Qed.

Lemma length_entries {E} (f : nat → BuildRule → option E) brs : length (entries f brs) ≤ length brs.
Proof.
  induction brs as [|br brs IH] using rev_ind; [done|].
  rewrite entries_snoc, !length_app. destruct (f _ _); simpl; lia.
Qed.

Lemma omap_length {A B} (f : A → option B) (l : list A) : length (omap f l) ≤ length l.
Proof. induction l as [|x l IH]; csimpl; [lia|]. destruct (f x); csimpl; lia. Qed.

(** The state of the loop of [from_rules] after the rules [brs]. *)
Record built_from brs (b : Building) : Prop := {
  bf_raw : b_raw b = mjoin (raws brs);
  bf_dom : b_dom b = mjoin (doms brs);
  bf_mods : b_mods b = all_mods brs;
  bf_regexes : b_regexes b = all_regexes brs;
  bf_records : b_records b = imap (λ i br, record_of (take i brs) br) brs;
  bf_exact : b_exact b = entries exact_entry brs;
  bf_sub : b_sub b = entries sub_entry brs;
  bf_override : b_override b = entries (scan_entry true) brs;
  bf_block : b_block b = entries (scan_entry false) brs;
  bf_dep : b_client_dep b = existsb client_dependent brs;
  bf_hashed : b_hashed b = (λ br, (raw (rule br), list_id (rule br), action (rule br))) <$> brs;
}.

Lemma sizes_ok_app pre brs : sizes_ok (pre ++ brs) → sizes_ok pre.
Proof.
  intros [H1 H2 H3]. unfold raws, doms in *.
  rewrite fmap_app, join_app, length_app in H2, H3. rewrite length_app in H1.
  unfold U32_MAX in *. constructor; unfold raws, doms, U32_MAX; lia.
Qed.

Lemma imap_take_snoc brs br :
  imap (λ i x, record_of (take i (brs ++ [br])) x) (brs ++ [br])
  = imap (λ i br, record_of (take i brs) br) brs ++ [record_of brs br].
Proof.
  rewrite imap_app. simpl. rewrite Nat.add_0_r, take_app_length. f_equal.
  apply imap_ext. intros i x Hi. rewrite take_app_le; [done|].
  apply lookup_lt_Some in Hi. lia.
Qed.

Lemma add_rule_built brs b br :
  sizes_ok (brs ++ [br]) → built_from brs b → built_from (brs ++ [br]) (add_rule dhash b br).
Proof.
  intros Hsz Hb. pose proof (sizes_ok_app _ _ Hsz) as [S1 S2 S3]. destruct Hsz as [S4 _ _].
  rewrite length_app in S4. simpl in S4. unfold U32_MAX in *.
  pose proof (omap_length (λ br, mods (rule br)) brs) as L1.
  pose proof (omap_length rule_regex brs) as L2.
  destruct Hb as [E1 E2 E3 E4 E5 E6 E7 E8 E9 E10 E11].
  assert (L3 : length (b_records b) = length brs) by (rewrite E5; apply length_imap).
  unfold add_rule. rewrite L3, E1, E2, E3, E4, E5, E6, E7, E8, E9, E10, E11.
  rewrite (wrap_small 32 (Z.of_nat (length brs))), (wrap_small 32 (Z.of_nat (length (mjoin (raws _))))),
    (wrap_small 32 (Z.of_nat (length (mjoin (doms _))))), (wrap_small 32 (Z.of_nat (length (all_regexes _)))),
    (wrap_small 32 (Z.of_nat (length (all_mods _)))) by (unfold in_u, all_regexes, all_mods; lia).
  assert (Ho : bool_decide (action (rule br) = Allow)
    || (negb (match mods (rule br) with Some _ => Z.of_nat (length (all_mods brs)) | None => NO_MODS end =? NO_MODS)%Z
        && mods_important (mods (rule br))) = override_rule br).
  { unfold override_rule. f_equal. destruct (mods (rule br)) as [m|]; [|done].
    rewrite (proj2 (Z.eqb_neq _ _)); [done|]. unfold NO_MODS, U32_MAX, all_mods. lia. }
  rewrite Ho.
  assert (Hraw : mjoin (raws brs) ++ raw (rule br) = mjoin (raws (brs ++ [br]))).
  { unfold raws. rewrite fmap_app, join_app. simpl. by rewrite app_nil_r. }
  assert (Hdom : mjoin (doms (brs ++ [br])) = mjoin (doms brs) ++ rule_domain br).
  { unfold doms. rewrite fmap_app, join_app. simpl. by rewrite app_nil_r. }
  assert (Hm : match mods (rule br) with Some m => all_mods brs ++ [m] | None => all_mods brs end
               = all_mods (brs ++ [br])).
  { unfold all_mods. rewrite omap_app. simpl. destruct (mods (rule br)); [done|by rewrite app_nil_r]. }
  assert (Hr : all_regexes (brs ++ [br]) = all_regexes brs ++ omap rule_regex [br])
    by apply omap_app.
  rewrite Hm, Hraw.
  destruct (pattern (rule br)) as [d|d|re|re] eqn:Ep;
  (constructor; simpl;
   [ done
   | rewrite Hdom; unfold rule_domain; rewrite Ep; by rewrite ?app_nil_r
   | done
   | rewrite Hr; simpl; unfold rule_regex; rewrite Ep; simpl; by rewrite ?app_nil_r
   | rewrite imap_take_snoc; f_equal; f_equal; unfold record_of, rule_kind, rule_regex, rule_domain;
     by rewrite Ep
   | rewrite entries_snoc; unfold exact_entry; rewrite Ep; by rewrite ?app_nil_r
   | rewrite entries_snoc; unfold sub_entry; rewrite Ep; by rewrite ?app_nil_r
   | rewrite entries_snoc; unfold scan_entry, rule_regex; rewrite Ep; simpl;
     destruct (override_rule br); simpl; by rewrite ?app_nil_r
   | rewrite entries_snoc; unfold scan_entry, rule_regex; rewrite Ep; simpl;
     destruct (override_rule br); simpl; by rewrite ?app_nil_r
   | rewrite existsb_app; simpl; by rewrite orb_false_r
   | rewrite fmap_app; done ]).
Qed.

Lemma foldl_built brs : sizes_ok brs → built_from brs (foldl (add_rule dhash) building_init brs).
Proof.
  induction brs as [|br brs IH] using rev_ind; intros Hsz; [by constructor|].
  rewrite foldl_snoc. apply add_rule_built; [done|]. apply IH. by eapply sizes_ok_app.
Qed.

End from_rules.

(** ** Scan groups *)

Section scan_groups.
Context {RX : RegexLib} {NL : IpNetLib}.

Lemma chunks_go_join {A} fuel n (l : list A) :
  0 < n → length l ≤ fuel → mjoin (chunks_go fuel n l) = l.
Proof.
  intros Hn. revert l. induction fuel as [|fuel IH]; intros [|x l] Hl; try done; [simpl in Hl; lia|].
  cbn [chunks_go]. change (take n (x :: l) ++ mjoin (chunks_go fuel n (drop n (x :: l))) = x :: l).
  rewrite IH; [apply take_drop|]. rewrite length_drop. simpl in *. lia.
Qed.

Lemma chunks_join {A} (l : list A) : mjoin (chunks FALLBACK_CHUNK l) = l.
Proof. unfold chunks. apply chunks_go_join; [unfold FALLBACK_CHUNK; lia|done]. Qed.

Lemma min_by_key_elem {A} (f : A → Z) l x : min_by_key f l = Some x → x ∈ l.
Proof.
  revert x. induction l as [|y l IH]; intros x; simpl; [done|].
  destruct (min_by_key f l) as [z|]; [|intros [= ->]; set_solver].
  specialize (IH z eq_refl). destruct (_ <? _)%Z; intros [= ->]; set_solver.
Qed.

Lemma min_by_key_None {A} (f : A → Z) l : min_by_key f l = None → l = [].
Proof. destruct l; simpl; [done|]. destruct (min_by_key f l); [destruct (_ <? _)%Z|]; done. Qed.

(** Membership in a multimap bucket. *)
Definition bucket (ix : gmap Z (list Z)) (t : Z) : list Z := default [] (ix !! t).

Lemma bucket_push ix t v t' : bucket (push_at t v ix) t' = if decide (t = t') then bucket ix t ++ [v] else bucket ix t'.
Proof.
  unfold bucket, push_at. destruct (decide _) as [<-|]; [by rewrite lookup_insert_eq|by rewrite lookup_insert_ne].
Qed.

(** The token index files every rule under one of its tokens, or in the fallback. *)
Lemma index_rules_spec meta :
  (∀ id toks, (id, toks) ∈ meta →
     id ∈ (index_rules meta).2 ∨ ∃ t, t ∈ toks ∧ id ∈ bucket (index_rules meta).1 t) ∧
  (∀ id, id ∈ (index_rules meta).2 → id ∈ meta.*1) ∧
  (∀ id t, id ∈ bucket (index_rules meta).1 t → id ∈ meta.*1).
Proof.
  unfold index_rules. generalize (token_freq meta) as freq. intros freq.
  induction meta as [|[id toks] meta IH] using rev_ind; [split_and!; set_solver|].
  rewrite foldl_snoc. revert IH. generalize (foldl
    (λ '(ix, fb) '(id, toks), match min_by_key (λ t, default 0%Z (freq !! t)) toks with
       | Some tok => (push_at tok id ix, fb) | None => (ix, fb ++ [id]) end) (∅, []) meta) as acc.
  intros [ix fb] (H1 & H2 & H3). simpl in *. rewrite fmap_app. simpl.
  destruct (min_by_key _ toks) as [tok|] eqn:E; simpl.
  - apply min_by_key_elem in E. setoid_rewrite bucket_push. split_and!.
    + intros id' toks' [Hin|Hin]%elem_of_app.
      * destruct (H1 id' toks' Hin) as [?|(t & ? & ?)]; [by left|right].
        exists t. case_decide; subst; set_solver.
      * apply list_elem_of_singleton in Hin. injection Hin as -> ->. right. exists tok.
        rewrite decide_True by done. set_solver.
    + set_solver.
    + intros id' t. case_decide; subst; [rewrite elem_of_app, list_elem_of_singleton|];
        rewrite elem_of_app; intros; destruct_or?; subst; [left; eauto|right; set_solver|left; eauto].
  - split_and!.
    + intros id' toks' [Hin|Hin]%elem_of_app; [|set_solver].
      destruct (H1 id' toks' Hin) as [?|?]; [set_solver|by right].
    + set_solver.
    + set_solver.
Qed.

Section scan.
Context (recs : list RuleRecord) (res : list regex).

(** [id] is a wildcard or regex record whose compiled program is [re]. *)
Definition id_regex (id : Z) (re : regex) : Prop :=
  ∃ r, recs !! Z.to_nat id = Some r ∧ (kind r =? KIND_WILDCARD)%Z || (kind r =? KIND_REGEX)%Z = true ∧
       res !! Z.to_nat (dom_or_re r) = Some re ∧ built re.
Definition scannable (id : Z) : Prop := ∃ re, id_regex id re.
Definition id_hits (id : Z) (domain : bytes) : Prop :=
  ∃ re, id_regex id re ∧ regex_is_match re domain = true.

Lemma id_regex_inj id re1 re2 : id_regex id re1 → id_regex id re2 → re1 = re2.
Proof. intros (r1 & ? & _ & ? & _) (r2 & ? & _ & ? & _). congruence. Qed.

Definition pattern_entry (id : Z) (p : bytes * Z) : Prop :=
  ∃ re, id_regex id re ∧ p = (regex_as_str re, id).

Lemma chunk_patterns_spec chunk :
  Forall scannable chunk →
  ∃ pats, chunk_patterns recs res chunk = Some pats ∧ Forall2 pattern_entry chunk pats.
Proof.
  induction 1 as [|id chunk [re Hre] _ (pats & E & Hp)]; simpl; [by exists []|].
  pose proof Hre as (r & -> & Hk & Hr & Hb). simpl. rewrite E. simpl. rewrite Hk, Hr. simpl.
  eexists; split; [done|]. constructor; [|done]. by exists re.
Qed.

(** A regex set built from the patterns of [ids]. *)
Definition set_for (s : regex_set * list Z) : Prop :=
  ∃ pats lim, regex_set_build pats.*1 lim = Ok s.1 ∧ s.2 = pats.*2 ∧ Forall2 pattern_entry s.2 pats.

Definition covers (sets : list (regex_set * list Z)) (indiv ids : list Z) : Prop :=
  Forall set_for sets ∧ ∀ id, id ∈ ids ↔ id ∈ indiv ∨ ∃ s, s ∈ sets ∧ id ∈ s.2.

Lemma pattern_entry_ids chunk pats : Forall2 pattern_entry chunk pats → pats.*2 = chunk.
Proof. induction 1 as [|id p chunk pats (re & _ & ->) _ IH]; csimpl; congruence. Qed.

Lemma chunk_loop_spec cs sets indiv ids :
  Forall scannable (mjoin cs) → covers sets indiv ids →
  ∃ sets' indiv', chunk_loop recs res cs (sets, indiv) = Some (sets', indiv') ∧
    covers sets' indiv' (ids ++ mjoin cs).
Proof.
  revert sets indiv ids. induction cs as [|c cs IH]; intros sets indiv ids Hs Hc.
  { exists sets, indiv. simpl. by rewrite app_nil_r. }
  change (mjoin (c :: cs)) with (c ++ mjoin cs) in *. apply Forall_app in Hs as [Hs1 Hs2].
  destruct (chunk_patterns_spec c Hs1) as (pats & E & Hp). cbn [chunk_loop].
  rewrite E, app_assoc. cbn [mbind option_bind].
  enough (covers (add_chunk pats (sets, indiv)).1 (add_chunk pats (sets, indiv)).2 (ids ++ c)) as Hc'.
  { destruct (add_chunk pats (sets, indiv)) as [sets' indiv']. by apply IH. }
  pose proof (pattern_entry_ids _ _ Hp) as Hids. destruct Hc as [Hc1 Hc2]. unfold add_chunk.
  destruct (is_nil pats) eqn:En.
  { destruct pats; [|done]. simpl in Hids. subst. rewrite app_nil_r. done. }
  destruct (regex_set_build _ _) as [set|e] eqn:Eb; simpl; split; try done.
  - apply Forall_app. split; [done|]. constructor; [|done].
    exists pats, FALLBACK_REGEXSET_SIZE_LIMIT. simpl. by rewrite Hids.
  - intros id. rewrite elem_of_app, Hc2, Hids. split.
    + intros [[?|(s & ? & ?)]|?]; [by left| |]; right; [exists s|exists (set, c)]; set_solver.
    + intros [?|(s & [?|Hin]%elem_of_app & Hid)]; [by left; left|left; right; eauto|].
      apply list_elem_of_singleton in Hin as ->. by right.
  - intros id. rewrite !elem_of_app, Hc2, Hids. tauto.
Qed.

(** What [build_scan_group] guarantees about the group of [meta]. *)
Record group_ok (meta : list (Z * list Z)) (token_index : bool) (g : ScanGroup) : Prop := {
  go_sets : Forall set_for (fallback_sets g);
  go_ids id : id ∈ fallback_individual g ∨ (∃ s, s ∈ fallback_sets g ∧ id ∈ s.2)
              ∨ (∃ t, id ∈ bucket (scan_index g) t) → id ∈ meta.*1;
  go_complete id toks : (id, toks) ∈ meta →
    id ∈ fallback_individual g ∨ (∃ s, s ∈ fallback_sets g ∧ id ∈ s.2)
    ∨ (token_index = true ∧ ∃ t, t ∈ toks ∧ id ∈ bucket (scan_index g) t);
}.

Lemma build_scan_group_ok meta flag :
  Forall scannable meta.*1 →
  ∃ g, build_scan_group meta recs res flag = Some g ∧ group_ok meta flag g.
Proof.
  intros Hs. unfold build_scan_group.
  destruct (index_rules_spec meta) as (I1 & I2 & I3).
  assert (Hcase : ∃ ix fb, (if flag then index_rules meta else (∅, meta.*1)) = (ix, fb) ∧
    (∀ id, id ∈ fb → id ∈ meta.*1) ∧ (∀ id t, id ∈ bucket ix t → id ∈ meta.*1) ∧
    (∀ id toks, (id, toks) ∈ meta → id ∈ fb ∨ (flag = true ∧ ∃ t, t ∈ toks ∧ id ∈ bucket ix t))).
  { destruct flag.
    - destruct (index_rules meta) as [ix fb]. exists ix, fb. simpl in *. split_and!; [done..|].
      intros id toks Hin. destruct (I1 id toks Hin); auto.
    - exists ∅, meta.*1. split_and!; [done..| |]; [set_solver|].
      intros id toks Hin. left. apply list_elem_of_fmap. by exists (id, toks). }
  destruct Hcase as (ix & fb & -> & F1 & F2 & F3).
  assert (Hfb : Forall scannable (mjoin (chunks FALLBACK_CHUNK fb))).
  { rewrite chunks_join, Forall_forall in *. auto. }
  destruct (chunk_loop_spec _ [] [] [] Hfb) as (sets & indiv & -> & [C1 C2]).
  { split; [done|set_solver]. }
  rewrite chunks_join in C2. simpl in *. eexists; split; [done|]. constructor; simpl; [done| |].
  - intros id [?|[?|[t ?]]]; [apply F1, C2; by left|apply F1, C2; by right|eauto].
  - intros id toks Hin. destruct (F3 id toks Hin) as [Hin'|?]; [|by right; right].
    apply C2 in Hin' as [?|?]; auto.
Qed.

Context {RL : RegexLaws RX}.

Lemma set_for_matches s domain :
  set_for s →
  ∃ out, mapM (λ idx, s.2 !! idx) (regex_set_matches s.1 domain) = Some out ∧
    ∀ id, id ∈ out ↔ id ∈ s.2 ∧ id_hits id domain.
Proof.
  intros (pats & lim & Hb & Hids & Hp).
  assert (Hlk : ∀ i p, pats !! i = Some p → ∃ re, s.2 !! i = Some p.2 ∧ id_regex p.2 re ∧
    pats.*1 !! i = Some (regex_as_str re) ∧
    (i ∈ regex_set_matches s.1 domain ↔ regex_is_match re domain = true)).
  { intros i p Hi. destruct (Forall2_lookup_r _ _ _ _ _ Hp Hi) as (id & Hid & re & Hre & ->).
    exists re. simpl. pose proof Hre as (r & _ & _ & _ & src & lim' & Hsrc).
    assert (Hl : pats.*1 !! i = Some (regex_as_str re)) by (by rewrite list_lookup_fmap, Hi).
    split_and!; [done..|]. rewrite (regex_as_str_build _ _ _ Hsrc) in Hl.
    by apply (regex_set_matches_iff _ _ _ domain i _ _ _ Hb Hl Hsrc). }
  assert (Hlt : Forall (λ idx, is_Some (s.2 !! idx)) (regex_set_matches s.1 domain)).
  { apply Forall_forall. intros i Hi. apply (regex_set_matches_lt _ _ _ domain i Hb) in Hi.
    apply lookup_lt_is_Some. rewrite Hids, length_fmap. by rewrite length_fmap in Hi. }
  apply mapM_is_Some in Hlt as [out Hout].
  exists out. split; [done|]. apply mapM_Some in Hout. intros id. split.
  - intros [k Hk]%list_elem_of_lookup.
    destruct (Forall2_lookup_r _ _ _ _ _ Hout Hk) as (i & Hi & Hid).
    split; [by eapply list_elem_of_lookup_2|].
    rewrite Hids, list_lookup_fmap in Hid. destruct (pats !! i) as [p|] eqn:Ep; [|done].
    injection Hid as <-. destruct (Hlk i p Ep) as (re & _ & Hre & _ & Hm).
    exists re. split; [done|]. apply Hm. by eapply list_elem_of_lookup_2.
  - intros [[i Hi]%list_elem_of_lookup (re' & Hre' & Hm')].
    destruct (Forall2_lookup_l _ _ _ _ _ Hp Hi) as (p & Ep & re0 & _ & Hp0).
    destruct (Hlk i p Ep) as (re & Hi' & Hre & _ & Hm). rewrite Hi in Hi'. injection Hi' as Hi'.
    rewrite <- Hi' in Hre. rewrite (id_regex_inj _ _ _ Hre' Hre) in Hm'.
    apply Hm, list_elem_of_lookup in Hm' as [k Hk].
    destruct (Forall2_lookup_l _ _ _ _ _ Hout Hk) as (id' & Hk' & Hid').
    rewrite Hi in Hid'. injection Hid' as ->. by eapply list_elem_of_lookup_2.
Qed.

Lemma scan_sets_spec sets domain :
  Forall set_for sets →
  ∃ out, scan_sets domain sets = Some out ∧
    ∀ id, id ∈ out ↔ (∃ s, s ∈ sets ∧ id ∈ s.2) ∧ id_hits id domain.
Proof.
  induction 1 as [|[set ids] sets Hs _ (out & E & Hout)]; [exists []; split; [done|set_solver]|].
  destruct (set_for_matches _ domain Hs) as (o1 & E1 & H1). simpl in *. rewrite E1. simpl.
  rewrite E. simpl. eexists; split; [done|]. intros id.
  rewrite elem_of_app, H1, Hout. setoid_rewrite elem_of_cons. split.
  - intros [[??]|[(s & ? & ?) ?]]; (split; [|done]); [exists (set, ids)|exists s]; auto.
  - intros [(s & [->|?] & ?) ?]; [by left|right; eauto].
Qed.

End scan.

Lemma scan_ids_spec e domain ids :
  Forall (scannable (rules e) (regexes e)) ids →
  ∃ out, scan_ids e domain ids = Some out ∧
    ∀ id, id ∈ out ↔ id ∈ ids ∧ id_hits (rules e) (regexes e) id domain.
Proof.
  induction 1 as [|id ids [re Hre] _ (out & E & Hout)]; [exists []; split; [done|set_solver]|].
  pose proof Hre as (r & Hr & Hk & Hd & Hb). cbn [scan_ids]. rewrite Hr. simpl. rewrite Hk, Hd. simpl.
  rewrite E. simpl. eexists; split; [done|]. intros id'.
  assert (Hiff : id_hits (rules e) (regexes e) id domain ↔ regex_is_match re domain = true).
  { split; [|by exists re]. intros (re' & Hre' & ?).
    by rewrite (id_regex_inj _ _ _ _ _ Hre Hre'). }
  destruct (regex_is_match re domain); rewrite !elem_of_cons, ?Hout.
  - split; [intros [->|[??]]; (split; [auto|]); [by apply Hiff|done]|tauto].
  - split; [tauto|]. intros [[->|?] ?]; [|done]. by apply Hiff in H.
Qed.

End scan_groups.

(** ** The engine of a rule set *)

Section engine.
Context {RX : RegexLib} {NL : IpNetLib} {US : UnstableSort}.
Context (dhash : bytes → Z) (chash : list (bytes * Z * Action) → Z).
Implicit Types (br : BuildRule) (brs pre : list BuildRule).

(** What the engine requires of the rules it compiles. *)
Record rules_ok brs : Prop := {
  ro_sizes : sizes_ok brs;
  ro_raw : Forall (λ br, raw_ok (raw (rule br)) = true) brs;
  ro_dom : Forall (λ br, boundary_ok (rule_domain br) = true) brs;
  ro_dom_len : Forall (λ br, length (rule_domain br) ≤ 255) brs;
  ro_wf : Forall rule_wf brs;
}.

(** The limits of the compiled record that the parser does not enforce. *)
Record limits_ok brs : Prop := {
  lim_sizes : sizes_ok brs;
  lim_dom : Forall (λ br, boundary_ok (rule_domain br) = true) brs;
  lim_dom_len : Forall (λ br, length (rule_domain br) ≤ 255) brs;
}.

(** The limits as an executable test. *)
Definition fits_engine brs : bool :=
  (Z.of_nat (length brs) <? U32_MAX)%Z
  && (Z.of_nat (length (mjoin (raws brs))) <? 2 ^ 32)%Z
  && (Z.of_nat (length (mjoin (doms brs))) <? 2 ^ 32)%Z
  && forallb (λ br, boundary_ok (rule_domain br)) brs
  && forallb (λ br, length (rule_domain br) <=? 255) brs.

Lemma fits_engine_ok brs : fits_engine brs = true → limits_ok brs.
Proof.
  unfold fits_engine. intros H. bool_to_prop. constructor; [constructor; by apply Z.ltb_lt| |].
  - by apply forallb_Forall.
  - eapply Forall_impl; [by apply forallb_Forall|]. intros br. apply Nat.leb_le.
Qed.

Lemma rules_ok_intro brs :
  fits_engine brs = true → forallb (λ br, raw_ok (raw (rule br))) brs = true → Forall rule_wf brs →
  rules_ok brs.
Proof. intros [L1 L2 L3]%fits_engine_ok Hr%forallb_Forall Hwf. by constructor. Qed.

(** [e] is [from_rules brs], with everything the proofs below use of it. *)
Record engine_of brs (e : FilterEngine) : Prop := {
  eo_rules : rules e = imap (λ i br, record_of (take i brs) br) brs;
  eo_raw : raw_arena e = mjoin (raws brs);
  eo_dom : domain_arena e = mjoin (doms brs);
  eo_mods : fe_mods e = all_mods brs;
  eo_regexes : regexes e = all_regexes brs;
  eo_exact : exact e = di_build (entries (exact_entry dhash) brs);
  eo_sub : subdomain e = di_build (entries (sub_entry dhash) brs);
  eo_override : group_ok (rules e) (regexes e) (entries (scan_entry true) brs) false (override_scan e);
  eo_block : group_ok (rules e) (regexes e) (entries (scan_entry false) brs) true (block_scan e);
  eo_dep : has_client_dependent_rules e = existsb client_dependent brs;
}.

Lemma omap_lookup_take {A B} (f : A → option B) (l : list A) i x y :
  l !! i = Some x → f x = Some y → omap f l !! length (omap f (take i l)) = Some y.
Proof.
  intros Hi Hf. assert (E : omap f l = omap f (take i l) ++ omap f (x :: drop (S i) l))
    by (by rewrite <- omap_app, take_drop_middle).
  rewrite E, lookup_app_r, Nat.sub_diag by lia. simpl. by rewrite Hf.
Qed.

Lemma rule_at_regex brs i br re :
  Forall rule_wf brs → brs !! i = Some br → rule_regex br = Some re →
  id_regex (imap (λ i br, record_of (take i brs) br) brs) (all_regexes brs) (Z.of_nat i) re.
Proof.
  intros Hwf Hi Hre. exists (record_of (take i brs) br). rewrite Nat2Z.id, list_lookup_imap, Hi.
  split_and!; [done| | |].
  - simpl. unfold rule_kind. unfold rule_regex in Hre. by destruct (pattern (rule br)).
  - simpl. rewrite Hre, Nat2Z.id. by apply (omap_lookup_take _ _ _ br).
  - rewrite Forall_lookup in Hwf. by apply (wf_built _ (Hwf i br Hi)).
Qed.

Lemma scan_entry_Some o i br p :
  scan_entry o i br = Some p →
  ∃ re, rule_regex br = Some re ∧ override_rule br = o ∧ p = (Z.of_nat i, index_tokens br).
Proof.
  unfold scan_entry. destruct (rule_regex br) as [re|]; [|done]. case_bool_decide; [|done].
  intros [= <-]. by exists re.
Qed.

Lemma scan_entries_scannable brs o :
  Forall rule_wf brs →
  Forall (scannable (imap (λ i br, record_of (take i brs) br) brs) (all_regexes brs))
    (entries (scan_entry o) brs).*1.
Proof.
  intros Hwf. apply Forall_forall. intros id ([id' toks] & -> & Hin)%list_elem_of_fmap. simpl.
  apply entries_elem in Hin as (i & br & Hi & (re & Hre & _ & [= -> ->])%scan_entry_Some).
  exists re. by apply rule_at_regex with br.
Qed.

Lemma from_rules_engine brs :
  rules_ok brs → ∃ e, from_rules dhash chash brs = Some e ∧ engine_of brs e.
Proof.
  intros Hok. pose proof (ro_wf _ Hok) as Hwf. unfold from_rules.
  destruct (foldl_built dhash brs (ro_sizes _ Hok)) as [-> -> -> -> -> -> -> -> -> -> ->].
  destruct (build_scan_group_ok _ _ _ false (scan_entries_scannable brs true Hwf)) as (g1 & E1 & G1).
  destruct (build_scan_group_ok _ _ _ true (scan_entries_scannable brs false Hwf)) as (g2 & E2 & G2).
  rewrite E1. simpl. rewrite E2. simpl. eexists; split; [done|]. by constructor.
Qed.

(** ** Accessors *)

Section accessors.
Context brs (e : FilterEngine) (Hok : rules_ok brs) (He : engine_of brs e).
Implicit Types i : nat.

Lemma record_at i br : brs !! i = Some br → rules e !! i = Some (record_of (take i brs) br).
Proof. intros Hi. by rewrite (eo_rules _ _ He), list_lookup_imap, Hi. Qed.

Lemma sizes_at i br : brs !! i = Some br → sizes_ok (take i brs) ∧ (Z.of_nat i < U32_MAX)%Z.
Proof.
  intros Hi. pose proof (ro_sizes _ Hok) as Hs. split.
  - rewrite <- (take_drop i brs) in Hs. by apply sizes_ok_app in Hs.
  - apply lookup_lt_Some in Hi. destruct Hs as [Hs _ _]. lia.
Qed.

Lemma arena_split (f : BuildRule → bytes) i br :
  brs !! i = Some br → f <$> brs = (f <$> take i brs) ++ f br :: (f <$> drop (S i) brs).
Proof. intros Hi. rewrite <- fmap_cons, <- fmap_app. by rewrite take_drop_middle. Qed.

Lemma raw_of_at i br :
  brs !! i = Some br → raw_of e (record_of (take i brs) br) = Some (raw_view (raw (rule br))).
Proof.
  intros Hi. unfold raw_of. rewrite (eo_raw _ _ He). simpl. unfold raws.
  rewrite (arena_split (λ br, raw (rule br)) _ _ Hi).
  pose proof (ro_raw _ Hok) as Hraw.
  assert (Hr : raw_ok (raw (rule br)) = true) by (rewrite Forall_lookup in Hraw; eauto).
  unfold raw_ok in Hr. bool_to_prop.
  replace (Z.min (Z.of_nat (length (raw (rule br)))) U16_MAX)
    with (Z.of_nat (min (length (raw (rule br))) (Z.to_nat U16_MAX))) by (unfold U16_MAX; lia).
  rewrite str_slice_arena; [|lia|done|done|].
  - f_equal. unfold raw_view. destruct (Nat.le_ge_cases (length (raw (rule br))) (Z.to_nat U16_MAX)).
    + rewrite !take_ge; [done|lia|lia].
    + by rewrite Nat.min_r.
  - apply Forall_fmap, Forall_drop. eapply Forall_impl; [exact Hraw|]. intros x Hx.
    unfold raw_ok in Hx. by bool_to_prop.
Qed.

Lemma domain_of_at i br :
  brs !! i = Some br → rule_regex br = None →
  domain_of e (record_of (take i brs) br) = Some (rule_domain br).
Proof.
  intros Hi Hn. unfold domain_of. rewrite (eo_dom _ _ He). simpl. rewrite Hn. unfold doms.
  rewrite (arena_split rule_domain _ _ Hi).
  pose proof (ro_dom _ Hok) as Hd. pose proof (ro_dom_len _ Hok) as Hl.
  rewrite Forall_lookup in Hl. specialize (Hl i br Hi).
  rewrite wrap_small by (unfold in_u; lia).
  rewrite str_slice_arena; [by rewrite take_ge|lia| |apply boundary_end|].
  - rewrite Forall_lookup in Hd. eauto.
  - by apply Forall_fmap, Forall_drop.
Qed.

Lemma mods_of_at i br :
  brs !! i = Some br → mods_of e (record_of (take i brs) br) = Some (mods (rule br)).
Proof.
  intros Hi. unfold mods_of. simpl. rewrite (eo_mods _ _ He).
  destruct (mods (rule br)) as [m|] eqn:Em; [|done].
  pose proof (sizes_at _ _ Hi) as [[Hs _ _] _].
  pose proof (omap_length (λ br, mods (rule br)) (take i brs)).
  rewrite (proj2 (Z.eqb_neq _ _)) by (unfold NO_MODS, all_mods; lia).
  rewrite Nat2Z.id. unfold all_mods. by rewrite (omap_lookup_take _ _ _ br m Hi Em).
Qed.

Lemma rec_priority_at i br :
  brs !! i = Some br → rec_priority e (record_of (take i brs) br) = Some (priority (rule br)).
Proof. intros Hi. unfold rec_priority. rewrite mods_of_at by done. done. Qed.

End accessors.

End engine.
