(* ===== verification/Instances.v ===== *)
(** * Concrete instances of the external interfaces.

    Executable stand-ins for the crates behind [RegexLib], [IpNetLib] and [UnstableSort]:
    a regex compiler for exactly the sources [build_wildcard_regex] emits, CIDR networks
    given as a bare address, and a stable sort.  They satisfy the interface laws, so they
    instantiate the theorems on concrete rule lists. *)
From Stdlib Require Import Ascii.
From S2P Require Import Prelude RustStr RustNet Rule Token Glob Parser ParserProps FilterEngine.

(** ** A regex compiler for translated globs *)

(** Inverse of [mjoin (wildcard_char <$> body)] followed by the optional final anchor. *)
Definition caret_src : bytes := bs "(?:[^a-z0-9._-]|$)".
Definition push_char (c : byte) (r : option (bool * bytes)) : option (bool * bytes) :=
  (λ '(e, body), (e, c :: body)) <$> r.
Fixpoint decode_body (fuel : nat) (s : bytes) : option (bool * bytes) :=
  match fuel, s with
  | _, [] => Some (false, [])
  | 0, _ => None
  | S fuel, c :: rest =>
      if bool_decide (s = bs "$") then Some (true, [])
      else match strip_prefix (bs ".*") s with
           | Some r => push_char star (decode_body fuel r)
           | None =>
               match strip_prefix caret_src s with
               | Some r => push_char caret (decode_body fuel r)
               | None =>
                   if bool_decide (c = "\"%char) then
                     match rest with
                     | d :: rest => push_char d (decode_body fuel rest)
                     | [] => None
                     end
                   else push_char c (decode_body fuel rest)
               end
           end
  end.
Definition decode (src : bytes) : option (bool * bool * (bool * bytes)) :=
  let! s := strip_prefix (bs "(?i)") src in
  match strip_prefix (bs "(?:^|\.)") s with
  | Some r => let! p := decode_body (S (length r)) r in Some (true, false, p)
  | None =>
      match strip_prefix (bs "^") s with
      | Some r => let! p := decode_body (S (length r)) r in Some (false, true, p)
      | None => let! p := decode_body (S (length s)) s in Some (false, false, p)
      end
  end.

Definition toy_is_match (src text : bytes) : bool :=
  match decode src with
  | Some (sub, st, (e, body)) => glob_matches sub st e body text
  | None => false
  end.

#[export] Instance toy_regex : RegexLib := {
  regex := bytes;
  regex_build src lim := if is_some (decode src) then Ok src else Err (bs "unsupported syntax");
  regex_is_match := toy_is_match;
  regex_as_str re := re;
  regex_set := list bytes;
  regex_set_build pats lim := Ok pats;
  regex_set_matches set text :=
    filter (λ i, default false ((λ re, toy_is_match re text) <$> set !! i) = true) (seq 0 (length set));
}.

#[export] Instance toy_regex_laws : RegexLaws toy_regex.
Proof.
  constructor; simpl.
  - intros src lim re. destruct (is_some _); [by intros [= ->]|done].
  - intros pats lim set text i [= <-]. rewrite list_elem_of_filter, elem_of_seq. lia.
  - intros pats lim set text i src lim' re [= <-] Hi. destruct (is_some _); [|done]. intros [= <-].
    rewrite list_elem_of_filter, Hi, elem_of_seq. apply lookup_lt_Some in Hi. simpl.
    split; [tauto|]. intros ->. split; [done|lia].
Qed.

Lemma starts_with_app p s : starts_with p (p ++ s) = true.
Proof. apply bool_decide_eq_true. by rewrite take_app_length. Qed.
Lemma strip_prefix_app p s : strip_prefix p (p ++ s) = Some s.
Proof. unfold strip_prefix. by rewrite starts_with_app, drop_app_length. Qed.
Lemma strip_prefix_ne a p b s : a ≠ b → strip_prefix (a :: p) (b :: s) = None.
Proof. intros H. unfold strip_prefix, starts_with. rewrite bool_decide_false; [done|]. simpl. congruence. Qed.

Lemma strip_star_ne b s : b ≠ "."%char → strip_prefix (bs ".*") (b :: s) = None.
Proof. intros H. by apply (strip_prefix_ne "."%char). Qed.
Lemma strip_caret_ne b s : b ≠ "("%char → strip_prefix caret_src (b :: s) = None.
Proof. intros H. by apply (strip_prefix_ne "("%char). Qed.
Lemma strip_sub_ne b s : b ≠ "("%char → strip_prefix (bs "(?:^|\.)") (b :: s) = None.
Proof. intros H. by apply (strip_prefix_ne "("%char). Qed.
Lemma strip_hat_ne b s : b ≠ "^"%char → strip_prefix (bs "^") (b :: s) = None.
Proof. intros H. by apply (strip_prefix_ne "^"%char). Qed.

(** One step of the decoder on each kind of character. *)
Lemma decode_body_char fuel c s :
  decode_body (S fuel) (wildcard_char c ++ s) = push_char c (decode_body fuel s).
Proof.
  unfold wildcard_char.
  case_bool_decide as H1; [|case_bool_decide as H2; [|case_bool_decide as H3]].
  - subst. change (bs ".*" ++ s) with ("."%char :: "*"%char :: s). cbn [decode_body].
    rewrite bool_decide_false by done.
    change ("."%char :: "*"%char :: s) with (bs ".*" ++ s). by rewrite strip_prefix_app.
  - subst. fold caret_src. set (t := caret_src ++ s). 
    assert (∃ r, t = "("%char :: r ∧ r ≠ []) as (r & Et & _) by (by eexists).
    assert (strip_prefix caret_src t = Some s) as Hs by apply strip_prefix_app.
    rewrite Et in *. cbn [decode_body]. rewrite bool_decide_false by done.
    rewrite Hs. by rewrite strip_star_ne.
  - cbn [app decode_body]. rewrite bool_decide_false by done.
    by rewrite strip_star_ne, strip_caret_ne.
  - cbn [app decode_body].
    assert (c ≠ "$"%char ∧ c ≠ "."%char ∧ c ≠ "("%char ∧ c ≠ "\"%char) as (N1 & N2 & N3 & N4).
    { split_and!; intros ->; apply H3; vm_compute; repeat constructor. }
    rewrite bool_decide_false by (intros [= ? ?]; done).
    rewrite strip_star_ne, strip_caret_ne by done.
    by rewrite bool_decide_false.
Qed.

Lemma decode_body_src body (e : bool) fuel :
  length body < fuel →
  decode_body fuel (mjoin (wildcard_char <$> body) ++ (if e then bs "$" else [])) = Some (e, body).
Proof.
  revert fuel. induction body as [|c body IH]; intros [|fuel] Hf; try (simpl in Hf; lia).
  - by destruct e.
  - rewrite fmap_cons. change (mjoin (?x :: ?l)) with (x ++ mjoin l).
    rewrite <- app_assoc, decode_body_char, IH; [done|]. simpl in Hf. lia.
Qed.

Lemma length_wildcard body t : length body ≤ length (mjoin (wildcard_char <$> body) ++ t).
Proof.
  induction body as [|c body IH]; [simpl; lia|]. rewrite fmap_cons. change (mjoin (?x :: ?l)) with (x ++ mjoin l).
  rewrite <- app_assoc, length_app. cbn [length].
  enough (1 ≤ length (wildcard_char c)) by lia. unfold wildcard_char.
  repeat case_bool_decide; simpl; lia.
Qed.

(** The encoded body never starts like one of the front anchors. *)
Lemma wildcard_no_anchor body (e : bool) :
  strip_prefix (bs "(?:^|\.)") (mjoin (wildcard_char <$> body) ++ (if e then bs "$" else [])) = None ∧
  strip_prefix (bs "^") (mjoin (wildcard_char <$> body) ++ (if e then bs "$" else [])) = None.
Proof.
  destruct body as [|c body]; [by destruct e|]. rewrite fmap_cons. change (mjoin (?x :: ?l)) with (x ++ mjoin l).
  rewrite <- app_assoc. generalize (mjoin (wildcard_char <$> body) ++ (if e then bs "$" else [])). intros s.
  unfold wildcard_char. case_bool_decide as H1; [done|]. case_bool_decide as H2; [done|].
  case_bool_decide as H3; [done|]. cbn [app].
  assert (c ≠ "("%char) by (intros ->; apply H3; vm_compute; repeat constructor).
  by rewrite strip_sub_ne, strip_hat_ne.
Qed.

Lemma decode_wildcard body sub st e :
  decode (wildcard_src body sub st e) = Some (sub, if sub then false else st, (e, body)).
Proof.
  unfold decode, wildcard_src. rewrite strip_prefix_app. cbn [mbind option_bind].
  pose proof (length_wildcard body (if e then bs "$" else [])).
  destruct (wildcard_no_anchor body e) as [N1 N2].
  destruct sub; [|destruct st].
  - rewrite strip_prefix_app, decode_body_src by lia. done.
  - rewrite strip_prefix_app. change (bs "^" ++ ?s) with ("^"%char :: s).
    rewrite strip_sub_ne by done. rewrite decode_body_src by lia. done.
  - cbn [app]. rewrite N1, N2, decode_body_src by lia. done.
Qed.

#[export] Instance toy_glob_laws : GlobLaws toy_regex.
Proof.
  constructor. intros body sub st e lim re text _ _ H. simpl in *.
  rewrite decode_wildcard in H. simpl in H. injection H as <-.
  unfold toy_is_match. rewrite decode_wildcard. by destruct sub.
Qed.

(** ** Networks and sorting *)

(** A network is a single address. *)
#[export] Instance toy_ipnet : IpNetLib := {
  ipnet := ip_addr;
  ipnet_parse := parse_ip;
  ipnet_contains net ip := bool_decide (net = ip);
  ipnet_prefix_len net := match net with V4 _ => 32%Z | V6 _ => 128%Z end;
}.

Definition pair_le (p q : Z * Z) : Prop := (p.1 <= q.1)%Z.
#[export] Instance pair_le_dec : RelDecision pair_le.
Proof. unfold pair_le. solve_decision. Defined.
#[export] Instance pair_le_total : Total pair_le.
Proof. intros p q. unfold pair_le. lia. Qed.
#[export] Instance pair_le_trans : Transitive pair_le.
Proof. intros p q r. unfold pair_le. lia. Qed.

#[export] Instance merge_unstable_sort : UnstableSort.
Proof.
  refine {| sort_pairs := merge_sort pair_le |}.
  - apply merge_sort_Permutation.
  - intros l. exact (StronglySorted_merge_sort pair_le l).
Defined.
