(* ===== verification/FilterSpec.v ===== *)
(** * The matching contract of [FilterEngine::check].

    A linear-scan semantics of a rule list, and the proof that the compiled engine
    implements it. *)
From Stdlib Require Import Ascii.
From S2P Require Import Prelude RustStr RustNet Rule Token Glob Parser ParserProps FilterEngine FilterEngineProps Instances.

Section spec.
Context {RX : RegexLib} {NL : IpNetLib}.
Implicit Types (br : BuildRule) (brs : list BuildRule).

(** ** Reference semantics *)

Definition pattern_matches (p : Pattern) (domain : bytes) : bool :=
  match p with
  | Exact d => bool_decide (d = domain)
  | Subdomain d => is_subdomain_of domain d
  | Wildcard re | Regex re => regex_is_match re domain
  end.
Definition rule_applies (r : Rule) (domain rtype : bytes) (cl : ClientInfo) : bool :=
  pattern_matches (pattern r) domain && mods_applicable (mods r) (action r) domain rtype cl.

(** The verdict a winning rule, the [i]-th of the engine, produces. *)
Definition verdict_of (i : nat) (r : Rule) : option Verdict :=
  let info := {| mi_rule := raw_view (raw r); mi_list_id := wrap 16 (list_id r);
                 mi_rule_id := Z.of_nat i |} in
  match action r with
  | Allow => Some (VAllow (Some info))
  | Block => Some (VBlock info)
  | Rewrite => VRewrite info <$> rule_rewrite r
  end.

(** The [i]-th rule applies, and no applying rule has a higher priority. *)
Definition winner brs (domain rtype : bytes) (cl : ClientInfo) (i : nat) br : Prop :=
  brs !! i = Some br ∧ rule_applies (rule br) domain rtype cl = true ∧
  ∀ br', br' ∈ brs → rule_applies (rule br') domain rtype cl = true →
    (priority (rule br') <= priority (rule br))%Z.

Definition spec_verdict brs (domain rtype : bytes) (cl : ClientInfo) (v : Verdict) : Prop :=
  (v = VAllow None ∧ ∀ br, br ∈ brs → rule_applies (rule br) domain rtype cl = false) ∨
  (∃ i br, winner brs domain rtype cl i br ∧ verdict_of i (rule br) = Some v).

(** An executable certificate: rule [i] wins and yields [v]. *)
Definition wins_with brs (domain rtype : bytes) (cl : ClientInfo) (i : nat) (v : Verdict) : bool :=
  match brs !! i with
  | Some br =>
      rule_applies (rule br) domain rtype cl
      && forallb (λ br', negb (rule_applies (rule br') domain rtype cl)
                         || (priority (rule br') <=? priority (rule br))%Z) brs
      && bool_decide (verdict_of i (rule br) = Some v)
  | None => false
  end.
Lemma wins_with_spec brs domain rtype cl i v :
  wins_with brs domain rtype cl i v = true → spec_verdict brs domain rtype cl v.
Proof.
  unfold wins_with. destruct (brs !! i) as [br|] eqn:Hi; [|done]. intros H. bool_to_prop.
  right. exists i, br. split; [|done]. split_and!; [done..|]. intros br' Hin Ha.
  match goal with H : forallb _ _ = true |- _ => rewrite forallb_Forall, Forall_forall in H; specialize (H _ Hin) end.
  simpl in *. rewrite Ha in *. simpl in *. by apply Z.leb_le.
Qed.

(** ** Candidates *)

Section check.
Context {US : UnstableSort} {RL : RegexLaws RX}.
Context (dhash : bytes → Z).
Context brs (e : FilterEngine) (Hok : rules_ok brs) (He : engine_of dhash brs e).
Context (domain rtype : bytes) (cl : ClientInfo).

Abbreviation applies br := (rule_applies (rule br) domain rtype cl).

(** A candidate id names a rule whose regex, when it has one, matches. *)
Definition candidate (id : Z) : Prop :=
  ∃ i br, id = Z.of_nat i ∧ brs !! i = Some br ∧
    ∀ re, rule_regex br = Some re → regex_is_match re domain = true.

Lemma domain_matches_at i br :
  brs !! i = Some br → (∀ re, rule_regex br = Some re → regex_is_match re domain = true) →
  domain_matches e (record_of (take i brs) br) domain = Some (pattern_matches (pattern (rule br)) domain).
Proof.
  intros Hi Hre. unfold domain_matches. simpl.
  pose proof (domain_of_at dhash brs e Hok He i br Hi) as Hd. revert Hd Hre.
  unfold rule_regex, rule_kind, rule_domain, pattern_matches.
  destruct (pattern (rule br)) as [d|d|re|re]; simpl; intros Hd Hre.
  - by rewrite Hd.
  - by rewrite Hd.
  - by rewrite Hre.
  - by rewrite Hre.
Qed.

Definition best_ok (best : option (Z * Z)) : Prop :=
  ∀ id p, best = Some (id, p) →
    ∃ i br, id = Z.of_nat i ∧ brs !! i = Some br ∧ applies br = true ∧ p = priority (rule br).

(** [best] is at least [p]. *)
Definition best_ge (best : option (Z * Z)) (p : Z) : Prop :=
  ∃ id p', best = Some (id, p') ∧ (p <= p')%Z.

Lemma best_ge_trans best p q : best_ge best p → (q <= p)%Z → best_ge best q.
Proof. intros (id & p' & ? & ?) ?. exists id, p'. split; [done|lia]. Qed.

Lemma consider_spec ids best :
  Forall candidate ids → best_ok best →
  ∃ best', consider e ids domain rtype cl best = Some best' ∧ best_ok best' ∧
    (∀ id p, best = Some (id, p) → best_ge best' p) ∧
    (∀ i br, Z.of_nat i ∈ ids → brs !! i = Some br → applies br = true →
       best_ge best' (priority (rule br))).
Proof.
  intros Hc. revert best. induction Hc as [|id ids (i & br & -> & Hi & Hre) _ IH]; intros best Hb.
  { exists best. split_and!; [done|done| |by intros ??[]%elem_of_nil].
    intros id p ->. exists id, p. split; [done|lia]. }
  cbn [consider]. rewrite Nat2Z.id, (record_at _ _ _ He i br Hi). cbn [mbind option_bind].
  rewrite (domain_matches_at i br Hi Hre). cbn [mbind option_bind].
  assert (Hap : (if pattern_matches (pattern (rule br)) domain
                 then applicable e (record_of (take i brs) br) domain rtype cl else Some false)
                = Some (applies br)).
  { unfold rule_applies, applicable. rewrite (mods_of_at _ _ _ Hok He i br Hi).
    by destruct (pattern_matches _ _). }
  rewrite Hap. cbn [mbind option_bind].
  destruct (applies br) eqn:Ea.
  - rewrite (rec_priority_at _ _ _ Hok He i br Hi). cbn [mbind option_bind].
    match goal with |- context [consider _ _ _ _ _ ?b] => destruct (IH b) as (best' & -> & Hb' & H1 & H2) end.
    { destruct (match best with Some _ => _ | None => _ end); [|done].
      intros ?? [= <- <-]. by exists i, br. }
    assert (Hge : best_ge best' (priority (rule br)) ∧ ∀ id p, best = Some (id, p) → best_ge best' p).
    { destruct best as [[id0 p0]|]; simpl in *.
      - destruct (Z.ltb_spec p0 (priority (rule br))).
        + specialize (H1 _ _ eq_refl). split; [done|]. intros ?? [= -> ->]. eapply best_ge_trans; [done|lia].
        + specialize (H1 _ _ eq_refl). split; [by eapply best_ge_trans|]. by intros ?? [= -> ->].
      - split; [by eapply H1|done]. }
    destruct Hge as [Hge1 Hge2]. exists best'. split_and!; [done|done|done|].
    intros j brj Hin Hj Haj. apply elem_of_cons in Hin as [->%Nat2Z.inj|Hin]; [|by eapply H2].
    by simplify_eq.
  - destruct (IH best Hb) as (best' & -> & Hb' & H1 & H2). exists best'. split_and!; [done|done|done|].
    intros j brj Hin Hj Haj. apply elem_of_cons in Hin as [->%Nat2Z.inj|Hin]; [|by eapply H2].
    congruence.
Qed.

(** *** The hashed domain indexes *)

Lemma entries_small {E} (f : nat → BuildRule → option E) : (Z.of_nat (length (entries f brs)) < 2 ^ 32)%Z.
Proof.
  pose proof (length_entries f brs). pose proof (sz_rules _ (ro_sizes _ Hok)) as Hs.
  unfold U32_MAX in Hs. lia.
Qed.

Lemma get_all_spec pairs hays :
  (Z.of_nat (length pairs) < 2 ^ 32)%Z →
  ∃ ids, get_all dhash (di_build pairs) hays = Some ids ∧
    ∀ id, id ∈ ids ↔ ∃ h, h ∈ hays ∧ (dhash h, id) ∈ pairs.
Proof.
  intros Hp. induction hays as [|h hays (ids & E & IH)]; [exists []; split; [done|set_solver]|].
  destruct (di_get_spec pairs (dhash h) Hp) as (ids1 & E1 & H1). simpl. rewrite E1. simpl. rewrite E.
  simpl. eexists; split; [done|]. intros id. rewrite elem_of_app, H1, IH. set_solver.
Qed.

Lemma collect_domain_spec :
  ∃ out, collect_domain dhash e domain = Some out ∧ Forall candidate out ∧
    ∀ i br, brs !! i = Some br → rule_regex br = None →
      pattern_matches (pattern (rule br)) domain = true → Z.of_nat i ∈ out.
Proof.
  unfold collect_domain. rewrite (eo_exact _ _ _ He), (eo_sub _ _ _ He).
  assert (Hex : ∃ ids, (if di_is_empty (di_build (entries (exact_entry dhash) brs)) then Some []
      else di_get (di_build (entries (exact_entry dhash) brs)) (dhash domain)) = Some ids ∧
      ∀ id, id ∈ ids ↔ (dhash domain, id) ∈ entries (exact_entry dhash) brs).
  { destruct (di_is_empty _) eqn:E; [|apply di_get_spec, entries_small].
    pose proof (di_is_empty_spec _ (entries_small _) E) as En. exists []. rewrite En. split; [done|set_solver]. }
  assert (Hsb : ∃ ids, (if di_is_empty (di_build (entries (sub_entry dhash) brs)) then Some []
      else get_all dhash (di_build (entries (sub_entry dhash) brs)) (hay_loop (S (length domain)) domain)) = Some ids ∧
      ∀ id, id ∈ ids ↔ ∃ h, h ∈ domain :: after_dots domain ∧ (dhash h, id) ∈ entries (sub_entry dhash) brs).
  { destruct (di_is_empty (di_build (entries (sub_entry dhash) brs))) eqn:E.
    - pose proof (di_is_empty_spec _ (entries_small _) E) as En. exists []. rewrite En. split; [done|set_solver].
    - rewrite hay_loop_spec by lia. apply get_all_spec, entries_small. }
  destruct Hex as (x & -> & Hx), Hsb as (y & -> & Hy). simpl. eexists; split; [done|]. split.
  - apply Forall_forall. intros id [Hin|Hin]%elem_of_app.
    + apply Hx, entries_elem in Hin as (i & br & Hi & Hf). exists i, br. revert Hf.
      unfold exact_entry, rule_regex. destruct (pattern (rule br)); simpl; try done. by intros [= _ <-].
    + apply Hy in Hin as (h & _ & (i & br & Hi & Hf)%entries_elem). exists i, br. revert Hf.
      unfold sub_entry, rule_regex. destruct (pattern (rule br)); simpl; try done. by intros [= _ <-].
  - intros i br Hi. unfold rule_regex. rewrite elem_of_app, Hx, Hy, entries_elem.
    setoid_rewrite entries_elem.
    destruct (pattern (rule br)) as [d|d|re|re] eqn:Ep; simpl; try done; intros _ Hm.
    + right. exists d. split; [by apply is_subdomain_of_iff|]. exists i, br. unfold sub_entry. by rewrite Ep.
    + left. bool_to_prop. subst. exists i, br. unfold exact_entry. by rewrite Ep.
Qed.

(** *** The scan groups *)

Lemma hits_candidate o id :
  id ∈ (entries (scan_entry o) brs).*1 → id_hits (rules e) (regexes e) id domain → candidate id.
Proof.
  intros ([id' toks] & -> & Hin)%list_elem_of_fmap (re & Hre & Hm). simpl in *.
  apply entries_elem in Hin as (i & br & Hi & (re' & Hre' & _ & [= -> ->])%scan_entry_Some).
  exists i, br. split_and!; [done..|]. intros re'' Hre''.
  pose proof (rule_at_regex brs i br re'' (ro_wf _ Hok) Hi Hre'') as Hid.
  rewrite <- (eo_rules _ _ _ He), <- (eo_regexes _ _ _ He) in Hid.
  by rewrite (id_regex_inj _ _ _ _ _ Hid Hre).
Qed.

Lemma group_scannable o flag g id :
  group_ok (rules e) (regexes e) (entries (scan_entry o) brs) flag g →
  id ∈ fallback_individual g ∨ (∃ s, s ∈ fallback_sets g ∧ id ∈ s.2)
    ∨ (∃ t, id ∈ bucket (scan_index g) t) →
  scannable (rules e) (regexes e) id.
Proof.
  intros Hg Hin. apply (go_ids _ _ _ _ _ Hg) in Hin.
  pose proof (scan_entries_scannable brs o (ro_wf _ Hok)) as Hs.
  rewrite (eo_rules _ _ _ He), (eo_regexes _ _ _ He). rewrite Forall_forall in Hs. auto.
Qed.

Lemma scan_group_spec o flag g tokens :
  group_ok (rules e) (regexes e) (entries (scan_entry o) brs) flag g →
  ∃ out, scan_group e g domain tokens = Some out ∧ Forall candidate out ∧
    ∀ i br re, brs !! i = Some br → rule_regex br = Some re → override_rule br = o →
      regex_is_match re domain = true →
      (flag = true → scan_index g ≠ ∅ → ∀ t, t ∈ index_tokens br → t ∈ tokens) → Z.of_nat i ∈ out.
Proof.
  intros Hg. unfold scan_group.
  destruct (scan_sets_spec (rules e) (regexes e) (fallback_sets g) domain (go_sets _ _ _ _ _ Hg)) as (a & Ea & Ha).
  destruct (scan_ids_spec e domain (fallback_individual g)) as (b & Eb & Hb).
  { apply Forall_forall. intros id Hid. eapply group_scannable; [done|by left]. }
  destruct (scan_ids_spec e domain (mjoin ((λ t, default [] (scan_index g !! t)) <$> tokens)))
    as (c & Ec & Hc).
  { apply Forall_forall. intros id Hid. rewrite list_elem_of_join in Hid.
    destruct Hid as (l & Hid & (t & -> & _)%list_elem_of_fmap).
    eapply group_scannable; [done|]. right; right. by exists t. }
  rewrite Ea, Eb. simpl.
  assert (Hc' : ∃ c', (if bool_decide (scan_index g = ∅) then Some []
      else scan_ids e domain (mjoin ((λ t, default [] (scan_index g !! t)) <$> tokens))) = Some c' ∧
      (∀ id, id ∈ c' → (∃ t, id ∈ bucket (scan_index g) t) ∧ id_hits (rules e) (regexes e) id domain) ∧
      (∀ id t, scan_index g ≠ ∅ → t ∈ tokens → id ∈ bucket (scan_index g) t →
         id_hits (rules e) (regexes e) id domain → id ∈ c')).
  { case_bool_decide as Hn.
    - exists []. split_and!; [done|set_solver|done].
    - exists c. split_and!; [done| |].
      + intros id [Hid Hh]%Hc. split; [|done]. rewrite list_elem_of_join in Hid.
        destruct Hid as (l & Hid & (t & -> & _)%list_elem_of_fmap). by exists t.
      + intros id t _ Ht Hid Hh. apply Hc. split; [|done]. rewrite list_elem_of_join.
        eexists; split; [exact Hid|]. apply list_elem_of_fmap. by exists t. }
  destruct Hc' as (c' & -> & S1 & S2). simpl. eexists; split; [done|]. split.
  - apply Forall_forall. intros id Hin. rewrite !elem_of_app, Ha, Hb in Hin.
    destruct Hin as [[??]|[[??]|[? ?]%S1]]; (eapply hits_candidate; [|done]);
      apply (go_ids _ _ _ _ _ Hg); auto.
  - intros i br re Hi Hre Ho Hm Htok.
    assert (Hhit : id_hits (rules e) (regexes e) (Z.of_nat i) domain).
    { exists re. split; [|done]. rewrite (eo_rules _ _ _ He), (eo_regexes _ _ _ He).
      by apply rule_at_regex with br; [apply ro_wf| |]. }
    assert (Hin : (Z.of_nat i, index_tokens br) ∈ entries (scan_entry o) brs).
    { apply entries_elem. exists i, br. split; [done|]. unfold scan_entry. by rewrite Hre, bool_decide_true. }
    rewrite !elem_of_app, Ha, Hb.
    destruct (go_complete _ _ _ _ _ Hg _ _ Hin) as [?|[?|(Hf & t & Ht & Hb')]]; auto.
    right; right. assert (Hne : scan_index g ≠ ∅).
    { intros Hem. unfold bucket in Hb'. rewrite Hem, lookup_empty in Hb'. by apply elem_of_nil in Hb'. }
    by apply (S2 _ t); auto.
Qed.

Lemma block_rule_priority br : override_rule br = false → priority (rule br) = 1%Z.
Proof.
  unfold override_rule, priority. intros [Ha Hi]%orb_false_iff. rewrite Hi.
  bool_to_prop. by destruct (action (rule br)).
Qed.

Lemma sg_empty_no_rules g flag o i br re :
  group_ok (rules e) (regexes e) (entries (scan_entry o) brs) flag g → sg_is_empty g = true →
  brs !! i = Some br → rule_regex br = Some re → override_rule br = o → False.
Proof.
  intros Hg Hem Hi Hre Ho. unfold sg_is_empty in Hem. bool_to_prop.
  assert (Hin : (Z.of_nat i, index_tokens br) ∈ entries (scan_entry o) brs).
  { apply entries_elem. exists i, br. split; [done|]. unfold scan_entry. by rewrite Hre, bool_decide_true. }
  destruct (go_complete _ _ _ _ _ Hg _ _ Hin) as [Hx|[(s & Hx & _)|(_ & t & _ & Hx)]].
  - destruct (fallback_individual g); [by apply elem_of_nil in Hx|done].
  - destruct (fallback_sets g); [by apply elem_of_nil in Hx|done].
  - unfold bucket in Hx. rewrite H, lookup_empty in Hx. by apply elem_of_nil in Hx.
Qed.

(** The two-phase search finds an applying rule of the highest priority when there is one. *)
Lemma best_rule_spec :
  is_ascii domain = true →
  ∃ best, best_rule dhash e domain rtype cl = Some best ∧ best_ok best ∧
    ∀ i br, brs !! i = Some br → applies br = true → best_ge best (priority (rule br)).
Proof.
  intros Hasc. unfold best_rule.
  destruct collect_domain_spec as (c1 & -> & K1 & D1). cbn [mbind option_bind].
  destruct (scan_group_spec true false (override_scan e) [] (eo_override _ _ _ He)) as (c2 & -> & K2 & D2).
  cbn [mbind option_bind].
  destruct (consider_spec (c1 ++ c2) None) as (best1 & -> & B1 & _ & G1); [by apply Forall_app|done|].
  cbn [mbind option_bind].
  assert (Hcov : ∀ i br, brs !! i = Some br → applies br = true →
    (best_ge best1 (priority (rule br))) ∨ (override_rule br = false ∧ ∃ re, rule_regex br = Some re ∧
       regex_is_match re domain = true)).
  { intros i br Hi Ha. pose proof Ha as Hp. unfold rule_applies in Hp. apply andb_true_iff in Hp as [Hp _].
    destruct (rule_regex br) as [re|] eqn:Ere.
    - assert (Hm : regex_is_match re domain = true).
      { revert Hp Ere. unfold rule_regex, pattern_matches.
        destruct (pattern (rule br)); simpl; try done; by intros ? [= <-]. }
      destruct (override_rule br) eqn:Eo; [|by right; eauto].
      left. apply (G1 i); [|done..]. apply elem_of_app. right. by apply (D2 i br re).
    - left. apply (G1 i); [|done..]. apply elem_of_app. left. by apply (D1 i br). }
  destruct (negb (is_some best1) && negb (sg_is_empty (block_scan e))) eqn:Ec.
  - bool_to_prop. destruct best1; [done|].
    match goal with |- context [scan_group _ _ _ ?t] => set (tokens := t) end.
    destruct (scan_group_spec false true (block_scan e) tokens (eo_block _ _ _ He)) as (c3 & -> & K3 & D3).
    cbn [mbind option_bind].
    destruct (consider_spec c3 None K3) as (best2 & -> & B2 & _ & G2); [done|].
    exists best2. split_and!; [done..|]. intros i br Hi Ha.
    destruct (Hcov i br Hi Ha) as [(? & ? & ? & _)|(Ho & re & Hre & Hm)]; [done|].
    apply (G2 i); [|done..]. apply (D3 i br re); [done..|]. intros _ Hne t Ht. unfold tokens.
    rewrite bool_decide_false by done.
    pose proof (ro_wf _ Hok) as Hwf. rewrite Forall_lookup in Hwf.
    by apply (wf_tokens _ (Hwf i br Hi) re).
  - exists best1. split_and!; [done..|]. intros i br Hi Ha.
    destruct (Hcov i br Hi Ha) as [?|(Ho & re & Hre & Hm)]; [done|].
    rewrite block_rule_priority by done.
    apply andb_false_iff in Ec as [Ec|Ec]; bool_to_prop.
    + destruct best1 as [[id p]|]; [|done]. exists id, p. split; [done|].
      destruct (B1 id p eq_refl) as (j & brj & _ & _ & _ & ->). apply priority_pos.
    + exfalso. by eapply (sg_empty_no_rules _ _ _ _ _ _ (eo_block _ _ _ He)).
Qed.

Lemma verdict_of_wf i br : brs !! i = Some br → is_Some (verdict_of i (rule br)).
Proof.
  intros Hi. unfold verdict_of. destruct (action (rule br)) eqn:E; [by eexists..|].
  pose proof (ro_wf _ Hok) as Hwf. rewrite Forall_lookup in Hwf.
  destruct (wf_rewrite _ (Hwf i br Hi) E) as [d ->]. by eexists.
Qed.

(** The tail of [check] on the winning rule. *)
Lemma verdict_at i br :
  brs !! i = Some br →
  (let! r := rules e !! i in
   let! txt := raw_of e r in
   let info := {| mi_rule := txt; mi_list_id := rec_list_id r; mi_rule_id := Z.of_nat i |} in
   match rec_action r with
   | Allow => Some (VAllow (Some info))
   | Block => Some (VBlock info)
   | Rewrite => let! m := mods_of e r in let! data := m ≫= rewrite in Some (VRewrite info data)
   end) = verdict_of i (rule br).
Proof.
  intros Hi. rewrite (record_at _ _ _ He i br Hi). cbn [mbind option_bind].
  rewrite (raw_of_at _ _ _ Hok He i br Hi). cbn [mbind option_bind].
  unfold verdict_of. cbn [rec_action rec_list_id record_of].
  destruct (action (rule br)); [done..|].
  rewrite (mods_of_at _ _ _ Hok He i br Hi). cbn [mbind option_bind]. unfold rule_rewrite.
  by destruct (mods (rule br) ≫= rewrite).
Qed.

End check.

Lemma is_ascii_normalize domain : is_ascii domain = true → is_ascii (normalize_query domain) = true.
Proof.
  intros H. unfold normalize_query. destruct (_ || _); [|done].
  assert (Ht : is_ascii (trim_end_matches dot domain) = true)
    by (eapply is_ascii_subset; [|exact H]; intros b; apply trim_end_matches_subset).
  revert Ht. unfold is_ascii, to_ascii_lowercase. rewrite !forallb_Forall, Forall_fmap.
  intros Hf. eapply Forall_impl; [exact Hf|]. intros b. simpl. by destruct b as [[] [] [] [] [] [] [] []].
Qed.

Section engines.
Context {US : UnstableSort} (dhash : bytes → Z) (chash : list (bytes * Z * Action) → Z).

Lemma check_spec `{!RegexLaws RX} brs e domain rtype cl :
  rules_ok brs → engine_of dhash brs e → is_ascii domain = true →
  ∃ v, check dhash e domain rtype cl = Some v ∧ spec_verdict brs (normalize_query domain) rtype cl v.
Proof.
  intros Hok He Hasc%is_ascii_normalize. unfold check, spec_verdict.
  destruct (best_rule_spec dhash brs e Hok He (normalize_query domain) rtype cl Hasc) as (best & -> & B & G).
  cbn [mbind option_bind]. destruct best as [[id p]|].
  - destruct (B id p eq_refl) as (i & br & -> & Hi & Ha & ->).
    destruct (verdict_of_wf brs Hok i br Hi) as [v Hv]. rewrite Nat2Z.id.
    exists v. split; [rewrite <- Hv; exact (verdict_at dhash brs e Hok He i br Hi)|]. right.
    exists i, br. split; [|done]. split_and!; [done..|]. intros br' [j Hj]%list_elem_of_lookup Ha'.
    destruct (G j br' Hj Ha') as (id & p & [= <- <-] & ?). done.
  - eexists; split; [done|]. left. split; [done|]. intros br [i Hi]%list_elem_of_lookup.
    apply not_true_iff_false. intros Ha. by destruct (G i br Hi Ha) as (? & ? & ? & _).
Qed.

(** ** Client independence *)

Definition no_client (m : RuleMods) : Prop := client m = None ∧ ctag m = None.

Lemma all_mods_no_client brs : existsb client_dependent brs = false → Forall no_client (all_mods brs).
Proof.
  induction brs as [|br brs IH]; csimpl; [constructor|]. intros [Hd Hr]%orb_false_iff.
  unfold client_dependent in Hd. destruct (mods (rule br)) as [m|] eqn:Em; [|by apply IH].
  constructor; [|by apply IH]. unfold no_client. by destruct (client m), (ctag m).
Qed.

Lemma mods_applicable_no_client m act domain rtype cl1 cl2 :
  (∀ m', m = Some m' → no_client m') →
  mods_applicable m act domain rtype cl1 = mods_applicable m act domain rtype cl2.
Proof.
  destruct m as [m|]; [|done]. intros H. destruct (H m eq_refl) as [H1 H2]. simpl. by rewrite H1, H2.
Qed.

Lemma applicable_no_client (e : FilterEngine) r domain rtype cl1 cl2 :
  Forall no_client (fe_mods e) → applicable e r domain rtype cl1 = applicable e r domain rtype cl2.
Proof.
  intros Hn. unfold applicable, mods_of. destruct (_ =? _)%Z; [done|].
  destruct (fe_mods e !! _) as [m|] eqn:Em; [|done]. cbn [mbind option_bind]. f_equal.
  apply mods_applicable_no_client. intros m' [= <-]. rewrite Forall_lookup in Hn. eauto.
Qed.

Lemma consider_no_client (e : FilterEngine) ids domain rtype cl1 cl2 best :
  Forall no_client (fe_mods e) →
  consider e ids domain rtype cl1 best = consider e ids domain rtype cl2 best.
Proof.
  intros Hn. revert best. induction ids as [|id ids IH]; intros best; [done|]. cbn [consider].
  destruct (rules e !! _) as [r|]; [|done]. cbn [mbind option_bind].
  destruct (domain_matches e r domain) as [dm|]; [|done]. cbn [mbind option_bind].
  rewrite (applicable_no_client e r domain rtype cl1 cl2 Hn).
  destruct (if dm then _ else _) as [[]|]; [|apply IH|done]. cbn [mbind option_bind].
  destruct (rec_priority e r); [|done]. apply IH.
Qed.

Lemma best_rule_no_client (e : FilterEngine) domain rtype cl1 cl2 :
  Forall no_client (fe_mods e) →
  best_rule dhash e domain rtype cl1 = best_rule dhash e domain rtype cl2.
Proof.
  intros Hn. unfold best_rule. destruct (collect_domain dhash e domain) as [c1|]; [|done].
  cbn [mbind option_bind]. destruct (scan_group e (override_scan e) domain []) as [c2|]; [|done].
  cbn [mbind option_bind]. rewrite (consider_no_client e _ domain rtype cl1 cl2 _ Hn).
  destruct (consider e (c1 ++ c2) domain rtype cl2 None) as [best|]; [|done]. cbn [mbind option_bind].
  destruct (negb _ && _); [|done]. destruct (scan_group e (block_scan e) _ _) as [c3|]; [|done].
  by apply consider_no_client.
Qed.

Lemma check_no_client brs e domain rtype cl1 cl2 :
  sizes_ok brs → from_rules dhash chash brs = Some e → has_client_dependent_rules e = false →
  check dhash e domain rtype cl1 = check dhash e domain rtype cl2.
Proof.
  intros Hsz He Hdep. unfold check. rewrite (best_rule_no_client e _ rtype cl1 cl2); [done|].
  unfold from_rules in He. destruct (foldl_built dhash brs Hsz).
  inv_some. simpl in *. rewrite bf_mods. apply all_mods_no_client. by rewrite <- bf_dep.
Qed.

End engines.
End spec.

(** ** A concrete rule list *)

Definition demo_lines : list bytes :=
  [bs "||ads.com^"; bs "@@||good.ads.com^"; bs "0.0.0.0 tracker.net";
   bs "||*track*.net^"; bs "-banner-*.org^$important"; bs "||new.io^$dnsrewrite=1.2.3.4,client=bob"].
Definition demo_rules : list BuildRule :=
  mjoin ((λ l, match parse_line l with Ok (PRules rs) => rs | _ => [] end) <$> demo_lines).

Lemma demo_rules_ok : rules_ok demo_rules.
Proof.
  apply rules_ok_intro; [by vm_compute..|].
  apply Forall_join, Forall_fmap, Forall_forall. intros l Hl. simpl.
  destruct (parse_line l) as [[rs| |]|] eqn:E; try constructor.
  apply (parse_line_rules_wf l); [|done]. clear rs E. revert l Hl. apply Forall_forall, forallb_Forall.
  by vm_compute.
Qed.

Definition no_client_info : ClientInfo := {| ci_ip := None; ci_name := None; ci_tags := [] |}.
Definition demo_hash (s : bytes) : Z := fast_hash s mod 5.

(** ** The engine's contract *)

(** C1: for every rule list within the engine's size limits whose rules are well-formed
    (as [parse_line] produces them), [from_rules] succeeds, and for every ASCII query name
    [check] terminates without a panic with the verdict of a rule that applies to the
    normalised query and has the highest priority among all applying rules, or with a
    plain allow exactly when no rule applies -- whatever the hash functions, collisions
    included. *)
Theorem check_correct {RX : RegexLib} {NL : IpNetLib} {US : UnstableSort} {RL : RegexLaws RX}
    (dhash : bytes → Z) (chash : list (bytes * Z * Action) → Z) (brs : list BuildRule) :
  rules_ok brs →
  ∃ e, from_rules dhash chash brs = Some e ∧
    ∀ domain rtype cl, is_ascii domain = true →
      ∃ v, check dhash e domain rtype cl = Some v ∧
           spec_verdict brs (normalize_query domain) rtype cl v.
Proof.
  intros Hok. destruct (from_rules_engine dhash chash brs Hok) as (e & He & Heng).
  exists e. split; [done|]. intros. by apply check_spec.
Qed.

Lemma check_correct_witness :
  rules_ok demo_rules ∧
  ∃ e, from_rules demo_hash (λ _, 0%Z) demo_rules = Some e ∧
    ∀ domain rtype cl, is_ascii domain = true →
      ∃ v, check demo_hash e domain rtype cl = Some v ∧
           spec_verdict demo_rules (normalize_query domain) rtype cl v.
Proof.
  split; [exact demo_rules_ok|]. exact (check_correct demo_hash (λ _, 0%Z) demo_rules demo_rules_ok).
Defined.

Example demo_checks :
  (λ q, let! e := from_rules demo_hash (λ _, 0%Z) demo_rules in
        let! v := check demo_hash e (bs q) (bs "A") no_client_info in
        Some match v with VAllow None => 0 | VAllow _ => 1 | VBlock i => 2 | VRewrite _ _ => 3 end)
  <$> ["x.ads.com"; "A.Good.ads.com."; "tracker.net"; "my-track-er.net"; "www.tracker.net.eu";
       "a-banner-1.org"; "new.io"]
  = [Some 2; Some 1; Some 2; Some 2; Some 0; Some 2; Some 0].
Proof. vm_compute. reflexivity. Qed.

(** When the engine reports that no verdict depends on the client, the verdict of
    every query is the same for every client (the condition under which the server caches
    verdicts per name and type only). *)
Theorem check_client_independent {RX : RegexLib} {NL : IpNetLib} {US : UnstableSort}
    (dhash : bytes → Z) (chash : list (bytes * Z * Action) → Z) (brs : list BuildRule)
    (e : FilterEngine) (domain rtype : bytes) (cl1 cl2 : ClientInfo) :
  sizes_ok brs → from_rules dhash chash brs = Some e → has_client_dependent_rules e = false →
  check dhash e domain rtype cl1 = check dhash e domain rtype cl2.
Proof. apply check_no_client. Qed.

Definition demo_rules2 : list BuildRule := take 5 demo_rules.
Definition demo_engine2 : option FilterEngine := from_rules demo_hash (λ _, 0%Z) demo_rules2.
Definition bob : ClientInfo := {| ci_ip := None; ci_name := Some (bs "bob"); ci_tags := [] |}.

Lemma check_client_independent_witness :
  ∃ e, demo_engine2 = Some e ∧
    check demo_hash e (bs "x.ads.com") (bs "A") no_client_info
    = check demo_hash e (bs "x.ads.com") (bs "A") bob.
Proof.
  assert (Hdep : has_client_dependent_rules <$> demo_engine2 = Some false) by (vm_compute; reflexivity).
  destruct demo_engine2 as [e|] eqn:He; [|discriminate Hdep]. injection Hdep as Hdep.
  exists e. split; [reflexivity|].
  refine (check_client_independent demo_hash (λ _, 0%Z) demo_rules2 e _ _ _ _ _ He Hdep).
  apply (lim_sizes demo_rules2), fits_engine_ok. vm_compute. reflexivity.
Defined.
