(* ===== verification/Compiler.v ===== *)
(** * bulwark-filter: list compilation ([crates/bulwark-filter/src/list.rs]).

    [Compiler::add_list] parses lists line by line, [Compiler::build] applies
    [$badfilter], deduplicates by signature, prunes subsumed blocks and compiles the engine. *)
From Stdlib Require Import Ascii.
From S2P Require Import Prelude RustStr RustNet Rule Token Glob Parser ParserProps FilterEngine FilterEngineProps Instances FilterSpec.

(** [ListStats]. *)
Record ListStats : Type := {
  ls_list_id : Z;
  ls_name : bytes;
  ls_rules : nat;
  ls_unsupported : nat;
  ls_errors : nat;
}.

Section compiler.
Context {RX : RegexLib} {NL : IpNetLib}.
Implicit Types (br : BuildRule) (brs : list BuildRule).

Record Compiler : Type := {
  c_rules : list BuildRule;
  badfilter_sigs : gset bytes;
  c_stats : list ListStats;
}.
(** [Compiler::new]. *)
Definition compiler_new : Compiler := {| c_rules := []; badfilter_sigs := ∅; c_stats := [] |}.

Definition set_list_id (id : Z) br : BuildRule :=
  {| rule := {| rule_id := rule_id (rule br); raw := raw (rule br); action := action (rule br);
                pattern := pattern (rule br); mods := mods (rule br); list_id := id |};
     badfilter := badfilter br; signature := signature br; index_tokens := index_tokens br |}.

(** The loops of [add_list], over the rules of a line and over the lines. *)
Definition push_rule (list_id : Z) (acc : Compiler * ListStats) br : Compiler * ListStats :=
  let '(c, st) := acc in
  let br := set_list_id list_id br in
  if badfilter br then
    ({| c_rules := c_rules c; badfilter_sigs := {[ signature br ]} ∪ badfilter_sigs c;
        c_stats := c_stats c |}, st)
  else
    ({| c_rules := c_rules c ++ [br]; badfilter_sigs := badfilter_sigs c; c_stats := c_stats c |},
     {| ls_list_id := ls_list_id st; ls_name := ls_name st; ls_rules := S (ls_rules st);
        ls_unsupported := ls_unsupported st; ls_errors := ls_errors st |}).
Definition add_line (list_id : Z) (acc : Compiler * ListStats) (line : bytes) : Compiler * ListStats :=
  match parse_line line with
  | Ok (PRules rs) => foldl (push_rule list_id) acc rs
  | Ok PIgnored => acc
  | Ok (PUnsupported _) =>
      let '(c, st) := acc in
      (c, {| ls_list_id := ls_list_id st; ls_name := ls_name st; ls_rules := ls_rules st;
             ls_unsupported := S (ls_unsupported st); ls_errors := ls_errors st |})
  | Err _ =>
      let '(c, st) := acc in
      (c, {| ls_list_id := ls_list_id st; ls_name := ls_name st; ls_rules := ls_rules st;
             ls_unsupported := ls_unsupported st; ls_errors := S (ls_errors st) |})
  end.
Definition add_list (c : Compiler) (list_id : Z) (name text : bytes) : Compiler * ListStats :=
  let st := {| ls_list_id := list_id; ls_name := name; ls_rules := 0; ls_unsupported := 0;
               ls_errors := 0 |} in
  let '(c, st) := foldl (add_line list_id) (c, st) (lines text) in
  ({| c_rules := c_rules c; badfilter_sigs := badfilter_sigs c; c_stats := c_stats c ++ [st] |}, st).

(** [is_redundant] and [prune_redundant]. *)
Fixpoint ancestor_loop (fuel : nat) (subsumers : gset bytes) (rest : bytes) : bool :=
  match fuel with
  | 0 => false
  | S fuel =>
      match find_byte dot rest with
      | Some idx =>
          let rest := drop (S idx) rest in
          if bool_decide (rest ∈ subsumers) then true else ancestor_loop fuel subsumers rest
      | None => false
      end
  end.
Definition is_redundant br (subsumers : gset bytes) : bool :=
  if negb (bool_decide (action (rule br) = Block)) || is_some (mods (rule br)) then false
  else match pattern (rule br) with
       | Subdomain d => ancestor_loop (S (length d)) subsumers d
       | Exact d => if bool_decide (d ∈ subsumers) then true
                    else ancestor_loop (S (length d)) subsumers d
       | _ => false
       end.
Definition subsumer_of br : option bytes :=
  if bool_decide (action (rule br) = Block) && is_none (mods (rule br)) then
    match pattern (rule br) with Subdomain d => Some d | _ => None end
  else None.
Definition prune_redundant (active : list BuildRule) : list BuildRule :=
  let subsumers : gset bytes := list_to_set (omap subsumer_of active) in
  if bool_decide (subsumers = ∅) then active
  else filter (λ br, is_redundant br subsumers = false) active.

(** The two filters of [build]: not disabled, and first of its signature. *)
Fixpoint dedup_sigs (seen : gset bytes) brs : list BuildRule :=
  match brs with
  | [] => []
  | br :: brs =>
      if bool_decide (signature br ∈ seen) then dedup_sigs seen brs
      else br :: dedup_sigs ({[ signature br ]} ∪ seen) brs
  end.
Definition active_rules (c : Compiler) : list BuildRule :=
  dedup_sigs ∅ (filter (λ br, signature br ∉ badfilter_sigs c) (c_rules c)).
(** [Compiler::build] and [compile_one]. *)
Definition build {US : UnstableSort} (dhash : bytes → Z) (chash : list (bytes * Z * Action) → Z)
    (c : Compiler) : option (FilterEngine * list ListStats) :=
  let! e := from_rules dhash chash (prune_redundant (active_rules c)) in
  Some (e, c_stats c).
Definition compile_one {US : UnstableSort} (dhash : bytes → Z)
    (chash : list (bytes * Z * Action) → Z) (text : bytes) : option FilterEngine :=
  fst <$> build dhash chash (add_list compiler_new 0 (bs "inline") text).1.

(** ** Deduplication and [$badfilter] *)

Lemma dedup_sigs_elem seen brs br :
  br ∈ dedup_sigs seen brs → br ∈ brs ∧ signature br ∉ seen.
Proof.
  revert seen. induction brs as [|b brs IH]; intros seen; simpl; [by intros ?%elem_of_nil|].
  case_bool_decide as Hs.
  - intros [? ?]%IH. split; [by right|done].
  - rewrite !elem_of_cons. intros [->|[? ?]%IH]; [by split; [left|]|]. split; [by right|set_solver].
Qed.

Lemma dedup_sigs_nodup seen brs : NoDup (signature <$> dedup_sigs seen brs).
Proof.
  revert seen. induction brs as [|b brs IH]; intros seen; simpl; [constructor|].
  case_bool_decide; [apply IH|]. csimpl. constructor; [|apply IH].
  intros (br & E & [_ Hn]%dedup_sigs_elem)%list_elem_of_fmap. set_solver.
Qed.

(** The first rule of every signature that is not yet seen survives. *)
Lemma dedup_sigs_complete seen brs i br :
  brs !! i = Some br → signature br ∉ seen →
  (∀ j br', j < i → brs !! j = Some br' → signature br' ≠ signature br) →
  br ∈ dedup_sigs seen brs.
Proof.
  revert seen i. induction brs as [|b brs IH]; intros seen i; [done|]. destruct i as [|i]; simpl.
  - intros [= ->] Hn _. rewrite bool_decide_false by done. by left.
  - intros Hi Hn Hfirst.
    assert (Hb : signature b ≠ signature br) by (apply (Hfirst 0 b); [lia|done]).
    case_bool_decide; [|right]; (eapply IH; [exact Hi|set_solver|]);
      intros j br' Hj Hbr'; apply (Hfirst (S j)); [lia|done|lia|done].
Qed.

(** ** Pruning *)

Lemma ancestor_loop_spec fuel subs d :
  length d < fuel → ancestor_loop fuel subs d = true ↔ ∃ p, p ∈ after_dots d ∧ p ∈ subs.
Proof.
  revert d. induction fuel as [|fuel IH]; intros d Hf; [lia|]. simpl. rewrite (after_dots_find d).
  destruct (find_byte dot d) as [i|] eqn:E; [|set_solver].
  apply find_byte_lt in E. case_bool_decide; [set_solver|].
  rewrite IH by (rewrite length_drop; lia). set_solver.
Qed.

(** A plain block whose pattern is a domain, and the domains that cover it. *)
Definition plain_block br : Prop := action (rule br) = Block ∧ mods (rule br) = None.
Definition covering_domains br : list bytes :=
  match pattern (rule br) with
  | Subdomain d => after_dots d
  | Exact d => d :: after_dots d
  | _ => []
  end.

Lemma is_redundant_iff br subs :
  is_redundant br subs = true ↔ plain_block br ∧ ∃ p, p ∈ covering_domains br ∧ p ∈ subs.
Proof.
  unfold is_redundant, plain_block, covering_domains.
  destruct (mods (rule br)) as [m|]; cbn [is_some]; [rewrite orb_true_r; naive_solver|].
  rewrite orb_false_r. case_bool_decide as Ha; cbn [negb]; [|naive_solver].
  destruct (pattern (rule br)) as [d|d|re|re]; [| |set_solver..].
  - rewrite ancestor_loop_spec by lia. naive_solver.
  - case_bool_decide; [set_solver|]. rewrite ancestor_loop_spec by lia. set_solver.
Qed.

Lemma subsumer_of_iff br d :
  subsumer_of br = Some d ↔ plain_block br ∧ pattern (rule br) = Subdomain d.
Proof.
  unfold subsumer_of, plain_block. case_bool_decide as Ha; simpl; [|naive_solver].
  destruct (mods (rule br)); simpl; [naive_solver|].
  destruct (pattern (rule br)); naive_solver.
Qed.

Lemma after_dots_trans d p q : p ∈ after_dots d → q ∈ after_dots p → q ∈ after_dots d.
Proof.
  rewrite !after_dots_iff. intros [a ->] [b ->]. exists (a ++ dot :: b). by rewrite <- app_assoc.
Qed.

Lemma after_dots_length d p : p ∈ after_dots d → length p < length d.
Proof. rewrite after_dots_iff. intros [a ->]. rewrite length_app. simpl. lia. Qed.

(** Every subsumer has a subsumer above it (or itself) that is kept. *)
Lemma kept_subsumer active d :
  d ∈ omap subsumer_of active →
  ∃ br p, br ∈ prune_redundant active ∧ subsumer_of br = Some p ∧ p ∈ d :: after_dots d.
Proof.
  remember (length d) as n eqn:En. revert d En. induction n as [n IH] using lt_wf_ind. intros d -> Hd.
  pose proof Hd as (br & Hbr & Hs)%list_elem_of_omap. unfold prune_redundant in *.
  rewrite bool_decide_false in * by set_solver.
  destruct (is_redundant br (list_to_set (omap subsumer_of active))) eqn:Er.
  - apply is_redundant_iff in Er as [_ (p & Hp & Hin)]. apply elem_of_list_to_set in Hin.
    apply subsumer_of_iff in Hs as [_ Hpat]. unfold covering_domains in Hp. rewrite Hpat in Hp.
    destruct (IH (length p) (after_dots_length _ _ Hp) p eq_refl Hin) as (br' & q & ? & ? & Hq).
    exists br', q. split_and!; [done..|]. right. apply elem_of_cons in Hq as [->|Hq]; [done|].
    by eapply after_dots_trans.
  - exists br, d. split_and!; [|done|by left]. by apply list_elem_of_filter.
Qed.

Lemma prune_subset active br : br ∈ prune_redundant active → br ∈ active.
Proof.
  unfold prune_redundant. case_bool_decide; [done|]. by intros [? ?]%list_elem_of_filter.
Qed.

(** A covering subdomain block matches whatever the covered rule matches. *)
Lemma covering_matches br p domain :
  p ∈ covering_domains br → pattern_matches (pattern (rule br)) domain = true →
  is_subdomain_of domain p = true.
Proof.
  unfold covering_domains, pattern_matches. rewrite is_subdomain_of_iff.
  destruct (pattern (rule br)) as [d|d|re|re]; [| |by intros ?%elem_of_nil..].
  - rewrite is_subdomain_of_iff, !elem_of_cons. intros Hp [->|Hd]; [by right|].
    right. by eapply after_dots_trans.
  - intros Hp ->%bool_decide_eq_true. done.
Qed.

Lemma is_subdomain_trans domain p q :
  is_subdomain_of domain p = true → q ∈ p :: after_dots p → is_subdomain_of domain q = true.
Proof.
  rewrite !is_subdomain_of_iff, !elem_of_cons. intros [->|Hp] [->|Hq]; auto.
  right. by eapply after_dots_trans.
Qed.

Lemma plain_block_priority br : plain_block br → priority (rule br) = 1%Z.
Proof. intros [Ha Hm]. unfold priority. by rewrite Ha, Hm. Qed.

(** Every applying rule keeps a stand-in of the same priority. *)
Lemma prune_stand_in active br domain rtype cl :
  br ∈ active → rule_applies (rule br) domain rtype cl = true →
  ∃ br', br' ∈ prune_redundant active ∧ rule_applies (rule br') domain rtype cl = true ∧
    priority (rule br') = priority (rule br) ∧ (br' = br ∨ plain_block br ∧ plain_block br').
Proof.
  intros Hin Ha. destruct (is_redundant br (list_to_set (omap subsumer_of active))) eqn:Er.
  - apply is_redundant_iff in Er as [Hb (p & Hp & Hps)]. apply elem_of_list_to_set in Hps.
    destruct (kept_subsumer active p Hps) as (br' & q & Hk & Hs & Hq).
    apply subsumer_of_iff in Hs as [Hb' Hpat]. exists br'. split_and!; [done| | |by right].
    + unfold rule_applies in *. apply andb_true_iff in Ha as [Hm _]. destruct Hb' as [_ ->]. simpl.
      rewrite andb_true_r, Hpat. simpl. eapply is_subdomain_trans; [|exact Hq].
      by eapply covering_matches.
    + by rewrite !plain_block_priority.
  - exists br. split_and!; [|done|done|by left]. unfold prune_redundant. case_bool_decide; [done|].
    by apply list_elem_of_filter.
Qed.

End compiler.

(** ** Adding lists *)

Section lists.
Context {RX : RegexLib} {NL : IpNetLib}.
Implicit Types (br : BuildRule) (brs : list BuildRule).

Definition line_rules (line : bytes) : list BuildRule :=
  match parse_line line with Ok (PRules rs) => rs | _ => [] end.
(** All rules of a list, [$badfilter] ones included, tagged with the list. *)
Definition text_rules (list_id : Z) (text : bytes) : list BuildRule :=
  set_list_id list_id <$> mjoin (line_rules <$> lines text).
(** The lists of a configuration: id, name and text. *)
Definition add_lists (c : Compiler) (ls : list (Z * bytes * bytes)) : Compiler :=
  foldl (λ c '(id, name, text), (add_list c id name text).1) c ls.
Definition lists_rules (ls : list (Z * bytes * bytes)) : list BuildRule :=
  mjoin ((λ '(id, _, text), text_rules id text) <$> ls).

Definition kept brs : list BuildRule := filter (λ br, badfilter br = false) brs.
Definition disabled brs : gset bytes := list_to_set (signature <$> filter (λ br, badfilter br = true) brs).

Lemma kept_app l k : kept (l ++ k) = kept l ++ kept k.
Proof. apply filter_app. Qed.
Lemma disabled_app l k : disabled (l ++ k) = disabled l ∪ disabled k.
Proof. unfold disabled. by rewrite filter_app, fmap_app, list_to_set_app_L. Qed.

(** What the loops add to the accumulators: [c'] extends [c] by the rules [brs]. *)
Definition extends (c : Compiler) brs (c' : Compiler) : Prop :=
  c_rules c' = c_rules c ++ kept brs ∧ badfilter_sigs c' = badfilter_sigs c ∪ disabled brs ∧
  c_stats c' = c_stats c.

Lemma extends_nil c : extends c [] c.
Proof. unfold extends, kept, disabled. simpl. split_and!; [by rewrite app_nil_r|set_solver|done]. Qed.

Lemma extends_trans c1 l c2 k c3 : extends c1 l c2 → extends c2 k c3 → extends c1 (l ++ k) c3.
Proof.
  intros (E1 & E2 & E3) (F1 & F2 & F3). unfold extends. rewrite kept_app, disabled_app.
  split_and!; [by rewrite F1, E1, app_assoc|by rewrite F2, E2, (assoc_L (∪))|congruence].
Qed.

Lemma push_rule_spec id c st br :
  extends c [set_list_id id br] (push_rule id (c, st) br).1 ∧
  ls_rules (push_rule id (c, st) br).2 = ls_rules st + length (kept [set_list_id id br]).
Proof.
  unfold push_rule, extends, kept, disabled. simpl. rewrite !filter_cons, !filter_nil. simpl.
  destruct (badfilter br); simpl; (split; [|lia]); split_and!; rewrite ?app_nil_r; set_solver.
Qed.

Lemma push_rules_spec id rs c st :
  extends c (set_list_id id <$> rs) (foldl (push_rule id) (c, st) rs).1 ∧
  ls_rules (foldl (push_rule id) (c, st) rs).2 = ls_rules st + length (kept (set_list_id id <$> rs)).
Proof.
  revert c st. induction rs as [|br rs IH]; intros c st; [split; [apply extends_nil|simpl; lia]|].
  rewrite fmap_cons. cbn [foldl]. destruct (push_rule_spec id c st br) as [H1 H2].
  destruct (push_rule id (c, st) br) as [c1 st1]. simpl in H1, H2.
  destruct (IH c1 st1) as [H3 H4]. split.
  - exact (extends_trans _ _ _ _ _ H1 H3).
  - rewrite H4, H2. change (set_list_id id br :: (set_list_id id <$> rs))
      with ([set_list_id id br] ++ (set_list_id id <$> rs)). rewrite kept_app, length_app. lia.
Qed.

Lemma add_line_spec id line c st :
  extends c (set_list_id id <$> line_rules line) (add_line id (c, st) line).1 ∧
  ls_rules (add_line id (c, st) line).2
  = ls_rules st + length (kept (set_list_id id <$> line_rules line)).
Proof.
  unfold add_line, line_rules. destruct (parse_line line) as [[rs| |]|].
  - apply push_rules_spec.
  - split; [apply extends_nil|simpl; lia].
  - split; [apply extends_nil|simpl; lia].
  - split; [apply extends_nil|simpl; lia].
Qed.

Lemma add_lines_spec id ls c st :
  extends c (set_list_id id <$> mjoin (line_rules <$> ls)) (foldl (add_line id) (c, st) ls).1 ∧
  ls_rules (foldl (add_line id) (c, st) ls).2
  = ls_rules st + length (kept (set_list_id id <$> mjoin (line_rules <$> ls))).
Proof.
  revert c st. induction ls as [|l ls IH]; intros c st; [split; [apply extends_nil|simpl; lia]|].
  rewrite fmap_cons. change (mjoin (?x :: ?k)) with (x ++ mjoin k). rewrite fmap_app.
  cbn [foldl]. destruct (add_line_spec id l c st) as [H1 H2].
  destruct (add_line id (c, st) l) as [c1 st1]. simpl in H1, H2.
  destruct (IH c1 st1) as [H3 H4]. split; [by eapply extends_trans|].
  rewrite H4, H2, kept_app, length_app. lia.
Qed.

Lemma add_list_spec c id name text :
  c_rules (add_list c id name text).1 = c_rules c ++ kept (text_rules id text) ∧
  badfilter_sigs (add_list c id name text).1 = badfilter_sigs c ∪ disabled (text_rules id text) ∧
  ls_rules (add_list c id name text).2 = length (kept (text_rules id text)).
Proof.
  unfold add_list, text_rules.
  match goal with |- context [foldl (add_line id) (c, ?st) _] =>
    destruct (add_lines_spec id (lines text) c st) as [(E1 & E2 & _) E3];
    destruct (foldl (add_line id) (c, st) (lines text)) as [c' st'] end.
  simpl in *. done.
Qed.

Lemma add_lists_spec ls c :
  c_rules (add_lists c ls) = c_rules c ++ kept (lists_rules ls) ∧
  badfilter_sigs (add_lists c ls) = badfilter_sigs c ∪ disabled (lists_rules ls).
Proof.
  revert c. induction ls as [|[[id name] text] ls IH]; intros c.
  - split; [by rewrite app_nil_r|]. change (disabled (lists_rules [])) with (∅ : gset bytes). set_solver.
  - simpl. destruct (IH (add_list c id name text).1) as [E1 E2].
    destruct (add_list_spec c id name text) as (F1 & F2 & _).
    change (lists_rules ((id, name, text) :: ls)) with (text_rules id text ++ lists_rules ls).
    rewrite kept_app, disabled_app. split; [by rewrite E1, F1, app_assoc|rewrite E2, F2; set_solver].
Qed.

End lists.

(** ** Signatures *)

Lemma bytes_leb_total s t : bytes_leb s t = true ∨ bytes_leb t s = true.
Proof.
  revert t. induction s as [|a s IH]; intros [|b t]; simpl; auto.
  destruct (Z.ltb_spec (u8 a) (u8 b)); [auto|]. destruct (Z.ltb_spec (u8 b) (u8 a)); [auto|].
  rewrite !(proj2 (Z.eqb_eq _ _)) by lia. auto.
Qed.
Lemma bytes_leb_antisym s t : bytes_leb s t = true → bytes_leb t s = true → s = t.
Proof.
  revert t. induction s as [|a s IH]; intros [|b t]; simpl; auto; [done..|].
  destruct (Z.ltb_spec (u8 a) (u8 b)), (Z.ltb_spec (u8 b) (u8 a)); try lia; try done.
  - by rewrite (proj2 (Z.eqb_neq _ _)) by lia.
  - by rewrite (proj2 (Z.eqb_neq (u8 a) _)) by lia.
  - rewrite !(proj2 (Z.eqb_eq _ _)) by lia. intros. f_equal; [apply u8_inj; lia|auto].
Qed.
Lemma bytes_leb_trans s t r : bytes_leb s t = true → bytes_leb t r = true → bytes_leb s r = true.
Proof.
  revert t r. induction s as [|a s IH]; intros [|b t] [|c r]; simpl; auto; [done..|].
  destruct (Z.ltb_spec (u8 a) (u8 b)), (Z.ltb_spec (u8 b) (u8 c)), (Z.ltb_spec (u8 a) (u8 c));
    try lia; try done; destruct (Z.eqb_spec (u8 a) (u8 b)), (Z.eqb_spec (u8 b) (u8 c)); try done; try lia.
  rewrite (proj2 (Z.eqb_eq _ _)) by lia. apply IH.
Qed.

#[export] Instance bytes_le_total : Total bytes_le.
Proof. intros s t. apply bytes_leb_total. Qed.
#[export] Instance bytes_le_trans : Transitive bytes_le.
Proof. intros s t r. apply bytes_leb_trans. Qed.
#[export] Instance bytes_le_antisym : AntiSymm (=) bytes_le.
Proof. intros s t. apply bytes_leb_antisym. Qed.

Lemma sort_bytes_perm l k : l ≡ₚ k → merge_sort bytes_le l = merge_sort bytes_le k.
Proof.
  intros H. apply (StronglySorted_unique bytes_le).
  - apply (StronglySorted_merge_sort _).
  - apply (StronglySorted_merge_sort _).
  - by rewrite !merge_sort_Permutation.
Qed.

Lemma make_signature_perm act p m1 m2 :
  signature_parts m1 ≡ₚ signature_parts m2 → make_signature act p m1 = make_signature act p m2.
Proof. intros H. unfold make_signature. by rewrite (sort_bytes_perm _ _ H). Qed.

Definition comma : byte := ","%char.

Lemma split_byte_nonempty c s : split_byte c s ≠ [].
Proof. destruct s as [|b s]; simpl; [done|]. destruct (bool_decide _); [done|]. by destruct (split_byte c s). Qed.

Lemma split_byte_clean c w : c ∉ w → split_byte c w = [w].
Proof.
  induction w as [|b w IH]; intros H; [done|]. simpl. rewrite bool_decide_false by set_solver.
  by rewrite IH by set_solver.
Qed.
Lemma split_byte_app c w s : c ∉ w → split_byte c (w ++ c :: s) = w :: split_byte c s.
Proof.
  induction w as [|b w IH]; intros H; simpl; [by rewrite bool_decide_true|].
  rewrite bool_decide_false by set_solver. by rewrite IH by set_solver.
Qed.

(** Splitting undoes joining. *)
Lemma split_join c ws : ws ≠ [] → Forall (λ w, c ∉ w) ws → split_byte c (join [c] ws) = ws.
Proof.
  intros Hn Hw. induction Hw as [|w ws Hc Hw IH]; [done|].
  destruct ws as [|w2 ws]; [by apply split_byte_clean|].
  change (join [c] (w :: w2 :: ws)) with (w ++ c :: join [c] (w2 :: ws)).
  rewrite split_byte_app by done. by rewrite IH.
Qed.

Lemma signature_parts_join ws :
  ws ≠ [] → Forall (λ w, comma ∉ w) ws →
  signature_parts (Some (join [comma] ws))
  = filter (λ s, negb (is_nil s) && negb (bool_decide (s = bs "badfilter")) = true) (trim <$> ws).
Proof. intros Hn Hw. unfold signature_parts. by rewrite (split_join comma). Qed.

(** ** Rules from ASCII lists *)

Section ascii.
Context {RX : RegexLib} {NL : IpNetLib}.
Implicit Types (br : BuildRule) (brs : list BuildRule).

Lemma ascii_boundary s i : is_ascii s = true → i ≤ length s → char_boundary s i = true.
Proof.
  intros Hs Hi. unfold char_boundary. destruct (s !! i) as [b|] eqn:E.
  - unfold is_ascii in Hs. rewrite forallb_Forall, Forall_lookup in Hs. specialize (Hs i b E).
    apply Z.ltb_lt in Hs. unfold is_continuation. rewrite (proj2 (Z.leb_gt _ _)) by lia. done.
  - apply lookup_ge_None in E. apply Nat.eqb_eq. lia.
Qed.
Lemma ascii_raw_ok s : is_ascii s = true → raw_ok s = true.
Proof.
  intros Hs. unfold raw_ok, boundary_ok. rewrite !ascii_boundary by first [done|lia]. done.
Qed.

Lemma split_byte_subset c s w b : w ∈ split_byte c s → b ∈ w → b ∈ s.
Proof.
  revert w. induction s as [|x s IH]; intros w; cbn [split_byte].
  { by intros ->%list_elem_of_singleton. }
  case_bool_decide.
  { rewrite elem_of_cons. intros [->|Hw] Hb; [by apply elem_of_nil in Hb|right; eauto]. }
  destruct (split_byte c s) as [|v vs].
  { intros ->%list_elem_of_singleton ->%list_elem_of_singleton. by left. }
  rewrite elem_of_cons. intros [->|Hw] Hb; [|right; apply (IH w); [by right|done]].
  apply elem_of_cons in Hb as [->|Hb]; [by left|]. right. apply (IH v); [by left|done].
Qed.

Lemma lines_of_subset ps l b : l ∈ lines_of ps → b ∈ l → ∃ p, p ∈ ps ∧ b ∈ p.
Proof.
  induction ps as [|p ps IH]; simpl; [by intros ?%elem_of_nil|]. destruct ps as [|q ps].
  - destruct p; [by intros ?%elem_of_nil|]. intros ->%list_elem_of_singleton Hb. eexists; split; [by left|done].
  - rewrite elem_of_cons. intros [->|Hl] Hb.
    + exists p. split; [by left|]. revert Hb. unfold strip_cr.
      destruct (strip_suffix [CR] p) eqn:E; [by eapply strip_suffix_subset|done].
    + destruct (IH Hl Hb) as (r & ? & ?). exists r. split; [by right|done].
Qed.

Lemma lines_ascii text l : is_ascii text = true → l ∈ lines text → is_ascii l = true.
Proof.
  intros Ht Hl. eapply is_ascii_subset; [|exact Ht]. intros b Hb.
  destruct (lines_of_subset _ _ _ Hl Hb) as (p & Hp & Hbp). by eapply split_byte_subset.
Qed.

Lemma flush_word_elem cur ws w : w ∈ flush_word cur ws → w = reverse cur ∨ w ∈ ws.
Proof. destruct cur; simpl; [by right|]. rewrite elem_of_cons. tauto. Qed.

Lemma split_ws_subset cur s w b : w ∈ split_ws_go cur s → b ∈ w → b ∈ cur ∨ b ∈ s.
Proof.
  remember (length s) as n eqn:En. revert cur s En w b. induction n as [n IH] using lt_wf_ind.
  assert (Hfl : ∀ cur t w b, length t < n → w ∈ flush_word cur (split_ws_go [] t) → b ∈ w → b ∈ cur ∨ b ∈ t).
  { intros cur t w b Ht [->|Hw]%flush_word_elem Hb; [left; by rewrite elem_of_reverse in Hb|].
    destruct (IH (length t) Ht [] t eq_refl w b Hw Hb) as [[]%elem_of_nil|?]; by right. }
  intros cur [|a t] En w b; simpl.
  { intros [->|[]%elem_of_nil]%flush_word_elem Hb. left. by rewrite elem_of_reverse in Hb. }
  simpl in En.
  destruct (ws1 a); [intros Hw Hb; destruct (Hfl cur t w b) as [?|?]; auto; [lia|set_solver]|].
  destruct t as [|b1 t2].
  { intros ->%list_elem_of_singleton Hb. rewrite elem_of_reverse in Hb. set_solver. }
  simpl in En.
  assert (Hgo : w ∈ split_ws_go (a :: cur) (b1 :: t2) → b ∈ w → b ∈ cur ∨ b ∈ a :: b1 :: t2).
  { intros Hw Hb. destruct (IH (length (b1 :: t2)) ltac:(simpl; lia) (a :: cur) _ eq_refl w b Hw Hb); set_solver. }
  destruct (ws2 a b1); [intros Hw Hb; destruct (Hfl cur t2 w b) as [?|?]; auto; [lia|set_solver]|].
  destruct t2 as [|c t3]; [exact Hgo|]. simpl in En.
  destruct (ws3 a b1 c); [intros Hw Hb; destruct (Hfl cur t3 w b) as [?|?]; auto; [lia|set_solver]|exact Hgo].
Qed.

Lemma take_hosts_subset toks t : t ∈ take_hosts toks → t ∈ toks.
Proof. induction toks as [|x toks IH]; simpl; [done|]. destruct (starts_with _ _); set_solver. Qed.

Lemma parse_line_raw_ascii line rs :
  is_ascii line = true → parse_line line = Ok (PRules rs) →
  Forall (λ br, is_ascii (raw (rule br)) = true) rs.
Proof.
  intros Hl. assert (Ht : is_ascii (trim line) = true) by (eapply is_ascii_subset; [apply trim_subset|exact Hl]).
  unfold parse_line. revert Ht. generalize (trim line). clear line Hl. intros line Hl.
  destruct (is_nil _); [done|]. destruct (_ || _); [done|].
  destruct (try_parse_hosts line) as [rules|] eqn:Eh.
  - destruct (is_nil rules); [done|]. intros [= <-]. unfold try_parse_hosts in Eh.
    destruct (split_whitespace line) as [|first parts] eqn:Ew; [done|]. inv_some. subst.
    assert (Hw : ∀ w, w ∈ first :: parts → is_ascii w = true).
    { intros w Hw. eapply is_ascii_subset; [|exact Hl]. intros b Hb. rewrite <- Ew in Hw.
      by destruct (split_ws_subset _ _ _ _ Hw Hb) as [[]%elem_of_nil|]. }
    apply Forall_forall. intros br (host & Hh%take_hosts_subset & Hbr)%list_elem_of_omap.
    unfold hosts_rule in Hbr. destruct (_ || _) in Hbr; [done|].
    assert (raw (rule br) = first ++ bs " " ++ host) as -> by (destruct (is_blocking_ip _); by injection Hbr as <-).
    rewrite !is_ascii_app, (Hw first), (Hw host) by set_solver. done.
  - destruct (is_cosmetic _); [done|]. unfold parse_adblock.
    destruct (match strip_prefix (bs "@@") line with Some _ => _ | None => _ end) as [act body].
    destruct (split_modifiers body) as [ps ms]. destruct (is_nil _); [done|].
    destruct (parse_pattern _) as [[pat toks]|]; simpl; [|done].
    destruct (match ms with Some _ => _ | None => _ end) as [[s|]|]; simpl; try done.
    intros [= <-]. by repeat constructor.
Qed.

Lemma rule_wf_set_list_id id br : rule_wf br → rule_wf (set_list_id id br).
Proof. intros [H1 H2 H3]. by constructor. Qed.

Lemma text_rules_wf `{!GlobLaws RX} id text :
  is_ascii text = true →
  Forall (λ br, rule_wf br ∧ raw_ok (raw (rule br)) = true) (text_rules id text).
Proof.
  intros Ht. apply Forall_fmap, Forall_join, Forall_fmap, Forall_forall. intros line Hl. simpl.
  pose proof (lines_ascii _ _ Ht Hl) as Ha. unfold line_rules.
  destruct (parse_line line) as [[rs| |]|] eqn:E; try constructor.
  apply Forall_and. split.
  - eapply Forall_impl; [by apply (parse_line_rules_wf line)|]. intros br. apply rule_wf_set_list_id.
  - eapply Forall_impl; [by apply (parse_line_raw_ascii line)|]. intros br. apply ascii_raw_ok.
Qed.

Definition ascii_lists (ls : list (Z * bytes * bytes)) : Prop :=
  Forall (λ '(_, _, text), is_ascii text = true) ls.

Lemma lists_rules_wf `{!GlobLaws RX} ls :
  ascii_lists ls → Forall (λ br, rule_wf br ∧ raw_ok (raw (rule br)) = true) (lists_rules ls).
Proof.
  intros Hls. apply Forall_join, Forall_fmap. eapply Forall_impl; [exact Hls|].
  intros [[id name] text] Ht. by apply text_rules_wf.
Qed.

Lemma active_rules_elem ls br :
  br ∈ active_rules (add_lists compiler_new ls) →
  br ∈ lists_rules ls ∧ badfilter br = false ∧ signature br ∉ disabled (lists_rules ls).
Proof.
  intros [Hin _]%dedup_sigs_elem. apply list_elem_of_filter in Hin as [Hs Hin].
  destruct (add_lists_spec ls compiler_new) as [E1 E2]. rewrite E1 in Hin. rewrite E2 in Hs. simpl in *.
  apply list_elem_of_filter in Hin as [Hb Hin]. set_solver.
Qed.

Lemma compiled_rules_ok `{!GlobLaws RX} ls :
  ascii_lists ls → limits_ok (prune_redundant (active_rules (add_lists compiler_new ls))) →
  rules_ok (prune_redundant (active_rules (add_lists compiler_new ls))).
Proof.
  intros Hls%lists_rules_wf [L1 L2 L3].
  assert (Forall (λ br, rule_wf br ∧ raw_ok (raw (rule br)) = true)
    (prune_redundant (active_rules (add_lists compiler_new ls)))) as [F1 F2]%Forall_and.
  { apply Forall_forall. intros br (Hin & _ & _)%prune_subset%active_rules_elem.
    rewrite Forall_forall in Hls. auto. }
  by constructor.
Qed.

End ascii.

(** ** A rule is determined by its text *)

Section contents.
Context {RX : RegexLib} {NL : IpNetLib}.
Implicit Types (br : BuildRule) (brs : list BuildRule).

Definition word (w : bytes) : Prop := w ≠ [] ∧ Forall (λ b, plain b = true) w.
Lemma split_ws_end cur w : Forall (λ b, plain b = true) w → split_ws_go cur w = flush_word (reverse w ++ cur) [].
Proof.
  intros H. revert cur. induction H as [|a t Ha Ht IH]; intros cur; [done|].
  destruct (plain_ws a Ha) as (H1 & H2 & H3). assert (E : split_ws_go cur (a :: t) = split_ws_go (a :: cur) t).
  { simpl. rewrite H1. destruct t as [|b t]; [done|]. rewrite H2. destruct t as [|c t]; [done|]. by rewrite H3. }
  rewrite E, IH. by rewrite reverse_cons, <- app_assoc.
Qed.
Lemma split_ws_word cur w rest : Forall (λ b, plain b = true) w →
  split_ws_go cur (w ++ " "%char :: rest) = flush_word (reverse w ++ cur) (split_ws_go [] rest).
Proof.
  intros H. revert cur. induction H as [|a t Ha Ht IH]; intros cur; [done|].
  destruct (plain_ws a Ha) as (H1 & H2 & H3). assert (E : split_ws_go cur ((a :: t) ++ " "%char :: rest) = split_ws_go (a :: cur) (t ++ " "%char :: rest)).
  { simpl. rewrite H1. destruct (t ++ " "%char :: rest) as [|b u] eqn:Eu; [by destruct t|]. rewrite H2.
    destruct u as [|c u]; [done|]. by rewrite H3. }
  rewrite E, IH. by rewrite reverse_cons, <- app_assoc.
Qed.
Lemma split_two w v : word w → word v → split_whitespace (w ++ bs " " ++ v) = [w; v].
Proof.
  intros [Hw Pw] [Hv Pv]. unfold split_whitespace. change (w ++ bs " " ++ v) with (w ++ " "%char :: v).
  rewrite split_ws_word, split_ws_end by done. rewrite !app_nil_r.
  assert (Hf : ∀ x ws, x ≠ [] → flush_word (reverse x) ws = x :: ws).
  { intros x ws Hx. destruct (reverse x) as [|y r] eqn:E; [apply (f_equal reverse) in E; by rewrite reverse_involutive in E|].
    unfold flush_word. by rewrite <- E, reverse_involutive. }
  by rewrite !Hf by done.
Qed.
(** The words of an ASCII text. *)
Lemma words_plain cur s w : Forall (λ b, plain b = true) cur → is_ascii s = true → w ∈ split_ws_go cur s → word w.
Proof.
  assert (Hfl : ∀ cur ws, Forall (λ b, plain b = true) cur → (w ∈ ws → word w) → w ∈ flush_word cur ws → word w).
  { intros c ws Hc Hws Hw. destruct c as [|x c]; [by apply Hws|]. cbn [flush_word] in Hw. apply elem_of_cons in Hw as [->|Hw]; [|by apply Hws].
    split; [|by apply Forall_reverse]. intros E. apply (f_equal reverse) in E. by rewrite reverse_involutive in E. }
  revert cur. induction s as [|a t IH]; intros cur Hc Hs; [by apply Hfl; [|intros ?%elem_of_nil]|].
  unfold is_ascii in Hs. cbn [forallb] in Hs. apply andb_true_iff in Hs as [Ha Hs].
  cbn [split_ws_go]. destruct (ws1 a) eqn:Ew; [apply Hfl; [done|]; by apply IH|].
  assert (Pa : plain a = true) by (unfold plain; by rewrite Ew, Ha). destruct (plain_ws a Pa) as (_ & H2 & H3).
  destruct t as [|b t]; [apply Hfl; [by constructor|by intros ?%elem_of_nil]|]. rewrite H2.
  destruct t as [|c t]; [|rewrite H3]; apply IH; by constructor || done.
Qed.
(** A text that does not start with white space starts with its first word. *)
Lemma first_word_head s first parts : is_ascii s = true → trim_start s = s → split_whitespace s = first :: parts → head first = head s.
Proof.
  destruct s as [|a t]; [done|]. intros Hs Ht. unfold is_ascii in Hs. cbn [forallb] in Hs. apply andb_true_iff in Hs as [Ha Hs].
  destruct (ws1 a) eqn:Ew.
  { exfalso. assert (H : length (trim_start (a :: t)) ≤ length t).
    { cbn [trim_start]. rewrite Ew. clear -RX. remember (length t) as n eqn:En. revert t En. induction n as [n IH] using lt_wf_ind.
      intros [|x u] En; [simpl; lia|]. simpl in *. destruct (ws1 x); [specialize (IH (length u) ltac:(lia) u eq_refl); lia|].
      destruct u as [|y u2]; [simpl; lia|]. simpl in *. destruct (ws2 x y); [specialize (IH (length u2) ltac:(lia) u2 eq_refl); lia|].
      destruct u2 as [|z u3]; [simpl; lia|]. simpl in *. destruct (ws3 x y z); [specialize (IH (length u3) ltac:(lia) u3 eq_refl); lia|simpl; lia]. }
    rewrite Ht in H. simpl in H. lia. }
  assert (Pa : plain a = true) by (unfold plain; by rewrite Ew, Ha). destruct (plain_ws a Pa) as (_ & H2 & H3).
  assert (Hh : ∀ u cur ws, cur ≠ [] → split_ws_go cur u = ws → ∃ f ps, ws = f :: ps ∧ head f = last cur).
  { clear -RX. intros u. remember (length u) as n eqn:En. revert u En. induction n as [n IH] using lt_wf_ind. intros u En cur ws Hc <-.
    assert (Hf : ∀ c ws, c ≠ [] → ∃ f ps, flush_word c ws = f :: ps ∧ head f = last c).
    { intros c ws Hne. destruct c as [|x c]; [done|]. exists (reverse (x :: c)), ws. split; [done|]. by rewrite <- head_reverse. }
    destruct u as [|x u]; [by apply Hf|]. simpl in *. destruct (ws1 x); [by apply Hf|].
    assert (Hl : last (x :: cur) = last cur) by (by destruct cur).
    destruct u as [|y u2]; [exists (reverse (x :: cur)), []; by rewrite head_reverse, Hl|].
    simpl in *. destruct (ws2 x y); [by apply Hf|].
    assert (Hgo : ∃ f ps, split_ws_go (x :: cur) (y :: u2) = f :: ps ∧ head f = last cur).
    { destruct (IH (length (y :: u2)) ltac:(simpl; lia) (y :: u2) eq_refl (x :: cur) _ ltac:(done) eq_refl) as (f & ps & -> & E).
      exists f, ps. by rewrite E, Hl. }
    destruct u2 as [|z u3]; [exact Hgo|]. destruct (ws3 x y z); [by apply Hf|exact Hgo]. }
  unfold split_whitespace. intros H. assert (H' : split_ws_go [a] t = first :: parts).
  { rewrite <- H. cbn [split_ws_go]. rewrite Ew. destruct t as [|b t]; [done|]. rewrite H2. destruct t as [|c t]; [done|]. by rewrite H3. }
  destruct (Hh t [a] _ ltac:(done) H') as (f & ps & [= -> ->] & E). done.
Qed.
Lemma trim_start_plain a t : plain a = true → trim_start (a :: t) = a :: t.
Proof.
  intros Ha. destruct (plain_ws a Ha) as (H1 & H2 & H3). cbn [trim_start]. rewrite H1.
  destruct t as [|b t]; [done|]. rewrite H2. destruct t as [|c t]; [done|]. by rewrite H3.
Qed.
Lemma trim_rev_plain a t : plain a = true → trim_start_rev (a :: t) = a :: t.
Proof.
  intros Ha. destruct (plain_ws a Ha) as (H1 & _). unfold plain in Ha. apply andb_true_iff in Ha as [_ Ha]. apply Z.ltb_lt in Ha.
  assert (E : ∀ k, (128 <= k)%Z → (u8 a =? k)%Z = false) by (intros k Hk; apply Z.eqb_neq; lia).
  assert (H2 : ∀ b, ws2 b a = false) by (intros b; unfold ws2; rewrite !E by lia; by rewrite andb_false_r).
  assert (H3 : ∀ c b, ws3 c b a = false).
  { intros c b. unfold ws3. rewrite !E by lia. assert ((128 <=? u8 a)%Z = false) as -> by (apply Z.leb_gt; lia).
    by rewrite ?andb_false_r. }
  cbn [trim_start_rev]. rewrite H1. destruct t as [|b t]; [done|]. rewrite H2. destruct t as [|c t]; [done|]. by rewrite H3.
Qed.
Lemma trim_word_pair w v : word w → word v → trim (w ++ bs " " ++ v) = w ++ bs " " ++ v.
Proof.
  intros [Hw Pw] [Hv Pv]. unfold trim, trim_end.
  assert (Hs : trim_start (w ++ bs " " ++ v) = w ++ bs " " ++ v) by (destruct Pw as [|a t Ha _]; [done|]; by apply trim_start_plain).
  assert (Hr : trim_start_rev (reverse (w ++ bs " " ++ v)) = reverse (w ++ bs " " ++ v)).
  { rewrite !reverse_app. apply Forall_reverse in Pv. destruct (reverse v) as [|a t] eqn:E.
    - apply (f_equal reverse) in E. by rewrite reverse_involutive in E.
    - apply Forall_cons in Pv as [Ha _]. by apply trim_rev_plain. }
  by rewrite Hs, Hr, reverse_involutive.
Qed.
(** A rule's text gives the rule again. *)
Lemma rule_reparses line br : is_ascii line = true → br ∈ line_rules line → line_rules (raw (rule br)) = [br].
Proof.
  intros Hl Hbr. unfold line_rules in Hbr. destruct (parse_line line) as [[rs| |]|] eqn:E; try (by apply elem_of_nil in Hbr).
  assert (Ha : is_ascii (trim line) = true) by (eapply is_ascii_subset; [apply trim_subset|exact Hl]).
  unfold parse_line in E. destruct (is_nil (trim line)) eqn:En; [done|].
  destruct (starts_with (bs "!") (trim line) || starts_with (bs "#") (trim line) || starts_with (bs "[") (trim line)) eqn:Ec; [done|].
  destruct (try_parse_hosts (trim line)) as [rules|] eqn:Eh.
  - destruct (is_nil rules); [done|]. injection E as <-. unfold try_parse_hosts in Eh.
    destruct (split_whitespace (trim line)) as [|first parts] eqn:Ew; [done|].
    destruct (parse_ip first) as [ip|] eqn:Ei; [|done]. cbn [mbind option_bind] in Eh.
    destruct (is_nil (take_hosts parts)); [done|]. injection Eh as <-.
    apply list_elem_of_omap in Hbr as (host & Hh & Hr).
    assert (Hww : ∀ w, w ∈ first :: parts → word w) by (intros w Hw; rewrite <- Ew in Hw; by eapply words_plain; [constructor|exact Ha|exact Hw]).
    assert (Hf : word first) by (apply Hww; left). assert (Hv : word host) by (apply Hww; right; by apply take_hosts_subset).
    assert (Hraw : raw (rule br) = first ++ bs " " ++ host).
    { unfold hosts_rule in Hr. destruct (_ || _) in Hr; [done|]. by destruct (is_blocking_ip ip); injection Hr as <-. }
    assert (Hns : starts_with (bs "#") host = false).
    { clear -Hh. induction parts as [|x parts IH]; cbn [take_hosts] in Hh; [by apply elem_of_nil in Hh|].
      destruct (starts_with (bs "#") x) eqn:Ex; [by apply elem_of_nil in Hh|]. apply elem_of_cons in Hh as [->|Hh]; auto. }
    pose proof (first_word_head _ _ _ Ha (trim_start_trim line) Ew) as Hhd.
    unfold line_rules, parse_line. rewrite Hraw, trim_word_pair by done.
    assert (Hnn : is_nil (first ++ bs " " ++ host) = false) by (by destruct Hf as [? _], first). rewrite Hnn.
    assert (Hc' : starts_with (bs "!") (first ++ bs " " ++ host) || starts_with (bs "#") (first ++ bs " " ++ host)
                  || starts_with (bs "[") (first ++ bs " " ++ host) = false).
    { destruct first as [|a f]; [by destruct Hf|]. destruct (trim line) as [|a' t]; [done|]. injection Hhd as <-. exact Ec. }
    rewrite Hc'. unfold try_parse_hosts. rewrite split_two by done. rewrite Ei. cbn [mbind option_bind take_hosts]. rewrite Hns.
    cbn [is_nil omap list_omap]. by rewrite Hr.
  - destruct (is_cosmetic (trim line)) eqn:Eco; [done|].
    assert (Hone : rs = [br] ∧ raw (rule br) = trim line).
    { unfold parse_adblock in E. destruct (match strip_prefix (bs "@@") (trim line) with Some _ => _ | None => _ end) as [act body].
      destruct (split_modifiers body) as [ps ms]. destruct (is_nil (trim ps)); [done|].
      destruct (parse_pattern _) as [[pat toks]|]; simpl in E; [|done].
      destruct (match ms with Some _ => _ | None => _ end) as [[st|]|]; simpl in E; [|done..].
      injection E as <-. apply list_elem_of_singleton in Hbr as ->. done. }
    destruct Hone as [-> Hraw]. unfold line_rules, parse_line. rewrite Hraw, trim_fix, En, Ec, Eh, Eco. by rewrite E.
Qed.

(** What the content hash is taken over, and the rules it stands for. *)
Definition contents brs : list (bytes * Z * Action) := (λ br, (raw (rule br), list_id (rule br), action (rule br))) <$> brs.
Definition rules_with (cs : list (bytes * Z * Action)) : list BuildRule :=
  mjoin ((λ '(text, id, _), set_list_id id <$> line_rules text) <$> cs).
(** The rules an engine is built from. *)
Definition surviving (ls : list (Z * bytes * bytes)) : list BuildRule := prune_redundant (active_rules (add_lists compiler_new ls)).
Lemma surviving_line ls br : br ∈ surviving ls →
  ∃ id name text line br0, (id, name, text) ∈ ls ∧ line ∈ lines text ∧ br0 ∈ line_rules line ∧ br = set_list_id id br0.
Proof.
  intros (Hin & _ & _)%prune_subset%active_rules_elem. unfold lists_rules in Hin.
  apply list_elem_of_join in Hin as (rs & Hbr & Hrs). apply list_elem_of_fmap in Hrs as ([[id name] text] & -> & Hls).
  unfold text_rules in Hbr. apply list_elem_of_fmap in Hbr as (br0 & -> & Hbr).
  apply list_elem_of_join in Hbr as (rs & Hbr & Hrs). apply list_elem_of_fmap in Hrs as (line & -> & Hline).
  by exists id, name, text, line, br0.
Qed.
Lemma contents_determine ls : ascii_lists ls → rules_with (contents (surviving ls)) = surviving ls.
Proof.
  intros Ha. unfold rules_with, contents. rewrite <- list_fmap_compose.
  assert (H : Forall (λ br, set_list_id (list_id (rule br)) <$> line_rules (raw (rule br)) = [br]) (surviving ls)).
  { apply Forall_forall. intros br (id & name & text & line & br0 & Hls & Hline & Hbr & ->)%surviving_line.
    assert (Ht : is_ascii text = true) by (by apply (proj1 (Forall_forall _ _) Ha) in Hls).
    change (raw (rule (set_list_id id br0))) with (raw (rule br0)).
    rewrite (rule_reparses line br0 (lines_ascii _ _ Ht Hline) Hbr). done. }
  induction H as [|br brs Hbr _ IH]; [done|]. rewrite fmap_cons. change (mjoin (?x :: ?l)) with (x ++ mjoin l). rewrite IH.
  cbn [compose]. by rewrite Hbr.
Qed.
(** Lists of the same contents leave the same rules. *)
Lemma same_contents l1 l2 : ascii_lists l1 → ascii_lists l2 → contents (surviving l1) = contents (surviving l2) → surviving l1 = surviving l2.
Proof. intros H1 H2 E. rewrite <- (contents_determine l1), <- (contents_determine l2) by done. by rewrite E. Qed.
Lemma content_hash_of {US : UnstableSort} dhash chash brs e : from_rules dhash chash brs = Some e → content_hash e = chash (contents brs).
Proof.
  unfold from_rules. destruct (build_scan_group _ _ _ false); [|done]. cbn [mbind option_bind].
  destruct (build_scan_group _ _ _ true); [|done]. intros [= <-]. cbn [content_hash]. f_equal.
  assert (H : ∀ b, b_hashed (foldl (add_rule dhash) b brs) = b_hashed b ++ contents brs).
  { induction brs as [|br brs IH]; intros b; [by rewrite app_nil_r|]. cbn [foldl]. rewrite IH.
    assert (b_hashed (add_rule dhash b br) = b_hashed b ++ [(raw (rule br), list_id (rule br), action (rule br))]) as ->
      by (unfold add_rule; by destruct (pattern (rule br))). by rewrite <- app_assoc. }
  by rewrite H.
Qed.
End contents.

(** ** The contract of list compilation *)

(** What becomes of a query. *)
Inductive Outcome : Type := Unfiltered | Excepted | Blocked | Rewritten.
Definition outcome (v : Verdict) : Outcome :=
  match v with
  | VAllow None => Unfiltered
  | VAllow (Some _) => Excepted
  | VBlock _ => Blocked
  | VRewrite _ _ => Rewritten
  end.
(** The same verdict of the same rule, which may have another number. *)
Definition unnumbered (v : Verdict) : Verdict :=
  let strip i := {| mi_rule := mi_rule i; mi_list_id := mi_list_id i; mi_rule_id := 0 |} in
  match v with
  | VAllow i => VAllow (strip <$> i)
  | VBlock i => VBlock (strip i)
  | VRewrite i d => VRewrite (strip i) d
  end.

Section outcomes.
Context {RX : RegexLib} {NL : IpNetLib}.
Implicit Types (br : BuildRule) (brs : list BuildRule).

(** A block and a rewrite both apply, and no applying rule has a higher priority than they. *)
Definition tied brs (domain rtype : bytes) (cl : ClientInfo) : Prop :=
  ∃ b r, b ∈ brs ∧ r ∈ brs ∧ action (rule b) = Block ∧ action (rule r) = Rewrite
    ∧ rule_applies (rule b) domain rtype cl = true ∧ rule_applies (rule r) domain rtype cl = true
    ∧ priority (rule b) = priority (rule r)
    ∧ ∀ br, br ∈ brs → rule_applies (rule br) domain rtype cl = true → (priority (rule br) <= priority (rule b))%Z.
(** A verdict is one the linear scan over the rules admits, and its outcome is that of every
    verdict it admits, unless a block and a rewrite are tied. *)
Definition as_scanned brs (domain rtype : bytes) (cl : ClientInfo) (v : Verdict) : Prop :=
  (∃ v', spec_verdict brs domain rtype cl v' ∧ unnumbered v' = unnumbered v)
  ∧ ∀ ref, spec_verdict brs domain rtype cl ref →
      outcome v = outcome ref
      ∨ tied brs domain rtype cl ∧ ((outcome v = Blocked ∧ outcome ref = Rewritten) ∨ (outcome v = Rewritten ∧ outcome ref = Blocked)).

Lemma verdict_outcome i (r : Rule) v : verdict_of i r = Some v →
  outcome v = match action r with Allow => Excepted | Block => Blocked | Rewrite => Rewritten end.
Proof.
  unfold verdict_of. destruct (action r); [by intros [= <-]..|].
  destruct (rule_rewrite r); [by intros [= <-]|done].
Qed.
Lemma priority_action (r1 r2 : Rule) : priority r1 = priority r2 →
  action r1 = action r2 ∨ (action r1 = Block ∧ action r2 = Rewrite) ∨ (action r1 = Rewrite ∧ action r2 = Block).
Proof.
  unfold priority. destruct (action r1), (action r2), (mods_important (mods r1)), (mods_important (mods r2));
    simpl; auto; lia.
Qed.
Lemma verdict_renumbered i j (r : Rule) v : verdict_of j r = Some v → ∃ v', verdict_of i r = Some v' ∧ unnumbered v' = unnumbered v.
Proof.
  unfold verdict_of. destruct (action r); [intros [= <-]; by eexists..|].
  destruct (rule_rewrite r); [intros [= <-]; by eexists|done].
Qed.

(** The winner among the surviving rules wins among all of them. *)
Lemma prune_winner_wins active domain rtype cl j br : winner (prune_redundant active) domain rtype cl j br →
  ∃ i, winner active domain rtype cl i br.
Proof.
  intros (Hj & Ha & Hmax). pose proof (prune_subset active br ltac:(by eapply list_elem_of_lookup_2)) as Hin.
  apply list_elem_of_lookup in Hin as [i Hi]. exists i. split_and!; [done..|]. intros br' Hin' Ha'.
  destruct (prune_stand_in _ _ _ _ _ Hin' Ha') as (s & Hs & Has & Hp & _). rewrite <- Hp. by apply Hmax.
Qed.
Lemma winners_agree brs domain rtype cl i br j br' v v' :
  winner brs domain rtype cl i br → winner brs domain rtype cl j br' → verdict_of i (rule br) = Some v → verdict_of j (rule br') = Some v' →
  outcome v = outcome v'
  ∨ tied brs domain rtype cl ∧ ((outcome v = Blocked ∧ outcome v' = Rewritten) ∨ (outcome v = Rewritten ∧ outcome v' = Blocked)).
Proof.
  intros (Hi & Ha & Hm) (Hj & Ha' & Hm') Hv Hv'. rewrite (verdict_outcome _ _ _ Hv), (verdict_outcome _ _ _ Hv').
  apply list_elem_of_lookup_2 in Hi, Hj. assert (Hp : priority (rule br) = priority (rule br')) by (apply Z.le_antisymm; auto).
  destruct (priority_action _ _ Hp) as [->|[[E E']|[E E']]]; [by left|right..]; rewrite E, E'; (split; [|auto]).
  - exists br, br'. by split_and!.
  - exists br', br. by split_and!.
Qed.
Lemma prune_as_scanned active domain rtype cl v :
  spec_verdict (prune_redundant active) domain rtype cl v → as_scanned active domain rtype cl v.
Proof.
  intros [[-> Hn]|(j & br & Hw & Hv)].
  - assert (Hall : ∀ br, br ∈ active → rule_applies (rule br) domain rtype cl = false).
    { intros br Hin. destruct (rule_applies (rule br) domain rtype cl) eqn:Ha; [|done].
      destruct (prune_stand_in _ _ _ _ _ Hin Ha) as (s & Hs & Has & _). by rewrite Hn in Has. }
    split; [exists (VAllow None); split; [by left|done]|].
    intros ref [[-> _]|(i & br & (Hi & Ha & _) & _)]; [by left|]. apply list_elem_of_lookup_2 in Hi. by rewrite Hall in Ha.
  - destruct (prune_winner_wins _ _ _ _ _ _ Hw) as [i Hwi]. destruct (verdict_renumbered i j (rule br) v Hv) as (v' & Hv' & Hu).
    split; [exists v'; split; [right; by exists i, br|done]|]. intros ref [[-> Hn]|(k & br' & Hw' & Hvr)].
    + destruct Hwi as (Hi & Ha & _). apply list_elem_of_lookup_2 in Hi. by rewrite Hn in Ha.
    + assert (outcome v = outcome v') as -> by (by rewrite (verdict_outcome _ _ _ Hv), (verdict_outcome _ _ _ Hv')).
      exact (winners_agree _ _ _ _ _ _ _ _ _ _ Hwi Hw' Hv' Hvr).
Qed.
End outcomes.

(** C6: compiling ASCII filter lists that fit the engine's integer fields ([limits_ok]) succeeds, and the
    resulting engine answers every ASCII query without a panic, with a verdict of the
    surviving rules that the linear scan over all active rules, pruned ones included, admits:
    the same action, text, list and rewrite of an applying rule of the highest priority, or
    none when no rule applies.  Its outcome (unfiltered, excepted, blocked, rewritten) is that
    of every verdict the scan admits, except that one may block and the other rewrite
    when a block and a rewrite rule are tied at the highest priority (there pruning can change
    the choice: [prune_flips_block_to_rewrite]). *)
Theorem compile_lists_correct {RX : RegexLib} {NL : IpNetLib} {US : UnstableSort}
    {RL : RegexLaws RX} {GL : GlobLaws RX}
    (dhash : bytes → Z) (chash : list (bytes * Z * Action) → Z) (ls : list (Z * bytes * bytes)) :
  let c := add_lists compiler_new ls in
  ascii_lists ls → limits_ok (prune_redundant (active_rules c)) →
  ∃ e, build dhash chash c = Some (e, c_stats c) ∧
    ∀ domain rtype cl, is_ascii domain = true →
      ∃ v, check dhash e domain rtype cl = Some v ∧
        spec_verdict (prune_redundant (active_rules c)) (normalize_query domain) rtype cl v ∧
        as_scanned (active_rules c) (normalize_query domain) rtype cl v.
Proof.
  intros c Hls Hlim. pose proof (compiled_rules_ok ls Hls Hlim) as Hok. fold c in Hok.
  destruct (from_rules_engine dhash chash _ Hok) as (e & He & Heng).
  exists e. unfold build. rewrite He. split; [done|]. intros domain rtype cl Hd.
  destruct (check_spec dhash _ e domain rtype cl Hok Heng Hd) as (v & Hc & Hv).
  exists v. split_and!; [done..|by apply prune_as_scanned].
Qed.

Definition demo_text : bytes :=
  join [LF] [bs "||ads.com^"; bs "0.0.0.0 x.ads.com"; bs "||sub.ads.com^"; bs "@@||good.ads.com^";
             bs "||*track*.net^"; bs "||old.org^"; bs "||old.org^$badfilter"; bs "||ads.com^"].
Definition demo_lists : list (Z * bytes * bytes) := [(7%Z, bs "demo", demo_text)].

Lemma compile_lists_correct_witness :
  ascii_lists demo_lists ∧
  ∃ e, build demo_hash (λ _, 0%Z) (add_lists compiler_new demo_lists)
         = Some (e, c_stats (add_lists compiler_new demo_lists)) ∧
    ∀ domain rtype cl, is_ascii domain = true →
      ∃ v, check demo_hash e domain rtype cl = Some v ∧
        spec_verdict (prune_redundant (active_rules (add_lists compiler_new demo_lists)))
          (normalize_query domain) rtype cl v ∧
        as_scanned (active_rules (add_lists compiler_new demo_lists)) (normalize_query domain) rtype cl v.
Proof.
  assert (Ha : ascii_lists demo_lists) by (repeat constructor).
  split; [exact Ha|]. apply (compile_lists_correct demo_hash (λ _, 0%Z) demo_lists Ha).
  apply fits_engine_ok. vm_compute. reflexivity.
Defined.

(** Of the eight lines, two are pruned, two cancel out and one is a duplicate. *)
Example demo_lists_raws :
  (λ br, raw (rule br)) <$> prune_redundant (active_rules (add_lists compiler_new demo_lists))
  = [bs "||ads.com^"; bs "@@||good.ads.com^"; bs "||*track*.net^"].
Proof. vm_compute. reflexivity. Qed.

Section active.
Context {RX : RegexLib} {NL : IpNetLib}.

Lemma active_rules_complete ls i br :
  kept (lists_rules ls) !! i = Some br → signature br ∉ disabled (lists_rules ls) →
  (∀ j br', j < i → kept (lists_rules ls) !! j = Some br' → signature br' ≠ signature br) →
  br ∈ active_rules (add_lists compiler_new ls).
Proof.
  intros Hi Hs Hfirst. unfold active_rules. destruct (add_lists_spec ls compiler_new) as [-> ->].
  change (c_rules compiler_new) with (@nil BuildRule). change (badfilter_sigs compiler_new) with (∅ : gset bytes).
  rewrite app_nil_l, (left_id_L ∅ (∪)).
  set (P := λ br, signature br ∉ disabled (lists_rules ls)).
  assert (E : kept (lists_rules ls) = take i (kept (lists_rules ls)) ++ br :: drop (S i) (kept (lists_rules ls)))
    by (by rewrite take_drop_middle).
  rewrite E, filter_app, filter_cons_True by done.
  apply (dedup_sigs_complete _ _ (length (filter P (take i (kept (lists_rules ls)))))); [|set_solver|].
  - rewrite lookup_app_r, Nat.sub_diag by lia. done.
  - intros j br' Hj Hbr'. rewrite lookup_app_l in Hbr' by done.
    apply list_elem_of_lookup_2, list_elem_of_filter in Hbr' as [_ Hbr'].
    apply list_elem_of_lookup in Hbr' as [k Hk]. apply lookup_take_Some in Hk as [Hk ?]. by eapply Hfirst.
Qed.
End active.

(** After any sequence of lists, the active rules are exactly the first rule of every
    signature that no [$badfilter] rule of any list, before or after it, disables: the
    signatures are pairwise distinct, every active rule is an enabled rule of the lists,
    and the first enabled rule of a signature is active. *)
Theorem active_rules_characterised {RX : RegexLib} {NL : IpNetLib} (ls : list (Z * bytes * bytes)) :
  NoDup (signature <$> active_rules (add_lists compiler_new ls)) ∧
  ∀ br, br ∈ active_rules (add_lists compiler_new ls) ↔
    ∃ i, kept (lists_rules ls) !! i = Some br ∧ (signature br ∉ disabled (lists_rules ls)) ∧
      (∀ j br', j < i → kept (lists_rules ls) !! j = Some br' → signature br' ≠ signature br).
Proof.
  split; [apply dedup_sigs_nodup|]. intros br. split.
  - intros Hin. pose proof (active_rules_elem ls br Hin) as (Hl & Hb & Hs).
    assert (Hk : br ∈ kept (lists_rules ls)) by (by apply list_elem_of_filter).
    destruct (list_find_first (λ x, bool_decide (signature x = signature br)) (kept (lists_rules ls)) br Hk)
      as (i & x & Hi & Hx & Hfirst); [by apply bool_decide_true|]. bool_to_prop.
    assert (x ∈ active_rules (add_lists compiler_new ls)) as Hax.
    { eapply active_rules_complete; [exact Hi|by rewrite Hx|]. intros j br' Hj Hbr'.
      specialize (Hfirst j br' Hj Hbr'). bool_to_prop. congruence. }
    assert (x = br) as ->.
    { eapply (nodup_fmap_inj signature); [apply dedup_sigs_nodup|exact Hax|exact Hin|done]. }
    exists i. split_and!; [done..|]. intros j br' Hj Hbr'. specialize (Hfirst j br' Hj Hbr').
    by bool_to_prop.
  - intros (i & Hi & Hs & Hfirst). by eapply active_rules_complete.
Qed.

(** The signature of a rule does not depend on the order of its modifiers, and adding
    a [badfilter] modifier, anywhere, leaves it unchanged; so [pattern$m1,..,mn,badfilter]
    disables [pattern$m1,..,mn] however either line orders its modifiers. *)
Theorem badfilter_signature (act : Action) (p : bytes) (ms ms' : list bytes) :
  ms ≠ [] → Forall (λ m, comma ∉ m) ms → ms' ≡ₚ bs "badfilter" :: ms →
  make_signature act p (Some (join [comma] ms')) = make_signature act p (Some (join [comma] ms)) ∧
  make_signature act p (Some (bs "badfilter")) = make_signature act p None.
Proof.
  intros Hn Hc Hp. split; [|done]. apply make_signature_perm.
  rewrite !signature_parts_join; [by rewrite Hp|done|done| |].
  - intros ->. by apply Permutation_nil_l in Hp.
  - rewrite Hp. constructor; [|done]. intros H. vm_compute in H.
    repeat (apply elem_of_cons in H as [H|H]; [discriminate H|]). by apply elem_of_nil in H.
Qed.

Lemma badfilter_signature_witness :
  make_signature Block (bs "||a.com^") (Some (join [comma] [bs "important"; bs "badfilter"; bs "ctag=x"]))
  = make_signature Block (bs "||a.com^") (Some (join [comma] [bs "ctag=x"; bs "important"])) ∧
  make_signature Block (bs "||a.com^") (Some (bs "badfilter")) = make_signature Block (bs "||a.com^") None.
Proof.
  apply (badfilter_signature Block (bs "||a.com^") [bs "ctag=x"; bs "important"]
    [bs "important"; bs "badfilter"; bs "ctag=x"]).
  - discriminate.
  - repeat constructor; apply (bool_decide_eq_true_1 _); vm_compute; reflexivity.
  - etransitivity; [apply perm_swap|]. apply perm_skip, perm_swap.
Defined.

(** ** Behaviours the contract does not cover *)

(** A regex compiler that accepts every source. *)
Definition any_regex : RegexLib := {|
  regex := bytes; regex_build src _ := Ok src; regex_is_match _ _ := false; regex_as_str re := re;
  regex_set := list bytes; regex_set_build pats _ := Ok pats; regex_set_matches _ _ := [];
|}.

(** Signatures lower-case the whole pattern, so two regex rules that differ only in the
    case of an escape class, such as digits against non-digits, are taken for duplicates: whatever the
    regex compiler, when both lines compile only the first one is active. *)
Theorem regex_case_collision {RX : RegexLib} {NL : IpNetLib} (re1 re2 : regex) :
  compile_regex (bs "(?i)ad\d") = Ok re1 → compile_regex (bs "(?i)ad\D") = Ok re2 →
  pattern <$> (rule <$> active_rules (add_lists compiler_new
    [(0%Z, bs "l", join [LF] [bs "/ad\d/"; bs "/ad\D/"])])) = [Regex re1].
Proof.
  intros H1 H2.
  pose (mk re line := {|
    rule := {| rule_id := 0; raw := line; action := Block; pattern := Regex re; mods := None; list_id := 0 |};
    badfilter := false; signature := bs "/ad\d/|$"; index_tokens := [] |}).
  assert (E1 : parse_line (bs "/ad\d/") = Ok (PRules [mk re1 (bs "/ad\d/")])).
  { transitivity (result_bind (compile_regex (bs "(?i)ad\d")) (λ re, Ok (PRules [mk re (bs "/ad\d/")]))).
    - lazy -[compile_regex].
      match goal with |- context [compile_regex ?s] => by destruct (compile_regex s) end.
    - by rewrite H1. }
  assert (E2 : parse_line (bs "/ad\D/") = Ok (PRules [mk re2 (bs "/ad\D/")])).
  { transitivity (result_bind (compile_regex (bs "(?i)ad\D")) (λ re, Ok (PRules [mk re (bs "/ad\D/")]))).
    - lazy -[compile_regex].
      match goal with |- context [compile_regex ?s] => by destruct (compile_regex s) end.
    - by rewrite H2. }
  unfold active_rules. destruct (add_lists_spec [(0%Z, bs "l", join [LF] [bs "/ad\d/"; bs "/ad\D/"])] compiler_new) as [-> ->].
  unfold lists_rules, text_rules. cbn [fmap list_fmap mjoin list_join].
  change (lines (join [LF] _)) with [bs "/ad\d/"; bs "/ad\D/"]. cbn [fmap list_fmap mjoin list_join].
  unfold line_rules. rewrite E1, E2. reflexivity.
Qed.

Lemma regex_case_collision_witness :
  pattern <$> (rule <$> active_rules (RX:=any_regex) (add_lists compiler_new
    [(0%Z, bs "l", join [LF] [bs "/ad\d/"; bs "/ad\D/"])])) = [Regex (bs "(?i)ad\d" : @regex any_regex)].
Proof.
  apply (regex_case_collision (RX:=any_regex) (bs "(?i)ad\d") (bs "(?i)ad\D")); reflexivity.
Defined.

(** A hosts entry and a rewrite rule for the same name, with further lines behind them. *)
Definition flip_text (extra : list bytes) : bytes :=
  join [LF] ([bs "0.0.0.0 x.ads.com"; bs "||x.ads.com^$dnsrewrite=1.2.3.4"] ++ extra).
Definition flip_verdict (text : bytes) : option Verdict :=
  let! e := compile_one demo_hash (λ _, 0%Z) text in
  check demo_hash e (bs "x.ads.com") (bs "A") no_client_info.
Definition flip_info (raw : string) : MatchInfo := {| mi_rule := bs raw; mi_list_id := 0; mi_rule_id := 0 |}.

(** Pruning can turn a block into a rewrite.  A hosts entry blocks [x.ads.com] although
    a rewrite rule for it exists; the block is pruned as soon as [ads.com] is blocked too,
    and the same query is then rewritten. *)
Theorem prune_flips_block_to_rewrite :
  flip_verdict (flip_text []) = Some (VBlock (flip_info "0.0.0.0 x.ads.com")) ∧
  flip_verdict (flip_text [bs "||ads.com^"])
  = Some (VRewrite (flip_info "||x.ads.com^$dnsrewrite=1.2.3.4")
      (RwA (Ipv4 (byte_of 1) (byte_of 2) (byte_of 3) (byte_of 4)))).
Proof. split; vm_compute; reflexivity. Qed.

(** A rule line of 66022 bytes; byte 65535 is the second of a two-byte character. *)
Definition long_line : bytes :=
  bs "||ads.com^$denyallow=a" ++ mjoin (replicate (33 * 1000) [byte_of 195; byte_of 169]).
(** A rule line longer than 65535 bytes whose byte 65535 is inside a multi-byte
    character parses and compiles, and then every query the rule wins panics in [check], because the
    saturated length cuts the line inside the character. *)
Theorem long_raw_panics :
  ∃ e, from_rules demo_hash (λ _, 0%Z) (line_rules long_line) = Some e ∧
    check demo_hash e (bs "ads.com") (bs "A") no_client_info = None ∧
    check demo_hash e (bs "ads.net") (bs "A") no_client_info = Some (VAllow None).
Proof.
  assert (H : (λ e, (check demo_hash e (bs "ads.com") (bs "A") no_client_info,
                     check demo_hash e (bs "ads.net") (bs "A") no_client_info))
    <$> from_rules demo_hash (λ _, 0%Z) (line_rules long_line) = Some (None, Some (VAllow None)))
    by (vm_compute; reflexivity).
  destruct (from_rules demo_hash (λ _, 0%Z) (line_rules long_line)) as [e|]; [|discriminate H].
  injection H as H1 H2. by exists e.
Qed.
