(* ===== verification/FilterTypes.v ===== *)
(** * bulwark-filter: the compiled engine is well typed ([engine.rs], [list.rs]).

    A compiled rule is a record of machine-width integers: offsets into two arenas, positions
    in the tables of modifiers and regexes, an id that the four indexes refer to.  Here is
    the invariant that ties them together, for every engine the compiler builds. *)
From Stdlib Require Import Ascii.
From S2P Require Import Prelude RustStr RustNet Rule Token Glob Parser ParserProps FilterEngine FilterEngineProps Instances FilterSpec Compiler.

Section types.
Context {RX : RegexLib} {NL : IpNetLib} {US : UnstableSort}.

(** Each field fits its Rust type, and what it points to is there. *)
Record record_typed (e : FilterEngine) (r : RuleRecord) : Prop := {
  rt_raw_start : in_u 32 (raw_start r);
  rt_dom_or_re : in_u 32 (dom_or_re r);
  rt_mods_idx : in_u 32 (mods_idx r);
  rt_raw_len : in_u 16 (raw_len r);
  rt_list_id : in_u 16 (rec_list_id r);
  rt_dom_len : in_u 8 (dom_len r);
  rt_raw : (raw_start r + raw_len r <= Z.of_nat (length (raw_arena e)))%Z;
  rt_mods : mods_idx r = NO_MODS ∨ (mods_idx r < Z.of_nat (length (fe_mods e)))%Z;
  rt_pattern : ((kind r = KIND_EXACT ∨ kind r = KIND_SUBDOMAIN)
                ∧ (dom_or_re r + dom_len r <= Z.of_nat (length (domain_arena e)))%Z)
               ∨ ((kind r = KIND_WILDCARD ∨ kind r = KIND_REGEX) ∧ (dom_or_re r < Z.of_nat (length (regexes e)))%Z);
}.
(** An id names a rule of one of the kinds [ks]. *)
Definition names (e : FilterEngine) (ks : list Z) (id : Z) : Prop :=
  ∃ i r, id = Z.of_nat i ∧ rules e !! i = Some r ∧ kind r ∈ ks.
Definition index_typed (e : FilterEngine) (k : Z) (ix : DomainIndex) : Prop :=
  ∀ h, ∃ ids, di_get ix h = Some ids ∧ Forall (names e [k]) ids.
Definition scan_typed (e : FilterEngine) (g : ScanGroup) : Prop :=
  Forall (names e [KIND_WILDCARD; KIND_REGEX]) (fallback_individual g)
  ∧ Forall (λ s, Forall (names e [KIND_WILDCARD; KIND_REGEX]) s.2) (fallback_sets g)
  ∧ ∀ t, Forall (names e [KIND_WILDCARD; KIND_REGEX]) (bucket (scan_index g) t).
Record engine_typed (e : FilterEngine) : Prop := {
  et_rules : Forall (record_typed e) (rules e);
  et_exact : index_typed e KIND_EXACT (exact e);
  et_subdomain : index_typed e KIND_SUBDOMAIN (subdomain e);
  et_override : scan_typed e (override_scan e);
  et_block : scan_typed e (block_scan e);
}.

Section proofs.
Context (dhash : bytes → Z) brs (e : FilterEngine) (Hok : rules_ok brs) (He : engine_of dhash brs e).

Lemma arena_bound (f : BuildRule → bytes) i br : brs !! i = Some br →
  length (mjoin (f <$> take i brs)) + length (f br) ≤ length (mjoin (f <$> brs)).
Proof.
  intros Hi. rewrite (arena_split brs f i br Hi), join_app. rewrite length_app.
  change (mjoin (?a :: ?l)) with (a ++ mjoin l). rewrite length_app. lia.
Qed.
Lemma table_bound {B} (f : BuildRule → option B) i br y : brs !! i = Some br → f br = Some y →
  length (omap f (take i brs)) < length (omap f brs).
Proof. intros Hi Hy. eapply lookup_lt_Some. by apply (omap_lookup_take f brs i br y). Qed.
Lemma record_typed_at i br : brs !! i = Some br → record_typed e (record_of (take i brs) br).
Proof.
  intros Hi. pose proof (ro_sizes _ Hok) as [S1 S2 S3].
  pose proof (arena_bound (λ br, raw (rule br)) i br Hi) as Hraw. pose proof (arena_bound rule_domain i br Hi) as Hdom.
  fold (raws brs) (raws (take i brs)) in Hraw. fold (doms brs) (doms (take i brs)) in Hdom.
  pose proof (omap_length (λ br, mods (rule br)) brs) as Lm. pose proof (omap_length rule_regex brs) as Lr.
  fold (all_mods brs) in Lm. fold (all_regexes brs) in Lr.
  assert (Hm : mods (rule br) = None ∨ length (all_mods (take i brs)) < length (all_mods brs)).
  { destruct (mods (rule br)) as [m|] eqn:Em; [right|by left]. by apply (table_bound (λ br, mods (rule br)) i br m). }
  assert (Hr : rule_regex br = None ∨ length (all_regexes (take i brs)) < length (all_regexes brs)).
  { destruct (rule_regex br) as [re|] eqn:Er; [right|by left]. by apply (table_bound rule_regex i br re). }
  assert (Hlen : length (rule_domain br) ≤ 255) by (pose proof (ro_dom_len _ Hok) as H; rewrite Forall_lookup in H; eauto).
  assert (W : wrap 8 (Z.of_nat (length (rule_domain br))) = Z.of_nat (length (rule_domain br))) by (apply wrap_small; unfold in_u; lia).
  unfold U32_MAX in *. constructor; cbn [record_of raw_start dom_or_re mods_idx raw_len rec_list_id dom_len kind]; rewrite ?W;
    rewrite ?(eo_raw _ _ _ He), ?(eo_dom _ _ _ He), ?(eo_mods _ _ _ He), ?(eo_regexes _ _ _ He).
  - unfold in_u. lia.
  - unfold in_u. destruct (rule_regex br); [destruct Hr; [done|]|]; lia.
  - unfold in_u, NO_MODS, U32_MAX. destruct (mods (rule br)); [destruct Hm; [done|]|]; lia.
  - unfold in_u, U16_MAX. lia.
  - apply wrap_in_u. lia.
  - unfold in_u. lia.
  - unfold U16_MAX. lia.
  - destruct (mods (rule br)); [right|by left]. destruct Hm; [done|lia].
  - unfold rule_regex, rule_kind, rule_domain in *. destruct (pattern (rule br)); simpl in *;
      [left; split; [by auto|lia]|left; split; [by auto|lia]|right; split; [by auto|destruct Hr; [done|lia]]
      |right; split; [by auto|destruct Hr; [done|lia]]].
Qed.
Lemma names_at ks i br : brs !! i = Some br → rule_kind br ∈ ks → names e ks (Z.of_nat i).
Proof. intros Hi Hk. exists i, (record_of (take i brs) br). split_and!; [done|by eapply record_at|done]. Qed.
(** An index built from the rules with a pattern of kind [k] yields ids of such rules. *)
Lemma index_typed_di k (f : nat → BuildRule → option (Z * Z)) :
  (∀ i br h id, f i br = Some (h, id) → id = Z.of_nat i ∧ rule_kind br = k) → index_typed e k (di_build (entries f brs)).
Proof.
  intros Hf h. destruct (di_get_spec (entries f brs) h) as (ids & E & Hids).
  { pose proof (length_entries f brs). pose proof (sz_rules _ (ro_sizes _ Hok)). unfold U32_MAX in *. lia. }
  exists ids. split; [done|]. apply Forall_forall. intros id Hid. apply Hids, entries_elem in Hid as (i & br & Hi & Hfi).
  destruct (Hf _ _ _ _ Hfi) as [-> Hk]. apply (names_at _ i br Hi). rewrite Hk. by left.
Qed.
Lemma scan_typed_group o b g : group_ok (rules e) (regexes e) (entries (scan_entry o) brs) b g → scan_typed e g.
Proof.
  intros Hg. assert (Hn : ∀ id, id ∈ (entries (scan_entry o) brs).*1 → names e [KIND_WILDCARD; KIND_REGEX] id).
  { intros id Hid. apply list_elem_of_fmap in Hid as ([id' toks] & -> & Hin). apply entries_elem in Hin as (i & br & Hi & Hs).
    unfold scan_entry in Hs. destruct (rule_regex br) as [re|] eqn:Er; [|done]. case_bool_decide; [|done]. injection Hs as <- _.
    apply (names_at _ i br Hi). unfold rule_regex, rule_kind in *. destruct (pattern (rule br)); try done; set_solver. }
  split_and!.
  - apply Forall_forall. intros id Hid. apply Hn, (go_ids _ _ _ _ _ Hg). by left.
  - apply Forall_forall. intros s Hs. apply Forall_forall. intros id Hid. apply Hn, (go_ids _ _ _ _ _ Hg). right. left. by exists s.
  - intros t. apply Forall_forall. intros id Hid. apply Hn, (go_ids _ _ _ _ _ Hg). right. right. by exists t.
Qed.
Lemma engine_of_typed : engine_typed e.
Proof.
  constructor.
  - apply Forall_lookup. intros i r Hr. rewrite (eo_rules _ _ _ He), list_lookup_imap in Hr.
    destruct (brs !! i) as [br|] eqn:Hi; [|done]. injection Hr as <-. by apply record_typed_at.
  - rewrite (eo_exact _ _ _ He). apply index_typed_di. intros i br h id. unfold exact_entry, rule_kind.
    destruct (pattern (rule br)); try done. by intros [= _ <-].
  - rewrite (eo_sub _ _ _ He). apply index_typed_di. intros i br h id. unfold sub_entry, rule_kind.
    destruct (pattern (rule br)); try done. by intros [= _ <-].
  - exact (scan_typed_group _ _ _ (eo_override _ _ _ He)).
  - exact (scan_typed_group _ _ _ (eo_block _ _ _ He)).
Qed.
End proofs.

(** C24: the compiled engine is well typed.  For filter lists that fit the limits the compiler
    builds an engine in which every field of every rule record is within its machine width
    and points inside the arena or table it refers to, by the kind of the rule, and in which
    every lookup of a domain index stays in range and every id an index or scan group yields
    is that of a rule of the kind the index is for. *)
Theorem compiled_engine_typed {GL : GlobLaws RX} (dhash : bytes → Z) (chash : list (bytes * Z * Action) → Z)
    (ls : list (Z * bytes * bytes)) :
  let c := add_lists compiler_new ls in
  ascii_lists ls → limits_ok (prune_redundant (active_rules c)) →
  ∃ e, build dhash chash c = Some (e, c_stats c) ∧ engine_typed e ∧ length (rules e) = length (prune_redundant (active_rules c)).
Proof.
  intros c Hls Hlim. pose proof (compiled_rules_ok ls Hls Hlim) as Hok. fold c in Hok.
  destruct (from_rules_engine dhash chash _ Hok) as (e & Eb & He). exists e. unfold build. rewrite Eb. split; [done|].
  split; [by eapply engine_of_typed|]. rewrite (eo_rules _ _ _ He). apply length_imap.
Qed.
End types.

Lemma compiled_engine_typed_witness :
  ∃ e, build demo_hash (λ _, 0%Z) (add_lists compiler_new demo_lists) = Some (e, c_stats (add_lists compiler_new demo_lists))
    ∧ engine_typed e ∧ length (rules e) = 3.
Proof.
  assert (Ha : ascii_lists demo_lists) by (repeat constructor).
  destruct (compiled_engine_typed demo_hash (λ _, 0%Z) demo_lists Ha) as (e & Eb & He & Hlen).
  { apply fits_engine_ok. vm_compute. reflexivity. }
  exists e. split; [exact Eb|]. split; [exact He|]. rewrite Hlen. vm_compute. reflexivity.
Defined.
