(* ===== verification/Wire.v ===== *)
(** * bulwark-engine: DNS wire scanning ([crates/bulwark-engine/src/wire.rs]).

    Buffers are byte lists and positions natural numbers.  A computation ends early either
    because the source returns [None] ([Absent]) or because it would panic ([Panicked]): an
    index [buf[i]] out of range, or a loop that outlives its fuel.  The theorems show that
    [Panicked] never happens. *)
From Stdlib Require Import Ascii.
From S2P Require Import Prelude RustStr.

Definition TYPE_OPT : Z := 41.

Inductive stop : Type := Absent | Panicked.
Definition outcome_of {A} (m : result A stop) : option A := result_ok m.

(** [buf.get(pos)?], [buf[pos]] and [a.checked_add(b)?]. *)
Definition get (buf : bytes) (pos : nat) : result byte stop := ok_or (buf !! pos) Absent.
Definition index (buf : bytes) (pos : nat) : result byte stop := ok_or (buf !! pos) Panicked.
Definition cadd (a b : nat) : result nat stop := ok_or (checked_add a b) Absent.

(** [u16::from_be_bytes([buf[p], buf[p + 1]])]. *)
Definition be16 (hi lo : byte) : Z := (u8 hi * 256 + u8 lo)%Z.
Definition index16 (buf : bytes) (p : nat) : result Z stop :=
  let? a := index buf p in
  let? b := index buf (p + 1) in
  Ok (be16 a b).
(** [u16::to_be_bytes] and [u32::to_be_bytes]. *)
Definition be_bytes2 (z : Z) : bytes := [byte_of (z / 256); byte_of z].
Definition be_bytes4 (z : Z) : bytes :=
  [byte_of (z / 16777216); byte_of (z / 65536); byte_of (z / 256); byte_of z].

(** [skip_name]; every iteration moves forward, so [length buf] bounds the iterations. *)
Fixpoint skip_name_loop (fuel : nat) (buf : bytes) (pos : nat) : result nat stop :=
  match fuel with
  | 0 => Err Panicked
  | S fuel =>
      let? b := get buf pos in
      let m := Z.land (u8 b) 192 in
      if (m =? 0)%Z then
        if (u8 b =? 0)%Z then Ok (pos + 1)
        else let? pos := cadd pos (1 + Z.to_nat (u8 b)) in skip_name_loop fuel buf pos
      else if (m =? 192)%Z then cadd pos 2
      else Err Absent
  end.
Definition skip_name (buf : bytes) (pos : nat) : result nat stop :=
  skip_name_loop (S (S (length buf))) buf pos.

(** The question loop and the record loop of [scan_ttl_offsets]. *)
Fixpoint skip_questions (n : nat) (buf : bytes) (pos : nat) : result nat stop :=
  match n with
  | 0 => Ok pos
  | S n =>
      let? pos := skip_name buf pos in
      let? pos := cadd pos 4 in
      if length buf <? pos then Err Absent else skip_questions n buf pos
  end.
(** The fixed part of a record at [pos]: type, and the position after its data. *)
Definition record_at_pos (buf : bytes) (pos : nat) : result (Z * nat) stop :=
  let? e := cadd pos 10 in
  if length buf <? e then Err Absent
  else
    let? rtype := index16 buf pos in
    let? rdlen := index16 buf (pos + 8) in
    let? next := cadd pos (10 + Z.to_nat rdlen) in
    if length buf <? next then Err Absent else Ok (rtype, next).
Fixpoint scan_records (n : nat) (buf : bytes) (pos : nat) : result (list Z) stop :=
  match n with
  | 0 => Ok []
  | S n =>
      let? pos := skip_name buf pos in
      let? (rtype, next) := record_at_pos buf pos in
      let? rest := scan_records n buf next in
      Ok (if (rtype =? TYPE_OPT)%Z then rest else wrap 32 (Z.of_nat (pos + 4)) :: rest)
  end.

(** [scan_ttl_offsets]. *)
Definition header_counts (buf : bytes) : result (nat * nat * nat * nat) stop :=
  let? qd := index16 buf 4 in
  let? an := index16 buf 6 in
  let? ns := index16 buf 8 in
  let? ar := index16 buf 10 in
  Ok (Z.to_nat qd, Z.to_nat an, Z.to_nat ns, Z.to_nat ar).
Definition scan_ttl_offsets_r (buf : bytes) : result (list Z) stop :=
  if length buf <? 12 then Err Absent
  else
    let? (qd, an, ns, ar) := header_counts buf in
    let? pos := skip_questions qd buf 12 in
    let? n := cadd an ns in
    let? rr_count := cadd n ar in
    scan_records rr_count buf pos.
Definition scan_ttl_offsets (buf : bytes) : option (list Z) := outcome_of (scan_ttl_offsets_r buf).

(** [patch]: an offset whose four bytes are not in the buffer is skipped. *)
Definition write_at (buf : bytes) (o : nat) (l : bytes) : bytes :=
  if o + length l <=? length buf then take o buf ++ l ++ drop (o + length l) buf else buf.
Definition patch (buf : bytes) (id ttl : Z) (ttl_offsets : list Z) : bytes :=
  let buf := write_at buf 0 (be_bytes2 id) in
  foldl (λ buf off, write_at buf (Z.to_nat off) (be_bytes4 ttl)) buf ttl_offsets.

(** [ParsedQuery]. *)
Record ParsedQuery : Type := {
  pq_id : Z;
  pq_recursion_desired : bool;
  pq_checking_disabled : bool;
  pq_opcode : Z;
  pq_qname : bytes;
  pq_qtype : Z;
  pq_qclass : Z;
  pq_edns_payload : option Z;
  pq_dnssec_ok : bool;
}.

(** [read_question_name]. *)
Definition safe_char (j : nat) (c : byte) : bool :=
  is_ascii_alphanumeric c || bool_decide (c = "_"%char)
  || (bool_decide (c = "-"%char) && negb (j =? 0)) || (bool_decide (c = "*"%char) && (j =? 0)).
Definition safe_label (l : bytes) : bool := forallb id (imap safe_char l).
Definition get_range (buf : bytes) (a b : nat) : result bytes stop :=
  if (a <=? b) && (b <=? length buf) then Ok (take (b - a) (drop a buf)) else Err Absent.
Fixpoint read_name_loop (fuel : nat) (buf : bytes) (start pos : nat) (name : bytes)
  : result (bytes * nat) stop :=
  match fuel with
  | 0 => Err Panicked
  | S fuel =>
      let? b := get buf pos in
      if (Z.land (u8 b) 192 =? 0)%Z then
        if (u8 b =? 0)%Z then
          if 255 <? pos + 1 - start then Err Absent
          else Ok (if name is [] then bs "." else name, pos + 1)
        else
          let? lend := cadd (pos + 1) (Z.to_nat (u8 b)) in
          let? label := get_range buf (pos + 1) lend in
          if safe_label label then read_name_loop fuel buf start lend (name ++ label ++ bs ".")
          else Err Absent
      else Err Absent
  end.
Definition read_question_name (buf : bytes) (start : nat) : result (bytes * nat) stop :=
  read_name_loop (S (S (length buf))) buf start start [].

(** The record loop of [parse_query]: the EDNS fields found so far are threaded. *)
Fixpoint edns_loop (n idx additional_start : nat) (buf : bytes) (pos : nat)
    (edns : option Z) (dnssec_ok : bool) : result (option Z * bool) stop :=
  match n with
  | 0 => Ok (edns, dnssec_ok)
  | S n =>
      let? pos := skip_name buf pos in
      let? e := cadd pos 10 in
      if length buf <? e then Err Absent
      else
        let? rtype := index16 buf pos in
        let? (edns, dnssec_ok) :=
          if (rtype =? TYPE_OPT)%Z then
            if (idx <? additional_start) || (if edns is Some _ then true else false) then Err Absent
            else
              let? payload := index16 buf (pos + 2) in
              let? f := index buf (pos + 6) in
              Ok (Some payload, negb (Z.land (u8 f) 128 =? 0)%Z)
          else Ok (edns, dnssec_ok) in
        let? rdlen := index16 buf (pos + 8) in
        let? next := cadd pos (10 + Z.to_nat rdlen) in
        if length buf <? next then Err Absent
        else edns_loop n (S idx) additional_start buf next edns dnssec_ok
  end.

(** [parse_query]. *)
Definition parse_query_r (buf : bytes) : result ParsedQuery stop :=
  if length buf <? 12 then Err Absent
  else
    let? id := index16 buf 0 in
    let? b2 := index buf 2 in
    let? b3 := index buf 3 in
    let? (qd, an, ns, ar) := header_counts buf in
    if negb (qd =? 1) then Err Absent
    else
      let? (qname, pos) := read_question_name buf 12 in
      let? e := cadd pos 4 in
      if length buf <? e then Err Absent
      else
        let? qtype := index16 buf pos in
        let? qclass := index16 buf (pos + 2) in
        let? additional_start := cadd an ns in
        let? total := cadd additional_start ar in
        let? (edns, dnssec_ok) := edns_loop total 0 additional_start buf (pos + 4) None false in
        Ok {| pq_id := id;
              pq_recursion_desired := negb (Z.land (u8 b2) 1 =? 0)%Z;
              pq_checking_disabled := negb (Z.land (u8 b3) 16 =? 0)%Z;
              pq_opcode := Z.land (Z.shiftr (u8 b2) 3) 15;
              pq_qname := qname; pq_qtype := qtype; pq_qclass := qclass;
              pq_edns_payload := edns; pq_dnssec_ok := dnssec_ok |}.
Definition parse_query (buf : bytes) : option ParsedQuery := outcome_of (parse_query_r buf).

(** ** No panics *)

Definition no_panic {A} (m : result A stop) : Prop := m ≠ Err Panicked.

Lemma no_panic_bind {A B} (m : result A stop) (k : A → result B stop) :
  no_panic m → (∀ a, m = Ok a → no_panic (k a)) → no_panic (result_bind m k).
Proof. unfold no_panic. destruct m as [a|[]]; simpl; auto. Qed.
Lemma no_panic_if {A} (b : bool) (x y : result A stop) :
  (b = true → no_panic x) → (b = false → no_panic y) → no_panic (if b then x else y).
Proof. destruct b; auto. Qed.
Lemma no_panic_ok {A} (a : A) : no_panic (Ok a).
Proof. done. Qed.
Lemma no_panic_absent {A} : no_panic (A:=A) (Err Absent).
Proof. done. Qed.
Lemma no_panic_get buf p : no_panic (get buf p).
Proof. unfold get. by destruct (buf !! p). Qed.
Lemma no_panic_cadd a b : no_panic (cadd a b).
Proof. unfold cadd. by destruct (checked_add a b). Qed.
Lemma no_panic_get_range buf a b : no_panic (get_range buf a b).
Proof. unfold get_range. by destruct (_ && _). Qed.
Lemma no_panic_index buf p : p < length buf → no_panic (index buf p).
Proof. intros H. unfold index. destruct (lookup_lt_is_Some_2 buf p H) as [b ->]. done. Qed.
Lemma no_panic_index16 buf p : p + 1 < length buf → no_panic (index16 buf p).
Proof.
  intros H. apply no_panic_bind; [apply no_panic_index; lia|]. intros a _.
  apply no_panic_bind; [by apply no_panic_index|done].
Qed.
#[export] Hint Resolve no_panic_ok no_panic_absent no_panic_get no_panic_cadd no_panic_get_range : bulwark.

Lemma cadd_ok a b c : cadd a b = Ok c → c = a + b.
Proof. unfold cadd. destruct (checked_add a b) eqn:E; intros [= <-]. by apply checked_add_Some. Qed.
Lemma get_ok buf p b : get buf p = Ok b ↔ buf !! p = Some b.
Proof. unfold get. destruct (buf !! p); simpl; naive_solver. Qed.
Lemma index_ok buf p b : index buf p = Ok b ↔ buf !! p = Some b.
Proof. unfold index. destruct (buf !! p); simpl; naive_solver. Qed.

(** Inverts successful computations. *)
Ltac inv_ok :=
  repeat match goal with
  | H : result_bind ?m _ = Ok _ |- _ => let E := fresh "E" in destruct m eqn:E; simpl in H; [|discriminate H]
  | H : (if ?c then Err _ else _) = Ok _ |- _ => let E := fresh "E" in destruct c eqn:E; [discriminate H|]
  | H : Ok _ = Ok _ |- _ => injection H as H; try subst
  | H : cadd _ _ = Ok _ |- _ => apply cadd_ok in H
  | H : (_ <? _) = false |- _ => apply Nat.ltb_ge in H
  end.

(** Steps through a computation, keeping the equations of the intermediate results. *)
Ltac np_step :=
  match goal with
  | |- no_panic (result_bind _ _) => apply no_panic_bind; [|intros ? ?]
  | |- no_panic (if _ then _ else _) => apply no_panic_if; intros ?
  | |- no_panic (index _ _) => apply no_panic_index
  | |- no_panic (index16 _ _) => apply no_panic_index16
  | |- no_panic (match ?p with _ => _ end) => destruct p
  | |- no_panic _ => solve [auto with bulwark]
  | |- _ < _ => lia
  end; inv_ok.

Lemma skip_name_no_panic fuel buf pos :
  length buf < fuel + pos → 0 < fuel → no_panic (skip_name_loop fuel buf pos).
Proof.
  revert pos. induction fuel as [|fuel IH]; intros pos Hf H0; [lia|]. cbn [skip_name_loop].
  np_step; [np_step|]. rename a into b.
  match goal with H : get _ _ = _ |- _ => apply get_ok, lookup_lt_Some in H end.
  cbv zeta. repeat np_step. apply IH; lia.
Qed.

Lemma no_panic_skip_name buf pos : no_panic (skip_name buf pos).
Proof. apply skip_name_no_panic; lia. Qed.
#[export] Hint Resolve no_panic_skip_name : bulwark.

Lemma no_panic_record_at_pos buf pos : no_panic (record_at_pos buf pos).
Proof. unfold record_at_pos. repeat np_step. Qed.
#[export] Hint Resolve no_panic_record_at_pos : bulwark.

Lemma no_panic_skip_questions n buf pos : no_panic (skip_questions n buf pos).
Proof. revert pos. induction n as [|n IH]; intros pos; simpl; repeat np_step. Qed.

Lemma no_panic_scan_records n buf pos : no_panic (scan_records n buf pos).
Proof. revert pos. induction n as [|n IH]; intros pos; simpl; repeat np_step. Qed.

Lemma no_panic_header buf : 12 ≤ length buf → no_panic (header_counts buf).
Proof. intros. unfold header_counts. repeat np_step. Qed.
#[export] Hint Resolve no_panic_skip_questions no_panic_scan_records no_panic_header : bulwark.

Lemma no_panic_scan buf : no_panic (scan_ttl_offsets_r buf).
Proof. unfold scan_ttl_offsets_r. repeat np_step. Qed.

Lemma no_panic_read_name fuel buf start pos name :
  length buf < fuel + pos → 0 < fuel → no_panic (read_name_loop fuel buf start pos name).
Proof.
  revert pos name. induction fuel as [|fuel IH]; intros pos name Hf H0; [lia|]. cbn [read_name_loop].
  np_step; [np_step|]. rename a into b.
  match goal with H : get _ _ = _ |- _ => apply get_ok, lookup_lt_Some in H end.
  repeat np_step. apply IH; lia.
Qed.

Lemma no_panic_question buf pos : no_panic (read_question_name buf pos).
Proof. apply no_panic_read_name; lia. Qed.

Lemma no_panic_edns_loop n idx a buf pos edns dok : no_panic (edns_loop n idx a buf pos edns dok).
Proof.
  revert idx pos edns dok. induction n as [|n IH]; intros idx pos edns dok; [done|]. cbn [edns_loop].
  repeat np_step.
Qed.
#[export] Hint Resolve no_panic_question no_panic_edns_loop : bulwark.

Lemma no_panic_parse_query buf : no_panic (parse_query_r buf).
Proof. unfold parse_query_r. repeat np_step. Qed.

(** ** Patching *)

Lemma write_at_length buf o l : length (write_at buf o l) = length buf.
Proof.
  unfold write_at. destruct (Nat.leb_spec (o + length l) (length buf)); [|done].
  rewrite !length_app, length_take, length_drop. lia.
Qed.

Lemma write_at_lookup buf o l i :
  o + length l ≤ length buf →
  write_at buf o l !! i = if (o <=? i) && (i <? o + length l) then l !! (i - o) else buf !! i.
Proof.
  intros H. unfold write_at. rewrite (proj2 (Nat.leb_le _ _) H).
  destruct (Nat.leb_spec o i), (Nat.ltb_spec i (o + length l)); simpl; try lia.
  - rewrite lookup_app_r, lookup_app_l; rewrite length_take; try lia. f_equal. lia.
  - rewrite lookup_app_r, lookup_app_r; rewrite ?length_take; try lia. rewrite lookup_drop. f_equal. lia.
  - by rewrite lookup_app_l, lookup_take_lt by (rewrite ?length_take; lia).
Qed.

Lemma write_at_outside buf o l i : i < o ∨ o + length l ≤ i → write_at buf o l !! i = buf !! i.
Proof.
  intros H. unfold write_at. destruct (Nat.leb_spec (o + length l) (length buf)) as [Hl|]; [|done].
  pose proof (write_at_lookup buf o l i Hl) as E. unfold write_at in E.
  rewrite (proj2 (Nat.leb_le _ _) Hl) in E. rewrite E.
  destruct (Nat.leb_spec o i), (Nat.ltb_spec i (o + length l)); simpl; done || lia.
Qed.

(** Position [i] belongs to the TTL field at one of the offsets. *)
Definition in_field (offs : list Z) (i : nat) : Prop :=
  ∃ o, o ∈ offs ∧ Z.to_nat o ≤ i < Z.to_nat o + 4.

Definition put_ttl (ttl : Z) (buf : bytes) (off : Z) : bytes := write_at buf (Z.to_nat off) (be_bytes4 ttl).

Lemma put_ttls_length ttl offs buf : length (foldl (put_ttl ttl) buf offs) = length buf.
Proof. revert buf. induction offs as [|o offs IH]; intros buf; simpl; [done|]. rewrite IH. apply write_at_length. Qed.

Lemma put_ttls_outside ttl offs buf i :
  ¬ in_field offs i → foldl (put_ttl ttl) buf offs !! i = buf !! i.
Proof.
  revert buf. induction offs as [|o offs IH]; intros buf Hi; simpl; [done|].
  rewrite IH by (intros (o' & ? & ?); apply Hi; exists o'; set_solver).
  apply write_at_outside. simpl.
  destruct (decide (i < Z.to_nat o)); [by left|]. right.
  destruct (decide (Z.to_nat o + 4 ≤ i)); [done|]. exfalso. apply Hi. exists o. split; [set_solver|lia].
Qed.

(** Offsets far enough apart that their fields do not overlap. *)
Definition spaced (offs : list Z) : Prop := StronglySorted (λ a b, Z.to_nat a + 4 ≤ Z.to_nat b) offs.

Lemma put_ttls_inside ttl offs buf o i :
  spaced offs → Forall (λ o, Z.to_nat o + 4 ≤ length buf) offs → o ∈ offs → i < 4 →
  foldl (put_ttl ttl) buf offs !! (Z.to_nat o + i) = be_bytes4 ttl !! i.
Proof.
  intros Hs. revert buf. induction Hs as [|o' offs Hs IH Hh]; intros buf Hf Ho Hi; [by apply elem_of_nil in Ho|].
  apply Forall_cons in Hf as [Hf1 Hf2]. simpl. apply elem_of_cons in Ho as [->|Ho].
  - rewrite put_ttls_outside.
    + unfold put_ttl. rewrite write_at_lookup by (simpl; lia). simpl length.
      rewrite (proj2 (Nat.leb_le _ _)), (proj2 (Nat.ltb_lt _ _)) by lia. simpl. f_equal. lia.
    + intros (x & Hx & ?). rewrite Forall_forall in Hh. specialize (Hh x Hx). lia.
  - apply IH; [|done|done]. unfold put_ttl. by setoid_rewrite write_at_length.
Qed.

(** ** What the scan reads *)

Lemma skip_name_agree fuel buf buf' pos p :
  skip_name_loop fuel buf pos = Ok p → (∀ i, pos ≤ i < p → buf !! i = buf' !! i) →
  pos < p ∧ skip_name_loop fuel buf' pos = Ok p.
Proof.
  revert pos. induction fuel as [|fuel IH]; intros pos H Hagree; [done|]. cbn [skip_name_loop] in *.
  destruct (get buf pos) as [b|] eqn:Eb; [|done]. cbn [result_bind] in H.
  assert (Hlt : pos < p).
  { destruct (_ =? 0)%Z in H; [destruct (_ =? 0)%Z in H|destruct (_ =? 192)%Z in H].
    - inv_ok. lia.
    - inv_ok. destruct (le_lt_dec p pos); [|done]. apply IH in H as [? _]; [lia|]. intros; lia.
    - inv_ok. lia.
    - done. }
  split; [done|]. assert (Eb' : get buf' pos = Ok b).
  { apply get_ok. rewrite <- Hagree by lia. by apply get_ok. }
  rewrite Eb'. cbn [result_bind]. destruct (_ =? 0)%Z; [destruct (_ =? 0)%Z|by destruct (_ =? 192)%Z].
  - done.
  - destruct (cadd _ _) as [q|] eqn:Eq; [|done]. cbn [result_bind] in *.
    apply (IH q H). intros i Hi. apply Hagree. apply cadd_ok in Eq. lia.
Qed.

Lemma index16_agree buf buf' p : buf !! p = buf' !! p → buf !! (p + 1) = buf' !! (p + 1) →
  index16 buf p = index16 buf' p.
Proof. unfold index16, index. by intros -> ->. Qed.

Lemma record_at_pos_ok buf p ty next :
  record_at_pos buf p = Ok (ty, next) → p + 10 ≤ next ≤ length buf.
Proof. unfold record_at_pos. intros H. inv_ok. lia. Qed.

Lemma record_at_pos_agree buf buf' p :
  length buf = length buf' →
  (∀ i, p ≤ i < p + 10 → ¬ (p + 4 ≤ i < p + 8) → buf !! i = buf' !! i) →
  record_at_pos buf p = record_at_pos buf' p.
Proof.
  intros Hl H. unfold record_at_pos. rewrite Hl.
  by rewrite (index16_agree buf buf' p), (index16_agree buf buf' (p + 8)) by (apply H; lia).
Qed.

Lemma scan_records_bounds n buf pos offs :
  (Z.of_nat (length buf) < 2 ^ 32)%Z → scan_records n buf pos = Ok offs →
  Forall (λ o, pos + 4 < Z.to_nat o ∧ Z.to_nat o + 6 ≤ length buf) offs ∧ spaced offs.
Proof.
  intros Hb. revert pos offs. induction n as [|n IH]; intros pos offs H; simpl in H.
  { inv_ok. by split; constructor. }
  destruct (skip_name buf pos) as [p|] eqn:Ep; [|done]. cbn [result_bind] in H.
  destruct (record_at_pos buf p) as [[ty next]|] eqn:Er; [|done]. cbn [result_bind] in H.
  destruct (scan_records n buf next) as [rest|] eqn:Es; [|done]. cbn [result_bind] in H.
  apply (skip_name_agree _ buf buf) in Ep as [Hp _]; [|done]. apply record_at_pos_ok in Er.
  destruct (IH _ _ Es) as [Hr Hs].
  assert (Hr' : Forall (λ o, pos + 4 < Z.to_nat o ∧ Z.to_nat o + 6 ≤ length buf) rest).
  { eapply Forall_impl; [exact Hr|]. simpl. intros. lia. }
  destruct (_ =? _)%Z; inv_ok; [done|].
  assert (W : wrap 32 (Z.of_nat (p + 4)) = Z.of_nat (p + 4)) by (apply wrap_small; unfold in_u; lia).
  rewrite W. split; constructor; try done.
  - lia.
  - eapply Forall_impl; [exact Hr|]. simpl. intros. lia.
Qed.

Lemma scan_records_agree n buf buf' pos offs :
  (Z.of_nat (length buf) < 2 ^ 32)%Z → length buf = length buf' →
  scan_records n buf pos = Ok offs →
  (∀ i, pos ≤ i → ¬ in_field offs i → buf !! i = buf' !! i) →
  scan_records n buf' pos = Ok offs.
Proof.
  intros Hb Hl. revert pos offs. induction n as [|n IH]; intros pos offs H Hagree; [done|].
  pose proof (scan_records_bounds _ _ _ _ Hb H) as [Hbd _]. simpl in H |- *.
  destruct (skip_name buf pos) as [p|] eqn:Ep; [|done]. cbn [result_bind] in H.
  destruct (record_at_pos buf p) as [[ty next]|] eqn:Er; [|done]. cbn [result_bind] in H.
  destruct (scan_records n buf next) as [rest|] eqn:Es; [|done]. cbn [result_bind] in H.
  pose proof (scan_records_bounds _ _ _ _ Hb Es) as [Hrest _].
  pose proof (record_at_pos_ok _ _ _ _ Er) as Hnext.
  assert (Hpos : pos < p) by (by apply (skip_name_agree _ buf buf _ _ Ep)).
  assert (W : wrap 32 (Z.of_nat (p + 4)) = Z.of_nat (p + 4)) by (apply wrap_small; unfold in_u; lia).
  rewrite W in *.
  (* fields of the remaining records lie beyond [next] *)
  assert (Hfar : ∀ i, i < next → ¬ in_field rest i).
  { intros i Hi (o & Ho & ?). rewrite Forall_forall in Hrest. specialize (Hrest o Ho). simpl in Hrest. lia. }
  assert (Hhere : ∀ i, pos ≤ i < next → ¬ (p + 4 ≤ i < p + 8) → buf !! i = buf' !! i).
  { intros i Hi Hn. apply Hagree; [lia|]. destruct (_ =? _)%Z; injection H as <-; [by apply Hfar; lia|].
    intros (o & [->|Ho]%elem_of_cons & ?); [lia|]. apply (Hfar i); [lia|]. by exists o. }
  assert (Ep' : skip_name buf' pos = Ok p).
  { unfold skip_name in *. rewrite <- Hl. apply (skip_name_agree _ buf buf'); [done|].
    intros i Hi. apply Hhere; lia. }
  rewrite Ep'. cbn [result_bind]. rewrite <- (record_at_pos_agree buf buf' p) by (done || (intros; apply Hhere; lia)).
  rewrite Er. cbn [result_bind]. rewrite (IH next rest Es); [cbn [result_bind]; by rewrite W|].
  intros i Hi Hn. destruct (decide (i < p + 8)); [lia|]. apply Hagree; [lia|].
  destruct (_ =? _)%Z; injection H as <-; [done|].
  intros (o & [->|Ho]%elem_of_cons & ?); [lia|]. apply Hn. by exists o.
Qed.

Lemma skip_questions_agree n buf buf' pos p :
  length buf = length buf' → skip_questions n buf pos = Ok p →
  (∀ i, pos ≤ i < p → buf !! i = buf' !! i) → pos ≤ p ∧ skip_questions n buf' pos = Ok p.
Proof.
  intros Hl. revert pos. induction n as [|n IH]; intros pos H Hagree; simpl in *; [inv_ok; split; [lia|done]|].
  destruct (skip_name buf pos) as [q|] eqn:Eq; [|done]. cbn [result_bind] in H.
  destruct (cadd q 4) as [r|] eqn:Er; [|done]. cbn [result_bind] in H.
  destruct (_ <? _) eqn:El in H; [done|]. pose proof (cadd_ok _ _ _ Er) as ->.
  assert (Hrp : q + 4 ≤ p).
  { destruct (le_lt_dec (q + 4) p); [done|]. apply IH in H as [? _]; [lia|]. intros; lia. }
  assert (Hq : pos < q) by (by apply (skip_name_agree _ buf buf _ _ Eq)).
  split; [lia|]. unfold skip_name in *. rewrite <- Hl.
  destruct (skip_name_agree _ buf buf' _ _ Eq) as [_ ->]; [intros; apply Hagree; lia|].
  cbn [result_bind]. rewrite Er. cbn [result_bind]. rewrite El.
  apply IH; [done|]. intros. apply Hagree. lia.
Qed.

Lemma be16_bytes id : in_u 16 id → be16 (byte_of (id / 256)) (byte_of id) = id.
Proof.
  unfold in_u, be16. intros H. rewrite !u8_byte_of. rewrite (Z.mod_small (id / 256)).
  - pose proof (Z.div_mod id 256). lia.
  - split; [apply Z.div_pos; lia|apply Z.div_lt_upper_bound; lia].
Qed.

Definition be32 (l : bytes) : Z := foldl (λ z b, z * 256 + u8 b)%Z 0%Z l.
Lemma be32_bytes ttl : in_u 32 ttl → be32 (be_bytes4 ttl) = ttl.
Proof.
  unfold in_u, be32, be_bytes4. intros H. simpl. rewrite !u8_byte_of.
  replace (ttl / 65536)%Z with (ttl / 256 / 256)%Z by (by rewrite Z.div_div).
  replace (ttl / 16777216)%Z with (ttl / 256 / 256 / 256)%Z by (by rewrite !Z.div_div).
  assert (0 <= ttl / 256 / 256 / 256 < 256)%Z.
  { rewrite !Z.div_div by lia. split; [apply Z.div_pos; lia|apply Z.div_lt_upper_bound; lia]. }
  rewrite (Z.mod_small (ttl / 256 / 256 / 256)) by done.
  pose proof (Z.div_mod ttl 256). pose proof (Z.div_mod (ttl / 256) 256).
  pose proof (Z.div_mod (ttl / 256 / 256) 256). lia.
Qed.

Lemma patch_unfold buf id ttl offs :
  patch buf id ttl offs = foldl (put_ttl ttl) (write_at buf 0 (be_bytes2 id)) offs.
Proof. done. Qed.
Lemma patch_length buf id ttl offs : length (patch buf id ttl offs) = length buf.
Proof. by rewrite patch_unfold, put_ttls_length, write_at_length. Qed.

Lemma patch_outside buf id ttl offs i :
  2 ≤ i → ¬ in_field offs i → patch buf id ttl offs !! i = buf !! i.
Proof. intros Hi Hn. rewrite patch_unfold, put_ttls_outside by done. apply write_at_outside. by right. Qed.

(** The facts a successful scan establishes about its offsets. *)
Record scanned (buf : bytes) (offs : list Z) : Prop := {
  sc_len : 12 ≤ length buf;
  sc_bounds : Forall (λ o, 16 < Z.to_nat o ∧ Z.to_nat o + 6 ≤ length buf) offs;
  sc_spaced : spaced offs;
}.

Lemma scan_scanned buf offs :
  (Z.of_nat (length buf) < 2 ^ 32)%Z → scan_ttl_offsets_r buf = Ok offs → scanned buf offs.
Proof.
  intros Hb. unfold scan_ttl_offsets_r. destruct (_ <? _) eqn:El; [done|]. apply Nat.ltb_ge in El.
  destruct (header_counts buf) as [[[[qd an] ns] ar]|]; [|done]. cbn [result_bind].
  destruct (skip_questions qd buf 12) as [pos|] eqn:Eq; [|done]. cbn [result_bind].
  destruct (cadd an ns); [|done]. cbn [result_bind]. destruct (cadd _ ar); [|done]. cbn [result_bind].
  intros Hs. apply (skip_questions_agree _ buf buf) in Eq as [Hp _]; [|done..].
  destruct (scan_records_bounds _ _ _ _ Hb Hs) as [H1 H2]. constructor; [done| |done].
  eapply Forall_impl; [exact H1|]. simpl. lia.
Qed.

Lemma scanned_header buf offs i : scanned buf offs → i < 12 → ¬ in_field offs i.
Proof.
  intros [_ H _] Hi (o & Ho & ?). rewrite Forall_forall in H. specialize (H o Ho). simpl in H. lia.
Qed.

Lemma header_agree buf buf' :
  (∀ i, 4 ≤ i < 12 → buf !! i = buf' !! i) → header_counts buf = header_counts buf'.
Proof.
  intros H. unfold header_counts.
  by rewrite (index16_agree buf buf' 4), (index16_agree buf buf' 6), (index16_agree buf buf' 8),
    (index16_agree buf buf' 10) by (apply H; lia).
Qed.

(** A scan only looks outside the identifier and the TTL fields it reports. *)
Lemma scan_agree buf buf' offs :
  (Z.of_nat (length buf) < 2 ^ 32)%Z → length buf = length buf' → scan_ttl_offsets_r buf = Ok offs →
  (∀ i, 2 ≤ i → ¬ in_field offs i → buf !! i = buf' !! i) → scan_ttl_offsets_r buf' = Ok offs.
Proof.
  intros Hb Hl Hs Hagree. pose proof (scan_scanned _ _ Hb Hs) as Hsc. revert Hs.
  unfold scan_ttl_offsets_r. rewrite <- Hl. destruct (_ <? _); [done|].
  rewrite <- (header_agree buf buf') by (intros; apply Hagree; [lia|by eapply scanned_header; [|lia]]).
  destruct (header_counts buf) as [[[[qd an] ns] ar]|]; [|done]. cbn [result_bind].
  destruct (skip_questions qd buf 12) as [pos|] eqn:Eq; [|done]. cbn [result_bind].
  destruct (cadd an ns) as [n1|]; [|done]. cbn [result_bind].
  destruct (cadd n1 ar) as [n2|]; [|done]. cbn [result_bind]. intros Hs.
  destruct (scan_records_bounds _ _ _ _ Hb Hs) as [H1 _].
  assert (Hpos : 12 ≤ pos) by (by apply (skip_questions_agree _ buf buf) in Eq as [? _]).
  destruct (skip_questions_agree _ buf buf' _ _ Hl Eq) as [_ ->].
  { intros i Hi. apply Hagree; [lia|]. intros (o & Ho & ?). rewrite Forall_forall in H1.
    specialize (H1 o Ho). simpl in H1. lia. }
  cbn [result_bind]. apply (scan_records_agree _ buf); [done..|]. intros i Hi. apply Hagree. lia.
Qed.

Lemma scan_Some buf offs : scan_ttl_offsets buf = Some offs ↔ scan_ttl_offsets_r buf = Ok offs.
Proof. unfold scan_ttl_offsets, outcome_of. destruct (scan_ttl_offsets_r buf); naive_solver. Qed.

Lemma patch_id buf id ttl offs i :
  scanned buf offs → i < 2 → patch buf id ttl offs !! i = be_bytes2 id !! i.
Proof.
  intros Hs Hi. rewrite patch_unfold, put_ttls_outside by (eapply scanned_header; [done|lia]).
  rewrite write_at_lookup by (pose proof (sc_len _ _ Hs); simpl; lia). simpl.
  destruct i as [|[|]]; [done..|lia].
Qed.

Lemma patch_ttl buf id ttl offs o i :
  scanned buf offs → o ∈ offs → i < 4 →
  patch buf id ttl offs !! (Z.to_nat o + i) = be_bytes4 ttl !! i.
Proof.
  intros Hs Ho Hi. rewrite patch_unfold. apply put_ttls_inside; [by apply sc_spaced with buf| |done..].
  eapply Forall_impl; [apply (sc_bounds _ _ Hs)|]. simpl. intros. rewrite write_at_length. lia.
Qed.

Lemma in_field_dec offs i : in_field offs i ∨ ¬ in_field offs i.
Proof.
  induction offs as [|o offs IH]; [right; intros (? & ?%elem_of_nil & _); done|].
  destruct (decide (Z.to_nat o ≤ i < Z.to_nat o + 4)); [left; exists o; split; [by left|done]|].
  destruct IH as [(x & ? & ?)|Hn]; [left; exists x; split; [by right|done]|].
  right. intros (x & [->|?]%elem_of_cons & ?); [done|]. apply Hn. by exists x.
Qed.

Lemma patch_patch buf id1 ttl1 id2 ttl2 offs :
  scanned buf offs →
  patch (patch buf id1 ttl1 offs) id2 ttl2 offs = patch buf id2 ttl2 offs.
Proof.
  intros Hs. assert (Hs' : scanned (patch buf id1 ttl1 offs) offs).
  { destruct Hs as [H1 H2 H3]. constructor; rewrite ?patch_length; done. }
  apply list_eq. intros i. destruct (decide (i < 2)); [by rewrite !patch_id|].
  destruct (in_field_dec offs i) as [(o & Ho & Hi)|Hn].
  - replace i with (Z.to_nat o + (i - Z.to_nat o)) by lia. by rewrite !patch_ttl by (done || lia).
  - by rewrite !patch_outside by (done || lia).
Qed.

(** Scanning and query parsing are total and never index out of bounds, on any
    buffer whatsoever: they stop, and where they give up they return [None]. *)
Theorem wire_no_panic (buf : bytes) :
  scan_ttl_offsets_r buf ≠ Err Panicked ∧ parse_query_r buf ≠ Err Panicked.
Proof. split; [apply no_panic_scan|apply no_panic_parse_query]. Qed.

(** What a patch leaves in a buffer: the id and every TTL field read back the new values, and
    every other byte is kept. *)
Definition patched (buf : bytes) (offs : list Z) (id ttl : Z) (out : bytes) : Prop :=
  length out = length buf ∧
  index16 out 0 = Ok id ∧
  (∀ o, o ∈ offs → be32 (take 4 (drop (Z.to_nat o) out)) = ttl) ∧
  (∀ i, 2 ≤ i → ¬ in_field offs i → out !! i = buf !! i).
Lemma patch_patched buf offs id ttl : (Z.of_nat (length buf) < 2 ^ 32)%Z → scan_ttl_offsets buf = Some offs →
  in_u 16 id → in_u 32 ttl → patched buf offs id ttl (patch buf id ttl offs).
Proof.
  intros Hb Hs%scan_Some Hid Httl. pose proof (scan_scanned _ _ Hb Hs) as Hsc. unfold patched. split_and!.
  - apply patch_length.
  - unfold index16, index. rewrite !patch_id by (done || lia). simpl. by rewrite be16_bytes.
  - intros o Ho. trans (be32 (be_bytes4 ttl)); [|by apply be32_bytes]. f_equal. apply list_eq. intros i.
    destruct (decide (i < 4)) as [Hi|Hi].
    + rewrite lookup_take_lt, lookup_drop by done. by apply patch_ttl.
    + rewrite !lookup_ge_None_2; [done|simpl; lia|rewrite length_take; lia].
  - intros i Hi Hn. by apply patch_outside.
Qed.


(** A response with one A record and an OPT record. *)
Definition demo_response : bytes :=
  byte_of <$> [18; 52; 129; 128; 0; 1; 0; 1; 0; 0; 0; 1;
               3; 97; 100; 115; 3; 99; 111; 109; 0; 0; 1; 0; 1;
               192; 12; 0; 1; 0; 1; 0; 0; 1; 44; 0; 4; 1; 2; 3; 4;
               0; 0; 41; 4; 208; 0; 0; 0; 0; 0; 0]%Z.


(** ** Reading back an encoded query *)

(** A query as RFC 1035 and RFC 6891 lay it out. *)
Record WireQuery : Type := {
  wq_id : Z;
  wq_flags : byte * byte;
  wq_labels : list bytes;
  wq_type : Z;
  wq_class : Z;
  wq_edns : option (Z * byte * bytes);   (* payload size, first flag byte, options *)
}.
Definition enc_label (l : bytes) : bytes := byte_of (Z.of_nat (length l)) :: l.
Definition enc_name (ls : list bytes) : bytes := mjoin (enc_label <$> ls) ++ [byte_of 0].
Definition enc_opt (e : option (Z * byte * bytes)) : bytes :=
  match e with
  | Some (payload, f, data) =>
      [byte_of 0] ++ be_bytes2 TYPE_OPT ++ be_bytes2 payload ++ [byte_of 0; byte_of 0; f; byte_of 0]
      ++ be_bytes2 (Z.of_nat (length data)) ++ data
  | None => []
  end.
Definition enc_query (q : WireQuery) : bytes :=
  be_bytes2 (wq_id q) ++ [(wq_flags q).1; (wq_flags q).2] ++ be_bytes2 1 ++ be_bytes2 0 ++ be_bytes2 0
  ++ be_bytes2 (if wq_edns q is Some _ then 1 else 0) ++ enc_name (wq_labels q)
  ++ be_bytes2 (wq_type q) ++ be_bytes2 (wq_class q) ++ enc_opt (wq_edns q).
Definition shown_name (ls : list bytes) : bytes :=
  if ls is [] then bs "." else mjoin ((λ l, l ++ bs ".") <$> ls).
Definition label_ok (l : bytes) : Prop := 0 < length l ≤ 63 ∧ safe_label l = true.
Record query_ok (q : WireQuery) : Prop := {
  qo_id : in_u 16 (wq_id q);
  qo_labels : Forall label_ok (wq_labels q);
  qo_name : length (enc_name (wq_labels q)) ≤ 255;
  qo_type : in_u 16 (wq_type q);
  qo_class : in_u 16 (wq_class q);
  qo_edns p f d : wq_edns q = Some (p, f, d) → in_u 16 p ∧ in_u 16 (Z.of_nat (length d));
}.

Lemma cadd_small a b : (Z.of_nat (a + b) <= U64_MAX)%Z → cadd a b = Ok (a + b).
Proof. intros H. unfold cadd, checked_add. rewrite (proj2 (Z.leb_le _ _)) by lia. done. Qed.

Lemma index_app pre b rest : index (pre ++ b :: rest) (length pre) = Ok b.
Proof. apply index_ok. by rewrite lookup_app_r, Nat.sub_diag by lia. Qed.
Lemma get_app pre b rest : get (pre ++ b :: rest) (length pre) = Ok b.
Proof. apply get_ok. by rewrite lookup_app_r, Nat.sub_diag by lia. Qed.
Lemma index16_app pre z rest :
  in_u 16 z → index16 (pre ++ be_bytes2 z ++ rest) (length pre) = Ok z.
Proof.
  intros Hz. unfold index16. simpl. rewrite index_app. cbn [result_bind].
  rewrite (cons_middle (byte_of (z / 256))), app_assoc.
  replace (length pre + 1) with (length (pre ++ [byte_of (z / 256)])) by (rewrite length_app; done).
  rewrite index_app. simpl. by rewrite be16_bytes.
Qed.

Lemma land_small x : (0 <= x < 64)%Z → Z.land x 192 = 0%Z.
Proof.
  intros H. assert (Hall : forallb (λ n, Z.land (Z.of_nat n) 192 =? 0)%Z (seq 0 64) = true) by (vm_compute; done).
  rewrite forallb_Forall, Forall_forall in Hall. specialize (Hall (Z.to_nat x)).
  rewrite Z2Nat.id in Hall by lia. apply Z.eqb_eq, Hall, elem_of_seq. lia.
Qed.

Lemma u8_small n : n < 256 → u8 (byte_of (Z.of_nat n)) = Z.of_nat n.
Proof. intros H. rewrite u8_byte_of. apply Z.mod_small. lia. Qed.

Lemma read_name_enc fuel ls pre rest start name :
  length ls < fuel → Forall label_ok ls → start ≤ length pre →
  length pre + length (enc_name ls) - start ≤ 255 → (Z.of_nat start <= 100000)%Z →
  read_name_loop fuel (pre ++ enc_name ls ++ rest) start (length pre) name
  = Ok (match name ++ mjoin ((λ l, l ++ bs ".") <$> ls) with [] => bs "." | n => n end,
        length pre + length (enc_name ls)).
Proof.
  revert fuel pre name. induction ls as [|l ls IH]; intros fuel pre name Hf Hok Hstart Hlen Hpre.
  - destruct fuel as [|fuel]; [simpl in Hf; lia|]. cbn [read_name_loop].
    change (enc_name [] ++ rest) with (byte_of 0 :: rest). rewrite get_app. cbn [result_bind].
    change (length (enc_name [])) with 1 in *.
    change (Z.land (u8 (byte_of 0)) 192 =? 0)%Z with true. change (u8 (byte_of 0) =? 0)%Z with true. cbv match.
    rewrite (proj2 (Nat.ltb_ge _ _)) by lia. simpl. rewrite app_nil_r. by destruct name.
  - destruct fuel as [|fuel]; [simpl in Hf; lia|]. apply Forall_cons in Hok as [[Hl Hsafe] Hok].
    assert (E : enc_name (l :: ls) = enc_label l ++ enc_name ls).
    { unfold enc_name. simpl. by rewrite <- app_assoc. }
    rewrite E in *. rewrite <- app_assoc. unfold enc_label at 1. cbn [read_name_loop].
    change ((?x :: l) ++ ?r) with (x :: l ++ r). rewrite get_app. cbn [result_bind].
    rewrite u8_small by lia. rewrite land_small by lia. change (0 =? 0)%Z with true. cbv match.
    rewrite (proj2 (Z.eqb_neq _ _)) by lia. rewrite Nat2Z.id.
    rewrite length_app in Hlen. simpl length in Hlen.
    rewrite cadd_small by (unfold U64_MAX; lia). cbn [result_bind].
    set (x := byte_of (Z.of_nat (length l))).
    assert (G : get_range (pre ++ x :: l ++ enc_name ls ++ rest) (length pre + 1) (length pre + 1 + length l) = Ok l).
    { unfold get_range. rewrite length_app. simpl. rewrite !length_app.
      rewrite (proj2 (Nat.leb_le _ _)), (proj2 (Nat.leb_le _ _)) by lia. simpl. f_equal.
      rewrite (cons_middle x), app_assoc.
      replace (length pre + 1) with (length (pre ++ [x])) by (rewrite length_app; simpl; lia).
      rewrite drop_app_length. rewrite take_app_le by lia. apply take_ge. lia. }
    rewrite G. cbn [result_bind]. rewrite Hsafe.
    assert (Epre : pre ++ x :: l ++ enc_name ls ++ rest = (pre ++ x :: l) ++ enc_name ls ++ rest)
      by (by rewrite <- app_assoc).
    rewrite Epre. replace (length pre + 1 + length l) with (length (pre ++ x :: l)) by (rewrite length_app; simpl; lia).
    rewrite IH; [|simpl in Hf; lia|done|rewrite length_app; lia|rewrite length_app; simpl; lia|done].
    f_equal. f_equal.
    + simpl. by rewrite <- !app_assoc.
    + rewrite !length_app. simpl. lia.
Qed.

Lemma length_be2 z : length (be_bytes2 z) = 2.
Proof. done. Qed.

Lemma edns_loop_enc pre e :
  (∀ p f d, e = Some (p, f, d) → in_u 16 p ∧ in_u 16 (Z.of_nat (length d))) →
  (Z.of_nat (length pre) <= 100000)%Z →
  edns_loop (if e is Some _ then 1 else 0) 0 0 (pre ++ enc_opt e) (length pre) None false
  = Ok (match e with
        | Some (p, f, _) => (Some p, negb (Z.land (u8 f) 128 =? 0)%Z)
        | None => (None, false)
        end).
Proof.
  intros He Hpre. destruct e as [[[p f] d]|]; [|done]. destruct (He p f d eq_refl) as [Hp Hd].
  cbn [edns_loop enc_opt]. set (tl := be_bytes2 (Z.of_nat (length d)) ++ d).
  set (buf := pre ++ _).
  assert (B1 : buf = (pre ++ [byte_of 0]) ++ be_bytes2 TYPE_OPT ++ (be_bytes2 p ++ [byte_of 0; byte_of 0; f; byte_of 0] ++ tl))
    by (unfold buf; by rewrite <- app_assoc).
  assert (B2 : buf = (pre ++ [byte_of 0] ++ be_bytes2 TYPE_OPT) ++ be_bytes2 p ++ ([byte_of 0; byte_of 0; f; byte_of 0] ++ tl))
    by (unfold buf; by rewrite <- !app_assoc).
  assert (B3 : buf = (pre ++ [byte_of 0] ++ be_bytes2 TYPE_OPT ++ be_bytes2 p ++ [byte_of 0; byte_of 0]) ++ f :: ([byte_of 0] ++ tl))
    by (unfold buf; by rewrite <- !app_assoc).
  assert (B4 : buf = (pre ++ [byte_of 0] ++ be_bytes2 TYPE_OPT ++ be_bytes2 p ++ [byte_of 0; byte_of 0; f; byte_of 0])
                     ++ be_bytes2 (Z.of_nat (length d)) ++ d) by (unfold buf; by rewrite <- !app_assoc).
  assert (Hlen : length buf = length pre + 11 + length d).
  { unfold buf, tl. rewrite !length_app. simpl. lia. }
  unfold in_u in Hd.
  assert (S1 : skip_name buf (length pre) = Ok (length pre + 1)).
  { unfold skip_name. cbn [skip_name_loop]. replace (get buf (length pre)) with (Ok (byte_of 0) : result byte stop).
    - done.
    - symmetry. unfold buf. apply get_app. }
  rewrite S1. cbn [result_bind]. rewrite cadd_small by (unfold U64_MAX; lia). cbn [result_bind].
  rewrite (proj2 (Nat.ltb_ge _ _)) by lia.
  assert (I1 : index16 buf (length pre + 1) = Ok TYPE_OPT).
  { rewrite B1. replace (length pre + 1) with (length (pre ++ [byte_of 0])) by (rewrite length_app; done).
    by apply index16_app. }
  assert (I2 : index16 buf (length pre + 1 + 2) = Ok p).
  { rewrite B2. replace (length pre + 1 + 2) with (length (pre ++ [byte_of 0] ++ be_bytes2 TYPE_OPT))
      by (rewrite !length_app; simpl; lia). by apply index16_app. }
  assert (I3 : index buf (length pre + 1 + 6) = Ok f).
  { rewrite B3. replace (length pre + 1 + 6) with (length (pre ++ [byte_of 0] ++ be_bytes2 TYPE_OPT ++ be_bytes2 p ++ [byte_of 0; byte_of 0]))
      by (rewrite !length_app; simpl; lia). by apply index_app. }
  assert (I4 : index16 buf (length pre + 1 + 8) = Ok (Z.of_nat (length d))).
  { rewrite B4. replace (length pre + 1 + 8) with (length (pre ++ [byte_of 0] ++ be_bytes2 TYPE_OPT ++ be_bytes2 p
      ++ [byte_of 0; byte_of 0; f; byte_of 0])) by (rewrite !length_app; simpl; lia). by apply index16_app. }
  rewrite I1. cbn [result_bind]. rewrite Z.eqb_refl. cbn [orb]. change (0 <? 0) with false. cbv match.
  rewrite I2. cbn [result_bind]. rewrite I3. cbn [result_bind]. rewrite I4. cbn [result_bind].
  rewrite Nat2Z.id, cadd_small by (unfold U64_MAX; lia). cbn [result_bind].
  rewrite (proj2 (Nat.ltb_ge _ _)) by lia. done.
Qed.

(** The fields [parse_query] extracts from an encoded query. *)
Definition parsed_of (q : WireQuery) : ParsedQuery :=
  {| pq_id := wq_id q;
     pq_recursion_desired := Z.testbit (u8 (wq_flags q).1) 0;
     pq_checking_disabled := Z.testbit (u8 (wq_flags q).2) 4;
     pq_opcode := (u8 (wq_flags q).1 / 8) mod 16;
     pq_qname := shown_name (wq_labels q);
     pq_qtype := wq_type q;
     pq_qclass := wq_class q;
     pq_edns_payload := (λ e, e.1.1) <$> wq_edns q;
     pq_dnssec_ok := match wq_edns q with Some (_, f, _) => Z.testbit (u8 f) 7 | None => false end |}.

Lemma land_bit x k : (0 <= k)%Z → negb (Z.land x (2 ^ k) =? 0)%Z = Z.testbit x k.
Proof.
  intros Hk. destruct (Z.testbit x k) eqn:E.
  - apply negb_true_iff, Z.eqb_neq. intros H. apply (f_equal (λ z, Z.testbit z k)) in H.
    rewrite Z.land_spec, E, Z.pow2_bits_true, Z.bits_0 in H by done. done.
  - apply negb_false_iff, Z.eqb_eq, Z.bits_inj'. intros n Hn. rewrite Z.land_spec, Z.bits_0.
    destruct (decide (n = k)) as [->|]; [by rewrite E|]. rewrite Z.pow2_bits_false by done. apply andb_false_r.
Qed.

Lemma opcode_bits x : Z.land (Z.shiftr x 3) 15 = ((x / 8) mod 16)%Z.
Proof.
  change 15%Z with (Z.ones 4). rewrite Z.land_ones by lia. by rewrite Z.shiftr_div_pow2 by lia.
Qed.

Lemma labels_count ls : Forall label_ok ls → length ls < length (enc_name ls).
Proof.
  intros H. unfold enc_name. rewrite length_app. cbn [length].
  induction H as [|l ls [Hl _] _ IH]; [simpl; lia|]. rewrite fmap_cons.
  change (mjoin (?x :: ?l)) with (x ++ mjoin l). rewrite length_app. unfold enc_label at 1. cbn [length]. lia.
Qed.

Lemma header_enc q :
  header_counts (enc_query q) = Ok (1, 0, 0, if wq_edns q is Some _ then 1 else 0).
Proof. unfold header_counts, index16, enc_query. simpl. by destruct (wq_edns q). Qed.

Lemma parse_query_r_enc q : query_ok q → parse_query_r (enc_query q) = Ok (parsed_of q).
Proof.
  intros [Hid Hls Hname Hty Hcl Hed]. unfold parse_query_r.
  set (hdr := be_bytes2 (wq_id q) ++ [(wq_flags q).1; (wq_flags q).2] ++ be_bytes2 1 ++ be_bytes2 0 ++ be_bytes2 0
    ++ be_bytes2 (if wq_edns q is Some _ then 1 else 0)).
  set (nm := enc_name (wq_labels q)).
  assert (B1 : enc_query q = hdr ++ nm ++ (be_bytes2 (wq_type q) ++ be_bytes2 (wq_class q) ++ enc_opt (wq_edns q)))
    by done.
  assert (B2 : enc_query q = (hdr ++ nm) ++ be_bytes2 (wq_type q) ++ (be_bytes2 (wq_class q) ++ enc_opt (wq_edns q)))
    by (rewrite B1; by rewrite <- app_assoc).
  assert (B3 : enc_query q = (hdr ++ nm ++ be_bytes2 (wq_type q)) ++ be_bytes2 (wq_class q) ++ enc_opt (wq_edns q))
    by (rewrite B1; by rewrite <- !app_assoc).
  assert (B4 : enc_query q = (hdr ++ nm ++ be_bytes2 (wq_type q) ++ be_bytes2 (wq_class q)) ++ enc_opt (wq_edns q))
    by (rewrite B1; by rewrite <- !app_assoc).
  assert (Hh : length hdr = 12) by done.
  assert (L : length (enc_query q) = 12 + length nm + 4 + length (enc_opt (wq_edns q))).
  { rewrite B1, !length_app, Hh. simpl. lia. }
  rewrite (proj2 (Nat.ltb_ge _ _)) by lia.
  assert (I0 : index16 (enc_query q) 0 = Ok (wq_id q)) by (apply (index16_app []); done).
  rewrite I0. cbn [result_bind]. change (index (enc_query q) 2) with (Ok (wq_flags q).1 : result byte stop).
  change (index (enc_query q) 3) with (Ok (wq_flags q).2 : result byte stop). cbn [result_bind].
  rewrite header_enc. cbn [result_bind]. change (negb (1 =? 1)) with false. cbv match.
  assert (Rn : read_question_name (enc_query q) 12 = Ok (shown_name (wq_labels q), 12 + length nm)).
  { unfold read_question_name. rewrite B1 at 2. rewrite <- Hh at 2 3. unfold nm.
    pose proof (labels_count _ Hls) as Hc. fold nm in Hc, Hname.
    rewrite (read_name_enc _ (wq_labels q) hdr); [|lia|done|lia|fold nm; lia|lia].
    f_equal. f_equal. unfold shown_name. destruct (wq_labels q) as [|l ls]; [done|].
    simpl. destruct l; done. }
  fold nm in Hname. rewrite Rn. cbn [result_bind]. rewrite cadd_small by (unfold U64_MAX; lia). cbn [result_bind].
  rewrite (proj2 (Nat.ltb_ge _ _)) by lia.
  assert (I1 : index16 (enc_query q) (12 + length nm) = Ok (wq_type q)).
  { rewrite B2. replace (12 + length nm) with (length (hdr ++ nm)) by (by rewrite length_app, Hh). by apply index16_app. }
  assert (I2 : index16 (enc_query q) (12 + length nm + 2) = Ok (wq_class q)).
  { rewrite B3. replace (12 + length nm + 2) with (length (hdr ++ nm ++ be_bytes2 (wq_type q)))
      by (rewrite !length_app, Hh; simpl; lia). by apply index16_app. }
  rewrite I1. cbn [result_bind]. rewrite I2. cbn [result_bind].
  change (cadd 0 0) with (Ok 0 : result nat stop). cbn [result_bind].
  rewrite cadd_small by (destruct (wq_edns q); unfold U64_MAX; lia). cbn [result_bind].
  assert (E : edns_loop (0 + (if wq_edns q is Some _ then 1 else 0)) 0 0 (enc_query q) (12 + length nm + 4) None false
    = Ok (match wq_edns q with Some (p, f, _) => (Some p, negb (Z.land (u8 f) 128 =? 0)%Z) | None => (None, false) end)).
  { rewrite B4. replace (12 + length nm + 4) with (length (hdr ++ nm ++ be_bytes2 (wq_type q) ++ be_bytes2 (wq_class q)))
      by (rewrite !length_app, Hh; simpl; lia). apply edns_loop_enc; [done|]. rewrite !length_app, Hh. simpl. lia. }
  rewrite E. cbn [result_bind]. unfold parsed_of.
  rewrite (land_bit _ 0), (land_bit _ 4), opcode_bits by lia.
  destruct (wq_edns q) as [[[p f] d]|]; [|done]. by rewrite (land_bit _ 7) by lia.
Qed.

(** C35: the hot-path parser reads back what an RFC 1035 query carries: for every query
    with a name of safe labels, with or without an EDNS record, [parse_query] returns its
    id, flags, dot-terminated name, type, class, payload size and DO bit. *)
Theorem parse_query_roundtrip (q : WireQuery) :
  query_ok q → parse_query (enc_query q) = Some (parsed_of q).
Proof. intros H. unfold parse_query. by rewrite (parse_query_r_enc q H). Qed.

Definition demo_query : WireQuery :=
  {| wq_id := 4660; wq_flags := (byte_of 1, byte_of 16); wq_labels := [bs "www"; bs "Example"; bs "org"];
     wq_type := 28; wq_class := 1; wq_edns := Some (1232%Z, byte_of 128, [byte_of 0; byte_of 10]) |}.
Lemma parse_query_roundtrip_witness :
  parse_query (enc_query demo_query) = Some (parsed_of demo_query) ∧
  pq_qname (parsed_of demo_query) = bs "www.Example.org." ∧ pq_dnssec_ok (parsed_of demo_query) = true.
Proof.
  split; [|split; vm_compute; reflexivity]. apply (parse_query_roundtrip demo_query).
  constructor; simpl; [unfold in_u; lia| | |unfold in_u; lia|unfold in_u; lia|].
  - repeat constructor; simpl; lia.
  - vm_compute. lia.
  - intros p f d [= <- <- <-]. unfold in_u. simpl. lia.
Defined.
