(* ===== verification/Dns.v ===== *)
(** * DNS messages: the interface of [hickory_proto] that the sources use, and the query key
    and wire helpers of [crates/bulwark-upstream/src/transport.rs].

    Names, EDNS records and the wire codec belong to the external crate: they are the
    operations of [DnsLib] and [DnsCodec].  The message structure itself ([Message],
    [Record], [RData]) is a plain record type, as its public fields are. *)
From Stdlib Require Import Ascii.
From S2P Require Import Prelude RustStr RustNet.

(** ** Names and EDNS *)

Class DnsLib : Type := {
  dname : Type;
  dname_eq_dec :: EqDecision dname;
  name_root : dname;
  name_from_str : bytes → option dname;
  name_to_ascii : dname → bytes;
  name_eq_ignore_root : dname → dname → bool;
  edns : Type;
  edns_eq_dec :: EqDecision edns;
  edns_new : edns;
  edns_version : edns → Z;
  edns_max_payload : edns → Z;
  edns_dnssec_ok : edns → bool;
  edns_has_options : edns → bool;
  edns_set_version : Z → edns → edns;
  edns_set_max_payload : Z → edns → edns;
  edns_set_dnssec_ok : bool → edns → edns;
}.

(** Documented behaviour of the EDNS accessors: a setter changes its own field, a payload
    size below 512 is taken as 512, a fresh record has no options. *)
Class EdnsLaws (DL : DnsLib) : Prop := {
  edns_new_options : edns_has_options edns_new = false;
  edns_set_version_options v e : edns_has_options (edns_set_version v e) = edns_has_options e;
  edns_set_payload_options p e : edns_has_options (edns_set_max_payload p e) = edns_has_options e;
  edns_set_do_options b e : edns_has_options (edns_set_dnssec_ok b e) = edns_has_options e;
  edns_set_payload_payload p e : edns_max_payload (edns_set_max_payload p e) = Z.max 512 p;
  edns_set_do_payload b e : edns_max_payload (edns_set_dnssec_ok b e) = edns_max_payload e;
  edns_set_do_do b e : edns_dnssec_ok (edns_set_dnssec_ok b e) = b;
}.

(** Record types, classes and response codes are their wire numbers. *)
Definition RT_A : Z := 1.
Definition RT_NS : Z := 2.
Definition RT_CNAME : Z := 5.
Definition RT_SOA : Z := 6.
Definition RT_PTR : Z := 12.
Definition RT_MX : Z := 15.
Definition RT_TXT : Z := 16.
Definition RT_AAAA : Z := 28.
Definition RT_SRV : Z := 33.
Definition RT_NAPTR : Z := 35.
Definition RT_DS : Z := 43.
Definition RT_DNSKEY : Z := 48.
Definition RT_TLSA : Z := 52.
Definition RT_SVCB : Z := 64.
Definition RT_HTTPS : Z := 65.
Definition RT_CAA : Z := 257.
Definition CLASS_IN : Z := 1.
Definition RC_NOERROR : Z := 0.
Definition RC_FORMERR : Z := 1.
Definition RC_SERVFAIL : Z := 2.
Definition RC_NXDOMAIN : Z := 3.
Definition RC_NOTIMP : Z := 4.
Definition RC_REFUSED : Z := 5.
Definition OPCODE_QUERY : Z := 0.

Section messages.
Context {DL : DnsLib}.

(** ** Messages *)

Inductive SvcParam : Type :=
| Ipv4Hint (ips : list ipv4)
| Ipv6Hint (ips : list ipv6)
| SvcOther (data : bytes).

Inductive RData : Type :=
| RdA (ip : ipv4)
| RdAAAA (ip : ipv6)
| RdCNAME (target : dname)
| RdPTR (target : dname)
| RdMX (preference : Z) (exchange : dname)
| RdTXT (texts : list bytes)
| RdSOA (mname rname : dname) (serial refresh retry expire minimum : Z)
| RdHTTPS (params : list SvcParam)
| RdSVCB (params : list SvcParam)
| RdOther (rtype : Z) (data : bytes).

Record DnsRecord : Type := { dr_name : dname; dr_ttl : Z; dr_data : RData }.

Record Query : Type := { q_name : dname; q_type : Z; q_class : Z }.

Inductive MessageType : Type := MtQuery | MtResponse.

Record Message : Type := {
  msg_id : Z;
  msg_type : MessageType;
  msg_opcode : Z;
  msg_truncation : bool;
  msg_rd : bool;
  msg_ra : bool;
  msg_cd : bool;
  msg_rcode : Z;
  msg_queries : list Query;
  msg_answers : list DnsRecord;
  msg_authorities : list DnsRecord;
  msg_additionals : list DnsRecord;
  msg_edns : option edns;
}.

(** [Message::new(id, type, op_code)]. *)
Definition message_new (id : Z) (ty : MessageType) (op : Z) : Message :=
  {| msg_id := id; msg_type := ty; msg_opcode := op; msg_truncation := false; msg_rd := false;
     msg_ra := false; msg_cd := false; msg_rcode := RC_NOERROR; msg_queries := [];
     msg_answers := []; msg_authorities := []; msg_additionals := []; msg_edns := None |}.

(** Field updates. *)
Definition set_rcode (rc : Z) (m : Message) : Message :=
  {| msg_id := msg_id m; msg_type := msg_type m; msg_opcode := msg_opcode m;
     msg_truncation := msg_truncation m; msg_rd := msg_rd m; msg_ra := msg_ra m; msg_cd := msg_cd m;
     msg_rcode := rc; msg_queries := msg_queries m; msg_answers := msg_answers m;
     msg_authorities := msg_authorities m; msg_additionals := msg_additionals m;
     msg_edns := msg_edns m |}.
Definition set_id (id : Z) (m : Message) : Message :=
  {| msg_id := id; msg_type := msg_type m; msg_opcode := msg_opcode m;
     msg_truncation := msg_truncation m; msg_rd := msg_rd m; msg_ra := msg_ra m; msg_cd := msg_cd m;
     msg_rcode := msg_rcode m; msg_queries := msg_queries m; msg_answers := msg_answers m;
     msg_authorities := msg_authorities m; msg_additionals := msg_additionals m;
     msg_edns := msg_edns m |}.
Definition set_sections (an ns ar : list DnsRecord) (m : Message) : Message :=
  {| msg_id := msg_id m; msg_type := msg_type m; msg_opcode := msg_opcode m;
     msg_truncation := msg_truncation m; msg_rd := msg_rd m; msg_ra := msg_ra m; msg_cd := msg_cd m;
     msg_rcode := msg_rcode m; msg_queries := msg_queries m; msg_answers := an;
     msg_authorities := ns; msg_additionals := ar; msg_edns := msg_edns m |}.
Definition push_answer (r : DnsRecord) (m : Message) : Message :=
  set_sections (msg_answers m ++ [r]) (msg_authorities m) (msg_additionals m) m.
Definition push_authority (r : DnsRecord) (m : Message) : Message :=
  set_sections (msg_answers m) (msg_authorities m ++ [r]) (msg_additionals m) m.
Definition set_edns (e : edns) (m : Message) : Message :=
  {| msg_id := msg_id m; msg_type := msg_type m; msg_opcode := msg_opcode m;
     msg_truncation := msg_truncation m; msg_rd := msg_rd m; msg_ra := msg_ra m; msg_cd := msg_cd m;
     msg_rcode := msg_rcode m; msg_queries := msg_queries m; msg_answers := msg_answers m;
     msg_authorities := msg_authorities m; msg_additionals := msg_additionals m;
     msg_edns := Some e |}.

(** [Message::to_vec], [Message::from_vec], and the text renderings the log uses:
    [format!("{} {}", rec.record_type(), rec.data)], the [Debug] form of a response code
    and the [Display] form of a record type. *)
Class DnsCodec : Type := {
  msg_to_vec : Message → option bytes;
  msg_from_vec : bytes → option Message;
  summarize : DnsRecord → bytes;
  rcode_debug : Z → bytes;
  rtype_display : Z → bytes;
}.

(** ** [transport.rs] *)

(** [QueryKey]. *)
Record QueryKey : Type := {
  k_name : bytes;
  k_rtype : Z;
  k_class : Z;
  k_dnssec_ok : bool;
  k_checking_disabled : bool;
}.
#[global] Instance QueryKey_eq_dec : EqDecision QueryKey.
Proof. solve_decision. Defined.

(** [dnssec_ok] and [QueryKey::from_message]. *)
Definition dnssec_ok (m : Message) : bool :=
  match msg_edns m with Some e => edns_dnssec_ok e | None => false end.
Definition key_from_message (m : Message) : option QueryKey :=
  let! q := head (msg_queries m) in
  Some {| k_name := to_ascii_lowercase (name_to_ascii (q_name q)); k_rtype := q_type q;
          k_class := q_class q; k_dnssec_ok := dnssec_ok m; k_checking_disabled := msg_cd m |}.

(** [normalize_upstream_edns]. *)
Definition MAX_UDP_PAYLOAD : Z := 4096.
Definition normalize_upstream_edns (m : Message) : Message :=
  match msg_edns m with
  | None => m
  | Some e =>
      let over_max := (MAX_UDP_PAYLOAD <? edns_max_payload e)%Z in
      if negb (edns_has_options e) && negb over_max then m
      else
        let clean := edns_set_version (edns_version e) edns_new in
        let clean := edns_set_max_payload (Z.min (edns_max_payload e) MAX_UDP_PAYLOAD) clean in
        let clean := edns_set_dnssec_ok (edns_dnssec_ok e) clean in
        set_edns clean m
  end.

(** [matches_query]. *)
Definition matches_query (query response : Message) : bool :=
  if negb (msg_id query =? msg_id response)%Z then false
  else match head (msg_queries query), head (msg_queries response) with
       | Some q, Some r =>
           (q_type q =? q_type r)%Z && (q_class q =? q_class r)%Z
           && name_eq_ignore_root (q_name q) (q_name r)
       | Some _, None => true
       | None, _ => false
       end.

(** ** Properties *)

Lemma normalize_edns_key m `{!EdnsLaws DL} :
  key_from_message (normalize_upstream_edns m) = key_from_message m.
Proof.
  unfold normalize_upstream_edns, key_from_message, dnssec_ok.
  destruct (msg_edns m) as [e|] eqn:Ee; [|by rewrite Ee].
  destruct (_ && _); simpl; [by rewrite Ee|]. by rewrite edns_set_do_do.
Qed.

Lemma normalize_edns_fields m :
  msg_queries (normalize_upstream_edns m) = msg_queries m ∧
  msg_id (normalize_upstream_edns m) = msg_id m.
Proof.
  unfold normalize_upstream_edns. destruct (msg_edns m); [|done]. by destruct (_ && _).
Qed.

Lemma normalize_edns_limits m e `{!EdnsLaws DL} :
  msg_edns (normalize_upstream_edns m) = Some e →
  edns_has_options e = false ∧ (edns_max_payload e <= MAX_UDP_PAYLOAD)%Z.
Proof.
  unfold normalize_upstream_edns. destruct (msg_edns m) as [e0|] eqn:Ee; [|by rewrite Ee].
  destruct (negb _ && negb _) eqn:Ec.
  - rewrite Ee. intros [= <-]. bool_to_prop. split; [done|]. by apply Z.ltb_ge.
  - simpl. intros [= <-]. rewrite edns_set_do_options, edns_set_payload_options, edns_set_version_options,
      edns_new_options. split; [done|]. rewrite edns_set_do_payload, edns_set_payload_payload.
    unfold MAX_UDP_PAYLOAD. lia.
Qed.

End messages.
