(* ===== verification/DnsInstances.v ===== *)
(** * A small DNS library: concrete instances of [DnsLib] and [DnsCodec].

    They make the theorems that take the external crate as a parameter applicable to
    concrete inputs.  Names are their text; the codec writes one question and address
    records in the DNS wire format, each name as a single label. *)
From Stdlib Require Import Ascii.
From S2P Require Import Prelude RustStr RustNet Wire Dns.

Record small_edns : Type := { se_version : Z; se_payload : Z; se_do : bool; se_options : bool }.
#[export] Instance small_edns_eq_dec : EqDecision small_edns.
Proof. solve_decision. Defined.

Definition strip_dot (s : bytes) : bytes := default s (strip_suffix (bs ".") s).

Definition small_ascii (s : bytes) : bytes := (λ b, byte_of (u8 b mod 128)) <$> s.
#[export] Instance small_dns : DnsLib := {
  dname := bytes;
  name_root := bs ".";
  name_from_str s := if s is [] then None else Some s;
  name_to_ascii := small_ascii;
  name_eq_ignore_root a b :=
    bool_decide (strip_dot (to_ascii_lowercase (small_ascii a)) = strip_dot (to_ascii_lowercase (small_ascii b)));
  edns := small_edns;
  edns_new := {| se_version := 0; se_payload := 512; se_do := false; se_options := false |};
  edns_version := se_version;
  edns_max_payload := se_payload;
  edns_dnssec_ok := se_do;
  edns_has_options := se_options;
  edns_set_version v e := {| se_version := v; se_payload := se_payload e; se_do := se_do e; se_options := se_options e |};
  edns_set_max_payload p e :=
    {| se_version := se_version e; se_payload := Z.max 512 p; se_do := se_do e; se_options := se_options e |};
  edns_set_dnssec_ok b e :=
    {| se_version := se_version e; se_payload := se_payload e; se_do := b; se_options := se_options e |};
}.
#[export] Instance small_edns_laws : EdnsLaws small_dns.
Proof. by constructor. Qed.

(** ** The codec *)

Definition small_name (n : bytes) : option bytes :=
  if (length n <? 64) && negb (length n =? 0) then Some (byte_of (Z.of_nat (length n)) :: n ++ [byte_of 0]) else None.
Definition small_record (r : DnsRecord) : option bytes :=
  match dr_data r with
  | RdA (Ipv4 a b c d) =>
      let! n := small_name (dr_name r) in
      if ((0 <=? dr_ttl r) && (dr_ttl r <? 2 ^ 32))%Z then
        Some (n ++ be_bytes2 RT_A ++ be_bytes2 CLASS_IN ++ be_bytes4 (dr_ttl r) ++ be_bytes2 4 ++ [a; b; c; d])
      else None
  | _ => None
  end.
Definition u16_ok (z : Z) : bool := ((0 <=? z) && (z <? 2 ^ 16))%Z.
(** Only plain responses, so that nothing of the message is lost. *)
Definition small_plain (m : Message) : bool :=
  match msg_type m, msg_authorities m, msg_additionals m, msg_edns m with
  | MtResponse, [], [], None =>
      u16_ok (msg_id m) && (msg_opcode m =? OPCODE_QUERY)%Z && msg_rd m && msg_ra m && negb (msg_cd m)
      && negb (msg_truncation m) && ((0 <=? msg_rcode m) && (msg_rcode m <? 16))%Z
      && u16_ok (Z.of_nat (length (msg_answers m)))
  | _, _, _, _ => false
  end.
Definition small_to_vec (m : Message) : option bytes :=
  match msg_queries m with
  | [q] =>
      if small_plain m && u16_ok (q_type q) && u16_ok (q_class q) then
        let! n := small_name (q_name q) in
        let! an := mapM small_record (msg_answers m) in
        let b := be_bytes2 (msg_id m) ++ [byte_of 129; byte_of (128 + msg_rcode m)] ++ be_bytes2 1
                 ++ be_bytes2 (Z.of_nat (length (msg_answers m))) ++ be_bytes2 0 ++ be_bytes2 0
                 ++ n ++ be_bytes2 (q_type q) ++ be_bytes2 (q_class q) ++ mjoin an in
        if (Z.of_nat (length b) <? 65536)%Z then Some b else None
      else None
  | _ => None
  end.

(** Reading back. *)
Definition read_bytes (n : nat) (s : bytes) : option (bytes * bytes) :=
  if length s <? n then None else Some (take n s, drop n s).
Definition read_be (n : nat) (s : bytes) : option (Z * bytes) :=
  let! (b, s) := read_bytes n s in Some (be32 b, s).
Definition read_small_name (s : bytes) : option (bytes * bytes) :=
  let! (n, s) := read_be 1 s in
  let! (l, s) := read_bytes (Z.to_nat n) s in
  let! (z, s) := read_be 1 s in
  if (z =? 0)%Z then Some (l, s) else None.
Definition read_small_record (s : bytes) : option (DnsRecord * bytes) :=
  let! (n, s) := read_small_name s in
  let! (ty, s) := read_be 2 s in
  let! (cl, s) := read_be 2 s in
  let! (ttl, s) := read_be 4 s in
  let! (len, s) := read_be 2 s in
  let! (d, s) := read_bytes 4 s in
  match d with
  | [a; b; c; d] =>
      if ((ty =? RT_A) && (cl =? CLASS_IN) && (len =? 4))%Z
      then Some ({| dr_name := n; dr_ttl := ttl; dr_data := RdA (Ipv4 a b c d) |}, s) else None
  | _ => None
  end.
Fixpoint read_small_records (n : nat) (s : bytes) : option (list DnsRecord * bytes) :=
  match n with
  | 0 => Some ([], s)
  | S n =>
      let! (r, s) := read_small_record s in
      let! (rs, s) := read_small_records n s in
      Some (r :: rs, s)
  end.
Definition small_from_vec (s : bytes) : option Message :=
  let! (id, s) := read_be 2 s in
  let! (f1, s) := read_be 1 s in
  let! (f2, s) := read_be 1 s in
  let! (qd, s) := read_be 2 s in
  let! (an, s) := read_be 2 s in
  let! (ns, s) := read_be 2 s in
  let! (ar, s) := read_be 2 s in
  let! (n, s) := read_small_name s in
  let! (ty, s) := read_be 2 s in
  let! (cl, s) := read_be 2 s in
  let! (rs, s) := read_small_records (Z.to_nat an) s in
  if ((f1 =? 129) && (128 <=? f2) && (qd =? 1) && (ns =? 0) && (ar =? 0))%Z && (length s =? 0) then
    Some {| msg_id := id; msg_type := MtResponse; msg_opcode := OPCODE_QUERY; msg_truncation := false;
            msg_rd := true; msg_ra := true; msg_cd := false; msg_rcode := f2 - 128;
            msg_queries := [{| q_name := n; q_type := ty; q_class := cl |}];
            msg_answers := rs; msg_authorities := []; msg_additionals := []; msg_edns := None |}
  else None.
#[export] Instance small_codec : DnsCodec := {
  msg_to_vec := small_to_vec;
  msg_from_vec := small_from_vec;
  summarize r := match dr_data r with RdA a => bs "A " ++ show_ipv4 a | _ => bs "?" end;
  rcode_debug rc := show_dec rc;
  rtype_display ty := show_dec ty;
}.

(** ** Sample messages *)

Definition sample_ip : ipv4 := Ipv4 (byte_of 192) (byte_of 0) (byte_of 2) (byte_of 7).
Definition sample_response (name : bytes) (ttl : Z) : Message :=
  {| msg_id := 4660; msg_type := MtResponse; msg_opcode := OPCODE_QUERY; msg_truncation := false;
     msg_rd := true; msg_ra := true; msg_cd := false; msg_rcode := RC_NOERROR;
     msg_queries := [{| q_name := name; q_type := RT_A; q_class := CLASS_IN |}];
     msg_answers := [{| dr_name := name; dr_ttl := ttl; dr_data := RdA sample_ip |}];
     msg_authorities := []; msg_additionals := []; msg_edns := None |}.
Definition sample_key (name : bytes) : QueryKey :=
  {| k_name := name; k_rtype := RT_A; k_class := CLASS_IN; k_dnssec_ok := false; k_checking_disabled := false |}.
Definition sample_hash (k : QueryKey) : Z := fold_right (λ b h, u8 b + 31 * h)%Z 7%Z (k_name k).

Example small_codec_runs :
  (let! b := msg_to_vec (sample_response (bs "ads.example") 300) in msg_from_vec b)
  = Some (sample_response (bs "ads.example") 300).
Proof. vm_refl. Qed.
