(* ===== verification/Clients.v ===== *)
(** * bulwark-engine: client identification ([crates/bulwark-engine/src/clients.rs]).

    [best_match] is compared with the contract: an exact address beats every network, and
    otherwise the longest matching prefix wins, with ties going to the first client of the
    configuration. *)
From Stdlib Require Import Ascii.
From S2P Require Import Prelude RustStr RustNet Rule Parser Instances.

(** [ClientConfig] of [bulwark-config]. *)
Record ClientConfig : Type := {
  cc_id : bytes;
  cc_name : bytes;
  cc_ids : list bytes;
  cc_tags : list bytes;
  cc_filtering_enabled : bool;
}.

Section clients.
Context {NL : IpNetLib}.

Record ClientEntry : Type := {
  ce_name : bytes;
  ce_nets : list ipnet;
  ce_tags : list bytes;
  ce_filtering_enabled : bool;
}.

Record ResolvedClient : Type := {
  rc_ip : ip_addr;
  rc_name : option bytes;
  rc_tags : list bytes;
  rc_filtering_enabled : bool;
}.
(** [ResolvedClient::label]. *)
Definition label (c : ResolvedClient) : bytes :=
  match rc_name c with Some n => n | None => show_ip (rc_ip c) end.

Record ClientMatcher : Type := { cm_hosts : gmap ip_addr nat; cm_entries : list ClientEntry }.

(** The loop over the identifiers of one client. *)
Definition add_id (idx : nat) (acc : gmap ip_addr nat * list ipnet) (id : bytes)
  : gmap ip_addr nat * list ipnet :=
  let '(hosts, nets) := acc in
  match parse_ip id with
  | Some ip => (match hosts !! ip with Some _ => hosts | None => <[ip := idx]> hosts end, nets)
  | None => match ipnet_parse id with
            | Some net => (hosts, nets ++ [net])
            | None => (hosts, nets)
            end
  end.
Definition add_client (m : ClientMatcher) (c : ClientConfig) : ClientMatcher :=
  let idx := length (cm_entries m) in
  let '(hosts, nets) := foldl (add_id idx) (cm_hosts m, []) (cc_ids c) in
  {| cm_hosts := hosts;
     cm_entries := cm_entries m ++ [{| ce_name := cc_name c; ce_nets := nets; ce_tags := cc_tags c;
                                       ce_filtering_enabled := cc_filtering_enabled c |}] |}.
(** [ClientMatcher::build]. *)
Definition build_matcher (clients : list ClientConfig) : ClientMatcher :=
  foldl add_client {| cm_hosts := ∅; cm_entries := [] |} clients.

(** [iter.max()] on prefix lengths. *)
Definition max_prefix (nets : list ipnet) (ip : ip_addr) : option Z :=
  foldl (λ o n, Some (match o with
                      | Some b => Z.max b (ipnet_prefix_len n)
                      | None => ipnet_prefix_len n end))
    None (filter (λ n, ipnet_contains n ip = true) nets).

(** The loop of [best_match] over the entries. *)
Definition better (best : option (Z * ClientEntry)) (ip : ip_addr) (e : ClientEntry)
  : option (Z * ClientEntry) :=
  match max_prefix (ce_nets e) ip with
  | Some plen =>
      if match best with None => true | Some (b, _) => (b <? plen)%Z end then Some (plen, e) else best
  | None => best
  end.
(** [ClientMatcher::best_match]; the outer [None] is the panic of [self.entries[idx]]. *)
Definition best_match (m : ClientMatcher) (ip : ip_addr) : option (option ClientEntry) :=
  match cm_hosts m !! ip with
  | Some idx => Some <$> cm_entries m !! idx
  | None => Some (snd <$> foldl (λ best e, better best ip e) None (cm_entries m))
  end.
(** [ClientMatcher::identify], [name_for] and [name_for_str]. *)
Definition identify (m : ClientMatcher) (ip : ip_addr) : option ResolvedClient :=
  let! o := best_match m ip in
  Some match o with
       | Some e => {| rc_ip := ip; rc_name := Some (ce_name e); rc_tags := ce_tags e;
                      rc_filtering_enabled := ce_filtering_enabled e |}
       | None => {| rc_ip := ip; rc_name := None; rc_tags := []; rc_filtering_enabled := true |}
       end.
Definition name_for (m : ClientMatcher) (ip : ip_addr) : option (option bytes) :=
  let! o := best_match m ip in Some (ce_name <$> o).
Definition name_for_str (m : ClientMatcher) (s : bytes) : option (option bytes) :=
  match parse_ip s with Some ip => name_for m ip | None => Some None end.

(** ** The contract *)

(** The networks of a configured client: identifiers that are not plain addresses. *)
Definition config_nets (c : ClientConfig) : list ipnet :=
  omap (λ id, match parse_ip id with Some _ => None | None => ipnet_parse id end) (cc_ids c).
Definition has_address (c : ClientConfig) (ip : ip_addr) : Prop := ∃ id, id ∈ cc_ids c ∧ parse_ip id = Some ip.
(** A network of [c] of length [p] contains [ip]. *)
Definition covers_with (c : ClientConfig) (ip : ip_addr) (p : Z) : Prop :=
  ∃ n, n ∈ config_nets c ∧ ipnet_contains n ip = true ∧ ipnet_prefix_len n = p.

(** The client an address belongs to. *)
Inductive identifies (clients : list ClientConfig) (ip : ip_addr) : option ClientConfig → Prop :=
| by_address i c :
    clients !! i = Some c → has_address c ip →
    (∀ j d, j < i → clients !! j = Some d → ¬ has_address d ip) → identifies clients ip (Some c)
| by_network i c p :
    (∀ d, d ∈ clients → ¬ has_address d ip) →
    clients !! i = Some c → covers_with c ip p →
    (∀ d q, d ∈ clients → covers_with d ip q → (q <= p)%Z) →
    (∀ j d q, j < i → clients !! j = Some d → covers_with d ip q → (q < p)%Z) →
    identifies clients ip (Some c)
| by_default :
    (∀ d, d ∈ clients → ¬ has_address d ip) → (∀ d q, d ∈ clients → ¬ covers_with d ip q) →
    identifies clients ip None.

Definition entry_of (c : ClientConfig) : ClientEntry :=
  {| ce_name := cc_name c; ce_nets := config_nets c; ce_tags := cc_tags c;
     ce_filtering_enabled := cc_filtering_enabled c |}.

(** ** Construction *)

Lemma add_ids_spec idx ids hosts nets :
  let '(hosts', nets') := foldl (add_id idx) (hosts, nets) ids in
  nets' = nets ++ omap (λ id, match parse_ip id with Some _ => None | None => ipnet_parse id end) ids ∧
  ∀ ip, hosts' !! ip = match hosts !! ip with
                       | Some i => Some i
                       | None => if bool_decide (Some ip ∈ parse_ip <$> ids) then Some idx else None
                       end.
Proof.
  revert hosts nets. induction ids as [|id ids IH]; intros hosts nets.
  { simpl. rewrite app_nil_r. split; [done|]. intros ip. by destruct (hosts !! ip). }
  cbn [foldl]. unfold add_id at 2. destruct (parse_ip id) as [ip0|] eqn:Ep.
  - match goal with |- context [foldl _ (?h, nets) ids] => specialize (IH h nets);
      destruct (foldl (add_id idx) (h, nets) ids) as [hosts' nets'] end.
    destruct IH as [-> Hh]. split; [simpl; by rewrite Ep|]. intros ip. rewrite Hh. csimpl. rewrite Ep.
    destruct (decide (ip = ip0)) as [->|Hne].
    + rewrite (bool_decide_true (Some ip0 ∈ _ :: _)) by (by left).
      destruct (hosts !! ip0) eqn:E0; [by rewrite E0|]. by rewrite lookup_insert_eq.
    + assert (E : bool_decide (Some ip ∈ Some ip0 :: (parse_ip <$> ids)) = bool_decide (Some ip ∈ parse_ip <$> ids))
        by (apply bool_decide_ext; rewrite elem_of_cons; naive_solver).
      rewrite E. destruct (hosts !! ip0); [done|]. by rewrite lookup_insert_ne.
  - assert (E : ∀ ip, bool_decide (Some ip ∈ parse_ip <$> id :: ids) = bool_decide (Some ip ∈ parse_ip <$> ids)).
    { intros ip. apply bool_decide_ext. csimpl. rewrite Ep, elem_of_cons. naive_solver. }
    destruct (ipnet_parse id) as [n|] eqn:En.
    + specialize (IH hosts (nets ++ [n])). destruct (foldl _ _ _) as [h' n'].
      destruct IH as [-> Hh]. split; [csimpl; by rewrite Ep, En, <- app_assoc|].
      intros ip. by rewrite Hh, E.
    + specialize (IH hosts nets). destruct (foldl _ _ _) as [h' n'].
      destruct IH as [-> Hh]. split; [csimpl; by rewrite Ep, En|]. intros ip. by rewrite Hh, E.
Qed.

(** What [build] stores: the entries in order, and each address at its first client. *)
Record matcher_ok (clients : list ClientConfig) (m : ClientMatcher) : Prop := {
  mo_entries : cm_entries m = entry_of <$> clients;
  mo_host ip i : cm_hosts m !! ip = Some i →
    ∃ c, clients !! i = Some c ∧ has_address c ip ∧ ∀ j d, j < i → clients !! j = Some d → ¬ has_address d ip;
  mo_none ip : cm_hosts m !! ip = None → ∀ d, d ∈ clients → ¬ has_address d ip;
}.

Lemma has_address_elem c ip : has_address c ip ↔ Some ip ∈ parse_ip <$> cc_ids c.
Proof. unfold has_address. rewrite list_elem_of_fmap. naive_solver. Qed.

Lemma add_client_ok clients m c : matcher_ok clients m → matcher_ok (clients ++ [c]) (add_client m c).
Proof.
  intros [He Hh Hn]. unfold add_client. pose proof (add_ids_spec (length (cm_entries m)) (cc_ids c) (cm_hosts m) []) as H.
  destruct (foldl _ _ _) as [hosts nets]. destruct H as [-> Hlk].
  assert (Hlen : length (cm_entries m) = length clients) by (by rewrite He, length_fmap).
  constructor; simpl.
  - by rewrite fmap_app, He.
  - intros ip i Hi. rewrite Hlk in Hi. destruct (cm_hosts m !! ip) as [i'|] eqn:E.
    + injection Hi as ->. destruct (Hh _ _ E) as (d & Hd & Ha & Hf). exists d.
      pose proof (lookup_lt_Some _ _ _ Hd). split_and!; [by rewrite lookup_app_l|done|].
      intros j d' Hj Hd'. rewrite lookup_app_l in Hd' by lia. by eapply Hf.
    + case_bool_decide as Hin; [|done]. injection Hi as <-. rewrite Hlen. exists c. split_and!.
      * by rewrite lookup_app_r, Nat.sub_diag by lia.
      * by apply has_address_elem.
      * intros j d Hj Hd. rewrite lookup_app_l in Hd by lia. eapply Hn; [done|by eapply list_elem_of_lookup_2].
  - intros ip Hi d Hd. rewrite Hlk in Hi. destruct (cm_hosts m !! ip) eqn:E; [done|].
    case_bool_decide as Hin; [done|]. apply elem_of_app in Hd as [Hd|Hd]; [by eapply Hn|].
    apply list_elem_of_singleton in Hd as ->. by rewrite has_address_elem.
Qed.

Lemma build_matcher_ok clients : matcher_ok clients (build_matcher clients).
Proof.
  induction clients as [|c clients IH] using rev_ind; [by constructor; set_solver|].
  unfold build_matcher. rewrite foldl_snoc. by apply add_client_ok.
Qed.

(** ** Longest prefix *)

Lemma max_prefix_spec nets ip :
  match max_prefix nets ip with
  | Some p => (∃ n, n ∈ nets ∧ ipnet_contains n ip = true ∧ ipnet_prefix_len n = p) ∧
              ∀ n, n ∈ nets → ipnet_contains n ip = true → (ipnet_prefix_len n <= p)%Z
  | None => ∀ n, n ∈ nets → ipnet_contains n ip = false
  end.
Proof.
  unfold max_prefix. induction nets as [|n nets IH] using rev_ind; [by intros n ?%elem_of_nil|].
  rewrite filter_app, foldl_app, filter_cons, filter_nil.
  destruct (foldl _ _ (filter _ nets)) as [b|]; case_decide as Hc; simpl.
  - destruct IH as [(x & ? & ? & ?) Hmax]. split.
    + destruct (Z.max_spec b (ipnet_prefix_len n)) as [[_ ->]|[_ ->]]; [exists n|exists x]; set_solver.
    + intros y [Hy|Hy]%elem_of_app Hcy; [specialize (Hmax y Hy Hcy); lia|].
      apply list_elem_of_singleton in Hy as ->. lia.
  - destruct IH as [(x & ? & ? & ?) Hmax]. split; [exists x; set_solver|].
    intros y [Hy|Hy]%elem_of_app Hcy; [by apply Hmax|]. apply list_elem_of_singleton in Hy as ->. done.
  - split; [exists n; set_solver|]. intros y [Hy|Hy]%elem_of_app Hcy; [by rewrite IH in Hcy|].
    apply list_elem_of_singleton in Hy as ->. lia.
  - intros y [Hy|Hy]%elem_of_app; [by apply IH|]. apply list_elem_of_singleton in Hy as ->. by destruct (ipnet_contains n ip).
Qed.

(** The running best over the clients seen so far. *)
Definition best_so_far (clients : list ClientConfig) (ip : ip_addr) (best : option (Z * ClientEntry)) : Prop :=
  match best with
  | Some (p, e) =>
      ∃ i c, clients !! i = Some c ∧ e = entry_of c ∧ covers_with c ip p ∧
        (∀ d q, d ∈ clients → covers_with d ip q → (q <= p)%Z) ∧
        (∀ j d q, j < i → clients !! j = Some d → covers_with d ip q → (q < p)%Z)
  | None => ∀ d q, d ∈ clients → ¬ covers_with d ip q
  end.

Lemma better_ok clients ip best c :
  best_so_far clients ip best → best_so_far (clients ++ [c]) ip (better best ip (entry_of c)).
Proof.
  intros Hb. unfold better. pose proof (max_prefix_spec (config_nets c) ip) as Hm. simpl.
  destruct (max_prefix (config_nets c) ip) as [plen|].
  2:{ assert (Hno : ∀ q, ¬ covers_with c ip q) by (intros q (n & Hn & Hc & _); by rewrite (Hm n Hn) in Hc).
      destruct best as [[p e]|]; simpl in *.
      - destruct Hb as (i & d & Hi & -> & Hcov & Hmax & Hfirst). pose proof (lookup_lt_Some _ _ _ Hi).
        exists i, d. split_and!; [by rewrite lookup_app_l|done|done| |].
        + intros x q [Hx| ->%list_elem_of_singleton]%elem_of_app Hq; [by eapply Hmax|by destruct (Hno q)].
        + intros j x q Hj Hx. rewrite lookup_app_l in Hx by lia. by eapply Hfirst.
      - intros x q [Hx| ->%list_elem_of_singleton]%elem_of_app; [by apply Hb|apply Hno]. }
  destruct Hm as [Hex Hmax'].
  assert (Hcmax : ∀ q, covers_with c ip q → (q <= plen)%Z) by (intros q (n & Hn & Hc & <-); by apply Hmax').
  destruct best as [[p e]|]; simpl in Hb.
  - destruct Hb as (i & d & Hi & -> & Hcov & Hmax & Hfirst). pose proof (lookup_lt_Some _ _ _ Hi).
    destruct (Z.ltb_spec p plen).
    + exists (length clients), c. rewrite lookup_app_r, Nat.sub_diag by lia. split_and!; [done..| |].
      * intros x q [Hx| ->%list_elem_of_singleton]%elem_of_app Hq; [|by apply Hcmax].
        specialize (Hmax x q Hx Hq). lia.
      * intros j x q Hj Hx Hq. rewrite lookup_app_l in Hx by done.
        specialize (Hmax x q (list_elem_of_lookup_2 _ _ _ Hx) Hq). lia.
    + exists i, d. split_and!; [by rewrite lookup_app_l|done|done| |].
      * intros x q [Hx| ->%list_elem_of_singleton]%elem_of_app Hq; [by eapply Hmax|].
        specialize (Hcmax q Hq). lia.
      * intros j x q Hj Hx. rewrite lookup_app_l in Hx by lia. by eapply Hfirst.
  - exists (length clients), c. rewrite lookup_app_r, Nat.sub_diag by lia. split_and!; [done..| |].
    + intros x q [Hx| ->%list_elem_of_singleton]%elem_of_app Hq; [by destruct (Hb x q)|by apply Hcmax].
    + intros j x q Hj Hx Hq. rewrite lookup_app_l in Hx by done.
      destruct (Hb x q); [by eapply list_elem_of_lookup_2|done].
Qed.

Lemma best_loop_ok clients ip :
  best_so_far clients ip (foldl (λ best e, better best ip e) None (entry_of <$> clients)).
Proof.
  induction clients as [|c clients IH] using rev_ind; [by intros d q ?%elem_of_nil|].
  rewrite fmap_app, foldl_app. simpl. by apply better_ok.
Qed.

Lemma best_match_identifies clients ip :
  ∃ o, identifies clients ip o ∧ best_match (build_matcher clients) ip = Some (entry_of <$> o).
Proof.
  destruct (build_matcher_ok clients) as [He Hh Hn]. unfold best_match.
  destruct (cm_hosts _ !! ip) as [i|] eqn:E.
  - destruct (Hh ip i E) as (c & Hi & Ha & Hf). exists (Some c). split; [by eapply by_address|].
    by rewrite He, list_lookup_fmap, Hi.
  - rewrite He. pose proof (best_loop_ok clients ip) as Hb.
    destruct (foldl _ None _) as [[p e]|]; simpl in *.
    + destruct Hb as (i & c & Hi & -> & Hcov & Hmax & Hfirst). exists (Some c). split; [|done].
      by eapply (by_network _ _ i c p); [apply Hn| | | |].
    + exists None. split; [|done]. by apply by_default; [apply Hn|].
Qed.

Lemma identifies_fun clients ip o1 o2 : identifies clients ip o1 → identifies clients ip o2 → o1 = o2.
Proof.
  intros H1 H2. destruct H1 as [i c Hi Ha Hf|i c p Hn Hi Hc Hmax Hf|Hn Hno],
    H2 as [i' c' Hi' Ha' Hf'|i' c' p' Hn' Hi' Hc' Hmax' Hf'|Hn' Hno'].
  - destruct (lt_eq_lt_dec i i') as [[Hlt| ->]|Hlt]; [by destruct (Hf' i c)|congruence|by destruct (Hf i' c')].
  - by destruct (Hn' c (list_elem_of_lookup_2 _ _ _ Hi)).
  - by destruct (Hn' c (list_elem_of_lookup_2 _ _ _ Hi)).
  - by destruct (Hn c' (list_elem_of_lookup_2 _ _ _ Hi')).
  - destruct (lt_eq_lt_dec i i') as [[Hlt| ->]|Hlt].
    + specialize (Hf' i c p Hlt Hi Hc). specialize (Hmax c' p' (list_elem_of_lookup_2 _ _ _ Hi') Hc'). lia.
    + congruence.
    + specialize (Hf i' c' p' Hlt Hi' Hc'). specialize (Hmax' c p (list_elem_of_lookup_2 _ _ _ Hi) Hc). lia.
  - by destruct (Hno' c p (list_elem_of_lookup_2 _ _ _ Hi)).
  - by destruct (Hn c' (list_elem_of_lookup_2 _ _ _ Hi')).
  - by destruct (Hno c' p' (list_elem_of_lookup_2 _ _ _ Hi')).
  - done.
Qed.

(** C40: client identification never panics and is exactly the contract: the address of a
    configured client beats every network, otherwise the longest matching prefix wins and
    the first client of the configuration wins ties; an address that matches nothing is an
    unnamed client with filtering enabled. *)
Theorem identify_correct (clients : list ClientConfig) (ip : ip_addr) (r : ResolvedClient) :
  identify (build_matcher clients) ip = Some r ↔
  ∃ o, identifies clients ip o ∧
    r = match o with
        | Some c => {| rc_ip := ip; rc_name := Some (cc_name c); rc_tags := cc_tags c;
                       rc_filtering_enabled := cc_filtering_enabled c |}
        | None => {| rc_ip := ip; rc_name := None; rc_tags := []; rc_filtering_enabled := true |}
        end.
Proof.
  destruct (best_match_identifies clients ip) as (o & Ho & E). unfold identify. rewrite E. simpl. split.
  - intros [= <-]. exists o. split; [done|]. by destruct o.
  - intros (o' & Ho' & ->). rewrite (identifies_fun _ _ _ _ Ho' Ho). by destruct o.
Qed.

End clients.

Example identify_demo :
  let cs := [{| cc_id := []; cc_name := bs "host"; cc_ids := [bs "10.0.0.9"]; cc_tags := [];
                cc_filtering_enabled := false |};
             {| cc_id := []; cc_name := bs "late"; cc_ids := [bs "nonsense"; bs "10.0.0.9"]; cc_tags := [bs "t"];
                cc_filtering_enabled := true |}] in
  (λ a, rc_name <$> (parse_ip (bs a) ≫= identify (build_matcher cs))) <$> ["10.0.0.9"; "10.0.0.8"]
  = [Some (Some (bs "host")); Some None].
Proof. vm_compute. reflexivity. Qed.
