(* ===== verification/Block.v ===== *)
(** * bulwark-engine: synthesised responses ([crates/bulwark-engine/src/block.rs]). *)
From Stdlib Require Import Ascii.
From S2P Require Import Prelude RustStr RustNet Rule Dns.

(** [BlockingMode] of [bulwark-config]. *)
Inductive BlockingMode : Type := BmNxDomain | BmNullIp | BmCustomIp | BmRefused | BmNoData.
#[export] Instance BlockingMode_eq_dec : EqDecision BlockingMode.
Proof. solve_decision. Defined.

Definition I32_MAX : Z := 2147483647.

Section block.
Context {DL : DnsLib}.

(** [base]. *)
Definition base (query : Message) : Message :=
  {| msg_id := msg_id query; msg_type := MtResponse; msg_opcode := msg_opcode query;
     msg_truncation := false; msg_rd := msg_rd query; msg_ra := true; msg_cd := false;
     msg_rcode := RC_NOERROR; msg_queries := msg_queries query; msg_answers := [];
     msg_authorities := []; msg_additionals := []; msg_edns := msg_edns query |}.

(** [qtype] (and [qtype_of]) and [qname]. *)
Definition qtype (query : Message) : Z :=
  match head (msg_queries query) with Some q => q_type q | None => RT_A end.
Definition qname (query : Message) : dname :=
  match head (msg_queries query) with Some q => q_name q | None => name_root end.

(** [Record::from_rdata]. *)
Definition from_rdata (name : dname) (ttl : Z) (data : RData) : DnsRecord :=
  {| dr_name := name; dr_ttl := ttl; dr_data := data |}.

(** [push_ip]. *)
Definition push_ip (m : Message) (name : dname) (ttl : Z) (v4 : ipv4) (v6 : ipv6) : Message :=
  if (qtype m =? RT_A)%Z then push_answer (from_rdata name ttl (RdA v4)) m
  else if (qtype m =? RT_AAAA)%Z then push_answer (from_rdata name ttl (RdAAAA v6)) m
  else m.

(** [negative_soa]. *)
Definition soa_mname : dname := default name_root (name_from_str (bs "fake-for-negative-caching.bulwark.invalid.")).
Definition soa_rname : dname := default name_root (name_from_str (bs "hostmaster.bulwark.invalid.")).
Definition negative_soa (name : dname) (ttl : Z) : DnsRecord :=
  let secs := Z.min ttl I32_MAX in
  from_rdata name ttl (RdSOA soa_mname soa_rname 1 secs secs (Z.min (secs * 10) I32_MAX) ttl).

(** [block_response]. *)
Definition block_response (query : Message) (mode : BlockingMode) (custom_v4 : ipv4) (custom_v6 : ipv6)
    (ttl : Z) : Message :=
  let m := base query in
  let name := qname query in
  match mode with
  | BmNxDomain => push_authority (negative_soa name ttl) (set_rcode RC_NXDOMAIN m)
  | BmRefused => set_rcode RC_REFUSED m
  | BmNoData => push_authority (negative_soa name ttl) m
  | BmNullIp => push_ip m name ttl UNSPECIFIED4 UNSPECIFIED6
  | BmCustomIp => push_ip m name ttl custom_v4 custom_v6
  end.

(** [Rewritten]. *)
Inductive Rewritten : Type :=
| RwDone (m : Message)
| RwResolveCname (message : Message) (target : dname).

(** [rewrite_response]. *)
Definition parse_name (s : bytes) : dname := default name_root (name_from_str s).
Definition rcode_of (rc : RewriteRcode) : Z :=
  match rc with
  | RcNoError => RC_NOERROR
  | RcNxDomain => RC_NXDOMAIN
  | RcRefused => RC_REFUSED
  | RcServFail => RC_SERVFAIL
  end.
Definition rewrite_response (query : Message) (data : RewriteData) (ttl : Z) : Rewritten :=
  let m := base query in
  let name := qname query in
  let qt := qtype query in
  let answer_if rt d := RwDone (if (qt =? rt)%Z then push_answer (from_rdata name ttl d) m else m) in
  match data with
  | RwA ip => answer_if RT_A (RdA ip)
  | RwAaaa ip => answer_if RT_AAAA (RdAAAA ip)
  | RwTxt text => answer_if RT_TXT (RdTXT [text])
  | RwMx preference exchange => answer_if RT_MX (RdMX preference (parse_name exchange))
  | RwPtr target => answer_if RT_PTR (RdPTR (parse_name target))
  | RwRcode rc => RwDone (set_rcode (rcode_of rc) m)
  | RwCname target =>
      let target_name := parse_name target in
      let m := push_answer (from_rdata name ttl (RdCNAME target_name)) m in
      if (qt =? RT_A)%Z || (qt =? RT_AAAA)%Z then RwResolveCname m target_name else RwDone m
  end.
Definition rewritten_message (r : Rewritten) : Message :=
  match r with RwDone m | RwResolveCname m _ => m end.

(** [error_response]. *)
Definition error_response (query : Message) (rcode : Z) : Message := set_rcode rcode (base query).

(** ** What every synthesised response has in common *)

(** [m] answers [query]: same id, opcode, question, recursion bit and EDNS record, marked
    as a response with recursion available. *)
Record answers_query (query m : Message) : Prop := {
  aq_id : msg_id m = msg_id query;
  aq_type : msg_type m = MtResponse;
  aq_opcode : msg_opcode m = msg_opcode query;
  aq_queries : msg_queries m = msg_queries query;
  aq_rd : msg_rd m = msg_rd query;
  aq_ra : msg_ra m = true;
  aq_edns : msg_edns m = msg_edns query;
}.

Definition record_rtype (d : RData) : Z :=
  match d with
  | RdA _ => RT_A | RdAAAA _ => RT_AAAA | RdCNAME _ => RT_CNAME | RdPTR _ => RT_PTR
  | RdMX _ _ => RT_MX | RdTXT _ => RT_TXT | RdSOA _ _ _ _ _ _ _ => RT_SOA
  | RdHTTPS _ => RT_HTTPS | RdSVCB _ => RT_SVCB | RdOther t _ => t
  end.
(** Answers are owned by the question name and are of the question type (or a CNAME). *)
Definition answer_fits (query : Message) (r : DnsRecord) : Prop :=
  dr_name r = qname query ∧
  (record_rtype (dr_data r) = qtype query ∨ record_rtype (dr_data r) = RT_CNAME).

Lemma base_answers q : answers_query q (base q).
Proof. by constructor. Qed.
Lemma push_answer_answers q m r : answers_query q m → answers_query q (push_answer r m).
Proof. by intros []; constructor. Qed.
Lemma push_authority_answers q m r : answers_query q m → answers_query q (push_authority r m).
Proof. by intros []; constructor. Qed.
Lemma set_rcode_answers q m rc : answers_query q m → answers_query q (set_rcode rc m).
Proof. by intros []; constructor. Qed.
#[local] Hint Resolve base_answers push_answer_answers push_authority_answers set_rcode_answers : bulwark.

Lemma qtype_base q : qtype (base q) = qtype q.
Proof. done. Qed.

Lemma block_response_answers q mode v4 v6 ttl : answers_query q (block_response q mode v4 v6 ttl).
Proof.
  destruct mode; simpl; eauto with bulwark; unfold push_ip; do 2 (destruct (_ =? _)%Z; eauto with bulwark).
Qed.

Lemma rewrite_response_answers q d ttl : answers_query q (rewritten_message (rewrite_response q d ttl)).
Proof.
  destruct d; simpl; try destruct (_ =? _)%Z; simpl; eauto 6 with bulwark.
  destruct (_ =? _)%Z; simpl; eauto with bulwark.
Qed.

(** Whatever the blocking mode, a blocked response answers the query it was made from
    (id, opcode, question, RD, EDNS; QR and RA set), every answer record is for the
    question name and type with the configured TTL, NXDOMAIN and NODATA carry the negative
    SOA whose minimum is that TTL, and no mode lets an upstream record through. *)
Theorem block_response_correct (q : Message) (mode : BlockingMode) (v4 : ipv4) (v6 : ipv6) (ttl : Z) :
  let m := block_response q mode v4 v6 ttl in
  answers_query q m ∧
  msg_rcode m = match mode with
                | BmNxDomain => RC_NXDOMAIN | BmRefused => RC_REFUSED | _ => RC_NOERROR end ∧
  msg_answers m = match mode with
                  | BmNullIp | BmCustomIp =>
                      let '(a, b) := if mode is BmNullIp then (UNSPECIFIED4, UNSPECIFIED6) else (v4, v6) in
                      if (qtype q =? RT_A)%Z then [from_rdata (qname q) ttl (RdA a)]
                      else if (qtype q =? RT_AAAA)%Z then [from_rdata (qname q) ttl (RdAAAA b)] else []
                  | _ => []
                  end ∧
  msg_authorities m = match mode with BmNxDomain | BmNoData => [negative_soa (qname q) ttl] | _ => [] end ∧
  msg_additionals m = [].
Proof.
  intros m. split; [apply block_response_answers|]. unfold m.
  destruct mode; simpl; try done; unfold push_ip; rewrite qtype_base;
    destruct (_ =? RT_A)%Z; [done| |done|]; by destruct (_ =? RT_AAAA)%Z.
Qed.

(** A rewritten response answers the query it was made from, all of its answers are
    for the question name and either of the question type or a CNAME, it contains at most
    one record, a follow-up resolution is requested only for address questions, and then
    for the target of the CNAME it contains. *)
Theorem rewrite_response_correct (q : Message) (d : RewriteData) (ttl : Z) :
  let r := rewrite_response q d ttl in
  answers_query q (rewritten_message r) ∧
  Forall (answer_fits q) (msg_answers (rewritten_message r)) ∧
  length (msg_answers (rewritten_message r)) ≤ 1 ∧
  (∀ m t, r = RwResolveCname m t →
     (qtype q = RT_A ∨ qtype q = RT_AAAA) ∧ msg_answers m = [from_rdata (qname q) ttl (RdCNAME t)]).
Proof.
  intros r. split; [apply rewrite_response_answers|]. unfold r.
  destruct d; simpl.
  1,2,4,5,6: match goal with |- context [(qtype ?x =? ?t)%Z] => destruct (Z.eqb_spec (qtype x) t) as [E|] end;
    simpl; (split_and!; [|lia|done]); [|constructor];
    (apply Forall_singleton; split; [done|left; by rewrite E]).
  - destruct (_ || _) eqn:E; simpl; (split_and!; [apply Forall_singleton; split; [done|by right]|lia|]); [|done].
    intros m t [= <- <-]. apply orb_true_iff in E as [E%Z.eqb_eq|E%Z.eqb_eq]; auto.
  - by split_and!; [constructor|lia|].
Qed.

End block.
