(* ===== verification/RustFloat.v ===== *)
(** * Rust's [f64]: IEEE 754 binary64 with rounding to nearest even, as the Standard
    Library's executable [spec_float]. *)
From Stdlib Require Import SpecFloat.
From S2P Require Import Prelude.

Abbreviation f64 := spec_float (only parsing).
Definition f64_zero : f64 := S754_zero false.
Definition f64_inf : f64 := S754_infinity false.
(** [n as f64] for an integer. *)
Definition f64_of (z : Z) : f64 := binary_normalize 53 1024 z 0 false.
(** A decimal literal [n / d], correctly rounded. *)
Definition f64_lit (n d : Z) : f64 := SFdiv 53 1024 (f64_of n) (f64_of d).
Definition f64_add (x y : f64) : f64 := SFadd 53 1024 x y.
Definition f64_sub (x y : f64) : f64 := SFsub 53 1024 x y.
Definition f64_mul (x y : f64) : f64 := SFmul 53 1024 x y.
Definition f64_div (x y : f64) : f64 := SFdiv 53 1024 x y.
Definition f64_le (x y : f64) : bool := SFleb x y.
Definition f64_lt (x y : f64) : bool := SFltb x y.
Definition f64_is_finite (x : f64) : bool :=
  match x with S754_zero _ | S754_finite _ _ _ => true | _ => false end.

(** [f64::max]: a NaN operand is ignored. *)
Definition f64_max (x y : f64) : f64 :=
  match x, y with
  | S754_nan, _ => y
  | _, S754_nan => x
  | _, _ => if f64_lt x y then y else x
  end.
(** [x.round() as u64]: half away from zero, then the saturating cast. *)
Definition f64_round_u64 (x : f64) : Z :=
  match x with
  | S754_infinity false => U64_MAX
  | S754_finite false m e =>
      let r := if (0 <=? e)%Z then (Z.pos m * 2 ^ e)%Z else ((2 * Z.pos m + 2 ^ (- e)) / 2 ^ (1 - e))%Z in
      Z.min r U64_MAX
  | _ => 0%Z
  end.
(** [Duration::as_secs_f64] of a duration in nanoseconds. *)
Definition duration_as_secs_f64 (ns : Z) : f64 :=
  f64_add (f64_of (ns / 1000000000)) (f64_div (f64_of (ns mod 1000000000)) (f64_of 1000000000)).

#[export] Instance f64_eq_dec : EqDecision f64.
Proof. solve_decision. Defined.
