(* ===== verification/QueryLog.v ===== *)
(** * bulwark-engine: query log entries and the gate in front of the writer
    ([crates/bulwark-engine/src/querylog.rs]).

    The bounded channel to the writer task is [tokio]'s: [try_send] is a parameter that
    either accepts an entry or refuses it. *)
From Stdlib Require Import Ascii.
From S2P Require Import Prelude RustStr RustNet RustFloat Rule.

Inductive QueryAction : Type :=
| QaForwarded (upstream : bytes)
| QaCached
| QaBlocked (rule : bytes) (list_id : Z)
| QaRewritten (rule : bytes) (list_id : Z)
| QaError.

Record QueryLogEntry : Type := {
  le_id : Z;
  le_time_ms : Z;
  le_client_ip : bytes;
  le_question : bytes;
  le_qtype : bytes;
  le_action : QueryAction;
  le_allowlisted : bool;
  le_rcode : bytes;
  le_answers : list bytes;
  le_elapsed_ms : f64;
}.

(** [QueryLogEntry::empty]. *)
Definition entry_empty : QueryLogEntry :=
  {| le_id := 0; le_time_ms := 0; le_client_ip := []; le_question := []; le_qtype := [];
     le_action := QaCached; le_allowlisted := false; le_rcode := []; le_answers := [];
     le_elapsed_ms := f64_zero |}.

(** [is_blocked], [rule], [list_id], [upstream] and [cached]. *)
Definition entry_is_blocked (e : QueryLogEntry) : bool :=
  match le_action e with QaBlocked _ _ => negb (le_allowlisted e) | _ => false end.
Definition entry_rule (e : QueryLogEntry) : option bytes :=
  match le_action e with QaBlocked r _ | QaRewritten r _ => Some r | _ => None end.
Definition entry_list_id (e : QueryLogEntry) : option Z :=
  match le_action e with QaBlocked _ l | QaRewritten _ l => Some l | _ => None end.
Definition entry_upstream (e : QueryLogEntry) : option bytes :=
  match le_action e with QaForwarded u => Some u | _ => None end.
Definition entry_cached (e : QueryLogEntry) : bool :=
  match le_action e with QaCached => true | _ => false end.

(** [LogFilter] and [LogPage]. *)
Record LogFilter : Type := { lf_search : option bytes; lf_client : option bytes; lf_blocked_only : bool }.
Record LogPage : Type := { lp_entries : list QueryLogEntry; lp_total : nat }.

Definition clear_client (e : QueryLogEntry) : QueryLogEntry :=
  {| le_id := le_id e; le_time_ms := le_time_ms e; le_client_ip := []; le_question := le_question e;
     le_qtype := le_qtype e; le_action := le_action e; le_allowlisted := le_allowlisted e;
     le_rcode := le_rcode e; le_answers := le_answers e; le_elapsed_ms := le_elapsed_ms e |}.

Section log.
(** [mpsc::Sender::try_send]: the channel after accepting the entry, or a refusal. *)
Context {sender : Type} (try_send : sender → QueryLogEntry → option sender).

Record QueryLog : Type := {
  ql_enabled : bool;
  ql_anonymize : bool;
  ql_dropped : Z;
  ql_sink : option sender;
}.
Definition querylog_new (enabled anonymize : bool) : QueryLog :=
  {| ql_enabled := enabled; ql_anonymize := anonymize; ql_dropped := 0; ql_sink := None |}.
Definition set_sink (tx : sender) (l : QueryLog) : QueryLog :=
  {| ql_enabled := ql_enabled l; ql_anonymize := ql_anonymize l; ql_dropped := ql_dropped l;
     ql_sink := Some tx |}.
Definition querylog_reconfigure (enabled anonymize : bool) (l : QueryLog) : QueryLog :=
  {| ql_enabled := enabled; ql_anonymize := anonymize; ql_dropped := ql_dropped l; ql_sink := ql_sink l |}.

(** [QueryLog::push]. *)
Definition log_push (l : QueryLog) (entry : QueryLogEntry) : QueryLog :=
  if negb (ql_enabled l) then l
  else
    let entry := if ql_anonymize l then clear_client entry else entry in
    match ql_sink l with
    | None => l
    | Some tx =>
        match try_send tx entry with
        | Some tx' => {| ql_enabled := ql_enabled l; ql_anonymize := ql_anonymize l;
                         ql_dropped := ql_dropped l; ql_sink := Some tx' |}
        | None => {| ql_enabled := ql_enabled l; ql_anonymize := ql_anonymize l;
                     ql_dropped := wrap 64 (ql_dropped l + 1); ql_sink := Some tx |}
        end
    end.
End log.

(** A channel that keeps everything it was given, up to a capacity. *)
Definition bounded_send (cap : nat) (q : list QueryLogEntry) (e : QueryLogEntry) : option (list QueryLogEntry) :=
  if length q <? cap then Some (q ++ [e]) else None.

(** ** Properties *)

Definition queue_of (l : QueryLog (sender:=list QueryLogEntry)) : list QueryLogEntry := default [] (ql_sink l).

(** Pushing a sequence of entries. *)
Definition log_pushes (cap : nat) (l : QueryLog) (es : list QueryLogEntry) : QueryLog :=
  foldl (log_push (bounded_send cap)) l es.

Lemma log_push_flags cap l e :
  ql_enabled (log_push (bounded_send cap) l e) = ql_enabled l ∧
  ql_anonymize (log_push (bounded_send cap) l e) = ql_anonymize l.
Proof.
  unfold log_push. destruct (ql_enabled l) eqn:E; simpl; [|done].
  destruct (ql_sink l); [|done]. by destruct (bounded_send _ _ _).
Qed.

Definition anon_log (d : Z) (q : list QueryLogEntry) : QueryLog :=
  {| ql_enabled := true; ql_anonymize := true; ql_dropped := d; ql_sink := Some q |}.

Lemma log_push_anon cap d q e :
  log_push (bounded_send cap) (anon_log d q) e
  = if length q <? cap then anon_log d (q ++ [clear_client e]) else anon_log (wrap 64 (d + 1)) q.
Proof. unfold log_push, bounded_send. simpl. by destruct (_ <? _). Qed.

Lemma log_pushes_anon cap es q d :
  Forall (λ e, le_client_ip e = []) q → length q ≤ cap → (0 <= d)%Z → in_u 64 (d + Z.of_nat (length es)) →
  let l := log_pushes cap (anon_log d q) es in
  Forall (λ e, le_client_ip e = []) (queue_of l) ∧
  (ql_dropped l + Z.of_nat (length (queue_of l)) = d + Z.of_nat (length q) + Z.of_nat (length es))%Z ∧
  length (queue_of l) ≤ cap.
Proof.
  revert q d. induction es as [|e es IH]; intros q d Hq Hl H0 Hd; cbv zeta; unfold log_pushes in *; cbn [foldl].
  { unfold queue_of. simpl. split_and!; [done|lia|done]. }
  rewrite log_push_anon. unfold in_u in Hd. cbn [length] in Hd |- *. destruct (Nat.ltb_spec (length q) cap).
  - destruct (IH (q ++ [clear_client e]) d) as (? & Hn & ?); [|rewrite length_app; simpl; lia|done|unfold in_u; lia|].
    { apply Forall_app. split; [done|]. by repeat constructor. }
    split_and!; [done| |done]. rewrite Hn, length_app. simpl. lia.
  - rewrite wrap_small by (unfold in_u; lia). destruct (IH q (d + 1)%Z) as (? & Hn & ?); [done|done|lia|unfold in_u; lia|].
    split_and!; [done| |done]. rewrite Hn. lia.
Qed.

(** With anonymisation on, no entry that reaches the writer carries a client address,
    whatever was pushed and however many entries the bounded channel refused; every
    refusal is counted, so delivered plus dropped is what was pushed. *)
Theorem log_anonymized (cap : nat) (es : list QueryLogEntry) (d : Z) :
  in_u 64 (d + Z.of_nat (length es)) → (0 <= d)%Z →
  let l := log_pushes cap (anon_log d []) es in
  Forall (λ e, le_client_ip e = []) (queue_of l) ∧
  (ql_dropped l + Z.of_nat (length (queue_of l)) = d + Z.of_nat (length es))%Z ∧
  length (queue_of l) ≤ cap.
Proof.
  intros Hd H0. destruct (log_pushes_anon cap es [] d) as (? & Hn & ?); [constructor|simpl; lia|done|done|].
  cbv zeta. split_and!; [done| |done]. rewrite Hn. simpl. lia.
Qed.

Lemma log_anonymized_witness :
  let e := {| le_id := 1; le_time_ms := 5; le_client_ip := bs "10.0.0.1"; le_question := bs "a."; le_qtype := bs "A";
              le_action := QaCached; le_allowlisted := false; le_rcode := bs "NOERROR"; le_answers := [];
              le_elapsed_ms := f64_zero |} in
  let l := log_pushes 1 (anon_log 3 []) [e; e] in
  Forall (λ e, le_client_ip e = []) (queue_of l) ∧ (ql_dropped l + Z.of_nat (length (queue_of l)) = 3 + 2)%Z
  ∧ length (queue_of l) ≤ 1.
Proof. apply log_anonymized; unfold in_u; simpl; lia. Defined.
