(* ===== verification/Cache.v ===== *)
(** * bulwark-engine: the response cache ([crates/bulwark-engine/src/cache.rs]).

    Time is passed in: [now] is the monotonic clock in nanoseconds.  The LRU maps of the
    shards belong to the crate [lru] and are an interface with its documented laws; the
    shard hash is a parameter.  Counters are [u64]s with wrapping [fetch_add].  An index
    out of the shard array would be a panic, the outcome [None]. *)
From Stdlib Require Import Ascii.
From S2P Require Import Prelude RustStr RustNet Rule FilterEngine Dns Wire.

(** ** The [lru] crate *)

(** Association lists, most recently used first. *)
Section assoc.
Context {K V : Type} `{EqDecision K}.
Fixpoint alookup (k : K) (l : list (K * V)) : option V :=
  match l with
  | [] => None
  | (k', v) :: l => if decide (k' = k) then Some v else alookup k l
  end.
Definition adelete (k : K) (l : list (K * V)) : list (K * V) := filter (λ p, p.1 ≠ k) l.
Definition promote (k : K) (l : list (K * V)) : list (K * V) :=
  match alookup k l with Some v => (k, v) :: adelete k l | None => l end.
End assoc.

(** [LruCache]: construction, lookup (which promotes), insertion (which evicts the least
    recently used entry of a full map), removal, resizing, and iteration in most recently
    used order. *)
Class LruLib (K V : Type) {EK : EqDecision K} : Type := {
  lru : Type;
  lru_new : nat → lru;
  lru_cap : lru → nat;
  lru_iter : lru → list (K * V);
  lru_get : K → lru → option V * lru;
  lru_put : K → V → lru → lru;
  lru_pop : K → lru → lru;
  lru_resize : nat → lru → lru;
  lru_clear : lru → lru;
}.
Arguments lru K V {EK LruLib}.

Class LruLaws {K V} {EK : EqDecision K} (L : LruLib K V) : Prop := {
  lru_new_iter n : lru_iter (lru_new n) = [];
  lru_new_cap n : lru_cap (lru_new n) = n;
  lru_get_value k c : (lru_get k c).1 = alookup k (lru_iter c);
  lru_get_iter k c : lru_iter (lru_get k c).2 = promote k (lru_iter c);
  lru_get_cap k c : lru_cap (lru_get k c).2 = lru_cap c;
  lru_put_iter k v c : lru_iter (lru_put k v c) = take (lru_cap c) ((k, v) :: adelete k (lru_iter c));
  lru_put_cap k v c : lru_cap (lru_put k v c) = lru_cap c;
  lru_pop_iter k c : lru_iter (lru_pop k c) = adelete k (lru_iter c);
  lru_pop_cap k c : lru_cap (lru_pop k c) = lru_cap c;
  lru_resize_iter n c : lru_iter (lru_resize n c) = take n (lru_iter c);
  lru_resize_cap n c : lru_cap (lru_resize n c) = n;
  lru_clear_iter c : lru_iter (lru_clear c) = [];
  lru_clear_cap c : lru_cap (lru_clear c) = lru_cap c;
}.

(** The list implementation satisfies the laws. *)
Record ListLru (K V : Type) : Type := { ll_cap : nat; ll_items : list (K * V) }.
Arguments ll_cap {K V}. Arguments ll_items {K V}.
#[export] Instance list_lru K V {EK : EqDecision K} : LruLib K V := {
  lru := ListLru K V;
  lru_new n := {| ll_cap := n; ll_items := [] |};
  lru_cap := ll_cap;
  lru_iter := ll_items;
  lru_get k c := (alookup k (ll_items c), {| ll_cap := ll_cap c; ll_items := promote k (ll_items c) |});
  lru_put k v c := {| ll_cap := ll_cap c; ll_items := take (ll_cap c) ((k, v) :: adelete k (ll_items c)) |};
  lru_pop k c := {| ll_cap := ll_cap c; ll_items := adelete k (ll_items c) |};
  lru_resize n c := {| ll_cap := n; ll_items := take n (ll_items c) |};
  lru_clear c := {| ll_cap := ll_cap c; ll_items := [] |};
}.
#[export] Instance list_lru_laws K V {EK : EqDecision K} : LruLaws (list_lru K V).
Proof. by constructor. Qed.

(** ** Data *)

Definition DEFAULT_NEGATIVE_TTL : Z := 30.
Definition STALE_SERVE_TTL : Z := 1.
Definition NANOS : Z := 1000000000.

Inductive RvOutcome : Type :=
| OutClean
| OutBlock (info : MatchInfo).
Record ResponseVerdict : Type := { rv_generation : Z; rv_outcome : RvOutcome }.
(** [ResponseVerdict::clean] and [ResponseVerdict::block]. *)
Definition verdict_clean (generation : Z) : ResponseVerdict :=
  {| rv_generation := generation; rv_outcome := OutClean |}.
Definition verdict_block (info : MatchInfo) (generation : Z) : ResponseVerdict :=
  {| rv_generation := generation; rv_outcome := OutBlock info |}.

Inductive HitFreshness : Type := Fresh | Stale.
Definition requires_refresh (f : HitFreshness) : bool := match f with Stale => true | Fresh => false end.

Record CacheCounters : Type := {
  cn_hits : Z; cn_misses : Z; cn_stale_hits : Z; cn_refreshes : Z; cn_refresh_failures : Z;
}.
Definition counters_default : CacheCounters :=
  {| cn_hits := 0; cn_misses := 0; cn_stale_hits := 0; cn_refreshes := 0; cn_refresh_failures := 0 |}.

(** [shard_count] (from [available_parallelism], [None] when it fails) and [shard_cap]. *)
Fixpoint next_pow2_go (fuel : nat) (p n : Z) : Z :=
  match fuel with
  | 0 => p
  | S fuel => if (n <=? p)%Z then p else next_pow2_go fuel (2 * p) n
  end.
Definition next_power_of_two (n : Z) : Z := next_pow2_go 64 1 n.
Definition clamp (lo hi z : Z) : Z := Z.max lo (Z.min hi z).
Definition cache_shard_count (parallelism : option Z) : nat :=
  Z.to_nat (clamp 8 64 (next_power_of_two (default 4%Z parallelism))).
Definition shard_cap (total shards : nat) : nat := max (total / shards) 1.

Section cache.
Context {DL : DnsLib} {DC : DnsCodec}.

Inductive Stored : Type :=
| StWire (bytes : list ascii) (ttl_offsets : list Z) (rcode : Z) (answers : list (list ascii))
| StMessage (message : Message).

Record Entry : Type := {
  e_stored : Stored;
  e_stored_at : Z;
  e_ttl : Z;
  e_verdict : option ResponseVerdict;
}.

(** [Entry::age_secs]: [Instant::elapsed] saturates at zero. *)
Definition age_secs (now : Z) (e : Entry) : Z :=
  Z.min (Z.max 0 (now - e_stored_at e) / NANOS) U32_MAX.

Inductive CachedResponse : Type :=
| CrWire (bytes : list ascii) (rcode : Z) (answers : list (list ascii))
| CrMessage (m : Message).
Record InsertedWire : Type := { iw_bytes : list ascii; iw_rcode : Z; iw_answers : list (list ascii) }.
(** [CachedResponse::into_message]. *)
Definition cached_into_message (r : CachedResponse) : Message :=
  match r with
  | CrMessage m => m
  | CrWire bytes _ _ => default (message_new 0 MtResponse OPCODE_QUERY) (msg_from_vec bytes)
  end.

Record CacheHit : Type := {
  ch_response : CachedResponse;
  ch_freshness : HitFreshness;
  ch_verdict : option ResponseVerdict;
}.

(** [CacheConfig] and [DnsCache]. *)
Record CacheConfig : Type := {
  cf_enabled : bool;
  cf_min_ttl : Z;
  cf_max_ttl : Z;
  cf_stale_max_age : Z;
  cf_store_summaries : bool;
}.

Context {L : LruLib QueryKey Entry} (khash : QueryKey → Z).

Record DnsCache : Type := {
  dc_shards : list (lru QueryKey Entry);
  dc_mask : Z;
  dc_cfg : CacheConfig;
  dc_capacity : nat;
  dc_counters : CacheCounters;
}.

Definition set_shards (s : list (lru QueryKey Entry)) (c : DnsCache) : DnsCache :=
  {| dc_shards := s; dc_mask := dc_mask c; dc_cfg := dc_cfg c; dc_capacity := dc_capacity c;
     dc_counters := dc_counters c |}.
Definition set_cfg (f : CacheConfig) (c : DnsCache) : DnsCache :=
  {| dc_shards := dc_shards c; dc_mask := dc_mask c; dc_cfg := f; dc_capacity := dc_capacity c;
     dc_counters := dc_counters c |}.
Definition set_counters (k : CacheCounters) (c : DnsCache) : DnsCache :=
  {| dc_shards := dc_shards c; dc_mask := dc_mask c; dc_cfg := dc_cfg c; dc_capacity := dc_capacity c;
     dc_counters := k |}.

(** [DnsCache::new]. *)
Definition cache_new (parallelism : option Z) (capacity : nat) (min_ttl max_ttl stale_max_age : Z) : DnsCache :=
  let cap := max capacity 1 in
  let n := cache_shard_count parallelism in
  {| dc_shards := replicate n (lru_new (shard_cap cap n)); dc_mask := (Z.of_nat n - 1)%Z;
     dc_cfg := {| cf_enabled := true; cf_min_ttl := min_ttl; cf_max_ttl := max_ttl;
                  cf_stale_max_age := stale_max_age; cf_store_summaries := true |};
     dc_capacity := cap; dc_counters := counters_default |}.

(** [DnsCache::shard]: the index of the shard of a key. *)
Definition shard_idx (c : DnsCache) (k : QueryKey) : nat := Z.to_nat (Z.land (khash k) (dc_mask c)).

(** [clear], [reconfigure], [set_store_summaries], [len]. *)
Definition cache_clear (c : DnsCache) : DnsCache := set_shards (lru_clear <$> dc_shards c) c.
Definition cache_reconfigure (enabled : bool) (capacity : nat) (min_ttl max_ttl stale_max_age : Z)
    (c : DnsCache) : DnsCache :=
  let c := set_cfg {| cf_enabled := enabled; cf_min_ttl := min_ttl; cf_max_ttl := max_ttl;
                      cf_stale_max_age := stale_max_age;
                      cf_store_summaries := cf_store_summaries (dc_cfg c) |} c in
  let cap := max capacity 1 in
  let shards := if bool_decide (cap = dc_capacity c) then dc_shards c
                else lru_resize (shard_cap cap (length (dc_shards c))) <$> dc_shards c in
  let c := {| dc_shards := shards; dc_mask := dc_mask c; dc_cfg := dc_cfg c; dc_capacity := cap;
              dc_counters := dc_counters c |} in
  if enabled then c else cache_clear c.
Definition set_store_summaries (store : bool) (c : DnsCache) : DnsCache :=
  set_cfg {| cf_enabled := cf_enabled (dc_cfg c); cf_min_ttl := cf_min_ttl (dc_cfg c);
             cf_max_ttl := cf_max_ttl (dc_cfg c); cf_stale_max_age := cf_stale_max_age (dc_cfg c);
             cf_store_summaries := store |} c.
Definition cache_len (c : DnsCache) : nat := sum_list (length ∘ lru_iter <$> dc_shards c).
Definition cache_is_empty (c : DnsCache) : bool := cache_len c =? 0.

(** The counters. *)
Definition inc (z : Z) : Z := wrap 64 (z + 1).
Definition add_hit (k : CacheCounters) : CacheCounters :=
  {| cn_hits := inc (cn_hits k); cn_misses := cn_misses k; cn_stale_hits := cn_stale_hits k;
     cn_refreshes := cn_refreshes k; cn_refresh_failures := cn_refresh_failures k |}.
Definition add_miss (k : CacheCounters) : CacheCounters :=
  {| cn_hits := cn_hits k; cn_misses := inc (cn_misses k); cn_stale_hits := cn_stale_hits k;
     cn_refreshes := cn_refreshes k; cn_refresh_failures := cn_refresh_failures k |}.
Definition add_stale_hit (k : CacheCounters) : CacheCounters :=
  {| cn_hits := cn_hits k; cn_misses := cn_misses k; cn_stale_hits := inc (cn_stale_hits k);
     cn_refreshes := cn_refreshes k; cn_refresh_failures := cn_refresh_failures k |}.
Definition note_refresh_started (c : DnsCache) : DnsCache :=
  let k := dc_counters c in
  set_counters {| cn_hits := cn_hits k; cn_misses := cn_misses k; cn_stale_hits := cn_stale_hits k;
                  cn_refreshes := inc (cn_refreshes k); cn_refresh_failures := cn_refresh_failures k |} c.
Definition note_refresh_failed (c : DnsCache) : DnsCache :=
  let k := dc_counters c in
  set_counters {| cn_hits := cn_hits k; cn_misses := cn_misses k; cn_stale_hits := cn_stale_hits k;
                  cn_refreshes := cn_refreshes k; cn_refresh_failures := inc (cn_refresh_failures k) |} c.
Definition seed_counters (k : CacheCounters) (c : DnsCache) : DnsCache := set_counters k c.
Definition reset_counters (c : DnsCache) : DnsCache := seed_counters counters_default c.

(** [adjust_ttls]. *)
Definition with_ttl (ttl : Z) (r : DnsRecord) : DnsRecord :=
  {| dr_name := dr_name r; dr_ttl := ttl; dr_data := dr_data r |}.
Definition adjust_ttls (m : Message) (ttl : Z) : Message :=
  set_sections (with_ttl ttl <$> msg_answers m) (with_ttl ttl <$> msg_authorities m)
    (with_ttl ttl <$> msg_additionals m) m.

(** The response built from a stored entry. *)
Definition serve (s : Stored) (id ttl : Z) : CachedResponse :=
  match s with
  | StWire bytes offs rcode answers => CrWire (patch bytes id ttl offs) rcode answers
  | StMessage m => CrMessage (set_id id (adjust_ttls m ttl))
  end.

(** [DnsCache::get]. *)
Definition cache_get (now : Z) (c : DnsCache) (key : QueryKey) (id : Z) : option (option CacheHit * DnsCache) :=
  if negb (cf_enabled (dc_cfg c)) then Some (None, c)
  else
    let i := shard_idx c key in
    let! sh := dc_shards c !! i in
    let '(found, sh) := lru_get key sh in
    match found with
    | None => Some (None, set_counters (add_miss (dc_counters c)) (set_shards (<[i := sh]> (dc_shards c)) c))
    | Some entry =>
        let age := age_secs now entry in
        if (age <? e_ttl entry)%Z then
          let ttl := Z.max (e_ttl entry - age) 1 in
          Some (Some {| ch_response := serve (e_stored entry) id ttl; ch_freshness := Fresh;
                        ch_verdict := e_verdict entry |},
                set_counters (add_hit (dc_counters c)) (set_shards (<[i := sh]> (dc_shards c)) c))
        else if (Z.max 0 (age - e_ttl entry) <? cf_stale_max_age (dc_cfg c))%Z then
          Some (Some {| ch_response := serve (e_stored entry) id STALE_SERVE_TTL; ch_freshness := Stale;
                        ch_verdict := e_verdict entry |},
                set_counters (add_hit (add_stale_hit (dc_counters c)))
                  (set_shards (<[i := sh]> (dc_shards c)) c))
        else
          Some (None, set_counters (add_miss (dc_counters c))
                        (set_shards (<[i := lru_pop key sh]> (dc_shards c)) c))
    end.

(** [negative_ttl] and [DnsCache::cacheable_ttl]. *)
Fixpoint negative_ttl_of (recs : list DnsRecord) : Z :=
  match recs with
  | [] => DEFAULT_NEGATIVE_TTL
  | r :: recs =>
      match dr_data r with
      | RdSOA _ _ _ _ _ _ minimum => Z.max (Z.min minimum (dr_ttl r)) 1
      | _ => negative_ttl_of recs
      end
  end.
Definition negative_ttl (m : Message) : Z := negative_ttl_of (msg_authorities m).
Definition min_ttl_of (recs : list DnsRecord) : Z :=
  match recs with
  | [] => DEFAULT_NEGATIVE_TTL
  | r :: recs => foldl (λ a r, Z.min a (dr_ttl r)) (dr_ttl r) recs
  end.
Definition cacheable_ttl (cfg : CacheConfig) (m : Message) : option Z :=
  if negb ((msg_rcode m =? RC_NOERROR)%Z || (msg_rcode m =? RC_NXDOMAIN)%Z) then None
  else if msg_truncation m then None
  else
    let base_ttl := if msg_answers m is [] then negative_ttl m else min_ttl_of (msg_answers m) in
    let ttl := Z.max base_ttl (cf_min_ttl cfg) in
    let ttl := if (cf_max_ttl cfg =? 0)%Z then ttl else Z.min ttl (cf_max_ttl cfg) in
    if (ttl =? 0)%Z then None else Some ttl.

(** The storage form of a message, and the wire form handed back. *)
Definition store_message (cfg : CacheConfig) (m : Message) : Stored * option InsertedWire :=
  match msg_to_vec m with
  | Some bytes =>
      match scan_ttl_offsets bytes with
      | Some offs =>
          let answers := if cf_store_summaries cfg then summarize <$> msg_answers m else [] in
          (StWire bytes offs (msg_rcode m) answers,
           Some {| iw_bytes := bytes; iw_rcode := msg_rcode m; iw_answers := answers |})
      | None => (StMessage m, None)
      end
  | None => (StMessage m, None)
  end.

(** [self.shard(&key).lock().put(key, entry)]. *)
Definition put_entry (c : DnsCache) (key : QueryKey) (e : Entry) : option DnsCache :=
  let i := shard_idx c key in
  let! sh := dc_shards c !! i in
  Some (set_shards (<[i := lru_put key e sh]> (dc_shards c)) c).

(** [DnsCache::insert_inner] ([insert], [insert_with_verdict] and [insert_returning] are its
    instances). *)
Definition cache_insert (now : Z) (c : DnsCache) (key : QueryKey) (m : Message) (verdict : option ResponseVerdict)
  : option (option InsertedWire * DnsCache) :=
  if negb (cf_enabled (dc_cfg c)) then Some (None, c)
  else match cacheable_ttl (dc_cfg c) m with
  | None => Some (None, c)
  | Some ttl =>
      let '(stored, served) := store_message (dc_cfg c) m in
      let! c := put_entry c key {| e_stored := stored; e_stored_at := now; e_ttl := ttl; e_verdict := verdict |} in
      Some (served, c)
  end.

End cache.
