(* ===== verification/CacheProps.v ===== *)
(** * Properties of the response cache.

    The invariant of the sharded map, its preservation by every operation, the lookup
    after an insertion, the bounds on served TTLs and the clamping of stored ones. *)
From Stdlib Require Import Ascii.
From S2P Require Import Prelude RustStr RustNet Rule FilterEngine Dns Wire DnsInstances Cache.

(** ** Association lists *)

Section assoc.
Context {K V : Type} `{EqDecision K}.
Implicit Types l : list (K * V).

Lemma alookup_elem k v l : alookup k l = Some v → (k, v) ∈ l.
Proof.
  induction l as [|[k' v'] l IH]; simpl; [done|]. case_decide; [intros [= ->]; subst; by left|]. right. auto.
Qed.
Lemma alookup_None k l : alookup k l = None ↔ k ∉ l.*1.
Proof.
  induction l as [|[k' v'] l IH]; csimpl; [set_solver|]. case_decide; [set_solver|]. rewrite IH. set_solver.
Qed.
Lemma adelete_elem k p l : p ∈ adelete k l ↔ p ∈ l ∧ p.1 ≠ k.
Proof. unfold adelete. rewrite list_elem_of_filter. tauto. Qed.
Lemma adelete_length k l : length (adelete k l) ≤ length l.
Proof. apply length_filter. Qed.
Lemma adelete_sublist k l : adelete k l `sublist_of` l.
Proof. apply sublist_filter. Qed.
Lemma adelete_nodup k l : NoDup l.*1 → NoDup (adelete k l).*1.
Proof. intros H. apply (sublist_NoDup _ l.*1); [done|]. apply fmap_sublist, adelete_sublist. Qed.
Lemma adelete_absent k l : k ∉ (adelete k l).*1.
Proof. intros ([k' v] & -> & [_ ?]%adelete_elem)%list_elem_of_fmap. done. Qed.
Lemma cons_adelete_nodup k v l : NoDup l.*1 → NoDup ((k, v) :: adelete k l).*1.
Proof. intros H. csimpl. constructor; [apply adelete_absent|by apply adelete_nodup]. Qed.
Lemma promote_elem k p l : NoDup l.*1 → p ∈ promote k l ↔ p ∈ l.
Proof.
  intros Hn. unfold promote. destruct (alookup k l) as [v|] eqn:E; [|done].
  apply alookup_elem in E. rewrite elem_of_cons, adelete_elem. split.
  - intros [->|[? _]]; done.
  - intros Hp. destruct (decide (p.1 = k)) as [Hk|]; [left|by right]. destruct p as [k' v']. simpl in Hk. subst.
    assert (v' = v) as ->; [|done].
    apply (f_equal snd (nodup_fmap_inj fst l (k, v') (k, v) Hn Hp E eq_refl)).
Qed.
Lemma promote_nodup k l : NoDup l.*1 → NoDup (promote k l).*1.
Proof.
  intros Hn. unfold promote. destruct (alookup k l); [by apply cons_adelete_nodup|done].
Qed.
Lemma adelete_drop_one k v l : (k, v) ∈ l → S (length (adelete k l)) ≤ length l.
Proof.
  induction l as [|[k' v'] l IH]; [by intros ?%elem_of_nil|].
  unfold adelete. rewrite filter_cons. intros [E|Hin]%elem_of_cons.
  - injection E as <- <-. rewrite decide_False by (simpl; tauto).
    pose proof (adelete_length k l). unfold adelete in *. simpl. lia.
  - specialize (IH Hin). unfold adelete in IH. case_decide; simpl; lia.
Qed.
Lemma promote_length k l : length (promote k l) ≤ length l.
Proof.
  unfold promote. destruct (alookup k l) eqn:E; [|done]. apply alookup_elem, adelete_drop_one in E. done.
Qed.
Lemma alookup_cons_adelete k v l : alookup k ((k, v) :: adelete k l) = Some v.
Proof. simpl. by rewrite decide_True. Qed.
Lemma alookup_take_head k v l n : 0 < n → alookup k (take n ((k, v) :: l)) = Some v.
Proof. intros. destruct n; [lia|]. simpl. by rewrite decide_True. Qed.
Lemma alookup_promote k k' l : alookup k' (promote k l) = alookup k' l.
Proof.
  unfold promote. destruct (alookup k l) as [v|] eqn:E; [|done]. simpl. case_decide as Hk; [by subst|].
  clear E. induction l as [|[a b] l IH]; [done|]. unfold adelete in *. rewrite filter_cons.
  case_decide; simpl; [|rewrite decide_False by (simpl in *; naive_solver); done].
  by rewrite IH.
Qed.
End assoc.

Section props.
Context {DL : DnsLib} {DC : DnsCodec}.
Context {L : LruLib QueryKey Entry} {LL : LruLaws L} (khash : QueryKey → Z).
(** What is known of every stored entry. *)
Context (EOK : Entry → Prop).
Implicit Types (c : DnsCache) (k key : QueryKey) (e : Entry).

(** ** The invariant *)

(** One shard: within its capacity, keys unique and all of this shard, entries good. *)
Record shard_ok c (i : nat) (sh : lru QueryKey Entry) : Prop := {
  so_cap : lru_cap sh = shard_cap (dc_capacity c) (length (dc_shards c));
  so_len : length (lru_iter sh) ≤ lru_cap sh;
  so_nodup : NoDup (lru_iter sh).*1;
  so_home k e : (k, e) ∈ lru_iter sh → shard_idx khash c k = i;
  so_entry k e : (k, e) ∈ lru_iter sh → EOK e;
}.
Record cache_wf c : Prop := {
  ci_shards : ∃ j, (3 <= j <= 6)%Z ∧ Z.of_nat (length (dc_shards c)) = (2 ^ j)%Z ∧ dc_mask c = (2 ^ j - 1)%Z;
  ci_capacity : 1 ≤ dc_capacity c;
  ci_min_ttl : (0 <= cf_min_ttl (dc_cfg c))%Z;
  ci_max_ttl : (0 <= cf_max_ttl (dc_cfg c))%Z;
  ci_ok i sh : dc_shards c !! i = Some sh → shard_ok c i sh;
}.

Lemma shard_in_range c k : cache_wf c → shard_idx khash c k < length (dc_shards c).
Proof.
  intros [(j & Hj & Hl & Hm) _ _ _ _]. unfold shard_idx. rewrite Hm.
  rewrite Z.sub_1_r, <- Z.ones_equiv, Z.land_ones by lia.
  pose proof (Z.mod_pos_bound (khash k) (2 ^ j) ltac:(lia)). lia.
Qed.
Lemma shard_exists c k : cache_wf c → ∃ sh, dc_shards c !! shard_idx khash c k = Some sh.
Proof. intros H. apply lookup_lt_is_Some_2, shard_in_range, H. Qed.

(** Replacing one shard by another good one keeps the invariant. *)
Lemma inv_set_shard c i sh' cn :
  cache_wf c → shard_ok c i sh' → cache_wf (set_counters cn (set_shards (<[i := sh']> (dc_shards c)) c)).
Proof.
  intros [(j & ? & Hl & ?) ? ? ? Hok] [S1 S2 S3 S4 S5]. constructor; simpl; try done.
  - exists j. by rewrite length_insert.
  - intros i' sh Hi. destruct (decide (i = i')) as [<-|Hne].
    + assert (Hlt : i < length (dc_shards c)).
      { apply lookup_lt_Some in Hi. by rewrite length_insert in Hi. }
      rewrite list_lookup_insert_eq in Hi by done. injection Hi as <-.
      constructor; simpl; rewrite ?length_insert; done.
    + rewrite list_lookup_insert_ne in Hi by done. destruct (Hok i' sh Hi) as [T1 T2 T3 T4 T5].
      constructor; simpl; rewrite ?length_insert; done.
Qed.
Lemma inv_counters c cn : cache_wf c → cache_wf (set_counters cn c).
Proof.
  intros [H1 H2 H3 H4 H5]. constructor; simpl; try done. intros i sh Hi. destruct (H5 i sh Hi). by constructor.
Qed.

Lemma shard_ok_get c i sh k : shard_ok c i sh → shard_ok c i (lru_get k sh).2.
Proof.
  intros [S1 S2 S3 S4 S5]. constructor; rewrite ?lru_get_cap, ?lru_get_iter; try done.
  - pose proof (promote_length k (lru_iter sh)). lia.
  - by apply promote_nodup.
  - intros k' e Hin. apply promote_elem in Hin; [|done]. by eapply S4.
  - intros k' e Hin. apply promote_elem in Hin; [|done]. by eapply S5.
Qed.
Lemma shard_ok_pop c i sh k : shard_ok c i sh → shard_ok c i (lru_pop k sh).
Proof.
  intros [S1 S2 S3 S4 S5]. constructor; rewrite ?lru_pop_cap, ?lru_pop_iter; try done.
  - pose proof (adelete_length k (lru_iter sh)). lia.
  - by apply adelete_nodup.
  - intros k' e [Hin _]%adelete_elem. by eapply S4.
  - intros k' e [Hin _]%adelete_elem. by eapply S5.
Qed.
Lemma shard_ok_put c i sh k e :
  shard_ok c i sh → shard_idx khash c k = i → EOK e → shard_ok c i (lru_put k e sh).
Proof.
  intros [S1 S2 S3 S4 S5] Hk Ht.
  assert (Hel : ∀ p, p ∈ lru_iter (lru_put k e sh) → p = (k, e) ∨ p ∈ lru_iter sh).
  { intros p. rewrite lru_put_iter. intros Hp%subseteq_take.
    apply elem_of_cons in Hp as [->|[Hp _]%adelete_elem]; auto. }
  constructor; rewrite ?lru_put_cap; try done.
  - rewrite lru_put_iter, length_take. lia.
  - rewrite lru_put_iter, fmap_take. eapply sublist_NoDup; [exact (cons_adelete_nodup k e _ S3)|apply sublist_take].
  - intros k' e' [[= -> ->]|Hin]%Hel; [done|by eapply S4].
  - intros k' e' [[= -> ->]|Hin]%Hel; [done|by eapply S5].
Qed.

(** ** Stored TTLs *)

Lemma min_ttl_le recs r : r ∈ recs → (min_ttl_of recs <= dr_ttl r)%Z.
Proof.
  destruct recs as [|r0 recs]; [by intros ?%elem_of_nil|]. simpl.
  assert (Hg : ∀ recs a, (foldl (λ a r, Z.min a (dr_ttl r)) a recs <= a)%Z ∧
    ∀ r, r ∈ recs → (foldl (λ a r, Z.min a (dr_ttl r)) a recs <= dr_ttl r)%Z).
  { clear. induction recs as [|x recs IH]; intros a; simpl; [split; [lia|by intros r ?%elem_of_nil]|].
    destruct (IH (Z.min a (dr_ttl x))) as [H1 H2]. split; [lia|].
    intros r [->|Hr]%elem_of_cons; [lia|by apply H2]. }
  destruct (Hg recs (dr_ttl r0)) as [H1 H2]. intros [->|Hr]%elem_of_cons; [done|by apply H2].
Qed.

(** A base TTL that is not positive comes from an answer record. *)
Lemma min_ttl_attained r recs : ∃ x, x ∈ r :: recs ∧ min_ttl_of (r :: recs) = dr_ttl x.
Proof.
  simpl. revert r. induction recs as [|y recs IH]; intros r; simpl; [exists r; split; [by left|done]|].
  destruct (Z.min_spec (dr_ttl r) (dr_ttl y)) as [[_ ->]|[_ ->]].
  - destruct (IH r) as (x & Hx & ->). exists x. split; [|done]. set_solver.
  - destruct (IH y) as (x & Hx & ->). exists x. split; [|done]. set_solver.
Qed.
Lemma negative_ttl_pos recs : (1 <= negative_ttl_of recs)%Z.
Proof.
  induction recs as [|r recs IH]; simpl; [unfold DEFAULT_NEGATIVE_TTL; lia|]. destruct (dr_data r); try done. lia.
Qed.
Lemma base_ttl_pos (m : Message) :
  ((if msg_answers m is [] then negative_ttl m else min_ttl_of (msg_answers m)) <= 0)%Z →
  ∃ r, r ∈ msg_answers m ∧ (dr_ttl r <= 0)%Z.
Proof.
  destruct (msg_answers m) as [|r recs] eqn:E.
  - pose proof (negative_ttl_pos (msg_authorities m)). unfold negative_ttl. lia.
  - intros H. destruct (min_ttl_attained r recs) as (x & Hx & Hmin). exists x. split; [done|]. by rewrite <- Hmin.
Qed.

Lemma cacheable_ttl_pos cfg m ttl :
  (0 <= cf_min_ttl cfg)%Z → (0 <= cf_max_ttl cfg)%Z → cacheable_ttl cfg m = Some ttl → (1 <= ttl)%Z.
Proof.
  intros H1 H2. unfold cacheable_ttl. destruct (negb _); [done|]. destruct (msg_truncation m); [done|]. cbv zeta.
  generalize (if msg_answers m is [] then negative_ttl m else min_ttl_of (msg_answers m)) as b. intros b.
  destruct (Z.eqb_spec (cf_max_ttl cfg) 0);
    match goal with |- context [(?x =? 0)%Z] => destruct (Z.eqb_spec x 0) end; intros [= <-]; lia.
Qed.

(** ** Operations *)

Inductive cache_op : Type :=
| OpGet (now : Z) (key : QueryKey) (id : Z)
| OpInsert (now : Z) (key : QueryKey) (m : Message) (v : option ResponseVerdict)
| OpReconfigure (enabled : bool) (capacity : nat) (min_ttl max_ttl stale : Z)
| OpClear
| OpStoreSummaries (b : bool)
| OpRefreshStarted
| OpRefreshFailed
| OpSeed (k : CacheCounters).
Definition op_ok (o : cache_op) : Prop :=
  match o with OpReconfigure _ _ mn mx _ => (0 <= mn)%Z ∧ (0 <= mx)%Z | _ => True end.
Definition run_op c (o : cache_op) : option DnsCache :=
  match o with
  | OpGet now key id => snd <$> cache_get khash now c key id
  | OpInsert now key m v => snd <$> cache_insert khash now c key m v
  | OpReconfigure en cap mn mx st => Some (cache_reconfigure en cap mn mx st c)
  | OpClear => Some (cache_clear c)
  | OpStoreSummaries b => Some (set_store_summaries b c)
  | OpRefreshStarted => Some (note_refresh_started c)
  | OpRefreshFailed => Some (note_refresh_failed c)
  | OpSeed k => Some (seed_counters k c)
  end.
Fixpoint run_ops c (os : list cache_op) : option DnsCache :=
  match os with
  | [] => Some c
  | o :: os => let! c := run_op c o in run_ops c os
  end.

Lemma cache_get_ok now c key id :
  cache_wf c → ∃ r c', cache_get khash now c key id = Some (r, c') ∧ cache_wf c'.
Proof.
  intros Hinv. unfold cache_get. destruct (negb _); [eauto|].
  destruct (shard_exists c key Hinv) as [sh Hsh]. rewrite Hsh. cbn [mbind option_bind].
  pose proof (ci_ok _ Hinv _ _ Hsh) as Hok. pose proof (shard_ok_get c _ sh key Hok) as Hok'.
  destruct (lru_get key sh) as [[e|] sh']; simpl in Hok'.
  - cbv zeta. destruct (_ <? _)%Z; [eexists _, _; split; [done|by apply inv_set_shard]|].
    destruct (_ <? _)%Z; eexists _, _; (split; [done|]); apply inv_set_shard; auto using shard_ok_pop.
  - eexists _, _. split; [done|by apply inv_set_shard].
Qed.

Lemma put_entry_ok c key e :
  cache_wf c → EOK e → ∃ c', put_entry khash c key e = Some c' ∧ cache_wf c'.
Proof.
  intros Hinv Ht. unfold put_entry. destruct (shard_exists c key Hinv) as [sh Hsh]. rewrite Hsh.
  cbn [mbind option_bind]. eexists; split; [done|].
  apply (inv_set_shard c _ (lru_put key e sh) (dc_counters c)); [done|].
  apply shard_ok_put; [by apply (ci_ok _ Hinv)|done|done].
Qed.

Lemma cache_insert_good now c key m v :
  cache_wf c →
  (∀ ttl, (1 <= ttl)%Z → EOK {| e_stored := (store_message (dc_cfg c) m).1; e_stored_at := now; e_ttl := ttl; e_verdict := v |}) →
  ∃ r c', cache_insert khash now c key m v = Some (r, c') ∧ cache_wf c' ∧
          (r = None ∨ r = (store_message (dc_cfg c) m).2).
Proof.
  intros Hinv Hok. unfold cache_insert. destruct (negb _); [eauto 10|].
  destruct (cacheable_ttl (dc_cfg c) m) as [ttl|] eqn:Et; [|eauto 10].
  destruct (store_message (dc_cfg c) m) as [stored served].
  edestruct (put_entry_ok c key) as (c' & E & Hc'); [done| |rewrite E; eexists _, _; by auto].
  apply Hok. by eapply cacheable_ttl_pos; [apply (ci_min_ttl _ Hinv)|apply (ci_max_ttl _ Hinv)|].
Qed.

(** Every entry with a positive TTL is good. *)
Context (EOK_pos : ∀ e, (1 <= e_ttl e)%Z → EOK e).

Lemma cache_insert_ok now c key m v :
  cache_wf c → ∃ r c', cache_insert khash now c key m v = Some (r, c') ∧ cache_wf c'.
Proof.
  intros Hinv. destruct (cache_insert_good now c key m v Hinv) as (r & c' & E & Hc' & _); [|eauto].
  intros ttl Ht. by apply EOK_pos.
Qed.

Lemma inv_clear c : cache_wf c → cache_wf (cache_clear c).
Proof.
  intros [(j & ? & Hl & ?) ? ? ? Hok]. constructor; simpl; try done.
  - exists j. by rewrite length_fmap.
  - intros i sh Hi. rewrite list_lookup_fmap in Hi. destruct (dc_shards c !! i) as [sh0|] eqn:E; [|done].
    injection Hi as <-. destruct (Hok i sh0 E) as [S1 _ _ _ _].
    constructor; rewrite ?lru_clear_cap, ?lru_clear_iter; simpl; rewrite ?length_fmap; try done; try lia.
    + constructor.
    + by intros ?? ?%elem_of_nil.
    + by intros ?? ?%elem_of_nil.
Qed.

Lemma inv_reconfigure en cap mn mx st c :
  (0 <= mn)%Z → (0 <= mx)%Z → cache_wf c → cache_wf (cache_reconfigure en cap mn mx st c).
Proof.
  intros Hmn Hmx [(j & ? & Hl & ?) ? ? ? Hok]. unfold cache_reconfigure. simpl.
  match goal with |- context [if en then ?x else _] => enough (Hx : cache_wf x) by
    (destruct en; [exact Hx|by apply inv_clear]) end.
  constructor; simpl; try done; [|lia|].
  - exists j. case_bool_decide; by rewrite ?length_fmap.
  - intros i sh Hi. case_bool_decide as Hc.
    + rewrite Hc. destruct (Hok i sh Hi) as [S1 S2 S3 S4 S5]. constructor; simpl; done.
    + rewrite list_lookup_fmap in Hi. destruct (dc_shards c !! i) as [sh0|] eqn:E; [|done].
      injection Hi as <-. destruct (Hok i sh0 E) as [S1 S2 S3 S4 S5].
      constructor; rewrite ?lru_resize_cap, ?lru_resize_iter; simpl; rewrite ?length_fmap; try done.
      * rewrite length_take. lia.
      * rewrite fmap_take. eapply sublist_NoDup; [exact S3|apply sublist_take].
      * intros k e Hin%subseteq_take. by eapply S4.
      * intros k e Hin%subseteq_take. by eapply S5.
Qed.

Lemma inv_store_summaries b c : cache_wf c → cache_wf (set_store_summaries b c).
Proof.
  intros [H1 H2 H3 H4 H5]. constructor; simpl; try done. intros i sh Hi. destruct (H5 i sh Hi). by constructor.
Qed.

Lemma run_op_ok c o : op_ok o → cache_wf c → ∃ c', run_op c o = Some c' ∧ cache_wf c'.
Proof.
  intros Ho Hinv. destruct o; simpl in *.
  - destruct (cache_get_ok now c key id Hinv) as (r & c' & -> & ?). by exists c'.
  - destruct (cache_insert_ok now c key m v Hinv) as (r & c' & -> & ?). by exists c'.
  - destruct Ho. eexists; split; [done|]. by apply inv_reconfigure.
  - eexists; split; [done|]. by apply inv_clear.
  - eexists; split; [done|]. by apply inv_store_summaries.
  - eexists; split; [done|]. by apply inv_counters.
  - eexists; split; [done|]. by apply inv_counters.
  - eexists; split; [done|]. by apply inv_counters.
Qed.

Lemma run_ops_ok c os : Forall op_ok os → cache_wf c → ∃ c', run_ops c os = Some c' ∧ cache_wf c'.
Proof.
  intros Ho. revert c. induction Ho as [|o os Ho _ IH]; intros c Hc; [by exists c|].
  destruct (run_op_ok c o Ho Hc) as (c1 & E & Hc1). simpl. rewrite E. simpl. by apply IH.
Qed.

(** ** Capacity *)

Lemma sum_list_le (l : list nat) b : Forall (λ x, x ≤ b) l → sum_list l ≤ length l * b.
Proof. induction 1; simpl; lia. Qed.

Lemma cache_len_bound c : cache_wf c → cache_len c ≤ max (dc_capacity c) (length (dc_shards c)).
Proof.
  intros Hinv. unfold cache_len.
  assert (H : Forall (λ x, x ≤ shard_cap (dc_capacity c) (length (dc_shards c))) (length ∘ lru_iter <$> dc_shards c)).
  { apply Forall_fmap, Forall_lookup. intros i sh Hi. simpl. destruct (ci_ok _ Hinv i sh Hi) as [<- ? _ _ _]. done. }
  apply sum_list_le in H. rewrite length_fmap in H. unfold shard_cap in H.
  destruct (ci_shards _ Hinv) as (j & Hj & Hl & _).
  assert (length (dc_shards c) ≠ 0) by (intros E; rewrite E in Hl; pose proof (Z.pow_pos_nonneg 2 j); lia).
  pose proof (Nat.Div0.mul_div_le (dc_capacity c) (length (dc_shards c))).
  destruct (Nat.max_spec (dc_capacity c / length (dc_shards c)) 1) as [[? E]|[? E]]; rewrite E in H; lia.
Qed.

Lemma next_power_pow2 n : ∃ j, (0 <= j)%Z ∧ next_power_of_two n = (2 ^ j)%Z.
Proof.
  unfold next_power_of_two.
  assert (Hg : ∀ fuel (k n : Z), (0 <= k)%Z → ∃ j, (0 <= j)%Z ∧ next_pow2_go fuel (2 ^ k) n = (2 ^ j)%Z).
  { induction fuel as [|fuel IH]; intros k m Hk; simpl; [by exists k|].
    destruct (_ <=? _)%Z; [by exists k|].
    replace (2 * 2 ^ k)%Z with (2 ^ (k + 1))%Z by (rewrite Z.pow_add_r by lia; lia). apply IH. lia. }
  by apply (Hg 64 0%Z).
Qed.
Lemma shard_count_pow2 p :
  ∃ j, (3 <= j <= 6)%Z ∧ Z.of_nat (cache_shard_count p) = (2 ^ j)%Z.
Proof.
  unfold cache_shard_count. destruct (next_power_pow2 (default 4%Z p)) as (j & Hj & ->).
  unfold clamp. destruct (decide (j < 3)%Z).
  - exists 3%Z. split; [lia|]. pose proof (Z.pow_lt_mono_r 2 j 3). lia.
  - destruct (decide (6 < j)%Z).
    + exists 6%Z. split; [lia|]. pose proof (Z.pow_lt_mono_r 2 6 j). lia.
    + exists j. split; [lia|]. pose proof (Z.pow_le_mono_r 2 3 j). pose proof (Z.pow_le_mono_r 2 j 6). lia.
Qed.

Lemma cache_new_inv p cap mn mx st : (0 <= mn)%Z → (0 <= mx)%Z → cache_wf (cache_new p cap mn mx st).
Proof.
  intros. destruct (shard_count_pow2 p) as (j & Hj & E).
  constructor; simpl; try done; [|lia|].
  - exists j. rewrite length_replicate. split_and!; [lia..|]. by rewrite E.
  - intros i sh [-> Hi]%lookup_replicate. constructor; simpl; rewrite ?lru_new_cap, ?lru_new_iter, ?length_replicate; simpl; try done; try lia.
    + constructor.
    + by intros ?? ?%elem_of_nil.
    + by intros ?? ?%elem_of_nil.
Qed.

(** ** Where entries come from *)

(** Every stored entry satisfies [P]. *)
Definition all_entries (P : QueryKey → Entry → Prop) c : Prop :=
  ∀ i sh k e, dc_shards c !! i = Some sh → (k, e) ∈ lru_iter sh → P k e.

(** The shards of [c'] hold only entries of [c], and possibly [(key, e0)]. *)
Definition entries_within c c' (new : QueryKey → Entry → Prop) : Prop :=
  ∀ P, all_entries P c → (∀ k e, new k e → P k e) → all_entries P c'.

Lemma within_insert c i sh sh' cn (new : QueryKey → Entry → Prop) :
  dc_shards c !! i = Some sh →
  (∀ k e, (k, e) ∈ lru_iter sh' → (k, e) ∈ lru_iter sh ∨ new k e) →
  entries_within c (set_counters cn (set_shards (<[i := sh']> (dc_shards c)) c)) new.
Proof.
  intros Hi Hsub P Hall Hnew j s k e Hj Hin. simpl in Hj. destruct (decide (i = j)) as [<-|Hne].
  - rewrite list_lookup_insert_eq in Hj by (by eapply lookup_lt_Some). injection Hj as <-.
    destruct (Hsub k e Hin) as [?|?]; [by eapply Hall|by apply Hnew].
  - rewrite list_lookup_insert_ne in Hj by done. by eapply Hall.
Qed.

Lemma get_within now c key id r c' :
  cache_wf c → cache_get khash now c key id = Some (r, c') → entries_within c c' (λ _ _, False).
Proof.
  intros Hinv. unfold cache_get. destruct (negb _); [intros [= <- <-] P HP _; exact HP|].
  destruct (shard_exists c key Hinv) as [sh Hsh]. rewrite Hsh. cbn [mbind option_bind].
  destruct (ci_ok _ Hinv _ _ Hsh) as [_ _ Hnd _ _].
  pose proof (lru_get_iter key sh) as Hit. destruct (lru_get key sh) as [[e|] sh']; simpl in Hit.
  - cbv zeta. destruct (_ <? _)%Z; [|destruct (_ <? _)%Z]; intros [= <- <-]; eapply within_insert; try exact Hsh;
      intros k' e'; rewrite ?lru_pop_iter, Hit; [| |intros [Hin _]%adelete_elem; revert Hin];
      rewrite promote_elem by done; by left.
  - intros [= <- <-]. eapply within_insert; [exact Hsh|]. intros k' e'. rewrite Hit, promote_elem by done. by left.
Qed.

Lemma put_within c key e c' :
  cache_wf c → put_entry khash c key e = Some c' → entries_within c c' (λ k x, k = key ∧ x = e).
Proof.
  intros Hinv. unfold put_entry. destruct (shard_exists c key Hinv) as [sh Hsh]. rewrite Hsh.
  cbn [mbind option_bind]. intros [= <-].
  apply (within_insert c _ sh (lru_put key e sh) (dc_counters c)); [done|].
  intros k' e'. rewrite lru_put_iter. intros Hin%subseteq_take.
  apply elem_of_cons in Hin as [[= -> ->]|[Hin _]%adelete_elem]; auto.
Qed.

(** The entry an insertion stores. *)
Definition entry_for (cfg : CacheConfig) (now : Z) (m : Message) (v : option ResponseVerdict) e : Prop :=
  ∃ ttl, cacheable_ttl cfg m = Some ttl ∧
    e = {| e_stored := (store_message cfg m).1; e_stored_at := now; e_ttl := ttl; e_verdict := v |}.

Lemma insert_within now c key m v r c' :
  cache_wf c → cache_insert khash now c key m v = Some (r, c') →
  entries_within c c' (λ k x, k = key ∧ entry_for (dc_cfg c) now m v x).
Proof.
  intros Hinv. unfold cache_insert. destruct (negb _); [intros [= <- <-] P HP _; exact HP|].
  destruct (cacheable_ttl (dc_cfg c) m) as [ttl|] eqn:Et; [|intros [= <- <-] P HP _; exact HP].
  destruct (store_message (dc_cfg c) m) as [stored served] eqn:Es. intros H. inv_some.
  match goal with E : put_entry _ _ _ _ = Some _ |- _ => apply put_within in E; [|done]; intros P HP Hn; apply E; [exact HP|] end.
  intros k x [-> ->]. apply Hn. split; [done|]. exists ttl. by rewrite Es.
Qed.

Lemma clear_within c : entries_within c (cache_clear c) (λ _ _, False).
Proof.
  intros P HP _ i sh k e Hi Hin. simpl in Hi. rewrite list_lookup_fmap in Hi.
  destruct (dc_shards c !! i) as [s0|]; [|done]. injection Hi as <-. rewrite lru_clear_iter in Hin.
  by apply elem_of_nil in Hin.
Qed.

Lemma reconfigure_within en cap mn mx st c : entries_within c (cache_reconfigure en cap mn mx st c) (λ _ _, False).
Proof.
  intros P HP _. unfold cache_reconfigure. simpl.
  match goal with |- context [if en then ?x else _] => enough (Hx : all_entries P x) by
    (destruct en; [exact Hx|by apply (clear_within _ P)]) end.
  intros i sh k e Hi Hin. simpl in Hi. case_bool_decide; [by eapply HP|].
  rewrite list_lookup_fmap in Hi. destruct (dc_shards c !! i) as [s0|] eqn:E; [|done]. injection Hi as <-.
  rewrite lru_resize_iter in Hin. apply subseteq_take in Hin. by eapply HP.
Qed.

(** The insertions a run of operations contains. *)
Definition inserted (os : list cache_op) (k : QueryKey) e : Prop :=
  ∃ now m v cfg, OpInsert now k m v ∈ os ∧ entry_for cfg now m v e.

Lemma run_op_within c o c' :
  cache_wf c → run_op c o = Some c' → entries_within c c' (inserted [o]).
Proof.
  intros Hinv Hrun. destruct o; simpl in Hrun.
  - destruct (cache_get khash now c key id) as [[r c1]|] eqn:E; [|done]. injection Hrun as <-.
    intros P HP _. by apply (get_within _ _ _ _ _ _ Hinv E).
  - destruct (cache_insert khash now c key m v) as [[r c1]|] eqn:E; [|done]. injection Hrun as <-.
    intros P HP Hn. apply (insert_within _ _ _ _ _ _ _ Hinv E); [done|].
    intros k e [-> He]. apply Hn. exists now, m, v, (dc_cfg c). split; [by left|done].
  - injection Hrun as <-. intros P HP _. by apply (reconfigure_within _ _ _ _ _ _ P).
  - injection Hrun as <-. intros P HP _. by apply (clear_within _ P).
  - injection Hrun as <-. intros P HP _. exact HP.
  - injection Hrun as <-. intros P HP _. exact HP.
  - injection Hrun as <-. intros P HP _. exact HP.
  - injection Hrun as <-. intros P HP _. exact HP.
Qed.

Lemma run_ops_within os c c' :
  Forall op_ok os → cache_wf c → run_ops c os = Some c' → entries_within c c' (inserted os).
Proof.
  intros Ho. revert c. induction Ho as [|o os Ho _ IH]; intros c Hc Hrun P HP Hn; simpl in Hrun; [by injection Hrun as <-|].
  destruct (run_op_ok c o Ho Hc) as (c1 & E & Hc1). rewrite E in Hrun. simpl in Hrun.
  apply (IH c1 Hc1 Hrun P).
  - apply (run_op_within c o c1 Hc E P HP). intros k e (now & m & v & cfg & Hin & He). apply Hn.
    apply list_elem_of_singleton in Hin. exists now, m, v, cfg. split; [rewrite Hin; by left|done].
  - intros k e (now & m & v & cfg & Hin & He). apply Hn. exists now, m, v, cfg. split; [by right|done].
Qed.

(** ** What a lookup returns *)

Definition hit_of (stale_max_age now id : Z) e : option CacheHit :=
  let age := age_secs now e in
  if (age <? e_ttl e)%Z then
    Some {| ch_response := serve (e_stored e) id (e_ttl e - age); ch_freshness := Fresh; ch_verdict := e_verdict e |}
  else if (age <? e_ttl e + stale_max_age)%Z then
    Some {| ch_response := serve (e_stored e) id STALE_SERVE_TTL; ch_freshness := Stale; ch_verdict := e_verdict e |}
  else None.

(** The entry a key is stored under. *)
Definition entry_at c key : option Entry :=
  let! sh := dc_shards c !! shard_idx khash c key in alookup key (lru_iter sh).

Lemma cache_get_result now c key id :
  cache_wf c → cf_enabled (dc_cfg c) = true →
  fst <$> cache_get khash now c key id
  = Some (entry_at c key ≫= hit_of (cf_stale_max_age (dc_cfg c)) now id).
Proof.
  intros Hinv Hen. unfold cache_get, entry_at. rewrite Hen. cbn [negb].
  destruct (shard_exists c key Hinv) as [sh Hsh]. rewrite Hsh. cbn [mbind option_bind].
  rewrite <- lru_get_value. destruct (lru_get key sh) as [[e|] sh'] eqn:E; [|done]. cbn [fst].
  cbn [mbind option_bind]. unfold hit_of. cbv zeta. destruct (Z.ltb_spec (age_secs now e) (e_ttl e)).
  - rewrite Z.max_l by lia. done.
  - destruct (Z.ltb_spec (Z.max 0 (age_secs now e - e_ttl e)) (cf_stale_max_age (dc_cfg c))),
      (Z.ltb_spec (age_secs now e) (e_ttl e + cf_stale_max_age (dc_cfg c))); done || lia.
Qed.

(** A hit serves an entry of the cache. *)
Lemma cache_get_entry now c key id hit c' :
  cache_wf c → cache_get khash now c key id = Some (Some hit, c') →
  ∃ e ttl, EOK e ∧ ch_response hit = serve (e_stored e) id ttl ∧ ch_verdict hit = e_verdict e.
Proof.
  intros Hc Hget.
  destruct (cf_enabled (dc_cfg c)) eqn:Hen; [|unfold cache_get in Hget; rewrite Hen in Hget; done].
  pose proof (cache_get_result now c key id Hc Hen) as Hr. rewrite Hget in Hr. injection Hr as Hr.
  unfold entry_at in Hr. destruct (shard_exists c key Hc) as [sh Hsh]. rewrite Hsh in Hr.
  cbn [mbind option_bind] in Hr. destruct (alookup key (lru_iter sh)) as [e|] eqn:Ee; [|done]. cbn [mbind option_bind] in Hr.
  pose proof (so_entry _ _ _ (ci_ok _ Hc _ _ Hsh) key e (alookup_elem _ _ _ Ee)) as He.
  unfold hit_of in Hr. destruct (_ <? _)%Z; [|destruct (_ <? _)%Z; [|done]]; injection Hr as ->; by exists e; eexists.
Qed.

Lemma entry_at_put c key e c' :
  cache_wf c → put_entry khash c key e = Some c' → entry_at c' key = Some e.
Proof.
  intros Hinv. unfold put_entry, entry_at. destruct (shard_exists c key Hinv) as [sh Hsh]. rewrite Hsh.
  cbn [mbind option_bind]. intros [= <-]. unfold shard_idx at 1. simpl. fold (shard_idx khash c key).
  rewrite list_lookup_insert_eq by (by apply shard_in_range). cbn [mbind option_bind]. rewrite lru_put_iter.
  apply alookup_take_head. destruct (ci_ok _ Hinv _ _ Hsh) as [-> _ _ _ _]. unfold shard_cap. lia.
Qed.

End props.

(** The invariant of a cache that is filled by insertions: stored TTLs are positive. *)
Definition ttl_pos `{DnsLib} (e : Entry) : Prop := (1 <= e_ttl e)%Z.
Abbreviation cache_inv khash := (cache_wf khash ttl_pos).

(** ** The contract of the cache *)

Section claims.
Context {DL : DnsLib} {DC : DnsCodec} (khash : QueryKey → Z).

(** From a new cache, every sequence of lookups, insertions, reconfigurations, clears
    and counter updates runs without a panic, whatever the hash: shard indices stay in
    range, no shard exceeds its capacity, keys are unique and in their own shard, stored
    TTLs are at least one second, and the number of entries never exceeds the larger of
    the configured capacity and the shard count. *)
Theorem cache_ops_safe {L : LruLib QueryKey Entry} {LL : LruLaws L} (parallelism : option Z) (cap : nat)
    (mn mx st : Z) (os : list cache_op) :
  (0 <= mn)%Z → (0 <= mx)%Z → Forall op_ok os →
  ∃ c, run_ops khash (cache_new parallelism cap mn mx st) os = Some c ∧ cache_inv khash c ∧
       cache_len c ≤ max (dc_capacity c) (length (dc_shards c)).
Proof.
  intros Hmn Hmx Hos. destruct (run_ops_ok khash ttl_pos (λ e He, He) _ os Hos (cache_new_inv khash _ parallelism cap mn mx st Hmn Hmx))
    as (c & E & Hc). exists c. split_and!; [done..|]. by apply (cache_len_bound khash ttl_pos).
Qed.

(** What a cached response shows of a message: in wire form the bytes of the message with the
    given id and the given TTL in every TTL field, and nothing else changed; a message that
    has no wire form or cannot be scanned, with the id and the TTL in its records. *)
Definition shows (m : Message) (id ttl : Z) (r : CachedResponse) : Prop :=
  match r with
  | CrWire out rcode _ => ∃ buf offs, msg_to_vec m = Some buf ∧ scan_ttl_offsets buf = Some offs
      ∧ patched buf offs id ttl out ∧ rcode = msg_rcode m
  | CrMessage m' => (∀ buf, msg_to_vec m = Some buf → scan_ttl_offsets buf = None)
      ∧ msg_id m' = id ∧ msg_queries m' = msg_queries m ∧ msg_rcode m' = msg_rcode m
      ∧ (∀ section, section ∈ [msg_answers; msg_authorities; msg_additionals] →
          (λ r, (dr_name r, dr_data r)) <$> section m' = (λ r, (dr_name r, dr_data r)) <$> section m
          ∧ Forall (λ r, dr_ttl r = ttl) (section m'))
  end.
Definition wire_small (m : Message) : Prop := ∀ buf, msg_to_vec m = Some buf → (Z.of_nat (length buf) < 2 ^ 32)%Z.
Lemma adjusted_section (l : list DnsRecord) ttl :
  (λ r, (dr_name r, dr_data r)) <$> (with_ttl ttl <$> l) = (λ r, (dr_name r, dr_data r)) <$> l
  ∧ Forall (λ r, dr_ttl r = ttl) (with_ttl ttl <$> l).
Proof. split; [by rewrite <- list_fmap_compose|]. apply Forall_fmap, Forall_true. done. Qed.
Lemma serve_shows cfg m id ttl : wire_small m → in_u 16 id → in_u 32 ttl →
  shows m id ttl (serve (store_message cfg m).1 id ttl).
Proof.
  intros Hw Hid Httl. unfold store_message.
  assert (Hm : (∀ buf, msg_to_vec m = Some buf → scan_ttl_offsets buf = None) → shows m id ttl (serve (StMessage m) id ttl)).
  { intros Hn. simpl. split_and!; [exact Hn|done..|]. intros section Hs.
    rewrite !elem_of_cons, elem_of_nil in Hs. destruct Hs as [->|[->|[->|[]]]]; apply adjusted_section. }
  destruct (msg_to_vec m) as [buf|] eqn:Eb; [|by apply Hm].
  destruct (scan_ttl_offsets buf) as [offs|] eqn:Eo; [|apply Hm; by intros b [= <-]].
  simpl. exists buf, offs. split_and!; [done..| |done]. by apply patch_patched; [apply Hw| | |].
Qed.



(** The TTL a response is stored with: only NOERROR and NXDOMAIN responses that are
    not truncated are stored, never with a TTL of zero, within the configured bounds (the
    minimum yields to the maximum), and without clamping exactly the smallest answer TTL,
    or the negative TTL when there is no answer. *)
Theorem cacheable_ttl_spec (cfg : CacheConfig) (m : Message) :
  (0 <= cf_min_ttl cfg)%Z → (0 <= cf_max_ttl cfg)%Z →
  match cacheable_ttl cfg m with
  | None => (msg_rcode m ≠ RC_NOERROR ∧ msg_rcode m ≠ RC_NXDOMAIN) ∨ msg_truncation m = true ∨
            (cf_min_ttl cfg = 0%Z ∧ ∃ r, r ∈ msg_answers m ∧ (dr_ttl r <= 0)%Z)
  | Some ttl =>
      (msg_rcode m = RC_NOERROR ∨ msg_rcode m = RC_NXDOMAIN) ∧ msg_truncation m = false ∧
      (1 <= ttl)%Z ∧ (cf_max_ttl cfg ≠ 0%Z → (ttl <= cf_max_ttl cfg)%Z) ∧
      (cf_max_ttl cfg = 0%Z ∨ (cf_min_ttl cfg <= cf_max_ttl cfg)%Z → (cf_min_ttl cfg <= ttl)%Z) ∧
      (cf_min_ttl cfg = 0%Z → ∀ r, r ∈ msg_answers m → (ttl <= dr_ttl r)%Z) ∧
      (cf_min_ttl cfg = 0%Z → cf_max_ttl cfg = 0%Z →
       if msg_answers m is [] then ttl = negative_ttl m else ∃ r, r ∈ msg_answers m ∧ ttl = dr_ttl r)
  end.
Proof.
  intros Hmn Hmx. unfold cacheable_ttl.
  destruct (Z.eqb_spec (msg_rcode m) RC_NOERROR), (Z.eqb_spec (msg_rcode m) RC_NXDOMAIN); simpl; try (by left);
  (destruct (msg_truncation m); [by right; left|]).
  all: set (b := if msg_answers m is [] then negative_ttl m else min_ttl_of (msg_answers m));
    assert (Hb : ∀ r, r ∈ msg_answers m → (b <= dr_ttl r)%Z) by
      (intros r Hr; unfold b; destruct (msg_answers m); [by apply elem_of_nil in Hr|by apply min_ttl_le]);
    assert (Hn : (b <= 0)%Z → ∃ r, r ∈ msg_answers m ∧ (dr_ttl r <= 0)%Z) by
      (intros Hle; apply (base_ttl_pos m); exact Hle);
    assert (Ha : (1 <= b)%Z → if msg_answers m is [] then b = negative_ttl m
                   else ∃ r, r ∈ msg_answers m ∧ b = dr_ttl r) by
      (intros _; unfold b; destruct (msg_answers m) as [|r0 recs]; [done|apply min_ttl_attained]);
    destruct (Z.eqb_spec (cf_max_ttl cfg) 0);
    match goal with |- context [(?x =? 0)%Z] => destruct (Z.eqb_spec x 0) end;
    try (right; right; split; [lia|apply Hn; lia]);
    (split_and!; [by auto|done|lia|lia|lia|intros Hz r Hr; specialize (Hb r Hr); lia|intros Hz1 Hz2]);
    try (replace (Z.max b (cf_min_ttl cfg)) with b by lia; apply Ha; lia); lia.
Qed.

End claims.

(** ** Witnesses *)

Definition w_name : bytes := bs "ads.example".
Definition w_ops : list cache_op :=
  [OpGet 0 (sample_key w_name) 1; OpInsert 0 (sample_key w_name) (sample_response w_name 300) None;
   OpReconfigure true 4 0 0 60; OpRefreshStarted].
Definition w_new : DnsCache := cache_new (Some 4%Z) 100 0 0 60.

Lemma cache_ops_safe_witness :
  ∃ c, run_ops sample_hash w_new w_ops = Some c ∧ cache_inv sample_hash c ∧
       cache_len c ≤ max (dc_capacity c) (length (dc_shards c)).
Proof. apply (cache_ops_safe sample_hash (Some 4%Z) 100 0 0 60 w_ops); [done|done|]. by repeat constructor. Defined.

Lemma sample_small : wire_small (sample_response w_name 300).
Proof.
  intros buf E. assert (H : (λ b, Z.of_nat (length b) <? 2 ^ 32)%Z <$> msg_to_vec (sample_response w_name 300) = Some true) by vm_refl.
  rewrite E in H. injection H as H. by apply Z.ltb_lt.
Qed.

(** A hit after 100 seconds. *)
Definition w_cache : DnsCache := default w_new (run_ops sample_hash w_new w_ops).
Definition w_get : option (option CacheHit * DnsCache) :=
  cache_get sample_hash (100 * NANOS) w_cache (sample_key w_name) 77.
Definition w_hit : CacheHit :=
  default {| ch_response := CrMessage (sample_response w_name 0); ch_freshness := Stale; ch_verdict := None |}
    (w_get ≫= fst).
Definition w_after : DnsCache := from_option snd w_new w_get.


Lemma cacheable_ttl_spec_witness :
  let cfg := dc_cfg w_new in
  match cacheable_ttl cfg (sample_response w_name 300) with
  | Some ttl => (1 <= ttl)%Z ∧ ∃ r, r ∈ msg_answers (sample_response w_name 300) ∧ ttl = dr_ttl r
  | None => False
  end.
Proof.
  pose proof (cacheable_ttl_spec (dc_cfg w_new) (sample_response w_name 300) ltac:(done) ltac:(done)) as H.
  simpl in *. destruct H as (_ & _ & H1 & _ & _ & _ & H2). split; [exact H1|]. apply H2; reflexivity.
Defined.
