(* ===== verification/Snapshot.v ===== *)
(** * bulwark-engine: cache snapshots ([crates/bulwark-engine/src/cache.rs], restart persistence).

    A snapshot is a byte string; [unix] is the wall clock in seconds and [now] the monotonic
    clock in nanoseconds.  [Instant::checked_sub] fails below the platform's first instant,
    the parameter [first_instant]. *)
From Stdlib Require Import Ascii.
From S2P Require Import Prelude RustStr RustNet Rule FilterEngine Dns Wire DnsInstances Cache CacheProps.

(** ** [String::from_utf8_lossy] *)

Definition between (lo hi : Z) (b : byte) : bool := ((lo <=? u8 b) && (u8 b <=? hi))%Z.
(** The ranges of the continuation bytes a first byte asks for; [None] for an invalid one. *)
Definition utf8_tail (b : byte) : option (list (Z * Z)) :=
  let z := u8 b in
  if (z <? 128)%Z then Some []
  else if between 194 223 b then Some [(128, 191)]%Z
  else if (z =? 224)%Z then Some [(160, 191); (128, 191)]%Z
  else if (z =? 237)%Z then Some [(128, 159); (128, 191)]%Z
  else if between 225 239 b then Some [(128, 191); (128, 191)]%Z
  else if (z =? 240)%Z then Some [(144, 191); (128, 191); (128, 191)]%Z
  else if between 241 243 b then Some [(128, 191); (128, 191); (128, 191)]%Z
  else if (z =? 244)%Z then Some [(128, 143); (128, 191); (128, 191)]%Z
  else None.
(** The longest prefix of [s] in the given ranges, and whether it is complete. *)
Fixpoint utf8_match (rs : list (Z * Z)) (s : bytes) : nat * bool :=
  match rs, s with
  | [], _ => (0, true)
  | (lo, hi) :: rs, b :: s => if between lo hi b then let '(n, ok) := utf8_match rs s in (S n, ok) else (0, false)
  | _ :: _, [] => (0, false)
  end.
Definition replacement : bytes := [byte_of 239; byte_of 191; byte_of 189].
(** Each maximal ill-formed prefix becomes U+FFFD. *)
Fixpoint lossy_go (fuel : nat) (s : bytes) : bytes :=
  match fuel, s with
  | S fuel, b :: s =>
      match utf8_tail b with
      | None => replacement ++ lossy_go fuel s
      | Some rs =>
          let '(n, ok) := utf8_match rs s in
          (if ok then b :: take n s else replacement) ++ lossy_go fuel (drop n s)
      end
  | _, _ => []
  end.
Definition from_utf8_lossy (s : bytes) : bytes := lossy_go (length s) s.
(** [str] validity. *)
Fixpoint utf8_go (fuel : nat) (s : bytes) : bool :=
  match fuel, s with
  | S fuel, b :: s =>
      match utf8_tail b with
      | None => false
      | Some rs => let '(n, ok) := utf8_match rs s in ok && utf8_go fuel (drop n s)
      end
  | _, _ => true
  end.
Definition is_utf8 (s : bytes) : bool := utf8_go (length s) s.

(** ** The format *)

Definition SNAPSHOT_MAGIC : bytes := bs "BLWKCSN2".
Definition MAX_SNAPSHOT_WIRE_LEN : Z := 64 * 1024.
Definition MAX_SNAPSHOT_ANSWERS : nat := 64.
Definition MAX_SNAPSHOT_TTL_OFFSETS : nat := 256.

(** [to_le_bytes] of an [n]-byte integer. *)
Fixpoint le_bytes (n : nat) (z : Z) : bytes :=
  match n with
  | 0 => []
  | S n => byte_of z :: le_bytes n (z / 256)
  end.
(** [from_le_bytes]. *)
Fixpoint le_val (s : bytes) : Z :=
  match s with
  | [] => 0
  | b :: s => u8 b + 256 * le_val s
  end.
Definition len_le (n : nat) {A} (l : list A) : bytes := le_bytes n (Z.of_nat (length l)).

Section snapshot.
Context {DL : DnsLib} {DC : DnsCodec}.

(** [write_record]. *)
Definition key_flags (k : QueryKey) : Z :=
  Z.lor (if k_dnssec_ok k then 1 else 0) (Z.shiftl (if k_checking_disabled k then 1 else 0) 1).
Definition write_str (s : bytes) : bytes := len_le 2 s ++ s.
Definition write_record (out : bytes) (key : QueryKey) (age ttl rcode : Z) (answers : list bytes)
    (wire : bytes) (offsets : list Z) : bytes :=
  out ++ write_str (k_name key) ++ le_bytes 2 (k_rtype key) ++ le_bytes 2 (k_class key)
  ++ [byte_of (key_flags key)] ++ le_bytes 4 age ++ le_bytes 4 ttl ++ le_bytes 2 rcode
  ++ len_le 2 answers ++ mjoin (write_str <$> answers)
  ++ len_le 4 wire ++ wire
  ++ len_le 4 offsets ++ mjoin (le_bytes 4 <$> offsets).

(** [Reader]: the bounds-checked forward reader. *)
Record Reader : Type := { rd_data : bytes; rd_pos : nat }.
Definition reader_new (data : bytes) : Reader := {| rd_data := data; rd_pos := 0 |}.
Definition rd_take (n : nat) (r : Reader) : option (bytes * Reader) :=
  let! end_ := checked_add (rd_pos r) n in
  if length (rd_data r) <? end_ then None
  else Some (take n (drop (rd_pos r) (rd_data r)), {| rd_data := rd_data r; rd_pos := end_ |}).
Definition rd_uint (n : nat) (r : Reader) : option (Z * Reader) :=
  let! (s, r) := rd_take n r in Some (le_val s, r).

(** [wire_matches_key]. *)
Definition wire_matches_key (wire : bytes) (key : QueryKey) : bool :=
  match msg_from_vec wire with
  | Some msg =>
      match head (msg_queries msg) with
      | Some q => (q_type q =? k_rtype key)%Z && (q_class q =? k_class key)%Z
                  && eq_ignore_ascii_case (name_to_ascii (q_name q)) (k_name key)
      | None => false
      end
  | None => false
  end.

(** [read_record]. *)
Record ParsedEntry : Type := { pe_key : QueryKey; pe_age : Z; pe_ttl : Z; pe_stored : Stored }.
Definition rd_str (r : Reader) : option (bytes * Reader) :=
  let! (n, r) := rd_uint 2 r in
  let! (s, r) := rd_take (Z.to_nat n) r in
  Some (from_utf8_lossy s, r).
Fixpoint rd_many {A} (f : Reader → option (A * Reader)) (n : nat) (r : Reader) : option (list A * Reader) :=
  match n with
  | 0 => Some ([], r)
  | S n =>
      let! (x, r) := f r in
      let! (xs, r) := rd_many f n r in
      Some (x :: xs, r)
  end.
Definition read_record (r : Reader) : option (ParsedEntry * Reader) :=
  let! (name, r) := rd_str r in
  let! (rtype, r) := rd_uint 2 r in
  let! (class, r) := rd_uint 2 r in
  let! (flags, r) := rd_uint 1 r in
  let key := {| k_name := name; k_rtype := rtype; k_class := class;
                k_dnssec_ok := negb (Z.land flags 1 =? 0)%Z;
                k_checking_disabled := negb (Z.land flags 2 =? 0)%Z |} in
  let! (age, r) := rd_uint 4 r in
  let! (ttl, r) := rd_uint 4 r in
  let! (rcode, r) := rd_uint 2 r in
  let! (ans_count, r) := rd_uint 2 r in
  if (Z.of_nat MAX_SNAPSHOT_ANSWERS <? ans_count)%Z then None else
  let! (answers, r) := rd_many rd_str (Z.to_nat ans_count) r in
  let! (wire_len, r) := rd_uint 4 r in
  if (MAX_SNAPSHOT_WIRE_LEN <? wire_len)%Z then None else
  let! (wire, r) := rd_take (Z.to_nat wire_len) r in
  if negb (wire_matches_key wire key) then None else
  let! (off_count, r) := rd_uint 4 r in
  if (Z.of_nat MAX_SNAPSHOT_TTL_OFFSETS <? off_count)%Z then None else
  let! (offsets, r) := rd_many (rd_uint 4) (Z.to_nat off_count) r in
  if existsb (λ o, Z.of_nat (length wire) <? o + 4)%Z offsets then None else
  Some ({| pe_key := key; pe_age := age; pe_ttl := ttl; pe_stored := StWire wire offsets rcode answers |}, r).

Context {L : LruLib QueryKey Entry} (khash : QueryKey → Z).

(** [export_snapshot]: [out] and [count] threaded over the shards. *)
Definition export_entry (now stale : Z) (acc : bytes * Z) (p : QueryKey * Entry) : bytes * Z :=
  let '(out, count) := acc in
  let '(key, entry) := p in
  match e_stored entry with
  | StWire bytes offs rcode answers =>
      let age := age_secs now entry in
      if (Z.min (e_ttl entry + stale) U32_MAX <=? age)%Z then acc
      else (write_record out key age (e_ttl entry) rcode answers bytes offs, (count + 1)%Z)
  | StMessage _ => acc
  end.
Definition export_snapshot (unix now : Z) (c : DnsCache) : bytes :=
  let head := SNAPSHOT_MAGIC ++ le_bytes 8 unix in
  let '(out, count) :=
    foldl (λ acc sh, foldl (export_entry now (cf_stale_max_age (dc_cfg c))) acc (lru_iter sh))
      (head ++ le_bytes 4 0, 0%Z) (dc_shards c) in
  take (length head) out ++ le_bytes 4 count ++ drop (length head + 4) out.

(** [import_snapshot]: the number of restored entries and the cache; the loop body first. *)
Definition restore_entry (first_instant now elapsed stale : Z) (p : ParsedEntry) : option (QueryKey * Entry) :=
  let total_age := (pe_age p + elapsed)%Z in
  if (pe_ttl p + stale <=? total_age)%Z then None
  else let stored_at := (now - total_age * NANOS)%Z in
       if (stored_at <? first_instant)%Z then None
       else Some (pe_key p, {| e_stored := pe_stored p; e_stored_at := stored_at; e_ttl := pe_ttl p;
                               e_verdict := None |}).
Fixpoint import_loop (first_instant now elapsed stale : Z) (n : nat) (r : Reader) (restored : nat) (c : DnsCache)
  : option (nat * DnsCache) :=
  match n with
  | 0 => Some (restored, c)
  | S n =>
      match read_record r with
      | None => Some (restored, c)
      | Some (parsed, r) =>
          match restore_entry first_instant now elapsed stale parsed with
          | None => import_loop first_instant now elapsed stale n r restored c
          | Some (key, entry) =>
              let! c := put_entry khash c key entry in
              import_loop first_instant now elapsed stale n r (S restored) c
          end
      end
  end.
Definition import_snapshot (first_instant unix now : Z) (c : DnsCache) (data : bytes) : option (nat * DnsCache) :=
  match rd_take (length SNAPSHOT_MAGIC) (reader_new data) with
  | Some (magic, r) =>
      if negb (bool_decide (magic = SNAPSHOT_MAGIC)) then Some (0, c)
      else match rd_uint 8 r with
           | None => Some (0, c)
           | Some (snap_unix, r) =>
               match rd_uint 4 r with
               | None => Some (0, c)
               | Some (count, r) =>
                   let elapsed := Z.max 0 (unix - snap_unix) in
                   import_loop first_instant now elapsed (cf_stale_max_age (dc_cfg c)) (Z.to_nat count) r 0 c
               end
           end
  | None => Some (0, c)
  end.

End snapshot.
