(* ===== verification/SnapshotProps.v ===== *)
(** * Properties of cache snapshots: records read back as written, a snapshot restores
    exactly the live entries of the cache it was taken from, and no byte string makes the
    import fail. *)
From Stdlib Require Import Ascii.
From S2P Require Import Prelude RustStr RustNet Rule FilterEngine Dns Wire DnsInstances Cache CacheProps Snapshot.

(** ** Integers and strings *)

Lemma length_le_bytes n z : length (le_bytes n z) = n.
Proof. revert z. induction n as [|n IH]; intros z; simpl; [done|]. by rewrite IH. Qed.

Lemma le_val_bytes n z : le_val (le_bytes n z) = (z mod 256 ^ Z.of_nat n)%Z.
Proof.
  revert z. induction n as [|n IH]; intros z; [by rewrite Z.mod_1_r|]. simpl le_bytes. cbn [le_val].
  rewrite IH, u8_byte_of, Nat2Z.inj_succ, Z.pow_succ_r by lia. rewrite Z.rem_mul_r by lia. done.
Qed.
Lemma le_val_small n z : (0 <= z < 256 ^ Z.of_nat n)%Z → le_val (le_bytes n z) = z.
Proof. intros. rewrite le_val_bytes. by apply Z.mod_small. Qed.

Lemma lossy_utf8 fuel s : length s ≤ fuel → utf8_go fuel s = true → lossy_go fuel s = s.
Proof.
  revert s. induction fuel as [|fuel IH]; intros [|b s] Hl H; simpl in *; try done; [lia|].
  destruct (utf8_tail b) as [rs|]; [|done]. destruct (utf8_match rs s) as [n ok]. bool_to_prop. subst.
  rewrite IH by (done || (rewrite length_drop; lia)). simpl. by rewrite take_drop.
Qed.
Lemma from_utf8_lossy_id s : is_utf8 s = true → from_utf8_lossy s = s.
Proof. by apply lossy_utf8. Qed.

Lemma adelete_id {K V} `{EqDecision K} k (l : list (K * V)) : k ∉ l.*1 → adelete k l = l.
Proof.
  induction l as [|[k' v] l IH]; csimpl; [done|]. intros [Hne Hl]%not_elem_of_cons. unfold adelete.
  rewrite filter_cons_True by (simpl; done). f_equal. by apply IH.
Qed.

Lemma length_omap_le {A B} (f : A → option B) (l : list A) : length (omap f l) ≤ length l.
Proof. induction l as [|x l IH]; csimpl; [done|]. destruct (f x); simpl; lia. Qed.

(** ** The reader *)

(** The reader stands before the bytes [s]. *)
Definition reads (r : Reader) (s : bytes) : Prop :=
  rd_pos r ≤ length (rd_data r) ∧ drop (rd_pos r) (rd_data r) = s ∧ (Z.of_nat (length (rd_data r)) <= U64_MAX)%Z.

Lemma reads_new data : (Z.of_nat (length data) <= U64_MAX)%Z → reads (reader_new data) data.
Proof. intros. split_and!; simpl; [lia|done|done]. Qed.
Lemma rd_take_app r x s : reads r (x ++ s) → ∃ r', rd_take (length x) r = Some (x, r') ∧ reads r' s.
Proof.
  intros (H1 & H2 & H3). unfold rd_take.
  assert (Hl : length (rd_data r) = rd_pos r + (length x + length s)).
  { pose proof (length_drop (rd_data r) (rd_pos r)) as Hd. rewrite H2, length_app in Hd. lia. }
  unfold checked_add. rewrite (proj2 (Z.leb_le _ _)) by lia. cbn [mbind option_bind].
  rewrite (proj2 (Nat.ltb_ge _ _)) by lia. rewrite H2, take_app_length. eexists; split; [done|].
  split_and!; simpl; [lia| |done]. by rewrite <- drop_drop, H2, drop_app_length.
Qed.
Lemma rd_uint_app r n z s :
  (0 <= z < 256 ^ Z.of_nat n)%Z → reads r (le_bytes n z ++ s) → ∃ r', rd_uint n r = Some (z, r') ∧ reads r' s.
Proof.
  intros Hz (r' & E & Hr)%rd_take_app. rewrite length_le_bytes in E. unfold rd_uint. rewrite E.
  cbn [mbind option_bind]. rewrite le_val_small by done. eauto.
Qed.
Lemma rd_str_app r x s :
  (Z.of_nat (length x) < 65536)%Z → is_utf8 x = true → reads r (write_str x ++ s) → ∃ r', rd_str r = Some (x, r') ∧ reads r' s.
Proof.
  intros Hx Hu Hr. unfold write_str, len_le in Hr. rewrite <- app_assoc in Hr.
  apply rd_uint_app in Hr as (r1 & E1 & Hr); [|lia]. apply rd_take_app in Hr as (r2 & E2 & Hr).
  unfold rd_str. rewrite E1. cbn [mbind option_bind]. rewrite Nat2Z.id, E2. cbn [mbind option_bind].
  rewrite from_utf8_lossy_id by done. eauto.
Qed.
Lemma rd_many_app {A} (f : Reader → option (A * Reader)) (w : A → bytes) (P : A → Prop) xs r s :
  (∀ x r s, P x → reads r (w x ++ s) → ∃ r', f r = Some (x, r') ∧ reads r' s) →
  Forall P xs → reads r (mjoin (w <$> xs) ++ s) → ∃ r', rd_many f (length xs) r = Some (xs, r') ∧ reads r' s.
Proof.
  intros Hf Hxs. revert r. induction Hxs as [|x xs Hx _ IH]; intros r Hr; simpl in *; [eauto|].
  rewrite <- app_assoc in Hr. apply Hf in Hr as (r1 & E1 & Hr); [|done].
  apply IH in Hr as (r2 & E2 & Hr). rewrite E1. cbn [mbind option_bind]. rewrite E2. cbn [mbind option_bind]. eauto.
Qed.

Section records.
Context {DL : DnsLib} {DC : DnsCodec}.

(** ** Records *)

(** What the format can hold, and what [read_record] accepts. *)
Record record_ok (k : QueryKey) (age ttl rcode : Z) (answers : list bytes) (wire : bytes) (offs : list Z) : Prop := {
  ro_name : (Z.of_nat (length (k_name k)) < 65536)%Z;
  ro_name_utf8 : is_utf8 (k_name k) = true;
  ro_rtype : in_u 16 (k_rtype k);
  ro_class : in_u 16 (k_class k);
  ro_age : in_u 32 age;
  ro_ttl : in_u 32 ttl;
  ro_rcode : in_u 16 rcode;
  ro_answers : length answers ≤ MAX_SNAPSHOT_ANSWERS;
  ro_texts : Forall (λ a, (Z.of_nat (length a) < 65536)%Z ∧ is_utf8 a = true) answers;
  ro_wire : (Z.of_nat (length wire) <= MAX_SNAPSHOT_WIRE_LEN)%Z;
  ro_match : wire_matches_key wire k = true;
  ro_offs : length offs ≤ MAX_SNAPSHOT_TTL_OFFSETS;
  ro_offs_in : Forall (λ o, 0 <= o ∧ o + 4 <= Z.of_nat (length wire))%Z offs;
}.

Lemma key_of_flags (k : QueryKey) :
  let f := key_flags k in
  {| k_name := k_name k; k_rtype := k_rtype k; k_class := k_class k; k_dnssec_ok := negb (Z.land f 1 =? 0)%Z;
     k_checking_disabled := negb (Z.land f 2 =? 0)%Z |} = k.
Proof. by destruct k as [? ? ? [] []]. Qed.

Lemma read_write_record r k age ttl rcode answers wire offs s :
  record_ok k age ttl rcode answers wire offs →
  reads r (write_record [] k age ttl rcode answers wire offs ++ s) →
  ∃ r', read_record r = Some ({| pe_key := k; pe_age := age; pe_ttl := ttl;
                                pe_stored := StWire wire offs rcode answers |}, r') ∧ reads r' s.
Proof.
  intros [] Hr. unfold write_record, len_le in Hr. rewrite app_nil_l in Hr. rewrite <- ?app_assoc in Hr.
  unfold read_record. unfold in_u, MAX_SNAPSHOT_ANSWERS, MAX_SNAPSHOT_WIRE_LEN, MAX_SNAPSHOT_TTL_OFFSETS in *.
  apply rd_str_app in Hr as (r1 & -> & Hr); [|done..]. cbn [mbind option_bind].
  apply rd_uint_app in Hr as (r2 & -> & Hr); [|done]. cbn [mbind option_bind].
  apply rd_uint_app in Hr as (r3 & -> & Hr); [|done]. cbn [mbind option_bind].
  change [byte_of (key_flags k)] with (le_bytes 1 (key_flags k)) in Hr.
  apply rd_uint_app in Hr as (r4 & -> & Hr); [|destruct k as [? ? ? [] []]; done]. cbn [mbind option_bind].
  apply rd_uint_app in Hr as (r5 & -> & Hr); [|done]. cbn [mbind option_bind].
  apply rd_uint_app in Hr as (r6 & -> & Hr); [|done]. cbn [mbind option_bind].
  apply rd_uint_app in Hr as (r7 & -> & Hr); [|done]. cbn [mbind option_bind].
  apply rd_uint_app in Hr as (r8 & -> & Hr); [|lia]. cbn [mbind option_bind].
  rewrite (proj2 (Z.ltb_ge (Z.of_nat 64) (Z.of_nat (length answers)))) by lia. rewrite Nat2Z.id.
  apply (rd_many_app rd_str write_str (λ a, (Z.of_nat (length a) < 65536)%Z ∧ is_utf8 a = true)) in Hr as (r9 & -> & Hr);
    [|intros x ?? [? ?]; by apply rd_str_app|done]. cbn [mbind option_bind].
  apply rd_uint_app in Hr as (r10 & -> & Hr); [|lia]. cbn [mbind option_bind].
  rewrite (proj2 (Z.ltb_ge (64 * 1024) (Z.of_nat (length wire)))) by lia. rewrite Nat2Z.id.
  apply rd_take_app in Hr as (r11 & -> & Hr). cbn [mbind option_bind].
  rewrite key_of_flags, ro_match0. cbn [negb].
  apply rd_uint_app in Hr as (r12 & -> & Hr); [|lia]. cbn [mbind option_bind].
  rewrite (proj2 (Z.ltb_ge (Z.of_nat 256) (Z.of_nat (length offs)))) by lia. rewrite Nat2Z.id.
  apply (rd_many_app (rd_uint 4) (le_bytes 4) (λ o, 0 <= o ∧ o + 4 <= Z.of_nat (length wire))%Z)
    in Hr as (r13 & -> & Hr); [|intros x ?? [? ?]; apply rd_uint_app; lia|done]. cbn [mbind option_bind].
  replace (existsb _ offs) with false; [eauto|]. symmetry. apply not_true_iff_false.
  intros (o & Ho & Hlt)%existsb_elem. rewrite Forall_forall in ro_offs_in0. specialize (ro_offs_in0 o Ho). lia.
Qed.

(** ** Export *)

(** The record an entry is written as: wire entries that are still served. *)
Definition exported (now stale : Z) (p : QueryKey * Entry) : option ParsedEntry :=
  match e_stored p.2 with
  | StWire _ _ _ _ =>
      if (Z.min (e_ttl p.2 + stale) U32_MAX <=? age_secs now p.2)%Z then None
      else Some {| pe_key := p.1; pe_age := age_secs now p.2; pe_ttl := e_ttl p.2; pe_stored := e_stored p.2 |}
  | StMessage _ => None
  end.
Definition enc_parsed (p : ParsedEntry) : bytes :=
  match pe_stored p with
  | StWire wire offs rcode answers => write_record [] (pe_key p) (pe_age p) (pe_ttl p) rcode answers wire offs
  | StMessage _ => []
  end.
Definition parsed_ok (p : ParsedEntry) : Prop :=
  match pe_stored p with
  | StWire wire offs rcode answers => record_ok (pe_key p) (pe_age p) (pe_ttl p) rcode answers wire offs
  | StMessage _ => False
  end.

Lemma read_enc_parsed p r s :
  parsed_ok p → reads r (enc_parsed p ++ s) → ∃ r', read_record r = Some (p, r') ∧ reads r' s.
Proof.
  destruct p as [k age ttl [wire offs rcode answers|m]]; unfold parsed_ok, enc_parsed; simpl; [|done].
  apply read_write_record.
Qed.

Lemma export_entry_eq now stale out n p :
  export_entry now stale (out, n) p
  = match exported now stale p with Some q => (out ++ enc_parsed q, (n + 1)%Z) | None => (out, n) end.
Proof.
  destruct p as [k e]. unfold export_entry, exported, enc_parsed. cbn [fst snd].
  destruct (e_stored e) eqn:Es; [|done]. cbv zeta. by destruct (_ <=? _)%Z.
Qed.
Lemma export_fold now stale l out n :
  foldl (export_entry now stale) (out, n) l
  = (out ++ mjoin (enc_parsed <$> omap (exported now stale) l), (n + Z.of_nat (length (omap (exported now stale) l)))%Z).
Proof.
  revert out n. induction l as [|p l IH]; intros out n; [by simpl; rewrite app_nil_r, Z.add_0_r|].
  cbn [foldl omap list_omap]. rewrite export_entry_eq. destruct (exported now stale p); [|apply IH].
  rewrite IH. csimpl.
  rewrite <- app_assoc. f_equal. lia.
Qed.

Context {L : LruLib QueryKey Entry}.
Definition cache_entries (c : DnsCache) : list (QueryKey * Entry) := mjoin (lru_iter <$> dc_shards c).
Definition exports (now : Z) (c : DnsCache) : list ParsedEntry :=
  omap (exported now (cf_stale_max_age (dc_cfg c))) (cache_entries c).

Lemma foldl_mjoin {A B C} (f : A → B → A) (g : C → list B) a (l : list C) :
  foldl (λ a x, foldl f a (g x)) a l = foldl f a (mjoin (g <$> l)).
Proof. revert a. induction l as [|x l IH]; intros a; csimpl; [done|]. by rewrite foldl_app, IH. Qed.

Lemma export_eq unix now c :
  export_snapshot unix now c
  = SNAPSHOT_MAGIC ++ le_bytes 8 unix ++ le_bytes 4 (Z.of_nat (length (exports now c)))
    ++ mjoin (enc_parsed <$> exports now c).
Proof.
  unfold export_snapshot. rewrite foldl_mjoin. fold (cache_entries c). rewrite export_fold, Z.add_0_l. cbn [fst snd].
  reflexivity.
Qed.

(** ** Import *)

Context {LL : LruLaws L} (khash : QueryKey → Z).

Fixpoint put_all (c : DnsCache) (l : list (QueryKey * Entry)) : option DnsCache :=
  match l with
  | [] => Some c
  | (k, e) :: l => let! c := put_entry khash c k e in put_all c l
  end.

Lemma import_loop_reads fi now el stale ps r s n c :
  Forall parsed_ok ps → reads r (mjoin (enc_parsed <$> ps) ++ s) →
  import_loop khash fi now el stale (length ps) r n c
  = let! c' := put_all c (omap (restore_entry fi now el stale) ps) in
    Some (n + length (omap (restore_entry fi now el stale) ps), c').
Proof.
  intros Hps. revert r n c. induction Hps as [|p ps Hp _ IH]; intros r n c Hr; csimpl in *; [by rewrite Nat.add_0_r|].
  rewrite <- app_assoc in Hr. apply read_enc_parsed in Hr as (r' & -> & Hr); [|done].
  destruct (restore_entry fi now el stale p) as [[k e]|]; [|by apply IH]. cbn [put_all length].
  destruct (put_entry khash c k e) as [c1|]; [|done]. cbn [mbind option_bind]. rewrite IH by done.
  by rewrite Nat.add_succ_r.
Qed.

Lemma import_export fi u0 now0 c u1 now1 c0 :
  in_u 64 u0 → (Z.of_nat (length (exports now0 c)) < 2 ^ 32)%Z →
  (Z.of_nat (length (export_snapshot u0 now0 c)) <= U64_MAX)%Z → Forall parsed_ok (exports now0 c) →
  let l := omap (restore_entry fi now1 (Z.max 0 (u1 - u0)) (cf_stale_max_age (dc_cfg c0))) (exports now0 c) in
  import_snapshot khash fi u1 now1 c0 (export_snapshot u0 now0 c)
  = let! c' := put_all c0 l in Some (length l, c').
Proof.
  intros Hu Hn Hlen Hok l. pose proof (reads_new _ Hlen) as Hr. unfold import_snapshot.
  generalize dependent (reader_new (export_snapshot u0 now0 c)). intros r Hr. rewrite export_eq in Hr.
  apply rd_take_app in Hr as (r1 & -> & Hr). rewrite bool_decide_true by done. cbn [negb].
  apply rd_uint_app in Hr as (r2 & -> & Hr); [|exact Hu].
  apply rd_uint_app in Hr as (r3 & -> & Hr); [|split; [lia|exact Hn]]. rewrite Nat2Z.id.
  rewrite <- (app_nil_r (mjoin _)) in Hr. by rewrite (import_loop_reads _ _ _ _ _ _ _ _ _ Hok Hr).
Qed.

(** ** The contents of the shards after an import *)

Definition home (c : DnsCache) (i : nat) (p : QueryKey * Entry) : Prop := shard_idx khash c p.1 = i.
#[local] Instance home_dec c i p : Decision (home c i p).
Proof. unfold home. apply _. Defined.

(** Distinct keys put into an empty cache with room for them: every shard holds its own,
    the last one put in front. *)
Lemma put_all_content l done c cap :
  (∀ k, shard_idx khash c k < length (dc_shards c)) →
  (∀ i sh, dc_shards c !! i = Some sh → lru_cap sh = cap ∧ lru_iter sh = reverse (filter (home c i) done)) →
  NoDup (done ++ l).*1 → (∀ i, length (filter (home c i) (done ++ l)) ≤ cap) →
  ∃ c', put_all c l = Some c' ∧ length (dc_shards c') = length (dc_shards c) ∧ dc_cfg c' = dc_cfg c ∧
        dc_mask c' = dc_mask c ∧
        ∀ i sh, dc_shards c' !! i = Some sh → lru_iter sh = reverse (filter (home c i) (done ++ l)).
Proof.
  revert done c. induction l as [|[k e] l IH]; intros done c Hidx Hsh Hnd Hlen.
  { exists c. split_and!; try done. intros i sh Hi. rewrite app_nil_r. by apply Hsh. }
  simpl. unfold put_entry. destruct (lookup_lt_is_Some_2 (dc_shards c) (shard_idx khash c k) (Hidx k)) as [sh Hk].
  rewrite Hk. cbn [mbind option_bind].
  set (c1 := set_shards (<[shard_idx khash c k:=lru_put k e sh]> (dc_shards c)) c).
  destruct (Hsh _ _ Hk) as [Hcap Hit].
  assert (Hnew : (k ∉ done.*1) ∧ (k ∉ l.*1)).
  { rewrite fmap_app in Hnd. csimpl in Hnd. apply NoDup_app in Hnd as (_ & H1 & H2%NoDup_cons).
    split; [|tauto]. intros Hin. apply (H1 _ Hin). by left. }
  destruct (IH (done ++ [(k, e)]) c1) as (c' & E & Hl' & Hcfg & Hm & Hc').
  - intros k'. subst c1. simpl. rewrite length_insert. apply Hidx.
  - intros i sh' Hi. subst c1. simpl in Hi. unfold home, shard_idx. simpl. fold (shard_idx khash c).
    destruct (decide (shard_idx khash c k = i)) as [Heq|Hne].
    + rewrite Heq in *. rewrite list_lookup_insert_eq in Hi by (rewrite <- Heq; apply Hidx). injection Hi as <-.
      rewrite lru_put_cap, lru_put_iter. split; [done|].
      specialize (Hlen i). rewrite filter_app, length_app, filter_cons_True in Hlen by (unfold home; done). simpl in Hlen.
      rewrite filter_app, reverse_app. simpl. rewrite filter_cons_True by (simpl; done).
      rewrite Hit. change (filter (λ p, shard_idx khash c p.1 = i) done) with (filter (home c i) done).
      assert (Hd : adelete k (reverse (filter (home c i) done)) = reverse (filter (home c i) done)).
      { apply adelete_id. rewrite fmap_reverse, elem_of_reverse. intros ([k' e'] & -> & [_ Hin]%list_elem_of_filter)%list_elem_of_fmap.
        apply (proj1 Hnew). by apply (list_elem_of_fmap_2 fst _ (k', e')). }
      rewrite Hd. simpl. rewrite take_ge; [done|]. simpl. rewrite length_reverse. lia.
    + rewrite list_lookup_insert_ne in Hi by done. destruct (Hsh i sh' Hi) as [? ->]. split; [done|].
      rewrite filter_app, filter_cons_False by (simpl; done). by rewrite filter_nil, app_nil_r.
  - by rewrite <- app_assoc.
  - intros i. rewrite <- app_assoc. apply Hlen.
  - exists c'. split_and!; [done| |done..|].
    + rewrite Hl'. subst c1. simpl. apply length_insert.
    + intros i sh' Hi. rewrite (Hc' i sh' Hi), <- app_assoc. done.
Qed.

(** ** Survivors of an export and an import *)

Definition survivor (fi now0 stale0 now1 elapsed stale1 : Z) (p : QueryKey * Entry) : option (QueryKey * Entry) :=
  exported now0 stale0 p ≫= restore_entry fi now1 elapsed stale1.

Lemma omap_omap {A B C} (f : A → option B) (g : B → option C) (l : list A) : omap g (omap f l) = omap (λ x, f x ≫= g) l.
Proof. induction l as [|x l IH]; csimpl; [done|]. destruct (f x); csimpl; by rewrite IH. Qed.

Lemma survivor_key fi now0 stale0 now1 el stale1 p q : survivor fi now0 stale0 now1 el stale1 p = Some q → q.1 = p.1.
Proof.
  unfold survivor, exported, restore_entry. destruct (e_stored p.2); [|done]. destruct (_ <=? _)%Z; [done|].
  cbn [mbind option_bind pe_ttl pe_age pe_key pe_stored]. intros H. by inv_some.
Qed.

Section keyed.
Context {K V : Type} (f : K * V → option (K * V)) (Hf : ∀ p q, f p = Some q → q.1 = p.1) (idx : K → nat).

Lemma omap_keys_sublist (l : list (K * V)) : ((omap f l).*1) `sublist_of` l.*1.
Proof.
  induction l as [|p l IH]; csimpl; [done|]. destruct (f p) as [q|] eqn:E; csimpl; [|by constructor].
  rewrite (Hf p q E). by constructor.
Qed.
Lemma mjoin_keys_nodup (ls : list (list (K * V))) off :
  (∀ j l p, ls !! j = Some l → p ∈ l → idx p.1 = off + j) → (∀ j l, ls !! j = Some l → NoDup (l.*1)) →
  NoDup (mjoin ls).*1.
Proof.
  revert off. induction ls as [|l ls IH]; intros off Hh Hn; csimpl; [constructor|]. rewrite fmap_app.
  apply NoDup_app. split_and!.
  - by apply (Hn 0).
  - intros k Hk Hk'. apply list_elem_of_fmap in Hk as (p & -> & Hp). apply list_elem_of_fmap in Hk' as (q & Eq & Hq).
    apply list_elem_of_join in Hq as (l' & Hq & [j Hj]%list_elem_of_lookup_1).
    pose proof (Hh 0 l p eq_refl Hp). pose proof (Hh (S j) l' q Hj Hq). rewrite Eq in *. lia.
  - apply (IH (S off)); [|intros j l' Hj; by apply (Hn (S j))].
    intros j l' p Hj Hp. rewrite (Hh (S j) l' p Hj Hp). lia.
Qed.
Lemma filter_home_omap (ls : list (list (K * V))) off i :
  (∀ j l p, ls !! j = Some l → p ∈ l → idx p.1 = off + j) →
  filter (λ p, idx p.1 = off + i) (omap f (mjoin ls)) = omap f (default [] (ls !! i)).
Proof.
  assert (Hall : ∀ l n, (∀ p, p ∈ l → idx p.1 = n) → filter (λ p, idx p.1 = off + i) (omap f l)
                        = if decide (n = off + i) then omap f l else []).
  { intros l n Hl. induction l as [|p l IH]; csimpl; [by destruct (decide _)|].
    assert (IH' := IH (λ q Hq, Hl q (list_elem_of_further _ _ _ Hq))). specialize (Hl p (list_elem_of_here _ _)).
    destruct (f p) as [q|] eqn:E; [|done]. rewrite filter_cons, IH', (Hf p q E), Hl.
    by destruct (decide (n = off + i)). }
  revert off i Hall. induction ls as [|l ls IH]; intros off i Hall Hh; csimpl; [done|].
  rewrite omap_app, filter_app. rewrite (Hall l off) by (intros p Hp; rewrite (Hh 0 l p eq_refl Hp); lia).
  destruct i as [|i]; simpl.
  - rewrite Nat.add_0_r, decide_True by done. rewrite <- (app_nil_r (omap f l)) at 2. f_equal.
    apply elem_of_nil_inv. intros q [Hq (p & Hp & Ep)%list_elem_of_omap]%list_elem_of_filter. revert Hq.
    rewrite (Hf p q Ep). apply list_elem_of_join in Hp as (l' & Hp & [j Hj]%list_elem_of_lookup_1).
    rewrite (Hh (S j) l' p Hj Hp). lia.
  - rewrite decide_False by lia. simpl. replace (off + S i) with (S off + i) by lia. apply IH.
    + intros l' n Hl. specialize (Hall l' n Hl). by replace (S off + i) with (off + S i) by lia.
    + intros j l' p Hj Hp. rewrite (Hh (S j) l' p Hj Hp). lia.
Qed.
End keyed.

Lemma cache_len_shard c i (sh : lru QueryKey Entry) : dc_shards c !! i = Some sh → length (lru_iter sh) ≤ cache_len c.
Proof.
  unfold cache_len. intros Hi. apply list_elem_of_lookup_2 in Hi. revert Hi.
  induction (dc_shards c) as [|x l IH]; csimpl; [by intros ?%elem_of_nil|].
  intros [->|Hin]%elem_of_cons; simpl; [lia|]. specialize (IH Hin). simpl in IH. lia.
Qed.

(** Putting the survivors of [c] into the empty cache [c0]. *)
Lemma put_survivors E fi now0 now1 el st c c0 :
  cache_wf khash E c → cache_wf khash E c0 → cache_len c0 = 0 → dc_mask c0 = dc_mask c → dc_capacity c0 = dc_capacity c →
  let f := survivor fi now0 (cf_stale_max_age (dc_cfg c)) now1 el st in
  ∃ c', put_all c0 (omap f (cache_entries c)) = Some c' ∧
    ∀ i sh, dc_shards c !! i = Some sh →
      ∃ sh', dc_shards c' !! i = Some sh' ∧ lru_iter sh' = reverse (omap f (lru_iter sh)).
Proof.
  intros Hc Hc0 Hlen Hm Hcap f.
  assert (Hf : ∀ p q, f p = Some q → q.1 = p.1) by apply survivor_key.
  assert (Hidx : ∀ k, shard_idx khash c0 k = shard_idx khash c k) by (intros k; unfold shard_idx; by rewrite Hm).
  assert (Hn : length (dc_shards c0) = length (dc_shards c)).
  { destruct (ci_shards _ _ _ Hc) as (j & ? & Hl & Hj), (ci_shards _ _ _ Hc0) as (j0 & ? & Hl0 & Hj0).
    apply Nat2Z.inj. lia. }
  assert (Hhome : ∀ j l p, (lru_iter <$> dc_shards c) !! j = Some l → p ∈ l → shard_idx khash c0 p.1 = 0 + j).
  { intros j l [k e] Hj Hp. rewrite Hidx. apply list_lookup_fmap_Some in Hj as (sh & -> & Hj).
    by apply (so_home _ _ _ _ _ (ci_ok _ _ _ Hc j sh Hj) k e). }
  assert (Hfil : ∀ i, filter (home c0 i) (omap f (cache_entries c))
                      = omap f (default [] ((lru_iter <$> dc_shards c) !! i))).
  { intros i. exact (filter_home_omap f Hf (shard_idx khash c0) _ 0 i Hhome). }
  destruct (put_all_content (omap f (cache_entries c)) [] c0 (shard_cap (dc_capacity c) (length (dc_shards c))))
    as (c' & Hput & Hl' & _ & _ & Hc').
  - intros k. by apply (shard_in_range khash E).
  - intros i sh Hi. split; [rewrite <- Hcap, <- Hn; apply (so_cap _ _ _ _ _ (ci_ok _ _ _ Hc0 i sh Hi))|].
    apply nil_length_inv. pose proof (cache_len_shard c0 i sh Hi). lia.
  - rewrite app_nil_l. eapply sublist_NoDup; [|by apply omap_keys_sublist].
    apply (mjoin_keys_nodup (shard_idx khash c0) _ 0 Hhome). intros j l Hj.
    apply list_lookup_fmap_Some in Hj as (sh & -> & Hj). apply (so_nodup _ _ _ _ _ (ci_ok _ _ _ Hc j sh Hj)).
  - intros i. rewrite app_nil_l, Hfil, list_lookup_fmap.
    destruct (dc_shards c !! i) as [sh|] eqn:Ei; simpl; [|lia].
    pose proof (ci_ok _ _ _ Hc i sh Ei) as [H1 H2 _ _ _]. etrans; [apply length_omap_le|]. lia.
  - exists c'. split; [done|]. intros i sh Hi.
    destruct (lookup_lt_is_Some_2 (dc_shards c') i) as [sh' Hi']; [rewrite Hl', Hn; by eapply lookup_lt_Some|].
    exists sh'. split; [done|]. rewrite (Hc' i sh' Hi'), app_nil_l, Hfil, list_lookup_fmap, Hi. done.
Qed.

(** ** Arbitrary bytes *)

(** What [read_record] guarantees of the entry it returns. *)
Definition restored_ok (k : QueryKey) (e : Entry) : Prop :=
  e_verdict e = None ∧
  ∃ wire offs rcode answers, e_stored e = StWire wire offs rcode answers ∧ wire_matches_key wire k = true ∧
    Forall (λ o, o + 4 <= Z.of_nat (length wire))%Z offs.

Lemma read_record_ok r p r' fi now el st k e :
  read_record r = Some (p, r') → restore_entry fi now el st p = Some (k, e) → restored_ok k e.
Proof.
  unfold read_record. intros H Hr. repeat (inv_some; match goal with x : _ * _ |- _ => destruct x end).
  unfold restore_entry in Hr. cbn [pe_ttl pe_age pe_key pe_stored] in Hr. inv_some.
  bool_to_prop. split; [done|]. eexists _, _, _, _. split_and!; [done|done|].
  apply Forall_forall. intros o Ho. apply Z.nlt_ge. intros Hlt.
  match goal with E : existsb _ _ = false |- _ => apply not_true_iff_false in E; apply E end.
  apply existsb_elem. exists o. split; [done|]. by apply Z.ltb_lt.
Qed.

Lemma entries_within_trans c1 c2 c3 new :
  entries_within c1 c2 new → entries_within c2 c3 new → entries_within c1 c3 new.
Proof. intros H1 H2 P HP Hn. apply H2; [|done]. by apply H1. Qed.

Lemma import_loop_total (EOK : Entry → Prop) fi now el st n r m c :
  (∀ k e, restored_ok k e → EOK e) → cache_wf khash EOK c →
  ∃ k c', import_loop khash fi now el st n r m c = Some (m + k, c') ∧ k ≤ n ∧
          cache_wf khash EOK c' ∧ entries_within c c' restored_ok.
Proof.
  intros HE. revert r m c. induction n as [|n IH]; intros r m c Hc; simpl.
  { exists 0, c. rewrite Nat.add_0_r. split_and!; try done. by intros P HP _. }
  destruct (read_record r) as [[p r']|] eqn:Er.
  2:{ exists 0, c. rewrite Nat.add_0_r. split_and!; try done; [lia|]. by intros P HP _. }
  destruct (restore_entry fi now el st p) as [[k e]|] eqn:Ep.
  - destruct (put_entry_ok khash EOK c k e Hc (HE k e (read_record_ok _ _ _ _ _ _ _ _ _ Er Ep))) as (c1 & E1 & Hc1). rewrite E1. cbn [mbind option_bind].
    destruct (IH r' (S m) c1 Hc1) as (x & c' & -> & Hx & Hc' & Hw). exists (S x), c'.
    split_and!; [by rewrite Nat.add_succ_r|lia|done|]. eapply entries_within_trans; [|done].
    intros P HP Hn. eapply (put_within khash _ _ _ _ _ Hc E1); [done|]. intros ? ? [-> ->].
    apply Hn. by eapply read_record_ok.
  - destruct (IH r' m c Hc) as (x & c' & -> & Hx & Hc' & Hw). exists x, c'. split_and!; try done. lia.
Qed.

Lemma import_snapshot_ok (EOK : Entry → Prop) fi unix now c data :
  (∀ k e, restored_ok k e → EOK e) → cache_wf khash EOK c →
  ∃ n c', import_snapshot khash fi unix now c data = Some (n, c') ∧ cache_wf khash EOK c' ∧ entries_within c c' restored_ok.
Proof.
  intros HE Hc.
  assert (Htriv : ∃ n c', Some (0, c) = Some (n, c') ∧ cache_wf khash EOK c' ∧ entries_within c c' restored_ok).
  { exists 0, c. split_and!; [done..|by intros P HP _]. }
  unfold import_snapshot. destruct (rd_take _ _) as [[magic r]|]; [|exact Htriv].
  destruct (negb _); [exact Htriv|]. destruct (rd_uint 8 r) as [[u r1]|]; [|exact Htriv].
  destruct (rd_uint 4 r1) as [[n r2]|]; [|exact Htriv].
  destruct (import_loop_total EOK fi now (Z.max 0 (unix - u)) (cf_stale_max_age (dc_cfg c)) (Z.to_nat n) r2 0 c HE Hc)
    as (x & c' & -> & _ & Hc' & Hw).
  by exists (0 + x), c'.
Qed.
End records.

(** ** The contract of snapshots *)

Section claims.
Context {DL : DnsLib} {DC : DnsCodec} {L : LruLib QueryKey Entry} {LL : LruLaws L} (khash : QueryKey → Z).

(** What becomes of an entry that is exported at [now0] and imported [elapsed] seconds later at
    [now1]: a wire entry whose age, in whole seconds, is within its TTL and the serve-stale
    window at both times comes back under its key with its bytes and TTL, without a verdict,
    and stored so long before [now1] that its age is the sum of both; one that would have been
    stored before the first instant of the clock is lost. *)
Definition carried (fi now0 stale0 now1 elapsed stale1 : Z) (p : QueryKey * Entry) : option (QueryKey * Entry) :=
  let '(k, e) := p in
  let age0 := Z.min (Z.max 0 (now0 - e_stored_at e) / NANOS) U32_MAX in
  let age1 := (age0 + elapsed)%Z in
  match e_stored e with
  | StMessage _ => None
  | StWire _ _ _ _ =>
      if ((age0 <? Z.min (e_ttl e + stale0) U32_MAX) && (age1 <? e_ttl e + stale1) && (fi <=? now1 - age1 * NANOS))%Z
      then Some (k, {| e_stored := e_stored e; e_stored_at := now1 - age1 * NANOS; e_ttl := e_ttl e; e_verdict := None |})
      else None
  end.
Lemma survivor_carried fi now0 stale0 now1 elapsed stale1 p :
  survivor fi now0 stale0 now1 elapsed stale1 p = carried fi now0 stale0 now1 elapsed stale1 p.
Proof.
  destruct p as [k e]. unfold survivor, exported, carried, restore_entry, age_secs. cbn [fst snd].
  destruct (e_stored e); [|done]. rewrite (Z.leb_antisym _ (Z.min (e_ttl e + stale0) U32_MAX)).
  destruct (_ <? Z.min _ _)%Z; [|done]. cbn [negb mbind option_bind pe_age pe_ttl pe_key pe_stored andb].
  rewrite (Z.leb_antisym _ (e_ttl e + stale1)). destruct (_ <? e_ttl e + stale1)%Z; [|done]. cbn [negb andb].
  rewrite (Z.ltb_antisym fi). by destruct (fi <=? _)%Z.
Qed.
(** The age of a restored entry is what it had when it was exported and the time since. *)
Lemma carried_age fi now0 stale0 now1 elapsed stale1 k e k' e' :
  carried fi now0 stale0 now1 elapsed stale1 (k, e) = Some (k', e') →
  ((now1 - e_stored_at e') / NANOS = Z.min (Z.max 0 (now0 - e_stored_at e) / NANOS) U32_MAX + elapsed)%Z.
Proof.
  unfold carried. destruct (e_stored e); [|done]. destruct (_ && _); [|done]. intros [= <- <-]. cbn [e_stored_at].
  rewrite Z.sub_sub_distr, Z.sub_diag, Z.add_0_l. apply Z.div_mul. done.
Qed.


(** Importing any byte string, however corrupt, returns: the cache stays well-formed
    and within its capacity, at most the announced number of records is restored, and
    every new entry carries no verdict, answers the question of the key it is stored
    under, and has all its TTL offsets inside its bytes. *)
Theorem import_snapshot_total (fi unix now : Z) (c : DnsCache) (data : bytes) :
  cache_wf khash (λ _, True) c →
  ∃ n c', import_snapshot khash fi unix now c data = Some (n, c') ∧ cache_wf khash (λ _, True) c' ∧
    cache_len c' ≤ max (dc_capacity c') (length (dc_shards c')) ∧
    ∀ P, all_entries P c → (∀ k e, restored_ok k e → P k e) → all_entries P c'.
Proof.
  intros Hc. destruct (import_snapshot_ok khash (λ _, True) fi unix now c data) as (n & c' & E & Hc' & Hw); [done|done|].
  exists n, c'. split_and!; [done..|by apply (cache_len_bound khash (λ _, True))|exact Hw].
Qed.
End claims.

(** ** Witnesses and limits *)

Definition one_hash (k : QueryKey) : Z := 0.
Definition filled (cap : nat) (l : list (bytes * Message)) : DnsCache :=
  default (cache_new None cap 0 0 60)
    (run_ops one_hash (cache_new None cap 0 0 60) ((λ p, OpInsert 0 (sample_key p.1) p.2 None) <$> l)).
Definition keys_of (c : DnsCache) : list bytes := k_name ∘ fst <$> cache_entries c.

Definition two_entries : DnsCache :=
  filled 100 [(bs "a.example", sample_response (bs "a.example") 300); (bs "b.example", sample_response (bs "b.example") 300)].
Definition fresh_cache : DnsCache := cache_new None 100 0 0 60.

(** A checker for the format limits. *)
Definition in_ub (w z : Z) : bool := ((0 <=? z) && (z <? 2 ^ w))%Z.
Definition parsed_okb (p : ParsedEntry) : bool :=
  match pe_stored p with
  | StWire wire offs rcode answers =>
      (Z.of_nat (length (k_name (pe_key p))) <? 65536)%Z && is_utf8 (k_name (pe_key p))
      && in_ub 16 (k_rtype (pe_key p)) && in_ub 16 (k_class (pe_key p)) && in_ub 32 (pe_age p) && in_ub 32 (pe_ttl p)
      && in_ub 16 rcode && (length answers <=? MAX_SNAPSHOT_ANSWERS)
      && forallb (λ a, (Z.of_nat (length a) <? 65536)%Z && is_utf8 a) answers
      && (Z.of_nat (length wire) <=? MAX_SNAPSHOT_WIRE_LEN)%Z && wire_matches_key wire (pe_key p)
      && (length offs <=? MAX_SNAPSHOT_TTL_OFFSETS)
      && forallb (λ o, (0 <=? o) && (o + 4 <=? Z.of_nat (length wire)))%Z offs
  | StMessage _ => false
  end.
Lemma parsed_okb_ok p : parsed_okb p = true → parsed_ok p.
Proof.
  unfold parsed_okb, parsed_ok. destruct (pe_stored p); [|done]. unfold in_ub. intros H. bool_to_prop.
  repeat match goal with
  | H : (_ <? _)%Z = true |- _ => apply Z.ltb_lt in H
  | H : (_ <=? _)%Z = true |- _ => apply Z.leb_le in H
  | H : (_ <=? _) = true |- _ => apply Nat.leb_le in H
  | H : forallb _ _ = true |- _ => apply forallb_Forall in H
  end.
  constructor; try done; (eapply Forall_impl; [done|]); intros x Hx; simpl in Hx; bool_to_prop; split; try done; lia.
Qed.
Lemma cache_inv_filled cap l : cache_inv one_hash (filled cap l).
Proof.
  unfold filled. destruct (run_ops_ok one_hash ttl_pos (λ e He, He) (cache_new None cap 0 0 60)
    ((λ p, OpInsert 0 (sample_key p.1) p.2 None) <$> l)) as (c & -> & Hc); [| |exact Hc].
  - apply Forall_fmap, Forall_true. done.
  - by apply cache_new_inv.
Qed.


Lemma import_snapshot_total_witness :
  ∃ n c', import_snapshot one_hash 0 0 0 two_entries (SNAPSHOT_MAGIC ++ bs "garbage, not a snapshot") = Some (n, c') ∧
    cache_wf one_hash (λ _, True) c' ∧ cache_len c' ≤ max (dc_capacity c') (length (dc_shards c')) ∧
    ∀ P, all_entries P two_entries → (∀ k e, restored_ok k e → P k e) → all_entries P c'.
Proof.
  apply (import_snapshot_total one_hash 0 0 0 two_entries (SNAPSHOT_MAGIC ++ bs "garbage, not a snapshot")).
  destruct (cache_inv_filled 100 [(bs "a.example", sample_response (bs "a.example") 300);
    (bs "b.example", sample_response (bs "b.example") 300)]) as [H1 H2 H3 H4 H5].
  constructor; [done..|]. intros i sh Hi. destruct (H5 i sh Hi). by constructor.
Defined.

(** The import puts the entries back most recently used first, so recency is reversed:
    when the new cache is smaller, it is the most recently used entry that is evicted.
    Here [b] was used last; of the two, a cache of one entry per shard keeps [a]. *)
Theorem snapshot_evicts_most_recent :
  keys_of two_entries = [bs "b.example"; bs "a.example"] ∧
  (keys_of ∘ snd <$> import_snapshot one_hash 0 1000 0 (cache_new None 1 0 0 60) (export_snapshot 1000 0 two_entries))
  = Some [bs "a.example"].
Proof. split; vm_compute; reflexivity. Qed.

Definition big_response (name : bytes) (n : nat) : Message :=
  set_sections (replicate n {| dr_name := name; dr_ttl := 300%Z; dr_data := RdA sample_ip |}) [] []
    (sample_response name 300).
Definition with_big (n : nat) : DnsCache :=
  filled 100 [(bs "a.example", sample_response (bs "a.example") 300); (bs "big.example", big_response (bs "big.example") n)].

(** The export writes entries that the import refuses: a response with more than 64
    answers is exported, but reading it back stops the import, and every entry behind it
    is lost too. *)
Theorem snapshot_loses_entries :
  fst <$> import_snapshot one_hash 0 1000 0 fresh_cache (export_snapshot 1000 0 (with_big 64)) = Some 2 ∧
  length (exports 0 (with_big 65)) = 2 ∧
  fst <$> import_snapshot one_hash 0 1000 0 fresh_cache (export_snapshot 1000 0 (with_big 65)) = Some 0.
Proof. split_and!; vm_compute; reflexivity. Qed.
