(* ===== verification/Stats.v ===== *)
(** * bulwark-engine: sharded query statistics ([crates/bulwark-engine/src/stats.rs]).

    Counters are [u64]s with wrapping addition, hash maps are [gmap]s whose iteration order
    is a parameter ([HashOrder]), latencies are IEEE doubles.  [slot] is the slot of the
    recording thread.  An index out of range is a panic, the outcome [None]. *)
From Stdlib Require Import Ascii SpecFloat.
From S2P Require Import Prelude RustStr RustNet RustFloat Rule Clients QueryLog Cache.

(** ** Hash maps *)

(** Iteration visits every pair once, in an order that depends on the hasher. *)
Class HashOrder : Type := {
  hash_order {V : Type} : gmap bytes V → list (bytes * V);
  hash_order_perm {V : Type} (m : gmap bytes V) : hash_order m ≡ₚ map_to_list m;
}.
Definition add64 (a b : Z) : Z := wrap 64 (a + b).

(** [String]'s order: lexicographic on bytes. *)
Fixpoint bytes_le (a b : bytes) : bool :=
  match a, b with
  | [], _ => true
  | _ :: _, [] => false
  | x :: a, y :: b => (u8 x <? u8 y)%Z || (u8 x =? u8 y)%Z && bytes_le a b
  end.

(** ** Data *)

Definition TOPK_KEYS : nat := 4096.
Definition LATENCY_BUCKETS_MS : list f64 := f64_of <$> [1; 2; 5; 10; 20; 50; 100; 200; 500; 1000]%Z.
Definition HIST_LEN : nat := length LATENCY_BUCKETS_MS + 1.

(** [hist_index]: the first bucket whose bound is not exceeded. *)
Definition hist_index (ms : f64) : nat :=
  match list_find (λ b, f64_le ms b = true) LATENCY_BUCKETS_MS with
  | Some (i, _) => i
  | None => length LATENCY_BUCKETS_MS
  end.

Record Bucket : Type := { bk_hour : Z; bk_total : Z; bk_blocked : Z; bk_cached : Z }.
Abbreviation HeavyHitters := (gmap (list ascii) Z) (only parsing).

Record StatsInner : Type := {
  si_total : Z; si_blocked : Z; si_cached : Z; si_rewritten : Z; si_errors : Z;
  si_proc_time_hist : list Z;
  si_resolved_domains : HeavyHitters;
  si_blocked_domains : HeavyHitters;
  si_clients : HeavyHitters;
  si_upstreams : gmap bytes Z;
  si_upstream_rtt_sum : gmap bytes f64;
  si_upstream_rtt_count : gmap bytes Z;
  si_upstream_latency_hist : gmap bytes (list Z);
  si_series : list Bucket;
  si_cache : CacheCounters;
}.
Definition stats_default : StatsInner :=
  {| si_total := 0; si_blocked := 0; si_cached := 0; si_rewritten := 0; si_errors := 0; si_proc_time_hist := [];
     si_resolved_domains := ∅; si_blocked_domains := ∅; si_clients := ∅; si_upstreams := ∅;
     si_upstream_rtt_sum := ∅; si_upstream_rtt_count := ∅; si_upstream_latency_hist := ∅; si_series := [];
     si_cache := counters_default |}.

(** ** Counting *)

(** The free function [bump]. *)
Definition bump (m : gmap bytes Z) (key : bytes) (by_ : Z) (cap : nat) : gmap bytes Z :=
  match m !! key with
  | Some v => <[key := add64 v by_]> m
  | None => if size m <? cap then <[key := by_]> m else m
  end.

(** [min_by_key]: the first pair of the iteration with the least count. *)
Definition min_pair (l : list (bytes * Z)) : option (bytes * Z) :=
  match l with
  | [] => None
  | p :: l => Some (foldl (λ a q, if (q.2 <? a.2)%Z then q else a) p l)
  end.

Section stats.
Context {IL : IpNetLib} {HO : HashOrder}.

(** [HeavyHitters::bump]. *)
Definition hh_bump (cap : nat) (by_ : Z) (m : HeavyHitters) (key : bytes) : HeavyHitters :=
  match m !! key with
  | Some v => <[key := add64 v by_]> m
  | None =>
      if size m <? cap then <[key := by_]> m
      else match min_pair (hash_order m) with
           | Some (min_key, min_val) => <[key := add64 min_val by_]> (delete min_key m)
           | None => m
           end
  end.

(** [entry(k).or_insert(z)] updated by [f], for every pair of [src]. *)
Definition merge_with {V} (z : V) (f : V → V → V) (dst src : gmap bytes V) : gmap bytes V :=
  foldl (λ m p, <[p.1 := f (default z (m !! p.1)) p.2]> m) dst (hash_order src).
(** [merge_counts] and [HeavyHitters::merge_from]. *)
Definition merge_counts (dst src : gmap bytes Z) : gmap bytes Z := merge_with 0%Z add64 dst src.

(** [Vec::resize(n, 0)] and [iter_mut().zip(..)]. *)
Definition resize0 (n : nat) (l : list Z) : list Z := take n l ++ replicate (n - length l) 0%Z.
Fixpoint zip_add (a b : list Z) : list Z :=
  match a, b with
  | x :: a, y :: b => add64 x y :: zip_add a b
  | a, _ => a
  end.
Definition add_hist (dst hist : list Z) : list Z :=
  if length dst =? length hist then zip_add dst hist else dst.
(** One bucket of the other series. *)
Fixpoint merge_bucket (s : list Bucket) (b : Bucket) : list Bucket :=
  match s with
  | [] => [b]
  | x :: s =>
      if (bk_hour x =? bk_hour b)%Z then
        {| bk_hour := bk_hour x; bk_total := add64 (bk_total x) (bk_total b);
           bk_blocked := add64 (bk_blocked x) (bk_blocked b); bk_cached := add64 (bk_cached x) (bk_cached b) |} :: s
      else x :: merge_bucket s b
  end.

(** [StatsInner::merge_from]. *)
Definition merge_from (s o : StatsInner) : StatsInner :=
  {| si_total := add64 (si_total s) (si_total o); si_blocked := add64 (si_blocked s) (si_blocked o);
     si_cached := add64 (si_cached s) (si_cached o); si_rewritten := add64 (si_rewritten s) (si_rewritten o);
     si_errors := add64 (si_errors s) (si_errors o);
     si_proc_time_hist := match si_proc_time_hist o with
                          | [] => si_proc_time_hist s
                          | h => zip_add (resize0 HIST_LEN (si_proc_time_hist s)) h
                          end;
     si_resolved_domains := merge_counts (si_resolved_domains s) (si_resolved_domains o);
     si_blocked_domains := merge_counts (si_blocked_domains s) (si_blocked_domains o);
     si_clients := merge_counts (si_clients s) (si_clients o);
     si_upstreams := merge_counts (si_upstreams s) (si_upstreams o);
     si_upstream_rtt_sum := merge_with f64_zero f64_add (si_upstream_rtt_sum s) (si_upstream_rtt_sum o);
     si_upstream_rtt_count := merge_counts (si_upstream_rtt_count s) (si_upstream_rtt_count o);
     si_upstream_latency_hist := merge_with (replicate HIST_LEN 0%Z) add_hist (si_upstream_latency_hist s)
                                   (si_upstream_latency_hist o);
     si_series := foldl merge_bucket (si_series s) (si_series o);
     si_cache := si_cache s |}.

(** ** [Stats] *)

Record Stats : Type := {
  st_shards : list StatsInner;
  st_mask : Z;
  st_key_cap : nat;
  st_enabled : bool;
  st_anonymize : bool;
  st_max_buckets : nat;
}.
Definition set_stat_shards (l : list StatsInner) (s : Stats) : Stats :=
  {| st_shards := l; st_mask := st_mask s; st_key_cap := st_key_cap s; st_enabled := st_enabled s;
     st_anonymize := st_anonymize s; st_max_buckets := st_max_buckets s |}.

(** [shard_count] and [(retention_days.max(1) * 24) as usize]. *)
Definition stats_shard_count (parallelism : option Z) : nat :=
  Z.to_nat (clamp 1 64 (next_power_of_two (default 4%Z parallelism))).
Definition buckets_for (retention_days : Z) : nat := Z.to_nat (wrap 32 (Z.max retention_days 1 * 24)).

(** [Stats::new]. *)
Definition stats_new (parallelism : option Z) (enabled : bool) (retention_days : Z) (anonymize : bool) : Stats :=
  let n := stats_shard_count parallelism in
  {| st_shards := replicate n stats_default; st_mask := (Z.of_nat n - 1)%Z; st_key_cap := max (TOPK_KEYS / n) 256;
     st_enabled := enabled; st_anonymize := anonymize; st_max_buckets := buckets_for retention_days |}.

(** [while series.len() > max { series.remove(0) }]. *)
Definition trim_series (max : nat) (s : list Bucket) : list Bucket := drop (length s - max) s.
Definition with_series (l : list Bucket) (s : StatsInner) : StatsInner :=
  {| si_total := si_total s; si_blocked := si_blocked s; si_cached := si_cached s; si_rewritten := si_rewritten s;
     si_errors := si_errors s; si_proc_time_hist := si_proc_time_hist s; si_resolved_domains := si_resolved_domains s;
     si_blocked_domains := si_blocked_domains s; si_clients := si_clients s; si_upstreams := si_upstreams s;
     si_upstream_rtt_sum := si_upstream_rtt_sum s; si_upstream_rtt_count := si_upstream_rtt_count s;
     si_upstream_latency_hist := si_upstream_latency_hist s; si_series := l; si_cache := si_cache s |}.

(** [Stats::reconfigure], [is_enabled], [reset]. *)
Definition stats_reconfigure (enabled : bool) (retention_days : Z) (anonymize : bool) (s : Stats) : Stats :=
  let mx := buckets_for retention_days in
  {| st_shards := (λ i, with_series (trim_series mx (si_series i)) i) <$> st_shards s; st_mask := st_mask s;
     st_key_cap := st_key_cap s; st_enabled := enabled; st_anonymize := anonymize; st_max_buckets := mx |}.
Definition stats_reset (s : Stats) : Stats := set_stat_shards ((λ _, stats_default) <$> st_shards s) s.

(** [hist[i] += 1]. *)
Definition hist_incr (i : nat) (h : list Z) : option (list Z) :=
  let! v := h !! i in Some (<[i := add64 v 1]> h).
Definition b2z (b : bool) : Z := if b then 1 else 0.
(** The hourly series after one query. *)
Definition push_series (max : nat) (hour : Z) (blocked cached : bool) (s : list Bucket) : list Bucket :=
  let fresh := {| bk_hour := hour; bk_total := 1; bk_blocked := b2z blocked; bk_cached := b2z cached |} in
  match last s with
  | Some b =>
      if (bk_hour b =? hour)%Z then
        removelast s ++ [{| bk_hour := bk_hour b; bk_total := add64 (bk_total b) 1;
                            bk_blocked := if blocked then add64 (bk_blocked b) 1 else bk_blocked b;
                            bk_cached := if cached then add64 (bk_cached b) 1 else bk_cached b |}]
      else trim_series max (s ++ [fresh])
  | None => trim_series max (s ++ [fresh])
  end.

(** The upstream maps of [record]. *)
Record UpMaps : Type := {
  um_upstreams : gmap bytes Z; um_rtt_sum : gmap bytes f64; um_rtt_count : gmap bytes Z;
  um_hist : gmap bytes (list Z);
}.
Definition record_upstream (cap : nat) (up : bytes) (up_ms : f64) (u : UpMaps) : option UpMaps :=
  let sum := match um_rtt_sum u !! up with Some v => f64_add v up_ms | None => up_ms end in
  let cnt := match um_rtt_count u !! up with Some v => add64 v 1 | None => 1%Z end in
  let! hist := hist_incr (hist_index up_ms) (default (replicate HIST_LEN 0%Z) (um_hist u !! up)) in
  Some {| um_upstreams := bump (um_upstreams u) up 1 cap; um_rtt_sum := <[up := sum]> (um_rtt_sum u);
          um_rtt_count := <[up := cnt]> (um_rtt_count u); um_hist := <[up := hist]> (um_hist u) |}.

(** The body of [record], under the lock of one shard. *)
Definition is_error (a : QueryAction) : bool := match a with QaError => true | _ => false end.
Definition is_rewritten (a : QueryAction) : bool := match a with QaRewritten _ _ => true | _ => false end.
Definition record_inner (cap mx : nat) (anonymize : bool) (entry : QueryLogEntry) (rtt : option f64) (s : StatsInner)
  : option StatsInner :=
  let blocked := entry_is_blocked entry in
  let domain := trim_end_matches "."%char (le_question entry) in
  let up_ms := default (le_elapsed_ms entry) rtt in
  let hour := Z.quot (Z.quot (le_time_ms entry) 1000) 3600 in
  let cached := entry_cached entry in
  let! proc := if is_error (le_action entry) then Some (si_proc_time_hist s)
               else hist_incr (hist_index (le_elapsed_ms entry))
                      (if si_proc_time_hist s is [] then replicate HIST_LEN 0%Z else si_proc_time_hist s) in
  let u0 := {| um_upstreams := si_upstreams s; um_rtt_sum := si_upstream_rtt_sum s;
               um_rtt_count := si_upstream_rtt_count s; um_hist := si_upstream_latency_hist s |} in
  let! u := match entry_upstream entry with Some up => record_upstream cap up up_ms u0 | None => Some u0 end in
  Some {| si_total := add64 (si_total s) 1;
          si_blocked := if blocked then add64 (si_blocked s) 1 else si_blocked s;
          si_cached := if cached then add64 (si_cached s) 1 else si_cached s;
          si_rewritten := if is_rewritten (le_action entry) then add64 (si_rewritten s) 1 else si_rewritten s;
          si_errors := if is_error (le_action entry) then add64 (si_errors s) 1 else si_errors s;
          si_proc_time_hist := proc;
          si_resolved_domains := if blocked then si_resolved_domains s else hh_bump cap 1 (si_resolved_domains s) domain;
          si_blocked_domains := if blocked then hh_bump cap 1 (si_blocked_domains s) domain else si_blocked_domains s;
          si_clients := if anonymize then si_clients s else hh_bump cap 1 (si_clients s) (le_client_ip entry);
          si_upstreams := um_upstreams u; si_upstream_rtt_sum := um_rtt_sum u;
          si_upstream_rtt_count := um_rtt_count u; si_upstream_latency_hist := um_hist u;
          si_series := push_series mx hour blocked cached (si_series s);
          si_cache := si_cache s |}.

(** [Stats::record] by the thread of slot [slot]. *)
Definition stats_record (s : Stats) (slot : Z) (entry : QueryLogEntry) (rtt : option f64) : option Stats :=
  if negb (st_enabled s) then Some s
  else
    let i := Z.to_nat (Z.land slot (st_mask s)) in
    let! inner := st_shards s !! i in
    let! inner := record_inner (st_key_cap s) (st_max_buckets s) (st_anonymize s) entry rtt inner in
    Some (set_stat_shards (<[i := inner]> (st_shards s)) s).

(** [Stats::merged]: the sort by hour is stable. *)
Definition hour_le (a b : Bucket) : Prop := (bk_hour a <= bk_hour b)%Z.
#[export] Instance hour_le_dec a b : Decision (hour_le a b).
Proof. unfold hour_le. apply _. Defined.
Definition merged (s : Stats) : StatsInner :=
  let acc := foldl merge_from stats_default (st_shards s) in
  with_series (trim_series (st_max_buckets s) (merge_sort hour_le (si_series acc))) acc.

(** ** Summaries *)

(** [bucket_bounds], [quantile] and [percentiles]. *)
Definition bucket_bounds (i : nat) : option (f64 * f64) :=
  let! lower := match i with 0 => Some f64_zero | S j => LATENCY_BUCKETS_MS !! j end in
  Some (lower, default f64_inf (LATENCY_BUCKETS_MS !! i)).
Fixpoint quantile_loop (i : nat) (hist : list Z) (target : f64) (cum : Z) : option f64 :=
  match hist with
  | [] => last LATENCY_BUCKETS_MS
  | c :: hist =>
      if (c =? 0)%Z then quantile_loop (S i) hist target cum
      else if f64_le target (f64_of (add64 cum c)) then
        let! (lower, upper) := bucket_bounds i in
        if negb (f64_is_finite upper) then Some lower
        else
          let within := f64_div (f64_sub target (f64_of cum)) (f64_of c) in
          Some (f64_add lower (f64_mul (f64_sub upper lower) within))
      else quantile_loop (S i) hist target (add64 cum c)
  end.
Definition quantile (hist : list Z) (total : Z) (q : f64) : option f64 :=
  if (total =? 0)%Z then Some f64_zero
  else quantile_loop 0 hist (f64_mul q (f64_of total)) 0.
Record LatencyPercentiles : Type := { lp_p50 : f64; lp_p90 : f64; lp_p99 : f64 }.
Definition sum64 (l : list Z) : Z := foldl add64 0%Z l.
Definition percentiles (hist : list Z) : option LatencyPercentiles :=
  let total := sum64 hist in
  let! p50 := quantile hist total (f64_lit 1 2) in
  let! p90 := quantile hist total (f64_lit 9 10) in
  let! p99 := quantile hist total (f64_lit 99 100) in
  Some {| lp_p50 := p50; lp_p90 := p90; lp_p99 := p99 |}.

(** [top_n_of]: by descending count, then by name. *)
Record TopEntry : Type := { te_name : bytes; te_count : Z }.
Definition top_le (a b : TopEntry) : Prop :=
  (te_count b < te_count a)%Z ∨ te_count a = te_count b ∧ bytes_le (te_name a) (te_name b) = true.
#[export] Instance top_le_dec a b : Decision (top_le a b).
Proof. unfold top_le. apply _. Defined.
Definition top_sorted (l : list (bytes * Z)) (n : nat) : list TopEntry :=
  take n (merge_sort top_le ((λ p, {| te_name := p.1; te_count := p.2 |}) <$> l)).
Definition top_n_of (m : gmap bytes Z) (n : nat) : list TopEntry := top_sorted (hash_order m) n.

(** [top_clients_resolved]. *)
Fixpoint by_label (clients : ClientMatcher) (l : list (bytes * Z)) (acc : gmap bytes Z) : option (gmap bytes Z) :=
  match l with
  | [] => Some acc
  | (ip, count) :: l =>
      let! name := name_for_str clients ip in
      let label := default ip name in
      by_label clients l (<[label := add64 (default 0%Z (acc !! label)) count]> acc)
  end.
Definition top_clients_resolved (counts : gmap bytes Z) (clients : ClientMatcher) (n : nat) : option (list TopEntry) :=
  let! m := by_label clients (hash_order counts) ∅ in
  Some (top_sorted (hash_order m) n).

(** [Stats::snapshot]. *)
Record StatsSummary : Type := {
  ss_total : Z; ss_blocked : Z; ss_cached : Z; ss_rewritten : Z; ss_errors : Z;
  ss_block_rate : f64; ss_p95_processing_ms : f64;
  ss_top_resolved_domains : list TopEntry; ss_top_blocked_domains : list TopEntry;
  ss_top_clients : list TopEntry; ss_top_upstreams : list TopEntry;
  ss_upstream_avg_rtt_ms : gmap bytes f64;
  ss_upstream_latency_pct : gmap bytes LatencyPercentiles;
  ss_series : list Bucket;
}.
Fixpoint pct_all (l : list (bytes * list Z)) (acc : gmap bytes LatencyPercentiles)
  : option (gmap bytes LatencyPercentiles) :=
  match l with
  | [] => Some acc
  | (k, h) :: l => let! p := percentiles h in pct_all l (<[k := p]> acc)
  end.
Definition stats_snapshot (s : Stats) (top_n : nat) (clients : ClientMatcher) : option StatsSummary :=
  let s := merged s in
  let! p95 := quantile (si_proc_time_hist s) (sum64 (si_proc_time_hist s)) (f64_lit 95 100) in
  let rtt := map_imap (λ k c,
    let sum := default f64_zero (si_upstream_rtt_sum s !! k) in
    Some (if (0 <? c)%Z then f64_div sum (f64_of c) else f64_zero)) (si_upstream_rtt_count s) in
  let! pct := pct_all (hash_order (si_upstream_latency_hist s)) ∅ in
  let! tc := top_clients_resolved (si_clients s) clients top_n in
  Some {| ss_total := si_total s; ss_blocked := si_blocked s; ss_cached := si_cached s;
          ss_rewritten := si_rewritten s; ss_errors := si_errors s;
          ss_block_rate := if (0 <? si_total s)%Z then f64_div (f64_of (si_blocked s)) (f64_of (si_total s)) else f64_zero;
          ss_p95_processing_ms := p95;
          ss_top_resolved_domains := top_n_of (si_resolved_domains s) top_n;
          ss_top_blocked_domains := top_n_of (si_blocked_domains s) top_n;
          ss_top_clients := tc; ss_top_upstreams := top_n_of (si_upstreams s) top_n;
          ss_upstream_avg_rtt_ms := rtt; ss_upstream_latency_pct := pct; ss_series := si_series s |}.

(** ** Persistence: the JSON text is [serde_json]'s. *)

Context (to_json : StatsInner → option bytes) (from_json : bytes → option StatsInner).
Definition with_cache (k : CacheCounters) (s : StatsInner) : StatsInner :=
  {| si_total := si_total s; si_blocked := si_blocked s; si_cached := si_cached s; si_rewritten := si_rewritten s;
     si_errors := si_errors s; si_proc_time_hist := si_proc_time_hist s; si_resolved_domains := si_resolved_domains s;
     si_blocked_domains := si_blocked_domains s; si_clients := si_clients s; si_upstreams := si_upstreams s;
     si_upstream_rtt_sum := si_upstream_rtt_sum s; si_upstream_rtt_count := si_upstream_rtt_count s;
     si_upstream_latency_hist := si_upstream_latency_hist s; si_series := si_series s; si_cache := k |}.
(** [Stats::export] and [Stats::import]. *)
Definition stats_export (s : Stats) (cache : CacheCounters) : bytes :=
  default [] (to_json (with_cache cache (merged s))).
Definition stats_import (s : Stats) (json : bytes) : CacheCounters * Stats :=
  match from_json json with
  | None => (counters_default, s)
  | Some loaded =>
      (si_cache loaded,
       set_stat_shards (imap (λ i _, if i =? 0 then loaded else stats_default) (st_shards s)) s)
  end.

End stats.
