(* ===== verification/StatsProps.v ===== *)
(** * Properties of the statistics: the Space-Saving guarantee of the heavy hitters, exact
    counters whatever threads record into whatever shards, and rankings that do not depend
    on the iteration order of the hash maps. *)
From Stdlib Require Import Ascii.
From S2P Require Import Prelude RustStr RustNet RustFloat Rule Clients QueryLog Cache CacheProps Stats.

(** ** Sums over maps *)

Definition msum (m : gmap bytes Z) : Z := map_fold (λ _ v s, (v + s)%Z) 0%Z m.

Lemma msum_insert m k v : m !! k = None → msum (<[k := v]> m) = (v + msum m)%Z.
Proof. intros H. unfold msum. rewrite map_fold_insert_L; [done| |done]. intros. lia. Qed.
Lemma msum_delete m k v : m !! k = Some v → msum m = (v + msum (delete k m))%Z.
Proof. intros H. rewrite <- (insert_delete_id m k v H) at 1. apply msum_insert, lookup_delete_eq. Qed.
Lemma msum_update m k v w : m !! k = Some v → msum (<[k := w]> m) = (msum m - v + w)%Z.
Proof.
  intros H. rewrite <- insert_delete_eq, msum_insert by apply lookup_delete_eq.
  rewrite (msum_delete m k v H). lia.
Qed.
Lemma msum_lower m b : (∀ k v, m !! k = Some v → (b <= v)%Z) → (Z.of_nat (size m) * b <= msum m)%Z.
Proof.
  induction m as [|k v m Hk IH] using map_ind; intros H; [rewrite map_size_empty; unfold msum; rewrite map_fold_empty; lia|].
  rewrite msum_insert, map_size_insert_None by done.
  pose proof (H k v (lookup_insert_eq m k v)).
  assert (IH' : (Z.of_nat (size m) * b <= msum m)%Z).
  { apply IH. intros j w Hj. apply (H j). rewrite lookup_insert_ne; [done|]. intros ->. congruence. }
  lia.
Qed.
Lemma msum_member m k v : (∀ j w, m !! j = Some w → (0 <= w)%Z) → m !! k = Some v → (v <= msum m)%Z.
Proof.
  intros H Hk. rewrite (msum_delete m k v Hk). pose proof (msum_lower (delete k m) 0) as Hl.
  assert (0 <= msum (delete k m))%Z; [|lia]. etrans; [|apply Hl]; [lia|].
  intros j w [_ Hj]%lookup_delete_Some. by eapply H.
Qed.

(** ** Space-Saving *)

(** The number of occurrences of a key in a stream. *)
Definition occ (k : bytes) (ks : list bytes) : Z := Z.of_nat (length (filter (λ x, x = k) ks)).

Lemma occ_snoc k ks x : occ k (ks ++ [x]) = (occ k ks + if decide (x = k) then 1 else 0)%Z.
Proof.
  unfold occ. rewrite filter_app, length_app. rewrite filter_cons, filter_nil. case_decide; simpl; lia.
Qed.
Lemma occ_nonneg k ks : (0 <= occ k ks)%Z.
Proof. unfold occ. lia. Qed.

Section heavy.
Context {HO : HashOrder}.

Lemma min_pair_spec (l : list (bytes * Z)) k v :
  min_pair l = Some (k, v) → (k, v) ∈ l ∧ ∀ p, p ∈ l → (v <= p.2)%Z.
Proof.
  destruct l as [|p l]; [done|]. intros [= H].
  assert (Hg : ∀ l a, let r := foldl (λ a q : bytes * Z, if (q.2 <? a.2)%Z then q else a) a l in
    (r = a ∨ r ∈ l) ∧ (r.2 <= a.2)%Z ∧ ∀ q, q ∈ l → (r.2 <= q.2)%Z).
  { clear. induction l as [|x l IH]; intros a; simpl; [split_and!; [by left|lia|by intros q ?%elem_of_nil]|].
    destruct (IH (if (x.2 <? a.2)%Z then x else a)) as (H1 & H2 & H3).
    destruct (Z.ltb_spec x.2 a.2); split_and!; try set_solver; try lia;
      intros q [->|Hq]%elem_of_cons; try lia; by apply H3. }
  destruct (Hg l p) as (H1 & H2 & H3). rewrite H in *. split.
  - destruct H1 as [->|?]; set_solver.
  - intros q [->|Hq]%elem_of_cons; [done|by apply H3].
Qed.

Lemma min_entry (m : gmap bytes Z) :
  m ≠ ∅ → ∃ k v, min_pair (hash_order m) = Some (k, v) ∧ m !! k = Some v ∧ ∀ j w, m !! j = Some w → (v <= w)%Z.
Proof.
  intros Hm. destruct (min_pair (hash_order m)) as [[k v]|] eqn:E.
  - exists k, v. split; [done|]. apply min_pair_spec in E as [Hin Hmin].
    rewrite hash_order_perm in Hin. apply elem_of_map_to_list in Hin. split; [done|].
    intros j w Hj. apply (Hmin (j, w)). rewrite hash_order_perm. by apply elem_of_map_to_list.
  - destruct Hm. apply map_to_list_empty_iff, Permutation_nil. rewrite <- hash_order_perm.
    by destruct (hash_order m).
Qed.

(** The invariant of Space-Saving after the stream [ks]. *)
Record saving (cap : nat) (ks : list bytes) (m : gmap bytes Z) : Prop := {
  sv_size : size m ≤ cap;
  sv_sum : msum m = Z.of_nat (length ks);
  sv_lower k v : m !! k = Some v → (occ k ks <= v)%Z;
  sv_upper k v j w : m !! k = Some v → m !! j = Some w → (v <= occ k ks + w)%Z;
  sv_exact k v : size m < cap → m !! k = Some v → v = occ k ks;
  sv_unseen k : size m < cap → m !! k = None → occ k ks = 0%Z;
  sv_untracked k j w : m !! k = None → m !! j = Some w → (occ k ks <= w)%Z;
}.

Lemma saving_empty cap : saving cap [] ∅.
Proof.
  constructor; try done; rewrite map_size_empty; lia.
Qed.

Lemma saving_bound cap ks m k v : saving cap ks m → m !! k = Some v → (0 <= v <= Z.of_nat (length ks))%Z.
Proof.
  intros [] Hk. pose proof (sv_lower0 k v Hk). pose proof (occ_nonneg k ks). split; [lia|].
  rewrite <- sv_sum0. apply (msum_member m k v); [|done]. intros j w Hj.
  pose proof (sv_lower0 j w Hj). pose proof (occ_nonneg j ks). lia.
Qed.

(** Case analysis on a lookup in an updated map. *)
Ltac split_lookups :=
  repeat match goal with
  | H : <[_ := _]> _ !! _ = Some _ |- _ => apply lookup_insert_Some in H as [[? ?]|[? ?]]; simplify_eq
  | H : <[_ := _]> _ !! _ = None |- _ => apply lookup_insert_None in H as [? ?]
  | H : delete _ _ !! _ = Some _ |- _ => apply lookup_delete_Some in H as [? ?]
  end.
Ltac occs := rewrite ?occ_snoc in *; repeat case_decide; simplify_eq.

Lemma saving_hit cap ks m x v :
  saving cap ks m → m !! x = Some v → saving cap (ks ++ [x]) (<[x := (v + 1)%Z]> m).
Proof.
  intros [] Hx. assert (Hs : size (<[x := (v + 1)%Z]> m) = size m) by (rewrite map_size_insert_Some; eauto).
  constructor; rewrite ?Hs; try done.
  - rewrite (msum_update m x v) by done. rewrite length_app, sv_sum0. simpl. lia.
  - intros k w H. split_lookups; occs; try congruence; [pose proof (sv_lower0 _ _ Hx); lia|].
    match goal with H : m !! k = Some w |- _ => pose proof (sv_lower0 k w H); lia end.
  - intros k a j b H1 H2. split_lookups; occs; try congruence.
    + pose proof (occ_nonneg k ks). lia.
    + pose proof (sv_upper0 k a _ _ ltac:(done) Hx). lia.
    + pose proof (sv_upper0 _ _ j b Hx ltac:(done)). lia.
    + pose proof (sv_upper0 k a j b ltac:(done) ltac:(done)). lia.
  - intros k w Hc H. split_lookups; occs; try congruence; [pose proof (sv_exact0 _ _ Hc Hx); lia|].
    rewrite (sv_exact0 k w) by done. lia.
  - intros k Hc H. split_lookups; occs; try congruence. rewrite (sv_unseen0 k) by done. lia.
  - intros k j w H1 H2. split_lookups; occs; try congruence.
    + pose proof (sv_untracked0 k _ _ ltac:(done) Hx). lia.
    + pose proof (sv_untracked0 k j w ltac:(done) ltac:(done)). lia.
Qed.

Lemma saving_room cap ks m x :
  saving cap ks m → m !! x = None → size m < cap → saving cap (ks ++ [x]) (<[x := 1%Z]> m).
Proof.
  intros [] Hx Hc. assert (Hs : size (<[x := 1%Z]> m) = S (size m)) by (by rewrite map_size_insert_None).
  pose proof (sv_unseen0 x Hc Hx) as Hx0.
  assert (Hpos : ∀ k w, m !! k = Some w → (0 <= w)%Z).
  { intros k w Hk. pose proof (sv_lower0 k w Hk). pose proof (occ_nonneg k ks). lia. }
  constructor; rewrite ?Hs; [lia| |intros k w H|intros k a j b H1 H2|intros k w _ H|intros k _ H|intros k j w H1 H2];
    [rewrite msum_insert by done; rewrite length_app, sv_sum0; simpl; lia|..]; split_lookups; occs; try congruence;
    repeat match goal with
    | H : m !! ?k = Some ?w |- _ => pose proof (sv_exact0 k w Hc H); pose proof (Hpos k w H); revert H
    | H : m !! ?k = None |- _ => pose proof (sv_unseen0 k Hc H); revert H
    end; intros; lia.
Qed.

Lemma saving_evict cap ks m x k0 v0 :
  saving cap ks m → m !! x = None → cap ≤ size m → m !! k0 = Some v0 → (∀ j w, m !! j = Some w → (v0 <= w)%Z) →
  saving cap (ks ++ [x]) (<[x := (v0 + 1)%Z]> (delete k0 m)).
Proof.
  intros [] Hx Hc Hk0 Hmin.
  assert (Hd : delete k0 m !! x = None) by (apply lookup_delete_None; auto).
  assert (Hs : size (<[x := (v0 + 1)%Z]> (delete k0 m)) = size m).
  { rewrite map_size_insert_None by done. rewrite map_size_delete_Some by eauto.
    assert (size m ≠ 0); [|lia]. intros E%map_size_empty_inv. subst. by rewrite lookup_empty in Hk0. }
  constructor; rewrite ?Hs; [lia| |intros k w H|intros k a j b H1 H2|intros k w ? H|intros k ? H|intros k j w H1 H2]; try lia.
  - rewrite msum_insert by done. rewrite length_app. pose proof (msum_delete m k0 v0 Hk0). simpl. lia.
  - split_lookups; occs; try congruence; try lia.
    + pose proof (sv_untracked0 k k0 v0 Hx Hk0). lia.
    + pose proof (sv_lower0 k w ltac:(done)). lia.
  - split_lookups; occs; try congruence.
    + pose proof (occ_nonneg k ks). lia.
    + pose proof (sv_upper0 k a k0 v0 ltac:(done) Hk0). lia.
    + pose proof (occ_nonneg k ks). pose proof (Hmin j b ltac:(done)). lia.
    + pose proof (sv_upper0 k a j b ltac:(done) ltac:(done)). lia.
  - assert (Hk : (occ k ks <= v0)%Z ∧ k ≠ x).
    { apply lookup_insert_None in H1 as [H1 ?]. split; [|done]. apply lookup_delete_None in H1 as [->|H1].
      - assert (v0 ≤ msum m)%Z by (apply (msum_member m k v0); [|done]; intros i u Hi;
          pose proof (sv_lower0 i u Hi); pose proof (occ_nonneg i ks); lia).
        by apply sv_lower0.
      - by apply (sv_untracked0 k k0). }
    destruct Hk. rewrite occ_snoc. case_decide; [congruence|]. split_lookups; [lia|].
    pose proof (Hmin j w ltac:(done)). lia.
Qed.

Lemma saving_step cap ks m x :
  1 ≤ cap → (Z.of_nat (length ks) + 1 < 2 ^ 64)%Z → saving cap ks m → saving cap (ks ++ [x]) (hh_bump cap 1 m x).
Proof.
  intros Hcap Hn Hm. unfold hh_bump. destruct (m !! x) as [v|] eqn:Hx.
  - pose proof (saving_bound cap ks m x v Hm Hx). unfold add64. rewrite wrap_small by (unfold in_u; lia).
    by apply saving_hit.
  - destruct (Nat.ltb_spec (size m) cap); [by apply saving_room|].
    assert (m ≠ ∅) as Hne by (intros ->; rewrite map_size_empty in *; lia).
    destruct (min_entry m Hne) as (k0 & v0 & -> & Hk0 & Hmin).
    pose proof (saving_bound cap ks m k0 v0 Hm Hk0). unfold add64. rewrite wrap_small by (unfold in_u; lia).
    by apply saving_evict.
Qed.
Lemma saving_stream cap ks :
  1 ≤ cap → (Z.of_nat (length ks) < 2 ^ 64)%Z → saving cap ks (foldl (hh_bump cap 1) ∅ ks).
Proof.
  intros Hcap. induction ks as [|x ks IH] using rev_ind; intros Hn; [apply saving_empty|].
  rewrite length_app in Hn. simpl in Hn. rewrite foldl_snoc. apply saving_step; [done|lia|]. apply IH. lia.
Qed.

(** C38: the estimator of the top lists keeps the Space-Saving guarantee for any stream of
    keys and any hash order: it never tracks more than [cap] keys, the counts add up to
    the length of the stream, a tracked key is never underestimated and overestimated by
    at most [N / cap], and a key that is not tracked occurred at most [N / cap] times, so
    that no key more frequent than that is missed. *)
Theorem space_saving (cap : nat) (ks : list bytes) :
  1 ≤ cap → (Z.of_nat (length ks) < 2 ^ 64)%Z →
  let m := foldl (hh_bump cap 1) ∅ ks in
  let N := Z.of_nat (length ks) in
  size m ≤ cap ∧ msum m = N ∧
  (∀ k v, m !! k = Some v → (occ k ks <= v <= occ k ks + N / Z.of_nat cap)%Z) ∧
  (∀ k, m !! k = None → (occ k ks <= N / Z.of_nat cap)%Z).
Proof.
  intros Hcap Hn m N. pose proof (saving_stream cap ks Hcap Hn) as Hs. fold m in Hs. pose proof Hs as [].
  assert (Hmin : size m = cap → ∃ j w, m !! j = Some w ∧ (w <= N / Z.of_nat cap)%Z).
  { intros E. assert (m ≠ ∅) as Hne by (intros E0; rewrite E0, map_size_empty in E; lia).
    destruct (min_entry m Hne) as (j & w & _ & Hj & Hle). exists j, w. split; [done|].
    apply Z.div_le_lower_bound; [lia|]. pose proof (msum_lower m w Hle). lia. }
  assert (0 <= N / Z.of_nat cap)%Z by (apply Z.div_pos; lia).
  split_and!; [done|done| |].
  - intros k v Hk. pose proof (sv_lower0 k v Hk). destruct (decide (size m < cap)).
    + rewrite (sv_exact0 k v) by done. lia.
    + destruct Hmin as (j & w & Hj & Hw); [lia|]. pose proof (sv_upper0 k v j w Hk Hj). lia.
  - intros k Hk. destruct (decide (size m < cap)).
    + rewrite (sv_unseen0 k) by done. lia.
    + destruct Hmin as (j & w & Hj & Hw); [lia|]. pose proof (sv_untracked0 k j w Hk Hj). lia.
Qed.
End heavy.

(** Iteration in key order, as one possible hash order. *)
#[export] Instance key_order : HashOrder := { hash_order V m := map_to_list m; hash_order_perm V m := reflexivity _ }.

Lemma space_saving_witness :
  let ks := [bs "a"; bs "b"; bs "a"; bs "c"; bs "a"; bs "d"] in
  let m := foldl (hh_bump 2 1) ∅ ks in
  size m ≤ 2 ∧ msum m = 6%Z ∧ (∀ k v, m !! k = Some v → (occ k ks <= v <= occ k ks + 6 / 2)%Z) ∧
  (∀ k, m !! k = None → (occ k ks <= 6 / 2)%Z).
Proof. apply (space_saving 2 [bs "a"; bs "b"; bs "a"; bs "c"; bs "a"; bs "d"]); [lia|done]. Defined.

(** ** Exact counters *)

Lemma add64_fold l a : foldl add64 a l = if l is [] then a else wrap 64 (a + foldr Z.add 0%Z l).
Proof.
  revert a. induction l as [|x l IH]; intros a; [done|]. cbn [foldl]. rewrite IH. destruct l as [|y l]; [simpl; by rewrite Z.add_0_r|].
  unfold add64, wrap. cbn [foldr]. rewrite Zplus_mod_idemp_l. f_equal. lia.
Qed.
Lemma sum_insert (l : list Z) i x y : l !! i = Some x → foldr Z.add 0%Z (<[i := y]> l) = (foldr Z.add 0%Z l - x + y)%Z.
Proof.
  revert i. induction l as [|a l IH]; intros [|i] H; simpl in *; try done; [injection H as ->; lia|].
  rewrite (IH i H). lia.
Qed.

Section records.
Context {IL : IpNetLib} {HO : HashOrder}.

(** A shard whose histograms have the right length. *)
Record inner_ok (s : StatsInner) : Prop := {
  io_proc : si_proc_time_hist s = [] ∨ length (si_proc_time_hist s) = HIST_LEN;
  io_hist k h : si_upstream_latency_hist s !! k = Some h → length h = HIST_LEN;
}.
Record stats_ok (s : Stats) : Prop := {
  sk_shards : ∃ j, (0 <= j <= 6)%Z ∧ Z.of_nat (length (st_shards s)) = (2 ^ j)%Z ∧ st_mask s = (2 ^ j - 1)%Z;
  sk_inner : Forall inner_ok (st_shards s);
}.

Lemma hist_index_lt ms : hist_index ms < HIST_LEN.
Proof.
  unfold hist_index. destruct (list_find _ _) as [[i x]|] eqn:E; [|unfold HIST_LEN; lia].
  apply list_find_Some in E as (Hi & _). apply lookup_lt_Some in Hi. unfold HIST_LEN. lia.
Qed.
Lemma hist_incr_ok i h : i < length h → ∃ h', hist_incr i h = Some h' ∧ length h' = length h.
Proof.
  intros Hi. unfold hist_incr. destruct (lookup_lt_is_Some_2 h i Hi) as [v ->]. simpl. eexists; split; [done|].
  apply length_insert.
Qed.

Lemma record_upstream_ok cap up ms u :
  (∀ k h, um_hist u !! k = Some h → length h = HIST_LEN) →
  ∃ u', record_upstream cap up ms u = Some u' ∧ ∀ k h, um_hist u' !! k = Some h → length h = HIST_LEN.
Proof.
  intros Hu. unfold record_upstream.
  assert (Hl : length (default (replicate HIST_LEN 0%Z) (um_hist u !! up)) = HIST_LEN).
  { destruct (um_hist u !! up) eqn:E; [by eapply Hu|done]. }
  destruct (hist_incr_ok (hist_index ms) (default (replicate HIST_LEN 0%Z) (um_hist u !! up))) as (h' & -> & Hh').
  { rewrite Hl. apply hist_index_lt. }
  simpl. eexists; split; [done|]. intros k h. simpl. intros [[<- <-]|[_ H]]%lookup_insert_Some; [by rewrite Hh'|by eapply Hu].
Qed.

(** What one query adds to the counters of its shard. *)
Definition deltas (e : QueryLogEntry) : list Z :=
  [1; b2z (entry_is_blocked e); b2z (entry_cached e); b2z (is_rewritten (le_action e)); b2z (is_error (le_action e))]%Z.
Definition totals (s : StatsInner) : list Z := [si_total s; si_blocked s; si_cached s; si_rewritten s; si_errors s].
Definition cong64 (a b : Z) : Prop := wrap 64 a = wrap 64 b.

Lemma cong_add a b c : cong64 a b → cong64 (a + c) (b + c).
Proof.
  unfold cong64, wrap. intros H. rewrite <- Zplus_mod_idemp_l, H, Zplus_mod_idemp_l. done.
Qed.
Lemma cong_incr (b : bool) x : cong64 (if b then add64 x 1 else x) (x + b2z b).
Proof.
  unfold cong64, add64, wrap. destruct b; simpl; [by rewrite Zmod_mod|]. by rewrite Z.add_0_r.
Qed.

(** The clients a shard has counted. *)
Definition seen (clients : list bytes) (s : StatsInner) : Prop := ∀ ip, is_Some (si_clients s !! ip) → ip ∈ clients.
Lemma hh_bump_keys cap by_ m key ip : is_Some (hh_bump cap by_ m key !! ip) → is_Some (m !! ip) ∨ ip = key.
Proof.
  unfold hh_bump. intros H. destruct (decide (ip = key)); [by right|left].
  destruct (m !! key); [by rewrite lookup_insert_ne in H|]. destruct (_ <? _); [by rewrite lookup_insert_ne in H|].
  destruct (min_pair _) as [[k v]|]; [|done]. rewrite lookup_insert_ne in H by done. by apply lookup_delete_is_Some in H as [_ ?].
Qed.
Lemma seen_mono cs ds s : cs ⊆ ds → seen cs s → seen ds s.
Proof. intros Hs H ip Hip. by apply Hs, H. Qed.

Lemma record_inner_ok cap mx anon e rtt s :
  inner_ok s →
  ∃ s', record_inner cap mx anon e rtt s = Some s' ∧ inner_ok s' ∧
        (∀ cs, seen cs s → seen (if anon then cs else cs ++ [le_client_ip e]) s') ∧
        Forall2 cong64 (totals s') (zip_with Z.add (totals s) (deltas e)).
Proof.
  intros [Hp Hh]. unfold record_inner. cbv zeta.
  assert (Hproc : ∃ proc, (if is_error (le_action e) then Some (si_proc_time_hist s)
      else hist_incr (hist_index (le_elapsed_ms e))
             (if si_proc_time_hist s is [] then replicate HIST_LEN 0%Z else si_proc_time_hist s)) = Some proc ∧
      (proc = [] ∨ length proc = HIST_LEN)).
  { destruct (is_error (le_action e)); [eauto|].
    assert (Hl : length (if si_proc_time_hist s is [] then replicate HIST_LEN 0%Z else si_proc_time_hist s) = HIST_LEN)
      by (destruct (si_proc_time_hist s); [done|by destruct Hp]).
    edestruct hist_incr_ok as (h' & -> & Hl'); [rewrite Hl; apply hist_index_lt|]. rewrite Hl in Hl'. eauto. }
  destruct Hproc as (proc & -> & Hproc). cbn [mbind option_bind].
  set (u0 := {| um_upstreams := si_upstreams s |}).
  assert (Hup : ∃ u, match entry_upstream e with
      | Some up => record_upstream cap up (default (le_elapsed_ms e) rtt) u0 | None => Some u0 end = Some u ∧
      ∀ k h, um_hist u !! k = Some h → length h = HIST_LEN).
  { destruct (entry_upstream e) as [up|]; [by apply record_upstream_ok|]. by eexists. }
  destruct Hup as (u & -> & Hu). cbn [mbind option_bind]. eexists. split; [reflexivity|]. split_and!.
  - by constructor.
  - intros cs Hs ip Hip. cbn [si_clients] in Hip. destruct anon; [by apply Hs|]. apply elem_of_app.
    apply hh_bump_keys in Hip as [Hip| ->]; [left; by apply Hs|right; left].
  - repeat constructor; simpl; try apply cong_incr. apply (cong_incr true).
Qed.

Lemma record_ok_step s slot e rtt :
  stats_ok s → st_enabled s = true →
  ∃ s', stats_record s slot e rtt = Some s' ∧ stats_ok s' ∧ st_enabled s' = true ∧ st_anonymize s' = st_anonymize s ∧
    (∀ cs, Forall (seen cs) (st_shards s) → Forall (seen (if st_anonymize s then cs else cs ++ [le_client_ip e])) (st_shards s')) ∧
    ∀ j, cong64 (foldr Z.add 0%Z ((λ i, nth j (totals i) 0%Z) <$> st_shards s'))
                (foldr Z.add 0%Z ((λ i, nth j (totals i) 0%Z) <$> st_shards s) + nth j (deltas e) 0%Z).
Proof.
  intros [(j & Hj & Hl & Hm) Hin] Hen. unfold stats_record. rewrite Hen. cbn [negb].
  set (i := Z.to_nat (Z.land slot (st_mask s))).
  assert (Hi : i < length (st_shards s)).
  { unfold i. rewrite Hm, Z.sub_1_r, <- Z.ones_equiv, Z.land_ones by lia.
    pose proof (Z.mod_pos_bound slot (2 ^ j) ltac:(lia)). lia. }
  destruct (lookup_lt_is_Some_2 _ _ Hi) as [inner Ei]. rewrite Ei. cbn [mbind option_bind].
  destruct (record_inner_ok (st_key_cap s) (st_max_buckets s) (st_anonymize s) e rtt inner) as (inner' & -> & Hok & Hcl & Hd).
  { by apply (Forall_lookup_1 _ _ _ _ Hin Ei). }
  cbn [mbind option_bind]. eexists. split; [done|].
  split_and!; try done.
  - constructor; simpl; [exists j; by rewrite length_insert|]. by apply Forall_insert.
  - intros cs Hall. apply Forall_insert; [|apply Hcl; by apply (Forall_lookup_1 _ _ _ _ Hall Ei)].
    eapply Forall_impl; [exact Hall|]. intros x. apply seen_mono. destruct (st_anonymize s); set_solver.
  - intros n. cbn [st_shards set_stat_shards]. rewrite list_fmap_insert. erewrite sum_insert by (by rewrite list_lookup_fmap, Ei).
    assert (Hn : cong64 (nth n (totals inner') 0%Z) (nth n (totals inner) 0%Z + nth n (deltas e) 0%Z)).
    { do 5 (destruct n as [|n]; [by repeat (apply Forall2_cons in Hd as [? Hd])|]). by destruct n. }
    rewrite Z.add_comm. etrans; [apply (cong_add _ _ _ Hn)|]. unfold cong64. f_equal. lia.
Qed.

Lemma merged_totals s j :
  j < 5 → st_shards s ≠ [] →
  nth j (totals (merged s)) 0%Z = wrap 64 (foldr Z.add 0%Z ((λ i, nth j (totals i) 0%Z) <$> st_shards s)).
Proof.
  intros Hj Hne. unfold merged.
  assert (Hm : ∀ l a, nth j (totals (foldl merge_from a l)) 0%Z
                      = foldl add64 (nth j (totals a) 0%Z) ((λ i, nth j (totals i) 0%Z) <$> l)).
  { clear Hne. induction l as [|x l IH]; intros a; [done|]. cbn [foldl fmap list_fmap]. rewrite IH. f_equal.
    do 5 (destruct j as [|j]; [done|]). lia. }
  change (nth j (totals (with_series ?x ?y)) 0%Z) with (nth j (totals y) 0%Z). rewrite Hm, add64_fold.
  destruct (st_shards s) as [|x l]; [done|]. cbn [fmap list_fmap]. do 5 (destruct j as [|j]; [done|]). lia.
Qed.

Lemma stats_new_ok p en days anon : stats_ok (stats_new p en days anon).
Proof.
  constructor; simpl.
  - unfold stats_shard_count. destruct (next_power_pow2 (default 4%Z p)) as (j & Hj & ->). rewrite length_replicate.
    unfold clamp. assert (1 <= 2 ^ j)%Z by (pose proof (Z.pow_pos_nonneg 2 j); lia).
    destruct (decide (6 < j)%Z).
    + exists 6%Z. pose proof (Z.pow_lt_mono_r 2 6 j). lia.
    + exists j. pose proof (Z.pow_le_mono_r 2 j 6). lia.
  - apply Forall_replicate. constructor; simpl; [by left|intros ??; by rewrite lookup_empty].
Qed.

Lemma stats_shards_ne s : stats_ok s → st_shards s ≠ [].
Proof. intros [(j & Hj & Hlen & _) _] E0. rewrite E0 in Hlen. simpl in Hlen. pose proof (Z.pow_pos_nonneg 2 j). lia. Qed.

Lemma merge_counts_keys dst src ip : is_Some (merge_counts dst src !! ip) → is_Some (dst !! ip) ∨ is_Some (src !! ip).
Proof.
  unfold merge_counts, merge_with.
  assert (H : ∀ (l : list (bytes * Z)) (m : gmap bytes Z), is_Some (foldl (λ (m : gmap bytes Z) p, <[p.1 := add64 (default 0%Z (m !! p.1)) p.2]> m) m l !! ip) →
            is_Some (m !! ip) ∨ ip ∈ l.*1).
  { induction l as [|[k v] l IH]; intros m Hm; [by left|]. cbn [foldl fst snd] in Hm. apply IH in Hm as [Hm|Hm]; [|right; set_solver].
    destruct (decide (ip = k)) as [->|]; [right; set_solver|]. rewrite lookup_insert_ne in Hm by done. by left. }
  intros Hm. apply H in Hm as [?|Hm]; [by left|right]. apply list_elem_of_fmap in Hm as ([k v] & -> & Hin).
  rewrite hash_order_perm in Hin. apply elem_of_map_to_list in Hin. by eexists.
Qed.
Lemma seen_default cs : seen cs stats_default.
Proof. intros ip [v H]. cbn [stats_default si_clients] in H. by rewrite lookup_empty in H. Qed.
Lemma merged_seen cs s : Forall (seen cs) (st_shards s) → seen cs (merged s).
Proof.
  intros H. unfold merged, with_series, seen. cbn [si_clients]. intros ip.
  assert (Hm : ∀ l a, Forall (seen cs) l → seen cs a → seen cs (foldl merge_from a l)).
  { induction l as [|x l IH]; intros a Hl Ha; [done|]. apply Forall_cons in Hl as [Hx Hl]. cbn [foldl]. apply IH; [done|].
    intros i. cbn [merge_from si_clients]. intros [Hi|Hi]%merge_counts_keys; [by apply Ha|by apply Hx]. }
  apply (Hm _ _ H (seen_default cs)).
Qed.

(** *** The life of the statistics *)

Context (from_json : bytes → option StatsInner).
(** A query recorded by the thread of a slot, a change of the settings, a reset, and the import
    of a saved document. *)
Inductive StatsEvent : Type :=
| SeRecord (slot : Z) (e : QueryLogEntry) (rtt : option f64)
| SeReconfigure (enabled : bool) (retention_days : Z) (anonymize : bool)
| SeReset
| SeImport (json : bytes).
Definition stats_step (s : Stats) (ev : StatsEvent) : option Stats :=
  match ev with
  | SeRecord slot e rtt => stats_record s slot e rtt
  | SeReconfigure enabled days anonymize => Some (stats_reconfigure enabled days anonymize s)
  | SeReset => Some (stats_reset s)
  | SeImport json => Some (stats_import from_json s json).2
  end.
Fixpoint stats_run (s : Stats) (evs : list StatsEvent) : option Stats :=
  match evs with [] => Some s | ev :: evs => let! s := stats_step s ev in stats_run s evs end.

(** What they should amount to: plain counts, and the clients of the queries recorded while
    addresses were not anonymized. *)
Record Tally : Type := {
  ta_enabled : bool; ta_anonymize : bool;
  ta_total : Z; ta_blocked : Z; ta_cached : Z; ta_rewritten : Z; ta_errors : Z; ta_clients : list bytes;
}.
Definition tally_step (t : Tally) (ev : StatsEvent) : Tally :=
  match ev with
  | SeRecord _ e _ =>
      if ta_enabled t then
        {| ta_enabled := true; ta_anonymize := ta_anonymize t; ta_total := ta_total t + 1;
           ta_blocked := ta_blocked t + b2z (entry_is_blocked e); ta_cached := ta_cached t + b2z (entry_cached e);
           ta_rewritten := ta_rewritten t + b2z (is_rewritten (le_action e)); ta_errors := ta_errors t + b2z (is_error (le_action e));
           ta_clients := if ta_anonymize t then ta_clients t else ta_clients t ++ [le_client_ip e] |}%Z
      else t
  | SeReconfigure enabled _ anonymize =>
      {| ta_enabled := enabled; ta_anonymize := anonymize; ta_total := ta_total t; ta_blocked := ta_blocked t; ta_cached := ta_cached t;
         ta_rewritten := ta_rewritten t; ta_errors := ta_errors t; ta_clients := ta_clients t |}
  | SeReset =>
      {| ta_enabled := ta_enabled t; ta_anonymize := ta_anonymize t; ta_total := 0; ta_blocked := 0; ta_cached := 0; ta_rewritten := 0;
         ta_errors := 0; ta_clients := [] |}
  | SeImport json =>
      match from_json json with
      | None => t
      | Some d => {| ta_enabled := ta_enabled t; ta_anonymize := ta_anonymize t; ta_total := si_total d; ta_blocked := si_blocked d;
                     ta_cached := si_cached d; ta_rewritten := si_rewritten d; ta_errors := si_errors d;
                     ta_clients := (map_to_list (si_clients d)).*1 |}
      end
  end.
Definition tally_new (enabled anonymize : bool) : Tally :=
  {| ta_enabled := enabled; ta_anonymize := anonymize; ta_total := 0; ta_blocked := 0; ta_cached := 0; ta_rewritten := 0;
     ta_errors := 0; ta_clients := [] |}.
Definition ta_counts (t : Tally) : list Z := [ta_total t; ta_blocked t; ta_cached t; ta_rewritten t; ta_errors t].
Definition shard_sum (j : nat) (l : list StatsInner) : Z := foldr Z.add 0%Z ((λ i, nth j (totals i) 0%Z) <$> l).
Record tallied (s : Stats) (t : Tally) : Prop := {
  tl_ok : stats_ok s;
  tl_flags : st_enabled s = ta_enabled t ∧ st_anonymize s = ta_anonymize t;
  tl_counts j : cong64 (shard_sum j (st_shards s)) (nth j (ta_counts t) 0%Z);
  tl_clients : Forall (seen (ta_clients t)) (st_shards s);
}.
Lemma nth_totals_default j : nth j (totals stats_default) 0%Z = 0%Z.
Proof. do 6 (destruct j as [|j]; [done|]). done. Qed.
Lemma shard_sum_zero {A} j (f : nat → A → StatsInner) l : (∀ i x, f i x = stats_default) → shard_sum j (imap f l) = 0%Z.
Proof.
  revert f. unfold shard_sum. induction l as [|x l IH]; intros f H; [done|]. cbn [imap fmap list_fmap foldr].
  rewrite IH by (intros; apply H). by rewrite H, nth_totals_default.
Qed.
Lemma default_ok : inner_ok stats_default.
Proof. constructor; simpl; [by left|intros ??; by rewrite lookup_empty]. Qed.
Lemma with_series_ok l i : inner_ok i → inner_ok (with_series l i).
Proof. intros [? ?]. by constructor. Qed.

Lemma tallied_record s t slot e rtt : tallied s t → ∃ s', stats_record s slot e rtt = Some s' ∧ tallied s' (tally_step t (SeRecord slot e rtt)).
Proof.
  intros [Hok [Hen Han] Hc Hcl]. cbn [tally_step]. destruct (ta_enabled t) eqn:Et.
  - destruct (record_ok_step s slot e rtt Hok Hen) as (s' & -> & Hok' & Hen' & Han' & Hcl' & Hd). exists s'. split; [done|].
    constructor; cbn [ta_enabled ta_anonymize ta_clients]; [done|by rewrite Hen', Han', Han| |].
    + intros j. etrans; [exact (Hd j)|]. etrans; [apply cong_add, Hc|]. unfold cong64. f_equal.
      do 6 (destruct j as [|j]; [done|]). done.
    + rewrite <- Han. by apply Hcl'.
  - exists s. unfold stats_record. rewrite Hen. split; [done|]. by constructor; [|rewrite Hen, Et|..].
Qed.
Lemma tallied_reconfigure s t en days an : tallied s t → tallied (stats_reconfigure en days an s) (tally_step t (SeReconfigure en days an)).
Proof.
  intros [[Hj Hi] _ Hc Hcl]. constructor; [constructor|done| |]; cbn [stats_reconfigure st_shards st_mask tally_step ta_clients].
  - by rewrite length_fmap.
  - apply Forall_fmap. eapply Forall_impl; [exact Hi|]. intros x. apply with_series_ok.
  - intros j. unfold shard_sum in *. rewrite <- list_fmap_compose. exact (Hc j).
  - apply Forall_fmap. exact Hcl.
Qed.
Lemma fmap_as_imap {A B} (b : B) (l : list A) : (λ _, b) <$> l = imap (λ _ _, b) l.
Proof. induction l as [|x l IH]; [done|]. cbn [fmap list_fmap imap]. by rewrite IH. Qed.
Lemma tallied_reset s t : tallied s t → tallied (stats_reset s) (tally_step t SeReset).
Proof.
  intros [[Hj Hi] Hf Hc Hcl]. constructor; [constructor|done| |]; cbn [stats_reset set_stat_shards st_shards st_mask tally_step ta_clients].
  - by rewrite length_fmap.
  - apply Forall_fmap, Forall_true. intros x. apply default_ok.
  - intros j. rewrite fmap_as_imap, shard_sum_zero by done. do 6 (destruct j as [|j]; [done|]). done.
  - apply Forall_fmap, Forall_true. intros x. apply seen_default.
Qed.
Lemma tallied_import s t json : tallied s t → (∀ d, from_json json = Some d → inner_ok d) →
  tallied (stats_import from_json s json).2 (tally_step t (SeImport json)).
Proof.
  intros Ht Hin. unfold stats_import. cbn [tally_step]. destruct (from_json json) as [d|]; [|done]. specialize (Hin d eq_refl).
  destruct Ht as [[Hj Hi] Hf Hc Hcl]. destruct (st_shards s) as [|x l] eqn:Es.
  { exfalso. destruct Hj as (j & ? & Hl & _). simpl in Hl. pose proof (Z.pow_pos_nonneg 2 j). lia. }
  constructor; [constructor|done| |]; cbn [snd set_stat_shards st_shards st_mask ta_clients]; rewrite ?Es.
  - by rewrite length_imap.
  - constructor; [done|]. apply Forall_lookup. intros i y Hy. rewrite list_lookup_imap in Hy. apply fmap_Some in Hy as (z & _ & ->). apply default_ok.
  - intros j. unfold shard_sum. cbn [imap fmap list_fmap foldr Nat.eqb].
    change (foldr Z.add 0%Z _) with (shard_sum j (imap ((λ i (_ : StatsInner), if i =? 0 then d else stats_default) ∘ S) l)).
    rewrite shard_sum_zero, Z.add_0_r by done. do 6 (destruct j as [|j]; [done|]). done.
  - constructor.
    + intros ip [v Hv]. apply list_elem_of_fmap. exists (ip, v). split; [done|]. by apply elem_of_map_to_list.
    + apply Forall_lookup. intros i y Hy. rewrite list_lookup_imap in Hy. apply fmap_Some in Hy as (z & _ & ->). apply seen_default.
Qed.
Lemma tallied_run s t evs : tallied s t → (∀ json d, SeImport json ∈ evs → from_json json = Some d → inner_ok d) →
  ∃ s', stats_run s evs = Some s' ∧ tallied s' (foldl tally_step t evs).
Proof.
  revert s t. induction evs as [|ev evs IH]; intros s t Ht Hin; [by exists s|]. cbn [stats_run foldl].
  assert (Hs : ∃ s1, stats_step s ev = Some s1 ∧ tallied s1 (tally_step t ev)).
  { destruct ev as [slot e rtt|en days an| |json]; cbn [stats_step].
    - by apply tallied_record.
    - eexists. split; [done|]. by apply tallied_reconfigure.
    - eexists. split; [done|]. by apply tallied_reset.
    - eexists. split; [done|]. apply tallied_import; [done|]. intros d. apply Hin. left. }
  destruct Hs as (s1 & -> & Ht1). cbn [mbind option_bind]. apply IH; [done|]. intros json d Hj. apply Hin. by right.
Qed.
Lemma tallied_new p en days an : tallied (stats_new p en days an) (tally_new en an).
Proof.
  constructor; [apply stats_new_ok|done| |]; cbn [stats_new st_shards].
  - intros j. unfold shard_sum. rewrite fmap_replicate, nth_totals_default.
    assert (foldr Z.add 0%Z (replicate (stats_shard_count p) 0%Z) = 0%Z) as -> by (by induction (stats_shard_count p)).
    do 6 (destruct j as [|j]; [done|]). done.
  - apply Forall_replicate, seen_default.
Qed.

(** C39: the statistics count exactly.  Over any sequence of recorded queries, changes of the
    settings, resets and imports of saved documents whose histograms have the length this
    version writes, nothing panics, and the merged counters of queries, blocked, cached,
    rewritten and failed queries are, modulo [2^64], those of the last import or reset plus the queries recorded since
    while recording was on, whatever threads recorded them and whatever shards they were
    mapped to.  A client is in the merged statistics only if an import brought it or one of its
    queries was recorded since while addresses were not anonymized.  (An import of shorter
    histograms may make recording panic: [short_histogram_panics].) *)
Theorem stats_counters_exact (parallelism : option Z) (enabled : bool) (days : Z) (anonymize : bool) (evs : list StatsEvent) :
  (∀ json d, SeImport json ∈ evs → from_json json = Some d → inner_ok d) →
  let t := foldl tally_step (tally_new enabled anonymize) evs in
  ∃ s, stats_run (stats_new parallelism enabled days anonymize) evs = Some s ∧
    si_total (merged s) = wrap 64 (ta_total t) ∧ si_blocked (merged s) = wrap 64 (ta_blocked t) ∧
    si_cached (merged s) = wrap 64 (ta_cached t) ∧ si_rewritten (merged s) = wrap 64 (ta_rewritten t) ∧
    si_errors (merged s) = wrap 64 (ta_errors t) ∧
    (∀ ip, is_Some (si_clients (merged s) !! ip) → ip ∈ ta_clients t).
Proof.
  intros Hin t. destruct (tallied_run _ _ evs (tallied_new parallelism enabled days anonymize) Hin) as (s & E & [Hok _ Hc Hcl]).
  exists s. split; [done|]. pose proof (stats_shards_ne s Hok) as Hne.
  assert (Hj : ∀ j, j < 5 → nth j (totals (merged s)) 0%Z = wrap 64 (nth j (ta_counts t) 0%Z)).
  { intros j Hj. rewrite merged_totals by done. apply Hc. }
  split_and!; [apply (Hj 0)|apply (Hj 1)|apply (Hj 2)|apply (Hj 3)|apply (Hj 4)|]; try lia. by apply merged_seen.
Qed.
End records.

(** ** Rankings *)

Lemma bytes_le_refl a : bytes_le a a = true.
Proof. induction a as [|x a IH]; simpl; [done|]. by rewrite Z.eqb_refl, IH, orb_true_r. Qed.
Lemma bytes_le_total a b : bytes_le a b = true ∨ bytes_le b a = true.
Proof.
  revert b. induction a as [|x a IH]; intros [|y b]; simpl; [auto..|].
  destruct (Z.ltb_spec (u8 x) (u8 y)); [by left|]. destruct (Z.ltb_spec (u8 y) (u8 x)); [by right|].
  assert (u8 x = u8 y) as -> by lia. rewrite Z.eqb_refl. apply IH.
Qed.
Lemma bytes_le_antisym a b : bytes_le a b = true → bytes_le b a = true → a = b.
Proof.
  revert b. induction a as [|x a IH]; intros [|y b]; simpl; [done..|].
  destruct (Z.ltb_spec (u8 x) (u8 y)), (Z.ltb_spec (u8 y) (u8 x)), (Z.eqb_spec (u8 x) (u8 y)),
    (Z.eqb_spec (u8 y) (u8 x)); simpl; try done; try lia.
  intros. f_equal; [by apply u8_inj|by apply IH].
Qed.
Lemma bytes_le_trans a b c : bytes_le a b = true → bytes_le b c = true → bytes_le a c = true.
Proof.
  revert b c. induction a as [|x a IH]; intros [|y b] [|z c]; simpl; try done.
  destruct (Z.ltb_spec (u8 x) (u8 y)), (Z.ltb_spec (u8 y) (u8 z)), (Z.ltb_spec (u8 x) (u8 z)),
    (Z.eqb_spec (u8 x) (u8 y)), (Z.eqb_spec (u8 y) (u8 z)), (Z.eqb_spec (u8 x) (u8 z)); simpl; try done; try lia.
  apply IH.
Qed.
#[export] Instance top_le_transitive : Transitive top_le.
Proof.
  intros a b c [H1|[H1 H1']] [H2|[H2 H2']]; [left; lia|left; lia|left; lia|right].
  split; [lia|]. by eapply bytes_le_trans.
Qed.
#[export] Instance top_le_total : Total top_le.
Proof.
  intros a b. unfold top_le. destruct (Z.lt_trichotomy (te_count a) (te_count b)) as [|[|]]; [auto| |auto].
  destruct (bytes_le_total (te_name a) (te_name b)); auto.
Qed.
#[export] Instance top_le_antisym : AntiSymm (=) top_le.
Proof.
  intros [na ca] [nb cb] [H1|[H1 H1']] [H2|[H2 H2']]; simpl in *; try lia. subst. f_equal. by apply bytes_le_antisym.
Qed.

Definition to_entry (p : bytes * Z) : TopEntry := {| te_name := p.1; te_count := p.2 |}.

Lemma top_sorted_perm l1 l2 n : l1 ≡ₚ l2 → top_sorted l1 n = top_sorted l2 n.
Proof.
  intros H. unfold top_sorted. f_equal. apply (Sorted_unique top_le); try apply Sorted_merge_sort; try apply _.
  rewrite !merge_sort_Permutation. by rewrite H.
Qed.
Lemma top_sorted_best l n e x :
  e ∈ top_sorted l n → x ∈ to_entry <$> l → x ∉ top_sorted l n → top_le e x.
Proof.
  unfold top_sorted. set (s := merge_sort top_le _). intros He Hx Hnot.
  assert (Hs : StronglySorted top_le s) by (apply Sorted_StronglySorted, Sorted_merge_sort; apply _).
  assert (Hxs : x ∈ s) by (unfold s; by rewrite merge_sort_Permutation).
  rewrite <- (take_drop n s) in Hxs, Hs. apply elem_of_app in Hxs as [?|Hxs]; [done|].
  by apply (StronglySorted_app_1_elem_of top_le _ _ e x Hs).
Qed.

(** The top lists do not depend on the iteration order of the hash maps, which differs
    between runs: any two orders give the same list.  It is sorted by falling count and
    then by name, as long as asked for or as there are keys, holds entries of the map
    only, and no key left out ranks before one that is listed. *)
Theorem top_n_deterministic (HO1 HO2 : HashOrder) (m : gmap bytes Z) (n : nat) :
  top_n_of (HO:=HO1) m n = top_n_of (HO:=HO2) m n ∧
  let l := top_n_of (HO:=HO1) m n in
  Sorted top_le l ∧ length l = min n (size m) ∧
  (∀ e, e ∈ l → m !! te_name e = Some (te_count e)) ∧
  (∀ k v e, m !! k = Some v → {| te_name := k; te_count := v |} ∉ l → e ∈ l → top_le e {| te_name := k; te_count := v |}).
Proof.
  unfold top_n_of. split; [by apply top_sorted_perm; rewrite !hash_order_perm|].
  rewrite (top_sorted_perm _ (map_to_list m)) by apply hash_order_perm. cbv zeta. split_and!.
  - unfold top_sorted. apply StronglySorted_Sorted. apply (StronglySorted_app_1_l _ _ (drop n (merge_sort top_le (to_entry <$> map_to_list m)))).
    rewrite take_drop. apply Sorted_StronglySorted, Sorted_merge_sort; apply _.
  - unfold top_sorted. rewrite length_take. f_equal. rewrite merge_sort_Permutation, length_fmap. apply length_map_to_list.
  - intros e. unfold top_sorted. intros He%subseteq_take. rewrite merge_sort_Permutation in He.
    apply list_elem_of_fmap in He as ([k v] & -> & Hkv). by apply elem_of_map_to_list in Hkv.
  - intros k v e Hk Hnot He. apply (top_sorted_best (map_to_list m) n); [done| |done].
    apply (list_elem_of_fmap_2 to_entry _ (k, v)). by apply elem_of_map_to_list.
Qed.

(** ** Restored histograms *)

(** [import] takes the stored latency histogram as it is; when it is shorter than the
    bucket of the next query's latency, as one written with fewer buckets would be, the
    next query that maps to the restored shard panics while it is recorded. *)
Theorem short_histogram_panics {HO : HashOrder} (from_json : bytes → option StatsInner) (s : Stats) (json : bytes)
    (loaded : StatsInner) (slot : Z) (e : QueryLogEntry) (rtt : option f64) :
  from_json json = Some loaded → st_enabled s = true → st_shards s ≠ [] → Z.land slot (st_mask s) = 0%Z →
  is_error (le_action e) = false → 0 < length (si_proc_time_hist loaded) ≤ hist_index (le_elapsed_ms e) →
  stats_record (stats_import from_json s json).2 slot e rtt = None.
Proof.
  intros Hj Hen Hne Hslot Herr [Hpos Hlen]. unfold stats_import. rewrite Hj. unfold stats_record. simpl.
  rewrite Hen, Hslot. simpl. destruct (st_shards s) as [|x l]; [done|]. simpl. unfold record_inner. rewrite Herr.
  destruct (si_proc_time_hist loaded) as [|y h] eqn:Eh; [simpl in Hpos; lia|]. unfold hist_incr.
  by rewrite lookup_ge_None_2 by done.
Qed.

Definition short_stats : StatsInner :=
  {| si_total := 3; si_blocked := 0; si_cached := 0; si_rewritten := 0; si_errors := 0;
     si_proc_time_hist := [1; 1; 1]%Z; si_resolved_domains := ∅; si_blocked_domains := ∅; si_clients := ∅;
     si_upstreams := ∅; si_upstream_rtt_sum := ∅; si_upstream_rtt_count := ∅; si_upstream_latency_hist := ∅;
     si_series := []; si_cache := counters_default |}.
Definition slow_entry : QueryLogEntry :=
  {| le_id := 0; le_time_ms := 1700000000000; le_client_ip := bs "10.0.0.1"; le_question := bs "x.example.";
     le_qtype := bs "A"; le_action := QaCached; le_allowlisted := false; le_rcode := bs "NOERROR"; le_answers := [];
     le_elapsed_ms := f64_of 300 |}.
(** A document of this version, imported before a query is recorded, then anonymously another. *)
Definition full_stats : StatsInner :=
  {| si_total := 3; si_blocked := 0; si_cached := 2; si_rewritten := 0; si_errors := 0;
     si_proc_time_hist := replicate HIST_LEN 0%Z; si_resolved_domains := ∅; si_blocked_domains := ∅; si_clients := {[bs "10.0.0.9" := 3%Z]};
     si_upstreams := ∅; si_upstream_rtt_sum := ∅; si_upstream_rtt_count := ∅; si_upstream_latency_hist := ∅;
     si_series := []; si_cache := counters_default |}.
Definition counted_events : list StatsEvent :=
  [SeImport (bs "{}"); SeRecord 0 slow_entry None; SeReconfigure true 30 true; SeRecord 1 slow_entry None].
Lemma stats_counters_exact_witness :
  ∃ s, stats_run (λ _, Some full_stats) (stats_new (Some 4%Z) true 30 false) counted_events = Some s
    ∧ si_total (merged s) = 5%Z ∧ si_cached (merged s) = 4%Z
    ∧ ∀ ip, is_Some (si_clients (merged s) !! ip) → ip ∈ [bs "10.0.0.9"; bs "10.0.0.1"].
Proof.
  destruct (stats_counters_exact (λ _, Some full_stats) (Some 4%Z) true 30 false counted_events) as (s & E & Ht & _ & Hc & _ & _ & Hcl).
  - intros json d _ [= <-]. constructor; [by right|]. intros k h Hk. cbn [full_stats si_upstream_latency_hist] in Hk. by rewrite lookup_empty in Hk.
  - exists s. split; [exact E|]. split; [exact Ht|]. split; [exact Hc|]. exact Hcl.
Defined.
Lemma short_histogram_panics_witness :
  stats_record (stats_import (λ _, Some short_stats) (stats_new (Some 4%Z) true 30 false) (bs "{}")).2 0 slow_entry None
  = None.
Proof.
  apply (short_histogram_panics _ _ (bs "{}") short_stats); [done|done|by vm_compute|done|done|].
  apply (bool_decide_unpack _). vm_compute. done.
Defined.
