(* ===== verification/Engine.v ===== *)
(** * bulwark-engine: the query pipeline ([crates/bulwark-engine/src/lib.rs]).

    [handle] suspends at most once, at the call of the upstream pool; it is modelled as the
    step before the call, which ends in a response or in a suspended query, and the step
    that resumes a suspended query with the pool's answer.  A suspended query keeps the
    configuration snapshot it was started with.  Background refreshes are tasks that run
    later.  Everything a step reads from the clock or the thread is in [Env].  The filter
    is used through the interface [FilterOps]; the upstream pool is opaque. *)
From Stdlib Require Import Ascii SpecFloat.
From S2P Require Import Prelude RustStr RustNet RustFloat Rule FilterEngine Dns Wire Clients Block QueryLog Cache Stats.

(** ** The filter as the pipeline sees it *)

Class FilterOps (F : Type) : Type := {
  f_check : F → bytes → bytes → ClientInfo → option Verdict;
  f_client_dependent : F → bool;
  f_content_hash : F → Z;
}.

(** ** Labels *)

Section labels.
Context {DL : DnsLib} {DC : DnsCodec}.

(** [rcode_label] and [rtype_label]. *)
Definition rcode_label (code : Z) : bytes :=
  if (code =? RC_NOERROR)%Z then bs "NOERROR"
  else if (code =? RC_FORMERR)%Z then bs "FORMERR"
  else if (code =? RC_SERVFAIL)%Z then bs "SERVFAIL"
  else if (code =? RC_NXDOMAIN)%Z then bs "NXDOMAIN"
  else if (code =? RC_NOTIMP)%Z then bs "NOTIMP"
  else if (code =? RC_REFUSED)%Z then bs "REFUSED"
  else to_ascii_uppercase (rcode_debug code).
Definition rtype_table : list (Z * bytes) :=
  [(RT_A, bs "A"); (RT_AAAA, bs "AAAA"); (RT_CNAME, bs "CNAME"); (RT_MX, bs "MX"); (RT_NS, bs "NS");
   (RT_PTR, bs "PTR"); (RT_SOA, bs "SOA"); (RT_SRV, bs "SRV"); (RT_TXT, bs "TXT"); (RT_CAA, bs "CAA");
   (RT_HTTPS, bs "HTTPS"); (RT_SVCB, bs "SVCB"); (RT_DS, bs "DS"); (RT_DNSKEY, bs "DNSKEY");
   (RT_NAPTR, bs "NAPTR"); (RT_TLSA, bs "TLSA")].
Definition rtype_label (rt : Z) : bytes := default (rtype_display rt) (alookup rt rtype_table).

(** ** [IpBuf] *)

Record IpBuf : Type := { ib_buf : bytes }.
Definition IPBUF_CAP : nat := 48.
Definition ipbuf_new : IpBuf := {| ib_buf := [] |}.
(** [write_str]: refused when the text does not fit behind what is there. *)
Definition ipbuf_write_str (b : IpBuf) (s : bytes) : option IpBuf :=
  if length (ib_buf b) + length s <=? IPBUF_CAP then Some {| ib_buf := ib_buf b ++ s |} else None.
(** [render]: the length is reset, the address is written, an error of [write!] is ignored. *)
Definition render (ip : ip_addr) : bytes := ib_buf (default ipbuf_new (ipbuf_write_str ipbuf_new (show_ip ip))).

(** ** Response filtering *)

Context {F : Type} {FO : FilterOps F}.

Definition block_of (v : Verdict) : option MatchInfo := match v with VBlock info => Some info | _ => None end.
Definition check_block (f : F) (domain rtype : bytes) (ci : ClientInfo) : option (option MatchInfo) :=
  let! v := f_check f domain rtype ci in Some (block_of v).
(** [find_map] over a list, left to right; [None] is a panic. *)
Fixpoint find_block {A} (g : A → option (option MatchInfo)) (l : list A) : option (option MatchInfo) :=
  match l with
  | [] => Some None
  | x :: l =>
      let! hit := g x in
      match hit with Some info => Some (Some info) | None => find_block g l end
  end.

(** [hint_block]. *)
Definition hint_value (f : F) (ci : ClientInfo) (v : SvcParam) : option (option MatchInfo) :=
  match v with
  | Ipv4Hint ips => find_block (λ a, check_block f (render (V4 a)) (bs "HTTPS") ci) ips
  | Ipv6Hint ips => find_block (λ a, check_block f (render (V6 a)) (bs "HTTPS") ci) ips
  | SvcOther _ => Some None
  end.
Definition hint_block (params : list SvcParam) (f : F) (ci : ClientInfo) : option (option MatchInfo) :=
  find_block (hint_value f ci) params.

(** [filter_answers]. *)
Definition client_info (c : ResolvedClient) : ClientInfo :=
  {| ci_ip := Some (rc_ip c); ci_name := rc_name c; ci_tags := rc_tags c |}.
Definition data_block (f : F) (ci : ClientInfo) (d : RData) : option (option MatchInfo) :=
  match d with
  | RdCNAME cname => check_block f (trim_end_matches "."%char (name_to_ascii cname)) (bs "CNAME") ci
  | RdA ip => check_block f (render (V4 ip)) (bs "A") ci
  | RdAAAA ip => check_block f (render (V6 ip)) (bs "AAAA") ci
  | RdHTTPS params => hint_block params f ci
  | RdSVCB params => hint_block params f ci
  | _ => Some None
  end.
Definition filter_answers (f : F) (client : ResolvedClient) (answers : list DnsRecord) : option (option MatchInfo) :=
  find_block (λ r, data_block f (client_info client) (dr_data r)) answers.

(** [cached_answers]. *)
Definition cached_answers (r : CachedResponse) : list DnsRecord :=
  match r with
  | CrWire bytes _ _ => match msg_from_vec bytes with Some m => msg_answers m | None => [] end
  | CrMessage m => msg_answers m
  end.

(** ** Ingress *)

Inductive Ingress : Type :=
| InFast (wire : bytes) (parsed : ParsedQuery)
| InFull (m : Message).
Inductive Lazy : Type :=
| LzBytes (b : bytes)
| LzMsg (m : Message).
(** [Lazy::into_message]. *)
Definition lazy_into_message (l : Lazy) : option Message :=
  match l with LzMsg m => Some m | LzBytes b => msg_from_vec b end.
(** [Ingress::parse] and [Ingress::parse_owned]. *)
Definition ingress_parse (b : bytes) : option Ingress :=
  match parse_query b with
  | Some parsed => Some (InFast b parsed)
  | None => InFull <$> msg_from_vec b
  end.
(** [Ingress::udp_max_payload]. *)
Definition udp_max_payload (i : Ingress) : Z :=
  let advertised := match i with
                    | InFast _ parsed => default 512%Z (pq_edns_payload parsed)
                    | InFull m => default 512%Z (edns_max_payload <$> msg_edns m)
                    end in
  clamp 512 4096 advertised.

(** [QueryFields]. *)
Record QueryFields : Type := {
  qf_id : Z; qf_rtype : Z; qf_class : Z; qf_qname_display : bytes; qf_name_lower : bytes;
  qf_dnssec_ok : bool; qf_checking_disabled : bool;
}.
Definition fields_from_parsed (p : ParsedQuery) : QueryFields :=
  {| qf_id := pq_id p; qf_rtype := pq_qtype p; qf_class := pq_qclass p; qf_qname_display := pq_qname p;
     qf_name_lower := to_ascii_lowercase (pq_qname p); qf_dnssec_ok := pq_dnssec_ok p;
     qf_checking_disabled := pq_checking_disabled p |}.
Definition fields_from_message (m : Message) : option QueryFields :=
  let! q := head (msg_queries m) in
  let qname_display := name_to_ascii (q_name q) in
  Some {| qf_id := msg_id m; qf_rtype := q_type q; qf_class := q_class q; qf_qname_display := qname_display;
          qf_name_lower := to_ascii_lowercase qname_display; qf_dnssec_ok := dnssec_ok m;
          qf_checking_disabled := msg_cd m |}.
(** [Ingress::into_parts]. *)
Definition into_parts (i : Ingress) : result (QueryFields * Lazy) Message :=
  match i with
  | InFast b parsed => Ok (fields_from_parsed parsed, LzBytes b)
  | InFull m => match fields_from_message m with Some f => Ok (f, LzMsg m) | None => Err m end
  end.
(** [formerr]. *)
Definition formerr (id : Z) : Message := set_rcode RC_FORMERR (message_new id MtResponse OPCODE_QUERY).

(** [EngineResponse] and its conversions. *)
Inductive EngineResponse : Type :=
| ErMessage (m : Message)
| ErWire (b : bytes).
Definition response_into_message (r : EngineResponse) : Message :=
  match r with
  | ErMessage m => m
  | ErWire b => default (message_new 0 MtResponse OPCODE_QUERY) (msg_from_vec b)
  end.
Definition response_into_wire (r : EngineResponse) : option bytes :=
  match r with ErMessage m => msg_to_vec m | ErWire b => Some b end.

End labels.

(** ** The engine *)

Section engine.
Context {DL : DnsLib} {DC : DnsCodec} {IL : IpNetLib} {HO : HashOrder}.
Context {L : LruLib QueryKey Entry} (khash : QueryKey → Z).
Context {sender : Type} (try_send : sender → QueryLogEntry → option sender).
Context {F : Type} {FO : FilterOps F} {pool : Type}.

Record EngineState : Type := {
  es_filter : F;
  es_pool : pool;
  es_clients : ClientMatcher;
  es_filtering_enabled : bool;
  es_blocking_mode : BlockingMode;
  es_block_v4 : ipv4;
  es_block_v6 : ipv6;
  es_blocked_ttl : Z;
}.
Record Engine : Type := {
  eg_state : EngineState;
  eg_cache : DnsCache;
  eg_log : QueryLog (sender:=sender);
  eg_stats : Stats;
}.
Definition with_engine_cache (c : DnsCache) (g : Engine) : Engine :=
  {| eg_state := eg_state g; eg_cache := c; eg_log := eg_log g; eg_stats := eg_stats g |}.
(** [Engine::swap_state]. *)
Definition swap_state (st : EngineState) (g : Engine) : Engine :=
  {| eg_state := st; eg_cache := eg_cache g; eg_log := eg_log g; eg_stats := eg_stats g |}.

(** What a step reads from its surroundings: the monotonic clock, the wall clock in
    milliseconds, the elapsed time of the query and the slot of the thread. *)
Record Env : Type := { ev_now : Z; ev_time_ms : Z; ev_elapsed_ms : f64; ev_slot : Z }.

(** [LogBuilder]. *)
Record LogBuilder : Type := {
  lb_client_ip : ip_addr; lb_question : bytes; lb_qtype : bytes; lb_allowlisted : bool; lb_upstream_rtt_ms : option f64;
}.
Definition log_new (client : ResolvedClient) (question qtype : bytes) : LogBuilder :=
  {| lb_client_ip := rc_ip client; lb_question := question; lb_qtype := qtype; lb_allowlisted := false;
     lb_upstream_rtt_ms := None |}.
Definition log_allowlisted (b : bool) (l : LogBuilder) : LogBuilder :=
  {| lb_client_ip := lb_client_ip l; lb_question := lb_question l; lb_qtype := lb_qtype l; lb_allowlisted := b;
     lb_upstream_rtt_ms := lb_upstream_rtt_ms l |}.
Definition log_rtt (ms : f64) (l : LogBuilder) : LogBuilder :=
  {| lb_client_ip := lb_client_ip l; lb_question := lb_question l; lb_qtype := lb_qtype l;
     lb_allowlisted := lb_allowlisted l; lb_upstream_rtt_ms := Some ms |}.

(** [Engine::record]. *)
Definition engine_record (g : Engine) (env : Env) (log : LogBuilder) (action : QueryAction) (rcode : bytes)
    (answers : list bytes) : option Engine :=
  let stats_on := st_enabled (eg_stats g) in
  let log_on := ql_enabled (eg_log g) in
  if negb stats_on && negb log_on then Some g
  else
    let entry := {| le_id := le_id entry_empty; le_time_ms := ev_time_ms env; le_client_ip := show_ip (lb_client_ip log);
                    le_question := lb_question log; le_qtype := lb_qtype log; le_action := action;
                    le_allowlisted := lb_allowlisted log; le_rcode := rcode;
                    le_answers := if log_on then answers else le_answers entry_empty;
                    le_elapsed_ms := ev_elapsed_ms env |} in
    let! stats := if stats_on then stats_record (eg_stats g) (ev_slot env) entry (lb_upstream_rtt_ms log)
                  else Some (eg_stats g) in
    let log' := if log_on then log_push try_send (eg_log g) entry else eg_log g in
    Some {| eg_state := eg_state g; eg_cache := eg_cache g; eg_log := log'; eg_stats := stats |}.
(** [Engine::finalize] and [Engine::finalize_wire]. *)
Definition finalize (g : Engine) (env : Env) (resp : Message) (action : QueryAction) (log : LogBuilder)
  : option (EngineResponse * Engine) :=
  let! g := engine_record g env log action (rcode_label (msg_rcode resp)) (summarize <$> msg_answers resp) in
  Some (ErMessage resp, g).
Definition finalize_wire (g : Engine) (env : Env) (b : bytes) (rcode : Z) (answers : list bytes) (action : QueryAction)
    (log : LogBuilder) : option (EngineResponse * Engine) :=
  let! g := engine_record g env log action (rcode_label rcode) answers in
  Some (ErWire b, g).

(** The pool's answer. *)
Record Resolved : Type := { rs_message : Message; rs_upstream : bytes; rs_rtt_ms : f64 }.

(** A query suspended at [state.pool.resolve(&query)], at the same call of a CNAME
    rewrite, and a spawned refresh. *)
Record Pending : Type := {
  pd_state : EngineState; pd_client : ResolvedClient; pd_query : Message; pd_key : QueryKey; pd_log : LogBuilder;
}.
Record PendingCname : Type := {
  pc_query : Message; pc_message : Message; pc_action : QueryAction; pc_log : LogBuilder;
}.
Record Refresh : Type := {
  rf_filter : F; rf_generation : Z; rf_memoize : bool; rf_lazy : Lazy; rf_key : QueryKey;
}.
Inductive HandleResult : Type :=
| HrDone (resp : EngineResponse) (spawned : option Refresh)
| HrUpstream (p : Pending)
| HrCname (p : PendingCname).

Definition blocked_message (st : EngineState) (query : Message) : Message :=
  block_response query (es_blocking_mode st) (es_block_v4 st) (es_block_v6 st) (es_blocked_ttl st).
Definition blocked_action (info : MatchInfo) : QueryAction := QaBlocked (mi_rule info) (mi_list_id info).
Definition hr_done (r : EngineResponse * Engine) : HandleResult * Engine := (HrDone r.1 None, r.2).

(** [resolve_cname]: the query it sends, and the answers it appends. *)
Definition cname_query (id : Z) (target : dname) (rtype : Z) : Message :=
  {| msg_id := id; msg_type := MtQuery; msg_opcode := OPCODE_QUERY; msg_truncation := false; msg_rd := true;
     msg_ra := false; msg_cd := false; msg_rcode := RC_NOERROR;
     msg_queries := [{| q_name := target; q_type := rtype; q_class := CLASS_IN |}];
     msg_answers := []; msg_authorities := []; msg_additionals := []; msg_edns := None |}.
Definition append_resolved (m : Message) (res : result Resolved bytes) : Message :=
  match res with
  | Ok r => foldl (λ m a, push_answer a m) m (msg_answers (rs_message r))
  | Err _ => m
  end.

(** [spawn_refresh]: the counter moves at once, the rest is the task. *)
Definition spawn_refresh (g : Engine) (st : EngineState) (memoize : bool) (lazy : Lazy) (key : QueryKey)
  : Refresh * Engine :=
  ({| rf_filter := es_filter st; rf_generation := f_content_hash (es_filter st); rf_memoize := memoize;
      rf_lazy := lazy; rf_key := key |},
   with_engine_cache (note_refresh_started (eg_cache g)) g).
Definition maybe_refresh (f : HitFreshness) (g : Engine) (st : EngineState) (memoize : bool) (lazy : Lazy) (key : QueryKey)
  : option Refresh * Engine :=
  if requires_refresh f then let '(r, g) := spawn_refresh g st memoize lazy key in (Some r, g) else (None, g).

(** The filter decision on a cache hit: the memoised verdict when it can be trusted. *)
Definition hit_block (st : EngineState) (client : ResolvedClient) (hit : CacheHit) : option (option MatchInfo) :=
  if es_filtering_enabled st && rc_filtering_enabled client then
    let recompute := filter_answers (es_filter st) client (cached_answers (ch_response hit)) in
    match ch_verdict hit with
    | Some v =>
        if negb (f_client_dependent (es_filter st)) && (rv_generation v =? f_content_hash (es_filter st))%Z then
          match rv_outcome v with OutClean => Some None | OutBlock info => Some (Some info) end
        else recompute
    | None => recompute
    end
  else Some None.

(** The cache-hit branch of [handle]. *)
Definition handle_hit (g : Engine) (env : Env) (st : EngineState) (client : ResolvedClient) (id : Z) (lazy : Lazy)
    (key : QueryKey) (log : LogBuilder) (hit : CacheHit) : option (HandleResult * Engine) :=
  let! block_info := hit_block st client hit in
  let memoize := es_filtering_enabled st && negb (f_client_dependent (es_filter st)) in
  match block_info with
  | Some info =>
      match lazy_into_message lazy with
      | None => hr_done <$> finalize g env (formerr id) QaError log
      | Some query =>
          let resp := blocked_message st query in
          let '(task, g) := maybe_refresh (ch_freshness hit) g st memoize (LzMsg query) key in
          let! (r, g) := finalize g env resp (blocked_action info) log in
          Some (HrDone r task, g)
      end
  | None =>
      let '(task, g) := maybe_refresh (ch_freshness hit) g st memoize lazy key in
      let! (r, g) := match ch_response hit with
                     | CrWire b rcode answers => finalize_wire g env b rcode answers QaCached log
                     | CrMessage resp => finalize g env resp QaCached log
                     end in
      Some (HrDone r task, g)
  end.

(** The part of [handle] behind the request filter: the cache, then the pool. *)
Definition handle_lookup (g : Engine) (env : Env) (st : EngineState) (client : ResolvedClient) (fields : QueryFields)
    (lazy : Lazy) (log : LogBuilder) : option (HandleResult * Engine) :=
  let key := {| k_name := qf_name_lower fields; k_rtype := qf_rtype fields; k_class := qf_class fields;
                k_dnssec_ok := qf_dnssec_ok fields; k_checking_disabled := qf_checking_disabled fields |} in
  let! (found, cache) := cache_get khash (ev_now env) (eg_cache g) key (qf_id fields) in
  let g := with_engine_cache cache g in
  match found with
  | Some hit => handle_hit g env st client (qf_id fields) lazy key log hit
  | None =>
      match lazy_into_message lazy with
      | None => hr_done <$> finalize g env (formerr (qf_id fields)) QaError log
      | Some query =>
          Some (HrUpstream {| pd_state := st; pd_client := client; pd_query := query; pd_key := key; pd_log := log |}, g)
      end
  end.

(** [Engine::handle] up to the pool; [cname_id] is the random id of a CNAME query. *)
Definition handle (g : Engine) (env : Env) (cname_id : Z) (ingress : Ingress) (client_ip : ip_addr)
  : option (HandleResult * Engine) :=
  let st := eg_state g in
  let! client := identify (es_clients st) client_ip in
  match into_parts ingress with
  | Err msg => Some (HrDone (ErMessage (error_response msg RC_FORMERR)) None, g)
  | Ok (fields, lazy) =>
      let rtype_str := rtype_label (qf_rtype fields) in
      let domain := trim_end_matches "."%char (qf_name_lower fields) in
      let log := log_new client (qf_qname_display fields) rtype_str in
      if es_filtering_enabled st && rc_filtering_enabled client then
        let! v := f_check (es_filter st) domain rtype_str (client_info client) in
        match v with
        | VBlock info =>
            match lazy_into_message lazy with
            | None => hr_done <$> finalize g env (formerr (qf_id fields)) QaError log
            | Some query => hr_done <$> finalize g env (blocked_message st query) (blocked_action info) log
            end
        | VRewrite info data =>
            match lazy_into_message lazy with
            | None => hr_done <$> finalize g env (formerr (qf_id fields)) QaError log
            | Some query =>
                let action := QaRewritten (mi_rule info) (mi_list_id info) in
                match rewrite_response query data (es_blocked_ttl st) with
                | RwDone m => hr_done <$> finalize g env m action log
                | RwResolveCname message target =>
                    Some (HrCname {| pc_query := cname_query cname_id target (qf_rtype fields); pc_message := message;
                                     pc_action := action; pc_log := log |}, g)
                end
            end
        | VAllow rule => handle_lookup g env st client fields lazy (log_allowlisted (is_some rule) log)
        end
      else handle_lookup g env st client fields lazy log
  end.

(** [cache.insert*] on the engine's cache. *)
Definition engine_insert (g : Engine) (env : Env) (key : QueryKey) (m : Message) (v : option ResponseVerdict)
  : option (option InsertedWire * Engine) :=
  let! (served, cache) := cache_insert khash (ev_now env) (eg_cache g) key m v in
  Some (served, with_engine_cache cache g).

(** [Engine::handle] behind the pool. *)
Definition resume (g : Engine) (env : Env) (p : Pending) (res : result Resolved bytes) : option (EngineResponse * Engine) :=
  let st := pd_state p in
  let client := pd_client p in
  match res with
  | Ok resolved =>
      let log := log_rtt (rs_rtt_ms resolved) (pd_log p) in
      let answers := msg_answers (rs_message resolved) in
      let client_filtered := es_filtering_enabled st && rc_filtering_enabled client in
      let memoize := es_filtering_enabled st && negb (f_client_dependent (es_filter st)) in
      let generation := f_content_hash (es_filter st) in
      let! this_block := if client_filtered then filter_answers (es_filter st) client answers else Some None in
      match this_block with
      | Some info =>
          let verdict := if memoize then Some (verdict_block info generation) else None in
          let! (_, g) := engine_insert g env (pd_key p) (rs_message resolved) verdict in
          finalize g env (blocked_message st (pd_query p)) (blocked_action info) log
      | None =>
          let! verdict :=
            if memoize then
              if client_filtered then Some (Some (verdict_clean generation))
              else
                let! b := filter_answers (es_filter st) client answers in
                Some (Some match b with Some info => verdict_block info generation | None => verdict_clean generation end)
            else Some None in
          let! (served, g) := engine_insert g env (pd_key p) (rs_message resolved) verdict in
          let action := QaForwarded (rs_upstream resolved) in
          match served with
          | Some w => finalize_wire g env (iw_bytes w) (iw_rcode w) (iw_answers w) action log
          | None => finalize g env (rs_message resolved) action log
          end
      end
  | Err _ => finalize g env (error_response (pd_query p) RC_SERVFAIL) QaError (pd_log p)
  end.
Definition resume_cname (g : Engine) (env : Env) (p : PendingCname) (res : result Resolved bytes)
  : option (EngineResponse * Engine) :=
  finalize g env (append_resolved (pc_message p) res) (pc_action p) (pc_log p).

(** The body of a refresh task; [res] is the pool's answer to the query it materialises. *)
Definition placeholder_client : ResolvedClient :=
  {| rc_ip := V4 UNSPECIFIED4; rc_name := None; rc_tags := []; rc_filtering_enabled := true |}.
Definition run_refresh (g : Engine) (env : Env) (r : Refresh) (res : result Resolved bytes) : option Engine :=
  match lazy_into_message (rf_lazy r) with
  | None => Some (with_engine_cache (note_refresh_failed (eg_cache g)) g)
  | Some query =>
      match res with
      | Err _ => Some (with_engine_cache (note_refresh_failed (eg_cache g)) g)
      | Ok resolved =>
          if rf_memoize r then
            let! b := filter_answers (rf_filter r) placeholder_client (msg_answers (rs_message resolved)) in
            let verdict := match b with
                           | Some info => verdict_block info (rf_generation r)
                           | None => verdict_clean (rf_generation r)
                           end in
            snd <$> engine_insert g env (rf_key r) (rs_message resolved) (Some verdict)
          else snd <$> engine_insert g env (rf_key r) (rs_message resolved) None
      end
  end.

End engine.
