(* ===== verification/EngineText.v ===== *)
(** * Text the pipeline hands to the filter: rendered addresses and query names are ASCII,
    and the stack buffer of [IpBuf] is large enough for every address. *)
From Stdlib Require Import Ascii.
From S2P Require Import Prelude RustStr RustNet Glob Rule FilterEngine Dns Wire Block QueryLog Cache Stats Engine.

Lemma is_ascii_Forall s : is_ascii s = true ↔ Forall (λ b, (u8 b < 128)%Z) s.
Proof.
  unfold is_ascii. rewrite forallb_Forall. split; intros H; (eapply Forall_impl; [exact H|]); intros x Hx; simpl in *; by apply Z.ltb_lt.
Qed.

(** ** Addresses *)

Lemma show_octet b : length (show_dec (u8 b)) ≤ 3 ∧ is_ascii (show_dec (u8 b)) = true.
Proof. destruct b as [[] [] [] [] [] [] [] []]; vm_compute; split; (done || lia). Qed.

(** A text of at most [n] ASCII bytes. *)
Definition text_le (n : nat) (s : bytes) : Prop := length s ≤ n ∧ is_ascii s = true.

Lemma text_app n m a b : text_le n a → text_le m b → text_le (n + m) (a ++ b).
Proof. intros [? Ha] [? Hb]. split; [rewrite length_app; lia|]. by rewrite is_ascii_app, Ha, Hb. Qed.
Lemma text_weaken n m a : n ≤ m → text_le n a → text_le m a.
Proof. intros ? []. split; [lia|done]. Qed.
Lemma text_join sep n l :
  text_le 1 sep → Forall (text_le n) l → text_le (length l * S n - 1) (join sep l).
Proof.
  intros Hs Hl. induction Hl as [|x l Hx Hl IH]; [done|]. destruct l as [|y l]; [apply (text_weaken n); [simpl; lia|done]|].
  change (join sep (x :: y :: l)) with (x ++ sep ++ join sep (y :: l)).
  eapply text_weaken; [|apply text_app; [exact Hx|apply text_app; [exact Hs|exact IH]]]. simpl. lia.
Qed.

Lemma show_ipv4_text a : text_le 15 (show_ipv4 a).
Proof.
  destruct a as [a b c d]. apply (text_join (bs ".") 3); [done|].
  apply Forall_fmap, Forall_true. intros x. apply show_octet.
Qed.

Lemma hex_digit_ascii n : (0 <= n < 16)%Z → (u8 (hex_digit n) < 128)%Z.
Proof.
  intros Hn. unfold hex_digit. destruct (Z.ltb_spec n 10); rewrite u8_byte_of, Z.mod_small by lia; lia.
Qed.
Lemma hex_digits_text fuel n m acc :
  (0 <= n)%Z → text_le m acc → text_le (fuel + m) (hex_digits fuel n acc).
Proof.
  revert n m acc. induction fuel as [|fuel IH]; intros n m acc Hn [Hl Ha]; simpl; [done|].
  assert (Hc : ∀ k, (0 <= k < 16)%Z → text_le (S m) (hex_digit k :: acc)).
  { intros k Hk. split; [simpl; lia|]. simpl. rewrite Ha, andb_true_r. apply Z.ltb_lt. by apply hex_digit_ascii. }
  destruct (Z.ltb_spec n 16); [eapply text_weaken; [|apply Hc; lia]; lia|].
  eapply text_weaken; [|apply IH; [apply Z.div_pos; lia|apply Hc, Z.mod_pos_bound; lia]]. lia.
Qed.
Lemma show_segs_text l : text_le (length l * 5 - 1) (show_segs l).
Proof.
  unfold show_segs. eapply text_weaken; [|apply (text_join (bs ":") 4)]; [by rewrite length_fmap|done|].
  apply Forall_fmap, Forall_true. intros n. apply (hex_digits_text 4 _ 0); [|done].
  apply (wrap_in_u 16 n). lia.
Qed.

Lemma show_ip_text ip : text_le 48 (show_ip ip).
Proof.
  destruct ip as [a|a]; simpl; [apply (text_weaken 15); [lia|apply show_ipv4_text]|].
  unfold show_ipv6. destruct (ipv4_mapped a) as [v4|].
  - apply (text_weaken (7 + 15)); [lia|]. apply text_app; [done|apply show_ipv4_text].
  - assert (Hl : length (ipv6_code a) = 8) by (by destruct a).
    destruct (zero_span 0 (0, 0) (0, 0) (ipv6_code a)) as [st len].
    destruct (Nat.ltb_spec 1 len).
    + apply (text_weaken ((length (take st (ipv6_code a)) * 5 - 1)
        + (2 + (length (drop (st + len) (ipv6_code a)) * 5 - 1)))).
      { rewrite length_take, length_drop. lia. }
      apply text_app; [apply show_segs_text|]. apply text_app; [done|apply show_segs_text].
    + eapply text_weaken; [|apply show_segs_text]. rewrite Hl. lia.
Qed.

(** The buffer never overflows: rendering is [Display]. *)
Lemma render_show ip : render ip = show_ip ip.
Proof.
  unfold render, ipbuf_write_str, ipbuf_new, IPBUF_CAP. cbn [ib_buf length Nat.add].
  destruct (show_ip_text ip) as [Hl _]. by rewrite (proj2 (Nat.leb_le _ _) Hl).
Qed.
Lemma render_ascii ip : is_ascii (render ip) = true.
Proof. rewrite render_show. apply show_ip_text. Qed.

(** ** Names *)

Lemma safe_char_ascii j c : safe_char j c = true → (u8 c < 128)%Z.
Proof.
  destruct c as [[] [] [] [] [] [] [] []]; try (intros _; vm_compute; reflexivity); destruct j; vm_compute; discriminate.
Qed.
Lemma safe_label_ascii l : safe_label l = true → is_ascii l = true.
Proof.
  unfold safe_label. rewrite forallb_Forall, is_ascii_Forall. intros H. apply Forall_lookup. intros i c Hi.
  apply (safe_char_ascii i). rewrite Forall_lookup in H. apply (H i). by rewrite list_lookup_imap, Hi.
Qed.
Lemma read_name_ascii fuel buf start pos name r p :
  is_ascii name = true → read_name_loop fuel buf start pos name = Ok (r, p) → is_ascii r = true.
Proof.
  revert pos name. induction fuel as [|fuel IH]; intros pos name Hn; simpl; [done|].
  destruct (get buf pos) as [b|]; [|done]. cbn [result_bind]. destruct (_ =? 0)%Z; [|done]. destruct (_ =? 0)%Z.
  - destruct (_ <? _); [done|]. intros [= <- _]. by destruct name.
  - destruct (cadd _ _) as [e|]; [|done]. cbn [result_bind]. destruct (get_range _ _ _) as [l|]; [|done].
    cbn [result_bind]. destruct (safe_label l) eqn:El; [|done]. apply IH.
    by rewrite !is_ascii_app, Hn, (safe_label_ascii l El).
Qed.
Lemma parse_query_ascii b p : parse_query b = Some p → is_ascii (pq_qname p) = true.
Proof.
  unfold parse_query, outcome_of, parse_query_r. destruct (length b <? 12); [done|].
  destruct (index16 b 0); [|done]. destruct (index b 2); [|done]. destruct (index b 3); [|done].
  destruct (header_counts b) as [[[[qd an] ns] ar]|]; [|done]. cbn [result_bind]. destruct (negb _); [done|].
  destruct (read_question_name b 12) as [[qname pos]|] eqn:Eq; [|done]. cbn [result_bind].
  destruct (cadd pos 4) as [e|]; [|done]. cbn [result_bind]. destruct (_ <? _); [done|].
  destruct (index16 b pos); [|done]. destruct (index16 b (pos + 2)); [|done]. cbn [result_bind].
  destruct (cadd an ns); [|done]. cbn [result_bind]. destruct (cadd _ ar); [|done]. cbn [result_bind].
  destruct (edns_loop _ _ _ _ _ _ _) as [[ed dok]|]; [|done]. intros [= <-]. simpl.
  by eapply read_name_ascii in Eq.
Qed.

Lemma lower_ascii s : is_ascii s = true → is_ascii (to_ascii_lowercase s) = true.
Proof.
  rewrite !is_ascii_Forall. intros H. apply Forall_fmap. eapply Forall_impl; [exact H|]. intros c Hc. simpl.
  destruct c as [[] [] [] [] [] [] [] []]; vm_compute; try reflexivity; by vm_compute in Hc.
Qed.
Lemma trim_dots_ascii s : is_ascii s = true → is_ascii (trim_end_matches "."%char s) = true.
Proof.
  rewrite !is_ascii_Forall. unfold trim_end_matches. intros H. apply Forall_reverse. apply Forall_reverse in H.
  induction H as [|c l Hc Hl IH]; simpl; [constructor|]. case_bool_decide; [done|by constructor].
Qed.
