(* ===== verification/EngineProps.v ===== *)
(** * Properties of the query pipeline.

    The engine is a transition system: queries start, suspended queries and background
    refreshes resume in any order with any answers, the configuration is swapped and the
    cache reconfigured or restored at any moment.  In every reachable state no step
    panics, and memoised filter verdicts are exactly what the live filter would decide. *)
From Stdlib Require Import Ascii.
From S2P Require Import Prelude RustStr RustNet RustFloat Glob Rule FilterEngine Dns Wire Clients Block QueryLog Cache CacheProps Snapshot SnapshotProps Stats StatsProps Engine EngineText.

(** ** What the pipeline relies on *)

(** The filters a process installs: checks on ASCII names return, and without
    client-dependent rules the client does not matter. *)
Class FilterLaws {F : Type} (FO : FilterOps F) (Installed : F → Prop) : Prop := {
  fl_total f domain rtype ci : Installed f → is_ascii domain = true → is_Some (f_check f domain rtype ci);
  fl_client f domain rtype c1 c2 :
    Installed f → f_client_dependent f = false → f_check f domain rtype c1 = f_check f domain rtype c2;
}.
(** [Name::to_ascii] is ASCII. *)
Class NameLaws (DL : DnsLib) : Prop := { name_ascii n : is_ascii (name_to_ascii n) = true }.
(** Decoding an encoded message whose id and TTL fields were overwritten gives the same
    answer data. *)
Class CodecLaws {DL : DnsLib} (DC : DnsCodec) : Prop := {
  codec_patch m b offs id ttl :
    msg_to_vec m = Some b → scan_ttl_offsets b = Some offs →
    ∃ m', msg_from_vec (patch b id ttl offs) = Some m' ∧ dr_data <$> msg_answers m' = dr_data <$> msg_answers m;
}.

Section answers.
Context {DL : DnsLib} {DC : DnsCodec} {NL : NameLaws DL}.
Context {F : Type} {FO : FilterOps F} {Installed : F → Prop} {FL : FilterLaws FO Installed}.
Implicit Types (f : F) (client : ResolvedClient).

Lemma find_block_total {A} (g : A → option (option MatchInfo)) l :
  (∀ x, x ∈ l → is_Some (g x)) → is_Some (find_block g l).
Proof.
  induction l as [|x l IH]; intros Hg; simpl; [by eexists|].
  destruct (Hg x) as [o Ho]; [by left|]. rewrite Ho. cbn [mbind option_bind]. destruct o; [by eexists|].
  apply IH. intros y Hy. apply Hg. by right.
Qed.
Lemma find_block_ext {A} (g h : A → option (option MatchInfo)) l : (∀ x, g x = h x) → find_block g l = find_block h l.
Proof. intros H. induction l as [|x l IH]; simpl; [done|]. by rewrite H, IH. Qed.

Lemma check_block_total f d ty ci : Installed f → is_ascii d = true → is_Some (check_block f d ty ci).
Proof. intros Hf Hd. unfold check_block. destruct (fl_total f d ty ci Hf Hd) as [v ->]. by eexists. Qed.
Lemma data_block_total f ci d : Installed f → is_Some (data_block f ci d).
Proof.
  intros Hf. assert (Hh : ∀ ps, is_Some (hint_block ps f ci)).
  { intros ps. apply find_block_total. intros [ips|ips|b] _; simpl; [| |by eexists];
      apply find_block_total; intros a _; apply check_block_total; auto using render_ascii. }
  destruct d; simpl; try (by eexists); try apply Hh; apply check_block_total; auto using render_ascii.
  apply trim_dots_ascii, name_ascii.
Qed.
Lemma filter_answers_total f client an : Installed f → is_Some (filter_answers f client an).
Proof. intros Hf. apply find_block_total. intros r _. by apply data_block_total. Qed.

(** The decision depends on the data of the answers only, ... *)
Lemma filter_answers_data f client an an' :
  dr_data <$> an = dr_data <$> an' → filter_answers f client an = filter_answers f client an'.
Proof.
  revert an'. induction an as [|r an IH]; intros [|r' an'] H; try done. injection H as Hr H.
  unfold filter_answers in *. simpl. by rewrite Hr, (IH an' H).
Qed.
(** ... and through the filter's checks only. *)
Lemma filter_answers_checks f1 f2 c1 c2 an :
  (∀ d ty, f_check f1 d ty (client_info c1) = f_check f2 d ty (client_info c2)) →
  filter_answers f1 c1 an = filter_answers f2 c2 an.
Proof.
  intros H. apply find_block_ext. intros r.
  assert (Hc : ∀ d ty, check_block f1 d ty (client_info c1) = check_block f2 d ty (client_info c2)).
  { intros d ty. unfold check_block. by rewrite H. }
  assert (Hh : ∀ ps, hint_block ps f1 (client_info c1) = hint_block ps f2 (client_info c2)).
  { intros ps. apply find_block_ext. intros [ips|ips|b]; simpl; [| |done]; apply find_block_ext; intros a; apply Hc. }
  destruct (dr_data r); simpl; auto.
Qed.

Lemma serve_answers `{!CodecLaws DC} cfg m id ttl :
  dr_data <$> cached_answers (serve (store_message cfg m).1 id ttl) = dr_data <$> msg_answers m.
Proof.
  unfold store_message. destruct (msg_to_vec m) as [b|] eqn:Eb; [destruct (scan_ttl_offsets b) as [offs|] eqn:Eo|]; simpl.
  - destruct (codec_patch m b offs id ttl Eb Eo) as (m' & -> & Hm). done.
  - rewrite <- list_fmap_compose. done.
  - rewrite <- list_fmap_compose. done.
Qed.
End answers.

(** ** The transition system *)

Section engine.
Context {DL : DnsLib} {DC : DnsCodec} {NL : NameLaws DL} {CL : CodecLaws DC} {IL : IpNetLib} {HO : HashOrder}.
Context {L : LruLib QueryKey Entry} {LL : LruLaws L} (khash : QueryKey → Z).
Context {sender : Type} (try_send : sender → QueryLogEntry → option sender).
Context {F : Type} {FO : FilterOps F} {pool : Type} (Installed : F → Prop) {FL : FilterLaws FO Installed}.

Abbreviation Engine := (Engine (sender:=sender) (F:=F) (pool:=pool)).
Abbreviation EngineState := (EngineState (F:=F) (pool:=pool)).
Abbreviation Pending := (Pending (F:=F) (pool:=pool)).
Abbreviation Refresh := (Refresh (F:=F)).

Record World : Type := {
  w_engine : Engine;
  w_pending : list Pending;
  w_cnames : list PendingCname;
  w_tasks : list Refresh;
}.

(** A configuration the server can build: an installed filter and a built client matcher. *)
Definition state_ok (st : EngineState) : Prop :=
  Installed (es_filter st) ∧ ∃ cfg, es_clients st = build_matcher cfg.

Definition with_cache (c : DnsCache) (w : World) : World :=
  {| w_engine := with_engine_cache c (w_engine w); w_pending := w_pending w; w_cnames := w_cnames w; w_tasks := w_tasks w |}.
Definition with_stats (s : Stats) (w : World) : World :=
  {| w_engine := {| eg_state := eg_state (w_engine w); eg_cache := eg_cache (w_engine w);
                    eg_log := eg_log (w_engine w); eg_stats := s |};
     w_pending := w_pending w; w_cnames := w_cnames w; w_tasks := w_tasks w |}.
Definition with_log (l : QueryLog) (w : World) : World :=
  {| w_engine := {| eg_state := eg_state (w_engine w); eg_cache := eg_cache (w_engine w);
                    eg_log := l; eg_stats := eg_stats (w_engine w) |};
     w_pending := w_pending w; w_cnames := w_cnames w; w_tasks := w_tasks w |}.

(** What becomes of a started query. *)
Definition after_handle (w : World) (r : HandleResult) (g : Engine) : World :=
  match r with
  | HrDone _ task => {| w_engine := g; w_pending := w_pending w; w_cnames := w_cnames w;
                        w_tasks := w_tasks w ++ option_list task |}
  | HrUpstream p => {| w_engine := g; w_pending := p :: w_pending w; w_cnames := w_cnames w; w_tasks := w_tasks w |}
  | HrCname p => {| w_engine := g; w_pending := w_pending w; w_cnames := p :: w_cnames w; w_tasks := w_tasks w |}
  end.

(** What the running engine does, the import of a snapshot apart. *)
Inductive serve_step : World → World → Prop :=
| st_query w env cid b ingress ip r g :
    ingress_parse b = Some ingress → handle khash try_send (w_engine w) env cid ingress ip = Some (r, g) →
    serve_step w (after_handle w r g)
| st_resume w env p1 p p2 res resp g :
    w_pending w = p1 ++ p :: p2 → resume khash try_send (w_engine w) env p res = Some (resp, g) →
    serve_step w {| w_engine := g; w_pending := p1 ++ p2; w_cnames := w_cnames w; w_tasks := w_tasks w |}
| st_cname w env p1 p p2 res resp g :
    w_cnames w = p1 ++ p :: p2 → resume_cname try_send (w_engine w) env p res = Some (resp, g) →
    serve_step w {| w_engine := g; w_pending := w_pending w; w_cnames := p1 ++ p2; w_tasks := w_tasks w |}
| st_refresh w env t1 t t2 res g :
    w_tasks w = t1 ++ t :: t2 → run_refresh khash (w_engine w) env t res = Some g →
    serve_step w {| w_engine := g; w_pending := w_pending w; w_cnames := w_cnames w; w_tasks := t1 ++ t2 |}
| st_swap w st :
    state_ok st →
    serve_step w {| w_engine := swap_state st (w_engine w); w_pending := w_pending w; w_cnames := w_cnames w; w_tasks := w_tasks w |}
| st_reconfigure w en cap mn mx stale :
    (0 <= mn)%Z → (0 <= mx)%Z → serve_step w (with_cache (cache_reconfigure en cap mn mx stale (eg_cache (w_engine w))) w)
| st_clear w : serve_step w (with_cache (cache_clear (eg_cache (w_engine w))) w)
| st_summaries w b : serve_step w (with_cache (set_store_summaries b (eg_cache (w_engine w))) w)
| st_seed w k : serve_step w (with_cache (seed_counters k (eg_cache (w_engine w))) w)
| st_stats w en days anon : serve_step w (with_stats (stats_reconfigure en days anon (eg_stats (w_engine w))) w)
| st_stats_reset w : serve_step w (with_stats (stats_reset (eg_stats (w_engine w))) w)
| st_log w en anon : serve_step w (with_log (querylog_reconfigure en anon (eg_log (w_engine w))) w).
Inductive step : World → World → Prop :=
| st_serve w w' : serve_step w w' → step w w'
| st_import w fi unix now data n c :
    import_snapshot khash fi unix now (eg_cache (w_engine w)) data = Some (n, c) → step w (with_cache c w).

(** ** The invariant *)

Definition outcome_info (o : RvOutcome) : option MatchInfo :=
  match o with OutClean => None | OutBlock info => Some info end.
(** A memoised verdict is what some installed filter of its generation decides about the
    stored answers, for every client and however the entry is served. *)
Definition entry_sound (e : Entry) : Prop :=
  match e_verdict e with
  | None => True
  | Some v => ∃ f, Installed f ∧ f_content_hash f = rv_generation v ∧ f_client_dependent f = false ∧
      ∀ client id ttl, filter_answers f client (cached_answers (serve (e_stored e) id ttl)) = Some (outcome_info (rv_outcome v))
  end.
Definition task_ok (t : Refresh) : Prop :=
  Installed (rf_filter t) ∧ rf_generation t = f_content_hash (rf_filter t) ∧
  (rf_memoize t = true → f_client_dependent (rf_filter t) = false).
Record engine_ok (g : Engine) : Prop := {
  eo_state : state_ok (eg_state g);
  eo_cache : cache_wf khash entry_sound (eg_cache g);
  eo_stats : stats_ok (eg_stats g);
}.
Record world_ok (w : World) : Prop := {
  wo_engine : engine_ok (w_engine w);
  wo_pending : Forall (λ p, state_ok (pd_state p)) (w_pending w);
  wo_tasks : Forall task_ok (w_tasks w);
}.

(** ** Recording *)

Lemma engine_record_ok g env log action rcode an :
  engine_ok g → ∃ g', engine_record try_send g env log action rcode an = Some g' ∧ engine_ok g'.
Proof.
  intros Hg. unfold engine_record. destruct (negb _ && negb _); [eauto|]. destruct Hg as [Hs Hc Ht].
  destruct (st_enabled (eg_stats g)) eqn:Es.
  - edestruct record_ok_step as (s' & -> & Hs' & _); [exact Ht|exact Es|]. cbn [mbind option_bind].
    eexists; split; [done|]. by constructor.
  - cbn [mbind option_bind]. eexists; split; [done|]. by constructor.
Qed.
Lemma finalize_ok g env m action log :
  engine_ok g → ∃ g', finalize try_send g env m action log = Some (ErMessage m, g') ∧ engine_ok g'.
Proof.
  intros Hg. unfold finalize.
  edestruct engine_record_ok as (g' & -> & Hg'); [exact Hg|]. cbn [mbind option_bind]. eauto.
Qed.
Lemma finalize_wire_ok g env b rc an action log :
  engine_ok g → ∃ g', finalize_wire try_send g env b rc an action log = Some (ErWire b, g') ∧ engine_ok g'.
Proof.
  intros Hg. unfold finalize_wire.
  edestruct engine_record_ok as (g' & -> & Hg'); [exact Hg|]. cbn [mbind option_bind]. eauto.
Qed.
Lemma with_cache_ok g c : engine_ok g → cache_wf khash entry_sound c → engine_ok (with_engine_cache c g).
Proof. intros [? ? ?] ?. by constructor. Qed.

(** ** Cache hits *)

Definition hit_sound (hit : CacheHit) : Prop :=
  match ch_verdict hit with
  | None => True
  | Some v => ∃ f, Installed f ∧ f_content_hash f = rv_generation v ∧ f_client_dependent f = false ∧
      ∀ client, filter_answers f client (cached_answers (ch_response hit)) = Some (outcome_info (rv_outcome v))
  end.

Lemma get_sound now c key id hit c' :
  cache_wf khash entry_sound c → cache_get khash now c key id = Some (Some hit, c') → hit_sound hit.
Proof.
  intros Hc Hget. destruct (cache_get_entry khash entry_sound _ _ _ _ _ _ Hc Hget) as (e & ttl & He & Er & Ev).
  unfold hit_sound, entry_sound in *. rewrite Er, Ev. destruct (e_verdict e) as [v|]; [|done].
  destruct He as (f & ? & ? & ? & He). exists f. auto.
Qed.

(** Trusting a memoised verdict is filtering the cached answers again, with an installed filter
    of the same content hash as the one in force. *)
Lemma hit_block_recomputed st client hit :
  state_ok st → hit_sound hit → es_filtering_enabled st && rc_filtering_enabled client = true →
  ∃ f, Installed f ∧ f_content_hash f = f_content_hash (es_filter st)
    ∧ hit_block st client hit = filter_answers f client (cached_answers (ch_response hit)).
Proof.
  intros [Hf _] Hh Hon. unfold hit_block. rewrite Hon. unfold hit_sound in Hh.
  assert (Hre : ∃ f, Installed f ∧ f_content_hash f = f_content_hash (es_filter st) ∧
    filter_answers (es_filter st) client (cached_answers (ch_response hit)) = filter_answers f client (cached_answers (ch_response hit)))
    by (by exists (es_filter st)).
  destruct (ch_verdict hit) as [v|]; [|done]. destruct Hh as (f & Hi & Hhash & Hdep & Hall).
  destruct (f_client_dependent (es_filter st)) eqn:Ed; simpl; [done|].
  destruct (Z.eqb_spec (rv_generation v) (f_content_hash (es_filter st))) as [Eg|]; [|done].
  exists f. split; [done|]. split; [congruence|]. rewrite Hall. by destruct (rv_outcome v).
Qed.
Lemma hit_block_total st client hit : state_ok st → hit_sound hit → is_Some (hit_block st client hit).
Proof.
  intros Hst Hh. destruct (es_filtering_enabled st && rc_filtering_enabled client) eqn:Hon.
  - destruct (hit_block_recomputed st client hit Hst Hh Hon) as (f & Hf & _ & ->). by apply filter_answers_total.
  - unfold hit_block. rewrite Hon. by eexists.
Qed.

(** ** Steps *)

Definition result_good (r : HandleResult (F:=F) (pool:=pool)) : Prop :=
  match r with
  | HrDone _ task => Forall task_ok (option_list task)
  | HrUpstream p => state_ok (pd_state p)
  | HrCname _ => True
  end.

Lemma maybe_refresh_ok fr g st lazy key :
  state_ok st → engine_ok g →
  let '(task, g') := maybe_refresh fr g st (es_filtering_enabled st && negb (f_client_dependent (es_filter st))) lazy key in
  Forall task_ok (option_list task) ∧ engine_ok g'.
Proof.
  intros [Hf Hcl] Hg. unfold maybe_refresh. destruct (requires_refresh fr); simpl; [|done]. split.
  - constructor; [|done]. split_and!; simpl; [done|done|]. intros H. by bool_to_prop.
  - apply with_cache_ok; [done|]. apply inv_counters, (eo_cache _ Hg).
Qed.

Lemma handle_hit_ok g env st client id lazy key log hit :
  state_ok st → engine_ok g → hit_sound hit →
  ∃ r g', handle_hit try_send g env st client id lazy key log hit = Some (r, g') ∧ engine_ok g' ∧ result_good r.
Proof.
  intros Hst Hg Hh. unfold handle_hit. destruct (hit_block_total st client hit Hst Hh) as [o ->]. cbn [mbind option_bind].
  destruct o as [info|].
  - destruct (lazy_into_message lazy) as [query|].
    + pose proof (maybe_refresh_ok (ch_freshness hit) g st (LzMsg query) key Hst Hg) as Hr.
      destruct (maybe_refresh _ _ _ _ _ _) as [task g1]. destruct Hr as [Ht Hg1].
      edestruct finalize_ok as (g2 & -> & Hg2); [exact Hg1|]. cbn [mbind option_bind]. eauto.
    + edestruct finalize_ok as (g2 & -> & Hg2); [exact Hg|]. eexists _, _. split; [done|]. split; [exact Hg2|constructor].
  - pose proof (maybe_refresh_ok (ch_freshness hit) g st lazy key Hst Hg) as Hr.
    destruct (maybe_refresh _ _ _ _ _ _) as [task g1]. destruct Hr as [Ht Hg1].
    destruct (ch_response hit) as [b rc an|m];
      [edestruct finalize_wire_ok as (g2 & -> & Hg2)|edestruct finalize_ok as (g2 & -> & Hg2)]; try exact Hg1;
      cbn [mbind option_bind]; eauto.
Qed.

Lemma handle_lookup_ok g env st client fields lazy log :
  state_ok st → engine_ok g →
  ∃ r g', handle_lookup khash try_send g env st client fields lazy log = Some (r, g') ∧ engine_ok g' ∧ result_good r.
Proof.
  intros Hst Hg. unfold handle_lookup.
  edestruct (cache_get_ok khash entry_sound) as (found & c' & Eg & Hc'); [apply (eo_cache _ Hg)|]. rewrite Eg.
  cbn [mbind option_bind]. pose proof (with_cache_ok g c' Hg Hc') as Hg1. destruct found as [hit|].
  - apply handle_hit_ok; [done|done|]. by eapply get_sound; [apply (eo_cache _ Hg)|].
  - destruct (lazy_into_message lazy) as [query|]; [by eexists _, _|].
    edestruct finalize_ok as (g2 & -> & Hg2); [exact Hg1|]. eexists _, _. split; [done|]. split; [exact Hg2|constructor].
Qed.

Lemma identify_total cfg ip : ∃ c, identify (build_matcher cfg) ip = Some c.
Proof. destruct (best_match_identifies cfg ip) as (o & _ & E). unfold identify. rewrite E. by eexists. Qed.

Lemma ingress_name_ascii b i fields lazy :
  ingress_parse b = Some i → into_parts i = Ok (fields, lazy) → is_ascii (qf_name_lower fields) = true.
Proof.
  unfold ingress_parse. destruct (parse_query b) as [p|] eqn:Ep.
  - intros [= <-] [= <- <-]. simpl. apply lower_ascii. by eapply parse_query_ascii.
  - destruct (msg_from_vec b) as [m|]; [|done]. intros [= <-]. simpl. unfold fields_from_message.
    destruct (head (msg_queries m)) as [q|]; [|done]. intros [= <- <-]. simpl. apply lower_ascii, name_ascii.
Qed.

Lemma handle_ok g env cid b ingress ip :
  engine_ok g → ingress_parse b = Some ingress →
  ∃ r g', handle khash try_send g env cid ingress ip = Some (r, g') ∧ engine_ok g' ∧ result_good r.
Proof.
  intros Hg Hi. pose proof (eo_state _ Hg) as Hst. unfold handle.
  destruct Hst as [Hf (cfg & Hcl)]. rewrite Hcl. destruct (identify_total cfg ip) as [client ->]. cbn [mbind option_bind].
  destruct (into_parts ingress) as [[fields lazy]|msg] eqn:Ep; [|eexists _, _; split; [done|]; split; [done|constructor]].
  pose proof (ingress_name_ascii b ingress fields lazy Hi Ep) as Hasc.
  assert (Hst : state_ok (eg_state g)) by (split; eauto).
  destruct (_ && _); [|by apply handle_lookup_ok].
  destruct (fl_total (es_filter (eg_state g)) (trim_end_matches "."%char (qf_name_lower fields))
    (rtype_label (qf_rtype fields)) (client_info client) Hf (trim_dots_ascii _ Hasc)) as [v ->]. cbn [mbind option_bind].
  assert (Hfin : ∀ m a l, ∃ r g', hr_done <$> finalize try_send g env m a l = Some (r, g') ∧ engine_ok g' ∧
    result_good r).
  { intros m a l. edestruct finalize_ok as (g2 & -> & Hg2); [exact Hg|]. eexists _, _. split; [done|].
    split; [exact Hg2|constructor]. }
  destruct v as [rule|info|info data]; [by apply handle_lookup_ok| |]; (destruct (lazy_into_message lazy) as [query|]; [|apply Hfin]).
  - apply Hfin.
  - destruct (rewrite_response _ _ _); [apply Hfin|]. by eexists _, _.
Qed.

(** ** Insertions *)

Definition verdict_for (b : option MatchInfo) (generation : Z) : ResponseVerdict :=
  match b with Some info => verdict_block info generation | None => verdict_clean generation end.

Lemma verdict_sound f client m b cfg at_ ttl :
  Installed f → f_client_dependent f = false → filter_answers f client (msg_answers m) = Some b →
  entry_sound {| e_stored := (store_message cfg m).1; e_stored_at := at_; e_ttl := ttl;
                 e_verdict := Some (verdict_for b (f_content_hash f)) |}.
Proof.
  intros Hf Hdep Hb. unfold entry_sound. simpl. exists f. split_and!; [done|by destruct b|done|].
  intros client' id t. rewrite (filter_answers_data _ _ _ (msg_answers m)) by apply serve_answers.
  rewrite (filter_answers_checks f f client' client); [|intros d ty; by apply fl_client]. rewrite Hb. by destruct b.
Qed.

Lemma engine_insert_ok g env key m v :
  engine_ok g →
  (∀ cfg at_ ttl, entry_sound {| e_stored := (store_message cfg m).1; e_stored_at := at_; e_ttl := ttl; e_verdict := v |}) →
  ∃ r g', engine_insert khash g env key m v = Some (r, g') ∧ engine_ok g' ∧
          (r = None ∨ r = (store_message (dc_cfg (eg_cache g)) m).2).
Proof.
  intros Hg Hv. unfold engine_insert.
  destruct (cache_insert_good khash entry_sound (ev_now env) (eg_cache g) key m v (eo_cache _ Hg)) as (r & c' & -> & Hc' & Hr).
  { intros ttl _. apply Hv. }
  cbn [mbind option_bind]. eexists _, _. split; [done|]. split; [by apply with_cache_ok|done].
Qed.

Lemma resume_ok g env p res :
  engine_ok g → state_ok (pd_state p) → ∃ r g', resume khash try_send g env p res = Some (r, g') ∧ engine_ok g'.
Proof.
  intros Hg [Hf Hcl]. unfold resume. destruct res as [resolved|e].
  2:{ edestruct finalize_ok as (g2 & -> & Hg2); [exact Hg|]. eauto. }
  set (st := pd_state p) in *. set (an := msg_answers (rs_message resolved)).
  destruct (filter_answers_total (es_filter st) (pd_client p) an Hf) as [b Hb].
  assert (Hins : ∀ o, (o = None ∨ f_client_dependent (es_filter st) = false ∧ o = Some (verdict_for b (f_content_hash (es_filter st)))) →
    ∃ r g', engine_insert khash g env (pd_key p) (rs_message resolved) o = Some (r, g') ∧ engine_ok g').
  { intros o Ho. destruct (engine_insert_ok g env (pd_key p) (rs_message resolved) o Hg) as (r & g' & E & Hg' & _); [|eauto].
    intros cfg at_ ttl. destruct Ho as [->|[Hd ->]]; [done|]. by eapply verdict_sound. }
  assert (Hres : ∀ o, (o = None ∨ f_client_dependent (es_filter st) = false ∧ o = Some (verdict_for b (f_content_hash (es_filter st)))) →
    ∃ r g', (let! (served, g) := engine_insert khash g env (pd_key p) (rs_message resolved) o in
             match served with
             | Some w => finalize_wire try_send g env (iw_bytes w) (iw_rcode w) (iw_answers w)
                           (QaForwarded (rs_upstream resolved)) (log_rtt (rs_rtt_ms resolved) (pd_log p))
             | None => finalize try_send g env (rs_message resolved) (QaForwarded (rs_upstream resolved))
                         (log_rtt (rs_rtt_ms resolved) (pd_log p))
             end) = Some (r, g') ∧ engine_ok g').
  { intros o Ho. destruct (Hins o Ho) as (w & g1 & -> & Hg1). cbn [mbind option_bind]. destruct w as [w|].
    - edestruct finalize_wire_ok as (g2 & -> & Hg2); [exact Hg1|]. eauto.
    - edestruct finalize_ok as (g2 & -> & Hg2); [exact Hg1|]. eauto. }
  assert (Hblk : ∀ info o, (o = None ∨ f_client_dependent (es_filter st) = false ∧ o = Some (verdict_for b (f_content_hash (es_filter st)))) →
    ∃ r g', (let! (_, g) := engine_insert khash g env (pd_key p) (rs_message resolved) o in
             finalize try_send g env (blocked_message st (pd_query p)) (blocked_action info)
               (log_rtt (rs_rtt_ms resolved) (pd_log p))) = Some (r, g') ∧ engine_ok g').
  { intros info o Ho. destruct (Hins o Ho) as (w & g1 & -> & Hg1). cbn [mbind option_bind].
    edestruct finalize_ok as (g2 & -> & Hg2); [exact Hg1|]. eauto. }
  cbv zeta. fold an. rewrite Hb.
  destruct (es_filtering_enabled st), (rc_filtering_enabled (pd_client p)), (f_client_dependent (es_filter st));
    cbn [negb andb mbind option_bind]; try (apply Hres; by auto); destruct b as [info|]; cbn [mbind option_bind];
    try (apply Hres; by auto); apply Hblk; by auto.
Qed.

Lemma resume_cname_ok g env p res :
  engine_ok g → ∃ r g', resume_cname try_send g env p res = Some (r, g') ∧ engine_ok g'.
Proof. intros Hg. edestruct finalize_ok as (g2 & E & Hg2); [exact Hg|]. unfold resume_cname. rewrite E. eauto. Qed.

Lemma run_refresh_ok g env t res :
  engine_ok g → task_ok t → ∃ g', run_refresh khash g env t res = Some g' ∧ engine_ok g'.
Proof.
  intros Hg (Hf & Hgen & Hmemo). unfold run_refresh.
  assert (Hfail : ∃ g', Some (with_engine_cache (note_refresh_failed (eg_cache g)) g) = Some g' ∧ engine_ok g').
  { eexists; split; [done|]. apply with_cache_ok; [done|]. apply inv_counters, (eo_cache _ Hg). }
  destruct (lazy_into_message (rf_lazy t)); [|exact Hfail]. destruct res as [resolved|]; [|exact Hfail].
  assert (Hins : ∀ o, (∀ cfg at_ ttl, entry_sound {| e_stored := (store_message cfg (rs_message resolved)).1;
      e_stored_at := at_; e_ttl := ttl; e_verdict := o |}) →
    ∃ g', snd <$> engine_insert khash g env (rf_key t) (rs_message resolved) o = Some g' ∧ engine_ok g').
  { intros o Ho. edestruct engine_insert_ok as (r & g' & -> & Hg' & _); [exact Hg|exact Ho|]. eauto. }
  destruct (rf_memoize t); [|by apply Hins].
  destruct (filter_answers_total (rf_filter t) placeholder_client (msg_answers (rs_message resolved)) Hf) as [b Hb].
  rewrite Hb. cbn [mbind option_bind]. apply Hins. intros cfg at_ ttl. rewrite Hgen.
  apply (verdict_sound (rf_filter t) placeholder_client (rs_message resolved) b cfg at_ ttl Hf (Hmemo eq_refl) Hb).
Qed.

(** ** Reachable states *)

Lemma stats_reconfigure_ok en days anon s : stats_ok s → stats_ok (stats_reconfigure en days anon s).
Proof.
  intros [(j & ? & Hl & ?) Hi]. constructor; simpl; [exists j; by rewrite length_fmap|].
  apply Forall_fmap. eapply Forall_impl; [exact Hi|]. intros i []. by constructor.
Qed.
Lemma stats_reset_ok s : stats_ok s → stats_ok (stats_reset s).
Proof.
  intros [(j & ? & Hl & ?) Hi]. constructor; simpl; [exists j; by rewrite length_fmap|].
  apply Forall_fmap, Forall_true. intros i. constructor; simpl; [by left|intros ??; by rewrite lookup_empty].
Qed.

Lemma step_ok w w' : step w w' → world_ok w → world_ok w'.
Proof.
  intros Hst [Hg Hp Ht].
  assert (Hcache : ∀ c, cache_wf khash entry_sound c → world_ok (with_cache c w)).
  { intros c Hc. constructor; simpl; [by apply with_cache_ok|done|done]. }
  pose proof (eo_cache _ Hg) as Hc.
  destruct Hst as [? ? [? env cid b ing ip r g Hi Hh|? env p1 p p2 res resp g Ep Hr|? env p1 p p2 res resp g Ep Hr
    |? env t1 t t2 res g Et Hr|? st Hs|?|?|?|?|?|?|?]|? fi unix now data n c Hi].
  - destruct (handle_ok _ env cid b ing ip Hg Hi) as (r' & g' & E & Hg' & Hr). rewrite Hh in E. injection E as <- <-.
    destruct r as [resp task|p|p]; constructor; simpl in *; auto using Forall_app_2.
  - rewrite Ep in Hp. apply Forall_app in Hp as [Hp1 [Hpp Hp2]%Forall_cons].
    destruct (resume_ok _ env p res Hg Hpp) as (r' & g' & E & Hg'). rewrite Hr in E. injection E as <- <-.
    constructor; simpl; auto using Forall_app_2.
  - destruct (resume_cname_ok _ env p res Hg) as (r' & g' & E & Hg'). rewrite Hr in E. injection E as <- <-.
    by constructor.
  - rewrite Et in Ht. apply Forall_app in Ht as [Ht1 [Htt Ht2]%Forall_cons].
    destruct (run_refresh_ok _ env t res Hg Htt) as (g' & E & Hg'). rewrite Hr in E. injection E as <-.
    constructor; simpl; auto using Forall_app_2.
  - constructor; simpl; [|done|done]. destruct Hg. by constructor.
  - apply Hcache. by apply inv_reconfigure.
  - apply Hcache. by apply inv_clear.
  - apply Hcache. by apply inv_store_summaries.
  - apply Hcache. by apply inv_counters.
  - constructor; simpl; [|done|done]. destruct Hg. constructor; [done..|]. by apply stats_reconfigure_ok.
  - constructor; simpl; [|done|done]. destruct Hg. constructor; [done..|]. by apply stats_reset_ok.
  - constructor; simpl; [|done|done]. destruct Hg. by constructor.
  - apply Hcache. edestruct (import_snapshot_ok khash entry_sound) as (n' & c' & E & Hc' & _); [|exact Hc|].
    + intros k e [Hv _]. unfold entry_sound. by rewrite Hv.
    + rewrite Hi in E. by injection E as _ <-.
Qed.

(** The engine at startup. *)
Definition initial_world (parallelism : option Z) (cap : nat) (mn mx stale days : Z) (stats_on anon : bool)
    (log : QueryLog) (st : EngineState) : World :=
  {| w_engine := {| eg_state := st; eg_cache := cache_new parallelism cap mn mx stale; eg_log := log;
                    eg_stats := stats_new parallelism stats_on days anon |};
     w_pending := []; w_cnames := []; w_tasks := [] |}.
Definition reachable (w : World) : Prop :=
  ∃ par cap mn mx stale days on anon log st, (0 <= mn)%Z ∧ (0 <= mx)%Z ∧ state_ok st ∧
    rtc step (initial_world par cap mn mx stale days on anon log st) w.

Lemma reachable_ok w : reachable w → world_ok w.
Proof.
  intros (par & cap & mn & mx & stale & days & on & anon & log & st & Hmn & Hmx & Hst & Hsteps).
  assert (Hinit : world_ok (initial_world par cap mn mx stale days on anon log st)).
  { constructor; simpl; [|constructor..]. constructor; simpl; [done|by apply cache_new_inv|apply stats_new_ok]. }
  induction Hsteps as [|w1 w2 w3 H12 _ IH]; [done|]. apply IH. by eapply step_ok.
Qed.
End engine.
