(* ===== verification/EngineInstances.v ===== *)
(** * Instances of the interfaces of the pipeline: the filter engine satisfies what the
    pipeline asks of a filter, and the small DNS library satisfies the laws of names and
    of the codec. *)
From Stdlib Require Import Ascii.
From S2P Require Import Prelude RustStr RustNet RustFloat Glob Rule Parser Instances FilterEngine FilterEngineProps FilterSpec Dns Wire DnsInstances Clients Block QueryLog Cache Stats Engine EngineProps.

(** ** The filter engine *)

(** An engine comes with the hasher it was built with. *)
#[export] Instance engine_filter {RX : RegexLib} {NL : IpNetLib} {US : UnstableSort} : FilterOps ((bytes → Z) * FilterEngine) := {
  f_check f := check f.1 f.2;
  f_client_dependent f := has_client_dependent_rules f.2;
  f_content_hash f := content_hash f.2;
}.

(** Built by [from_rules] from rules within the limits. *)
Definition built_filter {RX : RegexLib} {NL : IpNetLib} {US : UnstableSort} (chash : list (bytes * Z * Action) → Z)
    (f : (bytes → Z) * FilterEngine) : Prop :=
  ∃ brs, rules_ok brs ∧ from_rules f.1 chash brs = Some f.2.

#[export] Instance engine_filter_laws {RX : RegexLib} {NL : IpNetLib} {US : UnstableSort} {RL : RegexLaws RX}
    (chash : list (bytes * Z * Action) → Z) : FilterLaws engine_filter (built_filter chash).
Proof.
  constructor.
  - intros [dh e] d ty ci (brs & Hok & He) Hd. simpl in *.
    destruct (from_rules_engine dh chash brs Hok) as (e' & He' & Heng). rewrite He in He'. injection He' as <-.
    destruct (check_spec dh brs e d ty ci Hok Heng Hd) as (v & E & _). simpl. by exists v.
  - intros [dh e] d ty c1 c2 (brs & Hok & He) Hdep. simpl in *. by eapply check_no_client; [apply ro_sizes| |].
Qed.

(** A subfamily of lawful filters is lawful. *)
Lemma filter_laws_sub {F} (FO : FilterOps F) (P Q : F → Prop) : (∀ f, Q f → P f) → FilterLaws FO P → FilterLaws FO Q.
Proof. intros HQ [H1 H2]. constructor; eauto. Qed.

(** ** Names of the small library *)

#[export] Instance small_names : NameLaws small_dns.
Proof.
  constructor. intros n. simpl. unfold is_ascii. apply forallb_Forall, Forall_fmap, Forall_true. intros b. simpl.
  rewrite u8_byte_of. pose proof (Z.mod_pos_bound (u8 b) 128 ltac:(lia)). rewrite Z.mod_small by lia. apply Z.ltb_lt. lia.
Qed.

(** ** The small codec under [patch] *)

Definition name_enc (n : bytes) : bytes := byte_of (Z.of_nat (length n)) :: n ++ [byte_of 0].
Definition rec_head (r : DnsRecord) : bytes := name_enc (dr_name r) ++ be_bytes2 RT_A ++ be_bytes2 CLASS_IN.
Definition rec_tail (r : DnsRecord) : bytes :=
  be_bytes2 4 ++ match dr_data r with RdA (Ipv4 a b c d) => [a; b; c; d] | _ => [] end.
Definition rec_enc (ttl : Z) (r : DnsRecord) : bytes := rec_head r ++ be_bytes4 ttl ++ rec_tail r.
(** What the codec accepts. *)
Definition name_fits (n : bytes) : Prop := 0 < length n < 64.
Definition rec_fits (r : DnsRecord) : Prop := name_fits (dr_name r) ∧ ∃ ip, dr_data r = RdA ip.

Lemma small_name_Some n e : small_name n = Some e → name_fits n ∧ e = name_enc n.
Proof.
  unfold small_name. intros H. unfold name_fits.
  destruct (Nat.ltb_spec (length n) 64), (Nat.eqb_spec (length n) 0); try done. injection H as <-. split; [lia|done].
Qed.
Lemma small_record_Some r e : small_record r = Some e → rec_fits r ∧ e = rec_enc (dr_ttl r) r.
Proof.
  unfold small_record, rec_enc, rec_head, rec_tail, rec_fits. destruct (dr_data r) as [[a b c d]| | | | | | | | |]; try done.
  intros H. inv_some. apply small_name_Some in E as [Hn ->]. split; [eauto|]. by rewrite <- !app_assoc.
Qed.
Lemma small_records_Some rs ens :
  mapM small_record rs = Some ens → Forall rec_fits rs ∧ ens = (λ r, rec_enc (dr_ttl r) r) <$> rs.
Proof.
  intros H%mapM_Some. induction H as [|r e rs ens Hr _ [IH1 IH2]]; [done|].
  apply small_record_Some in Hr as [? ->]. subst. split; [by constructor|done].
Qed.

Lemma length_name_enc n : length (name_enc n) = length n + 2.
Proof. unfold name_enc. simpl. rewrite length_app. simpl. lia. Qed.
Lemma length_rec_head r : length (rec_head r) = length (dr_name r) + 6.
Proof. unfold rec_head. rewrite !length_app, length_name_enc. simpl. lia. Qed.
Lemma length_rec_tail r : rec_fits r → length (rec_tail r) = 6.
Proof. intros [_ ([a b c d] & E)]. unfold rec_tail. by rewrite E. Qed.
Lemma length_rec_enc ttl r : rec_fits r → length (rec_enc ttl r) = length (dr_name r) + 16.
Proof. intros H. unfold rec_enc. rewrite !length_app, length_rec_head, length_rec_tail by done. simpl. lia. Qed.

Lemma skip_name_small pre n rest :
  name_fits n → (Z.of_nat (length pre) < 100000)%Z →
  skip_name (pre ++ name_enc n ++ rest) (length pre) = Ok (length pre + length n + 2).
Proof.
  intros [Hp Hl] Hs. unfold skip_name, name_enc. cbn [skip_name_loop].
  change ((?x :: ?l) ++ rest) with (x :: l ++ rest). rewrite get_app. cbn [result_bind].
  rewrite u8_small by lia. rewrite land_small by lia. change (0 =? 0)%Z with true. cbv match.
  rewrite (proj2 (Z.eqb_neq _ _)) by lia. rewrite Nat2Z.id, cadd_small by (unfold U64_MAX; lia). cbn [result_bind].
  set (x := byte_of (Z.of_nat (length n))).
  assert (E : pre ++ x :: (n ++ [byte_of 0]) ++ rest = ((pre ++ [x]) ++ n) ++ byte_of 0 :: rest) by (by rewrite <- !app_assoc).
  rewrite E. replace (length pre + (1 + length n)) with (length ((pre ++ [x]) ++ n)) by (rewrite !length_app; simpl; lia).
  rewrite get_app. cbn [result_bind].
  change (Z.land (u8 (byte_of 0)) 192 =? 0)%Z with true. change (u8 (byte_of 0) =? 0)%Z with true. cbv match.
  f_equal. rewrite !length_app. simpl. lia.
Qed.

Lemma index16_at buf pre z rest p :
  buf = pre ++ be_bytes2 z ++ rest → p = length pre → in_u 16 z → index16 buf p = Ok z.
Proof. intros -> ->. apply index16_app. Qed.

Lemma record_at_small pre r ttl rest :
  rec_fits r → (Z.of_nat (length pre) < 100000)%Z →
  record_at_pos (pre ++ rec_enc ttl r ++ rest) (length pre + length (dr_name r) + 2)
  = Ok (RT_A, length pre + length (rec_enc ttl r)).
Proof.
  intros Hr Hp. pose proof (length_rec_enc ttl r Hr) as Hl. destruct Hr as [[Hn0 Hn] ([a b c d] & Ed)]. unfold record_at_pos.
  rewrite cadd_small by (unfold U64_MAX; lia). cbn [result_bind].
  rewrite (proj2 (Nat.ltb_ge _ _)) by (rewrite !length_app, Hl; lia).
  rewrite (index16_at _ (pre ++ name_enc (dr_name r)) RT_A
    (be_bytes2 CLASS_IN ++ be_bytes4 ttl ++ rec_tail r ++ rest));
    [|unfold rec_enc, rec_head; by rewrite <- !app_assoc|rewrite length_app, length_name_enc; lia|done].
  cbn [result_bind].
  rewrite (index16_at _ (pre ++ rec_head r ++ be_bytes4 ttl) 4 ([a; b; c; d] ++ rest));
    [|unfold rec_enc, rec_tail; rewrite Ed; by rewrite <- !app_assoc|rewrite !length_app, length_rec_head; simpl; lia|done].
  cbn [result_bind]. change (Z.to_nat 4) with 4. rewrite cadd_small by (unfold U64_MAX; lia). cbn [result_bind].
  rewrite (proj2 (Nat.ltb_ge _ _)) by (rewrite !length_app, Hl; lia). do 2 f_equal. lia.
Qed.

(** The TTL offsets of records that start at [p]. *)
Fixpoint offs_of (p : nat) (rs : list DnsRecord) : list Z :=
  match rs with
  | [] => []
  | r :: rs => Z.of_nat (p + length (dr_name r) + 6) :: offs_of (p + length (dr_name r) + 16) rs
  end.

Lemma scan_small rs pre :
  Forall rec_fits rs → (Z.of_nat (length (pre ++ mjoin ((λ r, rec_enc (dr_ttl r) r) <$> rs)) ) < 65536)%Z →
  scan_records (length rs) (pre ++ mjoin ((λ r, rec_enc (dr_ttl r) r) <$> rs)) (length pre) = Ok (offs_of (length pre) rs).
Proof.
  intros Hrs. revert pre. induction Hrs as [|r rs Hr Hrs IH]; intros pre Hlen; [done|].
  cbn [length scan_records]. rewrite fmap_cons in *. change (mjoin (?x :: ?l)) with (x ++ mjoin l) in *.
  set (tl := mjoin ((λ r, rec_enc (dr_ttl r) r) <$> rs)) in *.
  pose proof (length_rec_enc (dr_ttl r) r Hr) as Hl. rewrite length_app in Hlen.
  rewrite length_app, Hl in Hlen.
  assert (E : pre ++ rec_enc (dr_ttl r) r ++ tl = pre ++ name_enc (dr_name r) ++
    (be_bytes2 RT_A ++ be_bytes2 CLASS_IN ++ be_bytes4 (dr_ttl r) ++ rec_tail r ++ tl)).
  { unfold rec_enc, rec_head. by rewrite <- !app_assoc. }
  rewrite E at 1. rewrite skip_name_small by (apply Hr || lia). cbn [result_bind].
  rewrite record_at_small by (done || lia). cbn [result_bind].
  rewrite app_assoc, <- length_app. unfold tl. rewrite IH; [|rewrite !length_app, Hl; fold tl; lia]. cbn [result_bind].
  change (RT_A =? TYPE_OPT)%Z with false. cbv match. cbn [offs_of]. f_equal. f_equal.
  - rewrite wrap_small by (unfold in_u; lia). f_equal. lia.
  - f_equal. rewrite length_app, Hl. lia.
Qed.

Lemma write_at_app a x b y : length x = length y → write_at (a ++ x ++ b) (length a) y = a ++ y ++ b.
Proof.
  intros H. unfold write_at. rewrite !length_app, (proj2 (Nat.leb_le _ _)) by lia.
  rewrite take_app_length. do 2 f_equal. rewrite <- H, app_assoc, <- length_app. apply drop_app_length.
Qed.

Lemma put_small ttl rs pre :
  Forall rec_fits rs →
  foldl (put_ttl ttl) (pre ++ mjoin ((λ r, rec_enc (dr_ttl r) r) <$> rs)) (offs_of (length pre) rs)
  = pre ++ mjoin (rec_enc ttl <$> rs).
Proof.
  intros Hrs. revert pre. induction Hrs as [|r rs Hr Hrs IH]; intros pre; [done|].
  cbn [offs_of foldl fmap list_fmap]. change (mjoin (?x :: ?l)) with (x ++ mjoin l).
  assert (E : put_ttl ttl (pre ++ rec_enc (dr_ttl r) r ++ mjoin ((λ r, rec_enc (dr_ttl r) r) <$> rs))
      (Z.of_nat (length pre + length (dr_name r) + 6))
    = (pre ++ rec_enc ttl r) ++ mjoin ((λ r, rec_enc (dr_ttl r) r) <$> rs)).
  { unfold put_ttl, rec_enc at 1 3. rewrite Nat2Z.id, <- !app_assoc, app_assoc.
    replace (length pre + length (dr_name r) + 6) with (length (pre ++ rec_head r)) by (rewrite length_app, length_rec_head; lia).
    rewrite write_at_app by done. by rewrite <- !app_assoc. }
  rewrite E.
  replace (length pre + length (dr_name r) + 16) with (length (pre ++ rec_enc ttl r))
    by (rewrite length_app, length_rec_enc by done; lia).
  rewrite IH. by rewrite <- app_assoc.
Qed.

Lemma read_bytes_app x s n : length x = n → read_bytes n (x ++ s) = Some (x, s).
Proof.
  intros <-. unfold read_bytes. rewrite length_app, (proj2 (Nat.ltb_ge _ _)) by lia.
  by rewrite take_app_length, drop_app_length.
Qed.
Lemma read_be_app x s n : length x = n → read_be n (x ++ s) = Some (be32 x, s).
Proof. intros H. unfold read_be. by rewrite read_bytes_app. Qed.
Lemma read_name_small n s : name_fits n → read_small_name (name_enc n ++ s) = Some (n, s).
Proof.
  intros [? ?]. unfold read_small_name, name_enc.
  change ((?x :: ?l) ++ s) with ([x] ++ l ++ s). rewrite read_be_app by done. cbn [mbind option_bind].
  change (be32 [?x]) with (0 * 256 + u8 x)%Z. rewrite u8_small by lia.
  replace (Z.to_nat (0 * 256 + Z.of_nat (length n))) with (length n) by lia.
  rewrite <- app_assoc, read_bytes_app by done. cbn [mbind option_bind]. rewrite read_be_app by done. done.
Qed.
Lemma read_record_small ttl r s :
  rec_fits r → read_small_record (rec_enc ttl r ++ s)
  = Some ({| dr_name := dr_name r; dr_ttl := be32 (be_bytes4 ttl); dr_data := dr_data r |}, s).
Proof.
  intros [Hn ([a b c d] & Ed)]. unfold read_small_record, rec_enc, rec_head, rec_tail. rewrite Ed, <- !app_assoc.
  rewrite read_name_small by done. cbn [mbind option_bind]. rewrite read_be_app by done. cbn [mbind option_bind].
  rewrite read_be_app by done. cbn [mbind option_bind]. rewrite read_be_app by done. cbn [mbind option_bind].
  rewrite read_be_app by done. cbn [mbind option_bind]. rewrite read_bytes_app by done. done.
Qed.
Lemma read_records_small (ttl : DnsRecord → Z) rs :
  Forall rec_fits rs → ∃ rs', read_small_records (length rs) (mjoin ((λ r, rec_enc (ttl r) r) <$> rs)) = Some (rs', []) ∧
    dr_data <$> rs' = dr_data <$> rs.
Proof.
  induction 1 as [|r rs Hr _ (rs' & E & Hd)]; [by exists []|]. cbn [length read_small_records fmap list_fmap].
  change (mjoin (?x :: ?l)) with (x ++ mjoin l). rewrite read_record_small by done. cbn [mbind option_bind].
  rewrite E. cbn [mbind option_bind]. eexists; split; [done|]. csimpl. by rewrite Hd.
Qed.

Lemma be32_be2 z : in_u 16 z → be32 (be_bytes2 z) = z.
Proof. intros H. rewrite <- (be16_bytes z H) at 2. unfold be32, be16, be_bytes2. simpl. lia. Qed.
Lemma u16_ok_in z : u16_ok z = true → in_u 16 z.
Proof. unfold u16_ok, in_u. intros H. bool_to_prop. apply Z.leb_le in H. apply Z.ltb_lt in H0. lia. Qed.

(** Everything of an encoded message between the id and the answers. *)
Definition small_mid (rc n : Z) (q : Query) : bytes :=
  [byte_of 129; byte_of (128 + rc)] ++ be_bytes2 1 ++ be_bytes2 n ++ be_bytes2 0 ++ be_bytes2 0
  ++ name_enc (q_name q) ++ be_bytes2 (q_type q) ++ be_bytes2 (q_class q).

Lemma small_to_vec_Some m b :
  small_to_vec m = Some b →
  ∃ q, let n := Z.of_nat (length (msg_answers m)) in
    in_u 16 n ∧ (0 <= msg_rcode m < 16)%Z ∧ name_fits (q_name q) ∧ Forall rec_fits (msg_answers m) ∧
    b = (be_bytes2 (msg_id m) ++ small_mid (msg_rcode m) n q) ++ mjoin ((λ r, rec_enc (dr_ttl r) r) <$> msg_answers m) ∧
    (Z.of_nat (length b) < 65536)%Z.
Proof.
  unfold small_to_vec, small_plain. destruct (msg_queries m) as [|q [|]]; try done. intros H. inv_some.
  destruct (msg_type m), (msg_authorities m), (msg_additionals m), (msg_edns m); try done. bool_to_prop.
  exists q. apply small_name_Some in E0 as [Hn ->]. apply small_records_Some in E1 as [Hr ->].
  repeat match goal with H : (_ <=? _)%Z = true |- _ => apply Z.leb_le in H | H : (_ <? _)%Z = true |- _ => apply Z.ltb_lt in H end.
  split_and!; [by apply u16_ok_in|lia|lia|done|done| |done]. unfold small_mid. by rewrite <- !app_assoc.
Qed.

Lemma small_scan m b q :
  let n := Z.of_nat (length (msg_answers m)) in
  in_u 16 n → name_fits (q_name q) → Forall rec_fits (msg_answers m) →
  b = (be_bytes2 (msg_id m) ++ small_mid (msg_rcode m) n q) ++ mjoin ((λ r, rec_enc (dr_ttl r) r) <$> msg_answers m) →
  (Z.of_nat (length b) < 65536)%Z →
  scan_ttl_offsets b = Some (offs_of (length (be_bytes2 (msg_id m) ++ small_mid (msg_rcode m) n q)) (msg_answers m)).
Proof.
  intros n Hn Hq Hr Hb Hlen. apply scan_Some. unfold scan_ttl_offsets_r.
  set (recs := mjoin ((λ r, rec_enc (dr_ttl r) r) <$> msg_answers m)) in *.
  set (h4 := be_bytes2 (msg_id m) ++ [byte_of 129; byte_of (128 + msg_rcode m)]).
  assert (Hl12 : 12 ≤ length b) by (rewrite Hb, !length_app; simpl; lia).
  rewrite (proj2 (Nat.ltb_ge _ _)) by done. unfold header_counts.
  rewrite (index16_at b h4 1 (be_bytes2 n ++ be_bytes2 0 ++ be_bytes2 0 ++ name_enc (q_name q) ++ be_bytes2 (q_type q)
    ++ be_bytes2 (q_class q) ++ recs)) by (done || (rewrite Hb; unfold h4, small_mid; by rewrite <- !app_assoc)).
  cbn [result_bind].
  rewrite (index16_at b (h4 ++ be_bytes2 1) n (be_bytes2 0 ++ be_bytes2 0 ++ name_enc (q_name q) ++ be_bytes2 (q_type q)
    ++ be_bytes2 (q_class q) ++ recs)) by (done || (rewrite Hb; unfold h4, small_mid; by rewrite <- !app_assoc)).
  cbn [result_bind].
  rewrite (index16_at b (h4 ++ be_bytes2 1 ++ be_bytes2 n) 0 (be_bytes2 0 ++ name_enc (q_name q) ++ be_bytes2 (q_type q)
    ++ be_bytes2 (q_class q) ++ recs)) by (done || (rewrite Hb; unfold h4, small_mid; by rewrite <- !app_assoc)).
  cbn [result_bind].
  set (h12 := h4 ++ be_bytes2 1 ++ be_bytes2 n ++ be_bytes2 0 ++ be_bytes2 0).
  rewrite (index16_at b (h4 ++ be_bytes2 1 ++ be_bytes2 n ++ be_bytes2 0) 0 (name_enc (q_name q) ++ be_bytes2 (q_type q)
    ++ be_bytes2 (q_class q) ++ recs)) by (done || (rewrite Hb; unfold h4, small_mid; by rewrite <- !app_assoc)).
  cbn [result_bind]. change (Z.to_nat 1) with 1. change (Z.to_nat 0) with 0. unfold n at 1 2. rewrite Nat2Z.id.
  cbn [skip_questions].
  assert (E12 : b = h12 ++ name_enc (q_name q) ++ (be_bytes2 (q_type q) ++ be_bytes2 (q_class q) ++ recs)).
  { rewrite Hb. unfold h12, h4, small_mid. by rewrite <- !app_assoc. }
  change 12 with (length h12) at 1. rewrite E12 at 1. rewrite skip_name_small by done. cbn [result_bind].
  assert (Hq' : length (q_name q) < 64) by apply Hq. change (length h12) with 12.
  rewrite cadd_small by (unfold U64_MAX; lia). cbn [result_bind].
  assert (Hpl : 12 + length (q_name q) + 2 + 4 = length (be_bytes2 (msg_id m) ++ small_mid (msg_rcode m) n q)).
  { unfold small_mid. rewrite !length_app, length_name_enc. simpl. lia. }
  rewrite (proj2 (Nat.ltb_ge _ _)) by (rewrite Hpl, Hb, (length_app (be_bytes2 _ ++ _)); lia). cbn [result_bind].
  assert (Ha : (Z.of_nat (length (msg_answers m)) < 65536)%Z) by apply Hn.
  rewrite !cadd_small by (unfold U64_MAX; lia). cbn [result_bind]. rewrite cadd_small by (unfold U64_MAX; lia). cbn [result_bind].
  rewrite !Nat.add_0_r, Hpl, Hb. apply scan_small; [done|].
  rewrite Hb in Hlen. exact Hlen.
Qed.

(** Whatever the id and the TTLs, the rest of an encoded message is read back. *)
Lemma small_reads m q id ttl :
  let n := Z.of_nat (length (msg_answers m)) in
  in_u 16 n → (0 <= msg_rcode m < 16)%Z → name_fits (q_name q) → Forall rec_fits (msg_answers m) →
  ∃ m', small_from_vec ((be_bytes2 id ++ small_mid (msg_rcode m) n q) ++ mjoin ((λ r, rec_enc (ttl r) r) <$> msg_answers m)) = Some m'
    ∧ dr_data <$> msg_answers m' = dr_data <$> msg_answers m.
Proof.
  intros n Hn Hrc Hq Hr. destruct (read_records_small ttl (msg_answers m) Hr) as (rs' & Ers & Hd).
  unfold small_from_vec, small_mid. rewrite <- !app_assoc.
  rewrite read_be_app by done. cbn [mbind option_bind].
  change ([byte_of 129; ?x] ++ ?l) with ([byte_of 129] ++ [x] ++ l). rewrite read_be_app by done. cbn [mbind option_bind].
  do 5 (rewrite read_be_app by done; cbn [mbind option_bind]).
  rewrite read_name_small by done. cbn [mbind option_bind]. do 2 (rewrite read_be_app by done; cbn [mbind option_bind]).
  rewrite (be32_be2 n) by done. unfold n at 1. rewrite Nat2Z.id, Ers. cbn [mbind option_bind].
  rewrite !be32_be2 by done. change (be32 [byte_of 129] =? 129)%Z with true.
  assert (Ef : be32 [byte_of (128 + msg_rcode m)] = (128 + msg_rcode m)%Z).
  { change (be32 [?x]) with (0 * 256 + u8 x)%Z. rewrite u8_byte_of, Z.mod_small by lia. lia. }
  rewrite Ef, (proj2 (Z.leb_le _ _)) by lia. cbn [andb length Nat.eqb Z.eqb]. eexists. split; [reflexivity|]. exact Hd.
Qed.
#[export] Instance small_codec_laws : CodecLaws small_codec.
Proof.
  constructor. intros m b offs id ttl Hb Ho. destruct (small_to_vec_Some m b Hb) as (q & Hn & Hrc & Hq & Hr & Eb & Hlen).
  set (n := Z.of_nat (length (msg_answers m))) in *.
  rewrite (small_scan m b q Hn Hq Hr Eb Hlen) in Ho. apply (inj Some) in Ho. subst offs.
  assert (Ep : patch b id ttl (offs_of (length (be_bytes2 (msg_id m) ++ small_mid (msg_rcode m) n q)) (msg_answers m))
    = (be_bytes2 id ++ small_mid (msg_rcode m) n q) ++ mjoin (rec_enc ttl <$> msg_answers m)).
  { rewrite patch_unfold. rewrite Eb, <- app_assoc.
    assert (W : ∀ X, write_at (be_bytes2 (msg_id m) ++ X) 0 (be_bytes2 id) = be_bytes2 id ++ X)
      by (intros X; exact (write_at_app [] (be_bytes2 (msg_id m)) X (be_bytes2 id) eq_refl)).
    rewrite W, app_assoc.
    change (length (be_bytes2 (msg_id m) ++ small_mid (msg_rcode m) n q))
      with (length (be_bytes2 id ++ small_mid (msg_rcode m) n q)). by apply put_small. }
  fold n. rewrite Ep. exact (small_reads m q id (λ _, ttl) Hn Hrc Hq Hr).
Qed.
