(* ===== verification/EngineSafety.v ===== *)
(** * The contract of the query pipeline, proved against the interfaces of the filter, the
    DNS library and the LRU map, and applied to concrete instances of all of them. *)
From Stdlib Require Import Ascii.
From S2P Require Import Prelude RustStr RustNet RustFloat Glob Rule Token Parser ParserProps Instances FilterEngine FilterEngineProps FilterSpec Compiler Dns Wire DnsInstances Clients Block QueryLog Cache CacheProps Snapshot SnapshotProps Stats StatsProps Engine EngineText EngineProps EngineInstances.

(** ** What a filtered client is answered *)

Section replies.
Context {DL : DnsLib} {DC : DnsCodec} {IL : IpNetLib} {HO : HashOrder}.
Context {L : LruLib QueryKey Entry} (khash : QueryKey → Z).
Context {sender : Type} (try_send : sender → QueryLogEntry → option sender).
Context {F : Type} {FO : FilterOps F} {pool : Type} (Installed : F → Prop).
Context {NL : NameLaws DL} {CL : CodecLaws DC} {LL : LruLaws L} {FL : FilterLaws FO Installed}.
Local Abbreviation Engine := (Engine (sender:=sender) (F:=F) (pool:=pool)).

(** A reply the server makes itself: an error, the configured block response, or what a rewrite
    rule says. *)
Inductive local_reply (st : EngineState (F:=F) (pool:=pool)) (m : Message) : Prop :=
| lr_error q rc : m = error_response q rc → local_reply st m
| lr_formerr id : m = formerr id → local_reply st m
| lr_block q : m = blocked_message st q → local_reply st m
| lr_rewrite q d : rewrite_response q d (es_blocked_ttl st) = RwDone m → local_reply st m.
Definition hit_reply (r : CachedResponse) : EngineResponse := match r with CrWire b _ _ => ErWire b | CrMessage m => ErMessage m end.

Lemma finalize_resp (g : Engine) env m a l r g' : finalize try_send g env m a l = Some (r, g') → r = ErMessage m.
Proof. unfold finalize. intros H. by inv_some. Qed.
Lemma hr_done_finalize (g : Engine) env m a l r t g' :
  hr_done <$> finalize try_send g env m a l = Some (HrDone r t, g') → r = ErMessage m.
Proof.
  destruct (finalize try_send g env m a l) as [[r0 g0]|] eqn:E; [|done]. apply finalize_resp in E as ->.
  intros H. by injection H as <- <- <-.
Qed.
(** The decision of a cache hit, with the filter that made it. *)
Lemma handle_hit_done (g : Engine) env st client id lz key log hit resp task g' :
  state_ok Installed st → hit_sound Installed hit → es_filtering_enabled st && rc_filtering_enabled client = true →
  handle_hit try_send g env st client id lz key log hit = Some (HrDone resp task, g') →
  (∃ m, resp = ErMessage m ∧ local_reply st m)
  ∨ (resp = hit_reply (ch_response hit) ∧ ∃ f, Installed f ∧ f_content_hash f = f_content_hash (es_filter st)
       ∧ filter_answers f client (cached_answers (ch_response hit)) = Some None).
Proof.
  intros Hst Hs Hf H. unfold handle_hit in H.
  destruct (hit_block_recomputed Installed st client hit Hst Hs Hf) as (f & Hi & Hh & E). rewrite E in H.
  destruct (filter_answers f client _) as [[info|]|] eqn:Ef; [| |done]; cbn [mbind option_bind] in H.
  - left. destruct (lazy_into_message lz) as [q|]; [|apply hr_done_finalize in H as ->; eexists; split; [done|by eapply lr_formerr]].
    destruct (maybe_refresh _ _ _ _ _ _) as [t1 g1]. destruct (finalize _ _ _ _ _ _) as [[r0 g0]|] eqn:E0; [|done].
    apply finalize_resp in E0 as ->. cbn [mbind option_bind] in H. injection H as <- _ _. eexists. split; [done|by eapply lr_block].
  - right. destruct (maybe_refresh _ _ _ _ _ _) as [t1 g1]. split; [|by exists f]. destruct (ch_response hit) as [b rc an|m].
    + unfold finalize_wire in H. destruct (engine_record _ _ _ _ _ _ _); [|done]. cbn [mbind option_bind] in H. by injection H as <- _ _.
    + destruct (finalize _ _ _ _ _ _) as [[r0 g0]|] eqn:E0; [|done]. apply finalize_resp in E0 as ->. cbn [mbind option_bind] in H.
      by injection H as <- _ _.
Qed.
Lemma handle_done (g : Engine) env cid ingress ip resp task g' client :
  engine_ok khash Installed g → handle khash try_send g env cid ingress ip = Some (HrDone resp task, g') →
  identify (es_clients (eg_state g)) ip = Some client → es_filtering_enabled (eg_state g) && rc_filtering_enabled client = true →
  (∃ m, resp = ErMessage m ∧ local_reply (eg_state g) m)
  ∨ (∃ key id hit c' f, cache_get khash (ev_now env) (eg_cache g) key id = Some (Some hit, c') ∧ resp = hit_reply (ch_response hit)
       ∧ Installed f ∧ f_content_hash f = f_content_hash (es_filter (eg_state g))
       ∧ filter_answers f client (cached_answers (ch_response hit)) = Some None).
Proof.
  intros Hg H Hid Hf. unfold handle in H. rewrite Hid in H. cbn [mbind option_bind] in H.
  destruct (into_parts ingress) as [[fields lz]|m0]; [|injection H as <- _ _; left; eexists; split; [done|by eapply lr_error]].
  rewrite Hf in H. destruct (f_check _ _ _ _) as [v|]; [|done]. cbn [mbind option_bind] in H.
  assert (Hfin : ∀ g0 m a l, hr_done <$> finalize try_send g0 env m a l = Some (HrDone resp task, g') → local_reply (eg_state g) m →
    ∃ m, resp = ErMessage m ∧ local_reply (eg_state g) m).
  { intros g0 m a l E Hl. apply hr_done_finalize in E. by exists m. }
  assert (Hferr : ∀ id, local_reply (eg_state g) (formerr id)) by (intros id; by eapply lr_formerr).
  destruct v as [rule|info|info data].
  - unfold handle_lookup in H. destruct (cache_get _ _ _ _ _) as [[[hit|] c1]|] eqn:Eg; [| |done]; cbn [mbind option_bind] in H.
    + pose proof (get_sound khash Installed _ _ _ _ _ _ (eo_cache _ _ _ Hg) Eg) as Hs.
      destruct (handle_hit_done _ _ _ _ _ _ _ _ _ _ _ _ (eo_state _ _ _ Hg) Hs Hf H) as [?|(E & f & ? & ? & ?)]; [by left|right].
      by eexists _, _, hit, c1, f.
    + destruct (lazy_into_message lz); [done|]. left. by eapply Hfin.
  - left. destruct (lazy_into_message lz); (eapply Hfin; [exact H|]); [by eapply lr_block|done].
  - left. destruct (lazy_into_message lz); [|by eapply Hfin]. destruct (rewrite_response _ _ _) eqn:Er; [|done].
    eapply Hfin; [exact H|]. by eapply lr_rewrite.
Qed.
(** The end of a query that was at the pool. *)
Lemma resume_done (g : Engine) env p res :
  engine_ok khash Installed g → state_ok Installed (pd_state p) →
  es_filtering_enabled (pd_state p) && rc_filtering_enabled (pd_client p) = true →
  ∃ r g', resume khash try_send g env p res = Some (r, g') ∧
    match res with
    | Err _ => r = ErMessage (error_response (pd_query p) RC_SERVFAIL)
    | Ok resolved =>
        ∃ o, filter_answers (es_filter (pd_state p)) (pd_client p) (msg_answers (rs_message resolved)) = Some o ∧
          match o with
          | Some _ => r = ErMessage (blocked_message (pd_state p) (pd_query p))
          | None => r = ErMessage (rs_message resolved) ∨ ∃ b, r = ErWire b ∧ msg_to_vec (rs_message resolved) = Some b
          end
    end.
Proof.
  intros Hg Hp Hf. destruct (resume_ok khash try_send Installed g env p res Hg Hp) as (r & g' & E & _). exists r, g'. split; [done|].
  unfold resume in E. destruct res as [resolved|e]; [|by apply finalize_resp in E]. cbv zeta in E. rewrite Hf in E.
  destruct (filter_answers _ _ _) as [o|]; [|done]. exists o. split; [done|]. cbn [mbind option_bind] in E. destruct o as [info|].
  - destruct (engine_insert _ _ _ _ _ _) as [[served g1]|]; [|done]. cbn [mbind option_bind] in E. by apply finalize_resp in E.
  - destruct (if es_filtering_enabled (pd_state p) && _ then _ else _) as [v|]; [|done]. cbn [mbind option_bind] in E.
    destruct (engine_insert _ _ _ _ _ _) as [[served g1]|] eqn:Ei; [|done]. cbn [mbind option_bind] in E.
    destruct served as [w|]; [|left; by apply finalize_resp in E]. right. exists (iw_bytes w).
    unfold finalize_wire in E. destruct (engine_record _ _ _ _ _ _ _); [|done]. injection E as <- _. split; [done|].
    unfold engine_insert, cache_insert in Ei. destruct (negb _); [done|]. destruct (cacheable_ttl _ _); [|done].
    unfold store_message in Ei. destruct (msg_to_vec (rs_message resolved)) as [b|]; [destruct (scan_ttl_offsets b)|];
      destruct (put_entry _ _ _ _); try done; by injection Ei as <- _.
Qed.
End replies.

(** ** The filters a process compiles *)

(** What [filter_answers] checks: the names and addresses of the answers, with the type each
    is checked as. *)
Definition hint_targets `{DnsLib} (v : SvcParam) : list (bytes * bytes) :=
  match v with
  | Ipv4Hint ips => (λ a, (render (V4 a), bs "HTTPS")) <$> ips
  | Ipv6Hint ips => (λ a, (render (V6 a), bs "HTTPS")) <$> ips
  | SvcOther _ => []
  end.
Definition data_targets `{DnsLib} (d : RData) : list (bytes * bytes) :=
  match d with
  | RdCNAME cname => [(trim_end_matches "."%char (name_to_ascii cname), bs "CNAME")]
  | RdA ip => [(render (V4 ip), bs "A")]
  | RdAAAA ip => [(render (V6 ip), bs "AAAA")]
  | RdHTTPS params | RdSVCB params => mjoin (hint_targets <$> params)
  | _ => []
  end.
Definition targets `{DnsLib} (an : list DnsRecord) : list (bytes * bytes) := mjoin ((λ r, data_targets (dr_data r)) <$> an).

Section compiled.
Context {DL : DnsLib} {DC : DnsCodec} {IL : IpNetLib} {RX : RegexLib} {US : UnstableSort}.
Context (chash : list (bytes * Z * Action) → Z).
(** The sets of lists, each with its id, name and text, that a process compiles. *)
Context (Configs : list (Z * bytes * bytes) → Prop).
Local Abbreviation Filter := ((bytes → Z) * FilterEngine)%type.
Implicit Types (f : Filter) (client : ResolvedClient) (brs : list BuildRule).

(** Their texts are ASCII and their rules fit the engine's integer fields. *)
Definition lists_fit_engine : Prop := ∀ ls, Configs ls → ascii_lists ls ∧ limits_ok (surviving ls).
(** The standard library's hasher has no collision among them. *)
Definition no_collision : Prop := ∀ l1 l2, Configs l1 → Configs l2 →
  chash (contents (surviving l1)) = chash (contents (surviving l2)) → contents (surviving l1) = contents (surviving l2).
(** A filter compiled from lists, each with hash keys of its own. *)
Definition compiled_from f (ls : list (Z * bytes * bytes)) : Prop := from_rules f.1 chash (surviving ls) = Some f.2.
Definition loaded f : Prop := ∃ ls, Configs ls ∧ compiled_from f ls.

Lemma loaded_built {GL : GlobLaws RX} f : lists_fit_engine → loaded f → built_filter chash f.
Proof. intros Hc (ls & Hls & Hf). destruct (Hc ls Hls) as [Ha Hl]. exists (surviving ls). split; [by apply compiled_rules_ok|done]. Qed.
Lemma loaded_laws {GL : GlobLaws RX} {RL : RegexLaws RX} : lists_fit_engine → FilterLaws engine_filter loaded.
Proof. intros Hc. apply (filter_laws_sub _ (built_filter chash)); [|apply _]. intros f. by apply loaded_built. Qed.
(** Filters of one content hash are compiled from the same rules. *)
Lemma same_hash_same_rules f1 l1 f2 : lists_fit_engine → no_collision → Configs l1 → compiled_from f1 l1 → loaded f2 →
  f_content_hash f2 = f_content_hash f1 → from_rules f2.1 chash (surviving l1) = Some f2.2.
Proof.
  intros Hc Hn H1 E1 (l2 & H2 & E2) Hh. cbn [f_content_hash engine_filter] in Hh.
  rewrite (content_hash_of _ _ _ _ E1), (content_hash_of _ _ _ _ E2) in Hh.
  by rewrite (same_contents l1 l2 (proj1 (Hc l1 H1)) (proj1 (Hc l2 H2)) (eq_sym (Hn l2 l1 H2 H1 Hh))).
Qed.

(** *** Decisions about answers *)

(** The linear scan over the rules admits a verdict other than a block for every target; it
    admits this block for one of them. *)
Definition unblocked brs client (an : list DnsRecord) : Prop :=
  ∀ t, t ∈ targets an → ∃ v, spec_verdict brs (normalize_query t.1) t.2 (client_info client) v ∧ ∀ i, v ≠ VBlock i.
Definition blocked_by brs client (an : list DnsRecord) (i : MatchInfo) : Prop :=
  ∃ t, t ∈ targets an ∧ spec_verdict brs (normalize_query t.1) t.2 (client_info client) (VBlock i).
Definition decided brs client (an : list DnsRecord) (o : option MatchInfo) : Prop :=
  match o with None => unblocked brs client an | Some i => blocked_by brs client an i end.

Lemma find_block_app {A} (g : A → option (option MatchInfo)) l k :
  find_block g (l ++ k) = (let! o := find_block g l in match o with Some i => Some (Some i) | None => find_block g k end).
Proof.
  induction l as [|x l IH]; [done|]. cbn [app find_block]. destruct (g x) as [[i|]|]; [done| |done]. exact IH.
Qed.
Lemma find_block_join {A B} (h : A → option (option MatchInfo)) (g : B → option (option MatchInfo)) (ts : A → list B) l :
  (∀ x, h x = find_block g (ts x)) → find_block h l = find_block g (mjoin (ts <$> l)).
Proof.
  intros H. induction l as [|x l IH]; [done|]. cbn [find_block]. change (mjoin (ts <$> x :: l)) with (ts x ++ mjoin (ts <$> l)).
  rewrite find_block_app, H, IH. done.
Qed.
Lemma find_block_fmap {A B} (g : B → option (option MatchInfo)) (t : A → B) l : find_block (λ a, g (t a)) l = find_block g (t <$> l).
Proof. induction l as [|x l IH]; [done|]. cbn [find_block fmap list_fmap]. by rewrite <- IH. Qed.
Lemma find_block_one {B} (g : B → option (option MatchInfo)) x : g x = find_block g [x].
Proof. cbn [find_block]. by destruct (g x) as [[]|]. Qed.
Lemma filter_answers_targets f client an :
  filter_answers f client an = find_block (λ t, check_block f t.1 t.2 (client_info client)) (targets an).
Proof.
  unfold filter_answers, targets. apply find_block_join. intros r.
  assert (Hh : ∀ ps, hint_block ps f (client_info client) = find_block (λ t, check_block f t.1 t.2 (client_info client)) (mjoin (hint_targets <$> ps))).
  { intros ps. apply find_block_join. intros [ips|ips|b]; cbn [hint_value hint_targets]; [| |done]; by rewrite <- find_block_fmap. }
  destruct (dr_data r); cbn [data_block data_targets]; try done; try apply Hh;
    apply (find_block_one (λ t, check_block f t.1 t.2 (client_info client)) (_, _)).
Qed.
Lemma targets_ascii {NL : NameLaws DL} an t : t ∈ targets an → is_ascii t.1 = true.
Proof.
  intros (ts & Ht & Hts)%list_elem_of_join. apply list_elem_of_fmap in Hts as (r & -> & _).
  assert (Hh : ∀ ps, t ∈ mjoin (hint_targets <$> ps) → is_ascii t.1 = true).
  { intros ps (us & Hu & Hus)%list_elem_of_join. apply list_elem_of_fmap in Hus as ([ips|ips|b] & -> & _); cbn [hint_targets] in Hu.
    - apply list_elem_of_fmap in Hu as (a & -> & _). apply render_ascii.
    - apply list_elem_of_fmap in Hu as (a & -> & _). apply render_ascii.
    - by apply elem_of_nil in Hu. }
  destruct (dr_data r); cbn [data_targets] in Ht; try (by apply elem_of_nil in Ht); try (by eapply Hh);
    apply list_elem_of_singleton in Ht as ->; try apply render_ascii. apply trim_dots_ascii, name_ascii.
Qed.
Lemma decided_spec {NL : NameLaws DL} {RL : RegexLaws RX} f brs client an o : rules_ok brs → from_rules f.1 chash brs = Some f.2 →
  filter_answers f client an = Some o → decided brs client an o.
Proof.
  intros Hok He. destruct (from_rules_engine f.1 chash brs Hok) as (e & He' & Heng). rewrite He in He'. injection He' as <-.
  assert (Hc : ∀ t, t ∈ targets an → ∃ v, check_block f t.1 t.2 (client_info client) = Some (block_of v)
             ∧ spec_verdict brs (normalize_query t.1) t.2 (client_info client) v).
  { intros t Ht. destruct (check_spec f.1 brs f.2 t.1 t.2 (client_info client) Hok Heng (targets_ascii _ _ Ht)) as (v & E & Hv).
    exists v. split; [|done]. unfold check_block. cbn [f_check engine_filter]. by rewrite E. }
  rewrite filter_answers_targets. unfold decided, unblocked, blocked_by. revert Hc. generalize (targets an). intros ts Hc H.
  revert o H. induction ts as [|t ts IH]; intros o H; [injection H as <-; by intros t ?%elem_of_nil|].
  cbn [find_block] in H. destruct (Hc t) as (v & E & Hv); [left|]. rewrite E in H. cbn [mbind option_bind] in H.
  destruct (block_of v) as [i|] eqn:Eb.
  - injection H as <-. exists t. split; [left|]. destruct v; try done. injection Eb as ->. exact Hv.
  - assert (Hc' : ∀ u, u ∈ ts → _) by (intros u Hu; exact (Hc u ltac:(by right))). specialize (IH Hc' o H). destruct o as [i|].
    + destruct IH as (u & Hu & ?). exists u. split; [by right|done].
    + intros u Hu. apply elem_of_cons in Hu as [->|Hu]; [|by apply IH]. exists v. split; [done|]. intros i ->. done.
Qed.
End compiled.

(** ** The contract *)

Section claims.
Context {DL : DnsLib} {DC : DnsCodec} {IL : IpNetLib} {HO : HashOrder} {RX : RegexLib} {US : UnstableSort}.
Context {NL : NameLaws DL} {CL : CodecLaws DC} {GL : GlobLaws RX} {RL : RegexLaws RX}.
Context {L : LruLib QueryKey Entry} {LL : LruLaws L} (khash : QueryKey → Z).
Context {sender : Type} (try_send : sender → QueryLogEntry → option sender) {pool : Type}.
Context (chash : list (bytes * Z * Action) → Z) (Configs : list (Z * bytes * bytes) → Prop).
Local Abbreviation loaded := (loaded chash Configs).
Local Abbreviation Filter := ((bytes → Z) * FilterEngine)%type.
Local Abbreviation compiled_from := (compiled_from chash).
Local Abbreviation reachable := (reachable khash try_send (pool:=pool) loaded).

(** What a client with filtering on may get at once: a reply of the server's own, or a cached
    response for none of whose names and addresses the rules in force demand a block. *)
Definition immediate_reply (g : Engine (sender:=sender) (F:=Filter) (pool:=pool)) (env : Env) (client : ResolvedClient) (resp : EngineResponse) : Prop :=
  (∃ m, resp = ErMessage m ∧ local_reply (eg_state g) m)
  ∨ ∃ ls key id hit c', Configs ls ∧ compiled_from (es_filter (eg_state g)) ls
      ∧ cache_get khash (ev_now env) (eg_cache g) key id = Some (Some hit, c') ∧ resp = hit_reply (ch_response hit)
      ∧ unblocked (surviving ls) client (cached_answers (ch_response hit)).
(** What it may get for a query that was at the pool: an error, the block response for an
    answer its rules block, or the upstream's message when they demand no block of it. *)
Definition pool_reply (p : Pending (F:=Filter) (pool:=pool)) (res : result Resolved bytes) (r : EngineResponse) : Prop :=
  match res with
  | Err _ => r = ErMessage (error_response (pd_query p) RC_SERVFAIL)
  | Ok resolved =>
      let m := rs_message resolved in
      ∃ ls, Configs ls ∧ compiled_from (es_filter (pd_state p)) ls ∧
        ((r = ErMessage (blocked_message (pd_state p) (pd_query p)) ∧ ∃ i, blocked_by (surviving ls) (pd_client p) (msg_answers m) i)
         ∨ (unblocked (surviving ls) (pd_client p) (msg_answers m) ∧ (r = ErMessage m ∨ ∃ b, r = ErWire b ∧ msg_to_vec m = Some b)))
  end.
Lemma handle_replies (g : Engine (sender:=sender) (F:=Filter) (pool:=pool)) env cid ingress ip resp task g' client :
  lists_fit_engine Configs → no_collision chash Configs → engine_ok khash loaded g →
  handle khash try_send g env cid ingress ip = Some (HrDone resp task, g') →
  identify (es_clients (eg_state g)) ip = Some client → es_filtering_enabled (eg_state g) && rc_filtering_enabled client = true →
  immediate_reply g env client resp.
Proof.
  intros Hc Hn Hg Hh Hid Hf. pose proof (loaded_laws chash Configs Hc) as FL.
  destruct (handle_done khash try_send loaded _ _ _ _ _ _ _ _ _ Hg Hh Hid Hf) as [?|(key & id & hit & c' & f & Hget & Hr & Hi & Hhash & Ha)]; [by left|].
  right. destruct (proj1 (eo_state _ _ _ Hg)) as (ls & Hls & Hfl). exists ls, key, id, hit, c'. split_and!; [done..|].
  pose proof (same_hash_same_rules chash Configs _ ls f Hc Hn Hls Hfl Hi Hhash) as Hb.
  apply (decided_spec chash f (surviving ls) client _ None); [|done|done]. apply compiled_rules_ok; by apply Hc.
Qed.
Lemma resume_replies (g : Engine (sender:=sender) (F:=Filter) (pool:=pool)) env p res :
  lists_fit_engine Configs → engine_ok khash loaded g → state_ok loaded (pd_state p) →
  es_filtering_enabled (pd_state p) && rc_filtering_enabled (pd_client p) = true →
  ∃ r g', resume khash try_send g env p res = Some (r, g') ∧ pool_reply p res r.
Proof.
  intros Hc Hg Hp Hf. pose proof (loaded_laws chash Configs Hc) as FL. destruct (proj1 Hp) as (ls & Hls & Hfl).
  destruct (resume_done khash try_send loaded _ env p res Hg Hp Hf) as (r & g' & E & Hr). exists r, g'. split; [done|].
  destruct res as [resolved|e]; [|done]. destruct Hr as (o & Ho & Hr). exists ls. split; [done|]. split; [done|].
  pose proof (decided_spec chash (es_filter (pd_state p)) (surviving ls) (pd_client p) _ o ltac:(apply compiled_rules_ok; by apply Hc) Hfl Ho) as Hd.
  destruct o as [i|]; [left; split; [done|by exists i]|right; by split].
Qed.
Lemma cname_replies (g : Engine (sender:=sender) (F:=Filter) (pool:=pool)) env p res : lists_fit_engine Configs → engine_ok khash loaded g →
  ∃ g', resume_cname try_send g env p res = Some (ErMessage (append_resolved (pc_message p) res), g').
Proof.
  intros Hc Hg. pose proof (loaded_laws chash Configs Hc) as FL.
  destruct (resume_cname_ok khash try_send loaded _ env p res Hg) as (r & g' & E & _). exists g'. rewrite E.
  unfold resume_cname in E. by apply finalize_resp in E as ->.
Qed.

(** C3: the pipeline never panics, as long as every filter it is given is compiled from ASCII
    lists whose rules fit the engine's integer fields.  Whatever queries, upstream answers, refreshes,
    configuration swaps to such filters, cache reconfigurations and snapshot imports happened before, in
    whatever order, every parsed packet is handled to a response or a suspended query,
    every suspended query and every background refresh runs to its end whatever the
    upstream answers, and any snapshot can be imported.  (Outside those limits a query may
    panic: [long_raw_panics].) *)
Theorem pipeline_never_panics (w : World) : lists_fit_engine Configs → reachable w →
  (∀ env cid b ingress ip, ingress_parse b = Some ingress →
     is_Some (handle khash try_send (w_engine w) env cid ingress ip)) ∧
  (∀ env p res, p ∈ w_pending w → is_Some (resume khash try_send (w_engine w) env p res)) ∧
  (∀ env p res, p ∈ w_cnames w → is_Some (resume_cname try_send (w_engine w) env p res)) ∧
  (∀ env t res, t ∈ w_tasks w → is_Some (run_refresh khash (w_engine w) env t res)) ∧
  (∀ fi unix now data, is_Some (import_snapshot khash fi unix now (eg_cache (w_engine w)) data)).
Proof.
  intros Hc Hw. pose proof (loaded_laws chash Configs Hc) as FL.
  destruct (reachable_ok khash try_send loaded w Hw) as [Hg Hp Ht]. split_and!.
  - intros env cid b ing ip Hi.
    destruct (handle_ok khash try_send loaded _ env cid b ing ip Hg Hi) as (r & g' & -> & _). by eexists.
  - intros env p res Hin. rewrite Forall_forall in Hp.
    destruct (resume_ok khash try_send loaded _ env p res Hg (Hp p Hin)) as (r & g' & -> & _). by eexists.
  - intros env p res _. destruct (resume_cname_ok khash try_send loaded _ env p res Hg) as (r & g' & -> & _). by eexists.
  - intros env t res Hin. rewrite Forall_forall in Ht.
    destruct (run_refresh_ok khash loaded _ env t res Hg (Ht t Hin)) as (g' & -> & _). by eexists.
  - intros fi unix now data.
    edestruct (import_snapshot_ok khash (entry_sound loaded) fi unix now (eg_cache (w_engine w)) data)
      as (n & c' & -> & _); [|apply (eo_cache _ _ _ Hg)|by eexists].
    intros k e [Hv _]. unfold entry_sound. by rewrite Hv.
Qed.

(** C4: memoised verdicts are transparent.  In every reachable state, when a query finds an
    entry in the cache, the decision to block it follows from the rules in force: it is the
    decision about the cached answers, for this client, of a filter compiled from the same
    rules as the one in force; so when it lets the entry pass, the linear scan
    over the rules in force admits for every name and address in the answers a verdict other
    than a block, and when it blocks, the scan admits that block for one of them.  It makes no
    difference whether the verdict was computed for another client, under an
    earlier configuration, by an earlier query or by a background refresh that was overtaken
    by a reload.  The lists are ASCII and within the limits, and the standard library's hasher has no
    collision between the contents of the compiled lists; that equal contents mean
    equal rules is proved ([same_contents]). *)
Theorem memoised_verdicts_transparent (w : World) (now id : Z) (key : QueryKey) (hit : CacheHit) (c' : DnsCache) (client : ResolvedClient) :
  lists_fit_engine Configs → no_collision chash Configs → reachable w →
  cache_get khash now (eg_cache (w_engine w)) key id = Some (Some hit, c') →
  let st := eg_state (w_engine w) in let an := cached_answers (ch_response hit) in
  ∃ ls, Configs ls ∧ compiled_from (es_filter st) ls ∧
    if es_filtering_enabled st && rc_filtering_enabled client
    then ∃ f o, from_rules f.1 chash (surviving ls) = Some f.2 ∧ filter_answers f client an = Some o
           ∧ hit_block st client hit = Some o ∧ decided (surviving ls) client an o
    else hit_block st client hit = Some None.
Proof.
  intros Hc Hn Hw Hget st an. pose proof (loaded_laws chash Configs Hc) as FL.
  destruct (reachable_ok khash try_send loaded w Hw) as [Hg _ _]. pose proof (eo_state _ _ _ Hg) as Hst.
  destruct (proj1 Hst) as (ls & Hls & Hf). exists ls. split; [done|]. split; [done|].
  destruct (es_filtering_enabled st && rc_filtering_enabled client) eqn:Hon; [|unfold hit_block; by rewrite Hon].
  assert (Hs : hit_sound loaded hit) by (by eapply (get_sound khash loaded); [apply (eo_cache _ _ _ Hg)|exact Hget]).
  destruct (hit_block_recomputed loaded st client hit Hst Hs Hon) as (f & Hi & Hh & E).
  destruct (filter_answers_total f client an Hi) as [o Ho]. exists f, o.
  pose proof (same_hash_same_rules chash Configs _ ls f Hc Hn Hls Hf Hi Hh) as Hr.
  split_and!; [done..|by rewrite E|]. eapply (decided_spec chash f); [|done|done]. apply compiled_rules_ok; by apply Hc.
Qed.

(** C2: what a client with filtering on is answered.  An immediate reply is made by the server
    itself (an error, the configured block response, or what a rewrite rule says) or is a
    cached response, in wire or message form, for none of whose names and addresses the rules in force
    demand a block: the linear scan admits another verdict for each.  A query that was at the
    pool is answered with an error, with the block response when the filter it was started
    with blocks one of the answers, or otherwise with the upstream's message, for none of
    whose names and addresses the rules it was started with demand a block.  The
    answers appended to the CNAME of an operator's rewrite rule are the upstream's, and are not filtered.
    The lists are ASCII and within the limits, and the hasher of their contents has no collision among them. *)
Theorem blocked_answers_never_served (w : World) : lists_fit_engine Configs → no_collision chash Configs → reachable w →
  (∀ env cid ingress ip resp task g' client,
     handle khash try_send (w_engine w) env cid ingress ip = Some (HrDone resp task, g') →
     let st := eg_state (w_engine w) in
     identify (es_clients st) ip = Some client → es_filtering_enabled st && rc_filtering_enabled client = true →
     immediate_reply (w_engine w) env client resp) ∧
  (∀ env p res, p ∈ w_pending w → es_filtering_enabled (pd_state p) && rc_filtering_enabled (pd_client p) = true →
     ∃ r g', resume khash try_send (w_engine w) env p res = Some (r, g') ∧ pool_reply p res r) ∧
  (∀ env p res, p ∈ w_cnames w → ∃ g', resume_cname try_send (w_engine w) env p res
     = Some (ErMessage (append_resolved (pc_message p) res), g')).
Proof.
  intros Hc Hn Hw. pose proof (loaded_laws chash Configs Hc) as FL.
  destruct (reachable_ok khash try_send loaded w Hw) as [Hg Hp _]. split_and!.
  - intros env cid ing ip resp task g' client Hh st Hid Hf. by eapply handle_replies.
  - intros env p res Hin Hf. rewrite Forall_forall in Hp. by apply resume_replies; [..|apply Hp|].
  - intros env p res _. by apply cname_replies.
Qed.
End claims.

Section upstream.
Context {DL : DnsLib} {DC : DnsCodec} {IL : IpNetLib} {HO : HashOrder}.
Context {L : LruLib QueryKey Entry} (khash : QueryKey → Z).
Context {sender : Type} (try_send : sender → QueryLogEntry → option sender).
Context {F : Type} {FO : FilterOps F} {pool : Type}.

(** C5: only queries that the filter lets pass and the cache cannot answer reach the
    upstream pool: a query that is suspended at the pool was allowed by the filter (or the
    client is not filtered), its key missed the cache, and what is forwarded is the
    decoded packet. *)
Theorem upstream_only_when_allowed (g g' : Engine (sender:=sender) (F:=F) (pool:=pool)) (env : Env) (cid : Z)
    (ingress : Ingress) (ip : ip_addr) (p : Pending) :
  handle khash try_send g env cid ingress ip = Some (HrUpstream p, g') →
  ∃ fields lazy, into_parts ingress = Ok (fields, lazy) ∧ lazy_into_message lazy = Some (pd_query p) ∧
    identify (es_clients (eg_state g)) ip = Some (pd_client p) ∧ pd_state p = eg_state g ∧
    (es_filtering_enabled (eg_state g) && rc_filtering_enabled (pd_client p) = true →
     ∃ rule, f_check (es_filter (eg_state g)) (trim_end_matches "."%char (qf_name_lower fields))
               (rtype_label (qf_rtype fields)) (client_info (pd_client p)) = Some (VAllow rule)) ∧
    fst <$> cache_get khash (ev_now env) (eg_cache g) (pd_key p) (qf_id fields) = Some None.
Proof.
  unfold handle. destruct (identify _ ip) as [client|] eqn:Hid; [|done]. cbn [mbind option_bind].
  destruct (into_parts ingress) as [[fields lazy]|] eqn:Ep; [|done].
  assert (Hno : ∀ m a l, hr_done <$> finalize try_send g env m a l ≠ Some (HrUpstream p, g')).
  { intros m a l. by destruct (finalize _ _ _ _ _ _). }
  assert (Hlook : ∀ log, handle_lookup khash try_send g env (eg_state g) client fields lazy log = Some (HrUpstream p, g') →
    lazy_into_message lazy = Some (pd_query p) ∧ pd_client p = client ∧ pd_state p = eg_state g ∧
    fst <$> cache_get khash (ev_now env) (eg_cache g) (pd_key p) (qf_id fields) = Some None).
  { intros log. unfold handle_lookup. destruct (cache_get _ _ _ _ _) as [[[hit|] c1]|] eqn:Eg; [| |done]; cbn [mbind option_bind].
    - unfold handle_hit. destruct (hit_block _ _ _) as [[info|]|]; [| |done]; cbn [mbind option_bind].
      + destruct (lazy_into_message lazy); [|by destruct (finalize _ _ _ _ _ _)].
        destruct (maybe_refresh _ _ _ _ _ _). destruct (finalize _ _ _ _ _ _) as [[]|]; done.
      + destruct (maybe_refresh _ _ _ _ _ _). destruct (ch_response hit);
          [destruct (finalize_wire _ _ _ _ _ _ _ _) as [[]|]|destruct (finalize _ _ _ _ _ _) as [[]|]]; done.
    - destruct (lazy_into_message lazy) as [q|]; [|by destruct (finalize _ _ _ _ _ _)].
      intros H. injection H as <- <-. simpl. by rewrite Eg. }
  intros Hhandle. exists fields, lazy.
  destruct (es_filtering_enabled (eg_state g) && rc_filtering_enabled client) eqn:Hf.
  - destruct (f_check _ _ _ _) as [v|] eqn:Ec; [|done]. cbn [mbind option_bind] in Hhandle.
    destruct v as [rule|info|info data]; [|by destruct (lazy_into_message lazy); apply Hno in Hhandle|].
    2:{ destruct (lazy_into_message lazy); [|by apply Hno in Hhandle]. by destruct (rewrite_response _ _ _); [apply Hno in Hhandle|]. }
    apply Hlook in Hhandle as (? & -> & ? & ?). split_and!; try done. by exists rule.
  - apply Hlook in Hhandle as (? & Hc & ? & ?). rewrite Hc. split_and!; try done. congruence.
Qed.

End upstream.

(** ** A concrete run *)

(** Two sets of lists: the second drops the rule about an address. *)
Definition pipe_text (rs : list bytes) : bytes := mjoin ((λ r, r ++ [LF]) <$> rs).
Definition pipe_lists : list (Z * bytes * bytes) := [(0%Z, bs "custom", pipe_text [bs "||ads.com^"; bs "||192.0.2.7^"])].
Definition fewer_lists : list (Z * bytes * bytes) := [(0%Z, bs "custom", pipe_text [bs "||ads.com^"])].
Definition pipe_configs (ls : list (Z * bytes * bytes)) : Prop := ls = pipe_lists ∨ ls = fewer_lists.
Definition pipe_chash (l : list (bytes * Z * Action)) : Z := Z.of_nat (length l).
Lemma pipe_fit : lists_fit_engine pipe_configs.
Proof. intros ls [-> | ->]; (split; [vm_compute; repeat constructor|]); apply fits_engine_ok; vm_compute; reflexivity. Qed.
Lemma pipe_no_collision : no_collision pipe_chash pipe_configs.
Proof.
  assert (pipe_chash (contents (surviving pipe_lists)) = 2%Z ∧ pipe_chash (contents (surviving fewer_lists)) = 1%Z) as [E1 E2]
    by (split; vm_compute; reflexivity).
  intros l1 l2 [-> | ->] [-> | ->]; rewrite ?E1, ?E2; done.
Qed.
Definition empty_index : DomainIndex := {| di_map := ∅; di_hits := [] |}.
Definition empty_group : ScanGroup := {| scan_index := ∅; fallback_sets := []; fallback_individual := [] |}.
Definition no_engine : FilterEngine :=
  {| rules := []; raw_arena := []; domain_arena := []; fe_mods := []; regexes := []; exact := empty_index;
     subdomain := empty_index; override_scan := empty_group; block_scan := empty_group;
     has_client_dependent_rules := false; content_hash := 0 |}.
Definition filter_of (ls : list (Z * bytes * bytes)) : (bytes → Z) * FilterEngine :=
  (demo_hash, default no_engine (from_rules demo_hash pipe_chash (surviving ls))).
Definition pipe_filter : (bytes → Z) * FilterEngine := filter_of pipe_lists.
Definition fewer_filter : (bytes → Z) * FilterEngine := filter_of fewer_lists.
Abbreviation pipe_installed := (loaded pipe_chash pipe_configs).
Lemma pipe_loaded : pipe_installed pipe_filter.
Proof.
  exists pipe_lists. split; [by left|].
  apply (is_Some_default (from_rules demo_hash pipe_chash (surviving pipe_lists)) no_engine). vm_compute. reflexivity.
Qed.
Lemma fewer_loaded : pipe_installed fewer_filter.
Proof.
  exists fewer_lists. split; [by right|].
  apply (is_Some_default (from_rules demo_hash pipe_chash (surviving fewer_lists)) no_engine). vm_compute. reflexivity.
Qed.
#[export] Instance pipe_laws : FilterLaws engine_filter pipe_installed := loaded_laws pipe_chash pipe_configs pipe_fit.

Definition pipe_state : EngineState (F:=(bytes → Z) * FilterEngine) (pool:=unit) :=
  {| es_filter := pipe_filter; es_pool := (); es_clients := build_matcher []; es_filtering_enabled := true;
     es_blocking_mode := BmNullIp; es_block_v4 := UNSPECIFIED4; es_block_v6 := UNSPECIFIED6; es_blocked_ttl := 10 |}.
Definition fewer_state : EngineState (F:=(bytes → Z) * FilterEngine) (pool:=unit) :=
  {| es_filter := fewer_filter; es_pool := (); es_clients := build_matcher []; es_filtering_enabled := true;
     es_blocking_mode := BmNullIp; es_block_v4 := UNSPECIFIED4; es_block_v6 := UNSPECIFIED6; es_blocked_ttl := 10 |}.
Lemma pipe_state_ok : state_ok pipe_installed pipe_state.
Proof. split; [exact pipe_loaded|]. by exists []. Qed.
Lemma fewer_state_ok : state_ok pipe_installed fewer_state.
Proof. split; [exact fewer_loaded|]. by exists []. Qed.
Definition pipe_send : list QueryLogEntry → QueryLogEntry → option (list QueryLogEntry) := bounded_send 100.
Definition pipe_world : World (sender:=list QueryLogEntry) (F:=(bytes → Z) * FilterEngine) (pool:=unit) :=
  initial_world (Some 4%Z) 100 0 0 60 30 true false (querylog_new true false) pipe_state.
Abbreviation pipe_reachable := (reachable sample_hash pipe_send (pool:=unit) pipe_installed).
Lemma pipe_world_reachable : pipe_reachable pipe_world.
Proof.
  exists (Some 4%Z), 100, 0%Z, 0%Z, 60%Z, 30%Z, true, false, (querylog_new true false), pipe_state.
  split_and!; [done|done|exact pipe_state_ok|apply rtc_refl].
Qed.

(** A client asks for [cdn]; the upstream answers with an address the filter blocks. *)
Definition pipe_env (secs : Z) : Env :=
  {| ev_now := secs * NANOS; ev_time_ms := 1700000000000; ev_elapsed_ms := f64_of 3; ev_slot := 0 |}.
Definition pipe_client_ip : ip_addr := V4 (Ipv4 (byte_of 10) (byte_of 0) (byte_of 0) (byte_of 1)).
Definition pipe_packet : bytes := default [] (msg_to_vec (set_sections [] [] [] (sample_response (bs "cdn") 300))).
Definition pipe_answer : Resolved :=
  {| rs_message := sample_response (bs "cdn") 300; rs_upstream := bs "up"; rs_rtt_ms := f64_of 2 |}.
Definition pipe_start : option (HandleResult * Engine) :=
  let! i := ingress_parse pipe_packet in handle sample_hash pipe_send (w_engine pipe_world) (pipe_env 0) 7 i pipe_client_ip.
Definition pipe_key : QueryKey :=
  {| k_name := bs "cdn."; k_rtype := RT_A; k_class := CLASS_IN; k_dnssec_ok := false; k_checking_disabled := false |}.
Definition pipe_run : option (Pending * Engine * Engine * CacheHit * DnsCache) :=
  match pipe_start with
  | Some (HrUpstream p, g1) =>
      match resume sample_hash pipe_send g1 (pipe_env 1) p (Ok pipe_answer) with
      | Some (_, g2) =>
          match cache_get sample_hash (5 * NANOS) (eg_cache g2) pipe_key 9 with
          | Some (Some hit, c) => Some (p, g1, g2, hit, c)
          | _ => None
          end
      | None => None
      end
  | _ => None
  end.
Definition pipe_filtered : bool :=
  match pipe_start with
  | Some (HrUpstream p, _) => es_filtering_enabled (pd_state p) && rc_filtering_enabled (pd_client p)
  | _ => false
  end.
Example pipe_run_blocks :
  (λ r, let '(_, _, _, hit, _) := r in
        match ch_verdict hit with Some v => match rv_outcome v with OutBlock i => mi_rule i | OutClean => [] end | None => [] end)
  <$> pipe_run = Some (bs "||192.0.2.7^").
Proof. vm_compute. reflexivity. Qed.

(** The three steps of the run, as equations. *)
Lemma pipe_run_inv :
  ∃ p g1 resp g2 hit c,
    pipe_start = Some (HrUpstream p, g1) ∧
    resume sample_hash pipe_send g1 (pipe_env 1) p (Ok pipe_answer) = Some (resp, g2) ∧
    cache_get sample_hash (5 * NANOS) (eg_cache g2) pipe_key 9 = Some (Some hit, c).
Proof.
  assert (H : is_some pipe_run = true) by (vm_compute; reflexivity). unfold pipe_run in H.
  destruct pipe_start as [[[resp t|p|p] g1]|]; try discriminate H.
  destruct (resume sample_hash pipe_send g1 (pipe_env 1) p (Ok pipe_answer)) as [[resp g2]|] eqn:E2; [|discriminate H].
  destruct (cache_get sample_hash (5 * NANOS) (eg_cache g2) pipe_key 9) as [[[hit|] c]|] eqn:E3; [| |]; try discriminate H.
  exists p, g1, resp, g2, hit, c. split; [reflexivity|]. split; [exact E2|exact E3].
Qed.
Lemma pipe_steps p g1 resp g2 :
  pipe_start = Some (HrUpstream p, g1) →
  resume sample_hash pipe_send g1 (pipe_env 1) p (Ok pipe_answer) = Some (resp, g2) →
  pipe_reachable {| w_engine := g1; w_pending := [p]; w_cnames := []; w_tasks := [] |} ∧
  pipe_reachable {| w_engine := g2; w_pending := []; w_cnames := []; w_tasks := [] |} ∧
  pipe_reachable {| w_engine := swap_state fewer_state g2; w_pending := []; w_cnames := []; w_tasks := [] |}.
Proof.
  intros E1 E2. destruct pipe_world_reachable as (a1 & a2 & a3 & a4 & a5 & a6 & a7 & a8 & a9 & a10 & H1 & H2 & H3 & Hr).
  assert (Hr1 : rtc (step sample_hash pipe_send pipe_installed) pipe_world
    {| w_engine := g1; w_pending := [p]; w_cnames := []; w_tasks := [] |}).
  { apply rtc_once. unfold pipe_start in E1.
    destruct (ingress_parse pipe_packet) as [i|] eqn:Ei; [|discriminate E1]. cbn [mbind option_bind] in E1.
    apply st_serve. exact (st_query _ _ _ pipe_world (pipe_env 0) 7 pipe_packet i pipe_client_ip _ _ Ei E1). }
  assert (Hr2 : step sample_hash pipe_send pipe_installed
    {| w_engine := g1; w_pending := [p]; w_cnames := []; w_tasks := [] |}
    {| w_engine := g2; w_pending := []; w_cnames := []; w_tasks := [] |}).
  { apply st_serve. exact (st_resume sample_hash pipe_send pipe_installed {| w_engine := g1; w_pending := [p]; w_cnames := []; w_tasks := [] |}
      (pipe_env 1) [] p [] (Ok pipe_answer) resp g2 eq_refl E2). }
  pose proof (rtc_r _ _ _ Hr1 Hr2) as Hr3.
  pose proof (rtc_r _ _ _ Hr3 (st_serve _ _ _ _ _ (st_swap sample_hash pipe_send pipe_installed _ _ fewer_state_ok))) as Hr4.
  split_and!; exists a1, a2, a3, a4, a5, a6, a7, a8, a9, a10; (split_and!; [done..|etrans; [exact Hr|done]]).
Qed.

Lemma pipeline_never_panics_witness :
  ∃ i, ingress_parse pipe_packet = Some i
    ∧ is_Some (handle sample_hash pipe_send (w_engine pipe_world) (pipe_env 0) 7 i pipe_client_ip).
Proof.
  destruct (ingress_parse pipe_packet) as [i|] eqn:Ei.
  - exists i. split; [reflexivity|].
    exact (proj1 (pipeline_never_panics sample_hash pipe_send pipe_chash pipe_configs pipe_world pipe_fit pipe_world_reachable)
      (pipe_env 0) 7%Z pipe_packet i pipe_client_ip Ei).
  - exfalso. assert (H : is_some (ingress_parse pipe_packet) = true) by (vm_compute; reflexivity).
    rewrite Ei in H. discriminate H.
Defined.

(** The entry was stored blocked under [pipe_lists]; after the swap to [fewer_lists] it passes. *)
Definition reloaded_hit : option (option MatchInfo) :=
  match pipe_run with Some (_, _, _, hit, _) => hit_block fewer_state placeholder_client hit | None => None end.
Example reloaded_hit_passes : reloaded_hit = Some None.
Proof. vm_compute. reflexivity. Qed.
Lemma memoised_verdicts_transparent_witness :
  ∃ (g : Engine (sender:=list QueryLogEntry) (F:=(bytes → Z) * FilterEngine) (pool:=unit)) hit c ls,
    cache_get sample_hash (5 * NANOS) (eg_cache (swap_state fewer_state g)) pipe_key 9 = Some (Some hit, c) ∧
    pipe_configs ls ∧ compiled_from pipe_chash fewer_filter ls ∧
    ∃ o, hit_block fewer_state placeholder_client hit = Some o
      ∧ decided (surviving ls) placeholder_client (cached_answers (ch_response hit)) o.
Proof.
  destruct pipe_run_inv as (p & g1 & resp & g2 & hit & c & E1 & E2 & E3).
  destruct (memoised_verdicts_transparent sample_hash pipe_send pipe_chash pipe_configs
    {| w_engine := swap_state fewer_state g2; w_pending := []; w_cnames := []; w_tasks := [] |} (5 * NANOS) 9 pipe_key hit c placeholder_client
    pipe_fit pipe_no_collision (proj2 (proj2 (pipe_steps _ _ _ _ E1 E2))) E3) as (ls & Hls & Hf & (f & o & _ & _ & Ho & Hd)).
  exists g2, hit, c, ls. split; [exact E3|]. split; [exact Hls|]. split; [exact Hf|]. exists o. split; [exact Ho|exact Hd].
Defined.

Lemma blocked_answers_never_served_witness :
  ∃ p g1 r g', pipe_start = Some (HrUpstream p, g1) ∧
    resume sample_hash pipe_send g1 (pipe_env 1) p (Ok pipe_answer) = Some (r, g') ∧ pool_reply pipe_chash pipe_configs p (Ok pipe_answer) r.
Proof.
  destruct pipe_run_inv as (p & g1 & resp & g2 & hit & c & E1 & E2 & _). exists p, g1.
  assert (Hf : pipe_filtered = true) by (vm_compute; reflexivity). unfold pipe_filtered in Hf. rewrite E1 in Hf.
  destruct (blocked_answers_never_served sample_hash pipe_send pipe_chash pipe_configs
    {| w_engine := g1; w_pending := [p]; w_cnames := []; w_tasks := [] |} pipe_fit pipe_no_collision (proj1 (pipe_steps _ _ _ _ E1 E2))) as (_ & H & _).
  destruct (H (pipe_env 1) p (Ok pipe_answer) ltac:(by left) Hf) as (r & g' & Hr & Hd).
  exists r, g'. split; [exact E1|]. split; [exact Hr|exact Hd].
Defined.

Lemma upstream_only_when_allowed_witness :
  ∃ i p g1, handle sample_hash pipe_send (w_engine pipe_world) (pipe_env 0) 7 i pipe_client_ip = Some (HrUpstream p, g1) ∧
    ∃ fields lazy, into_parts i = Ok (fields, lazy) ∧
      fst <$> cache_get sample_hash (ev_now (pipe_env 0)) (eg_cache (w_engine pipe_world)) (pd_key p) (qf_id fields) = Some None.
Proof.
  destruct pipe_run_inv as (p & g1 & _ & _ & _ & _ & E1 & _ & _). unfold pipe_start in E1.
  destruct (ingress_parse pipe_packet) as [i|]; [|discriminate E1]. cbn [mbind option_bind] in E1.
  exists i, p, g1. split; [exact E1|].
  destruct (upstream_only_when_allowed sample_hash pipe_send (w_engine pipe_world) g1 (pipe_env 0) 7 i pipe_client_ip p E1)
    as (fields & lazy & Hp & _ & _ & _ & _ & Hget).
  exists fields, lazy. split; [exact Hp|exact Hget].
Defined.
