(* ===== verification/Spec.v ===== *)
(** * bulwark-upstream: upstream specifications ([crates/bulwark-upstream/src/spec.rs] and
    the error type of [error.rs]).  Host names are lowercased byte-wise in [identity]: the
    source's Unicode [to_lowercase] agrees on ASCII. *)
From Stdlib Require Import Ascii.
From S2P Require Import Prelude RustStr RustNet.

(** [UpstreamError]. *)
Inductive UpstreamError : Type :=
| UeTimeout
| UeIo (s : bytes)
| UeProto (s : bytes)
| UeRcode (s : bytes)
| UeTls (s : bytes)
| UeQuic (s : bytes)
| UeHttp (s : bytes)
| UeBootstrap (s : bytes)
| UeNoUpstreams
| UeAllFailed (last : UpstreamError)
| UeInvalidSpec (s : bytes).

(** [UpstreamError]'s [Display]. *)
Fixpoint show_error (e : UpstreamError) : bytes :=
  match e with
  | UeTimeout => bs "timed out"
  | UeIo s => bs "i/o error: " ++ s
  | UeProto s => bs "dns protocol error: " ++ s
  | UeRcode s => bs "upstream returned " ++ s
  | UeTls s => bs "tls error: " ++ s
  | UeQuic s => bs "quic error: " ++ s
  | UeHttp s => bs "http error: " ++ s
  | UeBootstrap s => bs "bootstrap failed to resolve " ++ s
  | UeNoUpstreams => bs "no upstreams configured"
  | UeAllFailed e => bs "all upstreams failed; last error: " ++ show_error e
  | UeInvalidSpec s => bs "invalid upstream spec: " ++ s
  end.

(** [TransportKind]. *)
Inductive TransportKind : Type := TkUdp | TkTcp | TkTls | TkHttps | TkQuic.
#[export] Instance TransportKind_eq_dec : EqDecision TransportKind.
Proof. solve_decision. Defined.
Definition default_port (k : TransportKind) : Z :=
  match k with TkUdp | TkTcp => 53 | TkTls | TkQuic => 853 | TkHttps => 443 end.
Definition kind_as_str (k : TransportKind) : bytes :=
  match k with TkUdp => bs "udp" | TkTcp => bs "tcp" | TkTls => bs "tls" | TkHttps => bs "https" | TkQuic => bs "quic" end.
Definition kind_from_label (s : bytes) : TransportKind :=
  if bool_decide (s = bs "tcp") then TkTcp
  else if bool_decide (s = bs "tls") then TkTls
  else if bool_decide (s = bs "https") then TkHttps
  else if bool_decide (s = bs "quic") then TkQuic
  else TkUdp.

(** [Host] and its [Display]. *)
Inductive Host : Type := HostIp (ip : ip_addr) | HostName (name : bytes).
Definition host_as_ip (h : Host) : option ip_addr := match h with HostIp ip => Some ip | HostName _ => None end.
Definition show_host (h : Host) : bytes := match h with HostIp ip => show_ip ip | HostName n => n end.

(** [UpstreamSpec]. *)
Record UpstreamSpec : Type := {
  us_kind : TransportKind; us_host : Host; us_port : Z; us_path : bytes; us_force_http3 : bool; us_display : bytes;
}.

(** [split_host_port]. *)
Definition parse_port (p : bytes) : result Z UpstreamError :=
  ok_or (parse_uint 16 p) (UeInvalidSpec (bs "bad port " ++ p)).
Definition split_host_port (s : bytes) (dport : Z) : result (Host * Z) UpstreamError :=
  match strip_prefix (bs "[") s with
  | Some rest =>
      let? (ip_str, after) := ok_or (split_once "]"%char rest) (UeInvalidSpec (bs "unterminated [ in " ++ s)) in
      let? ip := ok_or (parse_ip ip_str) (UeInvalidSpec (bs "bad IPv6 " ++ ip_str)) in
      let? port := match strip_prefix (bs ":") after with Some p => parse_port p | None => Ok dport end in
      Ok (HostIp ip, port)
  | None =>
      match parse_ip s with
      | Some ip => Ok (HostIp ip, dport)
      | None =>
          match rsplit_once ":"%char s with
          | Some (h, p) =>
              let? port := parse_port p in
              Ok (match parse_ip h with Some ip => HostIp ip | None => HostName h end, port)
          | None => Ok (HostName s, dport)
          end
      end
  end.

(** [UpstreamSpec::parse]. *)
Definition scheme_of (scheme : bytes) : option (TransportKind * bool) :=
  if bool_decide (scheme = bs "udp") then Some (TkUdp, false)
  else if bool_decide (scheme = bs "tcp") then Some (TkTcp, false)
  else if bool_decide (scheme = bs "tls") then Some (TkTls, false)
  else if bool_decide (scheme = bs "https") then Some (TkHttps, false)
  else if bool_decide (scheme = bs "h3") then Some (TkHttps, true)
  else if bool_decide (scheme = bs "quic") then Some (TkQuic, false)
  else None.
Definition spec_parse (input : bytes) : result UpstreamSpec UpstreamError :=
  let s := trim input in
  if bool_decide (s = []) then Err (UeInvalidSpec (bs "empty"))
  else
    let? (kind, force_http3, rest) :=
      match split_once_str (bs "://") s with
      | Some (scheme, r) =>
          match scheme_of scheme with
          | Some (k, h3) => Ok (k, h3, r)
          | None => Err (UeInvalidSpec (bs "unknown scheme " ++ scheme))
          end
      | None => Ok (TkUdp, false, s)
      end in
    let '(authority, path) := match split_once "/"%char rest with
                              | Some (a, p) => (a, bs "/" ++ p)
                              | None => (rest, bs "/dns-query")
                              end in
    let? (host, port) := split_host_port authority (default_port kind) in
    Ok {| us_kind := kind; us_host := host; us_port := port; us_path := path; us_force_http3 := force_http3;
          us_display := s |}.

(** [server_name] and [identity]. *)
Definition server_name (s : UpstreamSpec) : bytes := show_host (us_host s).
Definition identity (s : UpstreamSpec) : bytes :=
  let host := match us_host s with
              | HostIp (V6 ip) => bs "[" ++ show_ip (V6 ip) ++ bs "]"
              | h => to_ascii_lowercase (show_host h)
              end in
  kind_as_str (us_kind s) ++ bs "://" ++ host ++ bs ":" ++ show_dec (us_port s) ++ us_path s
  ++ (if us_force_http3 s then bs "+h3" else []).

(** ** Tests of the source, evaluated *)

Definition endpoint (r : result UpstreamSpec UpstreamError) : option (TransportKind * bytes * Z * bytes * bool) :=
  match r with
  | Ok s => Some (us_kind s, show_host (us_host s), us_port s, us_path s, us_force_http3 s)
  | Err _ => None
  end.
Example spec_tests :
  (endpoint ∘ spec_parse ∘ bs)
    <$> ["8.8.8.8"; "8.8.8.8:5353"; "tls://dns.google"; "https://dns.google/dns-query"; "h3://dns.google/q";
         "[2001:db8::1]:5353"; "2001:db8::1"; "quic://dns.adguard.com:784"; "ftp://x"; "tls://h:70000"]
  = [Some (TkUdp, bs "8.8.8.8", 53%Z, bs "/dns-query", false); Some (TkUdp, bs "8.8.8.8", 5353%Z, bs "/dns-query", false);
     Some (TkTls, bs "dns.google", 853%Z, bs "/dns-query", false);
     Some (TkHttps, bs "dns.google", 443%Z, bs "/dns-query", false);
     Some (TkHttps, bs "dns.google", 443%Z, bs "/q", true);
     Some (TkUdp, bs "2001:db8::1", 5353%Z, bs "/dns-query", false);
     Some (TkUdp, bs "2001:db8::1", 53%Z, bs "/dns-query", false);
     Some (TkQuic, bs "dns.adguard.com", 784%Z, bs "/dns-query", false); None; None].
Proof. vm_compute. reflexivity. Qed.

(** ** Decimal numbers *)

Lemma is_digit_digit n : (0 <= n < 10)%Z → is_ascii_digit (digit n) = true ∧ (u8 (digit n) - 48 = n)%Z.
Proof.
  intros H. unfold is_ascii_digit, digit. rewrite u8_byte_of, Z.mod_small by lia.
  split; [|lia]. apply andb_true_intro. split; apply Z.leb_le; lia.
Qed.
Lemma digits_val_dec fuel n acc :
  (0 <= n < 10 ^ Z.of_nat fuel)%Z → digits_val 0 (dec_digits fuel n acc) = digits_val n acc.
Proof.
  revert n acc. induction fuel as [|fuel IH]; intros n acc Hn.
  { change (10 ^ Z.of_nat 0)%Z with 1%Z in Hn. assert (n = 0%Z) as -> by lia. done. }
  cbn [dec_digits]. destruct (Z.ltb_spec n 10).
  - cbn [digits_val]. destruct (is_digit_digit n ltac:(lia)) as [-> E]. f_equal. lia.
  - rewrite Nat2Z.inj_succ, Z.pow_succ_r in Hn by lia.
    rewrite IH by (split; [apply Z.div_pos; lia|apply Z.div_lt_upper_bound; lia]).
    cbn [digits_val]. destruct (is_digit_digit (n mod 10) (Z.mod_pos_bound n 10 ltac:(lia))) as [-> ->].
    f_equal. pose proof (Z.div_mod n 10 ltac:(lia)). lia.
Qed.
Lemma dec_digits_ne fuel n acc : acc ≠ [] → dec_digits fuel n acc ≠ [].
Proof.
  revert n acc. induction fuel as [|fuel IH]; intros n acc H; simpl; [done|]. destruct (_ <? _)%Z; [done|]. by apply IH.
Qed.
Lemma dec_digits_digits fuel n acc :
  (0 <= n)%Z → Forall (λ b, is_ascii_digit b = true) acc → Forall (λ b, is_ascii_digit b = true) (dec_digits fuel n acc).
Proof.
  revert n acc. induction fuel as [|fuel IH]; intros n acc Hn Hacc; simpl; [done|]. destruct (Z.ltb_spec n 10).
  - constructor; [|done]. apply is_digit_digit. lia.
  - apply IH; [apply Z.div_pos; lia|]. constructor; [|done]. apply is_digit_digit, Z.mod_pos_bound. lia.
Qed.
Lemma show_dec_digits n : (0 <= n)%Z → Forall (λ b, is_ascii_digit b = true) (show_dec n).
Proof. intros H. by apply dec_digits_digits. Qed.

Lemma show_dec_value n : (0 <= n)%Z → digits_val 0 (show_dec n) = Some n ∧ show_dec n ≠ [].
Proof.
  intros H0. assert (Hlt : (n < 10 ^ Z.of_nat (S (Z.to_nat (Z.log2 n))))%Z).
  { destruct (decide (n = 0%Z)) as [->|]; [done|]. pose proof (Z.log2_spec n ltac:(lia)) as [_ H]. pose proof (Z.log2_nonneg n).
    rewrite Nat2Z.inj_succ, Z2Nat.id by done. eapply Z.lt_le_trans; [exact H|]. apply Z.pow_le_mono_l. lia. }
  split.
  - pose proof (digits_val_dec (S (Z.to_nat (Z.log2 n))) n [] (conj H0 Hlt)) as Hv. exact Hv.
  - unfold show_dec. cbn [dec_digits]. destruct (_ <? _)%Z; [done|]. by apply dec_digits_ne.
Qed.
Lemma parse_show_dec w n : in_u w n → parse_uint w (show_dec n) = Some n.
Proof.
  intros [H0 H1]. unfold parse_uint. destruct (show_dec_value n H0) as [Hv Hne].
  pose proof (show_dec_digits n H0) as Hd.
  destruct (show_dec n) as [|b s] eqn:E; [done|]. apply Forall_cons in Hd as [Hb _].
  assert (Hp : strip_prefix (bs "+") (b :: s) = None).
  { unfold strip_prefix, starts_with. simpl. rewrite bool_decide_false; [done|]. intros Heq. injection Heq as ->. by vm_compute in Hb. }
  rewrite Hp, Hv. cbn [mbind option_bind]. by rewrite (proj2 (Z.ltb_lt _ _)).
Qed.

(** ** Splitting a text that was put together *)

Lemma find_byte_app c a b : c ∉ a → find_byte c (a ++ c :: b) = Some (length a).
Proof.
  induction a as [|x a IH]; intros H; simpl; [by rewrite bool_decide_true|].
  apply not_elem_of_cons in H as [Hx Ha]. rewrite bool_decide_false by congruence. by rewrite IH.
Qed.
Lemma split_once_app c a b : c ∉ a → split_once c (a ++ c :: b) = Some (a, b).
Proof.
  intros H. unfold split_once. rewrite (find_byte_app c a b H). cbn [fmap option_fmap option_map].
  f_equal. f_equal; [by rewrite take_app_length|]. rewrite (cons_middle c), app_assoc.
  replace (S (length a)) with (length (a ++ [c])) by (rewrite length_app; simpl; lia). apply drop_app_length.
Qed.
Lemma rsplit_once_app c a b : c ∉ b → rsplit_once c (a ++ c :: b) = Some (a, b).
Proof.
  intros H. unfold rsplit_once. rewrite reverse_app, reverse_cons, <- app_assoc. simpl.
  rewrite find_byte_app by (by rewrite elem_of_reverse). cbn [fmap option_fmap option_map].
  rewrite length_reverse, length_app. simpl. f_equal. f_equal.
  - replace (length a + S (length b) - S (length b)) with (length a) by lia. by rewrite take_app_length.
  - rewrite (cons_middle c), app_assoc.
    replace (length a + S (length b) - length b) with (length (a ++ [c])) by (rewrite length_app; simpl; lia). apply drop_app_length.
Qed.
Lemma starts_with_cons x p y s : starts_with (x :: p) (y :: s) = bool_decide (y = x) && starts_with p s.
Proof.
  unfold starts_with. simpl. destruct (decide (y = x)) as [->|Hne].
  - rewrite (bool_decide_true (x = x)) by done. simpl. apply bool_decide_ext. split; [by intros [= ?]|by intros ->].
  - rewrite (bool_decide_false (y = x)) by done. simpl. apply bool_decide_false. by intros [= ??].
Qed.
Lemma find_str_app x p a b : x ∉ a → find_str (x :: p) (a ++ (x :: p) ++ b) = Some (length a).
Proof.
  induction a as [|y a IH]; intros H.
  - cbn [app find_str]. unfold starts_with. rewrite bool_decide_true; [done|]. simpl. by rewrite take_app_length.
  - apply not_elem_of_cons in H as [Hy Ha]. change ((y :: a) ++ ?r) with (y :: a ++ r). cbn [find_str].
    rewrite starts_with_cons, bool_decide_false by congruence. simpl. change (x :: p ++ b) with ((x :: p) ++ b).
    by rewrite IH.
Qed.
Lemma split_once_str_app x p a b : x ∉ a → split_once_str (x :: p) (a ++ (x :: p) ++ b) = Some (a, b).
Proof.
  intros H. unfold split_once_str. rewrite (find_str_app x p a b H). cbn [fmap option_fmap option_map].
  rewrite take_app_length, app_assoc, <- length_app, drop_app_length. done.
Qed.

(** ** The canonical text of an endpoint *)

Definition scheme_text (k : TransportKind) (h3 : bool) : bytes := if h3 then bs "h3" else kind_as_str k.
Definition endpoint_text (k : TransportKind) (h3 : bool) (h : bytes) (port : Z) (path : bytes) : bytes :=
  scheme_text k h3 ++ bs "://" ++ h ++ bs ":" ++ show_dec port ++ path.
Record endpoint_ok (k : TransportKind) (h3 : bool) (h : bytes) (port : Z) (path : bytes) : Prop := {
  eo_h3 : h3 = true → k = TkHttps;
  eo_slash : ("/"%char : byte) ∉ h;
  eo_bracket : strip_prefix (bs "[") (h ++ bs ":" ++ show_dec port) = None;
  eo_name : parse_ip h = None;
  eo_pair : parse_ip (h ++ bs ":" ++ show_dec port) = None;
  eo_port : in_u 16 port;
  eo_path : ∃ p, path = bs "/" ++ p;
  eo_trim : trim (endpoint_text k h3 h port path) = endpoint_text k h3 h port path;
}.

Lemma digits_without c n : (0 <= n)%Z → is_ascii_digit c = false → c ∉ show_dec n.
Proof. intros Hn Hc Hin. pose proof (show_dec_digits n Hn) as H. rewrite Forall_forall in H. by rewrite (H c Hin) in Hc. Qed.
Lemma scheme_of_text k h3 : (h3 = true → k = TkHttps) → scheme_of (scheme_text k h3) = Some (k, h3).
Proof. destruct h3; intros H; [by rewrite (H eq_refl)|]. by destruct k. Qed.

(** A specification with a host name is read back from its canonical text: the
    scheme (the pinned HTTP/3 one included), the host, the port and the path are the ones
    the text was written with, and the display text is the text itself. *)
Theorem spec_parse_roundtrip (k : TransportKind) (h3 : bool) (h : bytes) (port : Z) (path : bytes) :
  endpoint_ok k h3 h port path →
  spec_parse (endpoint_text k h3 h port path)
  = Ok {| us_kind := k; us_host := HostName h; us_port := port; us_path := path; us_force_http3 := h3;
          us_display := endpoint_text k h3 h port path |}.
Proof.
  intros []. unfold spec_parse. rewrite eo_trim0. destruct eo_path0 as [p ->]. destruct eo_port0 as [Hp0 Hp1].
  rewrite bool_decide_false by (destruct h3, k; done). unfold endpoint_text at 1.
  change (bs "://") with (":"%char :: bs "//").
  rewrite split_once_str_app by (destruct h3, k; apply (bool_decide_unpack _); vm_compute; done).
  rewrite scheme_of_text by done. cbn [result_bind].
  assert (Esl : h ++ bs ":" ++ show_dec port ++ bs "/" ++ p = (h ++ bs ":" ++ show_dec port) ++ "/"%char :: p)
    by (by rewrite <- !app_assoc).
  rewrite Esl, split_once_app.
  2:{ rewrite !not_elem_of_app. split_and!; [done|by apply (bool_decide_unpack _); vm_compute|by apply digits_without]. }
  unfold split_host_port. rewrite eo_bracket0, eo_pair0. change (bs ":" ++ ?x) with (":"%char :: x).
  rewrite rsplit_once_app by (by apply digits_without). unfold parse_port.
  rewrite parse_show_dec by done. cbn [ok_or result_bind]. by rewrite eo_name0.
Qed.

Lemma spec_parse_roundtrip_witness :
  spec_parse (bs "h3://dns.google:8443/q")
  = Ok {| us_kind := TkHttps; us_host := HostName (bs "dns.google"); us_port := 8443; us_path := bs "/q";
          us_force_http3 := true; us_display := bs "h3://dns.google:8443/q" |}.
Proof.
  apply (spec_parse_roundtrip TkHttps true (bs "dns.google") 8443 (bs "/q")). constructor.
  - done.
  - apply (bool_decide_unpack _). vm_compute. done.
  - vm_compute. reflexivity.
  - vm_compute. reflexivity.
  - vm_compute. reflexivity.
  - unfold in_u. lia.
  - by exists (bs "q").
  - vm_compute. reflexivity.
Defined.

(** What the specification parser accepts although it denotes no endpoint: a scheme
    with nothing behind it and a bare port give an upstream with an empty host name, and
    text between a bracketed address and the port is dropped without an error. *)
Theorem spec_accepts_no_host :
  endpoint (spec_parse (bs "tls://")) = Some (TkTls, [], 853%Z, bs "/dns-query", false) ∧
  endpoint (spec_parse (bs ":53")) = Some (TkUdp, [], 53%Z, bs "/dns-query", false) ∧
  endpoint (spec_parse (bs "[2001:db8::1]5353")) = Some (TkUdp, bs "2001:db8::1", 53%Z, bs "/dns-query", false).
Proof. vm_compute. split_and!; reflexivity. Qed.

(** The identity by which a reload carries health over is not unique: a path that ends
    in [+h3] over negotiated HTTP has the identity of the same path pinned to HTTP/3. *)
Theorem identity_collision :
  let a := spec_parse (bs "https://dns.google/q+h3") in
  let b := spec_parse (bs "h3://dns.google/q") in
  endpoint a ≠ endpoint b ∧ identity <$> result_ok a = identity <$> result_ok b ∧ is_some (result_ok a) = true.
Proof. vm_compute. split_and!; [discriminate|reflexivity|reflexivity]. Qed.
