(* ===== verification/ProbeLog.v ===== *)
(** * bulwark-upstream: probe telemetry ([crates/bulwark-upstream/src/probe_log.rs]).

    The writer channel is a parameter: [try_send] returns the channel with the event queued,
    or [None] when the channel is full or closed. *)
From Stdlib Require Import Ascii SpecFloat.
From S2P Require Import Prelude RustStr RustFloat Spec.

(** [ProbeOutcome]. *)
Inductive ProbeOutcome : Type := PoAnswer | PoMeasureFail | PoReject | PoSoftFail | PoTimeout | PoError.
#[export] Instance ProbeOutcome_eq_dec : EqDecision ProbeOutcome.
Proof. solve_decision. Defined.
Definition outcome_as_str (o : ProbeOutcome) : bytes :=
  match o with
  | PoAnswer => bs "answer" | PoMeasureFail => bs "measure_fail" | PoReject => bs "reject"
  | PoSoftFail => bs "soft_fail" | PoTimeout => bs "timeout" | PoError => bs "error"
  end.
Definition outcome_from_label (s : bytes) : ProbeOutcome :=
  if bool_decide (s = bs "answer") then PoAnswer
  else if bool_decide (s = bs "measure_fail") then PoMeasureFail
  else if bool_decide (s = bs "reject") then PoReject
  else if bool_decide (s = bs "soft_fail") then PoSoftFail
  else if bool_decide (s = bs "timeout") then PoTimeout
  else PoError.

(** [ProbeErrorKind]. *)
Inductive ProbeErrorKind : Type := PkTimeout | PkRcode | PkIo | PkTls | PkQuic | PkHttp | PkProto | PkBootstrap | PkOther.
#[export] Instance ProbeErrorKind_eq_dec : EqDecision ProbeErrorKind.
Proof. solve_decision. Defined.
Definition error_kind_as_str (k : ProbeErrorKind) : bytes :=
  match k with
  | PkTimeout => bs "timeout" | PkRcode => bs "rcode" | PkIo => bs "io" | PkTls => bs "tls" | PkQuic => bs "quic"
  | PkHttp => bs "http" | PkProto => bs "proto" | PkBootstrap => bs "bootstrap" | PkOther => bs "other"
  end.
Definition error_kind_from_label (s : bytes) : ProbeErrorKind :=
  if bool_decide (s = bs "timeout") then PkTimeout
  else if bool_decide (s = bs "rcode") then PkRcode
  else if bool_decide (s = bs "io") then PkIo
  else if bool_decide (s = bs "tls") then PkTls
  else if bool_decide (s = bs "quic") then PkQuic
  else if bool_decide (s = bs "http") then PkHttp
  else if bool_decide (s = bs "proto") then PkProto
  else if bool_decide (s = bs "bootstrap") then PkBootstrap
  else PkOther.
Fixpoint error_kind_from_error (e : UpstreamError) : ProbeErrorKind :=
  match e with
  | UeTimeout => PkTimeout
  | UeRcode _ => PkRcode
  | UeIo _ => PkIo
  | UeTls _ => PkTls
  | UeQuic _ => PkQuic
  | UeHttp _ => PkHttp
  | UeProto _ => PkProto
  | UeBootstrap _ => PkBootstrap
  | UeAllFailed inner => error_kind_from_error inner
  | UeNoUpstreams | UeInvalidSpec _ => PkOther
  end.

(** [ProbeEvent]. *)
Record ProbeEvent : Type := {
  pe_time_ms : Z; pe_upstream : bytes; pe_name : bytes; pe_kind : TransportKind; pe_outcome : ProbeOutcome;
  pe_rtt_ms : option f64; pe_first_rtt_ms : option f64; pe_ewma_ms : option f64; pe_up : bool;
  pe_consecutive_failures : Z; pe_detail : option bytes; pe_error_kind : option ProbeErrorKind;
  pe_live_ewma_ms : option f64; pe_live_queries : Z; pe_live_failures : Z; pe_rank : option Z; pe_lead_held : bool;
}.

Section probe_log.
Context {sender : Type} (try_send : sender → ProbeEvent → option sender).

(** [ProbeLog]. *)
Record ProbeLog : Type := { plog_enabled : bool; plog_sink : option sender; plog_dropped : Z }.
Definition probelog_new (enabled : bool) : ProbeLog :=
  {| plog_enabled := enabled; plog_sink := None; plog_dropped := 0 |}.
Definition probelog_set_sink (tx : sender) (l : ProbeLog) : ProbeLog :=
  {| plog_enabled := plog_enabled l; plog_sink := Some tx; plog_dropped := plog_dropped l |}.
Definition probelog_reconfigure (enabled : bool) (l : ProbeLog) : ProbeLog :=
  {| plog_enabled := enabled; plog_sink := plog_sink l; plog_dropped := plog_dropped l |}.
Definition probelog_push (event : ProbeEvent) (l : ProbeLog) : ProbeLog :=
  if negb (plog_enabled l) then l
  else match plog_sink l with
       | None => l
       | Some tx =>
           match try_send tx event with
           | Some tx' => {| plog_enabled := plog_enabled l; plog_sink := Some tx'; plog_dropped := plog_dropped l |}
           | None => {| plog_enabled := plog_enabled l; plog_sink := Some tx;
                        plog_dropped := wrap 64 (plog_dropped l + 1) |}
           end
       end.
End probe_log.

(** The stored labels read back. *)
Lemma probe_labels_roundtrip :
  (∀ o, outcome_from_label (outcome_as_str o) = o) ∧ (∀ k, error_kind_from_label (error_kind_as_str k) = k)
  ∧ (∀ k, kind_from_label (kind_as_str k) = k).
Proof. split_and!; intros []; vm_compute; reflexivity. Qed.
