(* ===== verification/Pool.v ===== *)
(** * bulwark-upstream: the upstream pool ([crates/bulwark-upstream/src/pool.rs]).

    An upstream is its position in the pool ([Arc::ptr_eq] is equality of positions); the
    healths, each behind its own lock, are a vector of the same length.  Instants and
    durations are nanoseconds.  What a transport returns, the clock and the random draws of
    [jitter] are inputs: [Attempt] is the outcome of one timed query, [Draw] the instant at
    which a lock is held with the delays the random generator picks.  Counters wrap at their
    width, as in the release profile.  Concurrent calls of [resolve] interleave at the points
    where the code releases its locks or awaits. *)
From Stdlib Require Import Ascii SpecFloat.
From S2P Require Import Prelude RustStr RustNet RustFloat Dns Cache Engine Spec ProbeLog.

(** ** Settings and constants *)

(** [PoolSettings], less the bootstrap servers. *)
Record PoolSettings : Type := { ps_query_timeout : Z; ps_ewma_alpha : f64; ps_failure_threshold : Z }.
Definition pool_settings_default : PoolSettings :=
  {| ps_query_timeout := 5 * NANOS; ps_ewma_alpha := f64_lit 1 5; ps_failure_threshold := 2 |}.
Definition LEAD_PROBE_WINDOW : Z := 180 * NANOS.
Definition BENCH_PROBE_WINDOW : Z := 900 * NANOS.
Definition LEAD_PROBE_RANKS : Z := 2.
Definition DOWN_PROBE_BASE_SECS : Z := 5.
Definition DOWN_PROBE_MAX : Z := 60 * NANOS.
Definition STARTUP_PROBE_SPREAD : Z := 2 * NANOS.
Definition LEADER_STICKY_FRACTION : f64 := f64_lit 15 100.
Definition LEADER_STICKY_FLOOR_MS : f64 := f64_of 5.

(** [healthy_probe_window]. *)
Definition healthy_probe_window (rank : option Z) : Z :=
  match rank with
  | Some r => if (LEAD_PROBE_RANKS <=? r)%Z then BENCH_PROBE_WINDOW else LEAD_PROBE_WINDOW
  | None => LEAD_PROBE_WINDOW
  end.
(** [retry_backoff]; the shift is of a 64-bit number by at most 16. *)
Definition retry_backoff (consecutive_failures : Z) : Z :=
  let steps := Z.min (Z.max 0 (consecutive_failures - 1)) 16 in
  Z.min (wrap 64 (Z.shiftl DOWN_PROBE_BASE_SECS steps) * NANOS) DOWN_PROBE_MAX.
(** [switch_margin] and [ewma]. *)
Definition switch_margin (incumbent_ms : f64) : f64 :=
  f64_max (f64_mul incumbent_ms LEADER_STICKY_FRACTION) LEADER_STICKY_FLOOR_MS.
Definition ewma (samples : Z) (prev_ms sample_ms alpha : f64) : f64 :=
  if (samples =? 0)%Z then sample_ms
  else f64_add (f64_mul alpha sample_ms) (f64_mul (f64_sub (f64_of 1) alpha) prev_ms).

(** What an update reads from the clock and the random generator: the jittered and the
    startup delay drawn for a base delay. *)
Record Draw : Type := { dw_now : Z; dw_jitter : Z → Z; dw_startup : Z → Z }.
(** The ranges of [jitter] and [startup_delay]: within a quarter of the delay, and below it. *)
Definition draw_ok (d : Draw) : Prop :=
  (∀ z, (0 <= z)%Z → (3 * z <= 4 * dw_jitter d z <= 5 * z)%Z) ∧ (∀ z, (0 <= z)%Z → (0 <= dw_startup d z <= z)%Z).

(** ** Health *)

Record Health : Type := {
  h_probe_ewma_ms : f64; h_probe_samples : Z; h_probe_at : option Z; h_up : bool; h_consecutive_failures : Z;
  h_total_queries : Z; h_total_failures : Z; h_last_rtt_ms : option f64; h_live_ewma_ms : f64; h_live_samples : Z;
  h_last_rank : option Z; h_lead_held : bool; h_last_error : option bytes; h_next_probe_at : option Z;
}.
Definition health_default : Health :=
  {| h_probe_ewma_ms := f64_zero; h_probe_samples := 0; h_probe_at := None; h_up := true; h_consecutive_failures := 0;
     h_total_queries := 0; h_total_failures := 0; h_last_rtt_ms := None; h_live_ewma_ms := f64_zero;
     h_live_samples := 0; h_last_rank := None; h_lead_held := false; h_last_error := None; h_next_probe_at := None |}.

(** Field updates. *)
Definition h_set_liveness (up : bool) (cf : Z) (err : option bytes) (h : Health) : Health :=
  {| h_probe_ewma_ms := h_probe_ewma_ms h; h_probe_samples := h_probe_samples h; h_probe_at := h_probe_at h;
     h_up := up; h_consecutive_failures := cf; h_total_queries := h_total_queries h;
     h_total_failures := h_total_failures h; h_last_rtt_ms := h_last_rtt_ms h; h_live_ewma_ms := h_live_ewma_ms h;
     h_live_samples := h_live_samples h; h_last_rank := h_last_rank h; h_lead_held := h_lead_held h;
     h_last_error := err; h_next_probe_at := h_next_probe_at h |}.
Definition h_set_counts (queries failures : Z) (h : Health) : Health :=
  {| h_probe_ewma_ms := h_probe_ewma_ms h; h_probe_samples := h_probe_samples h; h_probe_at := h_probe_at h;
     h_up := h_up h; h_consecutive_failures := h_consecutive_failures h; h_total_queries := queries;
     h_total_failures := failures; h_last_rtt_ms := h_last_rtt_ms h; h_live_ewma_ms := h_live_ewma_ms h;
     h_live_samples := h_live_samples h; h_last_rank := h_last_rank h; h_lead_held := h_lead_held h;
     h_last_error := h_last_error h; h_next_probe_at := h_next_probe_at h |}.
Definition h_set_live (last : option f64) (avg : f64) (samples : Z) (h : Health) : Health :=
  {| h_probe_ewma_ms := h_probe_ewma_ms h; h_probe_samples := h_probe_samples h; h_probe_at := h_probe_at h;
     h_up := h_up h; h_consecutive_failures := h_consecutive_failures h; h_total_queries := h_total_queries h;
     h_total_failures := h_total_failures h; h_last_rtt_ms := last; h_live_ewma_ms := avg; h_live_samples := samples;
     h_last_rank := h_last_rank h; h_lead_held := h_lead_held h; h_last_error := h_last_error h;
     h_next_probe_at := h_next_probe_at h |}.
Definition h_set_probe (avg : f64) (samples : Z) (at_ : option Z) (h : Health) : Health :=
  {| h_probe_ewma_ms := avg; h_probe_samples := samples; h_probe_at := at_; h_up := h_up h;
     h_consecutive_failures := h_consecutive_failures h; h_total_queries := h_total_queries h;
     h_total_failures := h_total_failures h; h_last_rtt_ms := h_last_rtt_ms h; h_live_ewma_ms := h_live_ewma_ms h;
     h_live_samples := h_live_samples h; h_last_rank := h_last_rank h; h_lead_held := h_lead_held h;
     h_last_error := h_last_error h; h_next_probe_at := h_next_probe_at h |}.
Definition h_set_next (next : option Z) (h : Health) : Health :=
  {| h_probe_ewma_ms := h_probe_ewma_ms h; h_probe_samples := h_probe_samples h; h_probe_at := h_probe_at h;
     h_up := h_up h; h_consecutive_failures := h_consecutive_failures h; h_total_queries := h_total_queries h;
     h_total_failures := h_total_failures h; h_last_rtt_ms := h_last_rtt_ms h; h_live_ewma_ms := h_live_ewma_ms h;
     h_live_samples := h_live_samples h; h_last_rank := h_last_rank h; h_lead_held := h_lead_held h;
     h_last_error := h_last_error h; h_next_probe_at := next |}.
Definition h_set_rank (rank : option Z) (held : bool) (h : Health) : Health :=
  {| h_probe_ewma_ms := h_probe_ewma_ms h; h_probe_samples := h_probe_samples h; h_probe_at := h_probe_at h;
     h_up := h_up h; h_consecutive_failures := h_consecutive_failures h; h_total_queries := h_total_queries h;
     h_total_failures := h_total_failures h; h_last_rtt_ms := h_last_rtt_ms h; h_live_ewma_ms := h_live_ewma_ms h;
     h_live_samples := h_live_samples h; h_last_rank := rank; h_lead_held := held; h_last_error := h_last_error h;
     h_next_probe_at := h_next_probe_at h |}.

(** [routing_latency_ms] and [live_latency_ms]. *)
Definition routing_latency_ms (h : Health) : option f64 :=
  if (0 <? h_probe_samples h)%Z then Some (h_probe_ewma_ms h) else None.
Definition live_latency_ms (h : Health) : option f64 :=
  if (0 <? h_live_samples h)%Z then Some (h_live_ewma_ms h) else None.

(** [ProbeSnapshot] and [Health::snapshot]. *)
Record ProbeSnapshot : Type := {
  sn_ewma_ms : option f64; sn_up : bool; sn_consecutive_failures : Z; sn_live_ewma_ms : option f64;
  sn_live_queries : Z; sn_live_failures : Z; sn_rank : option Z; sn_lead_held : bool;
}.
Definition health_snapshot (h : Health) : ProbeSnapshot :=
  {| sn_ewma_ms := routing_latency_ms h; sn_up := h_up h; sn_consecutive_failures := h_consecutive_failures h;
     sn_live_ewma_ms := live_latency_ms h; sn_live_queries := h_total_queries h; sn_live_failures := h_total_failures h;
     sn_rank := h_last_rank h; sn_lead_held := h_lead_held h |}.

(** [rtt.as_secs_f64() * 1000.0]. *)
Definition rtt_millis (rtt : Z) : f64 := f64_mul (duration_as_secs_f64 rtt) (f64_of 1000).

(** [record_live_success]. *)
Definition record_live_success (rtt : Z) (alpha : f64) (h : Health) : Health :=
  let ms := rtt_millis rtt in
  let h := h_set_counts (inc (h_total_queries h)) (h_total_failures h) h in
  let h := h_set_live (Some ms) (ewma (h_live_samples h) (h_live_ewma_ms h) ms alpha) (inc (h_live_samples h)) h in
  h_set_liveness true 0 None h.
(** [fold_probe_alive]. *)
Definition fold_probe_alive (d : Draw) (h : Health) : Health :=
  let h := h_set_liveness true 0 None h in
  h_set_next (Some (dw_now d + dw_jitter d (healthy_probe_window (h_last_rank h)))%Z) h.
(** [record_probe_success]. *)
Definition record_probe_success (d : Draw) (rtt : Z) (alpha : f64) (h : Health) : Health * ProbeSnapshot :=
  let ms := rtt_millis rtt in
  let h := h_set_probe (ewma (h_probe_samples h) (h_probe_ewma_ms h) ms alpha) (inc (h_probe_samples h)) (Some (dw_now d)) h in
  let h := fold_probe_alive d h in
  (h, health_snapshot h).
(** [record_probe_alive]. *)
Definition record_probe_alive (d : Draw) (err : UpstreamError) (h : Health) : Health * ProbeSnapshot :=
  let h := fold_probe_alive d h in
  let h := h_set_liveness (h_up h) (h_consecutive_failures h) (Some (show_error err)) h in
  (h, health_snapshot h).
(** [fold_failure]. *)
Definition fold_failure (d : Draw) (err : UpstreamError) (threshold : Z) (h : Health) : Health :=
  let cf := wrap 32 (h_consecutive_failures h + 1) in
  let h := h_set_liveness (if (threshold <=? cf)%Z then false else h_up h) cf (Some (show_error err)) h in
  h_set_next (Some (dw_now d + dw_jitter d (retry_backoff cf))%Z) h.
(** [record_live_failure], [record_probe_failure] and [record_soft_failure]. *)
Definition record_live_failure (d : Draw) (err : UpstreamError) (threshold : Z) (h : Health) : Health :=
  let h := h_set_counts (inc (h_total_queries h)) (inc (h_total_failures h)) h in
  fold_failure d err threshold h.
Definition record_probe_failure (d : Draw) (err : UpstreamError) (threshold : Z) (h : Health) : Health * ProbeSnapshot :=
  let h := fold_failure d err threshold h in
  (h, health_snapshot h).
Definition record_soft_failure (err : UpstreamError) (h : Health) : Health :=
  let h := h_set_counts (inc (h_total_queries h)) (inc (h_total_failures h)) h in
  h_set_liveness (h_up h) (h_consecutive_failures h) (Some (show_error err)) h.
(** [schedule_initial_probe] and [probe_due_in]. *)
Definition schedule_initial_probe (d : Draw) (h : Health) : Health :=
  match h_next_probe_at h with
  | None => h_set_next (Some (dw_now d + dw_startup d STARTUP_PROBE_SPREAD)%Z) h
  | Some _ => h
  end.
Definition probe_due_in (now : Z) (h : Health) : option Z :=
  let! t := h_next_probe_at h in
  if (now <? t)%Z then Some (t - now)%Z else None.

(** [sort_key]: the tuple (down, unsampled, recent hard failure, rounded latency). *)
Definition sort_key (h : Health) : bool * bool * bool * Z :=
  let est := routing_latency_ms h in
  (negb (h_up h), bool_decide (est = None), (0 <? h_consecutive_failures h)%Z,
   f64_round_u64 (default f64_zero est)).
(** The order of the tuples ([Ord] of a tuple is lexicographic, [false < true]). *)
Definition bool_lt (a b : bool) : bool := negb a && b.
Definition key_lt (x y : bool * bool * bool * Z) : bool :=
  let '(d1, u1, r1, l1) := x in
  let '(d2, u2, r2, l2) := y in
  bool_lt d1 d2 || (eqb d1 d2 &&
  (bool_lt u1 u2 || (eqb u1 u2 &&
  (bool_lt r1 r2 || (eqb r1 r2 && (l1 <? l2)%Z))))).
(** [routing_latency_if_eligible]. *)
Definition routing_latency_if_eligible (h : Health) : option f64 :=
  if h_up h && (h_consecutive_failures h =? 0)%Z then routing_latency_ms h else None.

(** ** The pool *)

(** [Upstream], less its transport and its health; [UpstreamStat] and [Upstream::stat]. *)
Record Upstream : Type := { up_spec : UpstreamSpec; up_name : bytes }.
Record UpstreamStat : Type := {
  ut_spec : bytes; ut_name : bytes; ut_kind : TransportKind; ut_up : bool; ut_avg_rtt_ms : option f64;
  ut_last_rtt_ms : option f64; ut_total_queries : Z; ut_total_failures : Z; ut_last_error : option bytes;
}.
Definition upstream_stat (u : Upstream) (h : Health) : UpstreamStat :=
  {| ut_spec := us_display (up_spec u); ut_name := up_name u; ut_kind := us_kind (up_spec u); ut_up := h_up h;
     ut_avg_rtt_ms := routing_latency_ms h; ut_last_rtt_ms := h_last_rtt_ms h; ut_total_queries := h_total_queries h;
     ut_total_failures := h_total_failures h; ut_last_error := h_last_error h |}.

(** The upstreams with their healths, and the current leader. *)
Record Pool : Type := {
  pl_upstreams : list Upstream; pl_health : list Health; pl_leader : option nat; pl_settings : PoolSettings;
}.
Definition set_health (hs : list Health) (p : Pool) : Pool :=
  {| pl_upstreams := pl_upstreams p; pl_health := hs; pl_leader := pl_leader p; pl_settings := pl_settings p |}.
Definition set_leader (l : option nat) (p : Pool) : Pool :=
  {| pl_upstreams := pl_upstreams p; pl_health := pl_health p; pl_leader := l; pl_settings := pl_settings p |}.
(** An update of the health of one upstream under its lock. *)
Definition update_health (i : nat) (f : Health → Health) (p : Pool) : Pool := set_health (alter f i (pl_health p)) p.

(** [PoolEntry] and [UpstreamPool::build]; [make_transport] is the transport layer's, its
    failure ends the build. *)
Record PoolEntry : Type := { pn_spec : bytes; pn_name : option bytes }.
Fixpoint build_upstreams (make_transport : UpstreamSpec → result () UpstreamError) (entries : list PoolEntry)
  : result (list Upstream) UpstreamError :=
  match entries with
  | [] => Ok []
  | e :: entries =>
      let? spec := spec_parse (pn_spec e) in
      let? _ := make_transport spec in
      let? ups := build_upstreams make_transport entries in
      Ok ({| up_spec := spec; up_name := default (us_display spec) (pn_name e) |} :: ups)
  end.
Definition pool_of (ups : list Upstream) (st : PoolSettings) : Pool :=
  {| pl_upstreams := ups; pl_health := replicate (length ups) health_default; pl_leader := None; pl_settings := st |}.
Definition pool_build (make_transport : UpstreamSpec → result () UpstreamError) (entries : list PoolEntry) (st : PoolSettings)
  : result Pool UpstreamError :=
  let? ups := build_upstreams make_transport entries in
  Ok (pool_of ups st).
Definition pool_stats (p : Pool) : list UpstreamStat := zip_with upstream_stat (pl_upstreams p) (pl_health p).

(** [adopt_health_from]: the old upstreams are collected in a map by identity, so a later
    one replaces an earlier one of the same identity. *)
Definition prior_health (old : Pool) (id : bytes) : option Health :=
  snd <$> last (filter (λ p, identity (up_spec p.1) = id) (zip (pl_upstreams old) (pl_health old))).
Definition adopt_health_from (old p : Pool) : Pool :=
  set_health (zip_with (λ u h, default h (prior_health old (identity (up_spec u)))) (pl_upstreams p) (pl_health p)) p.

(** ** [ordered] *)

Definition health_at (p : Pool) (i : nat) : Health := default health_default (pl_health p !! i).
Definition key_at (p : Pool) (i : nat) : bool * bool * bool * Z := sort_key (health_at p i).
(** The stable sort by [sort_key]: of two upstreams with equal keys the one configured first
    comes first. *)
Definition rank_le (p : Pool) (i j : nat) : Prop :=
  key_lt (key_at p i) (key_at p j) = true ∨ (key_lt (key_at p j) (key_at p i) = false ∧ i ≤ j).
#[global] Instance rank_le_dec p : RelDecision (rank_le p).
Proof. intros i j. unfold rank_le. apply _. Defined.
Definition sorted_upstreams (p : Pool) : list nat := merge_sort (rank_le p) (seq 0 (length (pl_upstreams p))).
Definition position (i : nat) (v : list nat) : option nat := fst <$> list_find (eq i) v.
(** The sticky leader: [cur] keeps the lead over a faster upstream within the margin. *)
Definition hold_leader (p : Pool) (v : list nat) : list nat * bool :=
  match pl_leader p with
  | None => (v, false)
  | Some cur =>
      match position cur v, head v with
      | Some (S pos), Some first =>
          match routing_latency_if_eligible (health_at p cur), routing_latency_if_eligible (health_at p first) with
          | Some inc, Some best =>
              if f64_le (f64_sub inc best) (switch_margin inc) then (cur :: delete (S pos) v, true) else (v, false)
          | _, _ => (v, false)
          end
      | _, _ => (v, false)
      end
  end.
(** The ranks written back. *)
Fixpoint write_ranks (i : nat) (v : list nat) (held : bool) (p : Pool) : Pool :=
  match v with
  | [] => p
  | u :: v =>
      write_ranks (S i) v held
        (update_health u (h_set_rank (Some (Z.min (Z.of_nat i) U16_MAX)) ((i =? 0) && held)) p)
  end.
Definition ordered (p : Pool) : list nat * Pool :=
  let '(v, held) := hold_leader p (sorted_upstreams p) in
  (v, write_ranks 0 v held (set_leader (head v) p)).

(** ** Probes and live attempts *)

Section resolve.
Context {DL : DnsLib} {DC : DnsCodec}.

(** The outcome of [timeout(limit, transport.query(q))]: a reply with its round trip, an
    error of the transport, or the time limit. *)
Inductive Attempt : Type :=
| AtReply (resp : Message) (rtt : Z)
| AtError (e : UpstreamError)
| AtTimeout.

(** [Verdict] and [classify]. *)
Inductive ReplyVerdict : Type := RvAnswer | RvReject | RvSoftFail.
Definition classify (resp : Message) : ReplyVerdict :=
  let rc := msg_rcode resp in
  if (rc =? RC_REFUSED)%Z || (rc =? RC_NOTIMP)%Z then RvReject
  else if (rc =? RC_SERVFAIL)%Z || (rc =? RC_FORMERR)%Z then RvSoftFail
  else RvAnswer.
(** [rcode_err]. *)
Definition rcode_err (resp : Message) : UpstreamError := UeRcode (rcode_debug (msg_rcode resp)).

(** [Shot] and [probe_shot]. *)
Inductive Shot : Type :=
| ShAnswered (rtt : Z)
| ShFailed (outcome : ProbeOutcome) (e : UpstreamError).
Definition probe_shot (a : Attempt) : Shot :=
  match a with
  | AtReply resp rtt =>
      match classify resp with
      | RvAnswer => ShAnswered rtt
      | RvReject => ShFailed PoReject (rcode_err resp)
      | RvSoftFail => ShFailed PoSoftFail (rcode_err resp)
      end
  | AtError e => ShFailed PoError e
  | AtTimeout => ShFailed PoTimeout UeTimeout
  end.
(** [probe_once]: the health after the probe and the event for the log, which the code
    builds only when the log is enabled.  [second] is used only after an answered first shot. *)
Definition probe_once (st : PoolSettings) (d : Draw) (time_ms : Z) (u : Upstream) (first second : Attempt) (h : Health)
  : Health * ProbeEvent :=
  let '(outcome, first_rtt_ms, rtt_ms, (h, snap), err) :=
    match probe_shot first with
    | ShAnswered first =>
        let first_ms := Some (rtt_millis first) in
        match probe_shot second with
        | ShAnswered warm =>
            (PoAnswer, first_ms, Some (rtt_millis warm), record_probe_success d warm (ps_ewma_alpha st) h, None)
        | ShFailed _ e => (PoMeasureFail, first_ms, None, record_probe_alive d e h, Some e)
        end
    | ShFailed outcome e => (outcome, None, None, record_probe_failure d e (ps_failure_threshold st) h, Some e)
    end in
  (h, {| pe_time_ms := time_ms; pe_upstream := us_display (up_spec u); pe_name := up_name u;
         pe_kind := us_kind (up_spec u); pe_outcome := outcome; pe_rtt_ms := rtt_ms; pe_first_rtt_ms := first_rtt_ms;
         pe_ewma_ms := sn_ewma_ms snap; pe_up := sn_up snap; pe_consecutive_failures := sn_consecutive_failures snap;
         pe_detail := show_error <$> err; pe_error_kind := error_kind_from_error <$> err;
         pe_live_ewma_ms := sn_live_ewma_ms snap; pe_live_queries := sn_live_queries snap;
         pe_live_failures := sn_live_failures snap; pe_rank := sn_rank snap; pe_lead_held := sn_lead_held snap |}).

(** ** [resolve_sequential] *)

(** One iteration of the loop: what it records on the upstream, and either the answer that
    ends it or the new [last] and [fallback]. *)
Definition record_attempt (st : PoolSettings) (d : Draw) (a : Attempt) (h : Health) : Health :=
  match a with
  | AtReply resp rtt =>
      match classify resp with
      | RvAnswer => record_live_success rtt (ps_ewma_alpha st) h
      | RvReject => record_live_failure d (rcode_err resp) (ps_failure_threshold st) h
      | RvSoftFail => record_soft_failure (rcode_err resp) h
      end
  | AtError e => record_live_failure d e (ps_failure_threshold st) h
  | AtTimeout => record_live_failure d UeTimeout (ps_failure_threshold st) h
  end.
Definition resolved_by (name : bytes) (resp : Message) (rtt : Z) : Resolved :=
  {| rs_message := resp; rs_upstream := name; rs_rtt_ms := rtt_millis rtt |}.
Inductive LoopState : Type :=
| LpRunning (todo : list nat) (last : UpstreamError) (fallback : option Resolved)
| LpDone (res : result Resolved UpstreamError).
(** The loop at its head: past the last upstream it ends with the fallback or [AllFailed]. *)
Definition loop_head (todo : list nat) (last : UpstreamError) (fallback : option Resolved) : LoopState :=
  match todo with
  | [] => LpDone (match fallback with Some r => Ok r | None => Err (UeAllFailed last) end)
  | _ :: _ => LpRunning todo last fallback
  end.
Definition loop_attempt (name : nat → bytes) (a : Attempt) (s : LoopState) : LoopState :=
  match s with
  | LpRunning (up :: todo) last fallback =>
      match a with
      | AtReply resp rtt =>
          match classify resp with
          | RvAnswer => LpDone (Ok (resolved_by (name up) resp rtt))
          | _ =>
              let fallback := match fallback with None => Some (resolved_by (name up) resp rtt) | Some r => Some r end in
              loop_head todo (rcode_err resp) fallback
          end
      | AtError e => loop_head todo e fallback
      | AtTimeout => loop_head todo UeTimeout fallback
      end
  | _ => s
  end.
Definition loop_start (order : list nat) : LoopState := loop_head order UeNoUpstreams None.
(** The upstream the loop is waiting for. *)
Definition loop_target (s : LoopState) : option nat :=
  match s with LpRunning (up :: _) _ _ => Some up | _ => None end.

(** ** [resolve] and its interleavings *)

(** A shared future in the in-flight map; [fl_tried] is the history of its attempts. *)
Record Flight : Type := { fl_query : Message; fl_order : list nat; fl_tried : list Attempt; fl_loop : LoopState }.
Definition flight_new (order : list nat) (q : Message) : Flight :=
  {| fl_query := q; fl_order := order; fl_tried := []; fl_loop := loop_start order |}.
(** A call of [resolve]: past its first look at the in-flight map, awaiting a shared future
    (with the guard or not), returned, or dropped by its caller. *)
Inductive Call : Type :=
| ClMissed (q : Message) (key : QueryKey)
| ClWaiting (q : Message) (key : QueryKey) (flight : nat) (guard : bool)
| ClReturned (q : Message) (res : result Resolved UpstreamError)
| ClDropped (q : Message).

Record System : Type := {
  sy_pool : Pool; sy_inflight : list (QueryKey * nat); sy_flights : list Flight; sy_calls : list Call;
}.
Definition system_new (p : Pool) : System :=
  {| sy_pool := p; sy_inflight := []; sy_flights := []; sy_calls := [] |}.
Definition with_calls (c : list Call) (s : System) : System :=
  {| sy_pool := sy_pool s; sy_inflight := sy_inflight s; sy_flights := sy_flights s; sy_calls := c |}.
Definition with_pool (p : Pool) (s : System) : System :=
  {| sy_pool := p; sy_inflight := sy_inflight s; sy_flights := sy_flights s; sy_calls := sy_calls s |}.
Definition with_inflight (m : list (QueryKey * nat)) (s : System) : System :=
  {| sy_pool := sy_pool s; sy_inflight := m; sy_flights := sy_flights s; sy_calls := sy_calls s |}.
Definition with_flights (f : list Flight) (s : System) : System :=
  {| sy_pool := sy_pool s; sy_inflight := sy_inflight s; sy_flights := f; sy_calls := sy_calls s |}.

(** [resolve] up to the first release of the in-flight lock. *)
Definition resolve_enter (s : System) (q : Message) : Call :=
  if bool_decide (pl_upstreams (sy_pool s) = []) then ClReturned q (Err UeNoUpstreams)
  else match key_from_message q with
       | None => ClReturned q (Err (UeProto (bs "query has no question")))
       | Some key =>
           match alookup key (sy_inflight s) with
           | Some f => ClWaiting q key f false
           | None => ClMissed q key
           end
       end.
(** [let ordered = self.ordered()] up to the await: the second look at the map inserts. *)
Definition resolve_launch (s : System) (c : nat) (q : Message) (key : QueryKey) : System :=
  let '(order, p) := ordered (sy_pool s) in
  let s := with_pool p s in
  match alookup key (sy_inflight s) with
  | Some f => with_calls (<[c := ClWaiting q key f false]> (sy_calls s)) s
  | None =>
      let f := length (sy_flights s) in
      let s := with_flights (sy_flights s ++ [flight_new order (normalize_upstream_edns q)]) s in
      let s := with_inflight ((key, f) :: sy_inflight s) s in
      with_calls (<[c := ClWaiting q key f true]> (sy_calls s)) s
  end.
(** The guard's [drop]. *)
Definition drop_guard (guard : bool) (key : QueryKey) (s : System) : System :=
  if guard then with_inflight (adelete key (sy_inflight s)) s else s.
(** Past the await: the id of the answer is the caller's. *)
Definition restore_id (q : Message) (res : result Resolved UpstreamError) : result Resolved UpstreamError :=
  match res with
  | Ok r => Ok {| rs_message := set_id (msg_id q) (rs_message r); rs_upstream := rs_upstream r; rs_rtt_ms := rs_rtt_ms r |}
  | Err e => Err e
  end.
Definition name_at (p : Pool) (i : nat) : bytes := default [] (up_name <$> pl_upstreams p !! i).

(** The events: a call enters, launches its future, a future's attempt completes, a call
    resumes with the result, a call is dropped at its await, a probe of an upstream ends. *)
Inductive Event : Type :=
| EvEnter (q : Message)
| EvLaunch (c : nat)
| EvAttempt (f : nat) (a : Attempt) (d : Draw)
| EvReturn (c : nat)
| EvDrop (c : nat)
| EvProbe (i : nat) (first second : Attempt) (d : Draw).

Definition flight_attempt (p : Pool) (a : Attempt) (fl : Flight) : Flight :=
  {| fl_query := fl_query fl; fl_order := fl_order fl; fl_tried := fl_tried fl ++ [a];
     fl_loop := loop_attempt (name_at p) a (fl_loop fl) |}.
Definition pool_probe (i : nat) (first second : Attempt) (d : Draw) (p : Pool) : Pool :=
  match pl_upstreams p !! i with
  | Some u => update_health i (λ h, (probe_once (pl_settings p) d 0 u first second h).1) p
  | None => p
  end.
(** An event that is not enabled changes nothing. *)
Definition step (s : System) (e : Event) : System :=
  match e with
  | EvEnter q => with_calls (sy_calls s ++ [resolve_enter s q]) s
  | EvLaunch c =>
      match sy_calls s !! c with Some (ClMissed q key) => resolve_launch s c q key | _ => s end
  | EvAttempt f a d =>
      match sy_flights s !! f with
      | Some fl =>
          match loop_target (fl_loop fl) with
          | Some up =>
              let p := sy_pool s in
              with_flights (<[f := flight_attempt p a fl]> (sy_flights s))
                (with_pool (update_health up (record_attempt (pl_settings p) d a) p) s)
          | None => s
          end
      | None => s
      end
  | EvReturn c =>
      match sy_calls s !! c with
      | Some (ClWaiting q key f guard) =>
          match fl_loop <$> sy_flights s !! f with
          | Some (LpDone res) =>
              drop_guard guard key (with_calls (<[c := ClReturned q (restore_id q res)]> (sy_calls s)) s)
          | _ => s
          end
      | _ => s
      end
  | EvDrop c =>
      match sy_calls s !! c with
      | Some (ClWaiting q key f guard) => drop_guard guard key (with_calls (<[c := ClDropped q]> (sy_calls s)) s)
      | _ => s
      end
  | EvProbe i first second d => with_pool (pool_probe i first second d (sy_pool s)) s
  end.
Definition run (s : System) (es : list Event) : System := foldl step s es.
End resolve.
