(* ===== verification/PoolProps.v ===== *)
(** * Properties of the upstream pool: the health of an upstream as a state machine, the
    order in which upstreams are tried, the failover loop, and request coalescing. *)
From Stdlib Require Import Ascii SpecFloat.
From S2P Require Import Prelude RustStr RustNet RustFloat Dns DnsInstances Cache CacheProps Engine Spec ProbeLog Pool.

(** ** Health as a state machine *)

(** The updates of a health, in the order its lock is taken. *)
Inductive HealthEvent : Type :=
| HeLiveOk (rtt : Z)
| HeLiveFail (d : Draw) (e : UpstreamError)
| HeSoftFail (e : UpstreamError)
| HeProbeOk (d : Draw) (rtt : Z)
| HeProbeAlive (d : Draw) (e : UpstreamError)
| HeProbeFail (d : Draw) (e : UpstreamError)
| HeRank (rank : Z) (held : bool).
Definition health_step (st : PoolSettings) (h : Health) (e : HealthEvent) : Health :=
  match e with
  | HeLiveOk rtt => record_live_success rtt (ps_ewma_alpha st) h
  | HeLiveFail d e => record_live_failure d e (ps_failure_threshold st) h
  | HeSoftFail e => record_soft_failure e h
  | HeProbeOk d rtt => (record_probe_success d rtt (ps_ewma_alpha st) h).1
  | HeProbeAlive d e => (record_probe_alive d e h).1
  | HeProbeFail d e => (record_probe_failure d e (ps_failure_threshold st) h).1
  | HeRank r b => h_set_rank (Some r) b h
  end.
Definition health_after (st : PoolSettings) (es : list HealthEvent) : Health := foldl (health_step st) health_default es.

(** What a trace says: hard failures since the last success, and how often each kind of
    event occurs. *)
Definition is_hard (e : HealthEvent) : bool := match e with HeLiveFail _ _ | HeProbeFail _ _ => true | _ => false end.
Definition is_alive (e : HealthEvent) : bool :=
  match e with HeLiveOk _ | HeProbeOk _ _ | HeProbeAlive _ _ => true | _ => false end.
Definition is_live (e : HealthEvent) : bool := match e with HeLiveOk _ | HeLiveFail _ _ | HeSoftFail _ => true | _ => false end.
Definition is_live_failure (e : HealthEvent) : bool := match e with HeLiveFail _ _ | HeSoftFail _ => true | _ => false end.
Definition is_sample (e : HealthEvent) : bool := match e with HeProbeOk _ _ => true | _ => false end.
Definition streak (es : list HealthEvent) : Z :=
  foldl (λ n e, if is_hard e then n + 1 else if is_alive e then 0 else n)%Z 0%Z es.
Definition occurrences (f : HealthEvent → bool) (es : list HealthEvent) : Z := Z.of_nat (length (filter f es)).

Lemma streak_snoc es e :
  streak (es ++ [e]) = (if is_hard e then streak es + 1 else if is_alive e then 0 else streak es)%Z.
Proof. unfold streak. by rewrite foldl_app. Qed.
Lemma streak_nonneg es : (0 <= streak es)%Z.
Proof. induction es as [|e es IH] using rev_ind; [done|]. rewrite streak_snoc. repeat case_match; lia. Qed.
Lemma occurrences_snoc f es e : occurrences f (es ++ [e]) = (occurrences f es + if f e then 1 else 0)%Z.
Proof.
  unfold occurrences. rewrite filter_app, length_app, filter_cons, filter_nil.
  case_decide as H; destruct (f e); simpl in *; try done; lia.
Qed.
Lemma inc_wrap z n : z = wrap 64 n → inc z = wrap 64 (n + 1).
Proof. intros ->. unfold inc, wrap. by rewrite Zplus_mod_idemp_l. Qed.

(** Crossing the threshold, with the 32-bit counter. *)
Lemma failure_flips t n up :
  in_u 32 t → (0 <= n)%Z → up = bool_decide (n < Z.max 1 t)%Z →
  (if (t <=? wrap 32 (n + 1))%Z then false else up) = bool_decide (n + 1 < Z.max 1 t)%Z.
Proof.
  unfold in_u. intros Ht Hn ->. pose proof (Z.mod_le (n + 1) (2 ^ 32) ltac:(lia) ltac:(lia)) as Hle.
  unfold wrap. case_match eqn:E; bool_to_prop.
  - symmetry. apply bool_decide_eq_false. lia.
  - apply bool_decide_ext. destruct (decide (n + 1 < 2 ^ 32)%Z) as [Hs|Hs].
    + rewrite Z.mod_small in E by lia. lia.
    + lia.
Qed.

Record health_exact (st : PoolSettings) (es : list HealthEvent) (h : Health) : Prop := {
  hx_up : h_up h = bool_decide (streak es < Z.max 1 (ps_failure_threshold st))%Z;
  hx_failures : h_consecutive_failures h = wrap 32 (streak es);
  hx_queries : h_total_queries h = wrap 64 (occurrences is_live es);
  hx_total_failures : h_total_failures h = wrap 64 (occurrences is_live_failure es);
  hx_samples : h_probe_samples h = wrap 64 (occurrences is_sample es);
}.
Lemma health_step_exact st es h e :
  in_u 32 (ps_failure_threshold st) → health_exact st es h → health_exact st (es ++ [e]) (health_step st h e).
Proof.
  intros Ht [Hu Hf Hq Ht' Hs].
  assert (Hw : wrap 32 (h_consecutive_failures h + 1) = wrap 32 (streak es + 1))
    by (rewrite Hf; unfold wrap; by rewrite Zplus_mod_idemp_l).
  assert (Hup0 : true = bool_decide (0 < Z.max 1 (ps_failure_threshold st))%Z) by (symmetry; apply bool_decide_true; lia).
  split; rewrite ?streak_snoc, ?occurrences_snoc; destruct e; simpl; rewrite ?Z.add_0_r, ?Hw; auto using inc_wrap.
  all: apply failure_flips; auto using streak_nonneg.
Qed.

(** C37: for every sequence of live results, probe results and rankings, with a 32-bit
    failure threshold: an upstream is up exactly while the hard failures since its last
    success are fewer than the threshold (at least one), and the counters are exact at their
    widths: failures in a row, live queries, live failures (soft ones included), and latency
    samples, which only answered probes add. *)
Theorem health_trace_exact (st : PoolSettings) (es : list HealthEvent) :
  in_u 32 (ps_failure_threshold st) →
  let h := health_after st es in
  h_up h = bool_decide (streak es < Z.max 1 (ps_failure_threshold st))%Z
  ∧ h_consecutive_failures h = wrap 32 (streak es)
  ∧ h_total_queries h = wrap 64 (occurrences is_live es)
  ∧ h_total_failures h = wrap 64 (occurrences is_live_failure es)
  ∧ h_probe_samples h = wrap 64 (occurrences is_sample es).
Proof.
  intros Ht. simpl. enough (Hx : health_exact st es (health_after st es)) by (destruct Hx; done).
  unfold health_after. induction es as [|e es IH] using rev_ind.
  - split; try done. simpl. symmetry. apply bool_decide_true. unfold streak. simpl. lia.
  - rewrite foldl_app. simpl. by apply health_step_exact.
Qed.
Definition sample_draw : Draw := {| dw_now := 0; dw_jitter := λ z, z; dw_startup := λ z, z |}.
Lemma health_trace_exact_witness :
  h_up (health_after pool_settings_default [HeProbeOk sample_draw 5; HeLiveFail sample_draw UeTimeout; HeSoftFail UeTimeout]) = true
  ∧ h_up (health_after pool_settings_default [HeLiveFail sample_draw UeTimeout; HeSoftFail UeTimeout; HeProbeFail sample_draw UeTimeout]) = false.
Proof.
  split.
  - rewrite (proj1 (health_trace_exact pool_settings_default _ ltac:(unfold in_u; simpl; lia))). reflexivity.
  - rewrite (proj1 (health_trace_exact pool_settings_default _ ltac:(unfold in_u; simpl; lia))). reflexivity.
Defined.

(** *** Probe scheduling *)

Lemma retry_backoff_bounds n : (5 * NANOS <= retry_backoff n <= DOWN_PROBE_MAX)%Z.
Proof.
  unfold retry_backoff, DOWN_PROBE_MAX, DOWN_PROBE_BASE_SECS, NANOS. set (k := Z.min _ 16).
  assert (Hk : (0 <= k <= 16)%Z) by (unfold k; lia). rewrite Z.shiftl_mul_pow2 by lia.
  pose proof (Z.pow_le_mono_r 2 0 k ltac:(lia) ltac:(lia)). pose proof (Z.pow_le_mono_r 2 k 16 ltac:(lia) ltac:(lia)).
  rewrite wrap_small by (unfold in_u; lia). lia.
Qed.
Lemma retry_backoff_exact n : (1 <= n <= 4)%Z → retry_backoff n = (5 * 2 ^ (n - 1) * NANOS)%Z.
Proof. intros H. assert (n = 1 ∨ n = 2 ∨ n = 3 ∨ n = 4)%Z as [->|[->|[->| ->]]] by lia; reflexivity. Qed.
Lemma healthy_window_bounds r : (LEAD_PROBE_WINDOW <= healthy_probe_window r <= BENCH_PROBE_WINDOW)%Z.
Proof. unfold healthy_probe_window, LEAD_PROBE_WINDOW, BENCH_PROBE_WINDOW, NANOS. repeat case_match; lia. Qed.
(** A failed upstream is probed again within 75 seconds, a live one not before 135: recovery
    is always more eager than resampling, whatever the draws. *)
Lemma recovery_before_resampling st d1 d2 e e' (h1 h2 : Health) :
  draw_ok d1 → draw_ok d2 → ∃ t1 t2,
    h_next_probe_at (fold_failure d1 e st h1) = Some t1 ∧ h_next_probe_at (record_probe_alive d2 e' h2).1 = Some t2
    ∧ (dw_now d1 + 3750000000 <= t1 <= dw_now d1 + 75000000000)%Z
    ∧ (dw_now d2 + 135000000000 <= t2 <= dw_now d2 + 1125000000000)%Z.
Proof.
  intros [Hj1 _] [Hj2 _]. eexists _, _. split; [done|]. split; [done|].
  match goal with |- context [retry_backoff ?n] => pose proof (retry_backoff_bounds n) as B; set (b := retry_backoff n) in * end.
  simpl. pose proof (healthy_window_bounds (h_last_rank h2)) as W. set (w := healthy_probe_window (h_last_rank h2)) in *.
  unfold DOWN_PROBE_MAX, LEAD_PROBE_WINDOW, BENCH_PROBE_WINDOW, NANOS in *.
  specialize (Hj1 b ltac:(lia)). specialize (Hj2 w ltac:(lia)). lia.
Qed.

(** ** The order of trial *)

Lemma f64_round_u64_range x : in_u 64 (f64_round_u64 x).
Proof.
  unfold in_u, f64_round_u64, U64_MAX. destruct x as [|[]| |[] m e]; try lia.
  case_match; bool_to_prop.
  - pose proof (Z.pow_nonneg 2 e ltac:(lia)). nia.
  - pose proof (Z.pow_nonneg 2 (- e) ltac:(lia)). pose proof (Z.pow_pos_nonneg 2 (1 - e) ltac:(lia) ltac:(lia)).
    pose proof (Z.div_pos (2 * Z.pos m + 2 ^ (- e)) (2 ^ (1 - e)) ltac:(lia) ltac:(lia)). lia.
Qed.

(** The lexicographic order as an order of numbers. *)
Definition key_code (x : bool * bool * bool * Z) : Z :=
  let '(d, u, r, l) := x in ((Z.b2z d * 2 + Z.b2z u) * 2 + Z.b2z r) * 2 ^ 64 + l.
Lemma key_lt_code x y : in_u 64 x.2 → in_u 64 y.2 → key_lt x y = (key_code x <? key_code y)%Z.
Proof.
  destruct x as [[[d1 u1] r1] l1], y as [[[d2 u2] r2] l2]. unfold in_u, key_lt, key_code, bool_lt. simpl. intros H1 H2.
  destruct (Z.ltb_spec l1 l2); destruct d1, d2, u1, u2, r1, r2; simpl; symmetry;
    first [apply Z.ltb_lt; lia | apply Z.ltb_ge; lia].
Qed.

Section ordered.
Context (p : Pool).
Implicit Types i j : nat.

Definition code_at i : Z := key_code (key_at p i).
Lemma rank_le_code i j : rank_le p i j ↔ (code_at i < code_at j)%Z ∨ (code_at i = code_at j ∧ i ≤ j).
Proof.
  assert (H : ∀ k, in_u 64 (key_at p k).2) by (intros k; apply f64_round_u64_range).
  unfold rank_le. rewrite !key_lt_code by done. fold (code_at i) (code_at j). rewrite Z.ltb_lt, Z.ltb_ge. lia.
Qed.
#[local] Instance rank_le_trans : Transitive (rank_le p).
Proof. intros i j k. rewrite !rank_le_code. lia. Qed.
#[local] Instance rank_le_total : Total (rank_le p).
Proof. intros i j. rewrite !rank_le_code. lia. Qed.
Lemma rank_le_down i j : rank_le p i j → h_up (health_at p j) = true → h_up (health_at p i) = true.
Proof.
  unfold rank_le, key_at, sort_key, key_lt, bool_lt. simpl.
  destruct (h_up (health_at p i)), (h_up (health_at p j)); simpl; try done. intros [?|[? _]]; done.
Qed.

Lemma sorted_perm : sorted_upstreams p ≡ₚ seq 0 (length (pl_upstreams p)).
Proof. apply merge_sort_Permutation. Qed.
Lemma sorted_nodup : NoDup (sorted_upstreams p).
Proof. rewrite sorted_perm. apply NoDup_seq. Qed.
Lemma sorted_sorted : StronglySorted (rank_le p) (sorted_upstreams p).
Proof. apply Sorted_StronglySorted, Sorted_merge_sort; apply _. Qed.

Lemma StronglySorted_delete {A} (R : A → A → Prop) k l : StronglySorted R l → StronglySorted R (delete k l).
Proof.
  intros H. revert k. induction H as [|x l H IH Hx]; intros [|k]; simpl; try by (done || constructor).
  constructor; [done|]. apply Forall_delete, Hx.
Qed.
Lemma StronglySorted_lookup {A} (R : A → A → Prop) l (a b : nat) x y :
  StronglySorted R l → a < b → l !! a = Some x → l !! b = Some y → R x y.
Proof.
  intros H. revert a b. induction H as [|z l H IH Hz]; intros a b Hab Ha Hb; [done|].
  destruct b as [|b]; [lia|]. destruct a as [|a]; simpl in *.
  - simplify_eq. rewrite Forall_forall in Hz. eapply Hz, list_elem_of_lookup_2, Hb.
  - eapply IH; [|done..]. lia.
Qed.

(** What the stickiness does to the sorted list. *)
Definition held_over (v : list nat) : Prop :=
  ∃ cur rest first inc best, v = cur :: rest ∧ pl_leader p = Some cur ∧ StronglySorted (rank_le p) rest
    ∧ head (sorted_upstreams p) = Some first ∧ first ≠ cur
    ∧ routing_latency_if_eligible (health_at p cur) = Some inc
    ∧ routing_latency_if_eligible (health_at p first) = Some best
    ∧ f64_le (f64_sub inc best) (switch_margin inc) = true.
Lemma position_Some i v k : position i v = Some k → v !! k = Some i.
Proof.
  unfold position. intros ([k' x] & Hf & ->)%fmap_Some. apply list_find_Some in Hf as (H & -> & _). done.
Qed.
Lemma hold_leader_cases v held : hold_leader p (sorted_upstreams p) = (v, held) →
  v ≡ₚ seq 0 (length (pl_upstreams p))
  ∧ ((held = false ∧ v = sorted_upstreams p) ∨ (held = true ∧ held_over v)).
Proof.
  pose proof sorted_perm as Hp. pose proof sorted_sorted as Hs. pose proof sorted_nodup as Hn.
  set (w := sorted_upstreams p) in *. intros H.
  assert (Hid : (v, held) = (w, false) → v ≡ₚ seq 0 (length (pl_upstreams p)) ∧
            ((held = false ∧ v = w) ∨ (held = true ∧ held_over v))).
  { intros [= -> ->]. split; [done|]. by left. }
  unfold hold_leader in H. destruct (pl_leader p) as [cur|] eqn:El; [|by apply Hid].
  destruct (position cur w) as [[|pos]|] eqn:Epos; try (by apply Hid).
  destruct (head w) as [first|] eqn:Eh; [|by apply Hid].
  destruct (routing_latency_if_eligible (health_at p cur)) as [x|] eqn:E1; [|by apply Hid].
  destruct (routing_latency_if_eligible (health_at p first)) as [best|] eqn:E2; [|by apply Hid].
  destruct (f64_le _ _) eqn:E3; [|by apply Hid]. apply position_Some in Epos. injection H as <- <-.
  split; [rewrite <- Hp; symmetry; by apply delete_Permutation|]. right. split; [done|].
  exists cur, (delete (S pos) w), first, x, best. split_and!; try done.
  - by apply StronglySorted_delete.
  - intros ->. rewrite head_lookup in Eh. pose proof (NoDup_lookup _ _ _ _ Hn Eh Epos). lia.
Qed.
Lemma eligible_up h x : routing_latency_if_eligible h = Some x → h_up h = true.
Proof. unfold routing_latency_if_eligible. by destruct (h_up h). Qed.
Lemma tried_up_first v held : hold_leader p (sorted_upstreams p) = (v, held) →
  ∀ a b i j, a < b → v !! a = Some i → v !! b = Some j → h_up (health_at p j) = true → h_up (health_at p i) = true.
Proof.
  intros [_ [[_ ->]|[_ H]]]%hold_leader_cases a b i j Hab Ha Hb.
  - apply rank_le_down. by eapply StronglySorted_lookup; [apply sorted_sorted| | |].
  - destruct H as (cur & rest & first & x & best & -> & _ & Hs & _ & _ & He & _).
    destruct b as [|b]; [lia|]. destruct a as [|a]; simpl in *; simplify_eq.
    + intros _. by eapply eligible_up.
    + apply rank_le_down. eapply StronglySorted_lookup; [done| |done..]. lia.
Qed.
End ordered.

(** The ranks written back. *)
Lemma update_health_at p u f i : u < length (pl_health p) →
  health_at (update_health u f p) i = if decide (i = u) then f (health_at p u) else health_at p i.
Proof.
  intros Hu. unfold health_at, update_health. simpl. destruct (decide (i = u)) as [->|Hne].
  - rewrite list_lookup_alter_eq. destruct (lookup_lt_is_Some_2 _ _ Hu) as [h ->]. done.
  - by rewrite list_lookup_alter_ne.
Qed.
Lemma write_ranks_frame k v held p :
  pl_upstreams (write_ranks k v held p) = pl_upstreams p ∧ pl_leader (write_ranks k v held p) = pl_leader p
  ∧ pl_settings (write_ranks k v held p) = pl_settings p
  ∧ length (pl_health (write_ranks k v held p)) = length (pl_health p).
Proof.
  revert k p. induction v as [|u v IH]; intros k p; simpl; [done|].
  destruct (IH (S k) (update_health u (h_set_rank (Some (Z.min (Z.of_nat k) U16_MAX)) ((k =? 0) && held)) p)) as (-> & -> & -> & ->).
  split_and!; try done. apply length_alter.
Qed.
Lemma write_ranks_other k v held p i : i ∉ v → Forall (λ u, u < length (pl_health p)) v →
  health_at (write_ranks k v held p) i = health_at p i.
Proof.
  revert k p. induction v as [|u v IH]; intros k p Hi Hv; simpl; [done|].
  apply not_elem_of_cons in Hi as [Hne Hi]. apply Forall_cons in Hv as [Hu Hv].
  rewrite IH; [|done|by simpl; rewrite length_alter]. rewrite update_health_at by done. by rewrite decide_False.
Qed.
Lemma write_ranks_at k v held p a i : NoDup v → Forall (λ u, u < length (pl_health p)) v → v !! a = Some i →
  health_at (write_ranks k v held p) i
  = h_set_rank (Some (Z.min (Z.of_nat (k + a)) U16_MAX)) ((k + a =? 0) && held) (health_at p i).
Proof.
  revert k p a. induction v as [|u v IH]; intros k p a Hn Hv Ha; [done|].
  apply NoDup_cons in Hn as [Hu Hn]. apply Forall_cons in Hv as [Hlt Hv]. simpl. destruct a as [|a]; simpl in Ha.
  - injection Ha as ->. rewrite write_ranks_other by (try done; by simpl; rewrite length_alter).
    rewrite update_health_at, decide_True by done. by rewrite Nat.add_0_r.
  - rewrite (IH (S k) _ a) by (try done; by simpl; rewrite length_alter).
    rewrite update_health_at, decide_False by (try done; intros ->; by apply Hu, list_elem_of_lookup_2 with a).
    by replace (S k + a) with (k + S a) by lia.
Qed.

(** C9: the list [ordered] returns is a permutation of the configured upstreams in which
    no down upstream precedes one that is up.  It is the stable order by health and latency,
    unless the previous leader, which is up, sampled and without recent failure, is within
    the switch margin of the fastest one: then the leader comes first and the others follow
    in that order.  The head becomes the leader, and the only health fields written are the
    rank (the position, capped at 65535) and the mark of a held lead. *)
Theorem ordered_correct (p : Pool) :
  length (pl_health p) = length (pl_upstreams p) →
  let '(v, p') := ordered p in
  v ≡ₚ seq 0 (length (pl_upstreams p))
  ∧ (∀ a b i j, a < b → v !! a = Some i → v !! b = Some j → h_up (health_at p j) = true → h_up (health_at p i) = true)
  ∧ pl_leader p' = head v ∧ pl_upstreams p' = pl_upstreams p
  ∧ ∃ held, ((held = false ∧ StronglySorted (rank_le p) v) ∨ (held = true ∧ held_over p v))
    ∧ ∀ a i, v !! a = Some i →
        health_at p' i = h_set_rank (Some (Z.min (Z.of_nat a) U16_MAX)) ((a =? 0) && held) (health_at p i).
Proof.
  intros Hl. unfold ordered. destruct (hold_leader p (sorted_upstreams p)) as [v held] eqn:E.
  destruct (hold_leader_cases p v held E) as [Hp Hc].
  destruct (write_ranks_frame 0 v held (set_leader (head v) p)) as (Hu & Hh & _ & _).
  split_and!; [done|by eapply tried_up_first|by rewrite Hh|by rewrite Hu|]. exists held. split.
  - destruct Hc as [[-> ->]|Hc]; [left; split; [done|apply sorted_sorted]|by right].
  - intros a i Ha. rewrite (write_ranks_at 0 v held _ a i); [done| | |done].
    + rewrite Hp. apply NoDup_seq.
    + rewrite Hp. apply Forall_seq. simpl. lia.
Qed.
(** Three upstreams: the second is faster, the first led and is within the margin, the third
    is down. *)
Definition sampled_health (ms : Z) : Health := h_set_probe (f64_of ms) 1 (Some 0%Z) health_default.
Definition sample_upstream (name : bytes) : Upstream :=
  {| up_spec := {| us_kind := TkUdp; us_host := HostName name; us_port := 53; us_path := bs "/dns-query";
                   us_force_http3 := false; us_display := name |}; up_name := name |}.
Definition sample_pool : Pool :=
  {| pl_upstreams := [sample_upstream (bs "a"); sample_upstream (bs "b"); sample_upstream (bs "c")];
     pl_health := [sampled_health 23; sampled_health 20; h_set_liveness false 2 None (sampled_health 1)];
     pl_leader := Some 0; pl_settings := pool_settings_default |}.
Lemma ordered_correct_witness :
  (ordered sample_pool).1 = [0; 1; 2] ∧ (ordered (set_leader None sample_pool)).1 = [1; 0; 2]
  ∧ (ordered sample_pool).1 ≡ₚ [0; 1; 2].
Proof.
  split; [vm_compute; reflexivity|]. split; [vm_compute; reflexivity|].
  pose proof (ordered_correct sample_pool eq_refl) as H. destruct (ordered sample_pool). exact (proj1 H).
Defined.

(** ** The failover loop *)

Section sequential.
Context {DL : DnsLib} {DC : DnsCodec} (name : nat → bytes).
Implicit Types (l : list (nat * Attempt)) (a : Attempt).

(** The specification: the first answer; else the first reply; else the last error. *)
Definition attempt_reply (x : nat * Attempt) : option Resolved :=
  match x.2 with AtReply resp rtt => Some (resolved_by (name x.1) resp rtt) | _ => None end.
Definition attempt_answer (x : nat * Attempt) : option Resolved :=
  match x.2 with
  | AtReply resp rtt => match classify resp with RvAnswer => Some (resolved_by (name x.1) resp rtt) | _ => None end
  | _ => None
  end.
Definition attempt_error a : UpstreamError :=
  match a with AtReply resp _ => rcode_err resp | AtError e => e | AtTimeout => UeTimeout end.
Definition first_answer l : option Resolved := head (omap attempt_answer l).
Definition first_reply l : option Resolved := head (omap attempt_reply l).
Definition last_error l : UpstreamError := default UeNoUpstreams (attempt_error ∘ snd <$> last l).
Definition sequential_outcome l : result Resolved UpstreamError :=
  match first_answer l with
  | Some r => Ok r
  | None => match first_reply l with Some r => Ok r | None => Err (UeAllFailed (last_error l)) end
  end.
Definition loop_after (order : list nat) (ts : list Attempt) : LoopState :=
  foldl (λ s a, loop_attempt name a s) (loop_start order) ts.

Lemma head_omap_snoc {A B} (f : A → option B) (l0 : list A) x :
  head (omap f (l0 ++ [x])) = match head (omap f l0) with Some r => Some r | None => f x end.
Proof.
  rewrite omap_app. destruct (omap f l0); simpl; [|done]. by destruct (f x).
Qed.
Lemma zip_snoc {A B} (l1 : list A) (k : list B) x y :
  l1 !! length k = Some x → zip l1 (k ++ [y]) = zip l1 k ++ [(x, y)].
Proof.
  revert k. induction l1 as [|z l1 IH]; intros [|w k] H; simpl in *; try done.
  - injection H as ->. by rewrite zip_with_nil_r.
  - f_equal. by apply IH.
Qed.

Definition loop_spec (order : list nat) (ts : list Attempt) : LoopState :=
  let l := zip order ts in
  match first_answer l with
  | Some r => LpDone (Ok r)
  | None => loop_head (drop (length ts) order) (last_error l) (first_reply l)
  end.
Lemma loop_step_spec order ts a :
  length ts < length order → loop_attempt name a (loop_spec order ts) = loop_spec order (ts ++ [a]).
Proof.
  intros Hlt. destruct (lookup_lt_is_Some_2 _ _ Hlt) as [x Hx].
  unfold loop_spec. rewrite (zip_snoc _ _ _ _ Hx). unfold first_answer, first_reply, last_error.
  rewrite !head_omap_snoc, last_snoc, length_app. destruct (head (omap attempt_answer _)) as [r|] eqn:Ea; [done|].
  rewrite (drop_S _ _ _ Hx). simpl. rewrite Nat.add_1_r.
  generalize (head (omap attempt_reply (zip order ts))). intros fr. unfold attempt_answer, attempt_reply, attempt_error. simpl.
  destruct a as [resp rtt|e|]; simpl; [destruct (classify resp); [done| |]|..]; by destruct fr.
Qed.
Lemma loop_after_spec order ts : length ts ≤ length order → loop_after order ts = loop_spec order ts.
Proof.
  induction ts as [|a ts IH] using rev_ind; intros Hl.
  - unfold loop_after, loop_spec. by rewrite zip_with_nil_r.
  - rewrite length_app in Hl. simpl in Hl. unfold loop_after. rewrite foldl_app. simpl.
    fold (loop_after order ts). rewrite IH by lia. apply loop_step_spec. lia.
Qed.
End sequential.

(** C10: after the attempts [ts], the failover loop has asked the upstreams of [order]
    strictly in order, one attempt each: without an answer so far it waits for the next one,
    and it ends at the first answer or behind the last upstream.  Its result is the first
    reply that is neither a rejection nor a server failure; without one, the first reply of
    any kind; without any reply, [AllFailed] with the error of the last attempt. *)
Theorem resolve_sequential_correct {DL : DnsLib} {DC : DnsCodec} (name : nat → bytes) (order : list nat) (ts : list Attempt) :
  length ts ≤ length order →
  (first_answer name (zip order ts) = None → length ts < length order →
     loop_target (loop_after name order ts) = order !! length ts)
  ∧ (is_Some (first_answer name (zip order ts)) ∨ length ts = length order →
     loop_after name order ts = LpDone (sequential_outcome name (zip order ts))).
Proof.
  intros Hl. rewrite (loop_after_spec name order ts Hl). unfold loop_spec, sequential_outcome. split.
  - intros -> Hlt. destruct (lookup_lt_is_Some_2 _ _ Hlt) as [x Hx]. by rewrite (drop_S _ _ _ Hx), Hx.
  - intros H. destruct (first_answer _ _) as [r|]; [done|]. destruct H as [[? ?]|H]; [done|].
    rewrite H, drop_all. simpl. by destruct (first_reply _ _).
Qed.
#[local] Instance plain_codec : DnsCodec := {
  msg_to_vec _ := None; msg_from_vec _ := None; summarize _ := []; rcode_debug _ := bs "Code"; rtype_display _ := [];
}.
Definition sample_reply (rcode : Z) : Attempt := AtReply (set_rcode rcode (message_new 7 MtResponse OPCODE_QUERY)) 1000.
Lemma resolve_sequential_correct_witness :
  loop_after (λ i, bs "up") [2; 0; 1] [AtTimeout; sample_reply RC_SERVFAIL; sample_reply RC_REFUSED]
  = LpDone (sequential_outcome (λ i, bs "up") [(2, AtTimeout); (0, sample_reply RC_SERVFAIL); (1, sample_reply RC_REFUSED)])
  ∧ loop_target (loop_after (λ i, bs "up") [2; 0; 1] [AtTimeout]) = Some 0.
Proof.
  split.
  - apply (resolve_sequential_correct (λ i, bs "up") [2; 0; 1] [AtTimeout; sample_reply RC_SERVFAIL; sample_reply RC_REFUSED]);
      [simpl; lia|by right].
  - apply (resolve_sequential_correct (λ i, bs "up") [2; 0; 1] [AtTimeout]); simpl; [lia|done|lia].
Defined.

(** ** Coalescing *)

Section coalescing.
Context {DL : DnsLib} {DC : DnsCodec} {EL : EdnsLaws DL} (p0 : Pool).
Implicit Types (s : System) (fl : Flight) (c f : nat).

(** The invariant of the futures: what they have tried gives their state, and the order is
    over the upstreams of the pool. *)
Record flight_ok fl : Prop := {
  fo_loop : fl_loop fl = loop_after (name_at p0) (fl_order fl) (fl_tried fl);
  fo_tried : length (fl_tried fl) ≤ length (fl_order fl);
}.
Definition done_with fl (res : result Resolved UpstreamError) : Prop :=
  fl_loop fl = LpDone res ∧ res = sequential_outcome (name_at p0) (zip (fl_order fl) (fl_tried fl)).
Lemma flight_done fl res : flight_ok fl → fl_loop fl = LpDone res → done_with fl res.
Proof.
  intros [Hl Ht] Hd. split; [done|]. rewrite Hl, loop_after_spec in Hd by done.
  unfold loop_spec in Hd. unfold sequential_outcome. destruct (first_answer _ _); [by injection Hd as <-|].
  destruct (drop _ _); [|done]. simpl in Hd. injection Hd as <-. by destruct (first_reply _ _).
Qed.
Lemma flight_attempt_ok p a fl up :
  pl_upstreams p = pl_upstreams p0 → flight_ok fl → loop_target (fl_loop fl) = Some up → flight_ok (flight_attempt p a fl).
Proof.
  intros Hp [Hl Ht] Hup. assert (Hlt : length (fl_tried fl) < length (fl_order fl)).
  { destruct (decide (length (fl_tried fl) = length (fl_order fl))) as [He|]; [|lia].
    rewrite Hl, loop_after_spec in Hup by done. unfold loop_spec in Hup. rewrite He, drop_all in Hup.
    by destruct (first_answer _ _). }
  split; simpl; [|rewrite length_app; simpl; lia]. unfold loop_after. rewrite foldl_app. simpl.
  fold (loop_after (name_at p0) (fl_order fl) (fl_tried fl)). rewrite <- Hl. f_equal. unfold name_at. by rewrite Hp.
Qed.

(** A future of a given key, and what a call may hold. *)
Definition flight_for s f (key : option QueryKey) : Prop :=
  ∃ fl, sy_flights s !! f = Some fl ∧ key_from_message (fl_query fl) = key.
Definition served s (q : Message) (res : result Resolved UpstreamError) : Prop :=
  ∃ f fl res', sy_flights s !! f = Some fl ∧ key_from_message (fl_query fl) = key_from_message q
    ∧ done_with fl res' ∧ res = restore_id q res'.
Definition call_ok s (cl : Call) : Prop :=
  match cl with
  | ClMissed q key => key_from_message q = Some key
  | ClWaiting q key f guard => key_from_message q = Some key ∧ flight_for s f (Some key)
  | ClReturned q res =>
      served s q res ∨ (pl_upstreams p0 = [] ∧ res = Err UeNoUpstreams)
      ∨ (key_from_message q = None ∧ res = Err (UeProto (bs "query has no question")))
  | ClDropped _ => True
  end.
Definition guards s c (key : QueryKey) f : Prop := ∃ q, sy_calls s !! c = Some (ClWaiting q key f true).

Record system_ok s : Prop := {
  so_pool : pl_upstreams (sy_pool s) = pl_upstreams p0;
  so_flights : Forall flight_ok (sy_flights s);
  so_calls : Forall (call_ok s) (sy_calls s);
  so_keys : NoDup (sy_inflight s).*1;
  so_owned : ∀ key f, (key, f) ∈ sy_inflight s → ∃ c, guards s c key f;
  so_guard : ∀ c key f, guards s c key f → (key, f) ∈ sy_inflight s;
  so_unique : ∀ c c' key f f', guards s c key f → guards s c' key f' → c = c';
}.

(** Futures only advance, and a finished one stays as it is. *)
Definition flights_le s s' : Prop :=
  ∀ f fl, sy_flights s !! f = Some fl → ∃ fl', sy_flights s' !! f = Some fl' ∧ fl_query fl' = fl_query fl
    ∧ (∀ res, fl_loop fl = LpDone res → fl' = fl).
Lemma flights_le_same s s' : sy_flights s' = sy_flights s → flights_le s s'.
Proof. unfold flights_le. intros -> f fl H. by exists fl. Qed.
Lemma flight_for_mono s s' f key : flights_le s s' → flight_for s f key → flight_for s' f key.
Proof. intros Hle (fl & Hf & Hk). destruct (Hle f fl Hf) as (fl' & Hf' & Hq & _). exists fl'. by rewrite Hq. Qed.
Lemma call_ok_mono s s' cl : flights_le s s' → call_ok s cl → call_ok s' cl.
Proof.
  intros Hle. destruct cl as [q key|q key f g|q res|q]; simpl; [done| | |done].
  - intros [Hk Hf]. split; [done|]. by eapply flight_for_mono.
  - intros [(f & fl & res' & Hf & Hk & Hd & Hr)|H]; [|by right]. left.
    destruct (Hle f fl Hf) as (fl' & Hf' & _ & Hs). rewrite (Hs res' (proj1 Hd)) in Hf'. by exists f, fl, res'.
Qed.
Lemma calls_ok_mono s s' l : flights_le s s' → Forall (call_ok s) l → Forall (call_ok s') l.
Proof. intros Hle H. eapply Forall_impl; [exact H|]. intros cl. by apply call_ok_mono. Qed.

Definition holds_guard (cl : Call) : bool := match cl with ClWaiting _ _ _ g => g | _ => false end.
Lemma guards_insert s c old new c' key f :
  sy_calls s !! c = Some old → holds_guard new = false →
  guards (with_calls (<[c := new]> (sy_calls s)) s) c' key f ↔ c' ≠ c ∧ guards s c' key f.
Proof.
  intros Hc Hn. unfold guards. simpl. destruct (decide (c' = c)) as [->|Hne].
  - rewrite list_lookup_insert_eq by (by eapply lookup_lt_Some). split; [|by intros []]. intros [q [= ->]]. done.
  - rewrite list_lookup_insert_ne by done. tauto.
Qed.
Lemma no_guard_at s c cl key f : sy_calls s !! c = Some cl → holds_guard cl = false → ~ guards s c key f.
Proof. intros Hc Hh [q Hq]. rewrite Hc in Hq. by injection Hq as ->. Qed.

(** A call without the guard moves on. *)
Lemma move_call s c old new :
  system_ok s → sy_calls s !! c = Some old → holds_guard old = false → holds_guard new = false → call_ok s new →
  system_ok (with_calls (<[c := new]> (sy_calls s)) s).
Proof.
  intros [Hp Hf Hc Hk Ho Hg Hu] Hold Ho' Hn' Hok.
  assert (G : ∀ c' key f, guards (with_calls (<[c := new]> (sy_calls s)) s) c' key f ↔ guards s c' key f).
  { intros c' key f. rewrite (guards_insert _ _ old) by done. split; [by intros []|]. intros H. split; [|done].
    intros ->. by eapply no_guard_at. }
  split; simpl; try done.
  - apply Forall_insert; [|by eapply call_ok_mono; [apply flights_le_same|]]. by eapply calls_ok_mono; [apply flights_le_same|].
  - intros key f H. destruct (Ho key f H) as [c' Hc']. exists c'. by apply G.
  - intros c' key f ?%G. by eapply Hg.
  - intros c1 c2 key f f' ?%G ?%G. by eapply Hu.
Qed.
(** A call leaves its await, and its guard is dropped. *)
Lemma leave_call s c q key f guard new :
  system_ok s → sy_calls s !! c = Some (ClWaiting q key f guard) → holds_guard new = false → call_ok s new →
  system_ok (drop_guard guard key (with_calls (<[c := new]> (sy_calls s)) s)).
Proof.
  intros Hs Hold Hn Hok. destruct guard; [|by eapply move_call]. destruct Hs as [Hp Hf Hc Hk Ho Hg Hu].
  assert (Hm : guards s c key f) by (by exists q).
  assert (G : ∀ c' key' f', guards (drop_guard true key (with_calls (<[c := new]> (sy_calls s)) s)) c' key' f'
                            ↔ c' ≠ c ∧ guards s c' key' f') by (intros; by eapply guards_insert).
  split; simpl; try done.
  - apply Forall_insert; [|by eapply call_ok_mono; [apply flights_le_same|]]. by eapply calls_ok_mono; [apply flights_le_same|].
  - by apply adelete_nodup.
  - intros key' f' [Hin Hne]%adelete_elem. destruct (Ho key' f' Hin) as [c' Hc']. exists c'. apply G. split; [|done].
    intros ->. destruct Hc' as [q' Hq']. rewrite Hold in Hq'. injection Hq' as <- <- <-. done.
  - intros c' key' f' [Hne H]%G. apply adelete_elem. split; [by eapply Hg|]. simpl. intros ->. by eapply Hne, Hu.
  - intros c1 c2 key' f1 f2 [_ H1]%G [_ H2]%G. by eapply Hu.
Qed.
Lemma pool_ok s p : system_ok s → pl_upstreams p = pl_upstreams p0 → system_ok (with_pool p s).
Proof.
  intros [Hp Hf Hc Hk Ho Hg Hu] H. split; simpl; try done.
Qed.
Lemma inflight_flight s key f : system_ok s → alookup key (sy_inflight s) = Some f → flight_for s f (Some key).
Proof.
  intros Hs H%alookup_elem. destruct (so_owned s Hs _ _ H) as (c & q & Hc).
  pose proof (so_calls s Hs) as Hf. rewrite Forall_lookup in Hf. apply (Hf _ _ Hc).
Qed.

(** The steps. *)
Lemma enter_ok s q : system_ok s → system_ok (step s (EvEnter q)).
Proof.
  intros Hs. assert (Hok : call_ok s (resolve_enter s q) ∧ holds_guard (resolve_enter s q) = false).
  { unfold resolve_enter. rewrite (so_pool s Hs). case_bool_decide; [split; [by right; left|done]|].
    destruct (key_from_message q) as [key|] eqn:Ek; [|split; [by right; right|done]].
    destruct (alookup key (sy_inflight s)) as [f|] eqn:Ea; simpl; [|done]. split_and!; try done. by apply inflight_flight. }
  simpl. set (new := resolve_enter s q) in *. destruct Hok as [Hok Hn]. destruct Hs as [Hp Hf Hc Hk Ho Hg Hu].
  assert (G : ∀ c' key f, guards (with_calls (sy_calls s ++ [new]) s) c' key f ↔ guards s c' key f).
  { intros c' key f. unfold guards. simpl. split; intros [q' H]; exists q'.
    - apply lookup_app_Some in H as [H|[_ H]]; [done|]. apply list_lookup_singleton_Some in H as [_ H]. by rewrite H in Hn.
    - by apply lookup_app_l_Some. }
  split; simpl; try done.
  - eapply calls_ok_mono; [by apply flights_le_same|]. apply Forall_app. by rewrite Forall_singleton.
  - intros key f H. destruct (Ho key f H) as [c' Hc']. exists c'. by apply G.
  - intros c' key f ?%G. by eapply Hg.
  - intros c1 c2 key f f' ?%G ?%G. by eapply Hu.
Qed.
Lemma attempt_ok s f a d : system_ok s → system_ok (step s (EvAttempt f a d)).
Proof.
  intros Hs. simpl. destruct (sy_flights s !! f) as [fl|] eqn:Ef; [|done].
  destruct (loop_target (fl_loop fl)) as [up|] eqn:Eu; [|done]. destruct Hs as [Hp Hf Hc Hk Ho Hg Hu].
  split; simpl; try done.
  - apply Forall_insert; [done|]. eapply flight_attempt_ok; [done| |done]. by eapply Forall_lookup_1.
  - eapply calls_ok_mono; [|done]. intros f' fl' H. simpl. destruct (decide (f' = f)) as [->|Hne].
    + rewrite Ef in H. injection H as <-. rewrite list_lookup_insert_eq by (by eapply lookup_lt_Some).
      eexists. split; [done|]. split; [done|]. intros res Hr. by rewrite Hr in Eu.
    + rewrite list_lookup_insert_ne by done. by exists fl'.
Qed.
Lemma ordered_frame p : pl_upstreams (ordered p).2 = pl_upstreams p.
Proof.
  unfold ordered. destruct (hold_leader p _) as [v held]. simpl.
  by destruct (write_ranks_frame 0 v held (set_leader (head v) p)) as (-> & _).
Qed.
Lemma flight_new_ok order q : flight_ok (flight_new order q).
Proof. split; simpl; [done|lia]. Qed.
(** A call that missed twice publishes a new future and holds its guard. *)
Lemma publish_ok s c q key order :
  system_ok s → sy_calls s !! c = Some (ClMissed q key) → alookup key (sy_inflight s) = None →
  system_ok {| sy_pool := sy_pool s; sy_inflight := (key, length (sy_flights s)) :: sy_inflight s;
               sy_flights := sy_flights s ++ [flight_new order (normalize_upstream_edns q)];
               sy_calls := <[c := ClWaiting q key (length (sy_flights s)) true]> (sy_calls s) |}.
Proof.
  intros [Hp Hf Hc Hk Ho Hg Hu] Hcl Hnone. set (s' := {| sy_pool := _ |}). set (n := length (sy_flights s)) in *.
  apply alookup_None in Hnone.
  assert (Hkey : key_from_message q = Some key) by (rewrite Forall_lookup in Hc; by apply (Hc _ _ Hcl)).
  assert (G : ∀ c' key' f', guards s' c' key' f' ↔ (c' = c ∧ key' = key ∧ f' = n) ∨ guards s c' key' f').
  { intros c' key' f'. unfold guards. simpl. destruct (decide (c' = c)) as [->|Hne].
    - rewrite list_lookup_insert_eq by (by eapply lookup_lt_Some). split.
      + intros [q' [= -> -> ->]]. by left.
      + intros [(_ & -> & ->)|[q' Hq']]; [by exists q|]. by rewrite Hcl in Hq'.
    - rewrite list_lookup_insert_ne by done. split; [by right|]. by intros [[? _]|?]. }
  assert (Hle : flights_le s s').
  { intros f fl H. exists fl. split; [by apply lookup_app_l_Some|done]. }
  split; try done.
  - apply Forall_app. split; [done|]. apply Forall_singleton, flight_new_ok.
  - apply Forall_insert; [by eapply calls_ok_mono|]. split; [done|]. exists (flight_new order (normalize_upstream_edns q)).
    split; [simpl; rewrite lookup_app_r, Nat.sub_diag by done; done|]. simpl. by rewrite normalize_edns_key.
  - simpl. by constructor.
  - intros key' f'. simpl. intros [[= -> ->]|H]%elem_of_cons; [exists c; apply G; by left|].
    destruct (Ho _ _ H) as [c' Hc']. exists c'. apply G. by right.
  - intros c' key' f' [(-> & -> & ->)|H]%G; simpl; [by left|right; by eapply Hg].
  - assert (Hfresh : ∀ c' f', guards s c' key f' → False)
      by (intros c' f' H%Hg; apply Hnone; exact (list_elem_of_fmap_2 fst _ _ H)).
    intros c1 c2 key' f1 f2 [(-> & -> & ->)|H1]%G [(-> & ? & ?)|H2]%G; subst; try done.
    + by destruct (Hfresh _ _ H2).
    + by destruct (Hfresh _ _ H1).
    + by eapply Hu.
Qed.
Lemma launch_ok s c : system_ok s → system_ok (step s (EvLaunch c)).
Proof.
  intros Hs. simpl. destruct (sy_calls s !! c) as [[q key| | |]|] eqn:Ec; try done. unfold resolve_launch.
  pose proof (ordered_frame (sy_pool s)) as Hfr. destruct (ordered (sy_pool s)) as [order p]. simpl in Hfr.
  assert (Hs' : system_ok (with_pool p s)) by (apply pool_ok; [done|]; by rewrite Hfr, (so_pool s Hs)).
  simpl. destruct (alookup key (sy_inflight s)) as [f|] eqn:Ea.
  - apply (move_call (with_pool p s) c (ClMissed q key)); try done. split; [|by apply inflight_flight].
    pose proof (so_calls s Hs) as Hc. rewrite Forall_lookup in Hc. by apply (Hc _ _ Ec).
  - by apply (publish_ok (with_pool p s) c q key order).
Qed.
Lemma return_ok s c : system_ok s → system_ok (step s (EvReturn c)).
Proof.
  intros Hs. simpl. destruct (sy_calls s !! c) as [[|q key f guard| |]|] eqn:Ec; try done.
  destruct (sy_flights s !! f) as [fl|] eqn:Ef; simpl; [|done]. destruct (fl_loop fl) as [|res] eqn:El; [done|].
  eapply leave_call; try done. left. exists f, fl, res. split_and!; try done.
  - pose proof (so_calls s Hs) as Hc. rewrite Forall_lookup in Hc. destruct (Hc _ _ Ec) as [Hk (fl' & Hf' & Hk')].
    rewrite Ef in Hf'. injection Hf' as <-. by rewrite Hk, Hk'.
  - apply flight_done; [|done]. by eapply Forall_lookup_1; [apply so_flights|].
Qed.
Lemma drop_ok s c : system_ok s → system_ok (step s (EvDrop c)).
Proof.
  intros Hs. simpl. destruct (sy_calls s !! c) as [[|q key f guard| |]|] eqn:Ec; try done. by eapply leave_call.
Qed.
Lemma probe_ok s i a b d : system_ok s → system_ok (step s (EvProbe i a b d)).
Proof.
  intros Hs. apply pool_ok; [done|]. unfold pool_probe. by destruct (pl_upstreams _ !! i); simpl; rewrite (so_pool s Hs).
Qed.
Lemma system_step_ok s e : system_ok s → system_ok (step s e).
Proof. destruct e; auto using enter_ok, launch_ok, attempt_ok, return_ok, drop_ok, probe_ok. Qed.
Lemma run_ok es : system_ok (run (system_new p0) es).
Proof.
  unfold run. induction es as [|e es IH] using rev_ind; [|rewrite foldl_app; by apply system_step_ok].
  split; simpl; try done; [apply NoDup_nil_2| | |].
  - intros key f H. by apply not_elem_of_nil in H.
  - by intros c key f [q H].
  - by intros c c' key f f' [q H].
Qed.
End coalescing.

(** C8: in every interleaving of calls of [resolve], their cancellations, the completions
    of upstream attempts and probes, from a pool with no call in flight: the in-flight map
    holds at most one future for a key, and exactly the futures some waiting call guards,
    one call each (with no call left waiting the map is empty, so no future leaks).  A call
    that returned was refused because the pool is empty or the query has no question, or has
    the outcome of the failover loop of one future, started for a query of the same key, with
    the id of its own query restored. *)
Theorem resolve_coalesces {DL : DnsLib} {DC : DnsCodec} {EL : EdnsLaws DL} (p : Pool) (es : list Event) :
  let s := run (system_new p) es in
  NoDup (sy_inflight s).*1
  ∧ (∀ key f, (key, f) ∈ sy_inflight s ↔ ∃ c, guards s c key f)
  ∧ (∀ c c' key f f', guards s c key f → guards s c' key f' → c = c')
  ∧ (∀ c q res, sy_calls s !! c = Some (ClReturned q res) →
       served p s q res ∨ (pl_upstreams p = [] ∧ res = Err UeNoUpstreams)
       ∨ (key_from_message q = None ∧ res = Err (UeProto (bs "query has no question")))).
Proof.
  simpl. destruct (run_ok p es) as [_ _ Hc Hk Ho Hg Hu]. split_and!; try done.
  - intros key f. split; [apply Ho|]. intros [c H]. by eapply Hg.
  - intros c q res H. rewrite Forall_lookup in Hc. apply (Hc _ _ H).
Qed.
(** Two calls for the same question share one future; the second gets the answer under its
    own id, and nothing stays in flight. *)
Definition sample_question (id : Z) : Message :=
  {| msg_id := id; msg_type := MtQuery; msg_opcode := OPCODE_QUERY; msg_truncation := false; msg_rd := true;
     msg_ra := false; msg_cd := false; msg_rcode := RC_NOERROR;
     msg_queries := [{| q_name := bs "a"; q_type := RT_A; q_class := CLASS_IN |}]; msg_answers := [];
     msg_authorities := []; msg_additionals := []; msg_edns := None |}.
Definition sample_events : list Event :=
  [EvEnter (sample_question 1); EvLaunch 0; EvEnter (sample_question 2); EvAttempt 0 AtTimeout sample_draw;
   EvAttempt 0 (sample_reply RC_NOERROR) sample_draw; EvReturn 1; EvReturn 0].
Definition returned_ids (s : System) : list (option Z) :=
  (λ cl, match cl with ClReturned _ (Ok r) => Some (msg_id (rs_message r)) | _ => None end) <$> sy_calls s.
Lemma resolve_coalesces_witness :
  let s := run (system_new sample_pool) sample_events in
  returned_ids s = [Some 1%Z; Some 2%Z] ∧ length (sy_flights s) = 1 ∧ sy_inflight s = [] ∧ NoDup (sy_inflight s).*1.
Proof.
  split; [vm_compute; reflexivity|]. split; [vm_compute; reflexivity|]. split; [vm_compute; reflexivity|].
  apply (proj1 (resolve_coalesces sample_pool sample_events)).
Defined.
