(* ===== verification/PoolTerm.v ===== *)
(** * Termination of [resolve] and of the probe loop ([pool.rs]).

    A call does a bounded amount of work, whatever the other calls and the probes do in between,
    and can always go on until it returns; a probe loop sleeps between its probes. *)
From S2P Require Import Prelude RustStr RustNet RustFloat Dns DnsInstances Cache CacheProps Engine Spec ProbeLog Pool PoolProps.

(** ** [resolve] *)

Section resolve.
Context {DL : DnsLib} {DC : DnsCodec}.
Implicit Types (s : System) (e : Event).

(** The upstreams a failover loop has still to ask. *)
Definition remaining (fl : Flight) : nat := match fl_loop fl with LpRunning todo _ _ => length todo | LpDone _ => 0 end.
(** A call that has to launch may start a loop over all [n] upstreams; one that waits has to
    return. *)
Definition call_weight (n : nat) (cl : Call) : nat :=
  match cl with ClMissed _ _ => n + 2 | ClWaiting _ _ _ _ => 1 | _ => 0 end.
Definition work_left (n : nat) s : nat := sum_list_with (call_weight n) (sy_calls s) + sum_list_with remaining (sy_flights s).
(** The events that are steps of calls and of their shared futures, when they are enabled. *)
Definition enabled s e : bool :=
  match e with
  | EvLaunch c => match sy_calls s !! c with Some (ClMissed _ _) => true | _ => false end
  | EvAttempt f _ _ => match sy_flights s !! f with Some fl => is_some (loop_target (fl_loop fl)) | None => false end
  | EvReturn c =>
      match sy_calls s !! c with
      | Some (ClWaiting _ _ f _) => match fl_loop <$> sy_flights s !! f with Some (LpDone _) => true | _ => false end
      | _ => false
      end
  | EvDrop c => match sy_calls s !! c with Some (ClWaiting _ _ _ _) => true | _ => false end
  | EvEnter _ | EvProbe _ _ _ _ => false
  end.
Definition is_enter e : bool := match e with EvEnter _ => true | _ => false end.
(** The enabled steps, and the calls that enter, in a sequence of events. *)
Fixpoint steps_done s (es : list Event) : nat :=
  match es with [] => 0 | e :: es => (if enabled s e then 1 else 0) + steps_done (step s e) es end.
Definition entered (es : list Event) : nat := length (filter (λ e, is_enter e = true) es).
Definition finished s : Prop := Forall (λ cl, match cl with ClReturned _ _ | ClDropped _ => True | _ => False end) (sy_calls s).

Lemma weights_insert {A} (w : A → nat) l i x y : l !! i = Some x → sum_list_with w (<[i:=y]> l) + w x = sum_list_with w l + w y.
Proof.
  intros H. rewrite <- (take_drop_middle l i x H) at 2. rewrite insert_take_drop by (by eapply lookup_lt_Some).
  rewrite !sum_list_with_app. cbn [sum_list_with]. lia.
Qed.
Lemma sum_snoc {A} (w : A → nat) l x : sum_list_with w (l ++ [x]) = sum_list_with w l + w x.
Proof. rewrite sum_list_with_app. cbn [sum_list_with]. lia. Qed.
Lemma loop_attempt_remaining name a st : is_some (loop_target st) = true →
  match loop_attempt name a st with LpRunning todo _ _ => length todo | LpDone _ => 0 end
  < match st with LpRunning todo _ _ => length todo | LpDone _ => 0 end.
Proof.
  destruct st as [[|up todo] last fb|]; try done. intros _. cbn [loop_attempt length].
  destruct a as [resp rtt|e|]; [destruct (classify resp)|..]; unfold loop_head; try destruct todo; simpl; lia.
Qed.
Lemma drop_guard_sums n guard key s : work_left n (drop_guard guard key s) = work_left n s.
Proof. by destruct guard. Qed.
Lemma ordered_length p : length (ordered p).1 = length (pl_upstreams p).
Proof.
  unfold ordered. destruct (hold_leader p (sorted_upstreams p)) as [v held] eqn:E. destruct (hold_leader_cases p v held E) as [Hp _].
  cbn [fst]. rewrite Hp. apply length_seq.
Qed.

Lemma enabled_decreases n s e : length (pl_upstreams (sy_pool s)) = n → enabled s e = true → work_left n (step s e) < work_left n s.
Proof.
  intros Hn He. destruct e as [q|c|f a d|c|c|i a b d]; try done; cbn [enabled step] in *.
  - destruct (sy_calls s !! c) as [[q key| | |]|] eqn:Ec; try done. unfold resolve_launch.
    pose proof (ordered_length (sy_pool s)) as Hl. rewrite Hn in Hl. destruct (ordered (sy_pool s)) as [order p]. cbn [fst] in Hl.
    destruct (alookup key (sy_inflight _)) as [f|].
    + unfold work_left. cbn [sy_calls sy_flights with_calls with_pool].
      pose proof (weights_insert (call_weight n) _ c _ (ClWaiting q key f false) Ec) as Hs. cbn [call_weight] in Hs. lia.
    + unfold work_left. cbn [sy_calls sy_flights with_calls with_pool with_flights with_inflight]. rewrite sum_snoc.
      match goal with |- context [<[c := ?x]> _] => pose proof (weights_insert (call_weight n) _ c _ x Ec) as Hs end. cbn [call_weight] in Hs.
      enough (remaining (flight_new order (normalize_upstream_edns q)) <= n) by lia. unfold remaining, flight_new, loop_start, loop_head. cbn [fl_loop].
      destruct order; simpl in *; lia.
  - destruct (sy_flights s !! f) as [fl|] eqn:Ef; [|done]. destruct (loop_target (fl_loop fl)) as [up|] eqn:Et; [|done].
    unfold work_left. cbn [sy_calls sy_flights with_flights with_pool].
    pose proof (weights_insert remaining _ f _ (flight_attempt (sy_pool s) a fl) Ef) as Hs.
    pose proof (loop_attempt_remaining (name_at (sy_pool s)) a (fl_loop fl)) as Hr. rewrite Et in Hr. specialize (Hr eq_refl).
    change (match fl_loop fl with LpRunning todo _ _ => length todo | LpDone _ => 0 end) with (remaining fl) in Hr.
    change (match loop_attempt _ a _ with LpRunning todo _ _ => length todo | LpDone _ => 0 end) with (remaining (flight_attempt (sy_pool s) a fl)) in Hr. lia.
  - destruct (sy_calls s !! c) as [[|q key f guard| |]|] eqn:Ec; try done. destruct (fl_loop <$> sy_flights s !! f) as [[|res]|]; try done.
    rewrite drop_guard_sums. unfold work_left. cbn [sy_calls sy_flights with_calls].
    pose proof (weights_insert (call_weight n) _ c _ (ClReturned q (restore_id q res)) Ec) as Hs. cbn [call_weight] in Hs. lia.
  - destruct (sy_calls s !! c) as [[|q key f guard| |]|] eqn:Ec; try done. rewrite drop_guard_sums. unfold work_left. cbn [sy_calls sy_flights with_calls].
    pose proof (weights_insert (call_weight n) _ c _ (ClDropped q) Ec) as Hs. cbn [call_weight] in Hs. lia.
Qed.
Lemma enter_adds n s q : work_left n (step s (EvEnter q)) <= work_left n s + (n + 2).
Proof.
  cbn [step]. unfold work_left. cbn [sy_calls sy_flights with_calls]. rewrite sum_snoc. enough (call_weight n (resolve_enter s q) <= n + 2) by lia.
  unfold resolve_enter. case_bool_decide; [simpl; lia|]. destruct (key_from_message q); [|simpl; lia]. destruct (alookup _ _); simpl; lia.
Qed.
Lemma disabled_keeps n s e : enabled s e = false → is_enter e = false → work_left n (step s e) = work_left n s.
Proof.
  intros He Hi. destruct e as [q|c|f a d|c|c|i a b d]; try done; cbn [enabled step] in *.
  - by destruct (sy_calls s !! c) as [[| | |]|].
  - destruct (sy_flights s !! f) as [fl|]; [|done]. by destruct (loop_target (fl_loop fl)).
  - destruct (sy_calls s !! c) as [[|q key f guard| |]|]; try done. by destruct (fl_loop <$> sy_flights s !! f) as [[|res]|].
  - by destruct (sy_calls s !! c) as [[| | |]|].
Qed.
Lemma step_upstreams s e : pl_upstreams (sy_pool (step s e)) = pl_upstreams (sy_pool s).
Proof.
  destruct e as [q|c|f a d|c|c|i a b d]; cbn [step]; try done.
  - destruct (sy_calls s !! c) as [[q key| | |]|]; try done. unfold resolve_launch. pose proof (ordered_frame (sy_pool s)) as Hf.
    destruct (ordered (sy_pool s)) as [order p]. cbn [snd] in Hf. by destruct (alookup _ _).
  - destruct (sy_flights s !! f) as [fl|]; [|done]. by destruct (loop_target (fl_loop fl)).
  - destruct (sy_calls s !! c) as [[|q key f guard| |]|]; try done. destruct (fl_loop <$> sy_flights s !! f) as [[|res]|]; try done. by destruct guard.
  - destruct (sy_calls s !! c) as [[|q key f guard| |]|]; try done. by destruct guard.
  - unfold pool_probe. by destruct (pl_upstreams (sy_pool s) !! i).
Qed.
Lemma steps_bounded n s es : length (pl_upstreams (sy_pool s)) = n → steps_done s es <= work_left n s + (n + 2) * entered es.
Proof.
  revert s. induction es as [|e es IH]; intros s Hn; [simpl; lia|]. cbn [steps_done].
  assert (Hn' : length (pl_upstreams (sy_pool (step s e))) = n) by (by rewrite step_upstreams). specialize (IH _ Hn').
  unfold entered in *. rewrite filter_cons. destruct (is_enter e) eqn:Ee.
  - rewrite decide_True by done. cbn [length]. destruct e as [q| | | | |]; try done. cbn [enabled].
    pose proof (enter_adds n s q). lia.
  - rewrite decide_False by done. destruct (enabled s e) eqn:En.
    + pose proof (enabled_decreases n s e Hn En). lia.
    + rewrite disabled_keeps in IH by done. lia.
Qed.

Definition open_call (cl : Call) : Prop := match cl with ClMissed _ _ | ClWaiting _ _ _ _ => True | _ => False end.
Lemma finished_or_open s : finished s ∨ ∃ c cl, sy_calls s !! c = Some cl ∧ open_call cl.
Proof.
  unfold finished. induction (sy_calls s) as [|cl l IH]; [left; constructor|]. destruct cl as [q k|q k f g|q r|q].
  - right. by exists 0, (ClMissed q k).
  - right. by exists 0, (ClWaiting q k f g).
  - destruct IH as [IH|(c & cl & Hc & Ho)]; [left; by constructor|right; by exists (S c), cl].
  - destruct IH as [IH|(c & cl & Hc & Ho)]; [left; by constructor|right; by exists (S c), cl].
Qed.
(** A step of a call or of a future that is not a cancellation. *)
Definition moves_on e : Prop := match e with EvLaunch _ | EvAttempt _ _ _ | EvReturn _ => True | _ => False end.
Lemma flight_goes_on p fl : flight_ok p fl → is_some (loop_target (fl_loop fl)) = true ∨ ∃ res, fl_loop fl = LpDone res.
Proof.
  intros [Hl Ht]. rewrite Hl, loop_after_spec by done. unfold loop_spec. destruct (first_answer _ _) as [r|]; [right; eauto|].
  destruct (drop _ _); simpl; [right; eauto|by left].
Qed.
Local Abbreviation d0 := sample_draw.
Lemma progress p s : system_ok p s → finished s ∨ ∃ e, enabled s e = true ∧ moves_on e.
Proof.
  intros Hs. destruct (finished_or_open s) as [H|(c & cl & Hc & Ho)]; [by left|]. right. destruct cl as [q k|q k f g| |]; try done.
  - exists (EvLaunch c). cbn [enabled]. by rewrite Hc.
  - pose proof (so_calls _ s Hs) as Hcs. rewrite Forall_lookup in Hcs. destruct (Hcs _ _ Hc) as [_ (fl & Hf & _)].
    pose proof (Forall_lookup_1 _ _ _ _ (so_flights _ s Hs) Hf) as Hfo. destruct (flight_goes_on p fl Hfo) as [Ht|[res Hr]].
    + exists (EvAttempt f AtTimeout d0). cbn [enabled]. by rewrite Hf, Ht.
    + exists (EvReturn c). cbn [enabled]. rewrite Hc, Hf. cbn. by rewrite Hr.
Qed.
Context {EL : EdnsLaws DL}.
Lemma can_finish p s : system_ok p s → ∃ ws, Forall moves_on ws ∧ steps_done s ws = length ws ∧ finished (run s ws).
Proof.
  remember (work_left (length (pl_upstreams (sy_pool s))) s) as k eqn:Ek. revert s Ek.
  induction k as [k IH] using lt_wf_ind; intros s -> Hs. destruct (progress p s Hs) as [Hf|(e & He & Hm)].
  - exists []. split; [constructor|]. by split.
  - pose proof (enabled_decreases _ s e eq_refl He) as Hd. pose proof (system_step_ok p s e Hs) as Hs'.
    destruct (IH (work_left (length (pl_upstreams (sy_pool (step s e)))) (step s e))) with (s := step s e) as (ws & H1 & H2 & H3); [by rewrite step_upstreams|done|done|].
    exists (e :: ws). split; [by constructor|]. cbn [steps_done length]. rewrite He, H2. by split.
Qed.
Lemma steps_done_app s es ws : steps_done s (es ++ ws) = steps_done s es + steps_done (run s es) ws.
Proof. revert s. induction es as [|e es IH]; intros s; [done|]. cbn [app steps_done]. rewrite IH. unfold run. simpl. lia. Qed.
Lemma entered_app es ws : entered (es ++ ws) = entered es + entered ws.
Proof. unfold entered. by rewrite filter_app, length_app. Qed.
Lemma entered_moves ws : Forall moves_on ws → entered ws = 0.
Proof. unfold entered. induction 1 as [|e ws He _ IH]; [done|]. rewrite filter_cons, decide_False; [done|]. by destruct e. Qed.
(** C25: every call of [resolve] ends.  In any sequence of events from a pool with no call in
    flight, the steps that calls and their shared futures take (launching, attempts at
    upstreams, returning, being dropped) are at most the number of upstreams plus two for each
    call that entered; and from every state, with no further call and no cancellation, finitely
    many steps within that bound bring every call to its result. *)
Theorem resolve_terminates p es :
  let s := run (system_new p) es in
  let n := length (pl_upstreams p) in
  steps_done (system_new p) es <= (n + 2) * entered es
  ∧ ∃ ws, Forall moves_on ws ∧ steps_done s ws = length ws
      ∧ steps_done (system_new p) es + length ws <= (n + 2) * entered es ∧ finished (run s ws).
Proof.
  cbn zeta. split; [exact (steps_bounded _ (system_new p) es eq_refl)|].
  destruct (can_finish p (run (system_new p) es) (run_ok p es)) as (ws & H1 & H2 & H3). exists ws. split_and!; [done..| |done].
  pose proof (steps_bounded _ (system_new p) (es ++ ws) eq_refl) as H. rewrite steps_done_app, H2, entered_app, (entered_moves ws H1) in H.
  unfold work_left in H. cbn [sy_calls sy_flights system_new sy_pool sum_list_with] in H. lia.
Qed.
End resolve.

(** Two calls share a future; cut off in the middle, both can still be brought to their end. *)
Lemma resolve_terminates_witness :
  let s := run (system_new sample_pool) (take 4 sample_events) in
  steps_done (system_new sample_pool) (take 4 sample_events) = 2 ∧ ∃ ws, length ws ≤ 8 ∧ finished (run s ws).
Proof.
  assert (E : steps_done (system_new sample_pool) (take 4 sample_events) = 2) by (vm_compute; reflexivity).
  destruct (resolve_terminates sample_pool (take 4 sample_events)) as (_ & ws & _ & _ & H & Hf).
  split; [exact E|]. exists ws. split; [|exact Hf]. rewrite E in H.
  assert (Eb : (length (pl_upstreams sample_pool) + 2) * entered (take 4 sample_events) = 10) by (vm_compute; reflexivity).
  rewrite Eb in H. lia.
Defined.

(** ** The probe loop *)

(** One turn of [probe_loop]: it sleeps until the next probe is due, or probes. *)
Inductive Turn : Type := TurnSleep (remaining : Z) | TurnProbe (h : Health) (e : ProbeEvent).
Definition probe_turn {DL : DnsLib} {DC : DnsCodec} (st : PoolSettings) (now : Z) (d : Draw) (time_ms : Z) (u : Upstream) (first second : Attempt) (h : Health) : Turn :=
  match probe_due_in now h with
  | Some remaining => TurnSleep remaining
  | None => let '(h, e) := probe_once st d time_ms u first second h in TurnProbe h e
  end.

(** [is_empty], and [probe_all]: one probe of every upstream in turn, with the outcomes of its
    two shots. *)
Definition pool_is_empty (p : Pool) : bool := bool_decide (pl_upstreams p = []).
Definition probe_all {DL : DnsLib} {DC : DnsCodec} (shots : nat → Attempt * Attempt * Draw) (p : Pool) : Pool :=
  foldl (λ p i, let '(first, second, d) := shots i in pool_probe i first second d p) p (seq 0 (length (pl_upstreams p))).

Lemma backoff_range k : (5 * NANOS <= retry_backoff k <= 60 * NANOS)%Z.
Proof.
  unfold retry_backoff, DOWN_PROBE_MAX, DOWN_PROBE_BASE_SECS, NANOS.
  assert (Hs : (0 <= Z.min (Z.max 0 (k - 1)) 16 <= 16)%Z) by lia. generalize dependent (Z.min (Z.max 0 (k - 1)) 16)%Z. intros st Hs.
  rewrite Z.shiftl_mul_pow2 by lia. pose proof (Z.pow_le_mono_r 2 0 st ltac:(lia) ltac:(lia)) as H1.
  pose proof (Z.pow_le_mono_r 2 st 16 ltac:(lia) ltac:(lia)) as H2. change (2 ^ 16)%Z with 65536%Z in H2. rewrite Z.pow_0_r in H1.
  rewrite wrap_small by (unfold in_u; lia). lia.
Qed.
Lemma window_range r : (180 * NANOS <= healthy_probe_window r <= 900 * NANOS)%Z.
Proof. unfold healthy_probe_window, LEAD_PROBE_WINDOW, BENCH_PROBE_WINDOW, NANOS. destruct r; [destruct (_ <=? _)%Z|]; lia. Qed.
Lemma due_after now next h : h_next_probe_at h = Some next → (now < next)%Z →
  probe_due_in now h = Some (next - now)%Z ∧ probe_due_in (now + (next - now)) h = None.
Proof.
  intros Hn Hlt. unfold probe_due_in. rewrite Hn. cbn. rewrite (proj2 (Z.ltb_lt _ _) Hlt). split; [done|].
  by rewrite (proj2 (Z.ltb_ge _ _)) by lia.
Qed.
(** The probe loop neither spins nor starves.  Whatever a probe meets, the next turn of the
    loop sleeps: at least 3.75 s and at most 18 min 45 s (at most 75 s when the probe failed),
    and behind that sleep, with nothing written in between, a probe is due. *)
Theorem probe_loop_cadence {DL : DnsLib} {DC : DnsCodec} st d time_ms u first second h h' e :
  draw_ok d → probe_turn st (dw_now d) d time_ms u first second h = TurnProbe h' e →
  ∃ r, (∀ d' t' f' s', probe_turn st (dw_now d) d' t' u f' s' h' = TurnSleep r)
    ∧ (15 * NANOS <= 4 * r <= 4 * 1125 * NANOS)%Z
    ∧ (pe_outcome e ∉ [PoAnswer; PoMeasureFail] → (r <= 75 * NANOS)%Z)
    ∧ probe_due_in (dw_now d + r) h' = None.
Proof.
  intros [Hj _] Ht. unfold probe_turn in Ht. destruct (probe_due_in (dw_now d) h); [done|].
  assert (Hnext : ∃ w, h_next_probe_at h' = Some (dw_now d + dw_jitter d w)%Z ∧ (5 * NANOS <= w <= 900 * NANOS)%Z
                   ∧ (pe_outcome e ∉ [PoAnswer; PoMeasureFail] → (w <= 60 * NANOS)%Z)).
  { destruct (probe_once _ _ _ _ _ _ h) as [h1 e1] eqn:E. injection Ht as <- <-. revert E. unfold probe_once.
    destruct (probe_shot first) as [r1|o ue].
    - destruct (probe_shot second) as [r2|o2 e2]; intros [= <- <-]; eexists; (split; [reflexivity|]);
        (split; [match goal with |- context [healthy_probe_window ?r] => pose proof (window_range r) end; unfold NANOS in *; lia|]); cbn; set_solver.
    - intros [= <- <-]. eexists. split; [reflexivity|].
      match goal with |- context [retry_backoff ?k] => pose proof (backoff_range k) end. unfold NANOS in *. split; [lia|]. intros _. lia. }
  destruct Hnext as (w & Hn & Hw & Hf). assert (0 <= w)%Z as H0 by (unfold NANOS in *; lia). specialize (Hj w H0).
  destruct (due_after (dw_now d) _ h' Hn) as [H1 H2]; [unfold NANOS in *; lia|].
  replace (dw_now d + dw_jitter d w - dw_now d)%Z with (dw_jitter d w) in * by lia.
  exists (dw_jitter d w). split_and!.
  - intros d' t' f' s'. unfold probe_turn. by rewrite H1.
  - unfold NANOS in *; lia.
  - unfold NANOS in *; lia.
  - intros Ho. specialize (Hf Ho). unfold NANOS in *; lia.
  - exact H2.
Qed.

(** After [probe_all] the health of every upstream is that of one probe with its own shots, and
    the upstreams and the leader are what they were. *)
Lemma probe_all_spec {DL : DnsLib} {DC : DnsCodec} shots p : length (pl_health p) = length (pl_upstreams p) →
  let p' := probe_all shots p in
  pl_upstreams p' = pl_upstreams p ∧ pl_leader p' = pl_leader p
  ∧ ∀ i u h, pl_upstreams p !! i = Some u → pl_health p !! i = Some h →
      pl_health p' !! i = Some (probe_once (pl_settings p) (shots i).2 0 u (shots i).1.1 (shots i).1.2 h).1.
Proof.
  intros Hl. cbn zeta. unfold probe_all.
  assert (H : ∀ k, k <= length (pl_upstreams p) →
    let p' := foldl (λ p i, let '(first, second, d) := shots i in pool_probe i first second d p) p (seq 0 k) in
    pl_upstreams p' = pl_upstreams p ∧ pl_leader p' = pl_leader p ∧ pl_settings p' = pl_settings p
    ∧ ∀ i u h, pl_upstreams p !! i = Some u → pl_health p !! i = Some h →
        pl_health p' !! i = Some (if i <? k then (probe_once (pl_settings p) (shots i).2 0 u (shots i).1.1 (shots i).1.2 h).1 else h)).
  { induction k as [|k IH]; intros Hk; [done|]. destruct IH as (H1 & H2 & H3 & H4); [lia|]. rewrite seq_S, foldl_app. cbn [foldl].
    set (q := foldl _ p (seq 0 k)) in *. rewrite Nat.add_0_l. destruct (shots k) as [[f s2] d] eqn:Es. unfold pool_probe.
    destruct (lookup_lt_is_Some_2 (pl_upstreams p) k ltac:(lia)) as [u Hu]. rewrite H1, Hu. unfold update_health, set_health. cbn [pl_upstreams pl_leader pl_settings pl_health].
    split_and!; [done..|]. intros i u' h Hu' Hh. specialize (H4 i u' h Hu' Hh). destruct (decide (i = k)) as [->|Hne].
    - rewrite list_lookup_alter_eq, H4. destruct (Nat.ltb_spec k k); [lia|]. assert ((k <? S k) = true) as -> by (apply Nat.ltb_lt; lia).
      assert (u' = u) as -> by congruence. rewrite Es, H3. reflexivity.
    - rewrite list_lookup_alter_ne by done. rewrite H4. destruct (Nat.ltb_spec i k), (Nat.ltb_spec i (S k)); try lia; done. }
  destruct (H (length (pl_upstreams p)) ltac:(lia)) as (H1 & H2 & _ & H4). split_and!; [done..|]. intros i u h Hu Hh.
  rewrite (H4 i u h Hu Hh). by rewrite (proj2 (Nat.ltb_lt _ _) (lookup_lt_Some _ _ _ Hu)).
Qed.

(** ** Witness *)

Lemma probe_loop_cadence_witness : ∃ h' e r, probe_turn (DL:=small_dns) (DC:=small_codec) pool_settings_default 0 sample_draw 0 (sample_upstream (bs "a")) AtTimeout AtTimeout health_default
    = TurnProbe h' e ∧ probe_due_in r h' = None ∧ (4 * r <= 4 * 75 * NANOS)%Z.
Proof.
  destruct (probe_turn (DL:=small_dns) (DC:=small_codec) pool_settings_default 0 sample_draw 0 (sample_upstream (bs "a")) AtTimeout AtTimeout health_default)
    as [r|h' e] eqn:E; [exfalso; revert E; vm_compute; discriminate|].
  destruct (probe_loop_cadence (DL:=small_dns) (DC:=small_codec) pool_settings_default sample_draw 0 (sample_upstream (bs "a")) AtTimeout AtTimeout health_default h' e)
    as (r & _ & _ & Hf & Hd).
  - split; intros z Hz; simpl; lia.
  - exact E.
  - exists h', e, r. split; [done|]. split; [exact Hd|].
    assert (Ho : pe_outcome e = PoTimeout) by (injection E as _ <-; reflexivity).
    rewrite Ho in Hf. specialize (Hf ltac:(set_solver)). lia.
Defined.
