(* ===== verification/Config.v ===== *)
(** * bulwark-config: the configuration ([crates/bulwark-config/src/lib.rs] and [defaults.rs]).

    The YAML codec is an external crate: [ConfigCodec] is the pair of functions the sources
    call.  Socket addresses are those of [std::net] with the parser the defaults and the
    environment overrides use. *)
From Stdlib Require Import Ascii.
From S2P Require Import Prelude RustStr RustNet Clients Block.

(** ** Socket addresses *)

(** [SocketAddr]: an IPv6 one carries its scope. *)
Inductive SocketAddr : Type :=
| SaV4 (ip : ipv4) (port : Z)
| SaV6 (ip : ipv6) (scope : Z) (port : Z).
#[export] Instance SocketAddr_eq_dec : EqDecision SocketAddr.
Proof. solve_decision. Defined.

(** [SocketAddr::from_str]. *)
Definition read_port (s : bytes) : option (Z * bytes) :=
  let! s := read_given_char ":"%char s in read_number 10 (length s) true 65535 s.
Definition read_scope_id (s : bytes) : option (Z * bytes) :=
  let! s := read_given_char "%"%char s in read_number 10 (length s) true 4294967295 s.
Definition read_socket_addr_v4 (s : bytes) : option (SocketAddr * bytes) :=
  let! (ip, s) := read_ipv4_addr s in
  let! (port, s) := read_port s in
  Some (SaV4 ip port, s).
Definition read_socket_addr_v6 (s : bytes) : option (SocketAddr * bytes) :=
  let! s := read_given_char "["%char s in
  let! (ip, s) := read_ipv6_addr s in
  let '(scope, s) := default (0%Z, s) (read_scope_id s) in
  let! s := read_given_char "]"%char s in
  let! (port, s) := read_port s in
  Some (SaV6 ip scope port, s).
Definition parse_socket_addr : bytes → option SocketAddr :=
  parse_all (λ s, match read_socket_addr_v4 s with Some r => Some r | None => read_socket_addr_v6 s end).

(** ** Sections of the configuration *)

Definition SCHEMA_VERSION : Z := 1.

Record ServerConfig : Type := { sc_dns_bind : list SocketAddr; sc_http_bind : SocketAddr; sc_ratelimit : Z }.
Record UpstreamsConfig : Type := { uc_servers : bytes; uc_bootstrap : list SocketAddr; uc_timeout_secs : Z }.
Record CacheConfig : Type := {
  cg_enabled : bool; cg_size : Z; cg_min_ttl_secs : Z; cg_max_ttl_secs : Z; cg_optimistic_max_age_secs : Z;
}.
Record FilterListConfig : Type := {
  fl_id : Z; fl_name : bytes; fl_url : option bytes; fl_enabled : bool; fl_rule_count : Z; fl_last_updated : option Z;
}.
Record FilteringConfig : Type := {
  fc_enabled : bool; fc_blocking_mode : BlockingMode; fc_custom_block_ipv4 : ipv4; fc_custom_block_ipv6 : ipv6;
  fc_blocked_ttl_secs : Z; fc_lists : list FilterListConfig; fc_custom_rules : bytes;
}.
Record QueryLogConfig : Type := { qc_enabled : bool; qc_persist : bool; qc_retention_days : Z }.
Record UpstreamLogConfig : Type := { ulc_enabled : bool; ulc_persist : bool; ulc_retention_days : Z }.
Record PrivacyConfig : Type := { pv_anonymize_client_ips : bool }.
Record StatsConfig : Type := { stc_enabled : bool; stc_persist : bool; stc_retention_days : Z }.
Record AuthConfig : Type := { au_username : bytes; au_password_hash : option bytes; au_session_secret : option bytes }.
Record Config : Type := {
  cf_version : Z; cf_server : ServerConfig; cf_upstreams : UpstreamsConfig; cf_cache : CacheConfig;
  cf_filtering : FilteringConfig; cf_clients : list ClientConfig; cf_query_log : QueryLogConfig;
  cf_upstream_log : UpstreamLogConfig; cf_stats : StatsConfig; cf_privacy : PrivacyConfig; cf_auth : AuthConfig;
}.

(** [AuthConfig::needs_setup]. *)
Definition needs_setup (a : AuthConfig) : bool :=
  bool_decide (au_username a = []) || bool_decide (au_password_hash a = None).

(** ** Defaults *)

Definition default_dns_bind : list SocketAddr := [SaV4 UNSPECIFIED4 53].
Definition default_http_bind : SocketAddr := SaV4 UNSPECIFIED4 3000.
Definition default_upstreams : bytes :=
  bs "# Quad9 (DoH)" ++ [LF] ++ bs "https://dns.quad9.net/dns-query" ++ [LF] ++ bs "# Cloudflare (DoH)" ++ [LF]
  ++ bs "https://cloudflare-dns.com/dns-query" ++ [LF].
Definition quad (a b c d : Z) : ipv4 := Ipv4 (byte_of a) (byte_of b) (byte_of c) (byte_of d).
Definition default_bootstrap : list SocketAddr := [SaV4 (quad 1 1 1 1) 53; SaV4 (quad 9 9 9 9) 53].
Definition server_default : ServerConfig :=
  {| sc_dns_bind := default_dns_bind; sc_http_bind := default_http_bind; sc_ratelimit := 0 |}.
Definition upstreams_default : UpstreamsConfig :=
  {| uc_servers := default_upstreams; uc_bootstrap := default_bootstrap; uc_timeout_secs := 5 |}.
Definition cache_default : CacheConfig :=
  {| cg_enabled := true; cg_size := 10000; cg_min_ttl_secs := 0; cg_max_ttl_secs := 86400; cg_optimistic_max_age_secs := 0 |}.
Definition filtering_default : FilteringConfig :=
  {| fc_enabled := true; fc_blocking_mode := BmNxDomain; fc_custom_block_ipv4 := UNSPECIFIED4;
     fc_custom_block_ipv6 := UNSPECIFIED6; fc_blocked_ttl_secs := 10; fc_lists := []; fc_custom_rules := [] |}.
Definition query_log_default : QueryLogConfig := {| qc_enabled := true; qc_persist := true; qc_retention_days := 7 |}.
Definition upstream_log_default : UpstreamLogConfig :=
  {| ulc_enabled := false; ulc_persist := true; ulc_retention_days := 30 |}.
Definition stats_cfg_default : StatsConfig := {| stc_enabled := true; stc_persist := true; stc_retention_days := 30 |}.
Definition auth_default : AuthConfig := {| au_username := []; au_password_hash := None; au_session_secret := None |}.
Definition config_default : Config :=
  {| cf_version := SCHEMA_VERSION; cf_server := server_default; cf_upstreams := upstreams_default;
     cf_cache := cache_default; cf_filtering := filtering_default; cf_clients := []; cf_query_log := query_log_default;
     cf_upstream_log := upstream_log_default; cf_stats := stats_cfg_default;
     cf_privacy := {| pv_anonymize_client_ips := false |}; cf_auth := auth_default |}.

(** ** Upstream lines *)

(** [active_specs]. *)
Definition is_active_line (l : bytes) : bool := negb (bool_decide (l = [])) && negb (starts_with (bs "#") l).
Definition active_specs (u : UpstreamsConfig) : list bytes := filter (λ l, is_active_line l = true) (trim <$> lines (uc_servers u)).

(** [normalize]: the loop over the lines, then the blank lines at both ends are dropped. *)
Fixpoint normalize_loop (blanks : Z) (ls : list bytes) : bytes :=
  match ls with
  | [] => []
  | l :: ls =>
      let l := trim l in
      match l with
      | [] => let blanks := wrap 32 (blanks + 1) in
              if (1 <? blanks)%Z then normalize_loop blanks ls else l ++ [LF] ++ normalize_loop blanks ls
      | _ :: _ => l ++ [LF] ++ normalize_loop 0 ls
      end
  end.
Definition normalize_servers (s : bytes) : bytes :=
  match trim_matches LF (normalize_loop 0 (lines s)) with
  | [] => []
  | trimmed => trimmed ++ [LF]
  end.
Definition upstreams_normalize (u : UpstreamsConfig) : UpstreamsConfig :=
  {| uc_servers := normalize_servers (uc_servers u); uc_bootstrap := uc_bootstrap u; uc_timeout_secs := uc_timeout_secs u |}.

(** ** Validation, allocation of list ids, loading and saving *)

Inductive ConfigError : Type :=
| CeIo
| CeYaml
| CeInvalid (why : bytes).

(** [Config::validate]. *)
Definition validate (c : Config) : result () ConfigError :=
  if bool_decide (sc_dns_bind (cf_server c) = []) then Err (CeInvalid (bs "server.dns_bind must not be empty"))
  else if negb (cg_max_ttl_secs (cf_cache c) =? 0)%Z && (cg_max_ttl_secs (cf_cache c) <? cg_min_ttl_secs (cf_cache c))%Z then
    Err (CeInvalid (bs "cache.min_ttl_secs (" ++ show_dec (cg_min_ttl_secs (cf_cache c)) ++ bs ") exceeds max_ttl_secs ("
                    ++ show_dec (cg_max_ttl_secs (cf_cache c)) ++ bs ")"))
  else if bool_decide (active_specs (cf_upstreams c) = []) then
    Err (CeInvalid (bs "at least one upstream must be configured"))
  else Ok ().

(** [next_list_id]: the addition wraps at 32 bits in the release profile. *)
Definition max_id (ids : list Z) : option Z :=
  match ids with [] => None | i :: ids => Some (foldl Z.max i ids) end.
Definition next_list_id (c : Config) : Z :=
  match max_id (fl_id <$> fc_lists (cf_filtering c)) with None => 1 | Some m => wrap 32 (m + 1) end.

(** The YAML codec. *)
Class ConfigCodec : Type := {
  config_to_yaml : Config → option bytes;
  config_from_yaml : bytes → option Config;
}.
(** What the sources rely on: a configuration that was written reads back. *)
Class ConfigCodecLaws (CC : ConfigCodec) : Prop := {
  yaml_roundtrip c text : config_to_yaml c = Some text → config_from_yaml text = Some c;
}.

Definition set_clients (l : list ClientConfig) (c : Config) : Config :=
  {| cf_version := cf_version c; cf_server := cf_server c; cf_upstreams := cf_upstreams c; cf_cache := cf_cache c;
     cf_filtering := cf_filtering c; cf_clients := l; cf_query_log := cf_query_log c;
     cf_upstream_log := cf_upstream_log c; cf_stats := cf_stats c; cf_privacy := cf_privacy c; cf_auth := cf_auth c |}.
(** [load_or_default]; [file] is what reading the path gives: absent, unreadable, or a text. *)
Definition load_or_default `{ConfigCodec} (file : option (option bytes)) : result Config ConfigError :=
  match file with
  | None => Ok config_default
  | Some contents =>
      let? text := ok_or contents CeIo in
      let? cfg := ok_or (config_from_yaml text) CeYaml in
      let? _ := validate cfg in
      Ok (set_clients (filter (λ cl, cc_id cl ≠ []) (cf_clients cfg)) cfg)
  end.
(** [save]: the text that replaces the file, when the writes succeed. *)
Definition save_config `{ConfigCodec} (cfg : Config) (io_ok : bool) : result bytes ConfigError :=
  let? text := ok_or (config_to_yaml cfg) CeYaml in
  if io_ok then Ok text else Err CeIo.
