(* ===== verification/ConfigProps.v ===== *)
(** * Properties of the configuration: normalising the upstream text is idempotent and keeps
    the active specifications, the defaults are valid, list ids are fresh, and a saved
    configuration loads as it was. *)
From Stdlib Require Import Ascii.
From S2P Require Import Prelude RustStr RustNet Rule Parser ParserProps Compiler Clients Block Config.

(** ** Trimmed lines *)

(** A trimmed line has no carriage return to strip. *)
Lemma strip_cr_trim s : strip_cr (trim s) = trim s.
Proof.
  unfold strip_cr, strip_suffix, ends_with. case_bool_decide as H; [|done]. exfalso.
  assert (Hl : last (trim s) = Some CR).
  { rewrite <- (take_drop (length (trim s) - length [CR]) (trim s)), H. by rewrite last_snoc. }
  unfold trim, trim_end in Hl. rewrite last_reverse in Hl. revert Hl. generalize (reverse (trim_start s)). intros r.
  assert (Hr : ∀ x, head (trim_start_rev r) = Some x → ws1 x = false).
  { clear. remember (length r) as n eqn:En. revert r En. induction n as [n IH] using lt_wf_ind.
    intros [|a t] En x; [done|]. simpl in *.
    destruct (ws1 a) eqn:E1; [by apply (IH (length t)); [lia|]|].
    destruct t as [|b t2]; simpl in *; [by intros [= <-]|].
    destruct (ws2 b a); [by apply (IH (length t2)); [lia|]|].
    destruct t2 as [|c t3]; simpl in *; [by intros [= <-]|].
    destruct (ws3 c b a); [by apply (IH (length t3)); [lia|]|]. by intros [= <-]. }
  intros Hh. by apply Hr in Hh.
Qed.

(** ** Lines *)

(** The text of a list of lines. *)
Definition unlines (ls : list bytes) : bytes := mjoin ((λ l, l ++ [LF]) <$> ls).
Lemma unlines_cons l ls : unlines (l :: ls) = l ++ LF :: unlines ls.
Proof. unfold unlines. csimpl. by rewrite <- app_assoc. Qed.
Lemma unlines_app ls ks : unlines (ls ++ ks) = unlines ls ++ unlines ks.
Proof. unfold unlines. by rewrite fmap_app, join_app. Qed.
(** A line as [normalize] writes it: trimmed, without a line feed. *)
Definition clean_line (l : bytes) : Prop := (LF ∉ l) ∧ trim l = l.
Lemma lines_of_snoc ls : Forall (λ l, strip_cr l = l) ls → lines_of (ls ++ [[]]) = ls.
Proof.
  induction 1 as [|l ls Hl _ IH]; [done|]. simpl. destruct (ls ++ [[]]) eqn:E; [by destruct ls|]. by rewrite Hl, IH.
Qed.
Lemma lines_unlines ls : Forall clean_line ls → lines (unlines ls) = ls.
Proof.
  intros H. unfold lines. assert (Hs : split_byte LF (unlines ls) = ls ++ [[]]).
  { induction H as [|l ls [Hl _] _ IH]; [done|]. rewrite unlines_cons, split_byte_app by done. by rewrite IH. }
  rewrite Hs. apply lines_of_snoc. eapply Forall_impl; [exact H|]. intros l [_ <-]. apply strip_cr_trim.
Qed.
Lemma lines_clean s : Forall clean_line (trim <$> lines s).
Proof.
  apply Forall_fmap, Forall_forall. intros l Hl. split; [|apply trim_fix]. intros Hb%trim_subset.
  unfold lines in Hl. destruct (lines_of_subset _ _ _ Hl Hb) as (p & Hp & Hbp).
  revert Hp Hbp. clear. revert p. induction s as [|a s IH]; intros p Hp Hbp; simpl in *.
  - apply list_elem_of_singleton in Hp as ->. by apply not_elem_of_nil in Hbp.
  - case_bool_decide as Ha.
    + apply elem_of_cons in Hp as [->|Hp]; [by apply not_elem_of_nil in Hbp|by eapply IH].
    + destruct (split_byte LF s) as [|w ws] eqn:E; [by destruct (split_byte_nonempty LF s)|].
      apply elem_of_cons in Hp as [->|Hp]; [|eapply IH; [by right|done]].
      apply elem_of_cons in Hbp as [Hbp|Hbp]; [by apply Ha|]. by eapply IH; [left|].
Qed.

(** ** [normalize] *)

(** Runs of blank lines become one; then the blank lines at both ends go. *)
Fixpoint collapse (after_blank : bool) (ls : list bytes) : list bytes :=
  match ls with
  | [] => []
  | [] :: ls => if after_blank then collapse true ls else ([] :: collapse true ls)
  | l :: ls => l :: collapse false ls
  end.
Fixpoint drop_blanks (ls : list bytes) : list bytes :=
  match ls with [] :: ls => drop_blanks ls | _ => ls end.
Definition trim_blanks (ls : list bytes) : list bytes := reverse (drop_blanks (reverse (drop_blanks ls))).

Lemma normalize_loop_unlines blanks ls :
  (0 <= blanks)%Z → (blanks + Z.of_nat (length ls) < 2 ^ 32)%Z →
  normalize_loop blanks ls = unlines (collapse (0 <? blanks)%Z (trim <$> ls)).
Proof.
  revert blanks. induction ls as [|l ls IH]; intros blanks H0 H1; [done|]. rewrite fmap_cons. cbn [normalize_loop collapse].
  cbn [length] in H1. destruct (trim l) as [|b l'].
  - rewrite wrap_small by (unfold in_u; lia). destruct (Z.ltb_spec 0 blanks).
    + rewrite (proj2 (Z.ltb_lt 1 (blanks + 1))) by lia. rewrite IH by lia. by rewrite (proj2 (Z.ltb_lt _ _)) by lia.
    + rewrite (proj2 (Z.ltb_ge 1 (blanks + 1))) by lia. rewrite IH by lia. by rewrite (proj2 (Z.ltb_lt _ _)) by lia.
  - by rewrite unlines_cons, IH by lia.
Qed.
Lemma trim_start_unlines ls : Forall clean_line ls →
  trim_start_matches (λ b, bool_decide (b = LF)) (unlines ls) = unlines (drop_blanks ls).
Proof.
  induction 1 as [|l ls [Hl _] _ IH]; [done|]. rewrite unlines_cons. destruct l as [|b l]; simpl.
  - exact IH.
  - rewrite bool_decide_false by set_solver. by rewrite unlines_cons.
Qed.
(** Reading the text backwards, the lines are reversed. *)
Lemma trim_end_unlines ls : Forall clean_line ls →
  trim_end_matches LF (unlines ls) =
    match reverse (drop_blanks (reverse ls)) with [] => [] | ds => take (length (unlines ds) - 1) (unlines ds) end.
Proof.
  intros H. rewrite <- (reverse_involutive ls) at 1. apply Forall_reverse in H. unfold trim_end_matches.
  induction (reverse ls) as [|l rs IH]; [done|]. apply Forall_cons in H as [[Hl _] H]. specialize (IH H).
  rewrite reverse_cons, unlines_app. unfold unlines at 2. simpl. rewrite app_nil_r, !reverse_app. simpl.
  destruct l as [|b l]; [exact IH|].
  destruct (reverse (b :: l)) as [|z r] eqn:Er.
  { apply (f_equal length) in Er. rewrite length_reverse in Er. done. }
  simpl. rewrite bool_decide_false; last first.
  { intros ->. apply Hl. apply elem_of_reverse. rewrite Er. by left. }
  destruct (reverse ((b :: l) :: rs)) as [|w ws] eqn:Ew.
  { apply (f_equal length) in Ew. rewrite length_reverse in Ew. done. }
  assert (Hu : unlines (w :: ws) = (unlines (reverse rs) ++ b :: l) ++ [LF]).
  { rewrite <- Ew, reverse_cons, unlines_app, unlines_cons. by rewrite <- app_assoc. }
  change (z :: r ++ reverse (unlines (reverse rs))) with ((z :: r) ++ reverse (unlines (reverse rs))).
  rewrite <- Er, reverse_app, !reverse_involutive, Hu, length_app. simpl. rewrite Nat.add_sub.
  by rewrite take_app_length.
Qed.

Lemma drop_blanks_sub ls l : l ∈ drop_blanks ls → l ∈ ls.
Proof. induction ls as [|[|b w] ls IH]; [done| |done]. intros H. right. auto. Qed.
Lemma trim_blanks_clean ls : Forall clean_line ls → Forall clean_line (trim_blanks ls).
Proof.
  rewrite !Forall_forall. intros H l. unfold trim_blanks. rewrite elem_of_reverse.
  intros Hl%drop_blanks_sub. rewrite elem_of_reverse in Hl. apply drop_blanks_sub in Hl. auto.
Qed.
Lemma collapse_clean b ls : Forall clean_line ls → Forall clean_line (collapse b ls).
Proof.
  intros H. revert b. induction H as [|l ls Hl _ IH]; intros b; simpl; [constructor|].
  destruct l; [destruct b|]; auto.
Qed.
Lemma normalize_servers_unlines s : (Z.of_nat (length (lines s)) < 2 ^ 32)%Z →
  normalize_servers s = unlines (trim_blanks (collapse false (trim <$> lines s))).
Proof.
  intros Hs. unfold normalize_servers. rewrite normalize_loop_unlines by lia. change (0 <? 0)%Z with false.
  assert (Hc : Forall clean_line (collapse false (trim <$> lines s))) by apply collapse_clean, lines_clean.
  revert Hc. generalize (collapse false (trim <$> lines s)). intros ls Hc. unfold trim_matches, trim_blanks.
  rewrite (trim_start_unlines ls Hc). rewrite trim_end_unlines; last first.
  { apply Forall_forall. intros l Hl%drop_blanks_sub. by eapply Forall_forall. }
  assert (Hd : drop_blanks (reverse (drop_blanks ls)) ≠ [] → head (drop_blanks (reverse (drop_blanks ls))) ≠ Some []).
  { induction (reverse (drop_blanks ls)) as [|[|] rs IH]; simpl; [done|exact IH|done]. }
  destruct (drop_blanks (reverse (drop_blanks ls))) as [|d ds] eqn:E; [done|]. specialize (Hd ltac:(done)).
  destruct d as [|b d]; [done|].
  assert (Hu : unlines (reverse ((b :: d) :: ds)) = (unlines (reverse ds) ++ b :: d) ++ [LF]).
  { rewrite reverse_cons, unlines_app, unlines_cons. by rewrite <- app_assoc. }
  destruct (reverse ((b :: d) :: ds)) as [|w ws] eqn:Er.
  { apply (f_equal length) in Er. rewrite length_reverse in Er. done. }
  rewrite <- Er in *. cbv zeta. rewrite Hu. clear Hu Er. rewrite length_app. simpl. rewrite Nat.add_sub, take_app_length.
  by destruct (unlines (reverse ds)).
Qed.

Lemma filter_drop_blanks (P : bytes → bool) ls : P [] = false →
  filter (λ l, P l = true) (drop_blanks ls) = filter (λ l, P l = true) ls.
Proof.
  intros HP. induction ls as [|[|b l] ls IH]; [done| |done]. rewrite filter_cons_False by (by rewrite HP). exact IH.
Qed.
Lemma filter_collapse (P : bytes → bool) b ls : P [] = false →
  filter (λ l, P l = true) (collapse b ls) = filter (λ l, P l = true) ls.
Proof.
  intros HP. revert b. induction ls as [|[|c l] ls IH]; intros b; [done| |].
  - rewrite filter_cons_False by (by rewrite HP). destruct b; [apply IH|]. cbn [collapse].
    rewrite filter_cons_False by (by rewrite HP). apply IH.
  - cbn [collapse]. rewrite !filter_cons. by rewrite IH.
Qed.
Lemma filter_trim_blanks (P : bytes → bool) ls : P [] = false →
  filter (λ l, P l = true) (trim_blanks ls) = filter (λ l, P l = true) ls.
Proof.
  intros HP. unfold trim_blanks. rewrite filter_reverse, filter_drop_blanks, <- filter_reverse by done.
  by rewrite reverse_involutive, filter_drop_blanks.
Qed.
Lemma active_specs_normalize u : (Z.of_nat (length (lines (uc_servers u))) < 2 ^ 32)%Z →
  active_specs (upstreams_normalize u) = active_specs u.
Proof.
  intros Hs. unfold active_specs. simpl. rewrite normalize_servers_unlines by done.
  set (ls := trim_blanks _). assert (Hc : Forall clean_line ls) by apply trim_blanks_clean, collapse_clean, lines_clean.
  rewrite lines_unlines by done. assert (Ht : trim <$> ls = ls).
  { rewrite <- (list_fmap_id ls) at 2. apply list_fmap_ext. intros i l Hl. by apply (Forall_lookup_1 _ _ _ _ Hc Hl). }
  rewrite Ht. unfold ls. by rewrite (filter_trim_blanks is_active_line), (filter_collapse is_active_line) by done.
Qed.

(** *** Normalising twice *)

(** No two blank lines in a row. *)
Definition spaced (ls : list bytes) : Prop := ∀ i, ls !! i = Some [] → ls !! S i ≠ Some [].
Lemma spaced_infix p m q : spaced (p ++ m ++ q) → spaced m.
Proof.
  intros H i Hi Hj. apply (H (length p + i)).
  - rewrite lookup_app_r, Nat.add_comm, Nat.add_sub by lia. by apply lookup_app_l_Some.
  - rewrite lookup_app_r by lia. replace (S (length p + i) - length p) with (S i) by lia. by apply lookup_app_l_Some.
Qed.
Lemma collapse_head ls : collapse true ls !! 0 ≠ Some [].
Proof. induction ls as [|[|] ls IH]; simpl; [done|exact IH|done]. Qed.
Lemma collapse_spaced b ls : spaced (collapse b ls).
Proof.
  revert b. induction ls as [|[|c l] ls IH]; intros b; [by intros [|i]| |].
  - simpl. destruct b; [apply IH|]. intros [|i]; [intros _; apply collapse_head|apply IH].
  - simpl. intros [|i]; [done|apply IH].
Qed.
Lemma spaced_collapse ls : spaced ls → collapse false ls = ls.
Proof.
  assert (H : ∀ b, spaced ls → (b = true → ls !! 0 ≠ Some []) → collapse b ls = ls); [|by intros Hs; apply H].
  induction ls as [|[|c l] ls IH]; intros b Hs Hb; [done| |]; simpl.
  - destruct b; [by destruct (Hb eq_refl)|]. f_equal. apply IH.
    + intros i. exact (Hs (S i)).
    + intros _. exact (Hs 0 eq_refl).
  - f_equal. apply IH; [|done]. intros i. exact (Hs (S i)).
Qed.
Lemma drop_blanks_suffix ls : ∃ k, ls = k ++ drop_blanks ls.
Proof. induction ls as [|[|c l] ls [k Hk]]; [by exists []| |by exists []]. exists ([] :: k). simpl. by rewrite <- Hk. Qed.
Lemma drop_blanks_head ls : head (drop_blanks ls) ≠ Some [].
Proof. induction ls as [|[|c l] ls IH]; simpl; [done|exact IH|done]. Qed.
Lemma drop_blanks_id ls : head ls ≠ Some [] → drop_blanks ls = ls.
Proof. by destruct ls as [|[|c l] ls]. Qed.
Lemma trim_blanks_infix ls : ∃ p q, ls = p ++ trim_blanks ls ++ q.
Proof.
  destruct (drop_blanks_suffix ls) as [p Hp]. destruct (drop_blanks_suffix (reverse (drop_blanks ls))) as [q Hq].
  exists p, (reverse q). rewrite Hp at 1. f_equal. apply (f_equal reverse) in Hq. by rewrite reverse_involutive, reverse_app in Hq.
Qed.
Lemma trim_blanks_fix ls : trim_blanks (trim_blanks ls) = trim_blanks ls.
Proof.
  unfold trim_blanks at 1. rewrite (drop_blanks_id (trim_blanks ls)).
  - unfold trim_blanks. by rewrite reverse_involutive, (drop_blanks_id (drop_blanks _)) by apply drop_blanks_head.
  - destruct (drop_blanks_suffix (reverse (drop_blanks ls))) as [q Hq]. apply (f_equal reverse) in Hq.
    rewrite reverse_involutive, reverse_app in Hq. fold (trim_blanks ls) in Hq. pose proof (drop_blanks_head ls) as Hh.
    rewrite Hq in Hh. by destruct (trim_blanks ls).
Qed.
Lemma trim_clean ls : Forall clean_line ls → trim <$> ls = ls.
Proof.
  intros Hc. rewrite <- (list_fmap_id ls) at 2. apply list_fmap_ext. intros i l Hl. by apply (Forall_lookup_1 _ _ _ _ Hc Hl).
Qed.
Lemma collapse_length b ls : length (collapse b ls) <= length ls.
Proof.
  revert b. induction ls as [|[|c l] ls IH]; intros b; simpl; [lia| |].
  - destruct b; simpl; specialize (IH true); lia.
  - specialize (IH false). lia.
Qed.
Lemma trim_blanks_length ls : length (trim_blanks ls) <= length ls.
Proof. destruct (trim_blanks_infix ls) as (p & q & H). rewrite H at 2. rewrite !length_app. lia. Qed.

Lemma normalize_servers_fix s : (Z.of_nat (length (lines s)) < 2 ^ 32)%Z →
  normalize_servers (normalize_servers s) = normalize_servers s.
Proof.
  intros Hs. rewrite (normalize_servers_unlines s) by done. set (C := collapse false _).
  assert (Hc : Forall clean_line (trim_blanks C)) by apply trim_blanks_clean, collapse_clean, lines_clean.
  rewrite normalize_servers_unlines; rewrite lines_unlines by done.
  - rewrite trim_clean by done. rewrite spaced_collapse; [by rewrite trim_blanks_fix|].
    destruct (trim_blanks_infix C) as (p & q & H). apply (spaced_infix p _ q). rewrite <- H. apply collapse_spaced.
  - pose proof (trim_blanks_length C). pose proof (collapse_length false (trim <$> lines s)) as Hl.
    rewrite length_fmap in Hl. unfold C in *. lia.
Qed.
Lemma normalize_fix u : (Z.of_nat (length (lines (uc_servers u))) < 2 ^ 32)%Z →
  upstreams_normalize (upstreams_normalize u) = upstreams_normalize u.
Proof. intros H. unfold upstreams_normalize. simpl. by rewrite normalize_servers_fix. Qed.

(** Normalising the upstream text before it is saved changes its layout only: the
    specifications it activates are the same, in the same order, and normalising the result
    again changes nothing.  The blank-line counter is a 32-bit integer, so the text is assumed
    to have fewer than [2^32] lines. *)
Theorem normalize_layout_only u : (Z.of_nat (length (lines (uc_servers u))) < 2 ^ 32)%Z →
  active_specs (upstreams_normalize u) = active_specs u
  ∧ upstreams_normalize (upstreams_normalize u) = upstreams_normalize u.
Proof. intros H. split; [by apply active_specs_normalize|by apply normalize_fix]. Qed.
Definition messy_upstreams : UpstreamsConfig :=
  {| uc_servers := [LF; LF] ++ bs "  tls://9.9.9.9 " ++ [CR; LF; LF; LF] ++ bs "# note" ++ [LF] ++ bs "1.1.1.1" ++ [LF; LF];
     uc_bootstrap := default_bootstrap; uc_timeout_secs := 5 |}.
Lemma normalize_layout_only_witness :
  (Z.of_nat (length (lines (uc_servers messy_upstreams))) < 2 ^ 32)%Z
  ∧ active_specs messy_upstreams = [bs "tls://9.9.9.9"; bs "1.1.1.1"]
  ∧ uc_servers (upstreams_normalize messy_upstreams)
    = bs "tls://9.9.9.9" ++ [LF; LF] ++ bs "# note" ++ [LF] ++ bs "1.1.1.1" ++ [LF]
  ∧ active_specs (upstreams_normalize messy_upstreams) = active_specs messy_upstreams
  ∧ upstreams_normalize (upstreams_normalize messy_upstreams) = upstreams_normalize messy_upstreams.
Proof.
  split; [vm_compute; reflexivity|]. split; [vm_compute; reflexivity|]. split; [vm_compute; reflexivity|].
  apply normalize_layout_only. vm_compute. reflexivity.
Defined.

(** ** Validation, list ids, and the file *)

Lemma default_valid : validate config_default = Ok ().
Proof. vm_compute. reflexivity. Qed.

Lemma max_id_spec ids m : max_id ids = Some m → m ∈ ids ∧ ∀ i, i ∈ ids → (i <= m)%Z.
Proof.
  destruct ids as [|i ids]; [done|]. simpl. intros [= <-].
  assert (H : ∀ ids a, foldl Z.max a ids ∈ a :: ids ∧ ∀ j, j ∈ a :: ids → (j <= foldl Z.max a ids)%Z).
  { clear. induction ids as [|k ids IH]; intros a; simpl.
    - split; [by left|]. intros j ->%list_elem_of_singleton. lia.
    - destruct (IH (Z.max a k)) as [H1 H2]. split.
      + apply elem_of_cons in H1 as [H1|H1]; [|set_solver]. destruct (Z.max_spec a k) as [[_ E]|[_ E]];
          rewrite H1, E; set_solver.
      + intros j [->|[->|Hj]%elem_of_cons]%elem_of_cons.
        * specialize (H2 (Z.max a k) ltac:(by left)). lia.
        * specialize (H2 (Z.max a k) ltac:(by left)). lia.
        * apply H2. by right. }
  apply H.
Qed.
(** The next list id is unused while the largest id is below [u32::MAX]. *)
Lemma next_list_id_fresh c :
  (∀ l, l ∈ fc_lists (cf_filtering c) → (0 <= fl_id l < 2 ^ 32 - 1)%Z) →
  next_list_id c ∉ fl_id <$> fc_lists (cf_filtering c).
Proof.
  intros Hb. unfold next_list_id. destruct (max_id _) as [m|] eqn:Em.
  - apply max_id_spec in Em as [Hm Hle]. apply list_elem_of_fmap in Hm as (l & -> & Hl). specialize (Hb l Hl).
    rewrite wrap_small by (unfold in_u; lia). intros Hin%Hle. lia.
  - destruct (fc_lists (cf_filtering c)) as [|l ls]; [|done]. apply not_elem_of_nil.
Qed.
Lemma filter_all {A} (P : A → Prop) `{!∀ x, Decision (P x)} l : Forall P l → filter P l = l.
Proof. induction 1 as [|x l Hx _ IH]; [done|]. by rewrite filter_cons_True, IH. Qed.
(** What [save] wrote loads as the configuration that was saved, when it is valid and every
    client has an id. *)
Lemma save_load `{CC : ConfigCodec} `{!ConfigCodecLaws CC} c text :
  save_config c true = Ok text → validate c = Ok () → Forall (λ cl, cc_id cl ≠ []) (cf_clients c) →
  load_or_default (Some (Some text)) = Ok c.
Proof.
  unfold save_config, load_or_default. destruct (config_to_yaml c) as [t|] eqn:Et; [|done]. intros [= ->] Hv Hc. simpl.
  rewrite (yaml_roundtrip _ _ Et). simpl. rewrite Hv. simpl. f_equal. rewrite (filter_all _ _ Hc). by destruct c.
Qed.
