(* ===== verification/Auth.v ===== *)
(** * server: passwords and sessions ([auth.rs]).

    Base64, HMAC-SHA256, the JSON of the claims and the Argon2 hash come from external
    crates: they are [SessionLib] and [PasswordLib].  The clock is an argument. *)
From Stdlib Require Import Ascii.
From S2P Require Import Prelude RustStr RustNet Rule Parser Compiler Snapshot SnapshotProps Spec.

Definition DOT : byte := "."%char.

(** [Claims]. *)
Record Claims : Type := { cl_iat : Z; cl_exp : Z }.

(** The functions of the crates the signer calls. *)
Class SessionLib : Type := {
  b64_encode : bytes → bytes;
  b64_decode : bytes → option bytes;
  hmac_sha256 : bytes → bytes → bytes;
  claims_to_json : Claims → bytes;
  claims_from_json : bytes → option Claims;
}.
(** The alphabet of base64url. *)
Definition b64_char (b : byte) : bool := is_ascii_alphanumeric b || bool_decide (b = "-"%char) || bool_decide (b = "_"%char).
(** What the sources rely on: encodings read back, and base64url keeps to its alphabet. *)
Class SessionLaws (SL : SessionLib) : Prop := {
  b64_roundtrip s : b64_decode (b64_encode s) = Some s;
  b64_alphabet s : Forall (λ b, b64_char b = true) (b64_encode s);
  claims_roundtrip c : in_u 64 (cl_iat c) → in_u 64 (cl_exp c) → claims_from_json (claims_to_json c) = Some c;
}.

(** Argon2 with a random salt: hashing may fail, verifying gives a bool. *)
Class PasswordLib : Type := {
  argon2_hash : bytes → bytes → option bytes;
  argon2_verify : bytes → bytes → bool;
}.
Definition hash_password `{PasswordLib} (salt password : bytes) : option bytes := argon2_hash salt password.
Definition verify_password `{PasswordLib} (password hash : bytes) : bool := argon2_verify password hash.

Definition SESSION_COOKIE : bytes := bs "bw_session".
Definition SESSION_TTL_SECS : Z := 14 * 24 * 3600.
Definition JWT_HEADER_B64 : bytes := bs "eyJhbGciOiJIUzI1NiIsInR5cCI6IkpXVCJ9".

Inductive SessionVerdict : Type := SvInvalid | SvValid | SvRefresh.
#[export] Instance SessionVerdict_eq_dec : EqDecision SessionVerdict.
Proof. solve_decision. Defined.

Section sessions.
Context {SL : SessionLib}.

(** [generate_secret]; the 32 random bytes are an argument. *)
Definition generate_secret (random : bytes) : bytes := b64_encode random.

(** [SessionSigner]. *)
Record SessionSigner : Type := { sg_secret : bytes; sg_ttl : Z }.
Definition signer_new (secret_b64 : bytes) (ttl : Z) : SessionSigner :=
  {| sg_secret := default secret_b64 (b64_decode secret_b64); sg_ttl := ttl |}.
Definition sign (s : SessionSigner) (signing_input : bytes) : bytes :=
  b64_encode (hmac_sha256 (sg_secret s) signing_input).
(** [issue]: the addition wraps in the release profile. *)
Definition issue (s : SessionSigner) (now : Z) : bytes :=
  let claims := {| cl_iat := now; cl_exp := wrap 64 (now + sg_ttl s) |} in
  let payload := b64_encode (claims_to_json claims) in
  let signing_input := JWT_HEADER_B64 ++ DOT :: payload in
  let sig := sign s signing_input in
  signing_input ++ DOT :: sig.
(** [verify_inner]. *)
Definition verify_inner (s : SessionSigner) (token : bytes) : option Claims :=
  match splitn 4 DOT token with
  | header :: payload :: sig :: rest =>
      if negb (bool_decide (rest = [])) || negb (bool_decide (header = JWT_HEADER_B64)) then None
      else
        let! expected := b64_decode sig in
        if bool_decide (hmac_sha256 (sg_secret s) (header ++ DOT :: payload) = expected) then
          let! json := b64_decode payload in claims_from_json json
        else None
  | _ => None
  end.
Definition session_check (s : SessionSigner) (now : Z) (token : bytes) : SessionVerdict :=
  match verify_inner s token with
  | None => SvInvalid
  | Some claims =>
      if (cl_exp claims <=? now)%Z then SvInvalid
      else if (wrap 64 (cl_iat claims + sg_ttl s / 2) <=? now)%Z then SvRefresh
      else SvValid
  end.
Definition session_verify (s : SessionSigner) (now : Z) (token : bytes) : bool :=
  negb (bool_decide (session_check s now token = SvInvalid)).

(** ** Properties *)

(** A token that passes is the fixed header, a payload and the MAC of both under the
    signer's key. *)
Definition authentic (s : SessionSigner) (token : bytes) (c : Claims) : Prop :=
  ∃ payload sig json, token = JWT_HEADER_B64 ++ DOT :: payload ++ DOT :: sig
  ∧ (DOT ∉ payload) ∧ (DOT ∉ sig)
  ∧ b64_decode sig = Some (hmac_sha256 (sg_secret s) (JWT_HEADER_B64 ++ DOT :: payload))
  ∧ b64_decode payload = Some json ∧ claims_from_json json = Some c.

Lemma split_once_inv c s a b : split_once c s = Some (a, b) → s = a ++ c :: b ∧ c ∉ a.
Proof.
  unfold split_once. destruct (find_byte c s) as [n|] eqn:E; [|done]. simpl. intros [= <- <-].
  revert n E. induction s as [|x s IH]; intros n; simpl; [done|]. case_bool_decide as Hx.
  - intros [= <-]. simpl. subst x. rewrite drop_0. split; [done|apply not_elem_of_nil].
  - destruct (find_byte c s) as [m|]; [|done]. intros [= <-]. destruct (IH m eq_refl) as [Hs Hn]. simpl. split.
    + by rewrite <- Hs.
    + rewrite elem_of_cons. naive_solver.
Qed.
Lemma split_once_none c s : split_once c s = None ↔ c ∉ s.
Proof.
  unfold split_once. rewrite fmap_None. induction s as [|x s IH]; simpl; [split; [intros _; apply not_elem_of_nil|done]|].
  rewrite not_elem_of_cons. case_bool_decide as Hx; [naive_solver|]. rewrite fmap_None, IH. naive_solver.
Qed.
(** A string with exactly two separators splits in three. *)
Lemma splitn4_three c s a b d : splitn 4 c s = [a; b; d] ↔ s = a ++ c :: b ++ c :: d ∧ (c ∉ a) ∧ (c ∉ b) ∧ (c ∉ d).
Proof.
  split.
  - simpl. destruct (split_once c s) as [[a1 s1]|] eqn:E1; [|done]. apply split_once_inv in E1 as [-> Ha].
    destruct (split_once c s1) as [[b1 s2]|] eqn:E2; [|done]. apply split_once_inv in E2 as [-> Hb].
    destruct (split_once c s2) as [[d1 s3]|] eqn:E3; [done|]. apply split_once_none in E3. by intros [= -> -> ->].
  - intros (-> & Ha & Hb & Hd). simpl. rewrite !split_once_app by done.
    by rewrite (proj2 (split_once_none c d) Hd).
Qed.
Lemma verify_inner_authentic s token c : verify_inner s token = Some c ↔ authentic s token c.
Proof.
  unfold verify_inner, authentic. split.
  - destruct (splitn 4 DOT token) as [|h [|p [|g rest]]] eqn:E; try done.
    destruct (bool_decide (rest = [])) eqn:Er; [|done]. apply bool_decide_eq_true in Er as ->.
    destruct (bool_decide (h = JWT_HEADER_B64)) eqn:Eh; [|done]. apply bool_decide_eq_true in Eh as ->. simpl.
    apply splitn4_three in E as (-> & _ & Hp & Hg).
    destruct (b64_decode g) as [mac|] eqn:Eg; [|done]. simpl. case_bool_decide as Hm; [|done].
    destruct (b64_decode p) as [json|] eqn:Ej; [|done]. simpl. intros Hc.
    exists p, g, json. by rewrite Hm.
  - intros (p & g & json & -> & Hp & Hg & Hm & Hj & Hc).
    rewrite (proj2 (splitn4_three DOT _ JWT_HEADER_B64 p g));
      [|split_and!; [done|refine (bool_decide_eq_true_1 _ _); vm_compute; reflexivity|done|done]].
    rewrite !bool_decide_true by done. simpl. rewrite Hm. simpl. rewrite bool_decide_true by done. by rewrite Hj.
Qed.
Lemma b64_no_dot `{!SessionLaws SL} s : DOT ∉ b64_encode s.
Proof. intros H. pose proof (b64_alphabet s) as Ha. by apply (proj1 (Forall_forall _ _) Ha) in H. Qed.
Lemma issue_authentic `{!SessionLaws SL} s now : in_u 64 now →
  authentic s (issue s now) {| cl_iat := now; cl_exp := wrap 64 (now + sg_ttl s) |}.
Proof.
  intros Hn. exists (b64_encode (claims_to_json {| cl_iat := now; cl_exp := wrap 64 (now + sg_ttl s) |})).
  eexists _, _. split_and!; [|apply b64_no_dot..|apply b64_roundtrip|apply b64_roundtrip|].
  - unfold issue, sign. by rewrite <- app_assoc.
  - apply claims_roundtrip; [done|]. by apply wrap_in_u.
Qed.

(** C28: a request is authenticated exactly when it carries a token whose payload is signed
    under the server's key and whose expiry has not been reached: whatever bytes a client
    sends, the session check accepts nothing else. *)
Theorem session_accepts_exactly_authentic s now token :
  session_check s now token ≠ SvInvalid ↔ ∃ c, authentic s token c ∧ (now < cl_exp c)%Z.
Proof.
  unfold session_check. split.
  - destruct (verify_inner s token) as [c|] eqn:E; [|done]. apply verify_inner_authentic in E.
    destruct (Z.leb_spec (cl_exp c) now); [done|]. eauto.
  - intros (c & Hc & Hlt). apply verify_inner_authentic in Hc. rewrite Hc, (proj2 (Z.leb_gt _ _)) by done. by destruct (_ <=? _)%Z.
Qed.

(** The life of a session: a token issued at [t0] is accepted silently during the first
    half of its lifetime, asks for renewal during the second half, and is rejected from
    [t0 + ttl] on. *)
Lemma session_lifecycle `{!SessionLaws SL} s t0 t : (0 <= t0)%Z → (0 <= sg_ttl s)%Z → (t0 + sg_ttl s < 2 ^ 64)%Z →
  session_check s t (issue s t0) =
    if (t <? t0 + sg_ttl s / 2)%Z && (t <? t0 + sg_ttl s)%Z then SvValid
    else if (t <? t0 + sg_ttl s)%Z then SvRefresh else SvInvalid.
Proof.
  intros H0 Ht Hs. unfold session_check. assert (Hn : in_u 64 t0) by (unfold in_u; lia).
  rewrite (proj2 (verify_inner_authentic s _ _) (issue_authentic s t0 Hn)). simpl.
  rewrite !wrap_small by (unfold in_u; split; [|eapply Z.le_lt_trans; [|exact Hs]]; pose proof (Z.div_le_upper_bound (sg_ttl s) 2 (sg_ttl s)); pose proof (Z.div_pos (sg_ttl s) 2); lia).
  destruct (Z.leb_spec (t0 + sg_ttl s) t), (Z.ltb_spec t (t0 + sg_ttl s)); try lia; [by rewrite andb_false_r|].
  destruct (Z.leb_spec (t0 + sg_ttl s / 2) t), (Z.ltb_spec t (t0 + sg_ttl s / 2)); lia || done.
Qed.
(** A token of another signer is rejected unless the two keys give the same code. *)
Lemma foreign_token_rejected `{!SessionLaws SL} s s' t0 t : in_u 64 t0 →
  (∀ m, hmac_sha256 (sg_secret s) m ≠ hmac_sha256 (sg_secret s') m) → session_check s t (issue s' t0) = SvInvalid.
Proof.
  intros Hn Hk. unfold session_check. destruct (verify_inner s (issue s' t0)) as [c|] eqn:E; [|done].
  apply verify_inner_authentic in E as (p & g & j & Ht & Hp & Hg & Hm & _).
  destruct (issue_authentic s' t0 Hn) as (p' & g' & j' & Ht' & Hp' & Hg' & Hm' & _). rewrite Ht' in Ht.
  apply app_inv_head in Ht. injection Ht as Ht. pose proof (split_once_app DOT p' g' Hp') as E1.
  rewrite Ht, (split_once_app DOT p g Hp) in E1. injection E1 as -> ->. rewrite Hm' in Hm. injection Hm as Hm. by destruct (Hk _ (eq_sym Hm)).
Qed.
End sessions.

(** ** A concrete library *)

(** Hexadecimal stands for base64url, a fixed-width encoding for the JSON. *)
Definition hex_byte (b : byte) : bytes := [hex_digit (u8 b / 16); hex_digit (u8 b mod 16)].
Definition hex_val (b : byte) : option Z := to_digit 16 b.
Fixpoint hex_decode (s : bytes) : option bytes :=
  match s with
  | [] => Some []
  | a :: b :: s =>
      let! x := hex_val a in
      let! y := hex_val b in
      let! r := hex_decode s in
      Some (byte_of (16 * x + y) :: r)
  | [_] => None
  end.
Definition toy_sessions : SessionLib :=
  {| b64_encode := λ s, mjoin (hex_byte <$> s); b64_decode := hex_decode; hmac_sha256 := λ k m, k ++ m;
     claims_to_json := λ c, le_bytes 8 (cl_iat c) ++ le_bytes 8 (cl_exp c);
     claims_from_json := λ s, if bool_decide (length s = 16) then
                                Some {| cl_iat := le_val (take 8 s); cl_exp := le_val (drop 8 s) |}
                              else None |}.
Lemma hex_byte_decode b s : hex_decode (hex_byte b ++ s) = (b ::.) <$> hex_decode s.
Proof. destruct b as [[] [] [] [] [] [] [] []]; simpl; by destruct (hex_decode s). Qed.
Lemma toy_laws : SessionLaws toy_sessions.
Proof.
  split.
  - intros s. simpl. induction s as [|b s IH]; [done|]. rewrite fmap_cons.
    change (mjoin (hex_byte b :: ?l)) with (hex_byte b ++ mjoin l). by rewrite hex_byte_decode, IH.
  - intros s. apply Forall_join, Forall_fmap, Forall_true. intros b. simpl.
    destruct b as [[] [] [] [] [] [] [] []]; repeat constructor.
  - intros [i e] Hi He. cbn [claims_to_json claims_from_json toy_sessions cl_iat cl_exp] in *. rewrite bool_decide_true by (by rewrite length_app, !length_le_bytes).
    rewrite take_app_length' by (by rewrite length_le_bytes). rewrite drop_app_length' by (by rewrite length_le_bytes).
    by rewrite !le_val_small.
Qed.
Definition toy_signer : SessionSigner := {| sg_secret := bs "k"; sg_ttl := 100 |}.
