(* ===== verification/Http.v ===== *)
(** * server: the request headers the API reads ([api.rs]): the cross-origin check, the
    session cookie and the HTTPS hint of a proxy. *)
From Stdlib Require Import Ascii.
From S2P Require Import Prelude RustStr RustNet Rule Parser ParserProps Compiler Snapshot SnapshotProps Spec Auth.

Inductive Method : Type := MGet | MHead | MOptions | MPost | MPut | MDelete.
#[export] Instance Method_eq_dec : EqDecision Method.
Proof. solve_decision. Defined.

(** [HeaderMap] with lower-case names; [get] is the first value of a name. *)
Definition HeaderMap : Type := list (bytes * bytes).
Definition header_get (name : bytes) (h : HeaderMap) : option bytes := snd <$> head (filter (λ p, p.1 = name) h).
(** [HeaderValue::to_str] and [HeaderValue::from_str]. *)
Definition visible (b : byte) : bool := ((32 <=? u8 b) && (u8 b <? 127) || (u8 b =? 9))%Z.
Definition to_str (v : bytes) : option bytes := if forallb visible v then Some v else None.
Definition header_value (s : bytes) : option bytes :=
  if forallb (λ b, ((32 <=? u8 b) && negb (u8 b =? 127) || (u8 b =? 9))%Z) s then Some s else None.
Definition get_str (name : string) (h : HeaderMap) : option bytes := header_get (bs name) h ≫= to_str.

(** [origin_matches_host]. *)
Definition origin_matches_host (h : HeaderMap) : bool :=
  match get_str "origin" h with
  | None => true
  | Some origin =>
      match snd <$> split_once_str (bs "://") origin, get_str "host" h with
      | Some o, Some host => eq_ignore_ascii_case o host
      | _, _ => false
      end
  end.
(** The test of [cross_origin_protection]. *)
Definition safe_method (m : Method) : bool := match m with MGet | MHead | MOptions => true | _ => false end.
Definition cross_origin_allowed (m : Method) (h : HeaderMap) : bool :=
  if safe_method m then true
  else match get_str "sec-fetch-site" h with
       | Some site => bool_decide (site = bs "same-origin") || bool_decide (site = bs "none")
       | None => origin_matches_host h
       end.

(** [cookie_token]. *)
Fixpoint find_map {A B} (f : A → option B) (l : list A) : option B :=
  match l with
  | [] => None
  | a :: l => match f a with Some b => Some b | None => find_map f l end
  end.
Definition cookie_token (h : HeaderMap) : option bytes :=
  let! cookie := get_str "cookie" h in
  find_map (λ kv, let! (k, v) := split_once "="%char (trim kv) in
                  if bool_decide (k = SESSION_COOKIE) then Some v else None) (split_byte ";"%char cookie).
(** [session_cookie] and [is_https]. *)
Definition session_cookie (token : bytes) (secure : bool) : bytes :=
  let c := SESSION_COOKIE ++ bs "=" ++ token ++ bs "; HttpOnly; SameSite=Lax; Path=/; Max-Age=" ++ show_dec SESSION_TTL_SECS in
  if secure then c ++ bs "; Secure" else c.
Definition is_https (h : HeaderMap) : bool :=
  match get_str "x-forwarded-proto" h with Some p => eq_ignore_ascii_case p (bs "https") | None => false end.
(** The cookie [logout] sets. *)
Definition clear_cookie : bytes := SESSION_COOKIE ++ bs "=; HttpOnly; Path=/; Max-Age=0".

(** ** Properties *)

(** What a browser sends back for a cookie that was set: the pair before the first
    semicolon. *)
Definition browser_cookie (set_cookie : bytes) : bytes := hd [] (split_byte ";"%char set_cookie).

(** The characters of a token: base64url and dots. *)
Definition token_char (b : byte) : bool := b64_char b || bool_decide (b = DOT).
Lemma issue_chars `{SL : SessionLib} `{!SessionLaws SL} s now : Forall (λ b, token_char b = true) (issue s now).
Proof.
  assert (H : ∀ t, Forall (λ b, token_char b = true) (b64_encode t)).
  { intros t. eapply Forall_impl; [apply b64_alphabet|]. intros b Hb. unfold token_char. by rewrite Hb. }
  unfold issue, sign. rewrite <- app_assoc. apply Forall_app_2; [|constructor; [done|apply Forall_app_2; [apply H|constructor; [done|apply H]]]].
  repeat constructor.
Qed.

Lemma trim_plain s : Forall (λ b, plain b = true) s → trim s = s.
Proof.
  intros H. unfold trim, trim_end. assert (Hs : trim_start s = s).
  { destruct H as [|a t Ha _]; [done|]. destruct (plain_ws a Ha) as (H1 & H2 & H3).
    simpl. rewrite H1. destruct t as [|b t]; [done|]. rewrite H2. destruct t as [|c t]; [done|]. by rewrite H3. }
  rewrite Hs. apply Forall_reverse in H. rewrite <- (reverse_involutive s) at 2. f_equal.
  destruct H as [|a t Ha H]; [done|]. destruct (plain_ws a Ha) as (H1 & _).
  simpl. rewrite H1. destruct H as [|b t Hb H]; [done|]. destruct (plain_ws b Hb) as (_ & H2 & _). rewrite H2.
  destruct H as [|c t Hc _]; [done|]. destruct (plain_ws c Hc) as (_ & _ & H3). by rewrite H3.
Qed.
Lemma token_char_plain b : token_char b = true → plain b = true ∧ visible b = true ∧ b ≠ ";"%char.
Proof. destruct b as [[] [] [] [] [] [] [] []]; vm_compute; intros H; try discriminate H; split_and!; done. Qed.

(** The cookie a browser sends back gives the token. *)
Lemma cookie_roundtrip token secure : Forall (λ b, token_char b = true) token →
  cookie_token [(bs "cookie", browser_cookie (session_cookie token secure))] = Some token.
Proof.
  intros Ht. set (kv := bs "bw_session=" ++ token).
  assert (Hkv : Forall (λ b, plain b = true ∧ visible b = true ∧ b ≠ ";"%char) kv).
  { apply Forall_app. split; [repeat constructor; done|]. eapply Forall_impl; [exact Ht|]. apply token_char_plain. }
  assert (Hsemi : ";"%char ∉ kv) by (intros Hin; eapply Forall_forall in Hin; [|exact Hkv]; naive_solver).
  assert (Hb : browser_cookie (session_cookie token secure) = kv).
  { unfold browser_cookie, session_cookie. set (rest := bs " HttpOnly; SameSite=Lax; Path=/; Max-Age=" ++ show_dec SESSION_TTL_SECS).
    destruct secure.
    - change (SESSION_COOKIE ++ bs "=" ++ token ++ ?r) with (SESSION_COOKIE ++ bs "=" ++ token ++ bs ";" ++ rest).
      rewrite <- !app_assoc. change (SESSION_COOKIE ++ bs "=" ++ token ++ bs ";" ++ ?r) with (bs "bw_session=" ++ (token ++ ";"%char :: r)).
      rewrite app_assoc. by rewrite split_byte_app.
    - change (SESSION_COOKIE ++ bs "=" ++ token ++ ?r) with (bs "bw_session=" ++ (token ++ ";"%char :: rest)).
      rewrite app_assoc. by rewrite split_byte_app. }
  rewrite Hb. unfold cookie_token, get_str, header_get. 
  assert (Hv : to_str kv = Some kv).
  { unfold to_str. rewrite (proj2 (forallb_Forall _ _)); [done|]. eapply Forall_impl; [exact Hkv|]. naive_solver. }
  change (filter _ [(bs "cookie", kv)]) with [(bs "cookie", kv)]. cbn [head fmap option_fmap option_map snd mbind option_bind]. rewrite Hv. cbn [mbind option_bind].
  rewrite split_byte_clean by done. cbn [find_map]. rewrite trim_plain by (eapply Forall_impl; [exact Hkv|]; naive_solver).
  unfold kv. change (bs "bw_session=" ++ token) with (SESSION_COOKIE ++ "="%char :: token).
  rewrite split_once_app by (refine (bool_decide_eq_true_1 _ _); vm_compute; reflexivity). reflexivity.
Qed.
(** The cookie of a session is a legal header value. *)
Lemma session_cookie_value token secure : Forall (λ b, token_char b = true) token →
  header_value (session_cookie token secure) = Some (session_cookie token secure).
Proof.
  intros Ht. unfold header_value. set (ok := λ b, ((32 <=? u8 b) && negb (u8 b =? 127) || (u8 b =? 9))%Z).
  assert (Hok : Forall (λ b, ok b = true) token).
  { eapply Forall_impl; [exact Ht|]. intros b. unfold ok. destruct b as [[] [] [] [] [] [] [] []]; vm_compute; done. }
  assert (Hc : ∀ s, forallb ok s = true → Forall (λ b, ok b = true) s) by (intros s; apply forallb_Forall).
  rewrite (proj2 (forallb_Forall _ _)); [done|]. unfold session_cookie.
  assert (Hb : Forall (λ b, ok b = true) (SESSION_COOKIE ++ bs "=" ++ token ++ bs "; HttpOnly; SameSite=Lax; Path=/; Max-Age=" ++ show_dec SESSION_TTL_SECS)).
  { apply Forall_app. split; [by apply Hc|]. apply Forall_app. split; [by apply Hc|]. apply Forall_app. split; [done|by apply Hc]. }
  destruct secure; [|done]. apply Forall_app. split; [done|by apply Hc].
Qed.
