(* ===== verification/Dto.v ===== *)
(** * server: data-transfer objects of the API ([dto.rs]). *)
From Stdlib Require Import Ascii.
From S2P Require Import Prelude RustStr RustNet RustFloat Clients QueryLog Dns Cache Stats Spec ProbeLog Pool.

(** [StatsResponse]: the summary with the size and the counters of the cache.  The records of
    the summary's lists are copied field by field, so they keep their types. *)
Record StatsResponse : Type := {
  sr_total : Z; sr_blocked : Z; sr_cached : Z; sr_rewritten : Z; sr_errors : Z; sr_block_rate : f64;
  sr_p95_processing_ms : f64; sr_top_resolved_domains : list TopEntry; sr_top_blocked_domains : list TopEntry;
  sr_top_clients : list TopEntry; sr_top_upstreams : list TopEntry; sr_upstream_avg_rtt_ms : gmap bytes f64;
  sr_upstream_latency_pct : gmap bytes LatencyPercentiles; sr_series : list Bucket; sr_cache_size : nat;
  sr_cache_hits : Z; sr_cache_misses : Z; sr_cache_stale_hits : Z; sr_cache_refreshes : Z; sr_cache_refresh_failures : Z;
}.
Definition stats_response (s : StatsSummary) (cache_size : nat) (k : CacheCounters) : StatsResponse :=
  {| sr_total := ss_total s; sr_blocked := ss_blocked s; sr_cached := ss_cached s; sr_rewritten := ss_rewritten s;
     sr_errors := ss_errors s; sr_block_rate := ss_block_rate s; sr_p95_processing_ms := ss_p95_processing_ms s;
     sr_top_resolved_domains := ss_top_resolved_domains s; sr_top_blocked_domains := ss_top_blocked_domains s;
     sr_top_clients := ss_top_clients s; sr_top_upstreams := ss_top_upstreams s;
     sr_upstream_avg_rtt_ms := ss_upstream_avg_rtt_ms s; sr_upstream_latency_pct := ss_upstream_latency_pct s;
     sr_series := ss_series s; sr_cache_size := cache_size; sr_cache_hits := cn_hits k; sr_cache_misses := cn_misses k;
     sr_cache_stale_hits := cn_stale_hits k; sr_cache_refreshes := cn_refreshes k;
     sr_cache_refresh_failures := cn_refresh_failures k |}.

(** [LogEntryView]. *)
Record LogEntryView : Type := {
  lv_id : Z; lv_time_ms : Z; lv_client_ip : bytes; lv_client_name : option bytes; lv_question : bytes; lv_qtype : bytes;
  lv_action : bytes; lv_upstream : option bytes; lv_rule : option bytes; lv_list_id : option Z; lv_allowlisted : bool;
  lv_rcode : bytes; lv_answers : list bytes; lv_elapsed_ms : f64; lv_list_name : option bytes;
}.
(** The label and the outcome-specific columns of an action, as the API and the store write
    them. *)
Definition action_columns (a : QueryAction) : bytes * option bytes * option bytes * option Z :=
  match a with
  | QaForwarded u => (bs "forwarded", Some u, None, None)
  | QaCached => (bs "cached", None, None, None)
  | QaBlocked r i => (bs "blocked", None, Some r, Some i)
  | QaRewritten r i => (bs "rewritten", None, Some r, Some i)
  | QaError => (bs "error", None, None, None)
  end.
Definition log_entry_view (e : QueryLogEntry) (list_name client_name : option bytes) : LogEntryView :=
  let '(action, upstream, rule, list_id) := action_columns (le_action e) in
  {| lv_id := le_id e; lv_time_ms := le_time_ms e; lv_client_ip := le_client_ip e; lv_client_name := client_name;
     lv_question := le_question e; lv_qtype := le_qtype e; lv_action := action; lv_upstream := upstream; lv_rule := rule;
     lv_list_id := list_id; lv_allowlisted := le_allowlisted e; lv_rcode := le_rcode e; lv_answers := le_answers e;
     lv_elapsed_ms := le_elapsed_ms e; lv_list_name := list_name |}.

(** [UpstreamStatDto]: the pool's statistics, copied. *)
Record UpstreamStatDto : Type := {
  ud_spec : bytes; ud_name : bytes; ud_kind : TransportKind; ud_up : bool; ud_avg_rtt_ms : option f64;
  ud_total_queries : Z; ud_total_failures : Z; ud_last_error : option bytes;
}.
Definition upstream_stat_dto (s : UpstreamStat) : UpstreamStatDto :=
  {| ud_spec := ut_spec s; ud_name := ut_name s; ud_kind := ut_kind s; ud_up := ut_up s; ud_avg_rtt_ms := ut_avg_rtt_ms s;
     ud_total_queries := ut_total_queries s; ud_total_failures := ut_total_failures s; ud_last_error := ut_last_error s |}.
