(* ===== verification/App.v ===== *)
(** * server: application state and configuration reload ([app.rs], and the parts of
    [main.rs] and [persist.rs] that build and save the state).

    The file system is the state [Files]: the text of the configuration file and the texts of
    the filter lists.  Whether a write succeeds, the clock and the random draws are
    arguments. *)
From Stdlib Require Import Ascii.
From S2P Require Import Prelude RustStr RustNet RustFloat Rule Parser FilterEngine FilterSpec Compiler Wire Dns Clients Block QueryLog Cache Snapshot Stats Engine EngineInstances Spec ProbeLog Pool Config Auth.

(** ** Paths *)

(** [PathBuf::join] with a relative name. *)
Definition path_join (dir name : bytes) : bytes :=
  if bool_decide (dir = []) then name else if ends_with (bs "/") dir then dir ++ name else dir ++ bs "/" ++ name.
(** [Paths]. *)
Record Paths : Type := {
  pt_data_dir : bytes; pt_config : bytes; pt_lists_dir : bytes; pt_querylog_db : bytes; pt_upstream_log_db : bytes;
  pt_stats : bytes; pt_cache_snapshot : bytes;
}.
Definition paths_new (data_dir : bytes) : Paths :=
  {| pt_data_dir := data_dir; pt_config := path_join data_dir (bs "config.yaml");
     pt_lists_dir := path_join data_dir (bs "lists"); pt_querylog_db := path_join data_dir (bs "querylog.db");
     pt_upstream_log_db := path_join data_dir (bs "upstream_log.db"); pt_stats := path_join data_dir (bs "stats.json");
     pt_cache_snapshot := path_join data_dir (bs "cache.snap") |}.
Definition list_file (p : Paths) (id : Z) : bytes := path_join (pt_lists_dir p) (show_dec id ++ bs ".txt").

(** The files the application reads back: the configuration and, per list id, the file
    [list_file] names. *)
Record Files : Type := { fs_config : option bytes; fs_lists : gmap Z bytes }.
Definition with_list (id : Z) (text : bytes) (fs : Files) : Files :=
  {| fs_config := fs_config fs; fs_lists := <[id := text]> (fs_lists fs) |}.
(** [read_list_text], [write_list_text] and [remove_file] of a list. *)
Definition read_list_text (fs : Files) (id : Z) : bytes := default [] (fs_lists fs !! id).
(** A write that fails may have truncated the file first. *)
Inductive WriteResult : Type := Written | WriteFailed (rest : option bytes) (why : bytes).
Definition write_list_text (fs : Files) (io : WriteResult) (id : Z) (text : bytes) : result () bytes * Files :=
  match io with
  | Written => (Ok (), with_list id text fs)
  | WriteFailed rest why => (Err why, match rest with Some part => with_list id part fs | None => fs end)
  end.
Definition remove_list_file (fs : Files) (io_ok : bool) (id : Z) : Files :=
  if io_ok then {| fs_config := fs_config fs; fs_lists := delete id (fs_lists fs) |} else fs.

(** [apply_env_overrides]; the variables are read as UTF-8 when they are set. *)
Definition with_server (s : ServerConfig) (c : Config) : Config :=
  {| cf_version := cf_version c; cf_server := s; cf_upstreams := cf_upstreams c; cf_cache := cf_cache c;
     cf_filtering := cf_filtering c; cf_clients := cf_clients c; cf_query_log := cf_query_log c;
     cf_upstream_log := cf_upstream_log c; cf_stats := cf_stats c; cf_privacy := cf_privacy c; cf_auth := cf_auth c |}.
Definition apply_env_overrides (dns_bind http_bind : option bytes) (c : Config) : Config :=
  let c := match dns_bind ≫= parse_socket_addr with
           | Some addr => with_server {| sc_dns_bind := [addr]; sc_http_bind := sc_http_bind (cf_server c);
                                         sc_ratelimit := sc_ratelimit (cf_server c) |} c
           | None => c
           end in
  match http_bind ≫= parse_socket_addr with
  | Some addr => with_server {| sc_dns_bind := sc_dns_bind (cf_server c); sc_http_bind := addr;
                                sc_ratelimit := sc_ratelimit (cf_server c) |} c
  | None => c
  end.

(** ** Building the engine *)

(** Errors of [apply_config] and [build_engine], by the context they carry. *)
Inductive AppError : Type :=
| AeValidation (e : ConfigError)
| AePool (e : UpstreamError)
| AeSave (e : ConfigError).
(** [to_string] of the error: its outermost context. *)
Definition app_error_text (e : AppError) : bytes :=
  match e with
  | AeValidation _ => bs "config validation"
  | AePool _ => bs "building upstream pool"
  | AeSave _ => bs "saving config"
  end.

(** [start_probing]: the first probe of every upstream that has none is drawn. *)
Definition start_probing (draw : nat → Draw) (p : Pool) : Pool :=
  set_health (imap (λ i h, schedule_initial_probe (draw i) h) (pl_health p)) p.

Section app.
Context {DL : DnsLib} {DC : DnsCodec} {RX : RegexLib} {IL : IpNetLib} {US : UnstableSort}.
Context {L : LruLib QueryKey Entry} {CC : ConfigCodec}.
Context (dhash : bytes → Z) (chash : list (bytes * Z * Action) → Z) (parallelism : option Z).
Context (make_transport : list SocketAddr → UpstreamSpec → result () UpstreamError).
Context {qsender psender qstore pstore : Type}.

Definition Filter : Type := (bytes → Z) * FilterEngine.
Definition AppEngine : Type := Engine (sender:=qsender) (F:=Filter) (pool:=Pool).
Definition AppEngineState : Type := EngineState (F:=Filter) (pool:=Pool).

(** [AppState]: the engine, the configuration in memory, the files, the signer, the probe
    sink and the two stores. *)
Record AppState : Type := {
  as_engine : AppEngine; as_config : Config; as_files : Files; as_sessions : SessionSigner;
  as_probe_log : ProbeLog (sender:=psender); as_store : qstore; as_probe_store : pstore;
}.
Definition with_files (fs : Files) (s : AppState) : AppState :=
  {| as_engine := as_engine s; as_config := as_config s; as_files := fs; as_sessions := as_sessions s;
     as_probe_log := as_probe_log s; as_store := as_store s; as_probe_store := as_probe_store s |}.

(** [compile_filters]: the custom rules as list 0, then the enabled lists in order. *)
Definition compile_filters (cfg : Config) (fs : Files) : option (Filter * list (Z * nat)) :=
  let c := (add_list compiler_new 0 (bs "Custom rules") (fc_custom_rules (cf_filtering cfg))).1 in
  let c := foldl (λ c l, if fl_enabled l then (add_list c (fl_id l) (fl_name l) (read_list_text fs (fl_id l))).1 else c)
             c (fc_lists (cf_filtering cfg)) in
  let! (e, stats) := build dhash chash c in
  Some ((dhash, e), (λ s, (ls_list_id s, ls_rules s)) <$> stats).

(** [build_pool]. *)
Definition pool_entries (cfg : Config) : list PoolEntry :=
  (λ spec, {| pn_spec := spec; pn_name := None |}) <$> active_specs (cf_upstreams cfg).
Definition pool_settings (cfg : Config) : PoolSettings :=
  {| ps_query_timeout := Z.max (uc_timeout_secs (cf_upstreams cfg)) 1 * NANOS;
     ps_ewma_alpha := ps_ewma_alpha pool_settings_default; ps_failure_threshold := ps_failure_threshold pool_settings_default |}.
Definition build_pool (draw : nat → Draw) (cfg : Config) (prev : option Pool) : result Pool AppError :=
  match pool_build (make_transport (uc_bootstrap (cf_upstreams cfg))) (pool_entries cfg) (pool_settings cfg) with
  | Err e => Err (AePool e)
  | Ok p => Ok (start_probing draw match prev with Some old => adopt_health_from old p | None => p end)
  end.

(** [build_engine_state]; [None] is a panic of the list compiler. *)
Definition build_engine_state (draw : nat → Draw) (cfg : Config) (fs : Files) (prev : option Pool)
  : option (result AppEngineState AppError) :=
  let! (filter, _) := compile_filters cfg fs in
  Some (let? pool := build_pool draw cfg prev in
        let f := cf_filtering cfg in
        Ok {| es_filter := filter; es_pool := pool; es_clients := build_matcher (cf_clients cfg);
              es_filtering_enabled := fc_enabled f; es_blocking_mode := fc_blocking_mode f;
              es_block_v4 := fc_custom_block_ipv4 f; es_block_v6 := fc_custom_block_ipv6 f;
              es_blocked_ttl := fc_blocked_ttl_secs f |}).

(** The settings of the cache, the log and the statistics, as startup and reload apply them. *)
Definition reconfigure_cache (cfg : Config) (c : DnsCache) : DnsCache :=
  let k := cf_cache cfg in
  set_store_summaries (qc_enabled (cf_query_log cfg))
    (cache_reconfigure (cg_enabled k) (Z.to_nat (cg_size k)) (cg_min_ttl_secs k) (cg_max_ttl_secs k)
       (cg_optimistic_max_age_secs k) c).

(** [build_engine]. *)
Definition build_engine (draw : nat → Draw) (cfg : Config) (fs : Files) : option (result AppEngine AppError) :=
  let! st := build_engine_state draw cfg fs None in
  Some (let? st := st in
        let k := cf_cache cfg in
        Ok {| eg_state := st;
              eg_cache := reconfigure_cache cfg
                (cache_new parallelism (Z.to_nat (cg_size k)) (cg_min_ttl_secs k) (cg_max_ttl_secs k)
                   (cg_optimistic_max_age_secs k));
              eg_log := querylog_new (qc_enabled (cf_query_log cfg)) (pv_anonymize_client_ips (cf_privacy cfg));
              eg_stats := stats_new parallelism (stc_enabled (cf_stats cfg)) (stc_retention_days (cf_stats cfg))
                            (pv_anonymize_client_ips (cf_privacy cfg)) |}).

(** ** Applying a configuration *)

Definition with_upstreams (u : UpstreamsConfig) (c : Config) : Config :=
  {| cf_version := cf_version c; cf_server := cf_server c; cf_upstreams := u; cf_cache := cf_cache c;
     cf_filtering := cf_filtering c; cf_clients := cf_clients c; cf_query_log := cf_query_log c;
     cf_upstream_log := cf_upstream_log c; cf_stats := cf_stats c; cf_privacy := cf_privacy c; cf_auth := cf_auth c |}.
Definition with_filtering (f : FilteringConfig) (c : Config) : Config :=
  {| cf_version := cf_version c; cf_server := cf_server c; cf_upstreams := cf_upstreams c; cf_cache := cf_cache c;
     cf_filtering := f; cf_clients := cf_clients c; cf_query_log := cf_query_log c;
     cf_upstream_log := cf_upstream_log c; cf_stats := cf_stats c; cf_privacy := cf_privacy c; cf_auth := cf_auth c |}.
Definition with_lists (ls : list FilterListConfig) (f : FilteringConfig) : FilteringConfig :=
  {| fc_enabled := fc_enabled f; fc_blocking_mode := fc_blocking_mode f; fc_custom_block_ipv4 := fc_custom_block_ipv4 f;
     fc_custom_block_ipv6 := fc_custom_block_ipv6 f; fc_blocked_ttl_secs := fc_blocked_ttl_secs f; fc_lists := ls;
     fc_custom_rules := fc_custom_rules f |}.
(** The loop that stores the rule counts: the first count with the id of the list. *)
Definition count_for (counts : list (Z * nat)) (l : FilterListConfig) : FilterListConfig :=
  match list_find (λ c, c.1 = fl_id l) counts with
  | Some (_, (_, n)) => {| fl_id := fl_id l; fl_name := fl_name l; fl_url := fl_url l; fl_enabled := fl_enabled l;
                           fl_rule_count := Z.of_nat n; fl_last_updated := fl_last_updated l |}
  | None => l
  end.
Definition with_counts (counts : list (Z * nat)) (c : Config) : Config :=
  with_filtering (with_lists (count_for counts <$> fc_lists (cf_filtering c)) (cf_filtering c)) c.

(** What an update reads from its surroundings. *)
Record UpdateEnv : Type := { ue_draw : nat → Draw; ue_save_ok : bool }.

(** The live changes after the file is written. *)
Definition install (cfg : Config) (text : bytes) (st : AppEngineState) (s : AppState) : AppState :=
  let g := swap_state st (as_engine s) in
  {| as_engine := {| eg_state := eg_state g; eg_cache := reconfigure_cache cfg (eg_cache g);
                     eg_log := querylog_reconfigure (qc_enabled (cf_query_log cfg))
                                 (pv_anonymize_client_ips (cf_privacy cfg)) (eg_log g);
                     eg_stats := stats_reconfigure (stc_enabled (cf_stats cfg)) (stc_retention_days (cf_stats cfg))
                                   (pv_anonymize_client_ips (cf_privacy cfg)) (eg_stats g) |};
     as_config := cfg; as_files := {| fs_config := Some text; fs_lists := fs_lists (as_files s) |};
     as_sessions := as_sessions s;
     as_probe_log := probelog_reconfigure (ulc_enabled (cf_upstream_log cfg)) (as_probe_log s);
     as_store := as_store s; as_probe_store := as_probe_store s |}.

(** [apply_config]: the outer [None] is a panic, an error leaves the state as it is. *)
Definition apply_config (env : UpdateEnv) (s : AppState) (new_cfg : Config) : option (result AppState AppError) :=
  let cfg := with_upstreams (upstreams_normalize (cf_upstreams new_cfg)) new_cfg in
  match validate cfg with
  | Err e => Some (Err (AeValidation e))
  | Ok _ =>
      let! (_, counts) := compile_filters cfg (as_files s) in
      let cfg := with_counts counts cfg in
      let! built := build_engine_state (ue_draw env) cfg (as_files s) (Some (es_pool (eg_state (as_engine s)))) in
      Some (let? st := built in
            match save_config cfg (ue_save_ok env) with
            | Err e => Err (AeSave e)
            | Ok text => Ok (install cfg text st s)
            end)
  end.
(** [apply_config] from [s] to [s'], dropped by its caller while it waits to write the
    configuration in memory: all but that has changed. *)
Definition interrupted (s s' : AppState) : AppState :=
  {| as_engine := as_engine s'; as_config := as_config s; as_files := as_files s'; as_sessions := as_sessions s';
     as_probe_log := as_probe_log s'; as_store := as_store s'; as_probe_store := as_probe_store s' |}.
End app.
