(* ===== verification/AppProps.v ===== *)
(** * Properties of the application state: what a reload establishes, and that startup
    accepts what a reload saved. *)
From Stdlib Require Import Ascii.
From S2P Require Import Prelude RustStr RustNet RustFloat Rule Glob Parser ParserProps FilterEngine FilterEngineProps FilterSpec Compiler Wire Dns Clients Block QueryLog Cache Snapshot Stats Engine EngineInstances Spec ProbeLog Pool Config ConfigProps Auth App.

(** A list has a file of its own. *)
Lemma list_file_inj p i j : in_u 32 i → in_u 32 j → list_file p i = list_file p j → i = j.
Proof.
  intros Hi Hj H. assert (Hs : show_dec i = show_dec j).
  { unfold list_file, path_join in H. case_bool_decide; [|destruct (ends_with _ _)]; rewrite ?app_assoc in H;
      apply app_inv_tail in H; by repeat apply app_inv_head in H. }
  apply parse_show_dec in Hi, Hj. rewrite Hs in Hi. rewrite Hi in Hj. by injection Hj.
Qed.

Section app_props.
Context {DL : DnsLib} {DC : DnsCodec} {RX : RegexLib} {IL : IpNetLib} {US : UnstableSort}.
Context {L : LruLib QueryKey Entry} {CC : ConfigCodec}.
Context (dhash : bytes → Z) (chash : list (bytes * Z * Action) → Z) (parallelism : option Z).
Context (make_transport : list SocketAddr → UpstreamSpec → result () UpstreamError).
Context {qsender psender qstore pstore : Type}.
Implicit Types (cfg : Config) (fs : Files).

Local Notation App := (AppState (qsender:=qsender) (psender:=psender) (qstore:=qstore) (pstore:=pstore)).
Local Notation compile := (compile_filters dhash chash).
Local Notation apply := (apply_config (qsender:=qsender) (psender:=psender) (qstore:=qstore) (pstore:=pstore) dhash chash make_transport).

(** ** The rules a configuration selects *)

(** The lists [compile_filters] compiles: id, name and text. *)
Definition configured_lists cfg fs : list (Z * bytes * bytes) :=
  (0%Z, bs "Custom rules", fc_custom_rules (cf_filtering cfg))
  :: ((λ l, (fl_id l, fl_name l, read_list_text fs (fl_id l))) <$> filter (λ l, fl_enabled l = true) (fc_lists (cf_filtering cfg))).
Lemma compile_configured cfg fs :
  compile cfg fs =
    (let! (e, stats) := build dhash chash (add_lists compiler_new (configured_lists cfg fs)) in
     Some ((dhash, e), (λ s, (ls_list_id s, ls_rules s)) <$> stats)).
Proof.
  unfold compile_filters, configured_lists, add_lists. cbn [foldl].
  set (c0 := (add_list _ _ _ _).1). clearbody c0. f_equal. f_equal.
  revert c0. induction (fc_lists (cf_filtering cfg)) as [|l ls IH]; intros c; [done|]. cbn [foldl]. rewrite IH.
  destruct (fl_enabled l) eqn:E; [by rewrite filter_cons_True|]. rewrite filter_cons_False by (by rewrite E). done.
Qed.

(** The limits under which the lists compile. *)
Definition lists_fit cfg fs : Prop :=
  ascii_lists (configured_lists cfg fs)
  ∧ limits_ok (prune_redundant (active_rules (add_lists compiler_new (configured_lists cfg fs)))).
(** A filter that answers as the linear scan over the configured rules does. *)
Definition filters_as_configured cfg fs (f : Filter) : Prop :=
  let rules := active_rules (add_lists compiler_new (configured_lists cfg fs)) in
  ∀ domain rtype cl, is_ascii domain = true →
    ∃ v, check f.1 f.2 domain rtype cl = Some v
      ∧ spec_verdict (prune_redundant rules) (normalize_query domain) rtype cl v
      ∧ as_scanned rules (normalize_query domain) rtype cl v.
Lemma compile_fits `{!RegexLaws RX} `{!GlobLaws RX} cfg fs : lists_fit cfg fs →
  ∃ f counts, compile cfg fs = Some (f, counts) ∧ filters_as_configured cfg fs f.
Proof.
  intros [Ha Hl]. rewrite compile_configured. pose proof (compiled_rules_ok _ Ha Hl) as Hok.
  destruct (from_rules_engine dhash chash _ Hok) as (e & He & Heng). unfold build. rewrite He. simpl.
  eexists _, _. split; [done|]. intros domain rtype cl Hd.
  destruct (check_spec dhash _ e domain rtype cl Hok Heng Hd) as (v & Hc & Hv). exists v. split_and!; [done..|by apply prune_as_scanned].
Qed.

(** The compiled filter is one the pipeline's laws are about. *)
Lemma compiled_built `{!RegexLaws RX} `{!GlobLaws RX} cfg fs f counts : lists_fit cfg fs → compile cfg fs = Some (f, counts) → built_filter chash f.
Proof.
  intros [Ha Hl]. rewrite compile_configured. unfold build. destruct (from_rules _ _ _) as [e|] eqn:E; [|done]. intros [= <- _].
  eexists. split; [|exact E]. by apply compiled_rules_ok.
Qed.

(** ** The live engine *)

(** The engine runs on a configuration: its filter is compiled from the configured lists, its
    upstreams are the configured ones, and every setting is the configured value. *)
Record runs_on cfg fs (s : App) : Prop := {
  rn_filter : ∃ counts, compile cfg fs = Some (es_filter (eg_state (as_engine s)), counts);
  rn_upstreams : build_upstreams (make_transport (uc_bootstrap (cf_upstreams cfg))) (pool_entries cfg)
                 = Ok (pl_upstreams (es_pool (eg_state (as_engine s))));
  rn_pool_settings : pl_settings (es_pool (eg_state (as_engine s))) = pool_settings cfg;
  rn_clients : es_clients (eg_state (as_engine s)) = build_matcher (cf_clients cfg);
  rn_filtering : es_filtering_enabled (eg_state (as_engine s)) = fc_enabled (cf_filtering cfg)
    ∧ es_blocking_mode (eg_state (as_engine s)) = fc_blocking_mode (cf_filtering cfg)
    ∧ es_block_v4 (eg_state (as_engine s)) = fc_custom_block_ipv4 (cf_filtering cfg)
    ∧ es_block_v6 (eg_state (as_engine s)) = fc_custom_block_ipv6 (cf_filtering cfg)
    ∧ es_blocked_ttl (eg_state (as_engine s)) = fc_blocked_ttl_secs (cf_filtering cfg);
  rn_cache : dc_cfg (eg_cache (as_engine s)) =
    {| cf_enabled := cg_enabled (cf_cache cfg); cf_min_ttl := cg_min_ttl_secs (cf_cache cfg);
       cf_max_ttl := cg_max_ttl_secs (cf_cache cfg); cf_stale_max_age := cg_optimistic_max_age_secs (cf_cache cfg);
       cf_store_summaries := qc_enabled (cf_query_log cfg) |};
  rn_cache_size : dc_capacity (eg_cache (as_engine s)) = max (Z.to_nat (cg_size (cf_cache cfg))) 1;
  rn_log : ql_enabled (eg_log (as_engine s)) = qc_enabled (cf_query_log cfg)
    ∧ ql_anonymize (eg_log (as_engine s)) = pv_anonymize_client_ips (cf_privacy cfg);
  rn_stats : st_enabled (eg_stats (as_engine s)) = stc_enabled (cf_stats cfg)
    ∧ st_anonymize (eg_stats (as_engine s)) = pv_anonymize_client_ips (cf_privacy cfg)
    ∧ st_max_buckets (eg_stats (as_engine s)) = Z.to_nat (wrap 32 (Z.max (stc_retention_days (cf_stats cfg)) 1 * 24));
  rn_probe_log : plog_enabled (as_probe_log s) = ulc_enabled (cf_upstream_log cfg);
}.

Lemma validate_counts counts cfg : validate (with_counts counts cfg) = validate cfg.
Proof. done. Qed.
Lemma count_for_keeps counts l :
  fl_id (count_for counts l) = fl_id l ∧ fl_name (count_for counts l) = fl_name l
  ∧ fl_enabled (count_for counts l) = fl_enabled l ∧ fl_url (count_for counts l) = fl_url l.
Proof. unfold count_for. destruct (list_find _ counts) as [[? [? ?]]|]; done. Qed.
Lemma compile_counts counts cfg fs : compile (with_counts counts cfg) fs = compile cfg fs.
Proof.
  unfold compile_filters. f_equal. f_equal. simpl. set (c0 := (add_list _ _ _ _).1). clearbody c0. revert c0.
  induction (fc_lists (cf_filtering cfg)) as [|l ls IH]; intros c; [done|]. csimpl.
  destruct (count_for_keeps counts l) as (-> & -> & -> & _). apply IH.
Qed.
Lemma build_pool_ok draw cfg prev p : build_pool make_transport draw cfg prev = Ok p →
  build_upstreams (make_transport (uc_bootstrap (cf_upstreams cfg))) (pool_entries cfg) = Ok (pl_upstreams p)
  ∧ pl_settings p = pool_settings cfg.
Proof.
  unfold build_pool, pool_build. destruct (build_upstreams _ _) as [ups|e]; [|done]. simpl. intros [= <-].
  by destruct prev.
Qed.

(** What a successful reload leaves behind. *)
Lemma apply_config_inv env s new s' : apply env s new = Some (Ok s') →
  let cfg := as_config s' in
  (∃ counts, cfg = with_counts counts (with_upstreams (upstreams_normalize (cf_upstreams new)) new))
  ∧ validate cfg = Ok ()
  ∧ (∃ text, config_to_yaml cfg = Some text ∧ as_files s' = {| fs_config := Some text; fs_lists := fs_lists (as_files s) |})
  ∧ as_sessions s' = as_sessions s ∧ as_store s' = as_store s ∧ as_probe_store s' = as_probe_store s
  ∧ runs_on cfg (as_files s') s'.
Proof.
  unfold apply_config. set (c1 := with_upstreams _ new). destruct (validate c1) as [[]|] eqn:Ev; [|done].
  destruct (compile c1 (as_files s)) as [[f counts]|] eqn:Ec; [|done]. cbn [mbind option_bind].
  unfold build_engine_state. rewrite compile_counts, Ec. cbn [mbind option_bind].
  destruct (build_pool _ _ _ _) as [p|e] eqn:Ep; [|done]. cbn [result_bind].
  unfold save_config. destruct (config_to_yaml _) as [text|] eqn:Et; [|done]. cbn [ok_or result_bind].
  destruct (ue_save_ok env); [|done]. intros [= <-]. apply build_pool_ok in Ep as [Eu Es]. cbn zeta.
  split_and!; [by exists counts|done|by exists text|done..|].
  assert (Hf : compile (with_counts counts c1) {| fs_config := Some text; fs_lists := fs_lists (as_files s) |} = Some (f, counts)).
  { by rewrite compile_counts, <- Ec. }
  constructor; simpl; try done.
  - by exists counts.
  - unfold reconfigure_cache, cache_reconfigure. by destruct (cg_enabled _).
  - unfold reconfigure_cache, cache_reconfigure. by destruct (cg_enabled _).
Qed.

Lemma configured_counts counts cfg fs : configured_lists (with_counts counts cfg) fs = configured_lists cfg fs.
Proof.
  unfold configured_lists. f_equal. simpl. induction (fc_lists (cf_filtering cfg)) as [|l ls IH]; [done|]. csimpl.
  destruct (count_for_keeps counts l) as (Ei & En & Ee & _). rewrite !filter_cons, Ee. destruct (decide _); [|exact IH].
  csimpl. by rewrite IH, Ei, En.
Qed.
Lemma configured_files cfg fs fs' : fs_lists fs = fs_lists fs' → configured_lists cfg fs = configured_lists cfg fs'.
Proof. intros H. unfold configured_lists, read_list_text. by rewrite H. Qed.
Lemma configured_after env s new s' : apply env s new = Some (Ok s') →
  configured_lists (as_config s') (as_files s') = configured_lists new (as_files s).
Proof.
  intros ((counts & ->) & _ & (text & _ & ->) & _)%apply_config_inv. by rewrite configured_counts.
Qed.
Lemma fits_configured cfg fs cfg' fs' : configured_lists cfg fs = configured_lists cfg' fs' → lists_fit cfg fs → lists_fit cfg' fs'.
Proof. unfold lists_fit. by intros ->. Qed.
Lemma apply_config_total `{!RegexLaws RX} `{!GlobLaws RX} env s new : lists_fit new (as_files s) → ∃ r, apply env s new = Some r.
Proof.
  intros Hf. unfold apply_config. set (c1 := with_upstreams _ new). destruct (validate c1); [|eauto].
  destruct (compile_fits c1 (as_files s)) as (f & counts & Ec & _); [exact Hf|]. rewrite Ec. cbn [mbind option_bind].
  unfold build_engine_state. rewrite compile_counts, Ec. cbn [mbind option_bind]. eauto.
Qed.

(** ** What was requested *)

(** The number of rules of a list's text, [$badfilter] ones not counted. *)
Definition rules_of (id : Z) (text : bytes) : nat := length (kept (text_rules id text)).
Lemma push_rules_id id rs acc : ls_list_id (foldl (push_rule id) acc rs).2 = ls_list_id acc.2.
Proof.
  revert acc. induction rs as [|br rs IH]; intros acc; [done|]. cbn [foldl]. rewrite IH. destruct acc as [c st]. unfold push_rule.
  by destruct (badfilter _).
Qed.
Lemma add_lines_id id ls acc : ls_list_id (foldl (add_line id) acc ls).2 = ls_list_id acc.2.
Proof.
  revert acc. induction ls as [|l ls IH]; intros acc; [done|]. cbn [foldl]. rewrite IH. destruct acc as [c st]. unfold add_line.
  destruct (parse_line l) as [[rs| |]|]; [apply push_rules_id|done..].
Qed.
Lemma add_list_stats c id name text :
  (λ s, (ls_list_id s, ls_rules s)) <$> c_stats (add_list c id name text).1
  = ((λ s, (ls_list_id s, ls_rules s)) <$> c_stats c) ++ [(id, rules_of id text)].
Proof.
  destruct (add_list_spec c id name text) as (_ & _ & Hr). revert Hr. unfold add_list, rules_of.
  match goal with |- context [foldl (add_line id) (c, ?st) _] =>
    destruct (add_lines_spec id (lines text) c st) as [(_ & _ & E3) _]; pose proof (add_lines_id id (lines text) (c, st)) as Hi;
    destruct (foldl (add_line id) (c, st) (lines text)) as [c' st'] end.
  simpl in *. intros Hr. rewrite fmap_app, E3. cbn [fmap list_fmap]. by rewrite Hi, Hr.
Qed.
Lemma add_lists_stats ls c :
  (λ s, (ls_list_id s, ls_rules s)) <$> c_stats (add_lists c ls)
  = ((λ s, (ls_list_id s, ls_rules s)) <$> c_stats c) ++ ((λ '(id, _, text), (id, rules_of id text)) <$> ls).
Proof.
  revert c. induction ls as [|[[id name] text] ls IH]; intros c; [by rewrite app_nil_r|].
  change (add_lists c ((id, name, text) :: ls)) with (add_lists (add_list c id name text).1 ls).
  rewrite IH, add_list_stats, <- app_assoc. done.
Qed.
Lemma compile_counts_are cfg fs f counts : compile cfg fs = Some (f, counts) →
  counts = (λ '(id, _, text), (id, rules_of id text)) <$> configured_lists cfg fs.
Proof.
  rewrite compile_configured. generalize (configured_lists cfg fs). intros ls. unfold build.
  destruct (from_rules _ _ _) as [e|]; [|done]. cbn [mbind option_bind]. intros [= _ <-]. by rewrite add_lists_stats.
Qed.

(** A list as it was requested, with the number of rules of its text when it is compiled. *)
Definition counted (lists : list (Z * bytes * bytes)) (l l' : FilterListConfig) : Prop :=
  fl_id l' = fl_id l ∧ fl_name l' = fl_name l ∧ fl_url l' = fl_url l ∧ fl_enabled l' = fl_enabled l ∧ fl_last_updated l' = fl_last_updated l
  ∧ ((∃ name text, (fl_id l, name, text) ∈ lists ∧ fl_rule_count l' = Z.of_nat (rules_of (fl_id l) text))
     ∨ (fl_id l ∉ (λ '(id, _, _), id) <$> lists) ∧ fl_rule_count l' = fl_rule_count l).
(** The configuration is the requested one: every section is, except that the text of the
    upstream servers is normalized, with the same active lines, and that the lists have their
    rule counts. *)
Record requested (new : Config) fs cfg : Prop := {
  rq_sections : cf_version cfg = cf_version new ∧ cf_server cfg = cf_server new ∧ cf_cache cfg = cf_cache new
    ∧ cf_clients cfg = cf_clients new ∧ cf_query_log cfg = cf_query_log new ∧ cf_upstream_log cfg = cf_upstream_log new
    ∧ cf_stats cfg = cf_stats new ∧ cf_privacy cfg = cf_privacy new ∧ cf_auth cfg = cf_auth new;
  rq_upstreams : uc_bootstrap (cf_upstreams cfg) = uc_bootstrap (cf_upstreams new)
    ∧ uc_timeout_secs (cf_upstreams cfg) = uc_timeout_secs (cf_upstreams new)
    ∧ ((Z.of_nat (length (lines (uc_servers (cf_upstreams new)))) < 2 ^ 32)%Z →
         active_specs (cf_upstreams cfg) = active_specs (cf_upstreams new));
  rq_filtering : fc_enabled (cf_filtering cfg) = fc_enabled (cf_filtering new)
    ∧ fc_blocking_mode (cf_filtering cfg) = fc_blocking_mode (cf_filtering new)
    ∧ fc_custom_block_ipv4 (cf_filtering cfg) = fc_custom_block_ipv4 (cf_filtering new)
    ∧ fc_custom_block_ipv6 (cf_filtering cfg) = fc_custom_block_ipv6 (cf_filtering new)
    ∧ fc_blocked_ttl_secs (cf_filtering cfg) = fc_blocked_ttl_secs (cf_filtering new)
    ∧ fc_custom_rules (cf_filtering cfg) = fc_custom_rules (cf_filtering new);
  rq_lists : Forall2 (counted (configured_lists new fs)) (fc_lists (cf_filtering new)) (fc_lists (cf_filtering cfg));
}.
Lemma count_for_counted lists l : counted lists l (count_for ((λ '(id, _, text), (id, rules_of id text)) <$> lists) l).
Proof.
  unfold counted. unfold count_for. destruct (list_find _ _) as [[i [j n]]|] eqn:E.
  - simpl. split_and!; [done..|]. left. apply list_find_Some in E as (Hi & Hj & _). simpl in Hj. subst j.
    apply list_elem_of_lookup_2, list_elem_of_fmap in Hi as ([[id name] text] & [= <- ->] & Hin). by exists name, text.
  - split_and!; [done..|]. right. split; [|done]. intros ([[id name] text] & Hid & Hin)%list_elem_of_fmap.
    apply list_find_None in E. rewrite Forall_forall in E. eapply (E (id, rules_of id text)); [|exact (eq_sym Hid)].
    by apply (list_elem_of_fmap_2 (λ '(id, _, text), (id, rules_of id text)) _ (id, name, text)).
Qed.
Lemma apply_requested env s new s' : apply env s new = Some (Ok s') → requested new (as_files s) (as_config s').
Proof.
  unfold apply_config. set (c1 := with_upstreams _ new). destruct (validate c1) as [[]|] eqn:Ev; [|done].
  destruct (compile c1 (as_files s)) as [[f counts]|] eqn:Ec; [|done]. cbn [mbind option_bind].
  unfold build_engine_state. rewrite compile_counts, Ec. cbn [mbind option_bind].
  destruct (build_pool _ _ _ _) as [p|e]; [|done]. cbn [result_bind].
  unfold save_config. destruct (config_to_yaml _) as [text|]; [|done]. cbn [ok_or result_bind].
  destruct (ue_save_ok env); [|done]. intros [= <-]. apply compile_counts_are in Ec. cbn [as_config install].
  constructor; [done|split_and!; [done..|apply active_specs_normalize]|done|].
  cbn [with_counts with_filtering with_lists cf_filtering fc_lists c1 with_upstreams].
  change (configured_lists new (as_files s)) with (configured_lists c1 (as_files s)). rewrite Ec.
  apply Forall2_fmap_r, Forall_Forall2_diag, Forall_true. intros l. apply count_for_counted.
Qed.

(** The entries and the hours that the new limits leave. *)
Lemma install_cache `{!LruLaws L} cfg text st (s : App) : let c := eg_cache (as_engine s) in let c' := eg_cache (as_engine (install cfg text st s)) in
  (Forall (λ sh, lru_cap sh = shard_cap (dc_capacity c) (length (dc_shards c))) (dc_shards c) →
   Forall (λ sh, lru_cap sh = shard_cap (max (Z.to_nat (cg_size (cf_cache cfg))) 1) (length (dc_shards c'))) (dc_shards c'))
  ∧ (cg_enabled (cf_cache cfg) = false → Forall (λ sh, lru_iter sh = []) (dc_shards c')).
Proof.
  intros c c'. unfold c'. cbn [install as_engine eg_cache swap_state]. fold c. unfold reconfigure_cache, cache_reconfigure.
  set (cap := max _ 1). set (l := if bool_decide _ then _ else _).
  assert (Hl : Forall (λ sh, lru_cap sh = shard_cap (dc_capacity c) (length (dc_shards c))) (dc_shards c) →
               length l = length (dc_shards c) ∧ Forall (λ sh, lru_cap sh = shard_cap cap (length (dc_shards c))) l).
  { intros H. unfold l. cbn [set_cfg dc_capacity dc_shards]. case_bool_decide as E; [by rewrite E|]. rewrite length_fmap. split; [done|].
    apply Forall_fmap, Forall_true. intros sh. apply lru_resize_cap. }
  clearbody l. split.
  - intros [Hn Hc]%Hl. destruct (cg_enabled _); cbn [set_store_summaries set_cfg cache_clear set_shards dc_shards]; [by rewrite Hn|].
    rewrite length_fmap, Hn. apply Forall_fmap. eapply Forall_impl; [exact Hc|]. intros sh Hs. cbn. by rewrite lru_clear_cap.
  - intros ->. cbn [set_store_summaries set_cfg cache_clear set_shards dc_shards]. apply Forall_fmap, Forall_true. intros sh. apply lru_clear_iter.
Qed.
Lemma install_stats cfg text st (s : App) : let t := eg_stats (as_engine (install cfg text st s)) in
  Forall (λ i, length (si_series i) ≤ st_max_buckets t) (st_shards t).
Proof.
  cbn [install as_engine eg_stats stats_reconfigure st_shards st_max_buckets]. apply Forall_fmap, Forall_true. intros i.
  cbn [compose with_series si_series]. unfold trim_series. rewrite length_drop. lia.
Qed.
Lemma apply_is_install env s new s' : apply env s new = Some (Ok s') → ∃ text st, s' = install (as_config s') text st s.
Proof.
  unfold apply_config. set (c1 := with_upstreams _ new). destruct (validate c1) as [[]|]; [|done].
  destruct (compile c1 (as_files s)) as [[f counts]|]; [|done]. cbn [mbind option_bind].
  destruct (build_engine_state _ _ _ _ _ _ _) as [[st|]|]; [|done..]. cbn [mbind option_bind result_bind].
  destruct (save_config _ _) as [text|]; [|done]. intros [= <-]. by exists text, st.
Qed.

(** C12: applying a configuration whose ASCII lists fit the engine's integer fields never
    panics.  When it succeeds, the configuration in memory is the requested one, section by
    section (the text of the upstream servers normalized, with the same active lines; the lists
    with the number of rules of their texts); it is valid and is what the file on
    disk reads back as; the lists' files, sessions and stores are untouched; the whole engine
    runs on that configuration: filter, upstreams, clients, blocking, log, probe log, cache
    settings and size, statistics and their retention; the shards of the cache have the
    capacities of the new size when they had those of the old one, and are empty when the cache is off; no
    statistics reach further back than the retention; and the live filter answers every ASCII query as the linear
    scan over the configured rules does (up to a block tied with a rewrite). *)
Theorem reload_installs_configuration `{!RegexLaws RX} `{!GlobLaws RX} `{!ConfigCodecLaws CC} `{!LruLaws L} env s new :
  lists_fit new (as_files s) →
  (∃ r, apply env s new = Some r) ∧
  ∀ s', apply env s new = Some (Ok s') →
    let cfg := as_config s' in
    let c := eg_cache (as_engine s) in let c' := eg_cache (as_engine s') in let t := eg_stats (as_engine s') in
    requested new (as_files s) cfg
    ∧ validate cfg = Ok ()
    ∧ (∃ text, fs_config (as_files s') = Some text ∧ config_from_yaml text = Some cfg)
    ∧ fs_lists (as_files s') = fs_lists (as_files s) ∧ as_sessions s' = as_sessions s
    ∧ as_store s' = as_store s ∧ as_probe_store s' = as_probe_store s
    ∧ runs_on cfg (as_files s') s'
    ∧ (Forall (λ sh, lru_cap sh = shard_cap (dc_capacity c) (length (dc_shards c))) (dc_shards c) →
       Forall (λ sh, lru_cap sh = shard_cap (max (Z.to_nat (cg_size (cf_cache cfg))) 1) (length (dc_shards c'))) (dc_shards c'))
    ∧ (cg_enabled (cf_cache cfg) = false → Forall (λ sh, lru_iter sh = []) (dc_shards c'))
    ∧ Forall (λ i, length (si_series i) ≤ st_max_buckets t) (st_shards t)
    ∧ filters_as_configured cfg (as_files s') (es_filter (eg_state (as_engine s'))).
Proof.
  intros Hf. split; [by apply apply_config_total|]. intros s' Ha. pose proof (configured_after _ _ _ _ Ha) as Hc.
  destruct (apply_config_inv _ _ _ _ Ha) as (_ & Hv & (text & Ht & Hfs) & H1 & H2 & H3 & Hr).
  destruct (apply_is_install _ _ _ _ Ha) as (tx & st & Hi). cbv zeta.
  split_and!; [by eapply apply_requested|done| |by rewrite Hfs|done..| | | |].
  - exists text. rewrite Hfs. split; [done|]. by apply yaml_roundtrip.
  - pose proof (install_cache (as_config s') tx st s) as [HC _]. by rewrite <- Hi in HC.
  - pose proof (install_cache (as_config s') tx st s) as [_ HC]. by rewrite <- Hi in HC.
  - pose proof (install_stats (as_config s') tx st s) as HC. by rewrite <- Hi in HC.
  - destruct (compile_fits (as_config s') (as_files s')) as (f & counts & Ec & Hok); [by eapply fits_configured|].
    destruct (rn_filter _ _ _ Hr) as [counts' Ec']. rewrite Ec in Ec'. by injection Ec' as <- _.
Qed.
End app_props.

(** ** A concrete application *)

#[export] Instance Config_eq_dec : EqDecision Config.
Proof.
  assert (EqDecision ClientConfig) by solve_decision. assert (EqDecision BlockingMode) by solve_decision.
  assert (EqDecision FilterListConfig) by solve_decision. assert (EqDecision FilteringConfig) by solve_decision.
  assert (EqDecision ServerConfig) by solve_decision. assert (EqDecision UpstreamsConfig) by solve_decision.
  assert (EqDecision Config.CacheConfig) by solve_decision. assert (EqDecision QueryLogConfig) by solve_decision.
  assert (EqDecision UpstreamLogConfig) by solve_decision. assert (EqDecision PrivacyConfig) by solve_decision.
  assert (EqDecision StatsConfig) by solve_decision. assert (EqDecision AuthConfig) by solve_decision. solve_decision.
Defined.
(** A codec of finitely many configurations: the text is the position in unary. *)
Definition table_codec (known : list Config) : ConfigCodec :=
  {| config_to_yaml := λ c, (λ p, replicate p.1 "c"%char) <$> list_find (eq c) known;
     config_from_yaml := λ t, known !! length t |}.
Lemma table_codec_laws known : ConfigCodecLaws (table_codec known).
Proof.
  constructor. intros c text. simpl. destruct (list_find (eq c) known) as [[i c']|] eqn:E; [|done]. simpl. intros [= <-].
  rewrite length_replicate. apply list_find_Some in E as (H & -> & _). exact H.
Qed.
