(* ===== verification/AppInstances.v ===== *)
(** * A concrete application: the small libraries put together, for the witnesses of the
    application and of the API. *)
From Stdlib Require Import Ascii.
From S2P Require Import Prelude RustStr RustNet RustFloat Rule Glob Parser ParserProps Instances FilterEngine FilterEngineProps FilterSpec Compiler Wire Dns DnsInstances Clients Block QueryLog Cache Snapshot Stats Engine EngineInstances EngineSafety Spec ProbeLog Pool Config ConfigProps Auth Http Dto App AppProps.

#[export] Instance demo_sessions : SessionLib := toy_sessions.
Definition demo_transport (_ : list SocketAddr) (_ : UpstreamSpec) : result () UpstreamError := Ok ().
Definition demo_draw (_ : nat) : Draw := {| dw_now := 0; dw_jitter := λ z, z; dw_startup := λ z, z |}.
Definition demo_list (count : Z) : FilterListConfig :=
  {| fl_id := 1; fl_name := bs "ads"; fl_url := Some (bs "https://lists.example/ads"); fl_enabled := true; fl_rule_count := count;
     fl_last_updated := None |}.
Definition demo_config (count : Z) (a : AuthConfig) : Config :=
  with_upstreams {| uc_servers := bs "1.1.1.1" ++ [LF]; uc_bootstrap := default_bootstrap; uc_timeout_secs := 5 |}
    (with_filtering (with_lists [demo_list count] filtering_default)
       {| cf_version := 1; cf_server := server_default; cf_upstreams := upstreams_default;
          cf_cache := {| cg_enabled := true; cg_size := 16; cg_min_ttl_secs := 0; cg_max_ttl_secs := 86400; cg_optimistic_max_age_secs := 0 |};
          cf_filtering := filtering_default; cf_clients := []; cf_query_log := query_log_default;
          cf_upstream_log := upstream_log_default; cf_stats := stats_cfg_default;
          cf_privacy := {| pv_anonymize_client_ips := false |}; cf_auth := a |}).
Definition demo_auth (user : string) : AuthConfig :=
  {| au_username := bs user; au_password_hash := Some (bs "hash"); au_session_secret := Some (bs "6b") |}.
Definition fresh_auth : AuthConfig := {| au_username := []; au_password_hash := None; au_session_secret := Some (bs "6b") |}.

(** The same configuration with other lists. *)
Definition demo_with_lists (ls : list FilterListConfig) : Config :=
  with_filtering (with_lists ls filtering_default) (demo_config 0 fresh_auth).
Definition family_list (updated : Z) : FilterListConfig :=
  {| fl_id := 1; fl_name := bs "family"; fl_url := None; fl_enabled := true; fl_rule_count := 1; fl_last_updated := Some updated |}.
#[export] Instance demo_yaml : ConfigCodec :=
  table_codec [demo_config 1 fresh_auth; demo_config 1 (demo_auth "alice"); demo_config 1 (demo_auth "mallory");
               demo_with_lists []; demo_with_lists [family_list 1000000]; demo_with_lists [family_list 1001000]].
#[export] Instance demo_yaml_laws : ConfigCodecLaws demo_yaml.
Proof. apply table_codec_laws. Qed.

Definition demo_files : Files := {| fs_config := None; fs_lists := {[ 1%Z := bs "||ads.com^" ]} |}.
Definition demo_update : UpdateEnv := {| ue_draw := demo_draw; ue_save_ok := true |}.
Definition demo_engine_result : option (result (AppEngine (qsender:=list QueryLogEntry)) AppError) :=
  build_engine demo_hash pipe_chash (Some 2%Z) demo_transport demo_draw (demo_config 0 fresh_auth) demo_files.
Definition demo_engine_state : AppEngineState :=
  {| es_filter := (demo_hash, no_engine); es_pool := pool_of [] pool_settings_default; es_clients := build_matcher [];
     es_filtering_enabled := false; es_blocking_mode := BmNxDomain; es_block_v4 := UNSPECIFIED4; es_block_v6 := UNSPECIFIED6;
     es_blocked_ttl := 0 |}.
Definition demo_engine : AppEngine (qsender:=list QueryLogEntry) :=
  match demo_engine_result with
  | Some (Ok g) => g
  | _ => {| eg_state := demo_engine_state; eg_cache := cache_new None 1 0 0 0; eg_log := querylog_new false false;
            eg_stats := stats_new None false 1 false |}
  end.
Definition demo_app : AppState (qsender:=list QueryLogEntry) (psender:=list ProbeEvent) (qstore:=unit) (pstore:=unit) :=
  {| as_engine := demo_engine; as_config := demo_config 0 fresh_auth; as_files := demo_files;
     as_sessions := signer_new (bs "6b") SESSION_TTL_SECS; as_probe_log := probelog_new false; as_store := (); as_probe_store := () |}.
Definition demo_apply := apply_config (qsender:=list QueryLogEntry) (psender:=list ProbeEvent) (qstore:=unit) (pstore:=unit)
                           demo_hash pipe_chash demo_transport.
Definition applied {A E} (r : option (result A E)) : bool := match r with Some (Ok _) => true | _ => false end.
Example demo_builds : applied demo_engine_result = true.
Proof. vm_compute. reflexivity. Qed.
Example demo_applies : applied (demo_apply demo_update demo_app (demo_config 0 (demo_auth "alice"))) = true.
Proof. vm_compute. reflexivity. Qed.

Lemma reload_installs_configuration_witness :
  lists_fit (demo_config 0 (demo_auth "alice")) (as_files demo_app) ∧
  ∃ s', demo_apply demo_update demo_app (demo_config 0 (demo_auth "alice")) = Some (Ok s')
    ∧ requested (demo_config 0 (demo_auth "alice")) (as_files demo_app) (as_config s')
    ∧ validate (as_config s') = Ok ()
    ∧ (∃ text, fs_config (as_files s') = Some text ∧ config_from_yaml text = Some (as_config s'))
    ∧ runs_on demo_hash pipe_chash demo_transport (as_config s') (as_files s') s'.
Proof.
  assert (Hf : lists_fit (demo_config 0 (demo_auth "alice")) (as_files demo_app)).
  { split; [repeat constructor|]. apply fits_engine_ok. vm_compute. reflexivity. }
  split; [exact Hf|]. pose proof demo_applies as Ha.
  destruct (demo_apply demo_update demo_app (demo_config 0 (demo_auth "alice"))) as [[s'|]|] eqn:E; try discriminate Ha.
  exists s'. destruct (reload_installs_configuration demo_hash pipe_chash demo_transport demo_update demo_app
    (demo_config 0 (demo_auth "alice")) Hf) as [_ H]. destruct (H s' E) as (H0 & H1 & H2 & _ & _ & _ & _ & H3 & _).
  split; [reflexivity|]. split; [exact H0|]. split; [exact H1|]. split; [exact H2|exact H3].
Defined.
