(* ===== verification/Api.v ===== *)
(** * server: the HTTP API ([api.rs]).

    A request arrives decoded: its endpoint with the body as a value ([Call]), its method and
    headers.  A handler runs to its response or suspends: [setup] between its check and its
    update, [add_list] and [refresh_list] while they fetch, [refresh_list] again between
    writing the list's file and its update.  An update runs under the update lock, so it is
    one step.  [None] is a panic, which aborts the process. *)
From Stdlib Require Import Ascii.
From S2P Require Import Prelude RustStr RustNet RustFloat Rule Parser FilterEngine FilterSpec Compiler Wire Dns Clients Block QueryLog Cache Snapshot Stats Engine EngineInstances Spec ProbeLog Pool Config Auth Http Dto App.

(** ** Requests and responses *)

Inductive ApiError : Type :=
| BadRequest (m : bytes)
| Unauthorized
| NotFound (m : bytes)
| Internal (m : bytes).

Record Credentials : Type := { cr_username : bytes; cr_password : bytes }.
Record FilteringSettings : Type := {
  fg_enabled : bool; fg_blocking_mode : BlockingMode; fg_custom_block_ipv4 : ipv4; fg_custom_block_ipv6 : ipv6;
  fg_blocked_ttl_secs : Z;
}.
Record NewList : Type := { nl_name : bytes; nl_url : option bytes; nl_enabled : bool; nl_content : option bytes }.
Record ListUpdate : Type := { lu_name : option bytes; lu_url : option bytes; lu_enabled : option bool }.
Record ClientInput : Type := { cp_name : bytes; cp_ids : list bytes; cp_tags : list bytes; cp_filtering_enabled : bool }.
Record LogQuery : Type := {
  lq_search : option bytes; lq_client : option bytes; lq_blocked_only : bool; lq_offset : nat; lq_limit : nat;
}.

(** The endpoints with their decoded bodies, path and query parameters. *)
Inductive Call : Type :=
| CStatus | CSetup (c : Credentials) | CLogin (c : Credentials) | CLogout
| CGetConfig | CPutUpstreams (u : UpstreamsConfig) | CPutCache (c : Config.CacheConfig) | CPutFiltering (f : FilteringSettings)
| CPutServer (c : ServerConfig) | CPutQuerylog (c : QueryLogConfig) | CPutUpstreamLog (c : UpstreamLogConfig)
| CPutStats (c : StatsConfig) | CPutPrivacy (c : PrivacyConfig)
| CGetFilters | CPutCustomRules (rules : bytes) | CAddRule (rule : bytes) | CCheckDomain (domain : bytes) (qtype : option bytes)
| CAddList (l : NewList) | CUpdateList (id : Z) (u : ListUpdate) | CDeleteList (id : Z) | CRefreshList (id : Z)
| CGetClients | CPostClient (c : ClientInput) | CPutClient (id : bytes) (c : ClientInput) | CDeleteClient (id : bytes)
| CGetStats (top : nat) | CResetStats | CGetQuerylog (q : LogQuery) | CClearQuerylog | CClearUpstreamLog
| CExportUpstreamLog | CGetUpstreams | CTestUpstream (spec : bytes).

(** [router]: method and path of an endpoint, and whether it is public. *)
Definition is_public (c : Call) : bool :=
  match c with CStatus | CSetup _ | CLogin _ | CLogout => true | _ => false end.
Definition method_of (c : Call) : Method :=
  match c with
  | CStatus | CGetConfig | CGetFilters | CGetClients | CGetStats _ | CGetQuerylog _ | CExportUpstreamLog | CGetUpstreams => MGet
  | CPutUpstreams _ | CPutCache _ | CPutFiltering _ | CPutServer _ | CPutQuerylog _ | CPutUpstreamLog _ | CPutStats _
  | CPutPrivacy _ | CPutCustomRules _ | CUpdateList _ _ | CPutClient _ _ => MPut
  | CDeleteList _ | CDeleteClient _ | CClearQuerylog | CClearUpstreamLog => MDelete
  | CSetup _ | CLogin _ | CLogout | CAddRule _ | CCheckDomain _ _ | CAddList _ | CRefreshList _ | CPostClient _
  | CResetStats | CTestUpstream _ => MPost
  end.
Definition path_of (c : Call) : bytes :=
  match c with
  | CStatus => bs "/api/status" | CSetup _ => bs "/api/setup" | CLogin _ => bs "/api/login" | CLogout => bs "/api/logout"
  | CGetConfig => bs "/api/config" | CPutUpstreams _ => bs "/api/config/upstreams" | CPutCache _ => bs "/api/config/cache"
  | CPutFiltering _ => bs "/api/config/filtering" | CPutServer _ => bs "/api/config/server"
  | CPutQuerylog _ => bs "/api/config/querylog" | CPutUpstreamLog _ => bs "/api/config/upstreamlog"
  | CPutStats _ => bs "/api/config/stats" | CPutPrivacy _ => bs "/api/config/privacy"
  | CGetFilters => bs "/api/filters" | CPutCustomRules _ => bs "/api/filters/custom" | CAddRule _ => bs "/api/filters/rule"
  | CCheckDomain _ _ => bs "/api/filters/check" | CAddList _ => bs "/api/filters/lists"
  | CUpdateList id _ | CDeleteList id => bs "/api/filters/lists/" ++ show_dec id
  | CRefreshList id => bs "/api/filters/lists/" ++ show_dec id ++ bs "/refresh"
  | CGetClients | CPostClient _ => bs "/api/clients"
  | CPutClient id _ | CDeleteClient id => bs "/api/clients/" ++ id
  | CGetStats _ => bs "/api/stats" | CResetStats => bs "/api/stats/reset"
  | CGetQuerylog _ | CClearQuerylog => bs "/api/querylog" | CClearUpstreamLog => bs "/api/upstreamlog"
  | CExportUpstreamLog => bs "/api/upstreamlog/export" | CGetUpstreams => bs "/api/upstreams"
  | CTestUpstream _ => bs "/api/upstreams/test"
  end.

Record CheckResponse : Type := { ck_action : bytes; ck_rule : option bytes; ck_list_name : option bytes }.
Inductive Body : Type :=
| BOk | BError (m : bytes) | BText (m : bytes)
| BStatus (setup_needed authed : bool) (dns_bind : list SocketAddr)
| BConfig (c : Config) | BServerUpdate (restart_required : bool)
| BFilters (lists : list FilterListConfig) (custom_rules : bytes) (enabled : bool) (mode : BlockingMode)
| BAddRule (rule : bytes) (added : bool) | BAddList (id : Z) | BCheck (c : CheckResponse)
| BClients (l : list ClientConfig) | BClient (c : ClientConfig)
| BStats (s : StatsResponse) | BQuerylog (entries : list LogEntryView) (total : nat) | BExport (text : bytes)
| BUpstreams (l : list UpstreamStatDto) | BTest (ok : bool) (rtt_ms : option f64) (error : option bytes).
Record Response : Type := { rp_status : Z; rp_set_cookie : option bytes; rp_body : Body }.
Definition ok_body (b : Body) : Response := {| rp_status := 200; rp_set_cookie := None; rp_body := b |}.
Definition with_cookie (c : bytes) (r : Response) : Response :=
  {| rp_status := rp_status r; rp_set_cookie := Some c; rp_body := rp_body r |}.
(** [ApiError::into_response]. *)
Definition error_response (e : ApiError) : Response :=
  let '(status, m) := match e with
                      | BadRequest m => (400%Z, m) | Unauthorized => (401%Z, bs "unauthorized")
                      | NotFound m => (404%Z, m) | Internal m => (500%Z, m)
                      end in
  {| rp_status := status; rp_set_cookie := None; rp_body := BError m |}.

(** ** Updates of the configuration *)

Definition with_cache_config (k : Config.CacheConfig) (c : Config) : Config :=
  {| cf_version := cf_version c; cf_server := cf_server c; cf_upstreams := cf_upstreams c; cf_cache := k;
     cf_filtering := cf_filtering c; cf_clients := cf_clients c; cf_query_log := cf_query_log c;
     cf_upstream_log := cf_upstream_log c; cf_stats := cf_stats c; cf_privacy := cf_privacy c; cf_auth := cf_auth c |}.
Definition with_logging (q : QueryLogConfig) (u : UpstreamLogConfig) (t : StatsConfig) (p : PrivacyConfig) (c : Config) : Config :=
  {| cf_version := cf_version c; cf_server := cf_server c; cf_upstreams := cf_upstreams c; cf_cache := cf_cache c;
     cf_filtering := cf_filtering c; cf_clients := cf_clients c; cf_query_log := q; cf_upstream_log := u; cf_stats := t;
     cf_privacy := p; cf_auth := cf_auth c |}.
Definition with_auth (a : AuthConfig) (c : Config) : Config :=
  {| cf_version := cf_version c; cf_server := cf_server c; cf_upstreams := cf_upstreams c; cf_cache := cf_cache c;
     cf_filtering := cf_filtering c; cf_clients := cf_clients c; cf_query_log := cf_query_log c;
     cf_upstream_log := cf_upstream_log c; cf_stats := cf_stats c; cf_privacy := cf_privacy c; cf_auth := a |}.
Definition with_settings (g : FilteringSettings) (f : FilteringConfig) : FilteringConfig :=
  {| fc_enabled := fg_enabled g; fc_blocking_mode := fg_blocking_mode g; fc_custom_block_ipv4 := fg_custom_block_ipv4 g;
     fc_custom_block_ipv6 := fg_custom_block_ipv6 g; fc_blocked_ttl_secs := fg_blocked_ttl_secs g; fc_lists := fc_lists f;
     fc_custom_rules := fc_custom_rules f |}.
Definition with_custom_rules (r : bytes) (f : FilteringConfig) : FilteringConfig :=
  {| fc_enabled := fc_enabled f; fc_blocking_mode := fc_blocking_mode f; fc_custom_block_ipv4 := fc_custom_block_ipv4 f;
     fc_custom_block_ipv6 := fc_custom_block_ipv6 f; fc_blocked_ttl_secs := fc_blocked_ttl_secs f; fc_lists := fc_lists f;
     fc_custom_rules := r |}.
Definition edit_filtering (e : FilteringConfig → FilteringConfig) (c : Config) : Config := with_filtering (e (cf_filtering c)) c.
Definition edit_lists (e : list FilterListConfig → list FilterListConfig) : Config → Config :=
  edit_filtering (λ f, with_lists (e (fc_lists f)) f).
(** [iter_mut().find(p)] and an assignment through it: the first match changes. *)
Fixpoint update_first {A} (p : A → bool) (f : A → A) (l : list A) : list A :=
  match l with
  | [] => []
  | a :: l => if p a then f a :: l else a :: update_first p f l
  end.
Definition has_id (id : Z) (l : FilterListConfig) : bool := (fl_id l =? id)%Z.
Definition has_client_id (id : bytes) (c : ClientConfig) : bool := bool_decide (cc_id c = id).

(** The rule [add_custom_rule] appends. *)
Definition append_rule (rule rules : bytes) : bytes :=
  let sep := if negb (bool_decide (rules = [])) && negb (ends_with [LF] rules) then [LF] else [] in
  rules ++ sep ++ rule ++ [LF].
Definition rule_present (rule rules : bytes) : bool := existsb (λ l, bool_decide (trim l = rule)) (lines rules).

Definition apply_list_update (u : ListUpdate) (l : FilterListConfig) : FilterListConfig :=
  {| fl_id := fl_id l; fl_name := default (fl_name l) (lu_name u);
     fl_url := match lu_url u with Some url => Some url | None => fl_url l end;
     fl_enabled := default (fl_enabled l) (lu_enabled u); fl_rule_count := fl_rule_count l;
     fl_last_updated := fl_last_updated l |}.
Definition touch_list (now_ms : Z) (l : FilterListConfig) : FilterListConfig :=
  {| fl_id := fl_id l; fl_name := fl_name l; fl_url := fl_url l; fl_enabled := fl_enabled l;
     fl_rule_count := fl_rule_count l; fl_last_updated := Some now_ms |}.
Definition client_of (id : bytes) (i : ClientInput) : ClientConfig :=
  {| cc_id := id; cc_name := cp_name i; cc_ids := cp_ids i; cc_tags := cp_tags i;
     cc_filtering_enabled := cp_filtering_enabled i |}.

(** [new_client_id]: the random draws of eight bytes are an argument; the loop goes on while the id of a draw
    is taken, so it has not returned when they run out. *)
Definition hex_id (draw : Z) : bytes := mjoin (hex_byte <$> le_bytes 8 draw).
Definition new_client_id (draws : list Z) (existing : list ClientConfig) : option bytes :=
  find_map (λ d, if existsb (has_client_id (hex_id d)) existing then None else Some (hex_id d)) draws.

(** [list_names]. *)
Definition list_names (c : Config) : gmap Z bytes :=
  <[0%Z := bs "Custom rules"]> (foldl (λ m l, <[fl_id l := fl_name l]> m) ∅ (fc_lists (cf_filtering c))).

(** ** Handlers *)

(** The stores' operations the API calls; the outer [None] of a query is a panic. *)
Class StoreOps (qstore pstore : Type) `{IpNetLib} : Type := {
  store_query : qstore → LogFilter → nat → nat → ClientMatcher → option (result LogPage bytes);
  store_clear : qstore → result qstore bytes;
  probe_clear : pstore → result pstore bytes;
  probe_export : pstore → result bytes bytes;
}.

(** What a handler reads from its surroundings: the clock in seconds and milliseconds, the
    salt and the ids that are drawn, the outcome of file operations, the result of a
    connectivity test, the text of a hashing error. *)
Record ReqEnv : Type := {
  rv_now : Z; rv_now_ms : Z; rv_salt : bytes; rv_draws : list Z; rv_update : UpdateEnv;
  rv_write : WriteResult; rv_remove_ok : bool; rv_test : result Z UpstreamError; rv_hash_error : bytes;
}.
(** A suspended handler. *)
Inductive Task : Type :=
| TSetup (secure : bool) (username hash : bytes)
| TAddList (l : NewList)
| TRefreshFetch (id : Z)
| TRefreshCommit (id : Z).
Inductive HandlerOutcome : Type := Done (r : Response) | Wait (t : Task).
Definition fail (e : ApiError) : HandlerOutcome := Done (error_response e).

Section api.
Context {DL : DnsLib} {DC : DnsCodec} {RX : RegexLib} {IL : IpNetLib} {US : UnstableSort} {HO : HashOrder}.
Context {L : LruLib QueryKey Entry} {CC : ConfigCodec} {SL : SessionLib} {PL : PasswordLib}.
Context (dhash : bytes → Z) (chash : list (bytes * Z * Action) → Z).
Context (make_transport : list SocketAddr → UpstreamSpec → result () UpstreamError).
Context {qsender psender qstore pstore : Type} {SO : StoreOps qstore pstore}.

Local Notation App := (AppState (qsender:=qsender) (psender:=psender) (qstore:=qstore) (pstore:=pstore)).

(** [apply_config(&state, cfg).await.map_err(on_err)?] and the response after it. *)
Definition commit (env : ReqEnv) (on_err : bytes → ApiError) (s : App) (cfg : Config) (r : Response)
  : option (Response * App) :=
  let! res := apply_config dhash chash make_transport (rv_update env) s cfg in
  Some match res with
       | Ok s' => (r, s')
       | Err e => (error_response (on_err (app_error_text e)), s)
       end.
Definition done (r : option (Response * App)) : option (HandlerOutcome * App) :=
  let! (r, s) := r in Some (Done r, s).
Definition put (env : ReqEnv) (s : App) (cfg : Config) (b : Body) : option (HandlerOutcome * App) :=
  done (commit env BadRequest s cfg (ok_body b)).
Definition reply (s : App) (b : Body) : option (HandlerOutcome * App) := Some (Done (ok_body b), s).
Definition refuse (s : App) (e : ApiError) : option (HandlerOutcome * App) := Some (fail e, s).

(** The response of [setup] and [login] with a fresh session. *)
Definition session_response (env : ReqEnv) (secure : bool) (s : App) : option Response :=
  let! v := header_value (session_cookie (issue (as_sessions s) (rv_now env)) secure) in
  Some (with_cookie v (ok_body BOk)).

(** [status], [setup], [login], [logout]. *)
Definition status (env : ReqEnv) (h : HeaderMap) (s : App) : option (HandlerOutcome * App) :=
  let authed := match cookie_token h with Some t => session_verify (as_sessions s) (rv_now env) t | None => false end in
  reply s (BStatus (needs_setup (cf_auth (as_config s))) authed (sc_dns_bind (cf_server (as_config s)))).
Definition setup (env : ReqEnv) (h : HeaderMap) (c : Credentials) (s : App) : option (HandlerOutcome * App) :=
  if negb (needs_setup (cf_auth (as_config s))) then refuse s (BadRequest (bs "already set up"))
  else if bool_decide (trim (cr_username c) = []) || (length (cr_password c) <? 6) then
    refuse s (BadRequest (bs "username required and password must be at least 6 characters"))
  else match hash_password (rv_salt env) (cr_password c) with
       | None => refuse s (Internal (rv_hash_error env))
       | Some hash => Some (Wait (TSetup (is_https h) (cr_username c) hash), s)
       end.
Definition setup_commit (env : ReqEnv) (secure : bool) (username hash : bytes) (s : App) : option (HandlerOutcome * App) :=
  let cfg := as_config s in
  let cfg := with_auth {| au_username := username; au_password_hash := Some hash;
                          au_session_secret := au_session_secret (cf_auth cfg) |} cfg in
  let! res := apply_config dhash chash make_transport (rv_update env) s cfg in
  match res with
  | Err e => refuse s (Internal (app_error_text e))
  | Ok s' => let! r := session_response env secure s' in Some (Done r, s')
  end.
Definition login (env : ReqEnv) (h : HeaderMap) (c : Credentials) (s : App) : option (HandlerOutcome * App) :=
  let a := cf_auth (as_config s) in
  let ok := bool_decide (au_username a = cr_username c)
            && match au_password_hash a with Some hash => verify_password (cr_password c) hash | None => false end in
  if negb ok then refuse s Unauthorized
  else let! r := session_response env (is_https h) s in Some (Done r, s).
Definition logout (s : App) : option (HandlerOutcome * App) :=
  let! v := header_value clear_cookie in Some (Done (with_cookie v (ok_body BOk)), s).

(** [get_config]: the credentials are blanked. *)
Definition get_config (s : App) : option (HandlerOutcome * App) :=
  let c := as_config s in
  reply s (BConfig (with_auth {| au_username := au_username (cf_auth c); au_password_hash := None; au_session_secret := None |} c)).

(** The settings. *)
Definition put_upstreams (env : ReqEnv) (u : UpstreamsConfig) (s : App) := put env s (with_upstreams u (as_config s)) BOk.
Definition put_cache (env : ReqEnv) (k : Config.CacheConfig) (s : App) := put env s (with_cache_config k (as_config s)) BOk.
Definition put_filtering (env : ReqEnv) (g : FilteringSettings) (s : App) :=
  put env s (edit_filtering (with_settings g) (as_config s)) BOk.
Definition put_server (env : ReqEnv) (v : ServerConfig) (s : App) :=
  let old := cf_server (as_config s) in
  let restart := negb (bool_decide (sc_dns_bind old = sc_dns_bind v)) || negb (bool_decide (sc_http_bind old = sc_http_bind v)) in
  put env s (with_server v (as_config s)) (BServerUpdate restart).
Definition put_querylog (env : ReqEnv) (q : QueryLogConfig) (s : App) :=
  let c := as_config s in put env s (with_logging q (cf_upstream_log c) (cf_stats c) (cf_privacy c) c) BOk.
Definition put_upstream_log (env : ReqEnv) (u : UpstreamLogConfig) (s : App) :=
  let c := as_config s in put env s (with_logging (cf_query_log c) u (cf_stats c) (cf_privacy c) c) BOk.
Definition put_stats_cfg (env : ReqEnv) (t : StatsConfig) (s : App) :=
  let c := as_config s in put env s (with_logging (cf_query_log c) (cf_upstream_log c) t (cf_privacy c) c) BOk.
Definition put_privacy (env : ReqEnv) (p : PrivacyConfig) (s : App) :=
  let c := as_config s in put env s (with_logging (cf_query_log c) (cf_upstream_log c) (cf_stats c) p c) BOk.

(** Filters. *)
Definition get_filters (s : App) : option (HandlerOutcome * App) :=
  let f := cf_filtering (as_config s) in
  reply s (BFilters (fc_lists f) (fc_custom_rules f) (fc_enabled f) (fc_blocking_mode f)).
Definition put_custom_rules (env : ReqEnv) (rules : bytes) (s : App) :=
  put env s (edit_filtering (with_custom_rules rules) (as_config s)) BOk.
Definition add_custom_rule (env : ReqEnv) (rule : bytes) (s : App) : option (HandlerOutcome * App) :=
  let rule := trim rule in
  if bool_decide (rule = []) then refuse s (BadRequest (bs "empty rule"))
  else
    let rules := fc_custom_rules (cf_filtering (as_config s)) in
    if rule_present rule rules then reply s (BAddRule rule false)
    else put env s (edit_filtering (with_custom_rules (append_rule rule rules)) (as_config s)) (BAddRule rule true).
Definition check_domain (domain : bytes) (qtype : option bytes) (s : App) : option (HandlerOutcome * App) :=
  let '(dh, e) := es_filter (eg_state (as_engine s)) in
  let! v := check dh e (to_ascii_lowercase (trim_end_matches DOT domain)) (to_ascii_uppercase (default (bs "A") qtype)) no_client_info in
  let attribute info action :=
    {| ck_action := action; ck_rule := Some (mi_rule info); ck_list_name := list_names (as_config s) !! mi_list_id info |} in
  reply s (BCheck match v with
                  | VAllow (Some info) => attribute info (bs "allow")
                  | VAllow None => {| ck_action := bs "allow"; ck_rule := None; ck_list_name := None |}
                  | VBlock info => attribute info (bs "block")
                  | VRewrite info _ => attribute info (bs "rewrite")
                  end).

(** Filter lists.  [fetch_list] is the network: its result resumes the handler. *)
Definition add_list_commit (env : ReqEnv) (b : NewList) (text : bytes) (s : App) : option (HandlerOutcome * App) :=
  let cfg := as_config s in
  let id := next_list_id cfg in
  match write_list_text (as_files s) (rv_write env) id text with
  | (Err e, fs) => refuse (with_files fs s) (Internal e)
  | (Ok _, fs) =>
      put env (with_files fs s)
        (edit_lists (λ ls, ls ++ [{| fl_id := id; fl_name := nl_name b; fl_url := nl_url b; fl_enabled := nl_enabled b;
                                     fl_rule_count := 0; fl_last_updated := Some (rv_now_ms env) |}]) cfg) (BAddList id)
  end.
Definition add_list_handler (env : ReqEnv) (b : NewList) (s : App) : option (HandlerOutcome * App) :=
  match nl_url b with
  | Some _ => Some (Wait (TAddList b), s)
  | None => add_list_commit env b (default [] (nl_content b)) s
  end.
Definition update_list (env : ReqEnv) (id : Z) (u : ListUpdate) (s : App) : option (HandlerOutcome * App) :=
  if existsb (has_id id) (fc_lists (cf_filtering (as_config s))) then
    put env s (edit_lists (update_first (has_id id) (apply_list_update u)) (as_config s)) BOk
  else refuse s (NotFound (bs "list " ++ show_dec id)).
Definition delete_list (env : ReqEnv) (id : Z) (s : App) : option (HandlerOutcome * App) :=
  let ls := fc_lists (cf_filtering (as_config s)) in
  let kept := filter (λ l, fl_id l ≠ id) ls in
  if length kept =? length ls then refuse s (NotFound (bs "list " ++ show_dec id))
  else put env (with_files (remove_list_file (as_files s) (rv_remove_ok env) id) s)
         (edit_lists (λ _, kept) (as_config s)) BOk.
Definition refresh_list (id : Z) (s : App) : option (HandlerOutcome * App) :=
  match head (filter (λ l, fl_id l = id) (fc_lists (cf_filtering (as_config s)))) with
  | None => refuse s (NotFound (bs "list " ++ show_dec id))
  | Some l => match fl_url l with
              | None => refuse s (BadRequest (bs "list has no URL to refresh"))
              | Some _ => Some (Wait (TRefreshFetch id), s)
              end
  end.
Definition refresh_fetched (env : ReqEnv) (id : Z) (text : bytes) (s : App) : option (HandlerOutcome * App) :=
  match write_list_text (as_files s) (rv_write env) id text with
  | (Err e, fs) => refuse (with_files fs s) (Internal e)
  | (Ok _, fs) => Some (Wait (TRefreshCommit id), with_files fs s)
  end.
Definition refresh_commit (env : ReqEnv) (id : Z) (s : App) : option (HandlerOutcome * App) :=
  put env s (edit_lists (update_first (has_id id) (touch_list (rv_now_ms env))) (as_config s)) BOk.

(** Clients. *)
Definition get_clients (s : App) : option (HandlerOutcome * App) := reply s (BClients (cf_clients (as_config s))).
Definition name_refused (i : ClientInput) : bool := bool_decide (trim (cp_name i) = []).
Definition post_client (env : ReqEnv) (i : ClientInput) (s : App) : option (HandlerOutcome * App) :=
  if name_refused i then refuse s (BadRequest (bs "client name must not be empty"))
  else
    let cfg := as_config s in
    let! id := new_client_id (rv_draws env) (cf_clients cfg) in
    let client := client_of id i in
    put env s (set_clients (cf_clients cfg ++ [client]) cfg) (BClient client).
Definition put_client (env : ReqEnv) (id : bytes) (i : ClientInput) (s : App) : option (HandlerOutcome * App) :=
  if name_refused i then refuse s (BadRequest (bs "client name must not be empty"))
  else
    let cfg := as_config s in
    if existsb (has_client_id id) (cf_clients cfg) then
      put env s (set_clients (update_first (has_client_id id) (λ c, client_of (cc_id c) i) (cf_clients cfg)) cfg) BOk
    else refuse s (NotFound (bs "client " ++ id)).
Definition delete_client (env : ReqEnv) (id : bytes) (s : App) : option (HandlerOutcome * App) :=
  let cfg := as_config s in
  let kept := filter (λ c, cc_id c ≠ id) (cf_clients cfg) in
  if length kept =? length (cf_clients cfg) then refuse s (NotFound (bs "client " ++ id))
  else put env s (set_clients kept cfg) BOk.

(** Statistics, logs and upstreams. *)
Definition with_engine (g : AppEngine) (s : App) : App :=
  {| as_engine := g; as_config := as_config s; as_files := as_files s; as_sessions := as_sessions s;
     as_probe_log := as_probe_log s; as_store := as_store s; as_probe_store := as_probe_store s |}.
Definition with_stores (q : qstore) (p : pstore) (s : App) : App :=
  {| as_engine := as_engine s; as_config := as_config s; as_files := as_files s; as_sessions := as_sessions s;
     as_probe_log := as_probe_log s; as_store := q; as_probe_store := p |}.
Definition get_stats (top : nat) (s : App) : option (HandlerOutcome * App) :=
  let g := as_engine s in
  let! summary := stats_snapshot (eg_stats g) top (es_clients (eg_state g)) in
  reply s (BStats (stats_response summary (cache_len (eg_cache g)) (dc_counters (eg_cache g)))).
Definition reset_stats (s : App) : option (HandlerOutcome * App) :=
  let g := as_engine s in
  reply (with_engine {| eg_state := eg_state g; eg_cache := reset_counters (eg_cache g); eg_log := eg_log g;
                        eg_stats := stats_reset (eg_stats g) |} s) BOk.
Fixpoint views (clients : ClientMatcher) (names : gmap Z bytes) (es : list QueryLogEntry) : option (list LogEntryView) :=
  match es with
  | [] => Some []
  | e :: es =>
      let! client_name := name_for_str clients (le_client_ip e) in
      let! vs := views clients names es in
      Some (log_entry_view e (entry_list_id e ≫= (names !!.)) client_name :: vs)
  end.
Definition get_querylog (q : LogQuery) (s : App) : option (HandlerOutcome * App) :=
  let filter := {| lf_search := lq_search q; lf_client := lq_client q; lf_blocked_only := lq_blocked_only q |} in
  let clients := es_clients (eg_state (as_engine s)) in
  let! r := store_query (as_store s) filter (lq_offset q) (min (lq_limit q) 1000) clients in
  match r with
  | Err e => refuse s (Internal e)
  | Ok page =>
      let! vs := views clients (list_names (as_config s)) (lp_entries page) in
      reply s (BQuerylog vs (lp_total page))
  end.
Definition clear_querylog (s : App) : option (HandlerOutcome * App) :=
  match store_clear (as_store s) with
  | Err e => refuse s (Internal e)
  | Ok q => reply (with_stores q (as_probe_store s) s) BOk
  end.
Definition clear_upstream_log (s : App) : option (HandlerOutcome * App) :=
  match probe_clear (as_probe_store s) with
  | Err e => refuse s (Internal e)
  | Ok p => reply (with_stores (as_store s) p s) BOk
  end.
Definition export_upstream_log (s : App) : option (HandlerOutcome * App) :=
  match probe_export (as_probe_store s) with Err e => refuse s (Internal e) | Ok text => reply s (BExport text) end.
Definition get_upstreams (s : App) : option (HandlerOutcome * App) :=
  reply s (BUpstreams (upstream_stat_dto <$> pool_stats (es_pool (eg_state (as_engine s))))).
Definition test_upstream (env : ReqEnv) (spec : bytes) (s : App) : option (HandlerOutcome * App) :=
  match spec_parse spec with
  | Err e => refuse s (BadRequest (show_error e))
  | Ok _ => reply s match rv_test env with
                    | Ok rtt => BTest true (Some (rtt_millis rtt)) None
                    | Err e => BTest false None (Some (show_error e))
                    end
  end.

(** ** Routing *)

Definition dispatch (env : ReqEnv) (h : HeaderMap) (c : Call) (s : App) : option (HandlerOutcome * App) :=
  match c with
  | CStatus => status env h s | CSetup c => setup env h c s | CLogin c => login env h c s | CLogout => logout s
  | CGetConfig => get_config s | CPutUpstreams u => put_upstreams env u s | CPutCache k => put_cache env k s
  | CPutFiltering g => put_filtering env g s | CPutServer v => put_server env v s | CPutQuerylog q => put_querylog env q s
  | CPutUpstreamLog u => put_upstream_log env u s | CPutStats t => put_stats_cfg env t s | CPutPrivacy p => put_privacy env p s
  | CGetFilters => get_filters s | CPutCustomRules r => put_custom_rules env r s | CAddRule r => add_custom_rule env r s
  | CCheckDomain d q => check_domain d q s | CAddList l => add_list_handler env l s | CUpdateList id u => update_list env id u s
  | CDeleteList id => delete_list env id s | CRefreshList id => refresh_list id s
  | CGetClients => get_clients s | CPostClient i => post_client env i s | CPutClient id i => put_client env id i s
  | CDeleteClient id => delete_client env id s
  | CGetStats top => get_stats top s | CResetStats => reset_stats s | CGetQuerylog q => get_querylog q s
  | CClearQuerylog => clear_querylog s | CClearUpstreamLog => clear_upstream_log s | CExportUpstreamLog => export_upstream_log s
  | CGetUpstreams => get_upstreams s | CTestUpstream spec => test_upstream env spec s
  end.
(** A suspended handler goes on; [fetched] is what the network gave. *)
Definition resume_task (env : ReqEnv) (fetched : result bytes ApiError) (t : Task) (s : App) : option (HandlerOutcome * App) :=
  match t with
  | TSetup secure u hash => setup_commit env secure u hash s
  | TAddList l => match fetched with Err e => refuse s e | Ok text => add_list_commit env l text s end
  | TRefreshFetch id => match fetched with Err e => refuse s e | Ok text => refresh_fetched env id text s end
  | TRefreshCommit id => refresh_commit env id s
  end.

(** [require_auth]: a request past half the session's life gets a new cookie with its
    response. *)
Definition renewed (env : ReqEnv) (secure : bool) (s : App) (r : Response) : option Response :=
  let! v := header_value (session_cookie (issue (as_sessions s) (rv_now env)) secure) in
  Some (with_cookie v r).
Record ApiPending : Type := { pn_task : Task; pn_renew : option bool }.
Inductive Progress : Type := Replied (r : Response) | Suspended (p : ApiPending).
Definition finish (env : ReqEnv) (renew : option bool) (r : option (HandlerOutcome * App)) : option (Progress * App) :=
  let! (o, s) := r in
  match o, renew with
  | Done r, Some secure => let! r := renewed env secure s r in Some (Replied r, s)
  | Done r, None => Some (Replied r, s)
  | Wait t, _ => Some (Suspended {| pn_task := t; pn_renew := renew |}, s)
  end.
Definition session_verdict (env : ReqEnv) (h : HeaderMap) (s : App) : SessionVerdict :=
  match cookie_token h with Some t => session_check (as_sessions s) (rv_now env) t | None => SvInvalid end.
(** [router]: the cross-origin check, then the session check of the protected routes, then
    the handler. *)
Definition api_request (env : ReqEnv) (h : HeaderMap) (c : Call) (s : App) : option (Progress * App) :=
  if negb (cross_origin_allowed (method_of c) h) then
    Some (Replied {| rp_status := 403; rp_set_cookie := None; rp_body := BText (bs "cross-origin request blocked") |}, s)
  else if is_public c then finish env None (dispatch env h c s)
  else match session_verdict env h s with
       | SvInvalid => Some (Replied (error_response Unauthorized), s)
       | SvValid => finish env None (dispatch env h c s)
       | SvRefresh => finish env (Some (is_https h)) (dispatch env h c s)
       end.
Definition api_resume (env : ReqEnv) (fetched : result bytes ApiError) (p : ApiPending) (s : App) : option (Progress * App) :=
  finish env (pn_renew p) (resume_task env fetched (pn_task p) s).

(** ** Interleavings *)

(** Where a client that disconnects cuts an update short: while [apply_config] builds the
    upstream pool, when only the handler's own list file has changed, or while it waits to write the
    configuration in memory, when all but that has. *)
Inductive Cut : Type := CutBuilding | CutWriting.
Definition cut_short (k : Cut) (s s' : App) : App :=
  match k with
  | CutBuilding => with_files {| fs_config := fs_config (as_files s); fs_lists := fs_lists (as_files s') |} s
  | CutWriting => interrupted s s'
  end.
(** The server with its suspended requests.  A client that disconnects drops its request, while
    it is suspended or inside the update it makes. *)
Record ApiSystem : Type := { sy_app : App; sy_pending : list (option ApiPending) }.
Inductive ApiEvent : Type :=
| AvRequest (env : ReqEnv) (h : HeaderMap) (c : Call)
| AvResume (n : nat) (env : ReqEnv) (fetched : result bytes ApiError)
| AvDrop (n : nat)
| AvCutRequest (k : Cut) (env : ReqEnv) (h : HeaderMap) (c : Call)
| AvCutResume (k : Cut) (n : nat) (env : ReqEnv) (fetched : result bytes ApiError).
Definition api_step (y : ApiSystem) (e : ApiEvent) : option ApiSystem :=
  match e with
  | AvRequest env h c =>
      let! (p, s) := api_request env h c (sy_app y) in
      Some {| sy_app := s;
              sy_pending := match p with Replied _ => sy_pending y | Suspended p => sy_pending y ++ [Some p] end |}
  | AvResume n env fetched =>
      match sy_pending y !! n with
      | Some (Some p) =>
          let! (p, s) := api_resume env fetched p (sy_app y) in
          Some {| sy_app := s;
                  sy_pending := <[n := match p with Replied _ => None | Suspended p => Some p end]> (sy_pending y) |}
      | _ => Some y
      end
  | AvDrop n => Some {| sy_app := sy_app y; sy_pending := <[n := None]> (sy_pending y) |}
  | AvCutRequest k env h c =>
      let! (_, s) := api_request env h c (sy_app y) in
      Some {| sy_app := cut_short k (sy_app y) s; sy_pending := sy_pending y |}
  | AvCutResume k n env fetched =>
      match sy_pending y !! n with
      | Some (Some p) =>
          let! (_, s) := api_resume env fetched p (sy_app y) in
          Some {| sy_app := cut_short k (sy_app y) s; sy_pending := <[n := None]> (sy_pending y) |}
      | _ => Some y
      end
  end.
Fixpoint api_run (y : ApiSystem) (es : list ApiEvent) : option ApiSystem :=
  match es with
  | [] => Some y
  | e :: es => let! y := api_step y e in api_run y es
  end.
End api.
