(* ===== verification/ApiProps.v ===== *)
(** * Properties of the HTTP API: what an unauthenticated client can do, sessions from login
    to expiry, and the invariant of the server over all interleavings of requests. *)
From Stdlib Require Import Ascii.
From S2P Require Import Prelude RustStr RustNet RustFloat Rule Glob Parser ParserProps FilterEngine FilterEngineProps FilterSpec Compiler Wire Dns Clients Block QueryLog Cache Snapshot Stats Engine EngineInstances Spec ProbeLog Pool Config ConfigProps Auth Http Dto App AppProps Api.

(** ** Identifiers *)

(** The ids of a configuration: clients have distinct non-empty ids, lists distinct ids up to
    [B]. *)
Record ids_ok (B : Z) (cids : list bytes) (lids : list Z) : Prop := {
  io_clients : NoDup cids;
  io_named : Forall (λ i, i ≠ []) cids;
  io_lists : NoDup lids;
  io_bound : Forall (λ i, (0 <= i <= B)%Z) lids;
}.
Definition client_ids (c : Config) : list bytes := cc_id <$> cf_clients c.
Definition list_ids (c : Config) : list Z := fl_id <$> fc_lists (cf_filtering c).
Definition config_ids_ok (B : Z) (c : Config) : Prop := ids_ok B (client_ids c) (list_ids c).

Lemma ids_ok_mono B B' cids lids : (B <= B')%Z → ids_ok B cids lids → ids_ok B' cids lids.
Proof. intros HB [H1 H2 H3 H4]. constructor; try done. eapply Forall_impl; [exact H4|]. simpl. lia. Qed.
Lemma Forall_sub {A} (P : A → Prop) l k : sublist k l → Forall P l → Forall P k.
Proof. induction 1 as [|x l k _ IH|x l k _ IH]; intros Hf; [done|..]; apply Forall_cons in Hf as [Hx Hf]; auto. Qed.
Lemma ids_ok_sub B cids lids cids' lids' :
  sublist cids' cids → sublist lids' lids → ids_ok B cids lids → ids_ok B cids' lids'.
Proof.
  intros Hc Hl [H1 H2 H3 H4]. constructor.
  - by eapply sublist_NoDup.
  - by eapply Forall_sub.
  - by eapply sublist_NoDup.
  - by eapply Forall_sub.
Qed.
Lemma update_first_ids {A B} (g : A → B) p f (l : list A) : (∀ a, g (f a) = g a) → g <$> update_first p f l = g <$> l.
Proof. intros H. induction l as [|a l IH]; [done|]. simpl. destruct (p a); csimpl; [by rewrite H|by rewrite IH]. Qed.
Lemma filter_sublist {A} (P : A → Prop) `{!∀ x, Decision (P x)} (l : list A) : sublist (filter P l) l.
Proof. induction l as [|a l IH]; [constructor|]. rewrite filter_cons. destruct (decide (P a)); by constructor. Qed.

Lemma filter_ids {A B} (g : A → B) (P : A → Prop) `{!∀ x, Decision (P x)} (l : list A) : sublist (g <$> filter P l) (g <$> l).
Proof. induction (filter_sublist P l); csimpl; by constructor. Qed.
Lemma find_map_Some {A B} (f : A → option B) l b : find_map f l = Some b → ∃ a, a ∈ l ∧ f a = Some b.
Proof.
  induction l as [|a l IH]; [done|]. simpl. destruct (f a) as [b'|] eqn:E.
  - intros [= <-]. exists a. split; [by left|done].
  - intros (a' & Ha & Hf)%IH. exists a'. split; [by right|done].
Qed.
(** A generated id is unused. *)
Lemma new_client_id_fresh draws existing id : new_client_id draws existing = Some id → id ∉ cc_id <$> existing.
Proof.
  intros (d & _ & H)%find_map_Some. destruct (existsb _ existing) eqn:E; [done|]. injection H as <-.
  intros (c & Hc & Hin)%list_elem_of_fmap. assert (existsb (has_client_id (hex_id d)) existing = true); [|congruence].
  apply existsb_exists. exists c. split; [by apply list_elem_of_In|]. apply bool_decide_eq_true. done.
Qed.
(** [new_client_id] returns as soon as a draw is unused. *)
Lemma new_client_id_total draws existing d : d ∈ draws → hex_id d ∉ cc_id <$> existing →
  ∃ id, new_client_id draws existing = Some id.
Proof.
  intros Hd Hf. induction draws as [|d' draws IH]; [by apply not_elem_of_nil in Hd|]. unfold new_client_id. simpl.
  destruct (existsb (has_client_id (hex_id d')) existing) eqn:E; [|eauto]. apply elem_of_cons in Hd as [->|Hd]; [|by apply IH].
  exfalso. apply existsb_exists in E as (c & Hc & E). apply bool_decide_eq_true in E. apply Hf, list_elem_of_fmap. exists c.
  split; [done|by apply list_elem_of_In].
Qed.
Lemma hex_id_nonempty d : hex_id d ≠ [].
Proof. done. Qed.

(** ** The invariant *)

Section api_props.
Context {DL : DnsLib} {DC : DnsCodec} {RX : RegexLib} {IL : IpNetLib} {US : UnstableSort} {HO : HashOrder}.
Context {L : LruLib QueryKey Entry} {CC : ConfigCodec} {CL : ConfigCodecLaws CC} {SL : SessionLib} {PL : PasswordLib}.
Context (dhash : bytes → Z) (chash : list (bytes * Z * Action) → Z).
Context (make_transport : list SocketAddr → UpstreamSpec → result () UpstreamError).
Context {qsender psender qstore pstore : Type} {SO : StoreOps qstore pstore}.

Local Notation App := (AppState (qsender:=qsender) (psender:=psender) (qstore:=qstore) (pstore:=pstore)).
Local Notation runs := (runs_on dhash chash make_transport (qsender:=qsender) (psender:=psender) (qstore:=qstore) (pstore:=pstore)).
Local Notation dispatch := (dispatch dhash chash make_transport).
Local Notation put := (put dhash chash make_transport).

(** The configuration in memory is valid, is what a restart would load, has distinct ids, and
    the engine runs on it (with the lists' texts of some moment). *)
Record consistent (B : Z) (s : App) : Prop := {
  ct_valid : validate (as_config s) = Ok ();
  ct_disk : ∃ text, fs_config (as_files s) = Some text ∧ load_or_default (Some (Some text)) = Ok (as_config s);
  ct_ids : config_ids_ok B (as_config s);
  ct_live : ∃ fs, runs (as_config s) fs s;
}.
(** The same when an update may have been cut short: disk and engine agree on a valid
    configuration with distinct ids, and memory holds one too. *)
Record coherent (cfg : Config) (B : Z) (s : App) : Prop := {
  co_mem_valid : validate (as_config s) = Ok ();
  co_mem_ids : config_ids_ok B (as_config s);
  co_valid : validate cfg = Ok ();
  co_ids : config_ids_ok B cfg;
  co_disk : ∃ text, fs_config (as_files s) = Some text ∧ load_or_default (Some (Some text)) = Ok cfg;
  co_live : ∃ fs, runs cfg fs s;
}.
(** [cut] says whether memory may lag behind. *)
Definition kept_up (cut : bool) (B : Z) (s : App) : Prop := ∃ cfg, coherent cfg B s ∧ (cut = false → cfg = as_config s).
Lemma consistent_kept cut B s : consistent B s → kept_up cut B s.
Proof. intros [H1 H2 H3 H4]. exists (as_config s). by split; [constructor|]. Qed.
Lemma kept_consistent B s : kept_up false B s → consistent B s.
Proof. intros (cfg & [H1 H2 H3 H4 H5 H6] & E). rewrite E in H5, H6 by done. by constructor. Qed.
Lemma kept_ids cut B s : kept_up cut B s → config_ids_ok B (as_config s).
Proof. by intros (cfg & [] & _). Qed.
Lemma kept_mono cut B B' s : (B <= B')%Z → kept_up cut B s → kept_up cut B' s.
Proof. intros HB (cfg & [H1 H2 H3 H4 H5 H6] & E). exists cfg. split; [|done]. constructor; try done; by eapply ids_ok_mono. Qed.
Lemma kept_weaken cut B s : kept_up cut B s → kept_up true B s.
Proof. intros (cfg & H & _). by exists cfg. Qed.
Lemma kept_files cut B s fs : fs_config fs = fs_config (as_files s) → kept_up cut B s → kept_up cut B (with_files fs s).
Proof.
  intros Hf (cfg & [H1 H2 H3 H4 H5 (fs' & [])] & E). exists cfg. split; [|done]. constructor; simpl; [done..|by rewrite Hf|].
  exists fs'. by constructor.
Qed.

Lemma counts_ids counts c : client_ids (with_counts counts c) = client_ids c ∧ list_ids (with_counts counts c) = list_ids c.
Proof.
  split; [done|]. unfold list_ids. simpl. rewrite <- list_fmap_compose. apply list_fmap_ext. intros i l _.
  exact (proj1 (count_for_keeps counts l)).
Qed.
(** A successful reload of a configuration with good ids is consistent. *)
Lemma apply_consistent B env s new s' : config_ids_ok B new →
  apply_config dhash chash make_transport env s new = Some (Ok s') → consistent B s'.
Proof.
  intros Hi ((counts & Hc) & Hv & (text & Ht & Hfs) & _ & _ & _ & Hr)%apply_config_inv.
  assert (Hids : config_ids_ok B (as_config s')).
  { unfold config_ids_ok. rewrite Hc. destruct (counts_ids counts (with_upstreams (upstreams_normalize (cf_upstreams new)) new)) as [-> ->]. exact Hi. }
  constructor; [done| |done|by eexists].
  exists text. rewrite Hfs. split; [done|]. apply save_load; [unfold save_config; by rewrite Ht|done|].
  exact (proj1 (Forall_fmap _ _ _) (io_named _ _ _ Hids)).
Qed.
Lemma put_kept cut B env s cfg b o s' : kept_up cut B s → config_ids_ok B cfg → put env s cfg b = Some (o, s') → kept_up cut B s'.
Proof.
  intros Hs Hi. unfold Api.put, done, commit. destruct (apply_config _ _ _ _ s cfg) as [[s1|e]|] eqn:E; [| |done].
  - intros [= _ <-]. by eapply consistent_kept, apply_consistent.
  - by intros [= _ <-].
Qed.
(** Edits that keep the ids. *)
Lemma same_ids B c c' : client_ids c' = client_ids c → list_ids c' = list_ids c → config_ids_ok B c → config_ids_ok B c'.
Proof. unfold config_ids_ok. by intros -> ->. Qed.

Lemma put_same cut B env s cfg b o s' :
  kept_up cut B s → client_ids cfg = client_ids (as_config s) → list_ids cfg = list_ids (as_config s) →
  put env s cfg b = Some (o, s') → kept_up cut B s'.
Proof. intros Hs Hc Hl. apply put_kept; [done|]. eapply same_ids; [done..|by eapply kept_ids]. Qed.

(** New ids. *)
Lemma next_id_step B c : config_ids_ok B c → (0 <= B)%Z → (B + 1 < 2 ^ 32)%Z →
  (0 <= next_list_id c <= B + 1)%Z ∧ next_list_id c ∉ list_ids c.
Proof.
  intros [_ _ _ Hb] H0 HB. assert (Hl : ∀ l, l ∈ fc_lists (cf_filtering c) → (0 <= fl_id l <= B)%Z).
  { intros l Hin. apply (proj1 (Forall_forall _ _) Hb). by apply list_elem_of_fmap_2. }
  split; [|apply next_list_id_fresh; intros l Hin; specialize (Hl l Hin); lia].
  unfold next_list_id. destruct (max_id _) as [m|] eqn:Em; [|lia].
  apply max_id_spec in Em as [Hm _]. apply list_elem_of_fmap in Hm as (l & -> & Hin). specialize (Hl l Hin).
  rewrite wrap_small by (unfold in_u; lia). lia.
Qed.
Lemma add_list_kept cut B env b text s o s' : kept_up cut B s → (0 <= B)%Z → (B + 1 < 2 ^ 32)%Z →
  add_list_commit dhash chash make_transport env b text s = Some (o, s') → kept_up cut (B + 1) s'.
Proof.
  intros Hs H0 HB. unfold add_list_commit, write_list_text. destruct (rv_write env) as [|part why].
  - destruct (next_id_step B (as_config s) (kept_ids _ _ _ Hs) H0 HB) as [Hr Hf]. apply put_kept.
    + apply kept_files; [done|]. by eapply kept_mono; [|done]; lia.
    + destruct (ids_ok_mono B (B + 1) _ _ ltac:(lia) (kept_ids _ _ _ Hs)) as [I1 I2 I3 I4]. unfold config_ids_ok, list_ids. simpl.
      constructor; [done..| |]; rewrite fmap_app; simpl.
      * apply NoDup_app. split_and!; [done| |apply NoDup_singleton]. intros i Hi ->%list_elem_of_singleton. by apply Hf.
      * apply Forall_app. split; [done|]. by constructor.
  - intros [= _ <-]. apply kept_files; [by destruct part|]. by eapply kept_mono; [|done]; lia.
Qed.
Lemma post_client_kept cut B env i s o s' : kept_up cut B s →
  post_client dhash chash make_transport env i s = Some (o, s') → kept_up cut B s'.
Proof.
  intros Hs. unfold post_client. destruct (name_refused i); [by intros [= _ <-]|].
  destruct (new_client_id _ _) as [id|] eqn:Ei; [|done]. apply put_kept; [done|].
  destruct (kept_ids _ _ _ Hs) as [I1 I2 I3 I4]. unfold config_ids_ok, client_ids. simpl. rewrite fmap_app. simpl.
  pose proof (new_client_id_fresh _ _ _ Ei) as Hf. apply find_map_Some in Ei as (d & _ & Ei).
  destruct (existsb _ _); [done|]. injection Ei as <-. constructor; [| |done..].
  - apply NoDup_app. split_and!; [done| |apply NoDup_singleton]. intros i' Hi ->%list_elem_of_singleton. by apply Hf.
  - apply Forall_app. split; [done|]. by constructor.
Qed.

Lemma setup_commit_kept cut B env sec u hash s o s' : kept_up cut B s →
  setup_commit dhash chash make_transport env sec u hash s = Some (o, s') → kept_up cut B s'.
Proof.
  intros Hs. unfold setup_commit. destruct (apply_config _ _ _ _ _ _) as [[s1|e]|] eqn:E; [| |done]; simpl.
  - destruct (session_response _ _ _); [|done]. intros [= _ <-]. eapply consistent_kept, apply_consistent; [|exact E].
    eapply same_ids; [done..|by eapply kept_ids].
  - by intros [= _ <-].
Qed.
Lemma sub_kept cut B env s cfg b o s' : kept_up cut B s →
  sublist (client_ids cfg) (client_ids (as_config s)) → sublist (list_ids cfg) (list_ids (as_config s)) →
  put env s cfg b = Some (o, s') → kept_up cut B s'.
Proof. intros Hs Hc Hl. apply put_kept; [done|]. eapply ids_ok_sub; [done..|by eapply kept_ids]. Qed.
Lemma kept_engine cut B s g : eg_state g = eg_state (as_engine s) → dc_cfg (eg_cache g) = dc_cfg (eg_cache (as_engine s)) →
  dc_capacity (eg_cache g) = dc_capacity (eg_cache (as_engine s)) → st_max_buckets (eg_stats g) = st_max_buckets (eg_stats (as_engine s)) →
  eg_log g = eg_log (as_engine s) → st_enabled (eg_stats g) = st_enabled (eg_stats (as_engine s)) →
  st_anonymize (eg_stats g) = st_anonymize (eg_stats (as_engine s)) → kept_up cut B s → kept_up cut B (with_engine g s).
Proof.
  intros E1 E2 E3 E4 E5 E6 E7 (cfg & [H1 H2 H3 H4 H5 (fs & [])] & E). exists cfg. split; [|done]. constructor; [done..|]. exists fs.
  constructor; simpl; by rewrite ?E1, ?E2, ?E3, ?E4, ?E5, ?E6, ?E7.
Qed.
Lemma kept_stores cut B s q p : kept_up cut B s → kept_up cut B (with_stores q p s).
Proof.
  intros (cfg & [H1 H2 H3 H4 H5 (fs & [])] & E). exists cfg. split; [|done]. constructor; [done..|]. exists fs. by constructor.
Qed.

Lemma unchanged cut B o s o' s' : kept_up cut B s → Some (o, s) = Some (o' : HandlerOutcome, s') → kept_up cut B s'.
Proof. by intros Hs [= _ <-]. Qed.
Lemma add_rule_kept cut B env r s o s' : kept_up cut B s →
  add_custom_rule dhash chash make_transport env r s = Some (o, s') → kept_up cut B s'.
Proof.
  intros Hs. unfold add_custom_rule. case_match; [by apply unchanged|]. case_match; [by apply unchanged|]. by apply put_same.
Qed.
Lemma update_list_kept cut B env id u s o s' : kept_up cut B s →
  update_list dhash chash make_transport env id u s = Some (o, s') → kept_up cut B s'.
Proof.
  intros Hs. unfold update_list. case_match; [|by apply unchanged]. apply put_same; [done..|].
  by apply (update_first_ids fl_id).
Qed.
Lemma delete_list_kept cut B env id s o s' : kept_up cut B s →
  delete_list dhash chash make_transport env id s = Some (o, s') → kept_up cut B s'.
Proof.
  intros Hs. unfold delete_list. case_match; [by apply unchanged|].
  apply sub_kept; [|done|apply filter_ids].
  apply kept_files; [|done]. unfold remove_list_file. by destruct (rv_remove_ok env).
Qed.
Lemma put_client_kept cut B env id i s o s' : kept_up cut B s →
  put_client dhash chash make_transport env id i s = Some (o, s') → kept_up cut B s'.
Proof.
  intros Hs. unfold put_client. case_match; [by apply unchanged|]. case_match; [|by apply unchanged].
  apply put_same; [done| |done]. by apply (update_first_ids cc_id).
Qed.
Lemma delete_client_kept cut B env id s o s' : kept_up cut B s →
  delete_client dhash chash make_transport env id s = Some (o, s') → kept_up cut B s'.
Proof.
  intros Hs. unfold delete_client. case_match; [by apply unchanged|].
  apply sub_kept; [done|apply filter_ids|done].
Qed.
(** Handlers that answer without an update. *)
Definition keeps_config (c : Call) : bool :=
  match c with
  | CStatus | CSetup _ | CLogin _ | CLogout | CGetConfig | CGetFilters | CCheckDomain _ _ | CRefreshList _ | CGetClients
  | CGetStats _ | CGetQuerylog _ | CExportUpstreamLog | CGetUpstreams | CTestUpstream _ => true
  | _ => false
  end.
Lemma keeps_config_state env h c (s : App) o (s' : App) : keeps_config c = true → dispatch env h c s = Some (o, s') → s' = s.
Proof.
  destruct c; try discriminate; intros _; simpl;
    unfold status, setup, login, logout, get_config, get_filters, check_domain, refresh_list, get_clients, get_stats,
      get_querylog, export_upstream_log, get_upstreams, test_upstream, reply, refuse;
    repeat (case_match; simplify_option_eq); intros; simplify_option_eq; repeat (case_match; simplify_option_eq); done.
Qed.
Lemma dispatch_kept cut B env h c s o s' : kept_up cut B s → (0 <= B)%Z → (B + 1 < 2 ^ 32)%Z →
  dispatch env h c s = Some (o, s') → kept_up cut (B + 1) s'.
Proof.
  intros Hs H0 HB. assert (Hs' := kept_mono cut B (B + 1) s ltac:(lia) Hs).
  destruct (keeps_config c) eqn:Ek; [intros H; by rewrite (keeps_config_state _ _ _ _ _ _ Ek H)|].
  destruct c; try discriminate Ek; simpl; try (by apply put_same).
  - by apply add_rule_kept.
  - unfold add_list_handler. destruct (nl_url l); [by apply unchanged|]. by apply add_list_kept.
  - by apply update_list_kept.
  - by apply delete_list_kept.
  - by apply post_client_kept.
  - by apply put_client_kept.
  - by apply delete_client_kept.
  - intros [= _ <-]. by apply kept_engine.
  - unfold clear_querylog. destruct (store_clear _); [|by apply unchanged]. intros [= _ <-]. by apply kept_stores.
  - unfold clear_upstream_log. destruct (probe_clear _); [|by apply unchanged]. intros [= _ <-]. by apply kept_stores.
Qed.

Lemma resume_kept cut B env fetched t s o s' : kept_up cut B s → (0 <= B)%Z → (B + 1 < 2 ^ 32)%Z →
  resume_task dhash chash make_transport env fetched t s = Some (o, s') → kept_up cut (B + 1) s'.
Proof.
  intros Hs H0 HB. assert (Hs' := kept_mono cut B (B + 1) s ltac:(lia) Hs). destruct t; simpl.
  - by apply setup_commit_kept.
  - destruct fetched; [by apply add_list_kept|by apply unchanged].
  - destruct fetched; [|by apply unchanged]. unfold refresh_fetched, write_list_text.
    destruct (rv_write env) as [|[part|] why]; intros [= _ <-]; by apply kept_files.
  - apply put_same; [done..|]. by apply (update_first_ids fl_id).
Qed.
Lemma finish_state env renew (r : option (HandlerOutcome * App)) p s' :
  finish env renew r = Some (p, s') → ∃ o, r = Some (o, s').
Proof.
  unfold finish. destruct r as [[[r|t] s]|]; [| |done]; simpl; [|intros [= _ <-]; eauto].
  destruct renew; [destruct (renewed _ _ _ _); [|done]|]; intros [= _ <-]; eauto.
Qed.
Lemma request_dispatch env h c (s : App) p s' : api_request dhash chash make_transport env h c s = Some (p, s') →
  s' = s ∨ ∃ o, dispatch env h c s = Some (o, s').
Proof.
  unfold api_request. destruct (negb _); [intros [= _ <-]; by left|]. destruct (is_public c).
  - intros H%finish_state. by right.
  - destruct (session_verdict env h s); [intros [= _ <-]; by left|intros H%finish_state; by right..].
Qed.
(** An update that is cut short. *)
Lemma cut_kept cut B k s s' : kept_up cut B s → kept_up cut B s' → kept_up true B (cut_short k s s').
Proof.
  intros Hs Hs'. destruct k; [by apply (kept_files true), (kept_weaken cut)|].
  destruct Hs as (c1 & [A1 A2 _ _ _ _] & _), Hs' as (c2 & [_ _ A3 A4 A5 (fs & [])] & _). exists c2. split; [|done].
  constructor; [done..|]. exists fs. by constructor.
Qed.
(** The events that cut an update short. *)
Definition cuts (e : ApiEvent) : bool := match e with AvCutRequest _ _ _ _ | AvCutResume _ _ _ _ => true | _ => false end.
Lemma request_kept cut B env h c s p s' : kept_up cut B s → (0 <= B)%Z → (B + 1 < 2 ^ 32)%Z →
  api_request dhash chash make_transport env h c s = Some (p, s') → kept_up cut (B + 1) s'.
Proof.
  intros Hs H0 HB E. apply request_dispatch in E as [->|[o E]]; [by eapply kept_mono; [|exact Hs]; lia|]. by eapply dispatch_kept.
Qed.
Lemma step_kept cut B (y : ApiSystem (psender:=psender)) e y' : kept_up cut B (sy_app y) → (0 <= B)%Z → (B + 1 < 2 ^ 32)%Z →
  api_step dhash chash make_transport y e = Some y' → kept_up (cut || cuts e) (B + 1) (sy_app y').
Proof.
  intros Hs H0 HB. assert (Hs' := kept_mono cut B (B + 1) (sy_app y) ltac:(lia) Hs).
  destruct e as [env h c|n env f|n|k env h c|k n env f]; cbn [api_step cuts]; rewrite ?orb_false_r, ?orb_true_r.
  - destruct (api_request _ _ _ _ _ _ _) as [[p s]|] eqn:E; [|done]. intros [= <-]. by eapply request_kept.
  - destruct (sy_pending y !! n) as [[p|]|]; [|intros [= <-]; done..].
    destruct (api_resume _ _ _ _ _ _ _) as [[p' s]|] eqn:E; [|done]. intros [= <-]. apply finish_state in E as [o E]. by eapply resume_kept.
  - by intros [= <-].
  - destruct (api_request _ _ _ _ _ _ _) as [[p s]|] eqn:E; [|done]. intros [= <-]. eapply (cut_kept cut); [done|]. by eapply request_kept.
  - destruct (sy_pending y !! n) as [[p|]|]; [|intros [= <-]; by eapply kept_weaken..].
    destruct (api_resume _ _ _ _ _ _ _) as [[p' s]|] eqn:E; [|done]. intros [= <-]. apply finish_state in E as [o E].
    eapply (cut_kept cut); [done|]. by eapply resume_kept.
Qed.
Lemma run_kept cut B (y : ApiSystem (psender:=psender)) es y' : kept_up cut B (sy_app y) → (0 <= B)%Z → (B + Z.of_nat (length es) < 2 ^ 32)%Z →
  api_run dhash chash make_transport y es = Some y' → kept_up (cut || existsb cuts es) (B + Z.of_nat (length es)) (sy_app y').
Proof.
  revert cut B y. induction es as [|e es IH]; intros cut B y Hs H0 HB; cbn [api_run length existsb].
  - intros [= <-]. by rewrite Z.add_0_r, orb_false_r.
  - cbn [length] in HB. destruct (api_step _ _ _ y e) as [y1|] eqn:E; [|done]. cbn [mbind option_bind]. intros Hr.
    eapply step_kept in E; [|done|lia|lia]. replace (B + Z.of_nat (S (length es)))%Z with (B + 1 + Z.of_nat (length es))%Z by lia.
    rewrite orb_assoc. eapply IH; [done|lia|lia|done].
Qed.

(** C13: over every interleaving of API requests, their suspensions and clients that
    disconnect, also inside the update their request makes, one configuration is on disk and in
    the engine: it is valid, it is what a restart would load, the engine runs on it, its client
    ids are distinct and non-empty and its list ids distinct.  The configuration in memory
    is valid with such ids too, and it is the same one unless an update was cut short
    (what that can leave behind is [dropped_setup_diverges]).  This holds as long as fewer
    than [2^32] lists have ever been numbered. *)
Theorem api_run_consistent B (y : ApiSystem (psender:=psender)) es y' :
  consistent B (sy_app y) → (0 <= B)%Z → (B + Z.of_nat (length es) < 2 ^ 32)%Z →
  api_run dhash chash make_transport y es = Some y' →
  let s := sy_app y' in let B' := (B + Z.of_nat (length es))%Z in
  ∃ cfg, (∃ text, fs_config (as_files s) = Some text ∧ load_or_default (Some (Some text)) = Ok cfg)
    ∧ (∃ fs, runs cfg fs s) ∧ validate cfg = Ok () ∧ config_ids_ok B' cfg
    ∧ validate (as_config s) = Ok () ∧ config_ids_ok B' (as_config s)
    ∧ (existsb cuts es = false → as_config s = cfg).
Proof.
  intros Hs H0 HB Hr. destruct (run_kept false B y es y' (consistent_kept _ _ _ Hs) H0 HB Hr) as (cfg & [H1 H2 H3 H4 H5 H6] & E).
  exists cfg. split_and!; [done..|]. intros Hc. symmetry. by apply E.
Qed.

(** ** Access control *)

(** C14: a client without a valid session changes nothing: whatever it requests, other than
    [POST /api/setup], the server's state is unchanged and no work is left behind, every
    protected endpoint answers 401 or 403; and [setup] itself only goes ahead while no
    administrator exists. *)
Theorem unauthenticated_requests_are_harmless env h c (s : App) p s' :
  session_verdict env h s = SvInvalid → api_request dhash chash make_transport env h c s = Some (p, s') →
  s' = s
  ∧ (∀ r, p = Replied r → is_public c = false → rp_status r = 401%Z ∨ rp_status r = 403%Z)
  ∧ (∀ w, p = Suspended w → needs_setup (cf_auth (as_config s)) = true ∧ ∃ cr, c = CSetup cr).
Proof.
  intros Hv Hr. unfold api_request in Hr. destruct (negb _).
  { injection Hr as <- <-. split_and!; [done| |done]. intros r [= <-] _. by right. }
  destruct (is_public c) eqn:Ep.
  - assert (Hk : keeps_config c = true) by (by destruct c).
    destruct (finish_state _ _ _ _ _ Hr) as [o Ho]. pose proof (keeps_config_state _ _ _ _ _ _ Hk Ho) as ->.
    split_and!; [done|done|]. intros w ->. rewrite Ho in Hr. destruct o as [|t]; [done|].
    destruct c; try discriminate Ep; simpl in Ho; unfold status, reply, logout, login, refuse in Ho; repeat case_match; simplify_option_eq.
    unfold setup, refuse in Ho. destruct (needs_setup _) eqn:En; [|done]. eauto.
  - rewrite Hv in Hr. injection Hr as <- <-. split_and!; [done| |done]. intros r [= <-] _. by left.
Qed.

(** A cross-origin request with an unsafe method is refused, whatever its session. *)
Lemma cross_origin_refused env h c (s : App) : cross_origin_allowed (method_of c) h = false →
  ∃ r, api_request dhash chash make_transport env h c s = Some (Replied r, s) ∧ rp_status r = 403%Z.
Proof. intros H. unfold api_request. rewrite H. simpl. eauto. Qed.

(** [setup] does not look again after its check: a suspended setup that goes ahead replaces
    whatever administrator exists by then. *)
Lemma setup_commit_replaces env secure u hash (s : App) r (s' : App) :
  setup_commit dhash chash make_transport env secure u hash s = Some (Done r, s') → rp_status r = 200%Z →
  au_username (cf_auth (as_config s')) = u ∧ au_password_hash (cf_auth (as_config s')) = Some hash.
Proof.
  unfold setup_commit. destruct (apply_config _ _ _ _ _ _) as [[s1|e]|] eqn:E; [| |done]; simpl.
  - apply apply_config_inv in E as ((counts & Hc) & _). destruct (session_response _ _ _); [|done]. intros [= _ <-] _. by rewrite Hc.
  - intros [= <- _]. done.
Qed.

(** ** Sessions *)

Definition credentials_ok (c : Credentials) (s : App) : bool :=
  bool_decide (au_username (cf_auth (as_config s)) = cr_username c)
  && match au_password_hash (cf_auth (as_config s)) with Some hash => verify_password (cr_password c) hash | None => false end.

(** C29: logging in always answers and changes nothing on the server.  With wrong credentials
    it answers 401.  With the right ones it sets a cookie, and a request that sends this
    cookie back is authenticated: silently during the first half of the session's lifetime,
    with a renewal during the second half, and no longer from its expiry on. *)
Theorem login_grants_session `{!SessionLaws SL} env h c (s : App) :
  (0 <= rv_now env)%Z → (0 <= sg_ttl (as_sessions s))%Z → (rv_now env + sg_ttl (as_sessions s) < 2 ^ 64)%Z →
  if credentials_ok c s then
    ∃ r cookie, login env h c s = Some (Done r, s) ∧ rp_status r = 200%Z ∧ rp_set_cookie r = Some cookie ∧
      ∀ env' (s' : App), as_sessions s' = as_sessions s →
        session_verdict env' [(bs "cookie", browser_cookie cookie)] s' =
          let ttl := sg_ttl (as_sessions s) in
          if (rv_now env' <? rv_now env + ttl / 2)%Z && (rv_now env' <? rv_now env + ttl)%Z then SvValid
          else if (rv_now env' <? rv_now env + ttl)%Z then SvRefresh else SvInvalid
  else login env h c s = Some (Done (error_response Unauthorized), s).
Proof.
  intros H0 Ht Hs. unfold login. fold (credentials_ok c s). destruct (credentials_ok c s); [|done]. simpl.
  pose proof (issue_chars (as_sessions s) (rv_now env)) as Hc. unfold session_response.
  rewrite session_cookie_value by done. cbn [mbind option_bind]. eexists _, _. split_and!; [done..|].
  intros env' s' Es. unfold session_verdict. rewrite cookie_roundtrip by done. rewrite Es. by apply session_lifecycle.
Qed.
End api_props.
