(* ===== verification/ApiInstances.v ===== *)
(** * A concrete server: witnesses of the API's theorems, and two behaviours the handlers
    allow: a second setup replaces the administrator the first one made, and the text fetched
    for a deleted list becomes the text of the list that took over its id. *)
From Stdlib Require Import Ascii.
From S2P Require Import Prelude RustStr RustNet RustFloat Rule Glob Parser ParserProps Instances FilterEngine FilterEngineProps FilterSpec Compiler Wire Dns DnsInstances Clients Block QueryLog Cache Snapshot Stats StatsProps Engine EngineInstances EngineSafety Spec ProbeLog Pool Config ConfigProps Auth Http Dto App AppProps AppInstances Api ApiProps.

#[export] Instance demo_passwords : PasswordLib :=
  {| argon2_hash := λ _ p, Some (bs "hash"); argon2_verify := λ p hash, bool_decide (p = bs "secret1") |}.
#[export] Instance demo_stores : StoreOps unit unit :=
  {| store_query := λ _ _ _ _ _, Some (Ok {| lp_entries := []; lp_total := 0 |}); store_clear := Ok; probe_clear := Ok;
     probe_export := λ _, Ok [] |}.
Definition demo_env (now : Z) : ReqEnv :=
  {| rv_now := now; rv_now_ms := now * 1000; rv_salt := []; rv_draws := [1%Z]; rv_update := demo_update; rv_write := Written;
     rv_remove_ok := true; rv_test := Err UeTimeout; rv_hash_error := [] |}.
Definition demo_run := api_run (DL:=small_dns) (HO:=key_order) (qsender:=list QueryLogEntry) (psender:=list ProbeEvent)
                         demo_hash pipe_chash demo_transport.
Definition creds (user : string) : Credentials := {| cr_username := bs user; cr_password := bs "secret1" |}.

(** The server after its first reload. *)
Definition demo_ready := match demo_apply demo_update demo_app (demo_config 0 fresh_auth) with Some (Ok s) => s | _ => demo_app end.
Lemma demo_ready_eq : demo_apply demo_update demo_app (demo_config 0 fresh_auth) = Some (Ok demo_ready).
Proof.
  assert (H : applied (demo_apply demo_update demo_app (demo_config 0 fresh_auth)) = true) by (vm_compute; reflexivity).
  unfold demo_ready. by destruct (demo_apply _ _ _) as [[s|e]|].
Qed.
Lemma demo_ready_consistent : consistent demo_hash pipe_chash demo_transport 1 demo_ready.
Proof.
  eapply (apply_consistent demo_hash pipe_chash demo_transport); [|exact demo_ready_eq].
  constructor; [apply NoDup_nil_2|constructor|apply NoDup_singleton|]. constructor; [simpl; lia|constructor].
Qed.

(** Two clients set up at once: both pass the check, then both go on. *)
Definition setup_events : list ApiEvent :=
  [AvRequest (demo_env 1000) [] (CSetup (creds "alice")); AvRequest (demo_env 1000) [] (CSetup (creds "mallory"));
   AvResume 0 (demo_env 1001) (Ok []); AvResume 1 (demo_env 1001) (Ok [])].
Definition admin_after (es : list ApiEvent) : option bytes :=
  let! y := demo_run {| sy_app := demo_ready; sy_pending := [] |} es in Some (au_username (cf_auth (as_config (sy_app y)))).
(** The account of the first is replaced by the second, although an administrator exists. *)
Lemma setup_race_replaces_admin :
  admin_after (take 3 setup_events) = Some (bs "alice") ∧ admin_after setup_events = Some (bs "mallory").
Proof. vm_compute. done. Qed.

Definition demo_system : ApiSystem := {| sy_app := demo_ready; sy_pending := [] |}.
(** A setup whose client disconnects inside its update. *)
Definition cut_events : list ApiEvent :=
  [AvRequest (demo_env 1000) [] (CSetup (creds "alice")); AvCutResume CutWriting 0 (demo_env 1001) (Ok [])].
Definition admins (y : ApiSystem (qsender:=list QueryLogEntry) (psender:=list ProbeEvent) (qstore:=unit) (pstore:=unit)) : bytes * option bytes :=
  (au_username (cf_auth (as_config (sy_app y))),
   match load_or_default (Some (fs_config (as_files (sy_app y)))) with Ok c => Some (au_username (cf_auth c)) | Err _ => None end).
(** The administrator is on disk, while the server in memory still has none and goes on
    offering the setup. *)
Lemma dropped_setup_diverges : admins <$> demo_run demo_system cut_events = Some ([], Some (bs "alice")).
Proof. vm_compute. done. Qed.
Lemma api_run_consistent_witness :
  consistent demo_hash pipe_chash demo_transport 1 (sy_app demo_system) ∧
  (∃ y', demo_run demo_system setup_events = Some y' ∧ fs_config (as_files (sy_app y')) ≠ None
     ∧ ∀ text, fs_config (as_files (sy_app y')) = Some text → load_or_default (Some (Some text)) = Ok (as_config (sy_app y')))
  ∧ ∃ y' cfg fs, demo_run demo_system cut_events = Some y' ∧ runs_on demo_hash pipe_chash demo_transport cfg fs (sy_app y').
Proof.
  split; [exact demo_ready_consistent|]. split.
  - destruct (demo_run demo_system setup_events) as [y'|] eqn:E.
    + exists y'. split; [done|].
      destruct (api_run_consistent demo_hash pipe_chash demo_transport 1 demo_system setup_events y' demo_ready_consistent ltac:(lia) ltac:(simpl; lia) E)
        as (cfg & (text & Ht & Hl) & _ & _ & _ & _ & _ & Hc). rewrite (Hc eq_refl), Ht. split; [discriminate|]. intros t [= <-]. exact Hl.
    + pose proof setup_race_replaces_admin as [_ H]. unfold admin_after in H. fold demo_system in H. rewrite E in H. discriminate H.
  - pose proof dropped_setup_diverges as H. destruct (demo_run demo_system cut_events) as [y'|] eqn:E; [|discriminate H].
    destruct (api_run_consistent demo_hash pipe_chash demo_transport 1 demo_system cut_events y' demo_ready_consistent ltac:(lia) ltac:(simpl; lia) E)
      as (cfg & _ & (fs & Hr) & _). exists y', cfg, fs. split; [reflexivity|exact Hr].
Defined.

Lemma unauthenticated_requests_are_harmless_witness :
  session_verdict (demo_env 5) [] demo_ready = SvInvalid ∧
  ∃ p, api_request demo_hash pipe_chash demo_transport (demo_env 5) [] (CPutCustomRules (bs "||x.com^")) demo_ready
         = Some (p, demo_ready)
    ∧ (∀ r, p = Replied r → rp_status r = 401%Z ∨ rp_status r = 403%Z).
Proof.
  split; [reflexivity|]. eexists. split; [reflexivity|]. intros r Hr.
  apply (unauthenticated_requests_are_harmless demo_hash pipe_chash demo_transport (demo_env 5) []
    (CPutCustomRules (bs "||x.com^")) demo_ready _ demo_ready eq_refl eq_refl); [exact Hr|reflexivity].
Defined.

Definition demo_admin := match demo_run demo_system (take 3 setup_events) with Some y => sy_app y | None => demo_ready end.
Lemma login_grants_session_witness :
  credentials_ok (creds "alice") demo_admin = true ∧
  ∃ r cookie, login (demo_env 2000) [] (creds "alice") demo_admin = Some (Done r, demo_admin) ∧ rp_set_cookie r = Some cookie
    ∧ session_verdict (demo_env 2001) [(bs "cookie", browser_cookie cookie)] demo_admin = SvValid.
Proof.
  assert (Hc : credentials_ok (creds "alice") demo_admin = true) by (vm_compute; reflexivity).
  assert (Hs : sg_ttl (as_sessions demo_admin) = 1209600%Z) by (vm_compute; reflexivity).
  split; [exact Hc|].
  pose proof (login_grants_session (SessionLaws0:=toy_laws) (demo_env 2000) [] (creds "alice") demo_admin) as H.
  rewrite Hc, Hs in H. destruct H as (r & cookie & H1 & _ & H3 & H4); [simpl; lia..|].
  exists r, cookie. split; [exact H1|]. split; [exact H3|]. rewrite H4 by reflexivity. reflexivity.
Defined.

(** A refresh of list 1 is fetching while list 1 is deleted and another list is added, which
    takes over the id. *)
Definition demo_session : HeaderMap :=
  [(bs "cookie", browser_cookie (session_cookie (issue (as_sessions demo_ready) 1000) false))].
Definition refresh_events : list ApiEvent :=
  [AvRequest (demo_env 1000) demo_session (CRefreshList 1); AvRequest (demo_env 1000) demo_session (CDeleteList 1);
   AvRequest (demo_env 1000) demo_session
     (CAddList {| nl_name := bs "family"; nl_url := None; nl_enabled := true; nl_content := Some (bs "||games.com^") |});
   AvResume 0 (demo_env 1001) (Ok (bs "||news.com^")); AvResume 0 (demo_env 1001) (Ok [])].
Definition blocks (s : AppState (qsender:=list QueryLogEntry) (psender:=list ProbeEvent) (qstore:=unit) (pstore:=unit)) (domain : string) : bool :=
  let '(dh, e) := es_filter (eg_state (as_engine s)) in
  match check dh e (bs domain) (bs "A") no_client_info with Some (VBlock _) => true | _ => false end.
Definition lists_after (es : list ApiEvent) : option (list (bytes * bytes) * bool * bool) :=
  let! y := demo_run demo_system es in
  let s := sy_app y in
  Some ((λ l, (fl_name l, read_list_text (as_files s) (fl_id l))) <$> fc_lists (cf_filtering (as_config s)),
        blocks s "games.com", blocks s "news.com").
(** The new list ends up with the text fetched for the deleted one, and the filter blocks by
    that text. *)
Lemma refresh_overwrites_new_list :
  lists_after (take 3 refresh_events) = Some ([(bs "family", bs "||games.com^")], true, false)
  ∧ lists_after refresh_events = Some ([(bs "family", bs "||news.com^")], false, true).
Proof. vm_compute. done. Qed.

(** A rule with a line break inside is never recognised as present: each request appends it
    again. *)
Definition two_line_rule : bytes := bs "||a.com^" ++ [LF] ++ bs "||b.com^".
Lemma two_line_rule_duplicates :
  trim two_line_rule = two_line_rule ∧ rule_present two_line_rule (append_rule two_line_rule []) = false.
Proof. vm_compute. done. Qed.

(** A deletion whose reload fails has already removed the list's file: the list stays
    configured with an empty text. *)
Definition full_disk_env : ReqEnv :=
  {| rv_now := 1000; rv_now_ms := 1000000; rv_salt := []; rv_draws := []; rv_update := {| ue_draw := demo_draw; ue_save_ok := false |};
     rv_write := Written; rv_remove_ok := true; rv_test := Err UeTimeout; rv_hash_error := [] |}.
Lemma failed_delete_loses_text :
  lists_after [] = Some ([(bs "ads", bs "||ads.com^")], false, false)
  ∧ lists_after [AvRequest full_disk_env demo_session (CDeleteList 1)] = Some ([(bs "ads", [])], false, false).
Proof. vm_compute. done. Qed.

