(* ===== verification/ApiErrors.v ===== *)
(** * What a refused request leaves behind ([api.rs], [app.rs]): every error path of the API. *)
From Stdlib Require Import Ascii.
From S2P Require Import Prelude RustStr RustNet RustFloat Rule Glob Parser ParserProps Instances FilterEngine FilterEngineProps FilterSpec Compiler Wire Dns DnsInstances Clients Block QueryLog Cache Snapshot Stats StatsProps Engine EngineInstances EngineSafety Spec ProbeLog Pool Config ConfigProps Auth Http Dto App AppProps AppInstances Api ApiProps ApiInstances.

Section api_errors.
Context {DL : DnsLib} {DC : DnsCodec} {RX : RegexLib} {IL : IpNetLib} {US : UnstableSort} {HO : HashOrder}.
Context {L : LruLib QueryKey Entry} {CC : ConfigCodec} {SL : SessionLib} {PL : PasswordLib}.
Context (dhash : bytes → Z) (chash : list (bytes * Z * Action) → Z).
Context (make_transport : list SocketAddr → UpstreamSpec → result () UpstreamError).
Context {qsender psender qstore pstore : Type} {SO : StoreOps qstore pstore}.

Local Abbreviation App := (AppState (qsender:=qsender) (psender:=psender) (qstore:=qstore) (pstore:=pstore)).
Local Abbreviation dispatch := (dispatch dhash chash make_transport).
Local Abbreviation put := (put dhash chash make_transport).

(** Nothing differs but, where [oid] names a list, the text in the file of that list. *)
Definition same_but (oid : option Z) (s s' : App) : Prop :=
  ∃ fs, s' = with_files fs s ∧ fs_config fs = fs_config (as_files s)
    ∧ ∀ id, oid ≠ Some id → fs_lists fs !! id = fs_lists (as_files s) !! id.
(** The list whose file a request writes or removes before the configuration is applied. *)
Definition touched (c : Call) (s : App) : option Z :=
  match c with CAddList _ => Some (next_list_id (as_config s)) | CDeleteList id => Some id | _ => None end.
Definition touched_by (t : Task) (s : App) : option Z :=
  match t with TAddList _ => Some (next_list_id (as_config s)) | TRefreshFetch id => Some id | _ => None end.
(** The shape of a refusal. *)
Definition refusal (r : Response) : Prop :=
  rp_status r ∈ [400%Z; 401%Z; 404%Z; 500%Z] ∧ ∃ m, rp_body r = BError m.
(** A handler that refuses does so properly, and leaves the state as it was. *)
Definition clean (oid : option Z) (s : App) (o : HandlerOutcome) (s' : App) : Prop :=
  match o with Done r => rp_status r ≠ 200%Z → refusal r ∧ same_but oid s s' | Wait _ => True end.

Lemma same_but_refl oid (s : App) : same_but oid s s.
Proof. exists (as_files s). by destruct s. Qed.
Lemma error_refusal e : refusal (error_response e).
Proof. destruct e; split; [set_solver|by eexists|set_solver|by eexists|set_solver|by eexists|set_solver|by eexists]. Qed.
Lemma refuse_clean oid (s0 s : App) e o s' : same_but oid s0 s → refuse s e = Some (o, s') → clean oid s0 o s'.
Proof. intros Hs [= <- <-]. split; [apply error_refusal|done]. Qed.
Lemma reply_clean oid (s0 s : App) b o s' : reply s b = Some (o, s') → clean oid s0 o s'.
Proof. by intros [= <- <-]. Qed.
Lemma put_clean oid env (s0 s : App) cfg b o s' : same_but oid s0 s → put env s cfg b = Some (o, s') → clean oid s0 o s'.
Proof.
  intros Hs. unfold Api.put, done, commit. destruct (apply_config _ _ _ _ s cfg) as [[s1|e]|]; [| |done]; simpl.
  - by intros [= <- <-].
  - intros [= <- <-]. split; [apply error_refusal|done].
Qed.
Lemma write_same_but (s : App) io id text : same_but (Some id) s (with_files (write_list_text (as_files s) io id text).2 s).
Proof.
  eexists. split; [done|]. unfold write_list_text. destruct io as [|rest why]; [|destruct rest]; simpl; (split; [done|]);
    intros j Hj; rewrite ?lookup_insert_ne, ?lookup_delete_ne by congruence; done.
Qed.
Lemma remove_same_but (s : App) ok id : same_but (Some id) s (with_files (remove_list_file (as_files s) ok id) s).
Proof.
  eexists. split; [done|]. unfold remove_list_file. destruct ok; simpl; (split; [done|]);
    intros j Hj; rewrite ?lookup_delete_ne by congruence; done.
Qed.
Lemma add_list_clean env b text (s : App) o s' : add_list_commit dhash chash make_transport env b text s = Some (o, s') →
  clean (Some (next_list_id (as_config s))) s o s'.
Proof.
  unfold add_list_commit. pose proof (write_same_but s (rv_write env) (next_list_id (as_config s)) text) as H.
  destruct (write_list_text _ _ _ _) as [[|e] fs]; [by apply put_clean|by apply refuse_clean].
Qed.
Hint Resolve same_but_refl : core.
Hint Extern 1 (clean _ _ _ _) => eapply put_clean; [|eassumption] : core.
Hint Extern 1 (clean _ _ _ _) => eapply refuse_clean; [|eassumption] : core.
Hint Extern 1 (clean _ _ _ _) => eapply reply_clean; eassumption : core.

Lemma session_clean oid env secure (s0 s : App) o s' :
  (let! r := session_response env secure s in Some (Done r, s)) = Some (o, s') → clean oid s0 o s'.
Proof. unfold session_response. destruct (header_value _); [|done]. by intros [= <- <-]. Qed.
Lemma dispatch_clean env h c (s : App) o s' : dispatch env h c s = Some (o, s') → clean (touched c s) s o s'.
Proof.
  destruct c; cbn [Api.dispatch touched]; intros H; try by eauto.
  - unfold setup in H. repeat case_match; eauto. by injection H as <- <-.
  - unfold login in H. case_match; eauto. by eapply session_clean.
  - unfold logout in H. destruct (header_value _); [|done]. by injection H as <- <-.
  - unfold add_custom_rule in H. repeat case_match; eauto.
  - unfold check_domain in H. destruct (es_filter _) as [dh f]. destruct (check _ _ _ _ _); [|done]. by injection H as <- <-.
  - unfold add_list_handler in H. destruct (nl_url _); [by injection H as <- <-|by eapply add_list_clean].
  - unfold update_list in H. case_match; eauto.
  - unfold delete_list in H. case_match; [eauto|]. eapply put_clean; [|exact H]. apply remove_same_but.
  - unfold refresh_list in H. repeat case_match; eauto. by injection H as <- <-.
  - unfold post_client in H. case_match; [eauto|]. destruct (new_client_id _ _); [eauto|done].
  - unfold put_client in H. repeat case_match; eauto.
  - unfold delete_client in H. case_match; eauto.
  - unfold get_stats in H. destruct (stats_snapshot _ _ _); [|done]. by injection H as <- <-.
  - unfold get_querylog in H. destruct (store_query _ _ _ _ _) as [[page|e]|]; cbn [mbind option_bind] in H; [|eauto|done].
    destruct (views _ _ _); [|done]. by injection H as <- <-.
  - unfold clear_querylog in H. case_match; eauto.
  - unfold clear_upstream_log in H. case_match; eauto.
  - unfold export_upstream_log in H. case_match; eauto.
  - unfold test_upstream in H. case_match; eauto.
Qed.
Lemma resume_clean env fetched t (s : App) o s' :
  resume_task dhash chash make_transport env fetched t s = Some (o, s') → clean (touched_by t s) s o s'.
Proof.
  destruct t; simpl; intros H.
  - unfold setup_commit in H. destruct (apply_config _ _ _ _ _ _) as [[s1|e]|]; simpl in H; [|eauto|done]. by eapply session_clean.
  - destruct fetched; [by eapply add_list_clean|eauto].
  - destruct fetched as [text|e]; [|eauto]. unfold refresh_fetched in H. pose proof (write_same_but s (rv_write env) id text) as Hw.
    destruct (write_list_text _ _ _ _) as [[|e] fs]; [by injection H as <- <-|]. eapply refuse_clean; [exact Hw|exact H].
  - by eapply put_clean.
Qed.
Lemma finish_clean oid (s : App) env renew r p s' : (∀ o s1, r = Some (o, s1) → clean oid s o s1) →
  finish env renew r = Some (Replied p, s') → rp_status p ≠ 200%Z → refusal p ∧ same_but oid s s'.
Proof.
  intros Hc. destruct r as [[[q|t] s1]|]; [| |done]; simpl; destruct renew as [secure|]; try done.
  - unfold renewed. destruct (header_value _); [|done]. intros [= <- <-]. exact (Hc _ _ eq_refl).
  - intros [= <- <-]. exact (Hc _ _ eq_refl).
Qed.

(** C23: a request that fails changes nothing.  Whenever the API answers a request, or one that
    was suspended, with anything but 200, the answer is a cross-origin refusal or an error
    with a message and one of the statuses 400, 401, 404 and 500, and engine, configuration,
    configuration file, sessions, telemetry and stores are as they were before that step; only
    a failed addition, removal or refresh of a list may have changed the file of that one
    list. *)
Theorem failed_requests_change_nothing env h c (s : App) fetched p r s' : rp_status r ≠ 200%Z →
  (api_request dhash chash make_transport env h c s = Some (Replied r, s') →
     (rp_status r = 403%Z ∧ s' = s) ∨ (refusal r ∧ same_but (touched c s) s s'))
  ∧ (api_resume dhash chash make_transport env fetched p s = Some (Replied r, s') →
     refusal r ∧ same_but (touched_by (pn_task p) s) s s').
Proof.
  intros Hr. split.
  - unfold api_request. destruct (negb _); [intros [= <- <-]; by left|]. intros H. right.
    destruct (is_public c); [by eapply finish_clean; [|exact H|]; eauto using dispatch_clean|].
    destruct (session_verdict env h s); [|by eapply finish_clean; [|exact H|]; eauto using dispatch_clean..].
    injection H as <- <-. split; [apply (error_refusal Unauthorized)|apply same_but_refl].
  - intros H. eapply finish_clean; [|exact H|done]. eauto using resume_clean.
Qed.
End api_errors.

(** An administrator adds a rule while the disk is full: the request is answered 400 and the
    server is the one before it. *)
Local Abbreviation full_disk_request := (api_request (DL:=small_dns) (HO:=key_order) (qsender:=list QueryLogEntry) (psender:=list ProbeEvent)
  demo_hash pipe_chash demo_transport full_disk_env demo_session (CAddRule (bs "||bad.com^")) demo_ready).
Definition status_of {A} (o : option (Progress * A)) : option Z := match o with Some (Replied r, _) => Some (rp_status r) | _ => None end.
Lemma failed_requests_change_nothing_witness :
  ∃ r s', full_disk_request = Some (Replied r, s') ∧ rp_status r = 400%Z ∧ refusal r ∧ same_but None demo_ready s'.
Proof.
  assert (H : status_of full_disk_request = Some 400%Z) by vm_refl.
  destruct full_disk_request as [[[r|p] s']|] eqn:E; [|discriminate H|discriminate H].
  assert (Hr : rp_status r = 400%Z) by (by injection H). exists r, s'. split; [reflexivity|]. split; [exact Hr|].
  destruct (failed_requests_change_nothing demo_hash pipe_chash demo_transport full_disk_env demo_session (CAddRule (bs "||bad.com^"))
    demo_ready (Ok []) {| pn_task := TRefreshCommit 1; pn_renew := None |} r s') as [Hq _]; [by rewrite Hr|].
  destruct (Hq E) as [[H4 _]|Hc]; [by rewrite Hr in H4|exact Hc].
Defined.
