(* ===== verification/ApiDoc.v ===== *)
(** * server: the routes and the description of the API ([api.rs], [openapi.rs]).

    The [#[utoipa::path]] attribute of each handler, the [ApiDoc] that collects them and the
    route table of [router], as data.  The texts of the descriptions are left out.  How a path
    is matched is the router library's: a literal segment matches itself and [{id}] one
    segment that is not empty; which of several matching routes wins is left open, and
    [candidates] lists them all.  [fetch_list] downloads the text of a filter list.

    Every request is served by one route, the description lists exactly the routes, and every
    reply is one the description declares, but for an explicit list of replies it leaves out. *)
From Stdlib Require Import Ascii.
From S2P Require Import Prelude RustStr RustNet RustFloat Rule Glob Parser ParserProps Instances FilterEngine FilterEngineProps FilterSpec Compiler Wire Dns DnsInstances Clients Block QueryLog Cache Snapshot Stats StatsProps Engine EngineInstances EngineSafety Spec ProbeLog Pool Config ConfigProps Auth Http Dto App AppProps AppInstances Api ApiProps ApiInstances ApiErrors.

(** ** The attributes of the handlers *)

(** The handlers, by name. *)
Inductive Endpoint : Type :=
| E_status | E_setup | E_login | E_logout | E_get_config | E_put_upstreams | E_put_cache | E_put_filtering | E_put_server
| E_put_querylog | E_put_upstream_log | E_put_stats_cfg | E_put_privacy | E_get_filters | E_put_custom_rules
| E_add_custom_rule | E_add_list | E_update_list | E_delete_list | E_refresh_list | E_check_domain | E_get_clients
| E_post_client | E_put_client | E_delete_client | E_get_stats | E_reset_stats | E_get_querylog | E_clear_querylog
| E_clear_upstream_log | E_export_upstream_log | E_get_upstreams | E_test_upstream.
#[export] Instance Endpoint_eq_dec : EqDecision Endpoint.
Proof. solve_decision. Defined.

Inductive DocParam : Type := PathParam (name type : string) | QueryParams (type : string).
Inductive DocBody : Type := Schema (type : string) | SchemaArray (type : string) | Media (content_type : string).
#[export] Instance DocBody_eq_dec : EqDecision DocBody.
Proof. solve_decision. Defined.
Record Operation : Type := {
  op_method : Method; op_path : string; op_tag : string; op_params : list DocParam; op_request : option string;
  op_responses : list (Z * DocBody);
}.
Definition operation_of (m : Method) (path tag : string) (params : list DocParam) (request : option string)
    (responses : list (Z * DocBody)) : Operation :=
  {| op_method := m; op_path := path; op_tag := tag; op_params := params; op_request := request; op_responses := responses |}.

Definition path_status : Operation :=
  operation_of MGet "/api/status" "auth" [] None [(200%Z, Schema "StatusResponse")].
Definition path_setup : Operation :=
  operation_of MPost "/api/setup" "auth" [] (Some "Credentials") [(200%Z, Schema "OkResponse"); (400%Z, Schema "ErrorResponse")].
Definition path_login : Operation :=
  operation_of MPost "/api/login" "auth" [] (Some "Credentials") [(200%Z, Schema "OkResponse"); (401%Z, Schema "ErrorResponse")].
Definition path_logout : Operation :=
  operation_of MPost "/api/logout" "auth" [] None [(200%Z, Schema "OkResponse")].
Definition path_get_config : Operation :=
  operation_of MGet "/api/config" "config" [] None [(200%Z, Schema "Config"); (401%Z, Schema "ErrorResponse")].
Definition path_put_upstreams : Operation :=
  operation_of MPut "/api/config/upstreams" "config" [] (Some "UpstreamsConfig") [(200%Z, Schema "OkResponse"); (400%Z, Schema "ErrorResponse")].
Definition path_put_cache : Operation :=
  operation_of MPut "/api/config/cache" "config" [] (Some "CacheConfig") [(200%Z, Schema "OkResponse"); (400%Z, Schema "ErrorResponse")].
Definition path_put_filtering : Operation :=
  operation_of MPut "/api/config/filtering" "config" [] (Some "FilteringSettings") [(200%Z, Schema "OkResponse"); (400%Z, Schema "ErrorResponse")].
Definition path_put_server : Operation :=
  operation_of MPut "/api/config/server" "config" [] (Some "ServerConfig") [(200%Z, Schema "ServerUpdateResponse"); (400%Z, Schema "ErrorResponse")].
Definition path_put_querylog : Operation :=
  operation_of MPut "/api/config/querylog" "config" [] (Some "QueryLogConfig") [(200%Z, Schema "OkResponse"); (400%Z, Schema "ErrorResponse")].
Definition path_put_upstream_log : Operation :=
  operation_of MPut "/api/config/upstreamlog" "config" [] (Some "UpstreamLogConfig") [(200%Z, Schema "OkResponse"); (400%Z, Schema "ErrorResponse")].
Definition path_put_stats_cfg : Operation :=
  operation_of MPut "/api/config/stats" "config" [] (Some "StatsConfig") [(200%Z, Schema "OkResponse"); (400%Z, Schema "ErrorResponse")].
Definition path_put_privacy : Operation :=
  operation_of MPut "/api/config/privacy" "config" [] (Some "PrivacyConfig") [(200%Z, Schema "OkResponse"); (400%Z, Schema "ErrorResponse")].
Definition path_get_filters : Operation :=
  operation_of MGet "/api/filters" "filters" [] None [(200%Z, Schema "FiltersResponse"); (401%Z, Schema "ErrorResponse")].
Definition path_put_custom_rules : Operation :=
  operation_of MPut "/api/filters/custom" "filters" [] (Some "CustomRules") [(200%Z, Schema "OkResponse"); (400%Z, Schema "ErrorResponse")].
Definition path_add_custom_rule : Operation :=
  operation_of MPost "/api/filters/rule" "filters" [] (Some "AddRule") [(200%Z, Schema "AddRuleResponse"); (400%Z, Schema "ErrorResponse")].
Definition path_add_list : Operation :=
  operation_of MPost "/api/filters/lists" "filters" [] (Some "NewList") [(200%Z, Schema "AddListResponse"); (400%Z, Schema "ErrorResponse")].
Definition path_update_list : Operation :=
  operation_of MPut "/api/filters/lists/{id}" "filters" [PathParam "id" "u32"] (Some "ListUpdate") [(200%Z, Schema "OkResponse"); (404%Z, Schema "ErrorResponse")].
Definition path_delete_list : Operation :=
  operation_of MDelete "/api/filters/lists/{id}" "filters" [PathParam "id" "u32"] None [(200%Z, Schema "OkResponse"); (404%Z, Schema "ErrorResponse")].
Definition path_refresh_list : Operation :=
  operation_of MPost "/api/filters/lists/{id}/refresh" "filters" [PathParam "id" "u32"] None [(200%Z, Schema "OkResponse"); (400%Z, Schema "ErrorResponse"); (404%Z, Schema "ErrorResponse")].
Definition path_check_domain : Operation :=
  operation_of MPost "/api/filters/check" "filters" [] (Some "CheckRequest") [(200%Z, Schema "CheckResponse"); (401%Z, Schema "ErrorResponse")].
Definition path_get_clients : Operation :=
  operation_of MGet "/api/clients" "clients" [] None [(200%Z, SchemaArray "ClientConfig"); (401%Z, Schema "ErrorResponse")].
Definition path_post_client : Operation :=
  operation_of MPost "/api/clients" "clients" [] (Some "ClientInput") [(200%Z, Schema "ClientConfig"); (400%Z, Schema "ErrorResponse")].
Definition path_put_client : Operation :=
  operation_of MPut "/api/clients/{id}" "clients" [PathParam "id" "String"] (Some "ClientInput") [(200%Z, Schema "OkResponse"); (400%Z, Schema "ErrorResponse"); (404%Z, Schema "ErrorResponse")].
Definition path_delete_client : Operation :=
  operation_of MDelete "/api/clients/{id}" "clients" [PathParam "id" "String"] None [(200%Z, Schema "OkResponse"); (404%Z, Schema "ErrorResponse")].
Definition path_get_stats : Operation :=
  operation_of MGet "/api/stats" "stats" [QueryParams "TopQuery"] None [(200%Z, Schema "StatsResponse"); (401%Z, Schema "ErrorResponse")].
Definition path_reset_stats : Operation :=
  operation_of MPost "/api/stats/reset" "stats" [] None [(200%Z, Schema "OkResponse"); (401%Z, Schema "ErrorResponse")].
Definition path_get_querylog : Operation :=
  operation_of MGet "/api/querylog" "querylog" [QueryParams "LogQuery"] None [(200%Z, Schema "QueryLogResponse"); (401%Z, Schema "ErrorResponse")].
Definition path_clear_querylog : Operation :=
  operation_of MDelete "/api/querylog" "querylog" [] None [(200%Z, Schema "OkResponse"); (401%Z, Schema "ErrorResponse")].
Definition path_clear_upstream_log : Operation :=
  operation_of MDelete "/api/upstreamlog" "upstreamlog" [] None [(200%Z, Schema "OkResponse"); (401%Z, Schema "ErrorResponse")].
Definition path_export_upstream_log : Operation :=
  operation_of MGet "/api/upstreamlog/export" "upstreamlog" [] None [(200%Z, Media "application/x-ndjson"); (401%Z, Schema "ErrorResponse")].
Definition path_get_upstreams : Operation :=
  operation_of MGet "/api/upstreams" "upstreams" [] None [(200%Z, SchemaArray "UpstreamStatDto"); (401%Z, Schema "ErrorResponse")].
Definition path_test_upstream : Operation :=
  operation_of MPost "/api/upstreams/test" "upstreams" [] (Some "TestUpstream") [(200%Z, Schema "TestResult"); (400%Z, Schema "ErrorResponse")].

Definition operation (e : Endpoint) : Operation :=
  match e with
  | E_status => path_status | E_setup => path_setup | E_login => path_login | E_logout => path_logout
  | E_get_config => path_get_config | E_put_upstreams => path_put_upstreams | E_put_cache => path_put_cache
  | E_put_filtering => path_put_filtering | E_put_server => path_put_server | E_put_querylog => path_put_querylog
  | E_put_upstream_log => path_put_upstream_log | E_put_stats_cfg => path_put_stats_cfg | E_put_privacy => path_put_privacy
  | E_get_filters => path_get_filters | E_put_custom_rules => path_put_custom_rules
  | E_add_custom_rule => path_add_custom_rule | E_add_list => path_add_list | E_update_list => path_update_list
  | E_delete_list => path_delete_list | E_refresh_list => path_refresh_list | E_check_domain => path_check_domain
  | E_get_clients => path_get_clients | E_post_client => path_post_client | E_put_client => path_put_client
  | E_delete_client => path_delete_client | E_get_stats => path_get_stats | E_reset_stats => path_reset_stats
  | E_get_querylog => path_get_querylog | E_clear_querylog => path_clear_querylog
  | E_clear_upstream_log => path_clear_upstream_log | E_export_upstream_log => path_export_upstream_log
  | E_get_upstreams => path_get_upstreams | E_test_upstream => path_test_upstream
  end.

(** [ApiDoc]: the operations, schemas and tags it declares. *)
Definition doc_paths : list Endpoint :=
  [E_status; E_setup; E_login; E_logout; E_get_config; E_put_upstreams; E_put_cache; E_put_filtering; E_put_server;
   E_put_querylog; E_put_upstream_log; E_put_stats_cfg; E_put_privacy; E_get_filters; E_put_custom_rules; E_add_custom_rule;
   E_check_domain; E_add_list; E_update_list; E_delete_list; E_refresh_list; E_get_clients; E_post_client; E_put_client;
   E_delete_client; E_get_stats; E_reset_stats; E_get_querylog; E_clear_querylog; E_clear_upstream_log;
   E_export_upstream_log; E_get_upstreams; E_test_upstream].
Definition doc_schemas : list string :=
  ["ErrorResponse"; "OkResponse"; "StatusResponse"; "Credentials"; "FilteringSettings"; "ServerUpdateResponse";
   "FiltersResponse"; "CustomRules"; "AddRule"; "AddRuleResponse"; "NewList"; "AddListResponse"; "ListUpdate";
   "CheckRequest"; "CheckResponse"; "TestUpstream"; "TestResult"; "ClientInput"; "StatsResponse"; "TopEntryDto";
   "SeriesPointDto"; "LatencyPercentilesDto"; "QueryLogResponse"; "LogEntryView"; "UpstreamStatDto"; "TransportKindDto";
   "Config"; "ServerConfig"; "UpstreamsConfig"; "CacheConfig"; "BlockingMode"; "FilterListConfig"; "FilteringConfig";
   "ClientConfig"; "QueryLogConfig"; "UpstreamLogConfig"; "StatsConfig"; "PrivacyConfig"; "AuthConfig"].
Definition doc_tags : list string := ["auth"; "config"; "filters"; "clients"; "stats"; "querylog"; "upstreamlog"; "upstreams"].

(** ** The route table *)

Definition public_routes : list (string * list (Method * Endpoint)) :=
  [("/api/status", [(MGet, E_status)]); ("/api/setup", [(MPost, E_setup)]); ("/api/login", [(MPost, E_login)]);
   ("/api/logout", [(MPost, E_logout)])].
Definition protected_routes : list (string * list (Method * Endpoint)) :=
  [("/api/config", [(MGet, E_get_config)]); ("/api/config/upstreams", [(MPut, E_put_upstreams)]);
   ("/api/config/cache", [(MPut, E_put_cache)]); ("/api/config/filtering", [(MPut, E_put_filtering)]);
   ("/api/config/server", [(MPut, E_put_server)]); ("/api/config/querylog", [(MPut, E_put_querylog)]);
   ("/api/config/upstreamlog", [(MPut, E_put_upstream_log)]); ("/api/config/stats", [(MPut, E_put_stats_cfg)]);
   ("/api/config/privacy", [(MPut, E_put_privacy)]); ("/api/filters", [(MGet, E_get_filters)]);
   ("/api/filters/custom", [(MPut, E_put_custom_rules)]); ("/api/filters/rule", [(MPost, E_add_custom_rule)]);
   ("/api/filters/check", [(MPost, E_check_domain)]); ("/api/filters/lists", [(MPost, E_add_list)]);
   ("/api/filters/lists/{id}", [(MPut, E_update_list); (MDelete, E_delete_list)]);
   ("/api/filters/lists/{id}/refresh", [(MPost, E_refresh_list)]);
   ("/api/clients", [(MGet, E_get_clients); (MPost, E_post_client)]);
   ("/api/clients/{id}", [(MPut, E_put_client); (MDelete, E_delete_client)]); ("/api/stats", [(MGet, E_get_stats)]);
   ("/api/stats/reset", [(MPost, E_reset_stats)]); ("/api/querylog", [(MGet, E_get_querylog); (MDelete, E_clear_querylog)]);
   ("/api/upstreamlog", [(MDelete, E_clear_upstream_log)]); ("/api/upstreamlog/export", [(MGet, E_export_upstream_log)]);
   ("/api/upstreams", [(MGet, E_get_upstreams)]); ("/api/upstreams/test", [(MPost, E_test_upstream)])].
Record Route : Type := { rt_method : Method; rt_path : string; rt_endpoint : Endpoint; rt_protected : bool }.
Definition flatten (protected : bool) (t : list (string * list (Method * Endpoint))) : list Route :=
  mjoin ((λ '(path, hs), (λ '(m, e), {| rt_method := m; rt_path := path; rt_endpoint := e; rt_protected := protected |}) <$> hs) <$> t).
Definition routes : list Route := flatten false public_routes ++ flatten true protected_routes.

(** The segments of a path, and what [{id}] captures. *)
Definition SLASH : byte := "/"%char.
Fixpoint capture (pattern path : list bytes) : option (list bytes) :=
  match pattern, path with
  | [], [] => Some []
  | p :: pattern, s :: path =>
      let! args := capture pattern path in
      if bool_decide (p = bs "{id}") then (if bool_decide (s = []) then None else Some (s :: args))
      else if bool_decide (p = s) then Some args else None
  | _, _ => None
  end.
Definition pattern_of (r : Route) : list bytes := split_byte SLASH (bs (rt_path r)).
(** A route for [GET] answers [HEAD] too. *)
Definition accepts (route m : Method) : bool := bool_decide (route = m) || (bool_decide (route = MGet) && bool_decide (m = MHead)).
Definition candidate (m : Method) (path : bytes) (r : Route) : option (Route * list bytes) :=
  if accepts (rt_method r) m then
    let! args := capture (pattern_of r) (split_byte SLASH path) in Some (r, args)
  else None.
Definition candidates (m : Method) (path : bytes) : list (Route * list bytes) := omap (candidate m path) routes.

(** The handler of a request, and the captured part of its path. *)
Definition endpoint_of (c : Call) : Endpoint :=
  match c with
  | CStatus => E_status | CSetup _ => E_setup | CLogin _ => E_login | CLogout => E_logout | CGetConfig => E_get_config
  | CPutUpstreams _ => E_put_upstreams | CPutCache _ => E_put_cache | CPutFiltering _ => E_put_filtering
  | CPutServer _ => E_put_server | CPutQuerylog _ => E_put_querylog | CPutUpstreamLog _ => E_put_upstream_log
  | CPutStats _ => E_put_stats_cfg | CPutPrivacy _ => E_put_privacy | CGetFilters => E_get_filters
  | CPutCustomRules _ => E_put_custom_rules | CAddRule _ => E_add_custom_rule | CAddList _ => E_add_list
  | CUpdateList _ _ => E_update_list | CDeleteList _ => E_delete_list | CRefreshList _ => E_refresh_list
  | CCheckDomain _ _ => E_check_domain | CGetClients => E_get_clients | CPostClient _ => E_post_client
  | CPutClient _ _ => E_put_client | CDeleteClient _ => E_delete_client | CGetStats _ => E_get_stats
  | CResetStats => E_reset_stats | CGetQuerylog _ => E_get_querylog | CClearQuerylog => E_clear_querylog
  | CClearUpstreamLog => E_clear_upstream_log | CExportUpstreamLog => E_export_upstream_log
  | CGetUpstreams => E_get_upstreams | CTestUpstream _ => E_test_upstream
  end.
Definition args_of (c : Call) : list bytes :=
  match c with
  | CUpdateList id _ | CDeleteList id | CRefreshList id => [show_dec id]
  | CPutClient id _ | CDeleteClient id => [id]
  | _ => []
  end.

(** ** Fetching a list *)

(** What the HTTP client makes of a request: the client cannot be built, nothing is received,
    or a response with its status, the rendering of the status and its decoded text. *)
Record HttpReply : Type := { hr_status : Z; hr_status_text : bytes; hr_text : result bytes bytes }.
Record Fetch : Type := { ft_client : result () bytes; ft_send : result HttpReply bytes }.
Definition fetch_list (f : Fetch) : result bytes ApiError :=
  match ft_client f with
  | Err e => Err (Internal e)
  | Ok _ =>
      match ft_send f with
      | Err e => Err (BadRequest (bs "fetch failed: " ++ e))
      | Ok resp =>
          if negb ((200 <=? hr_status resp)%Z && (hr_status resp <? 300)%Z) then
            Err (BadRequest (bs "fetch status " ++ hr_status_text resp))
          else match hr_text resp with Ok text => Ok text | Err e => Err (BadRequest e) end
      end
  end.

(** ** What the description says of a reply *)

(** The schema, or the media type, of a body. *)
Definition schema_of (b : Body) : DocBody :=
  match b with
  | BOk => Schema "OkResponse" | BError _ => Schema "ErrorResponse" | BText _ => Media "text/plain; charset=utf-8"
  | BStatus _ _ _ => Schema "StatusResponse" | BConfig _ => Schema "Config" | BServerUpdate _ => Schema "ServerUpdateResponse"
  | BFilters _ _ _ _ => Schema "FiltersResponse" | BAddRule _ _ => Schema "AddRuleResponse" | BAddList _ => Schema "AddListResponse"
  | BCheck _ => Schema "CheckResponse" | BClients _ => SchemaArray "ClientConfig" | BClient _ => Schema "ClientConfig"
  | BStats _ => Schema "StatsResponse" | BQuerylog _ _ => Schema "QueryLogResponse" | BExport _ => Media "application/x-ndjson"
  | BUpstreams _ => SchemaArray "UpstreamStatDto" | BTest _ _ _ => Schema "TestResult"
  end.
Definition shape (r : Response) : Z * DocBody := (rp_status r, schema_of (rp_body r)).

#[export] Instance Route_eq_dec : EqDecision Route.
Proof. solve_decision. Defined.

(** ** Routing is unambiguous *)

(** Two patterns that one path can match. *)
Fixpoint overlap (p q : list bytes) : bool :=
  match p, q with
  | [], [] => true
  | a :: p, b :: q =>
      (bool_decide (a = bs "{id}") || bool_decide (b = bs "{id}") || bool_decide (a = b)) && overlap p q
  | _, _ => false
  end.
Definition conflict (r r' : Route) : bool :=
  (accepts (rt_method r) (rt_method r') || accepts (rt_method r') (rt_method r)) && overlap (pattern_of r) (pattern_of r').
Fixpoint conflict_free (rs : list Route) : bool :=
  match rs with [] => true | r :: rs => forallb (λ r', negb (conflict r r')) rs && conflict_free rs end.

Lemma capture_overlap p : ∀ q s a b, capture p s = Some a → capture q s = Some b → overlap p q = true.
Proof.
  induction p as [|x p IH]; intros [|y q] [|z s] a b; simpl; try done.
  destruct (capture p s) as [a'|] eqn:E1; [|done]. destruct (capture q s) as [b'|] eqn:E2; [|done]. simpl.
  rewrite (IH _ _ _ _ E1 E2), andb_true_r. repeat case_bool_decide; simpl; try done; congruence.
Qed.
Lemma accepts_method m1 m2 m : accepts m1 m = true → accepts m2 m = true → accepts m1 m2 || accepts m2 m1 = true.
Proof. by destruct m1, m2, m. Qed.
Lemma candidate_spec m path r args : candidate m path r = Some (r, args) ↔
  accepts (rt_method r) m = true ∧ capture (pattern_of r) (split_byte SLASH path) = Some args.
Proof. unfold candidate. destruct (accepts _ _); [destruct (capture _ _)|]; simpl; naive_solver. Qed.
Lemma candidate_self m path r x : candidate m path r = Some x → x.1 = r.
Proof. unfold candidate. destruct (accepts _ _); [destruct (capture _ _)|]; simpl; naive_solver. Qed.
Lemma conflict_free_unique rs m path : conflict_free rs = true → length (omap (candidate m path) rs) ≤ 1.
Proof.
  induction rs as [|r rs IH]; [simpl; lia|]. intros [Hr Hrs]%andb_true_iff. fold conflict_free in Hrs.
  change (omap (candidate m path) (r :: rs)) with
    (match candidate m path r with Some y => y :: omap (candidate m path) rs | None => omap (candidate m path) rs end).
  destruct (candidate m path r) as [[r0 a]|] eqn:E; [|auto]. pose proof (candidate_self _ _ _ _ E) as <-.
  assert (omap (candidate m path) rs = []) as ->; [|simpl; lia].
  destruct (omap _ rs) as [|[r' b] l] eqn:El; [done|]. exfalso.
  assert (Hin : (r', b) ∈ omap (candidate m path) rs) by (rewrite El; left).
  apply list_elem_of_omap in Hin as (r1 & Hin & E'). pose proof (candidate_self _ _ _ _ E') as <-. simpl in *.
  apply candidate_spec in E as [Hm Hc]. apply candidate_spec in E' as [Hm' Hc'].
  rewrite forallb_forall in Hr. specialize (Hr _ (proj1 (list_elem_of_In _ _) Hin)).
  unfold conflict in Hr. by rewrite (accepts_method _ _ _ Hm Hm'), (capture_overlap _ _ _ _ _ Hc Hc') in Hr.
Qed.
Lemma routes_conflict_free : conflict_free routes = true.
Proof. vm_refl. Qed.

(** ** The routes of the requests *)

(** Ids as they arrive in a path: a list id is 32 bits wide, a client id one segment. *)
Definition path_ok (c : Call) : Prop :=
  match c with
  | CUpdateList id _ | CDeleteList id | CRefreshList id => in_u 32 id
  | CPutClient id _ | CDeleteClient id => id ≠ [] ∧ SLASH ∉ id
  | _ => True
  end.
Definition route_of (c : Call) : Route :=
  let op := operation (endpoint_of c) in
  {| rt_method := op_method op; rt_path := op_path op; rt_endpoint := endpoint_of c; rt_protected := negb (is_public c) |}.

Lemma show_segment id : in_u 32 id → show_dec id ≠ [] ∧ SLASH ∉ show_dec id.
Proof.
  intros [H _]. split; [by apply show_dec_value|]. by apply digits_without.
Qed.
(** Splitting a path after a prefix that ends with a slash. *)
Lemma split_prefix p w : split_byte SLASH (bs p ++ SLASH :: w) = split_byte SLASH (bs p) ++ split_byte SLASH w.
Proof.
  induction (bs p) as [|b l IH]; simpl; [done|].
  case_bool_decide; rewrite IH; [done|]. pose proof (split_byte_nonempty SLASH l). by destruct (split_byte SLASH l).
Qed.
Lemma capture_lit p : bs "{id}" ∉ p → capture p p = Some [].
Proof.
  induction p as [|x p IH]; [done|]. intros Hp. cbn [capture]. rewrite IH by set_solver. cbn [mbind option_bind].
  by rewrite bool_decide_false, bool_decide_true by set_solver.
Qed.
Lemma capture_id p q w : w ≠ [] → bs "{id}" ∉ p → bs "{id}" ∉ q → capture (p ++ bs "{id}" :: q) (p ++ w :: q) = Some [w].
Proof.
  intros Hw Hp Hq. induction p as [|x p IH]; cbn [app capture].
  - rewrite capture_lit by done. cbn [mbind option_bind]. by rewrite bool_decide_true, bool_decide_false by done.
  - rewrite IH by set_solver. cbn [mbind option_bind]. by rewrite bool_decide_false, bool_decide_true by set_solver.
Qed.
Definition literal (l : list bytes) : bool := bool_decide (bs "{id}" ∉ l).
Lemma capture_path p w : w ≠ [] → SLASH ∉ w → literal (split_byte SLASH (bs p)) = true →
  capture (split_byte SLASH (bs p) ++ [bs "{id}"]) (split_byte SLASH (bs p ++ SLASH :: w)) = Some [w].
Proof. intros Hw Hs Hp%bool_decide_eq_true. rewrite split_prefix, (split_byte_clean _ w) by done. apply capture_id; set_solver. Qed.
Lemma routed c : path_ok c → capture (pattern_of (route_of c)) (split_byte SLASH (path_of c)) = Some (args_of c).
Proof.
  destruct c; cbn [path_ok]; intros H; try reflexivity; try apply show_segment in H; destruct H as [H1 H2].
  - by apply (capture_path "/api/filters/lists").
  - by apply (capture_path "/api/filters/lists").
  - change (path_of (CRefreshList id)) with (bs "/api/filters/lists" ++ SLASH :: (show_dec id ++ SLASH :: bs "refresh")).
    rewrite split_prefix, split_byte_app by done.
    apply (capture_id (split_byte SLASH (bs "/api/filters/lists")) [bs "refresh"]); [done|apply (bool_decide_unpack (_ ∉ _)); exact I..].
  - by apply (capture_path "/api/clients").
  - by apply (capture_path "/api/clients").
Qed.
Lemma route_of_in c : route_of c ∈ routes ∧ accepts (rt_method (route_of c)) (method_of c) = true.
Proof. destruct c; (split; [|reflexivity]); apply (bool_decide_unpack (_ ∈ _)); vm_compute; exact I. Qed.

(** ** The description *)

Definition path_params (op : Operation) : list bytes :=
  omap (λ p, match p with PathParam n _ => Some (bs "{" ++ bs n ++ bs "}") | QueryParams _ => None end) (op_params op).
Definition schema_name (d : DocBody) : list string := match d with Schema n | SchemaArray n => [n] | Media _ => [] end.
Definition schemas_used (op : Operation) : list string :=
  option_list (op_request op) ++ mjoin ((λ '(_, d), schema_name d) <$> op_responses op).
(** Tag, schemas and path parameters of an operation are declared. *)
Definition well_described (op : Operation) : bool :=
  bool_decide (op_tag op ∈ doc_tags) && forallb (λ n, bool_decide (n ∈ doc_schemas)) (schemas_used op)
  && bool_decide (filter (λ s, s = bs "{id}") (split_byte SLASH (bs (op_path op))) = path_params op).
Definition described_route (e : Endpoint) : Method * string := (op_method (operation e), op_path (operation e)).
Definition table_entry (r : Route) : Method * string * Endpoint := (rt_method r, rt_path r, rt_endpoint r).
Lemma described_routes : ((λ e, (described_route e, e)) <$> doc_paths) ≡ₚ (table_entry <$> routes).
Proof. apply (bool_decide_unpack (_ ≡ₚ _)). vm_compute. exact I. Qed.
Lemma all_well_described e : e ∈ doc_paths ∧ well_described (operation e) = true.
Proof. destruct e; (split; [apply (bool_decide_unpack (_ ∈ _)); vm_compute; exact I|vm_refl]). Qed.

(** The router serves the description.  A request line is served by at most one route,
    whatever the priorities of the routes; the route of every request has its handler, its
    session requirement and captures the id of its path, from which the 32-bit id of a list
    is read back.  The description lists exactly the routes, each under its method and path;
    its tags, schemas and path parameters are declared. *)
Theorem router_serves_the_description c (H : path_ok c) :
  (∀ m path, length (candidates m path) ≤ 1)
  ∧ (∃ r, candidates (method_of c) (path_of c) = [(r, args_of c)]
      ∧ rt_endpoint r = endpoint_of c ∧ rt_protected r = negb (is_public c) ∧ rt_path r = op_path (operation (endpoint_of c)))
  ∧ (∀ id, in_u 32 id → parse_uint 32 (show_dec id) = Some id)
  ∧ ((λ e, (described_route e, e)) <$> doc_paths) ≡ₚ (table_entry <$> routes)
  ∧ (∀ e, e ∈ doc_paths ∧ well_described (operation e) = true).
Proof.
  assert (Hu : ∀ m path, length (candidates m path) ≤ 1) by (intros; apply conflict_free_unique, routes_conflict_free).
  split; [exact Hu|]. split; [|split; [apply parse_show_dec|split; [exact described_routes|exact all_well_described]]].
  exists (route_of c). split; [|done]. specialize (Hu (method_of c) (path_of c)). destruct (route_of_in c) as [Hin Hm].
  assert (Hc : (route_of c, args_of c) ∈ candidates (method_of c) (path_of c)).
  { apply list_elem_of_omap. exists (route_of c). split; [done|]. apply candidate_spec. split; [done|]. by apply routed. }
  destruct (candidates _ _) as [|x [|y l]]; [set_solver| |simpl in Hu; lia]. by apply list_elem_of_singleton in Hc as ->.
Qed.
Lemma router_serves_the_description_witness :
  path_ok (CRefreshList 7) ∧ ∃ r, candidates MPost (bs "/api/filters/lists/7/refresh") = [(r, [bs "7"])] ∧ rt_endpoint r = E_refresh_list.
Proof.
  assert (H : path_ok (CRefreshList 7)) by (split; reflexivity || discriminate). split; [exact H|].
  destruct (router_serves_the_description (CRefreshList 7) H) as (_ & (r & Hr & He & _) & _). exists r. split; [exact Hr|exact He].
Defined.

(** ** The replies *)

Definition error_doc (status : Z) : Z * DocBody := (status, Schema "ErrorResponse").
Definition public_endpoint (e : Endpoint) : bool := match e with E_status | E_setup | E_login | E_logout => true | _ => false end.
(** The replies the description leaves out: the refusal of the cross-origin check, that of the
    session check where only the success and the errors of the handler are declared, the
    internal errors, and the rejected configurations of three handlers. *)
Definition undescribed (e : Endpoint) : list (Z * DocBody) :=
  let op := operation e in
  (if safe_method (op_method op) then [] else [(403%Z, Media "text/plain; charset=utf-8")])
  ++ (if public_endpoint e || bool_decide (error_doc 401 ∈ op_responses op) then [] else [error_doc 401])
  ++ match e with
     | E_setup | E_add_list | E_refresh_list | E_get_querylog | E_clear_querylog | E_clear_upstream_log | E_export_upstream_log =>
         [error_doc 500]
     | E_update_list | E_delete_list | E_delete_client => [error_doc 400]
     | _ => []
     end.
Definition foreseen (e : Endpoint) (d : Z * DocBody) : bool := bool_decide (d ∈ op_responses (operation e) ++ undescribed e).
Definition task_endpoint (t : Task) : Endpoint :=
  match t with TSetup _ _ _ => E_setup | TAddList _ => E_add_list | TRefreshFetch _ | TRefreshCommit _ => E_refresh_list end.
Definition outcome_ok (e : Endpoint) (o : HandlerOutcome) : Prop :=
  match o with Done r => foreseen e (shape r) = true | Wait t => task_endpoint t = e end.
Definition progress_ok (e : Endpoint) (p : Progress) : Prop :=
  match p with Replied r => foreseen e (shape r) = true | Suspended p => task_endpoint (pn_task p) = e end.
Definition error_status (e : ApiError) : Z := rp_status (error_response e).

Section replies.
Context {DL : DnsLib} {DC : DnsCodec} {RX : RegexLib} {IL : IpNetLib} {US : UnstableSort} {HO : HashOrder}.
Context {L : LruLib QueryKey Entry} {CC : ConfigCodec} {SL : SessionLib} {PL : PasswordLib}.
Context (dhash : bytes → Z) (chash : list (bytes * Z * Action) → Z).
Context (make_transport : list SocketAddr → UpstreamSpec → result () UpstreamError).
Context {qsender psender qstore pstore : Type} {SO : StoreOps qstore pstore}.

Local Abbreviation App := (AppState (qsender:=qsender) (psender:=psender) (qstore:=qstore) (pstore:=pstore)).

Lemma error_shape e : shape (error_response e) = error_doc (error_status e).
Proof. by destruct e. Qed.
Lemma refuse_ok e (s s' : App) err o : refuse s err = Some (o, s') → foreseen e (error_doc (error_status err)) = true → outcome_ok e o.
Proof. intros [= <- <-] H. simpl. by rewrite error_shape. Qed.
Lemma reply_ok e (s s' : App) b o : reply s b = Some (o, s') → foreseen e (200%Z, schema_of b) = true → outcome_ok e o.
Proof. by intros [= <- <-]. Qed.
Lemma put_ok e env (s s' : App) cfg b o : put dhash chash make_transport env s cfg b = Some (o, s') →
  foreseen e (200%Z, schema_of b) = true → foreseen e (error_doc 400) = true → outcome_ok e o.
Proof.
  unfold put, done, commit. destruct (apply_config _ _ _ _ s cfg) as [[s1|err]|]; [| |done]; simpl; by intros [= <- <-].
Qed.
Lemma session_ok e env secure (s s' : App) o : (let! r := session_response env secure s in Some (Done r, s)) = Some (o, s') →
  foreseen e (200%Z, Schema "OkResponse") = true → outcome_ok e o.
Proof. unfold session_response. destruct (header_value _); [|done]. by intros [= <- <-]. Qed.

(** One of the lemmas above, with the description looked up. *)
Ltac foreseen H := (eapply put_ok in H || eapply refuse_ok in H || eapply reply_ok in H || eapply session_ok in H); [exact H|vm_refl..].

Lemma add_list_ok env b text (s s' : App) o :
  add_list_commit dhash chash make_transport env b text s = Some (o, s') → outcome_ok E_add_list o.
Proof. unfold add_list_commit. destruct (write_list_text _ _ _ _) as [[|e] fs]; intros H; foreseen H. Qed.
Lemma dispatch_ok env h c (s s' : App) o : dispatch dhash chash make_transport env h c s = Some (o, s') → outcome_ok (endpoint_of c) o.
Proof.
  destruct c; cbn [dispatch endpoint_of]; intros H; try (foreseen H).
  - unfold setup in H. repeat case_match; try (foreseen H). by injection H as <- <-.
  - unfold login in H. case_match; foreseen H.
  - unfold logout in H. destruct (header_value _); [|done]. by injection H as <- <-.
  - unfold add_custom_rule in H. repeat case_match; foreseen H.
  - unfold check_domain in H. destruct (es_filter _) as [dh f]. destruct (check _ _ _ _ _); [|done]. by injection H as <- <-.
  - unfold add_list_handler in H. destruct (nl_url _); [by injection H as <- <-|by eapply add_list_ok].
  - unfold update_list in H. case_match; foreseen H.
  - unfold delete_list in H. case_match; foreseen H.
  - unfold refresh_list in H. repeat case_match; try (foreseen H). by injection H as <- <-.
  - unfold post_client in H. case_match; [foreseen H|]. destruct (new_client_id _ _); [foreseen H|done].
  - unfold put_client in H. repeat case_match; foreseen H.
  - unfold delete_client in H. case_match; foreseen H.
  - unfold get_stats in H. destruct (stats_snapshot _ _ _); [foreseen H|done].
  - unfold get_querylog in H. destruct (store_query _ _ _ _ _) as [[page|e]|]; cbn [mbind option_bind] in H; [|foreseen H|done].
    destruct (views _ _ _); [foreseen H|done].
  - unfold clear_querylog in H. case_match; foreseen H.
  - unfold clear_upstream_log in H. case_match; foreseen H.
  - unfold export_upstream_log in H. case_match; foreseen H.
  - unfold test_upstream in H. case_match; [repeat case_match; foreseen H|foreseen H].
Qed.
Lemma fetch_error f e : fetch_list f = Err e → error_status e = 400%Z ∨ error_status e = 500%Z.
Proof.
  unfold fetch_list. destruct (ft_client f); [|intros [= <-]; by right].
  repeat (case_match; try discriminate); intros [= <-]; by left.
Qed.
Lemma resume_foreseen env f t (s s' : App) o : resume_task dhash chash make_transport env (fetch_list f) t s = Some (o, s') →
  outcome_ok (task_endpoint t) o.
Proof.
  assert (Hf : ∀ e (s0 : App), foreseen e (error_doc 400) = true → foreseen e (error_doc 500) = true →
            ∀ err, fetch_list f = Err err → refuse s0 err = Some (o, s') → outcome_ok e o).
  { intros e s0 H4 H5 err He%fetch_error Hr. eapply refuse_ok; [exact Hr|]. by destruct He as [->| ->]. }
  destruct t; cbn [resume_task task_endpoint]; intros H.
  - unfold setup_commit in H. destruct (apply_config _ _ _ _ _ _) as [[s1|e]|]; simpl in H; [foreseen H|foreseen H|done].
  - destruct (fetch_list f) eqn:E; [by eapply add_list_ok|]. by eapply (Hf E_add_list).
  - destruct (fetch_list f) as [text|] eqn:E; [|by eapply (Hf E_refresh_list)].
    unfold refresh_fetched in H. destruct (write_list_text _ _ _ _) as [[|e] fs]; [by injection H as <- <-|foreseen H].
  - foreseen H.
Qed.
Lemma finish_ok e env renew r (s' : App) p : (∀ o s1, r = Some (o, s1) → outcome_ok e o) →
  finish env renew r = Some (p, s') → progress_ok e p.
Proof.
  intros Hr. destruct r as [[o s1]|]; [|done]. specialize (Hr _ _ eq_refl). destruct o as [q|t]; simpl.
  - destruct renew as [secure|]; [|by intros [= <- <-]]. unfold renewed. destruct (header_value _); [|done]. by intros [= <- <-].
  - by intros [= <- <-].
Qed.

(** C36: every reply is foreseen.  Whatever the state, a request that is answered gets a reply
    whose status and body its operation declares or [undescribed] lists for it, and one that
    is suspended belongs to its own operation; when it goes on, with whatever the download of
    a list gave, the same holds of it. *)
Theorem replies_are_foreseen env h c f p (s s' : App) q :
  (api_request dhash chash make_transport env h c s = Some (q, s') → progress_ok (endpoint_of c) q)
  ∧ (api_resume dhash chash make_transport env (fetch_list f) p s = Some (q, s') → progress_ok (task_endpoint (pn_task p)) q).
Proof.
  split; [|apply finish_ok; eauto using resume_foreseen]. unfold api_request.
  destruct (cross_origin_allowed _ h) eqn:Eo; simpl.
  - destruct (is_public c) eqn:Ep; [apply finish_ok; eauto using dispatch_ok|].
    destruct (session_verdict env h s); [|apply finish_ok; eauto using dispatch_ok..].
    intros [= <- <-]. destruct c; discriminate Ep || (unfold progress_ok; vm_refl).
  - intros [= <- <-]. destruct c; discriminate Eo || (unfold progress_ok; vm_refl).
Qed.
End replies.

(** ** Replies the description leaves out *)

Definition shape_of {A} (o : option (Progress * A)) : option (Z * DocBody) :=
  match o with Some (Replied r, _) => Some (shape r) | _ => None end.
Definition documented (e : Endpoint) (d : Z * DocBody) : bool := bool_decide (d ∈ op_responses (operation e)).
Definition demo_api := api_request (DL:=small_dns) (HO:=key_order) (qsender:=list QueryLogEntry) (psender:=list ProbeEvent)
                         demo_hash pipe_chash demo_transport.
Definition demo_api_resume := api_resume (DL:=small_dns) (qsender:=list QueryLogEntry) (psender:=list ProbeEvent) (qstore:=unit) (pstore:=unit)
                                demo_hash pipe_chash demo_transport.
Definition broken_fetch : Fetch := {| ft_client := Ok (); ft_send := Err (bs "connection refused") |}.
Definition cross_site : HeaderMap := (bs "sec-fetch-site", bs "cross-site") :: demo_session.
Definition setup_pending : ApiPending := {| pn_task := TSetup false (bs "alice") (bs "hash"); pn_renew := None |}.
(** One of each kind: a request without a session, one from another site, the removal of a list
    and the first setup on a full disk. *)
Lemma undescribed_replies_happen :
  shape_of (demo_api (demo_env 5) [] (CPutCustomRules (bs "||x.com^")) demo_ready) = Some (error_doc 401)
  ∧ documented E_put_custom_rules (error_doc 401) = false
  ∧ shape_of (demo_api (demo_env 1000) cross_site CResetStats demo_ready) = Some (403%Z, Media "text/plain; charset=utf-8")
  ∧ documented E_reset_stats (403%Z, Media "text/plain; charset=utf-8") = false
  ∧ shape_of (demo_api full_disk_env demo_session (CDeleteList 1) demo_ready) = Some (error_doc 400)
  ∧ documented E_delete_list (error_doc 400) = false
  ∧ shape_of (demo_api_resume full_disk_env (fetch_list broken_fetch) setup_pending demo_ready) = Some (error_doc 500)
  ∧ documented E_setup (error_doc 500) = false.
Proof. split_and!; vm_refl. Qed.
(** The refresh of a list whose server cannot be reached is answered 400. *)
Definition refresh_pending : ApiPending := {| pn_task := TRefreshFetch 1; pn_renew := None |}.
Definition refused_refresh := demo_api_resume (demo_env 1001) (fetch_list broken_fetch) refresh_pending demo_ready.
Lemma replies_are_foreseen_witness : ∃ r s', refused_refresh = Some (Replied r, s') ∧ foreseen E_refresh_list (shape r) = true
  ∧ shape r = error_doc 400.
Proof.
  assert (H : shape_of refused_refresh = Some (error_doc 400)) by vm_refl.
  destruct refused_refresh as [[[r|p] s']|] eqn:E; [|discriminate H|discriminate H]. exists r, s'. split; [reflexivity|].
  split; [|exact (f_equal (default (error_doc 0)) H)].
  exact (proj2 (replies_are_foreseen demo_hash pipe_chash demo_transport (demo_env 1001) [] CStatus broken_fetch refresh_pending
    demo_ready s' (Replied r)) E).
Defined.
