(* ===== verification/Startup.v ===== *)
(** * server: startup and the background jobs ([main.rs], [persist.rs]).

    [startup] is [main] up to the listeners: the configuration is loaded, the environment
    overrides it, a signing secret is made when there is none, and the engine is built and
    seeded with the saved statistics and cache.  The batching of the two writers and the
    retention cutoffs follow. *)
From Stdlib Require Import Ascii.
From S2P Require Import Prelude RustStr RustNet RustFloat Rule Glob Parser ParserProps FilterEngine FilterEngineProps FilterSpec Compiler Wire Dns Clients Block QueryLog Cache Snapshot Stats Engine EngineInstances Spec ProbeLog Pool Config ConfigProps Auth App AppProps.

(** ** Background jobs *)

Definition QUERYLOG_CHANNEL_CAP : nat := 512.
Definition PROBE_CHANNEL_CAP : nat := 256.
Definition PROBE_DRAIN_BATCH : nat := 256.
(** [spawn_querylog_writer] and [spawn_probe_writer]: a batch is the first entry and what the
    channel holds, up to [cap]; the rest stays queued. *)
Definition drain_batch {A} (cap : nat) (queue : list A) : option (list A * list A) :=
  match queue with
  | [] => None
  | first :: queue => let n := max cap 2 in Some (first :: take (n - 1) queue, drop (n - 1) queue)
  end.
(** The pruners' cutoff: [None] when the retention is off. *)
Definition prune_cutoff (now_ms retention_days : Z) : option Z :=
  if (retention_days =? 0)%Z then None else Some (now_ms - retention_days * 86400000)%Z.

(** Draining until the channel is empty writes every entry once, in order. *)
Fixpoint drain_all {A} (cap fuel : nat) (queue : list A) : list (list A) :=
  match fuel with
  | 0 => []
  | S fuel => match drain_batch cap queue with
              | None => []
              | Some (batch, rest) => batch :: drain_all cap fuel rest
              end
  end.
Lemma drain_all_join {A} cap fuel (queue : list A) : length queue <= fuel →
  mjoin (drain_all cap fuel queue) = queue ∧ Forall (λ b, 0 < length b <= max cap 2) (drain_all cap fuel queue).
Proof.
  revert queue. induction fuel as [|fuel IH]; intros [|first queue] Hf; simpl in *; try lia; [by split; [|constructor]..|].
  destruct (IH (drop (max cap 2 - 1) queue)) as [Hj Hb]; [rewrite length_drop; lia|].
  change (mjoin (?b :: ?l)) with (b ++ mjoin l). rewrite Hj. simpl. rewrite take_drop. split; [done|].
  constructor; [|done]. simpl. rewrite length_take. lia.
Qed.

(** ** Startup *)

Inductive StartError : Type :=
| SeLoad (e : ConfigError)
| SeWrite (e : ConfigError)
| SeEngine (e : AppError).
(** What startup finds and draws. *)
Record StartEnv : Type := {
  sn_dns_bind : option bytes; sn_http_bind : option bytes; sn_random : bytes; sn_save_ok : bool; sn_draw : nat → Draw;
  sn_stats : option bytes; sn_cache : option bytes; sn_first_instant : Z; sn_unix : Z; sn_now : Z;
}.
Definition with_secret (secret : bytes) (c : Config) : Config :=
  {| cf_version := cf_version c; cf_server := cf_server c; cf_upstreams := cf_upstreams c; cf_cache := cf_cache c;
     cf_filtering := cf_filtering c; cf_clients := cf_clients c; cf_query_log := cf_query_log c;
     cf_upstream_log := cf_upstream_log c; cf_stats := cf_stats c; cf_privacy := cf_privacy c;
     cf_auth := {| au_username := au_username (cf_auth c); au_password_hash := au_password_hash (cf_auth c);
                   au_session_secret := Some secret |} |}.

Section startup.
Context {DL : DnsLib} {DC : DnsCodec} {RX : RegexLib} {IL : IpNetLib} {US : UnstableSort} {HO : HashOrder}.
Context {L : LruLib QueryKey Entry} (khash : QueryKey → Z) {CC : ConfigCodec} {SL : SessionLib}.
Context (dhash : bytes → Z) (chash : list (bytes * Z * Action) → Z) (parallelism : option Z).
Context (make_transport : list SocketAddr → UpstreamSpec → result () UpstreamError).
Context (to_json : StatsInner → option bytes) (from_json : bytes → option StatsInner).
Context {qsender psender qstore pstore : Type}.

Local Notation App := (AppState (qsender:=qsender) (psender:=psender) (qstore:=qstore) (pstore:=pstore)).

(** [load_stats], [snapshot_stats_now], [load_cache], [snapshot_cache_to]. *)
Definition load_stats (text : option bytes) (g : AppEngine (qsender:=qsender)) : AppEngine :=
  match text with
  | None => g
  | Some text =>
      let '(counters, st) := stats_import from_json (eg_stats g) text in
      {| eg_state := eg_state g; eg_cache := seed_counters counters (eg_cache g); eg_log := eg_log g; eg_stats := st |}
  end.
Definition snapshot_stats (g : AppEngine (qsender:=qsender)) : bytes := stats_export to_json (eg_stats g) (dc_counters (eg_cache g)).
Definition load_cache (first_instant unix now : Z) (blob : option bytes) (g : AppEngine (qsender:=qsender)) : option AppEngine :=
  match blob with
  | None => Some g
  | Some blob => let! (_, c) := import_snapshot khash first_instant unix now (eg_cache g) blob in Some (with_engine_cache c g)
  end.
Definition snapshot_cache (unix now : Z) (g : AppEngine (qsender:=qsender)) : option bytes :=
  if cf_enabled (dc_cfg (eg_cache g)) then Some (export_snapshot unix now (eg_cache g)) else None.

(** The configuration [main] runs on, and the file after it. *)
Definition start_config (env : StartEnv) (fs : Files) : result (Config * bytes * Files) StartError :=
  match load_or_default (Some <$> fs_config fs) with
  | Err e => Err (SeLoad e)
  | Ok config =>
      let config := apply_env_overrides (sn_dns_bind env) (sn_http_bind env) config in
      let secret := default (generate_secret (sn_random env)) (au_session_secret (cf_auth config)) in
      let needs_save := bool_decide (fs_config fs = None) || bool_decide (au_session_secret (cf_auth config) = None) in
      let config := with_secret secret config in
      if needs_save then
        match save_config config (sn_save_ok env) with
        | Err e => Err (SeWrite e)
        | Ok text => Ok (config, secret, {| fs_config := Some text; fs_lists := fs_lists fs |})
        end
      else Ok (config, secret, fs)
  end.
(** [main] up to the stores: the configuration, its secret, the files and the loaded engine. *)
Definition boot (env : StartEnv) (fs : Files) : option (result (Config * bytes * Files * AppEngine (qsender:=qsender)) StartError) :=
  match start_config env fs with
  | Err e => Some (Err e)
  | Ok (config, secret, fs) =>
      let! g := build_engine dhash chash parallelism make_transport (sn_draw env) config fs in
      match g with
      | Err e => Some (Err (SeEngine e))
      | Ok g =>
          let g := if stc_persist (cf_stats config) then load_stats (sn_stats env) g else g in
          let! g := load_cache (sn_first_instant env) (sn_unix env) (sn_now env) (sn_cache env) g in
          Some (Ok (config, secret, fs, g))
      end
  end.
(** The state [main] puts together; the senders of the writers' channels are wired in. *)
Definition assemble (qtx : qsender) (ptx : psender) (qs : qstore) (ps : pstore) (b : Config * bytes * Files * AppEngine (qsender:=qsender))
  : App :=
  let '(config, secret, fs, g) := b in
  {| as_engine := {| eg_state := eg_state g; eg_cache := eg_cache g; eg_log := set_sink qtx (eg_log g); eg_stats := eg_stats g |};
     as_config := config; as_files := fs; as_sessions := signer_new secret SESSION_TTL_SECS;
     as_probe_log := probelog_set_sink ptx (probelog_new (ulc_enabled (cf_upstream_log config)));
     as_store := qs; as_probe_store := ps |}.
(** [main] up to the listeners, with stores that opened. *)
Definition startup (env : StartEnv) (qtx : qsender) (ptx : psender) (qs : qstore) (ps : pstore) (fs : Files)
  : option (result App StartError) :=
  let! r := boot env fs in
  Some match r with Err e => Err e | Ok b => Ok (assemble qtx ptx qs ps b) end.
End startup.
