(* ===== verification/StartupProps.v ===== *)
(** * A restart resumes the server: what it saved is what it starts with. *)
From Stdlib Require Import Ascii.
From S2P Require Import Prelude RustStr RustNet RustFloat Rule Glob Parser ParserProps Instances FilterEngine FilterEngineProps FilterSpec Compiler Wire Dns DnsInstances Clients Block QueryLog Cache CacheProps Snapshot SnapshotProps Stats StatsProps Engine EngineInstances EngineSafety Spec ProbeLog Pool Config ConfigProps Auth Http Dto App AppProps AppInstances Api ApiProps ApiInstances Startup.

Section restart.
Context {DL : DnsLib} {DC : DnsCodec} {RX : RegexLib} {IL : IpNetLib} {US : UnstableSort} {HO : HashOrder}.
Context {L : LruLib QueryKey Entry} {LL : LruLaws L} (khash : QueryKey → Z) {CC : ConfigCodec} {CL : ConfigCodecLaws CC} {SL : SessionLib}.
Context (dhash : bytes → Z) (chash : list (bytes * Z * Action) → Z) (parallelism : option Z).
Context (make_transport : list SocketAddr → UpstreamSpec → result () UpstreamError).
Context (from_json : bytes → option StatsInner).
Context {qsender psender qstore pstore : Type}.

Local Notation App := (AppState (qsender:=qsender) (psender:=psender) (qstore:=qstore) (pstore:=pstore)).
Local Notation start := (startup khash dhash chash parallelism make_transport from_json
                           (qsender:=qsender) (psender:=psender) (qstore:=qstore) (pstore:=pstore)).
Local Notation boots := (boot khash dhash chash parallelism make_transport from_json (qsender:=qsender)).

Lemma put_entry_cfg c k e c' : put_entry khash c k e = Some c' → dc_cfg c' = dc_cfg c ∧ dc_counters c' = dc_counters c ∧ dc_capacity c' = dc_capacity c.
Proof. unfold put_entry. destruct (dc_shards c !! _); [|done]. by intros [= <-]. Qed.
Lemma import_loop_cfg fi now el st n r m c m' c' : import_loop khash fi now el st n r m c = Some (m', c') →
  dc_cfg c' = dc_cfg c ∧ dc_counters c' = dc_counters c ∧ dc_capacity c' = dc_capacity c.
Proof.
  revert r m c. induction n as [|n IH]; intros r m c; simpl; [by intros [= _ <-]|].
  destruct (read_record r) as [[p r']|]; [|by intros [= _ <-]]. destruct (restore_entry fi now el st p) as [[k e]|]; [|apply IH].
  destruct (put_entry khash c k e) as [c1|] eqn:E; [|done]. simpl. intros (-> & -> & ->)%IH. by eapply put_entry_cfg.
Qed.
Lemma import_cfg fi unix now c data n c' : import_snapshot khash fi unix now c data = Some (n, c') →
  dc_cfg c' = dc_cfg c ∧ dc_counters c' = dc_counters c ∧ dc_capacity c' = dc_capacity c.
Proof. unfold import_snapshot. repeat case_match; intros ?; simplify_eq; try done. by eapply import_loop_cfg. Qed.

(** The cache a configuration builds is well formed. *)
Lemma built_cache_wf cfg : (0 <= cg_min_ttl_secs (cf_cache cfg))%Z → (0 <= cg_max_ttl_secs (cf_cache cfg))%Z →
  cache_wf khash (λ _, True) (reconfigure_cache cfg
    (cache_new parallelism (Z.to_nat (cg_size (cf_cache cfg))) (cg_min_ttl_secs (cf_cache cfg)) (cg_max_ttl_secs (cf_cache cfg))
       (cg_optimistic_max_age_secs (cf_cache cfg)))).
Proof. intros H1 H2. apply inv_store_summaries, inv_reconfigure; [done..|]. by apply cache_new_inv. Qed.
Lemma load_stats_keeps text (g : AppEngine (qsender:=qsender)) : let g' := load_stats from_json text g in
  eg_state g' = eg_state g ∧ dc_cfg (eg_cache g') = dc_cfg (eg_cache g) ∧ eg_log g' = eg_log g
  ∧ st_enabled (eg_stats g') = st_enabled (eg_stats g) ∧ st_anonymize (eg_stats g') = st_anonymize (eg_stats g)
  ∧ (cache_wf khash (λ _, True) (eg_cache g) → cache_wf khash (λ _, True) (eg_cache g'))
  ∧ dc_capacity (eg_cache g') = dc_capacity (eg_cache g) ∧ st_max_buckets (eg_stats g') = st_max_buckets (eg_stats g).
Proof.
  destruct text as [text|]; [|done]. simpl. unfold stats_import. destruct (from_json text); simpl; split_and!; try done; apply inv_counters.
Qed.
Lemma load_cache_total fi unix now blob (g : AppEngine (qsender:=qsender)) : cache_wf khash (λ _, True) (eg_cache g) →
  ∃ g', load_cache khash fi unix now blob g = Some g' ∧ eg_state g' = eg_state g
    ∧ dc_cfg (eg_cache g') = dc_cfg (eg_cache g) ∧ eg_log g' = eg_log g ∧ eg_stats g' = eg_stats g
    ∧ dc_counters (eg_cache g') = dc_counters (eg_cache g) ∧ dc_capacity (eg_cache g') = dc_capacity (eg_cache g).
Proof.
  intros Hw. destruct blob as [blob|]; [|by exists g].
  destruct (import_snapshot_ok khash (λ _, True) fi unix now (eg_cache g) blob) as (n & c' & Hi & _); [done..|].
  simpl. rewrite Hi. simpl. eexists. split; [done|]. simpl. apply import_cfg in Hi as (-> & -> & ->). by split_and!.
Qed.

Lemma stats_new_shards p en days anon : st_shards (stats_new p en days anon) ≠ [].
Proof. exact (stats_shards_ne _ (stats_new_ok p en days anon)). Qed.

(** A saved configuration is the one startup runs on. *)
Lemma start_config_saved B env (s : App) secret : consistent dhash chash make_transport B s →
  au_session_secret (cf_auth (as_config s)) = Some secret → sn_dns_bind env = None → sn_http_bind env = None →
  start_config env (as_files s) = Ok (as_config s, secret, as_files s).
Proof.
  intros [_ (text & Ht & Hl) _ _] Hs Hd Hh. unfold start_config. rewrite Ht. cbn [fmap option_fmap option_map]. rewrite Hl.
  unfold apply_env_overrides. rewrite Hd, Hh. simpl. rewrite Hs. simpl.
  f_equal. f_equal. f_equal. unfold with_secret. rewrite <- Hs. by destruct (as_config s) as [??????????[]].
Qed.

(** The engine a start ends with: one built from the configuration, with the saved statistics
    and cache loaded. *)
Definition loaded_from (env : StartEnv) (cfg : Config) (g : AppEngine (qsender:=qsender)) : Prop :=
  ∃ g0 : AppEngine (qsender:=qsender), st_shards (eg_stats g0) ≠ [] ∧
    let g1 := if stc_persist (cf_stats cfg) then load_stats from_json (sn_stats env) g0 else g0 in
    eg_stats g = eg_stats g1 ∧ dc_counters (eg_cache g) = dc_counters (eg_cache g1).
Lemma restart_spec `{!RegexLaws RX} `{!GlobLaws RX} B env (s : App) secret :
  consistent dhash chash make_transport B s →
  au_session_secret (cf_auth (as_config s)) = Some secret → as_sessions s = signer_new secret SESSION_TTL_SECS →
  sn_dns_bind env = None → sn_http_bind env = None → lists_fit (as_config s) (as_files s) →
  (0 <= cg_min_ttl_secs (cf_cache (as_config s)))%Z → (0 <= cg_max_ttl_secs (cf_cache (as_config s)))%Z →
  (∃ e, boots env (as_files s) = Some (Err (SeEngine (AePool e)))) ∨
  (∃ b, boots env (as_files s) = Some (Ok b) ∧ ∀ qtx ptx (qs : qstore) (ps : pstore), let s' : App := assemble qtx ptx qs ps b in
    as_config s' = as_config s ∧ as_files s' = as_files s ∧ as_sessions s' = as_sessions s
    ∧ runs_on dhash chash make_transport (as_config s') (as_files s') s'
    ∧ loaded_from env (as_config s) (as_engine s')).
Proof.
  intros Hs Hsec Hsig Hd Hh Hf H1 H2. unfold boot. rewrite (start_config_saved B env s secret) by done.
  destruct (compile_fits dhash chash (as_config s) (as_files s) Hf) as (f & counts & Hc & _).
  unfold build_engine, build_engine_state. rewrite Hc. cbn [mbind option_bind].
  destruct (build_pool _ _ _ _) as [p|e] eqn:Ep; cbn [result_bind].
  2:{ left. unfold build_pool in Ep. destruct (pool_build _ _ _); [done|]. injection Ep as <-. eauto. }
  right. apply build_pool_ok in Ep as [Eu Es].
  match goal with |- context [load_stats from_json (sn_stats env) ?g] => set (g0 := g) end.
  assert (Hg : let g' := if stc_persist (cf_stats (as_config s)) then load_stats from_json (sn_stats env) g0 else g0 in
    eg_state g' = eg_state g0 ∧ dc_cfg (eg_cache g') = dc_cfg (eg_cache g0) ∧ eg_log g' = eg_log g0
    ∧ st_enabled (eg_stats g') = st_enabled (eg_stats g0) ∧ st_anonymize (eg_stats g') = st_anonymize (eg_stats g0)
    ∧ cache_wf khash (λ _, True) (eg_cache g')
    ∧ dc_capacity (eg_cache g') = dc_capacity (eg_cache g0) ∧ st_max_buckets (eg_stats g') = st_max_buckets (eg_stats g0)).
  { assert (Hw : cache_wf khash (λ _, True) (eg_cache g0)) by (by apply built_cache_wf).
    destruct (load_stats_keeps (sn_stats env) g0) as (K1 & K2 & K3 & K4 & K5 & K6 & K7 & K8). cbn zeta.
    destruct (stc_persist _); split_and!; try done. by apply K6. }
  assert (Hne : st_shards (eg_stats g0) ≠ []) by apply stats_new_shards.
  cbn zeta in Hg. revert Hg.
  remember (if stc_persist (cf_stats (as_config s)) then load_stats from_json (sn_stats env) g0 else g0) as g1 eqn:Eg1.
  intros (K1 & K2 & K3 & K4 & K5 & Hw & K7 & K8).
  destruct (load_cache_total (sn_first_instant env) (sn_unix env) (sn_now env) (sn_cache env) g1 Hw) as (g2 & -> & J1 & J2 & J3 & J4 & J5 & J6).
  cbn [mbind option_bind]. eexists. split; [done|]. intros qtx ptx qs ps. cbn [assemble as_config as_files as_sessions]. split; [done|]. split; [done|]. split; [by rewrite Hsig|]. split.
  2:{ exists g0. split; [exact Hne|]. cbn zeta. rewrite <- Eg1. cbn [as_engine eg_stats eg_cache]. by rewrite J4, J5. }
  constructor; cbn [as_engine as_probe_log eg_state eg_cache eg_log eg_stats]; rewrite ?J1, ?J2, ?J3, ?J4, ?J6, ?K1, ?K2, ?K3, ?K4, ?K5, ?K7, ?K8; try done.
  - by exists counts.
  - unfold g0. cbn [eg_cache]. unfold reconfigure_cache, cache_reconfigure. by destruct (cg_enabled _).
  - unfold g0. cbn [eg_cache]. unfold reconfigure_cache, cache_reconfigure. by destruct (cg_enabled _).
Qed.

(** A restart resumes the server.  Starting from the files of a consistent server, with
    no override in the environment, never panics; it fails only if an upstream cannot be
    set up, and otherwise runs on the same configuration, with an engine built from it, and
    accepts the sessions issued before. *)
Theorem restart_resumes `{!RegexLaws RX} `{!GlobLaws RX} B env qtx ptx qs ps (s : App) secret :
  consistent dhash chash make_transport B s →
  au_session_secret (cf_auth (as_config s)) = Some secret → as_sessions s = signer_new secret SESSION_TTL_SECS →
  sn_dns_bind env = None → sn_http_bind env = None → lists_fit (as_config s) (as_files s) →
  (0 <= cg_min_ttl_secs (cf_cache (as_config s)))%Z → (0 <= cg_max_ttl_secs (cf_cache (as_config s)))%Z →
  (∃ e, start env qtx ptx qs ps (as_files s) = Some (Err (SeEngine (AePool e)))) ∨
  (∃ s', start env qtx ptx qs ps (as_files s) = Some (Ok s')
    ∧ as_config s' = as_config s ∧ as_files s' = as_files s ∧ as_sessions s' = as_sessions s
    ∧ runs_on dhash chash make_transport (as_config s') (as_files s') s').
Proof.
  intros Hs Hsec Hsig Hd Hh Hf H1 H2.
  unfold startup. destruct (restart_spec B env s secret Hs Hsec Hsig Hd Hh Hf H1 H2) as [[e ->]|(b & -> & Hb)]; [left; by exists e|].
  right. destruct (Hb qtx ptx qs ps) as (Hc & Hfs & Hss & Hr & _). eexists. by split_and!.
Qed.

(** An override of the environment is written to the configuration file whenever startup
    saves it, as it does on the first run. *)
Lemma override_persisted env fs addr cfg secret fs' : fs_config fs = None → sn_dns_bind env ≫= parse_socket_addr = Some addr →
  start_config env fs = Ok (cfg, secret, fs') →
  ∃ text, fs_config fs' = Some text ∧ config_from_yaml text = Some cfg ∧ sc_dns_bind (cf_server cfg) = [addr].
Proof.
  intros Hf Ha. unfold start_config. rewrite Hf. cbn [fmap option_fmap option_map load_or_default].
  unfold apply_env_overrides. rewrite Ha. set (c0 := with_server _ config_default).
  set (c1 := match _ with Some _ => _ | None => c0 end).
  assert (H1 : sc_dns_bind (cf_server c1) = [addr]) by (unfold c1; by case_match). clearbody c1.
  rewrite bool_decide_true by done. cbn [orb]. unfold save_config. destruct (config_to_yaml _) as [text|] eqn:Et; [|done].
  cbn [ok_or result_bind]. destruct (sn_save_ok env); [|done]. intros [= <- <- <-]. exists text. split_and!; [done| |done].
  by apply yaml_roundtrip.
Qed.
End restart.

Definition demo_start : StartEnv :=
  {| sn_dns_bind := None; sn_http_bind := None; sn_random := []; sn_save_ok := true; sn_draw := demo_draw; sn_stats := None;
     sn_cache := Some []; sn_first_instant := 0; sn_unix := 1000; sn_now := 0 |}.
Definition demo_restart := startup (qsender:=list QueryLogEntry) (psender:=list ProbeEvent) (qstore:=unit) (pstore:=unit)
                             sample_hash demo_hash pipe_chash (Some 2%Z) demo_transport (λ _, None) demo_start [] [] () ().
Lemma restart_resumes_witness :
  consistent demo_hash pipe_chash demo_transport 1 demo_ready ∧
  ∃ s', demo_restart (as_files demo_ready) = Some (Ok s') ∧ as_config s' = as_config demo_ready
    ∧ as_sessions s' = as_sessions demo_ready ∧ runs_on demo_hash pipe_chash demo_transport (as_config s') (as_files s') s'.
Proof.
  split; [exact demo_ready_consistent|].
  assert (Hf : lists_fit (as_config demo_ready) (as_files demo_ready)).
  { split; [vm_compute; repeat constructor|]. apply fits_engine_ok. vm_compute. reflexivity. }
  destruct (restart_resumes sample_hash demo_hash pipe_chash (Some 2%Z) demo_transport (λ _, None) 1 demo_start
    ([] : list QueryLogEntry) ([] : list ProbeEvent) () () demo_ready (bs "6b")) as [[e He]|(s' & E & H1 & _ & H3 & H4)].
  - exact demo_ready_consistent.
  - vm_compute. reflexivity.
  - vm_compute. reflexivity.
  - reflexivity.
  - reflexivity.
  - exact Hf.
  - vm_compute. discriminate.
  - vm_compute. discriminate.
  - exfalso. assert (Ha : applied (demo_restart (as_files demo_ready)) = true) by (vm_compute; reflexivity).
    unfold demo_restart in Ha. rewrite He in Ha. discriminate Ha.
  - exists s'. auto.
Defined.
