(* ===== verification/Server.v ===== *)
(** * The running server: DNS traffic, background refreshes and API requests on one state.

    [App] holds the engine that the listeners use and that a reload replaces.  Here the
    packets of clients, the answers of the pool, the refresh tasks, the writes of the pool's
    health and the requests to the API are events on that state, in any order.  The pool's
    answers and health are arbitrary; [Pool] and [PoolProps] say what they are. *)
From Stdlib Require Import Ascii.
From S2P Require Import Prelude RustStr RustNet RustFloat Rule Glob Parser ParserProps FilterEngine FilterEngineProps FilterSpec Compiler Wire Dns Clients Block QueryLog Cache CacheProps Snapshot SnapshotProps Stats StatsProps Engine EngineText EngineProps EngineInstances EngineSafety Spec ProbeLog Pool Config ConfigProps Auth Http Dto App AppProps Api ApiProps.

Section server.
Context {DL : DnsLib} {DC : DnsCodec} {RX : RegexLib} {IL : IpNetLib} {US : UnstableSort} {HO : HashOrder}.
Context {L : LruLib QueryKey Entry} (khash : QueryKey → Z) {CC : ConfigCodec} {SL : SessionLib} {PL : PasswordLib}.
Context (dhash : bytes → Z) (chash : list (bytes * Z * Action) → Z).
Context (make_transport : list SocketAddr → UpstreamSpec → result () UpstreamError).
Context {qsender psender qstore pstore : Type} {SO : StoreOps qstore pstore}.
Context (try_send : qsender → QueryLogEntry → option qsender).

Local Abbreviation App := (AppState (qsender:=qsender) (psender:=psender) (qstore:=qstore) (pstore:=pstore)).
Local Abbreviation AppEngine := (AppEngine (qsender:=qsender)).
Local Abbreviation Query := (Engine.Pending (F:=Filter) (pool:=Pool)).
Local Abbreviation Task := (Engine.Refresh (F:=Filter)).

(** The state with everything that is suspended: API requests, queries at the pool, CNAME
    rewrites at the pool, refresh tasks. *)
Record Server : Type := {
  sv_app : App;
  sv_requests : list (option ApiPending);
  sv_queries : list Query;
  sv_cnames : list PendingCname;
  sv_refreshes : list Task;
}.
Inductive ServerEvent : Type :=
| EvApi (e : ApiEvent)
| EvPacket (env : Env) (cname_id : Z) (packet : bytes) (client : ip_addr)
| EvAnswer (n : nat) (env : Env) (res : result Resolved bytes)
| EvCname (n : nat) (env : Env) (res : result Resolved bytes)
| EvRefresh (n : nat) (env : Env) (res : result Resolved bytes)
| EvPool (health : list Health) (leader : option nat).

Definition set_engine (g : AppEngine) (y : Server) : Server :=
  {| sv_app := with_engine g (sv_app y); sv_requests := sv_requests y; sv_queries := sv_queries y;
     sv_cnames := sv_cnames y; sv_refreshes := sv_refreshes y |}.
Definition set_queries (qs : list Query) (y : Server) : Server :=
  {| sv_app := sv_app y; sv_requests := sv_requests y; sv_queries := qs; sv_cnames := sv_cnames y;
     sv_refreshes := sv_refreshes y |}.
Definition set_cnames (cs : list PendingCname) (y : Server) : Server :=
  {| sv_app := sv_app y; sv_requests := sv_requests y; sv_queries := sv_queries y; sv_cnames := cs;
     sv_refreshes := sv_refreshes y |}.
Definition set_refreshes (ts : list Task) (y : Server) : Server :=
  {| sv_app := sv_app y; sv_requests := sv_requests y; sv_queries := sv_queries y; sv_cnames := sv_cnames y;
     sv_refreshes := ts |}.
(** The pool's tasks write through the pool of the state in force. *)
Definition with_pool_health (hs : list Health) (leader : option nat) (g : AppEngine) : AppEngine :=
  let st := eg_state g in
  swap_state {| es_filter := es_filter st; es_pool := set_leader leader (set_health hs (es_pool st));
                es_clients := es_clients st; es_filtering_enabled := es_filtering_enabled st;
                es_blocking_mode := es_blocking_mode st; es_block_v4 := es_block_v4 st; es_block_v6 := es_block_v6 st;
                es_blocked_ttl := es_blocked_ttl st |} g.

(** One event; the result carries the DNS response that is sent, [None] is a panic.  A packet
    that does not parse and an event for something that is not suspended change nothing. *)
Definition server_step (y : Server) (e : ServerEvent) : option (option EngineResponse * Server) :=
  let g := as_engine (sv_app y) in
  match e with
  | EvApi e =>
      let! a := api_step dhash chash make_transport {| sy_app := sv_app y; sy_pending := sv_requests y |} e in
      Some (None, {| sv_app := sy_app a; sv_requests := sy_pending a; sv_queries := sv_queries y; sv_cnames := sv_cnames y;
                     sv_refreshes := sv_refreshes y |})
  | EvPacket env cname_id packet client =>
      match ingress_parse packet with
      | None => Some (None, y)
      | Some ingress =>
          let! (r, g) := handle khash try_send g env cname_id ingress client in
          let y := set_engine g y in
          Some match r with
               | HrDone resp task => (Some resp, set_refreshes (sv_refreshes y ++ option_list task) y)
               | HrUpstream p => (None, set_queries (p :: sv_queries y) y)
               | HrCname p => (None, set_cnames (p :: sv_cnames y) y)
               end
      end
  | EvAnswer n env res =>
      match sv_queries y !! n with
      | None => Some (None, y)
      | Some p =>
          let! (resp, g) := resume khash try_send g env p res in
          Some (Some resp, set_queries (delete n (sv_queries y)) (set_engine g y))
      end
  | EvCname n env res =>
      match sv_cnames y !! n with
      | None => Some (None, y)
      | Some p =>
          let! (resp, g) := resume_cname try_send g env p res in
          Some (Some resp, set_cnames (delete n (sv_cnames y)) (set_engine g y))
      end
  | EvRefresh n env res =>
      match sv_refreshes y !! n with
      | None => Some (None, y)
      | Some t =>
          let! g := run_refresh khash g env t res in
          Some (None, set_refreshes (delete n (sv_refreshes y)) (set_engine g y))
      end
  | EvPool hs leader => Some (None, set_engine (with_pool_health hs leader g) y)
  end.
Fixpoint server_run (y : Server) (es : list ServerEvent) : option Server :=
  match es with
  | [] => Some y
  | e :: es => let! (_, y) := server_step y e in server_run y es
  end.

End server.
