(* ===== verification/ServerProps.v ===== *)
(** * Properties of the running server: DNS traffic never disturbs the configuration, reloads
    never disturb DNS traffic. *)
From Stdlib Require Import Ascii.
From S2P Require Import Prelude RustStr RustNet RustFloat Rule Glob Parser ParserProps FilterEngine FilterEngineProps FilterSpec Compiler Wire Dns Clients Block QueryLog Cache CacheProps Snapshot SnapshotProps Stats StatsProps Engine EngineText EngineProps EngineInstances EngineSafety Spec ProbeLog Pool Config ConfigProps Auth Http Dto App AppProps Api ApiProps Server.

(** ** The pipeline keeps the settings *)

Section settings.
Context {DL : DnsLib} {DC : DnsCodec} {IL : IpNetLib} {HO : HashOrder} {L : LruLib QueryKey Entry} (khash : QueryKey → Z).
Context {sender : Type} (try_send : sender → QueryLogEntry → option sender).
Context {F : Type} {FO : FilterOps F} {pool : Type}.
Local Abbreviation Engine := (Engine (sender:=sender) (F:=F) (pool:=pool)).

(** What a configuration fixes of an engine. *)
Definition cache_settings (c : DnsCache) := (dc_cfg c, dc_capacity c).
Definition stat_settings (s : Stats) := (st_enabled s, st_anonymize s, st_max_buckets s).
Definition settings (g : Engine) :=
  (eg_state g, cache_settings (eg_cache g), (ql_enabled (eg_log g), ql_anonymize (eg_log g)), stat_settings (eg_stats g)).

Lemma log_push_settings (l : QueryLog (sender:=sender)) e :
  ql_enabled (log_push try_send l e) = ql_enabled l ∧ ql_anonymize (log_push try_send l e) = ql_anonymize l.
Proof. unfold log_push. repeat case_match; done. Qed.
Lemma stats_record_settings s slot e rtt s' : stats_record s slot e rtt = Some s' →
  stat_settings s' = stat_settings s.
Proof. unfold stats_record. destruct (negb _); intros H; by inv_some. Qed.
Lemma cache_get_settings now c key id r c' : cache_get khash now c key id = Some (r, c') → cache_settings c' = cache_settings c.
Proof.
  unfold cache_get. destruct (negb _); [by intros [= _ <-]|]. destruct (dc_shards c !! _); [|done]. cbn [mbind option_bind].
  destruct (lru_get _ _) as [[e|] sh]; [|by intros [= _ <-]]. repeat case_match; by intros [= _ <-].
Qed.
Lemma cache_insert_settings now c key m v r c' : cache_insert khash now c key m v = Some (r, c') → cache_settings c' = cache_settings c.
Proof.
  unfold cache_insert, put_entry. destruct (negb _); [by intros [= _ <-]|]. destruct (cacheable_ttl _ _); [|by intros [= _ <-]].
  destruct (store_message _ _). intros H. by inv_some.
Qed.
Lemma with_cache_settings c (g : Engine) : cache_settings c = cache_settings (eg_cache g) → settings (with_engine_cache c g) = settings g.
Proof. unfold settings. simpl. by intros ->. Qed.

Lemma record_settings (g : Engine) env log a rc an g' : engine_record try_send g env log a rc an = Some g' → settings g' = settings g.
Proof.
  unfold engine_record. destruct (negb _ && negb _); [by intros [= <-]|]. intros H.
  destruct (if st_enabled (eg_stats g) then _ else _) as [s|] eqn:E; [|done]. cbn [mbind option_bind] in H. injection H as <-.
  assert (Hs : stat_settings s = stat_settings (eg_stats g)).
  { destruct (st_enabled (eg_stats g)) eqn:Es; [|by injection E as <-]. by apply stats_record_settings in E. }
  unfold settings. cbn [eg_state eg_cache eg_log eg_stats]. rewrite Hs. destruct (ql_enabled (eg_log g)) eqn:El; [|by rewrite El].
  match goal with |- context [log_push try_send (eg_log g) ?e] => destruct (log_push_settings (eg_log g) e) as [-> ->] end. by rewrite El.
Qed.
Lemma finalize_settings (g : Engine) env m a l r g' : finalize try_send g env m a l = Some (r, g') → settings g' = settings g.
Proof. unfold finalize. destruct (engine_record _ _ _ _ _ _ _) eqn:E; [|done]. intros [= _ <-]. by eapply record_settings. Qed.
Lemma finalize_wire_settings (g : Engine) env b rc an a l r g' :
  finalize_wire try_send g env b rc an a l = Some (r, g') → settings g' = settings g.
Proof. unfold finalize_wire. destruct (engine_record _ _ _ _ _ _ _) eqn:E; [|done]. intros [= _ <-]. by eapply record_settings. Qed.
Lemma done_settings (g : Engine) env m a l (r : HandleResult) g' :
  hr_done <$> finalize try_send g env m a l = Some (r, g') → settings g' = settings g.
Proof. destruct (finalize _ _ _ _ _ _) as [[r0 g0]|] eqn:E; [|done]. intros [= _ <-]. by eapply finalize_settings. Qed.
Lemma maybe_refresh_settings f (g : Engine) st memo lz key : settings (maybe_refresh f g st memo lz key).2 = settings g.
Proof. unfold maybe_refresh. by destruct (requires_refresh f). Qed.

Lemma handle_hit_settings (g : Engine) env st client id lz key log hit r g' :
  handle_hit try_send g env st client id lz key log hit = Some (r, g') → settings g' = settings g.
Proof.
  unfold handle_hit. destruct (hit_block _ _ _) as [[info|]|]; [| |done]; cbn [mbind option_bind].
  - destruct (lazy_into_message lz) as [q|]; [|apply done_settings].
    match goal with |- context [maybe_refresh ?f ?g ?s ?m ?l ?k] =>
      pose proof (maybe_refresh_settings f g s m l k) as Hm; destruct (maybe_refresh f g s m l k) as [t g1] end.
    destruct (finalize _ _ _ _ _ _) as [[r0 g0]|] eqn:E; [|done]. intros [= _ <-]. apply finalize_settings in E. by rewrite E.
  - match goal with |- context [maybe_refresh ?f ?g ?s ?m ?l ?k] =>
      pose proof (maybe_refresh_settings f g s m l k) as Hm; destruct (maybe_refresh f g s m l k) as [t g1] end.
    intros H. destruct (match ch_response hit with CrWire _ _ _ => _ | CrMessage _ => _ end) as [[r0 g0]|] eqn:E; [|done].
    injection H as _ <-. rewrite <- Hm. by destruct (ch_response hit); [eapply finalize_wire_settings|eapply finalize_settings].
Qed.
Lemma handle_lookup_settings (g : Engine) env st client fields lz log r g' :
  handle_lookup khash try_send g env st client fields lz log = Some (r, g') → settings g' = settings g.
Proof.
  unfold handle_lookup. destruct (cache_get _ _ _ _ _) as [[found c]|] eqn:E; [|done]. cbn [mbind option_bind].
  apply cache_get_settings, (with_cache_settings _ g) in E. destruct found as [hit|].
  - intros H%handle_hit_settings. by rewrite H.
  - destruct (lazy_into_message lz); [by intros [= _ <-]|]. intros H%done_settings. by rewrite H.
Qed.
Lemma handle_settings (g : Engine) env cid ing ip r g' : handle khash try_send g env cid ing ip = Some (r, g') → settings g' = settings g.
Proof.
  unfold handle. destruct (identify _ _); [|done]. cbn [mbind option_bind].
  destruct (into_parts ing) as [[fields lz]|]; [|by intros [= _ <-]]. destruct (_ && _); [|apply handle_lookup_settings].
  destruct (f_check _ _ _ _) as [[| |]|]; [apply handle_lookup_settings| | |done]; cbn [mbind option_bind];
    (destruct (lazy_into_message lz); [|apply done_settings]); [apply done_settings|].
  destruct (rewrite_response _ _ _); [apply done_settings|by intros [= _ <-]].
Qed.
Lemma engine_insert_settings (g : Engine) env key m v r g' : engine_insert khash g env key m v = Some (r, g') → settings g' = settings g.
Proof.
  unfold engine_insert. destruct (cache_insert _ _ _ _ _ _) as [[s c]|] eqn:E; [|done]. intros [= _ <-].
  by eapply with_cache_settings, cache_insert_settings.
Qed.
Lemma resume_settings (g : Engine) env p res r g' : resume khash try_send g env p res = Some (r, g') → settings g' = settings g.
Proof.
  unfold resume. destruct res as [resolved|]; [|apply finalize_settings].
  intros H. match type of H with (?v ≫= _) = _ => destruct v as [[info|]|]; [| |done] end; cbn [mbind option_bind] in H.
  - destruct (engine_insert _ _ _ _ _ _) as [[w g1]|] eqn:E; [|done]. apply engine_insert_settings in E as <-.
    by eapply finalize_settings.
  - match type of H with (?v ≫= _) = _ => destruct v as [verdict|]; [|done] end. cbn [mbind option_bind] in H.
    destruct (engine_insert _ _ _ _ _ _) as [[w g1]|] eqn:E; [|done]. apply engine_insert_settings in E as <-.
    cbn [mbind option_bind] in H. destruct w; [by eapply finalize_wire_settings|by eapply finalize_settings].
Qed.
Lemma run_refresh_settings (g : Engine) env t res g' : run_refresh khash g env t res = Some g' → settings g' = settings g.
Proof.
  unfold run_refresh. assert (Hi : ∀ key m v, snd <$> engine_insert khash g env key m v = Some g' → settings g' = settings g).
  { intros key m v. destruct (engine_insert _ _ _ _ _ _) as [[w g1]|] eqn:E; [|done]. intros [= <-]. by eapply engine_insert_settings. }
  destruct (lazy_into_message _); [|by intros [= <-]]. destruct res; [|by intros [= <-]]. destruct (rf_memoize t); [|apply Hi].
  destruct (filter_answers _ _ _); [|done]. apply Hi.
Qed.
End settings.

(** ** What the API does to the engine *)

Section server_props.
Context {DL : DnsLib} {DC : DnsCodec} {RX : RegexLib} {IL : IpNetLib} {US : UnstableSort} {HO : HashOrder}.
Context {L : LruLib QueryKey Entry} (khash : QueryKey → Z) {CC : ConfigCodec} {SL : SessionLib} {PL : PasswordLib}.
Context (dhash : bytes → Z) (chash : list (bytes * Z * Action) → Z).
Context (make_transport : list SocketAddr → UpstreamSpec → result () UpstreamError).
Context {qsender psender qstore pstore : Type} {SO : StoreOps qstore pstore}.
Context (try_send : qsender → QueryLogEntry → option qsender).

Local Abbreviation App := (AppState (qsender:=qsender) (psender:=psender) (qstore:=qstore) (pstore:=pstore)).
Local Abbreviation AppEngine := (AppEngine (qsender:=qsender)).
Local Abbreviation Server := (Server (qsender:=qsender) (psender:=psender) (qstore:=qstore) (pstore:=pstore)).
Local Abbreviation dispatch := (dispatch dhash chash make_transport).
Local Abbreviation put := (put dhash chash make_transport).
Local Abbreviation server_step := (server_step khash dhash chash make_transport try_send).
Local Abbreviation kept_up := (kept_up dhash chash make_transport (qsender:=qsender) (psender:=psender) (qstore:=qstore) (pstore:=pstore)).

(** The engine after a reload, and after a reset of the statistics. *)
Definition reloaded (cfg : Config) (st : AppEngineState) (g : AppEngine) : AppEngine :=
  {| eg_state := st; eg_cache := reconfigure_cache cfg (eg_cache g);
     eg_log := querylog_reconfigure (qc_enabled (cf_query_log cfg)) (pv_anonymize_client_ips (cf_privacy cfg)) (eg_log g);
     eg_stats := stats_reconfigure (stc_enabled (cf_stats cfg)) (stc_retention_days (cf_stats cfg))
                   (pv_anonymize_client_ips (cf_privacy cfg)) (eg_stats g) |}.
Definition cleared (g : AppEngine) : AppEngine :=
  {| eg_state := eg_state g; eg_cache := reset_counters (eg_cache g); eg_log := eg_log g; eg_stats := stats_reset (eg_stats g) |}.
(** An API step leaves the engine alone, clears its statistics, or reloads it. *)
Inductive moves (g : AppEngine) (s' : App) : Prop :=
| mv_same : as_engine s' = g → moves g s'
| mv_clear : as_engine s' = cleared g → moves g s'
| mv_reload cfg st : es_clients st = build_matcher (cf_clients cfg) → as_engine s' = reloaded cfg st g → moves g s'.
Lemma moves_engine g (s' s2 : App) : as_engine s2 = as_engine s' → moves g s' → moves g s2.
Proof. intros E []; [apply mv_same|apply mv_clear|eapply mv_reload]; by rewrite ?E. Qed.

Lemma apply_moves env (s : App) new (s' : App) : apply_config dhash chash make_transport env s new = Some (Ok s') → moves (as_engine s) s'.
Proof.
  unfold apply_config. destruct (validate _); [|done]. destruct (compile_filters _ _ _ (as_files s)) as [[f counts]|]; [|done].
  cbn [mbind option_bind]. unfold build_engine_state at 1. destruct (compile_filters _ _ _ _) as [[f' counts']|]; [|done].
  cbn [mbind option_bind]. destruct (build_pool _ _ _ _) as [p|]; [|done]. cbn [result_bind].
  destruct (save_config _ _) as [text|]; [|done]. intros [= <-]. eapply mv_reload; [|reflexivity]. done.
Qed.
Lemma put_moves env (s : App) cfg b o (s' : App) : put env s cfg b = Some (o, s') → moves (as_engine s) s'.
Proof.
  unfold Api.put, done, commit. destruct (apply_config _ _ _ _ s cfg) as [[s1|e]|] eqn:E; [| |done].
  - intros [= _ <-]. by eapply apply_moves.
  - intros [= _ <-]. by apply mv_same.
Qed.
Lemma stays o (s : App) o' s' : Some (o, s) = Some (o' : HandlerOutcome, s') → moves (as_engine s) s'.
Proof. intros [= _ <-]. by apply mv_same. Qed.
Lemma add_list_moves env b text (s : App) o s' : add_list_commit dhash chash make_transport env b text s = Some (o, s') → moves (as_engine s) s'.
Proof. unfold add_list_commit. destruct (write_list_text _ _ _ _) as [[|] fs]; [apply (put_moves env (with_files fs s))|apply (stays _ (with_files fs s))]. Qed.
Lemma dispatch_moves env h c (s : App) o s' : dispatch env h c s = Some (o, s') → moves (as_engine s) s'.
Proof.
  destruct (keeps_config c) eqn:Ek; [intros H; rewrite (keeps_config_state _ _ _ _ _ _ _ _ _ Ek H); by apply mv_same|].
  destruct c; try discriminate Ek; simpl; try (by apply put_moves).
  - unfold add_custom_rule. repeat case_match; [apply stays..|apply put_moves].
  - unfold add_list_handler. destruct (nl_url l); [apply stays|apply add_list_moves].
  - unfold update_list. case_match; [apply put_moves|apply stays].
  - unfold delete_list. case_match; [apply stays|]. apply (put_moves env (with_files _ s)).
  - unfold post_client. case_match; [apply stays|]. destruct (new_client_id _ _); [apply put_moves|done].
  - unfold put_client. repeat case_match; [apply stays|apply put_moves|apply stays].
  - unfold delete_client. case_match; [apply stays|apply put_moves].
  - intros [= _ <-]. by apply mv_clear.
  - unfold clear_querylog. destruct (store_clear _); [apply (stays _ (with_stores _ _ s))|apply stays].
  - unfold clear_upstream_log. destruct (probe_clear _); [apply (stays _ (with_stores _ _ s))|apply stays].
Qed.
Lemma resume_task_moves env fetched t (s : App) o s' :
  resume_task dhash chash make_transport env fetched t s = Some (o, s') → moves (as_engine s) s'.
Proof.
  destruct t; simpl.
  - unfold setup_commit. destruct (apply_config _ _ _ _ _ _) as [[s1|e]|] eqn:E; [| |done]; simpl; [|apply stays].
    destruct (session_response _ _ _); [|done]. intros [= _ <-]. by eapply apply_moves.
  - destruct fetched; [apply add_list_moves|apply stays].
  - destruct fetched; [|apply stays]. unfold refresh_fetched. destruct (write_list_text _ _ _ _) as [[|] fs]; apply (stays _ (with_files fs s)).
  - apply put_moves.
Qed.
Lemma api_step_moves (y : ApiSystem (psender:=psender)) e y' :
  api_step dhash chash make_transport y e = Some y' → moves (as_engine (sy_app y)) (sy_app y').
Proof.
  assert (Hcut : ∀ k s, moves (as_engine (sy_app y)) s → moves (as_engine (sy_app y)) (cut_short k (sy_app y) s)).
  { intros [] s Hm; [by apply mv_same|by apply (moves_engine _ s)]. }
  destruct e as [env h c|n env f|n|k env h c|k n env f]; simpl; [| |intros [= <-]; by apply mv_same|..].
  - destruct (api_request _ _ _ _ _ _ _) as [[p s]|] eqn:E; [|done]. intros [= <-]. simpl.
    apply request_dispatch in E as [->|[o E]]; [by apply mv_same|by eapply dispatch_moves].
  - destruct (sy_pending y !! n) as [[p|]|]; [|intros [= <-]; by apply mv_same..].
    destruct (api_resume _ _ _ _ _ _ _) as [[p' s]|] eqn:E; [|done]. intros [= <-]. simpl.
    apply finish_state in E as [o E]. by eapply resume_task_moves.
  - destruct (api_request _ _ _ _ _ _ _) as [[p s]|] eqn:E; [|done]. intros [= <-]. apply Hcut.
    apply request_dispatch in E as [->|[o E]]; [by apply mv_same|by eapply dispatch_moves].
  - destruct (sy_pending y !! n) as [[p|]|]; [|intros [= <-]; by apply mv_same..].
    destruct (api_resume _ _ _ _ _ _ _) as [[p' s]|] eqn:E; [|done]. intros [= <-]. apply Hcut.
    apply finish_state in E as [o E]. by eapply resume_task_moves.
Qed.

(** ** The invariant of the server *)

Context {CL : ConfigCodecLaws CC} {NL : NameLaws DL} {CDL : CodecLaws DC} {LL : LruLaws L}.
Context (Installed : Filter → Prop) {FL : FilterLaws engine_filter Installed}.
Local Abbreviation engine_ok := (engine_ok khash Installed (sender:=qsender) (pool:=Pool)).

(** The filter in force is one of the [Installed] ones, and the TTL settings, unsigned in the
    code, are not negative. *)
Definition sane (s : App) : Prop :=
  let c := dc_cfg (eg_cache (as_engine s)) in
  Installed (es_filter (eg_state (as_engine s))) ∧ (0 <= cf_min_ttl c)%Z ∧ (0 <= cf_max_ttl c)%Z.
(** [cut]: an update may have been cut short. *)
Record server_ok (cut : bool) (B : Z) (y : Server) : Prop := {
  so_app : kept_up cut B (sv_app y);
  so_engine : engine_ok (as_engine (sv_app y));
  so_queries : Forall (λ p, state_ok Installed (pd_state p)) (sv_queries y);
  so_refreshes : Forall (task_ok Installed) (sv_refreshes y);
}.

Lemma reconfigure_cache_wf cfg c : (0 <= cg_min_ttl_secs (cf_cache cfg))%Z → (0 <= cg_max_ttl_secs (cf_cache cfg))%Z →
  cache_wf khash (entry_sound Installed) c → cache_wf khash (entry_sound Installed) (reconfigure_cache cfg c).
Proof. intros H1 H2 Hc. by apply inv_store_summaries, inv_reconfigure. Qed.
Lemma reconfigured_ttls cfg c : let k := dc_cfg (reconfigure_cache cfg c) in
  cf_min_ttl k = cg_min_ttl_secs (cf_cache cfg) ∧ cf_max_ttl k = cg_max_ttl_secs (cf_cache cfg).
Proof. unfold reconfigure_cache, cache_reconfigure. by destruct (cg_enabled _). Qed.
Lemma moves_ok g (s' : App) : engine_ok g → sane s' → moves g s' → engine_ok (as_engine s').
Proof.
  intros [Hs Hc Ht] (Hf & Hmn & Hmx) [E|E|cfg st Hcl E].
  - rewrite E. by constructor.
  - rewrite E. constructor; simpl; [done|by apply inv_counters|by apply stats_reset_ok].
  - rewrite E in Hf, Hmn, Hmx |- *. destruct (reconfigured_ttls cfg (eg_cache g)) as [E1 E2].
    cbn [reloaded eg_cache] in Hmn, Hmx. rewrite E1 in Hmn. rewrite E2 in Hmx.
    constructor; simpl; [split; [exact Hf|by eexists]|by apply reconfigure_cache_wf|by apply stats_reconfigure_ok].
Qed.
Lemma kept_settings cut B (s : App) g : settings g = settings (as_engine s) → kept_up cut B s → kept_up cut B (with_engine g s).
Proof.
  unfold settings, cache_settings, stat_settings. intros [= E1 E2 E3 E4 E5 E6 E7 E8] (cfg & [H1 H2 H3 H4 H5 (fs & [])] & Hm).
  exists cfg. split; [|done]. constructor; [done..|]. exists fs. constructor; simpl; by rewrite ?E1, ?E2, ?E3, ?E4, ?E5, ?E6, ?E7, ?E8.
Qed.

(** A DNS event always runs, keeps the invariant, and touches neither the configuration, the
    files nor the sessions. *)
Definition dns_event (e : ServerEvent) : bool := match e with EvApi _ => false | _ => true end.
Definition same_config (s s' : App) : Prop :=
  as_config s' = as_config s ∧ as_files s' = as_files s ∧ as_sessions s' = as_sessions s.
Lemma dns_step cut B (y : Server) e : server_ok cut B y → dns_event e = true →
  ∃ r y', server_step y e = Some (r, y') ∧ server_ok cut B y' ∧ same_config (sv_app y) (sv_app y') ∧ sv_requests y' = sv_requests y.
Proof.
  intros [Ha Hg Hq Ht] He. assert (Hsame : ∃ r y', Some (None (A:=EngineResponse), y) = Some (r, y') ∧ server_ok cut B y' ∧
    same_config (sv_app y) (sv_app y') ∧ sv_requests y' = sv_requests y) by (eexists _, _; split_and!; [done|by constructor|done..]).
  destruct e as [|env cid b ip|n env res|n env res|n env res|hs l]; [done|..]; simpl.
  - destruct (ingress_parse b) as [i|] eqn:Ei; [|done].
    destruct (handle_ok khash try_send Installed _ env cid b i ip Hg Ei) as (r & g & E & Hg' & Hr). rewrite E.
    apply handle_settings in E. cbn [mbind option_bind].
    destruct r as [resp task|p|p]; (eexists _, _; split; [done|]; split; [|done]); constructor; simpl; auto using kept_settings, Forall_app_2.
  - destruct (sv_queries y !! n) as [p|] eqn:Ep; [|done]. pose proof (Forall_lookup_1 _ _ _ _ Hq Ep) as Hp.
    destruct (resume_ok khash try_send Installed _ env p res Hg Hp) as (r & g & E & Hg'). rewrite E.
    apply resume_settings in E. cbn [mbind option_bind]. eexists _, _. split; [done|]. split; [|done].
    constructor; simpl; auto using kept_settings, Forall_delete.
  - destruct (sv_cnames y !! n) as [p|]; [|done].
    destruct (resume_cname_ok khash try_send Installed _ env p res Hg) as (r & g & E & Hg'). rewrite E.
    apply finalize_settings in E. cbn [mbind option_bind]. eexists _, _. split; [done|]. split; [|done].
    constructor; simpl; auto using kept_settings.
  - destruct (sv_refreshes y !! n) as [t|] eqn:Et; [|done]. pose proof (Forall_lookup_1 _ _ _ _ Ht Et) as Hp.
    destruct (run_refresh_ok khash Installed _ env t res Hg Hp) as (g & E & Hg'). rewrite E.
    apply run_refresh_settings in E. cbn [mbind option_bind]. eexists _, _. split; [done|]. split; [|done].
    constructor; simpl; auto using kept_settings, Forall_delete.
  - eexists _, _. split; [done|]. split; [|done]. constructor; simpl; [|by destruct Hg|done|done].
    destruct Ha as (cfg & [H1 H2 H3 H4 H5 (fs & [])] & Hm). exists cfg. split; [|done]. constructor; [done..|]. exists fs. by constructor.
Qed.

Lemma api_event cut B (y : Server) e r y' : server_ok cut B y → (0 <= B)%Z → (B + 1 < 2 ^ 32)%Z →
  server_step y (EvApi e) = Some (r, y') → sane (sv_app y') → server_ok (cut || cuts e) (B + 1) y'.
Proof.
  intros [Ha Hg Hq Ht] H0 HB. simpl. destruct (api_step _ _ _ _ e) as [a|] eqn:E; [|done]. intros [= _ <-] Hs. simpl in *.
  constructor; simpl; [by eapply (step_kept _ _ _ cut B) in E| |done|done].
  apply (moves_ok (as_engine (sv_app y))); [done..|]. by apply api_step_moves in E.
Qed.

(** The states reached from [y] in [n] events, while every reload installs such filters, and
    whether one of the events cut an update short. *)
Definition event_cuts (e : ServerEvent) : bool := match e with EvApi e => cuts e | _ => false end.
Inductive reaches (y : Server) : nat → bool → Server → Prop :=
| rc_here : reaches y 0 false y
| rc_event n cut y1 e r y2 : reaches y n cut y1 → server_step y1 e = Some (r, y2) → sane (sv_app y2) →
    reaches y (S n) (cut || event_cuts e) y2.
Lemma reaches_ok B y n cut y' : server_ok false B y → (0 <= B)%Z → (B + Z.of_nat n < 2 ^ 32)%Z → reaches y n cut y' →
  server_ok cut (B + Z.of_nat n) y'.
Proof.
  intros Hy H0 HB H. induction H as [|n cut y1 e r y2 _ IH E Hs]; [by rewrite Z.add_0_r|]. specialize (IH ltac:(lia)).
  destruct (dns_event e) eqn:Ed.
  - destruct (dns_step _ _ y1 e IH Ed) as (r' & y2' & E' & H2 & _). rewrite E in E'. injection E' as <- <-.
    destruct H2 as [H2 ? ? ?]. destruct e; try discriminate Ed; cbn [event_cuts]; rewrite orb_false_r;
      (constructor; [by eapply kept_mono; [|exact H2]; lia|done..]).
  - destruct e; try discriminate Ed. replace (B + Z.of_nat (S n))%Z with (B + Z.of_nat n + 1)%Z by lia.
    eapply (api_event _ _ y1); [exact IH|lia|lia|exact E|exact Hs].
Qed.

(** The engine as [build_engine] makes it. *)
Lemma build_engine_ok par draw cfg fs g : build_engine dhash chash par make_transport draw cfg fs = Some (Ok g) →
  Installed (es_filter (eg_state g)) → (0 <= cg_min_ttl_secs (cf_cache cfg))%Z → (0 <= cg_max_ttl_secs (cf_cache cfg))%Z → engine_ok g.
Proof.
  unfold build_engine, build_engine_state. destruct (compile_filters _ _ _ _) as [[f counts]|]; [|done]. cbn [mbind option_bind].
  destruct (build_pool _ _ _ _); [|done]. intros [= <-] Hf Hmn Hmx. simpl in Hf.
  constructor; simpl; [split; [done|by eexists]|apply reconfigure_cache_wf; [done..|by apply cache_new_inv]|apply stats_new_ok].
Qed.

(** A run in which every state is sane reaches its end. *)
Lemma server_run_snoc (y : Server) es e : server_run khash dhash chash make_transport try_send y (es ++ [e])
  = server_run khash dhash chash make_transport try_send y es ≫= λ y1, snd <$> server_step y1 e.
Proof.
  revert y. induction es as [|e1 es IH]; intros y; simpl.
  - by destruct (server_step y e) as [[r y1]|].
  - destruct (server_step y e1) as [[r y1]|]; [|done]. apply IH.
Qed.
Lemma run_reaches y es y' : server_run khash dhash chash make_transport try_send y es = Some y' →
  (∀ k yk, k < length es → server_run khash dhash chash make_transport try_send y (take (S k) es) = Some yk → sane (sv_app yk)) →
  reaches y (length es) (existsb event_cuts es) y'.
Proof.
  revert y'. induction es as [|e es IH] using rev_ind; intros y' Hr Hs; [injection Hr as <-; constructor|].
  rewrite server_run_snoc in Hr. destruct (server_run _ _ _ _ _ y es) as [y1|] eqn:E1; [|done]. cbn [mbind option_bind] in Hr.
  destruct (server_step y1 e) as [[r y2]|] eqn:E2; [|done]. injection Hr as ->.
  rewrite length_app, Nat.add_comm, existsb_app. cbn [length existsb]. rewrite orb_false_r.
  eapply rc_event; [|exact E2|].
  - apply IH; [done|]. intros k yk Hk Hrun. apply (Hs k); [rewrite length_app; simpl; lia|]. by rewrite take_app_le by lia.
  - apply (Hs (length es)); [rewrite length_app; simpl; lia|]. rewrite take_ge by (rewrite length_app; simpl; lia).
    by rewrite server_run_snoc, E1; simpl; rewrite E2.
Qed.
End server_props.

(** The filter of a configuration is compiled from its lists. *)
Lemma compile_loaded {DL : DnsLib} {DC : DnsCodec} {IL : IpNetLib} {RX : RegexLib} {US : UnstableSort} dhash chash cfg fs f counts :
  compile_filters dhash chash cfg fs = Some (f, counts) → compiled_from chash f (configured_lists cfg fs).
Proof. rewrite compile_configured. unfold build. destruct (from_rules _ _ _) eqn:E; [|done]. intros [= <- _]. exact E. Qed.

(** ** The contract *)

Section contract.
Context {DL : DnsLib} {DC : DnsCodec} {RX : RegexLib} {IL : IpNetLib} {US : UnstableSort} {HO : HashOrder}.
Context {L : LruLib QueryKey Entry} (khash : QueryKey → Z) {CC : ConfigCodec} {SL : SessionLib} {PL : PasswordLib}.
Context (dhash : bytes → Z) (chash : list (bytes * Z * Action) → Z) (Configs : list (Z * bytes * bytes) → Prop).
Context (make_transport : list SocketAddr → UpstreamSpec → result () UpstreamError).
Context {qsender psender qstore pstore : Type} {SO : StoreOps qstore pstore}.
Context (try_send : qsender → QueryLogEntry → option qsender).
Context {CL : ConfigCodecLaws CC} {NL : NameLaws DL} {CDL : CodecLaws DC} {LL : LruLaws L} {GL : GlobLaws RX} {RL : RegexLaws RX}.
Local Abbreviation Server := (Server (qsender:=qsender) (psender:=psender) (qstore:=qstore) (pstore:=pstore)).
Local Abbreviation server_step := (server_step khash dhash chash make_transport try_send).
Local Abbreviation loaded := (loaded chash Configs).
Local Abbreviation server_ok := (server_ok khash dhash chash make_transport loaded).

End contract.
