(* ===== verification/ServerInstances.v ===== *)
(** * A running server: a query is at the pool while the administrator is set up and the
    configuration reloaded, then its answer arrives. *)
From Stdlib Require Import Ascii.
From S2P Require Import Prelude RustStr RustNet RustFloat Rule Glob Parser ParserProps Instances FilterEngine FilterEngineProps FilterSpec Compiler Wire Dns DnsInstances Clients Block QueryLog Cache CacheProps Snapshot SnapshotProps Stats StatsProps Engine EngineText EngineProps EngineInstances EngineSafety Spec ProbeLog Pool Config ConfigProps Auth Http Dto App AppProps AppInstances Api ApiProps ApiInstances Server ServerProps.

Definition demo_server : Server (qsender:=list QueryLogEntry) (psender:=list ProbeEvent) (qstore:=unit) (pstore:=unit) :=
  {| sv_app := demo_ready; sv_requests := []; sv_queries := []; sv_cnames := []; sv_refreshes := [] |}.
Definition demo_events : list ServerEvent :=
  [EvPacket (pipe_env 0) 7 pipe_packet pipe_client_ip; EvApi (AvRequest (demo_env 1000) [] (CSetup (creds "alice")));
   EvApi (AvResume 0 (demo_env 1001) (Ok [])); EvAnswer 0 (pipe_env 1) (Ok pipe_answer)].
Definition demo_server_run := server_run (DL:=small_dns) (HO:=key_order) sample_hash demo_hash pipe_chash demo_transport pipe_send demo_server.
Definition demo_filter : Filter := es_filter (eg_state (as_engine demo_ready)).
(** The lists in force before and after the reload, and the lists of an installation without any. *)
Definition demo_lists : list (Z * bytes * bytes) := configured_lists (as_config demo_ready) (as_files demo_ready).
Definition demo_configs (ls : list (Z * bytes * bytes)) : Prop := ls = demo_lists ∨ ls = [].
Abbreviation demo_installed := (loaded pipe_chash demo_configs).

Lemma demo_fits : lists_fit (as_config demo_ready) (as_files demo_ready).
Proof. split; [vm_compute; repeat constructor|]. apply fits_engine_ok. vm_compute. reflexivity. Qed.
Lemma demo_lists_fit : lists_fit_engine demo_configs.
Proof. intros ls [-> | ->]; [exact demo_fits|]. split; [constructor|]. apply fits_engine_ok. vm_compute. reflexivity. Qed.
Lemma demo_no_collision : no_collision pipe_chash demo_configs.
Proof.
  assert (pipe_chash (contents (surviving demo_lists)) = 1%Z ∧ pipe_chash (contents (surviving [])) = 0%Z) as [E1 E2]
    by (split; vm_compute; reflexivity).
  intros l1 l2 [-> | ->] [-> | ->]; rewrite ?E1, ?E2; done.
Qed.
Lemma demo_loaded : demo_installed demo_filter.
Proof.
  destruct (apply_config_inv _ _ _ _ _ _ _ demo_ready_eq) as (_ & _ & _ & _ & _ & _ & [(counts & Hc) _ _ _ _ _ _ _ _ _]).
  exists demo_lists. split; [by left|]. exact (compile_loaded demo_hash pipe_chash _ _ _ _ Hc).
Qed.
#[export] Instance demo_filter_laws : FilterLaws engine_filter demo_installed := loaded_laws pipe_chash demo_configs demo_lists_fit.

(** What the run's states have in force. *)
Definition in_force k := (λ y, let c := dc_cfg (eg_cache (as_engine (sv_app y))) in
  (es_filter (eg_state (as_engine (sv_app y))), cf_min_ttl c, cf_max_ttl c)) <$> demo_server_run (take k demo_events).
Lemma in_force_eq k : k < 5 → in_force k = Some (demo_filter, 0%Z, 86400%Z).
Proof. intros Hk. do 5 (destruct k as [|k]; [vm_refl|]). lia. Qed.
Lemma demo_sane k y : k < 5 → demo_server_run (take k demo_events) = Some y → sane demo_installed (sv_app y).
Proof.
  intros Hk E. pose proof (in_force_eq k Hk) as H. unfold in_force in H. rewrite E in H. injection H as Hf Hmn Hmx.
  unfold sane. rewrite Hf, Hmn, Hmx. split; [exact demo_loaded|]. lia.
Qed.
Lemma demo_engine_ok : engine_ok sample_hash demo_installed (as_engine demo_ready).
Proof.
  apply (moves_ok sample_hash demo_installed demo_engine).
  - apply (build_engine_ok sample_hash demo_hash pipe_chash demo_transport demo_installed (Some 2%Z) demo_draw (demo_config 0 fresh_auth) demo_files).
    + pose proof demo_builds as H. unfold demo_engine. unfold applied in H.
      destruct demo_engine_result as [[g|]|] eqn:E; [exact E|discriminate H..].
    + assert (es_filter (eg_state demo_engine) = demo_filter) as -> by vm_refl. exact demo_loaded.
    + vm_compute. discriminate.
    + vm_compute. discriminate.
  - exact (demo_sane 0 demo_server ltac:(lia) eq_refl).
  - exact (apply_moves demo_hash pipe_chash demo_transport demo_update demo_app (demo_config 0 fresh_auth) demo_ready demo_ready_eq).
Qed.
Lemma demo_server_ok : server_ok sample_hash demo_hash pipe_chash demo_transport demo_installed false 1 demo_server.
Proof. constructor; [exact (consistent_kept _ _ _ _ _ _ demo_ready_consistent)|exact demo_engine_ok|constructor|constructor]. Qed.

(** For any events, so that conversion does not run the server. *)
Lemma demo_run_reaches es y' : demo_server_run es = Some y' →
  (∀ k yk, k < length es → demo_server_run (take (S k) es) = Some yk → sane demo_installed (sv_app yk)) →
  reaches sample_hash demo_hash pipe_chash demo_transport pipe_send demo_installed demo_server (length es) (existsb event_cuts es) y'.
Proof. exact (run_reaches sample_hash demo_hash pipe_chash demo_transport pipe_send demo_installed demo_server es y'). Qed.
Lemma demo_reaches y' : demo_server_run demo_events = Some y' →
  reaches sample_hash demo_hash pipe_chash demo_transport pipe_send demo_installed demo_server 4 false y'.
Proof.
  intros E. refine (demo_run_reaches demo_events y' E _).
  intros k yk Hk. exact (demo_sane (S k) yk (proj1 (Nat.succ_lt_mono _ _) Hk)).
Qed.
