(* ===== verification/Persist.v ===== *)
(** * server: the snapshot files and the life of the process ([persist.rs], [main.rs],
    [app.rs]).

    [Server] is the running program in memory.  Here are the files it leaves behind: the
    statistics and the cache are written to a temporary file that then replaces the old one,
    by two periodic tasks and once more on shutdown.  A save is a sequence of system calls,
    interleaved with everything else, and each of them can fail; the shutdown does not stop
    the periodic tasks and writes the same temporary files. *)
From Stdlib Require Import Ascii.
From S2P Require Import Prelude RustStr RustNet RustFloat Rule Glob Parser ParserProps FilterEngine FilterEngineProps FilterSpec Compiler Wire Dns Clients Block QueryLog Cache CacheProps Snapshot SnapshotProps Stats StatsProps Engine EngineText EngineProps EngineInstances EngineSafety Spec ProbeLog Pool Config ConfigProps Auth Http Dto App AppProps Api ApiProps Startup StartupProps Server.

(** ** Files *)

(** [with_extension]: what follows the last dot of the file name is replaced. *)
Definition with_extension (path ext : bytes) : bytes :=
  let '(dir, name) := match rsplit_once "/"%char path with Some (d, n) => (d ++ bs "/", n) | None => ([], path) end in
  let stem := match rsplit_once "."%char name with Some ([], _) | None => name | Some (s, _) => s end in
  dir ++ stem ++ bs "." ++ ext.

(** [ensure_dirs]: the directories that exist afterwards with their modes; a failed
    [set_permissions] is ignored. *)
Abbreviation Dirs := (gmap bytes Z).
Definition create_dir_all (mkdir : bytes → result () bytes) (mode : Z) (path : bytes) (ds : Dirs) : result () bytes * Dirs :=
  match ds !! path with
  | Some _ => (Ok (), ds)
  | None => match mkdir path with Err e => (Err e, ds) | Ok _ => (Ok (), <[path := mode]> ds) end
  end.
Definition restrict_to_owner (chmod_ok : bytes → bool) (path : bytes) (ds : Dirs) : Dirs :=
  if chmod_ok path then alter (λ _, 448%Z) path ds else ds.
Definition ensure_dirs (mkdir : bytes → result () bytes) (chmod_ok : bytes → bool) (umask_mode : Z) (p : Paths) (ds : Dirs)
  : result () bytes * Dirs :=
  match create_dir_all mkdir umask_mode (pt_data_dir p) ds with
  | (Err e, ds) => (Err e, ds)
  | (Ok _, ds) =>
      match create_dir_all mkdir umask_mode (pt_lists_dir p) ds with
      | (Err e, ds) => (Err e, ds)
      | (Ok _, ds) => (Ok (), restrict_to_owner chmod_ok (pt_lists_dir p) (restrict_to_owner chmod_ok (pt_data_dir p) ds))
      end
  end.

(** The databases [main] opens: in memory unless the log is persisted. *)
Definition store_path (persist : bool) (db : bytes) : bytes := if persist then db else bs ":memory:".

(** A snapshot file and its temporary file: two names in a directory.  The texts are those of
    inodes, so that a file that is renamed stays the one an open descriptor writes to. *)
Record SnapFile : Type := { sf_inodes : list bytes; sf_file : option nat; sf_tmp : option nat }.
Definition sf_text (f : SnapFile) : option bytes := sf_file f ≫= λ i, sf_inodes f !! i.
Record Disk : Type := { dk_stats : SnapFile; dk_cache : SnapFile }.
(** [fs::write] opens the temporary file, creating or emptying it. *)
Definition open_tmp (f : SnapFile) : nat * SnapFile :=
  match sf_tmp f with
  | Some i => (i, {| sf_inodes := <[i := []]> (sf_inodes f); sf_file := sf_file f; sf_tmp := Some i |})
  | None => let i := length (sf_inodes f) in (i, {| sf_inodes := sf_inodes f ++ [[]]; sf_file := sf_file f; sf_tmp := Some i |})
  end.
(** A write at the position of a descriptor; a gap is filled with zeros. *)
Definition overwrite_at (off : nat) (chunk text : bytes) : bytes := resize off "000"%char text ++ chunk ++ drop (off + length chunk) text.
Definition write_tmp (fd off : nat) (chunk : bytes) (f : SnapFile) : SnapFile :=
  {| sf_inodes := alter (overwrite_at off chunk) fd (sf_inodes f); sf_file := sf_file f; sf_tmp := sf_tmp f |}.
(** [fs::rename]; it fails when the temporary file is gone. *)
Definition rename_tmp (f : SnapFile) : SnapFile :=
  match sf_tmp f with Some i => {| sf_inodes := sf_inodes f; sf_file := Some i; sf_tmp := None |} | None => f end.

(** Where a save is: not running, about to read the state, with the text in hand, writing it from
    position [off], or with the text written and the descriptor closed. *)
Inductive Saver : Type :=
| SvIdle
| SvAsked
| SvTaken (text : bytes)
| SvWriting (text : bytes) (fd off : nat)
| SvWritten (text : bytes).
#[export] Instance saver_eq_dec : EqDecision Saver.
Proof. solve_decision. Defined.
(** The outcome of a system call: a [write] takes one byte and up to [n] more. *)
Inductive IoResult : Type := IoOk (n : nat) | IoFailed.
Definition save_step (io : IoResult) (v : Saver) (f : SnapFile) : Saver * SnapFile :=
  match v, io with
  | SvIdle, _ | SvAsked, _ => (v, f)
  | _, IoFailed => (SvIdle, f)
  | SvTaken text, IoOk _ => let '(fd, f) := open_tmp f in (SvWriting text fd 0, f)
  | SvWriting text fd off, IoOk n =>
      if length text <=? off then (SvWritten text, f)
      else let chunk := take (S n) (drop off text) in (SvWriting text fd (off + length chunk), write_tmp fd off chunk f)
  | SvWritten _, IoOk _ => (SvIdle, rename_tmp f)
  end.

Section persist.
Context {DL : DnsLib} {DC : DnsCodec} {RX : RegexLib} {IL : IpNetLib} {US : UnstableSort} {HO : HashOrder}.
Context {L : LruLib QueryKey Entry} (khash : QueryKey → Z) {CC : ConfigCodec} {SL : SessionLib} {PL : PasswordLib}.
Context (dhash : bytes → Z) (chash : list (bytes * Z * Action) → Z).
Context (make_transport : list SocketAddr → UpstreamSpec → result () UpstreamError).
Context {qsender psender qstore pstore : Type} {SO : StoreOps qstore pstore}.
Context (try_send : qsender → QueryLogEntry → option qsender) (to_json : StatsInner → option bytes).

Local Abbreviation Server := (Server (qsender:=qsender) (psender:=psender) (qstore:=qstore) (pstore:=pstore)).
Local Abbreviation AppEngine := (AppEngine (qsender:=qsender)).

(** [snapshot_stats_now] and [snapshot_cache_to], one step at a time. *)
Definition stats_save (io : IoResult) (g : AppEngine) (v : Saver) (f : SnapFile) : Saver * SnapFile :=
  match v with SvAsked => (SvTaken (snapshot_stats to_json g), f) | _ => save_step io v f end.
Definition cache_save (io : IoResult) (unix now : Z) (g : AppEngine) (v : Saver) (f : SnapFile) : Saver * SnapFile :=
  match v with
  | SvAsked => (match snapshot_cache unix now g with None => SvIdle | Some blob => SvTaken blob end, f)
  | _ => save_step io v f
  end.

(** The end of [main]: the statistics when they are persisted, then the cache. *)
Inductive Shutdown : Type := ShNot | ShStats (v : Saver) | ShCache (v : Saver) | ShDone.
(** The process: what runs, the files, the two periodic tasks and the shutdown. *)
Record Process : Type := { pr_server : Server; pr_disk : Disk; pr_stats_task : Saver; pr_cache_task : Saver; pr_shutdown : Shutdown }.
Definition process_of (y : Server) (d : Disk) : Process :=
  {| pr_server := y; pr_disk := d; pr_stats_task := SvIdle; pr_cache_task := SvIdle; pr_shutdown := ShNot |}.
Definition with_stats_task (r : Saver * SnapFile) (p : Process) : Process :=
  {| pr_server := pr_server p; pr_disk := {| dk_stats := r.2; dk_cache := dk_cache (pr_disk p) |}; pr_stats_task := r.1;
     pr_cache_task := pr_cache_task p; pr_shutdown := pr_shutdown p |}.
Definition with_cache_task (r : Saver * SnapFile) (p : Process) : Process :=
  {| pr_server := pr_server p; pr_disk := {| dk_stats := dk_stats (pr_disk p); dk_cache := r.2 |}; pr_stats_task := pr_stats_task p;
     pr_cache_task := r.1; pr_shutdown := pr_shutdown p |}.
Definition with_shutdown (h : Shutdown) (d : Disk) (p : Process) : Process :=
  {| pr_server := pr_server p; pr_disk := d; pr_stats_task := pr_stats_task p; pr_cache_task := pr_cache_task p; pr_shutdown := h |}.

Definition persists (y : Server) : bool := stc_persist (cf_stats (as_config (sv_app y))).
Inductive ProcessEvent : Type :=
| PeServer (e : ServerEvent)
| PeStatsTick
| PeStatsStep (io : IoResult)
| PeCacheTick
| PeCacheStep (io : IoResult) (unix now : Z)
| PeSignal
| PeShutdownStep (io : IoResult) (unix now : Z).

(** A tick of [spawn_stats_snapshotter] or [spawn_cache_snapshotter]: a task that is still
    saving takes it up when it is done. *)
Definition stats_tick (p : Process) : Process :=
  match pr_stats_task p with
  | SvIdle => with_stats_task (if persists (pr_server p) then SvAsked else SvIdle, dk_stats (pr_disk p)) p
  | _ => p
  end.
Definition cache_tick (p : Process) : Process :=
  match pr_cache_task p with SvIdle => with_cache_task (SvAsked, dk_cache (pr_disk p)) p | _ => p end.
Definition shutdown_signalled (p : Process) : Process :=
  match pr_shutdown p with
  | ShNot => with_shutdown (if persists (pr_server p) then ShStats SvAsked else ShCache SvAsked) (pr_disk p) p
  | _ => p
  end.
Definition shutdown_step (io : IoResult) (unix now : Z) (p : Process) : Process :=
  let g := as_engine (sv_app (pr_server p)) in
  match pr_shutdown p with
  | ShStats v =>
      let '(v, f) := stats_save io g v (dk_stats (pr_disk p)) in
      with_shutdown (match v with SvIdle => ShCache SvAsked | _ => ShStats v end) {| dk_stats := f; dk_cache := dk_cache (pr_disk p) |} p
  | ShCache v =>
      let '(v, f) := cache_save io unix now g v (dk_cache (pr_disk p)) in
      with_shutdown (match v with SvIdle => ShDone | _ => ShCache v end) {| dk_stats := dk_stats (pr_disk p); dk_cache := f |} p
  | ShNot | ShDone => p
  end.
Definition process_step (p : Process) (e : ProcessEvent) : option Process :=
  let g := as_engine (sv_app (pr_server p)) in
  match e with
  | PeServer e =>
      let! (_, y) := server_step khash dhash chash make_transport try_send (pr_server p) e in
      Some {| pr_server := y; pr_disk := pr_disk p; pr_stats_task := pr_stats_task p; pr_cache_task := pr_cache_task p;
              pr_shutdown := pr_shutdown p |}
  | PeStatsTick => Some (stats_tick p)
  | PeStatsStep io => Some (with_stats_task (stats_save io g (pr_stats_task p) (dk_stats (pr_disk p))) p)
  | PeCacheTick => Some (cache_tick p)
  | PeCacheStep io unix now => Some (with_cache_task (cache_save io unix now g (pr_cache_task p) (dk_cache (pr_disk p))) p)
  | PeSignal => Some (shutdown_signalled p)
  | PeShutdownStep io unix now => Some (shutdown_step io unix now p)
  end.
Fixpoint process_run (p : Process) (es : list ProcessEvent) : option Process :=
  match es with
  | [] => Some p
  | e :: es => let! p := process_step p e in process_run p es
  end.

(** What [main] reads back: the files of a disk as the surroundings of a start. *)
Definition start_from (d : Disk) (env : StartEnv) : StartEnv :=
  {| sn_dns_bind := sn_dns_bind env; sn_http_bind := sn_http_bind env; sn_random := sn_random env; sn_save_ok := sn_save_ok env;
     sn_draw := sn_draw env; sn_stats := sf_text (dk_stats d); sn_cache := sf_text (dk_cache d);
     sn_first_instant := sn_first_instant env; sn_unix := sn_unix env; sn_now := sn_now env |}.

(** ** Properties *)

(** A save holds the temporary file from its opening to the rename. *)
Definition busy (v : Saver) : bool := match v with SvWriting _ _ _ | SvWritten _ => true | _ => false end.
Definition shutdown_stats (h : Shutdown) : Saver := match h with ShStats v => v | _ => SvIdle end.
Definition shutdown_cache (h : Shutdown) : Saver := match h with ShCache v => v | _ => SvIdle end.
(** The shutdown and the periodic task save the same file at the same time. *)
Definition stats_overlap (p : Process) : bool := busy (pr_stats_task p) && busy (shutdown_stats (pr_shutdown p)).
Definition cache_overlap (p : Process) : bool := busy (pr_cache_task p) && busy (shutdown_cache (pr_shutdown p)).

(** *** One file and its two savers *)

Section file.
Context (asked : Prop) (P : bytes → Prop) (t0 : option bytes).
(** The names are those of two different inodes. *)
Definition two_files (f : SnapFile) : Prop :=
  (∀ i, sf_file f = Some i → i < length (sf_inodes f)) ∧ (∀ i, sf_tmp f = Some i → i < length (sf_inodes f) ∧ sf_file f ≠ Some i).
Definition whole_file (f : SnapFile) : Prop := sf_text f = t0 ∨ ∃ text, P text ∧ sf_text f = Some text.
(** What is written so far is the beginning of the text. *)
Definition saver_ok (f : SnapFile) (v : Saver) : Prop :=
  match v with
  | SvIdle => True
  | SvAsked => asked
  | SvTaken text => P text
  | SvWriting text fd off => P text ∧ sf_tmp f = Some fd ∧ sf_inodes f !! fd = Some (take off text)
  | SvWritten text => P text ∧ ∃ fd, sf_tmp f = Some fd ∧ sf_inodes f !! fd = Some text
  end.
Record file_ok (f : SnapFile) (v w : Saver) : Prop := {
  fo_two : two_files f;
  fo_whole : whole_file f;
  fo_v : saver_ok f v;
  fo_w : saver_ok f w;
}.
Lemma file_ok_sym f v w : file_ok f v w → file_ok f w v.
Proof. by intros []. Qed.
Lemma quiet_ok f f' v : busy v = false → saver_ok f v → saver_ok f' v.
Proof. by destruct v. Qed.

Lemma open_tmp_ok f : two_files f → let '(fd, f') := open_tmp f in
  two_files f' ∧ sf_text f' = sf_text f ∧ sf_tmp f' = Some fd ∧ sf_inodes f' !! fd = Some [].
Proof.
  intros [Hf Ht]. unfold open_tmp, two_files, sf_text. destruct (sf_tmp f) as [i|]; simpl.
  - destruct (Ht i eq_refl) as [Hi Hn]. rewrite length_insert. split_and!; [done|by intros j [= <-]| |done|by apply list_lookup_insert_eq].
    destruct (sf_file f) as [j|]; [|done]. simpl. apply list_lookup_insert_ne. congruence.
  - rewrite length_app. simpl. split_and!.
    + intros i Hi. specialize (Hf i Hi). lia.
    + intros i [= <-]. split; [lia|]. intros Hi. specialize (Hf _ Hi). lia.
    + destruct (sf_file f) as [j|] eqn:Ej; [|done]. simpl. apply lookup_app_l. by apply Hf.
    + done.
    + by rewrite lookup_app_r, Nat.sub_diag by lia.
Qed.
Lemma overwrite_prefix off n text : off < length text →
  let chunk := take (S n) (drop off text) in overwrite_at off chunk (take off text) = take (off + length chunk) text.
Proof.
  intros Ho chunk. unfold overwrite_at. rewrite resize_all_alt by (rewrite length_take; lia). rewrite drop_ge by (rewrite length_take; lia).
  rewrite app_nil_r, <- take_take_drop. f_equal. unfold chunk. rewrite length_take, length_drop.
  destruct (Nat.le_ge_cases (S n) (length text - off)); [by rewrite Nat.min_l|].
  by rewrite Nat.min_r, !take_ge by (rewrite ?length_drop; lia).
Qed.
Lemma write_tmp_ok f fd off chunk : two_files f → sf_tmp f = Some fd →
  two_files (write_tmp fd off chunk f) ∧ sf_text (write_tmp fd off chunk f) = sf_text f.
Proof.
  intros [Hf Ht] E. destruct (Ht fd E) as [_ Hn]. unfold two_files, sf_text. simpl. rewrite length_alter.
  split; [done|]. destruct (sf_file f) as [j|]; [|done]. simpl. apply list_lookup_alter_ne. congruence.
Qed.
Lemma save_step_ok io f v w : file_ok f v w → busy v && busy w = false →
  let r := save_step io v f in busy r.1 && busy w = true ∨ file_ok r.2 r.1 w.
Proof.
  intros [H2 Hw Hv Hw'] Hq. assert (Hidle : file_ok f SvIdle w) by (by constructor).
  destruct v as [| |text|text fd off|text], io as [n|]; cbn [save_step]; try (right; by constructor).
  - pose proof (open_tmp_ok f H2) as Ho. destruct (open_tmp f) as [fd f']. destruct Ho as (O1 & O2 & O3 & O4).
    destruct (busy w) eqn:Eb; [by left|]. right. constructor; cbn [fst snd].
    + done.
    + unfold whole_file. by rewrite O2.
    + by split_and!.
    + by eapply quiet_ok.
  - cbn [busy andb] in Hq. destruct Hv as (Hp & E & Hi). right. destruct (Nat.leb_spec (length text) off) as [Hl|Hl].
    { constructor; try done. split; [done|]. exists fd. by rewrite <- (take_ge text off Hl). }
    destruct (write_tmp_ok f fd off (take (S n) (drop off text)) H2 E) as [O1 O2]. constructor; cbn [fst snd].
    + done.
    + unfold whole_file. by rewrite O2.
    + split_and!; [done..|]. simpl. rewrite list_lookup_alter_eq, Hi. cbn [fmap option_fmap option_map]. f_equal. by apply overwrite_prefix.
    + by eapply quiet_ok.
  - cbn [busy andb] in Hq. destruct Hv as (Hp & fd & E & Hi). right. unfold rename_tmp. rewrite E. constructor; cbn [fst snd].
    + split; [intros i [= <-]; by apply (proj2 H2)|done].
    + right. exists text. split; [done|]. exact Hi.
    + done.
    + by eapply quiet_ok.
Qed.
Lemma taken_ok f w text : P text → file_ok f SvAsked w → file_ok f (SvTaken text) w.
Proof. by intros Hp []. Qed.

(** Left alone, a save whose system calls succeed publishes its text. *)
Fixpoint save_run (ios : list IoResult) (r : Saver * SnapFile) : Saver * SnapFile :=
  match ios with [] => r | io :: ios => save_run ios (save_step io r.1 r.2) end.
Lemma save_run_idle n f : save_run (replicate n (IoOk 0)) (SvIdle, f) = (SvIdle, f).
Proof. induction n; [done|]. exact IHn. Qed.
Lemma write_completes k f text fd off : two_files f → sf_tmp f = Some fd → sf_inodes f !! fd = Some (take off text) → length text - off <= k →
  ∃ f', save_run (replicate (S (S k)) (IoOk 0)) (SvWriting text fd off, f) = (SvIdle, f') ∧ sf_text f' = Some text.
Proof.
  revert f off. induction k as [|k IH]; intros f off H2 E Hi Hk; cbn [replicate save_run fst snd save_step];
    destruct (Nat.leb_spec (length text) off) as [Hl|Hl]; try lia.
  - cbn [save_run fst snd save_step]. eexists. split; [done|]. unfold rename_tmp. rewrite E. unfold sf_text. simpl. by rewrite Hi, take_ge.
  - cbn [save_run fst snd save_step replicate]. eexists. split.
    + apply save_run_idle.
    + unfold rename_tmp. rewrite E. unfold sf_text. simpl. by rewrite Hi, take_ge.
  - destruct (write_tmp_ok f fd off (take 1 (drop off text)) H2 E) as [O1 _]. apply (IH _ (off + length (take 1 (drop off text)))).
    + done.
    + done.
    + simpl. rewrite list_lookup_alter_eq, Hi. cbn [fmap option_fmap option_map]. f_equal. by apply overwrite_prefix.
    + rewrite length_take, length_drop. lia.
Qed.
Lemma save_completes f text : two_files f →
  ∃ n f', save_run (replicate n (IoOk 0)) (SvTaken text, f) = (SvIdle, f') ∧ sf_text f' = Some text.
Proof.
  intros H2. pose proof (open_tmp_ok f H2) as Ho. exists (S (S (S (length text)))). cbn [replicate save_run fst snd save_step].
  destruct (open_tmp f) as [fd f1]. destruct Ho as (O1 & _ & O3 & O4). apply (write_completes (length text)); [done..|lia].
Qed.
End file.

(** *** The two files of a process *)

Definition asks (seen : Server → Prop) : Prop := ∃ y, seen y ∧ persists y = true.
Definition stats_of (seen : Server → Prop) (text : bytes) : Prop :=
  asks seen ∧ ∃ y, seen y ∧ text = snapshot_stats to_json (as_engine (sv_app y)).
Definition cache_of (seen : Server → Prop) (text : bytes) : Prop :=
  ∃ y unix now, seen y ∧ snapshot_cache unix now (as_engine (sv_app y)) = Some text.
Lemma saver_mono (a a' : Prop) (P P' : bytes → Prop) f v : (a → a') → (∀ t, P t → P' t) → saver_ok a P f v → saver_ok a' P' f v.
Proof. intros Ha HP. destruct v; simpl; naive_solver. Qed.
Lemma file_mono (a a' : Prop) (P P' : bytes → Prop) t0 f v w : (a → a') → (∀ t, P t → P' t) → file_ok a P t0 f v w → file_ok a' P' t0 f v w.
Proof.
  intros Ha HP [H1 [H2|(t & Ht & H2)] H3 H4]; (constructor; [done| |by eapply saver_mono..]); [by left|right; eauto].
Qed.
Lemma stats_save_ok (seen : Server → Prop) y io t0 f v w : seen y → file_ok (asks seen) (stats_of seen) t0 f v w → busy v && busy w = false →
  let r := stats_save io (as_engine (sv_app y)) v f in busy r.1 && busy w = true ∨ file_ok (asks seen) (stats_of seen) t0 r.2 r.1 w.
Proof.
  intros Hy Hf Hq. destruct v; try (by apply save_step_ok). right. apply taken_ok; [|done].
  split; [apply (fo_v _ _ _ _ _ _ Hf)|by exists y].
Qed.
Lemma cache_save_ok (seen : Server → Prop) y io unix now t0 f v w : seen y → file_ok True (cache_of seen) t0 f v w → busy v && busy w = false →
  let r := cache_save io unix now (as_engine (sv_app y)) v f in busy r.1 && busy w = true ∨ file_ok True (cache_of seen) t0 r.2 r.1 w.
Proof.
  intros Hy Hf Hq. destruct v; try (by apply save_step_ok). right. cbn [cache_save fst snd].
  destruct (snapshot_cache unix now _) as [blob|] eqn:E; [|by destruct Hf]. apply taken_ok; [|done]. by exists y, unix, now.
Qed.

(** The state of one file in a process. *)
Definition stats_ok_at (seen : Server → Prop) (t0 : option bytes) (p : Process) : Prop :=
  file_ok (asks seen) (stats_of seen) t0 (dk_stats (pr_disk p)) (pr_stats_task p) (shutdown_stats (pr_shutdown p)).
Definition cache_ok_at (seen : Server → Prop) (t0 : option bytes) (p : Process) : Prop :=
  file_ok True (cache_of seen) t0 (dk_cache (pr_disk p)) (pr_cache_task p) (shutdown_cache (pr_shutdown p)).
Lemma stats_step_ok (seen : Server → Prop) t0 p e p' : process_step p e = Some p' → seen (pr_server p) → stats_overlap p = false →
  stats_ok_at seen t0 p → stats_overlap p' = true ∨ stats_ok_at seen t0 p'.
Proof.
  intros E Hy Hq Hf. unfold stats_overlap in Hq.
  destruct e as [e| |io| |io unix now| |io unix now]; cbn [process_step] in E;
    [destruct (server_step _ _ _ _ _ _ e) as [[r y]|]; [|done]; injection E as <-; by right|injection E as <-..].
  - right. unfold stats_tick. destruct (pr_stats_task p) eqn:Et; try done. destruct Hf as [F1 F2 F3 F4]. constructor; [done..| |done].
    simpl. destruct (persists (pr_server p)) eqn:Ep; [by exists (pr_server p)|done].
  - by apply stats_save_ok.
  - right. unfold cache_tick. by destruct (pr_cache_task p).
  - by right.
  - right. unfold shutdown_signalled. destruct (pr_shutdown p) eqn:Eh; try done. destruct Hf as [F1 F2 F3 F4]. constructor; [done..|].
    simpl. destruct (persists (pr_server p)) eqn:Ep; [by exists (pr_server p)|done].
  - unfold stats_ok_at in Hf. unfold shutdown_step. destruct (pr_shutdown p) as [|v|v|] eqn:Eh; [right; unfold stats_ok_at; by rewrite Eh| | |right; unfold stats_ok_at; by rewrite Eh].
    + cbn [shutdown_stats] in *. pose proof (stats_save_ok seen (pr_server p) io t0 _ _ _ Hy (file_ok_sym _ _ _ _ _ _ Hf) ltac:(by rewrite andb_comm)) as Hs.
      destruct (stats_save _ _ _ _) as [v' f']. cbn [fst snd] in Hs. unfold stats_overlap, stats_ok_at.
      cbn [with_shutdown pr_stats_task pr_disk dk_stats pr_shutdown].
      assert (shutdown_stats (match v' with SvIdle => ShCache SvAsked | _ => ShStats v' end) = v') as -> by (by destruct v').
      destruct Hs as [Hs|Hs]; [left; by rewrite andb_comm|right; by apply file_ok_sym].
    + right. destruct (cache_save _ _ _ _ _ _) as [v' f']. unfold stats_ok_at. cbn [with_shutdown pr_stats_task pr_disk dk_stats pr_shutdown].
      by assert (shutdown_stats (match v' with SvIdle => ShDone | _ => ShCache v' end) = SvIdle) as -> by (by destruct v').
Qed.
Lemma cache_step_ok (seen : Server → Prop) t0 p e p' : process_step p e = Some p' → seen (pr_server p) → cache_overlap p = false →
  cache_ok_at seen t0 p → cache_overlap p' = true ∨ cache_ok_at seen t0 p'.
Proof.
  intros E Hy Hq Hf. unfold cache_overlap in Hq.
  destruct e as [e| |io| |io unix now| |io unix now]; cbn [process_step] in E;
    [destruct (server_step _ _ _ _ _ _ e) as [[r y]|]; [|done]; injection E as <-; by right|injection E as <-..].
  - right. unfold stats_tick. by destruct (pr_stats_task p).
  - by right.
  - right. unfold cache_tick. destruct (pr_cache_task p) eqn:Et; try done. by destruct Hf as [F1 F2 F3 F4].
  - by apply cache_save_ok.
  - right. unfold shutdown_signalled. destruct (pr_shutdown p) eqn:Eh; try done. destruct Hf as [F1 F2 F3 F4]. constructor; [done..|].
    simpl. by destruct (persists (pr_server p)).
  - unfold cache_ok_at in Hf. unfold shutdown_step. destruct (pr_shutdown p) as [|v|v|] eqn:Eh; [right; unfold cache_ok_at; by rewrite Eh| | |right; unfold cache_ok_at; by rewrite Eh].
    + right. destruct (stats_save _ _ _ _) as [v' f']. destruct Hf as [F1 F2 F3 F4]. constructor; [done..|]. by destruct v'.
    + cbn [shutdown_cache] in *. pose proof (cache_save_ok seen (pr_server p) io unix now t0 _ _ _ Hy (file_ok_sym _ _ _ _ _ _ Hf) ltac:(by rewrite andb_comm)) as Hs.
      destruct (cache_save _ _ _ _ _ _) as [v' f']. cbn [fst snd] in Hs. unfold cache_overlap, cache_ok_at.
      cbn [with_shutdown pr_cache_task pr_disk dk_cache pr_shutdown].
      assert (shutdown_cache (match v' with SvIdle => ShDone | _ => ShCache v' end) = v') as -> by (by destruct v').
      destruct Hs as [Hs|Hs]; [left; by rewrite andb_comm|right; by apply file_ok_sym].
Qed.

(** *** Runs *)

(** The processes a run passes through. *)
Definition visits (p : Process) (es : list ProcessEvent) (q : Process) : Prop := ∃ es1 es2, es = es1 ++ es2 ∧ process_run p es1 = Some q.
Definition passes (p : Process) (es : list ProcessEvent) (y : Server) : Prop := ∃ q, visits p es q ∧ y = pr_server q.
Lemma process_run_snoc p es e : process_run p (es ++ [e]) = let! q := process_run p es in process_step q e.
Proof.
  revert p. induction es as [|x es IH]; intros q; cbn [process_run app mbind option_bind]; [by destruct (process_step q e)|].
  destruct (process_step q x) as [q1|]; [|done]. apply IH.
Qed.
Lemma visits_snoc p es e q : visits p es q → visits p (es ++ [e]) q.
Proof. intros (es1 & es2 & -> & H). exists es1, (es2 ++ [e]). by rewrite app_assoc. Qed.
Lemma visits_end p es q : process_run p es = Some q → visits p es q.
Proof. exists es, []. by rewrite app_nil_r. Qed.
(** A property of a file that every step keeps, until something happens, holds or that has happened. *)
Lemma run_until (I : (Server → Prop) → Process → Prop) (bad : Process → bool) p es p' : process_run p es = Some p' →
  bad p = false → (∀ seen, I seen p) →
  (∀ (seen seen' : Server → Prop) q, (∀ y, seen y → seen' y) → I seen q → I seen' q) →
  (∀ seen q e q', process_step q e = Some q' → seen (pr_server q) → bad q = false → I seen q → bad q' = true ∨ I seen q') →
  (∃ q, visits p es q ∧ bad q = true) ∨ (bad p' = false ∧ I (passes p es) p').
Proof.
  intros Hr Hb H0 Hm Hs. revert p' Hr. induction es as [|e es IH] using rev_ind; intros p' Hr.
  { injection Hr as <-. by right. }
  destruct (bad p') eqn:Ebad; [left; exists p'; split; [by apply visits_end|done]|].
  pose proof Hr as Hr'. rewrite process_run_snoc in Hr. destruct (process_run p es) as [p1|] eqn:E1; [|done]. cbn [mbind option_bind] in Hr.
  destruct (IH p1 eq_refl) as [(q & Hq & ?)|[Hb1 Hi]]; [left; exists q; split; [by apply visits_snoc|done]|].
  assert (Hi' : I (passes p (es ++ [e])) p1).
  { eapply Hm; [|exact Hi]. intros y (q & Hq & ->). exists q. split; [by apply visits_snoc|done]. }
  destruct (Hs (passes p (es ++ [e])) _ _ _ Hr) as [?|?]; [|done|done|congruence|by right].
  exists p1. split; [by apply visits_snoc, visits_end|done].
Qed.
Lemma quiet_shutdown p es q : pr_shutdown p = ShNot → PeSignal ∉ es → visits p es q → pr_shutdown q = ShNot.
Proof.
  intros H0 Hn (es1 & es2 & -> & Hr). assert (Hn' : PeSignal ∉ es1) by set_solver. clear Hn.
  revert q Hr. induction es1 as [|e es IH] using rev_ind; intros q Hr; [by injection Hr as <-|].
  rewrite process_run_snoc in Hr. destruct (process_run p es) as [p1|]; [|done]. cbn [mbind option_bind] in Hr.
  specialize (IH ltac:(set_solver) p1 eq_refl). destruct e as [e| |io| |io unix now| |io unix now]; cbn [process_step] in Hr.
  - destruct (server_step _ _ _ _ _ _ e) as [[r y]|]; [|done]. by injection Hr as <-.
  - injection Hr as <-. unfold stats_tick. by destruct (pr_stats_task p1).
  - by injection Hr as <-.
  - injection Hr as <-. unfold cache_tick. by destruct (pr_cache_task p1).
  - by injection Hr as <-.
  - set_solver.
  - injection Hr as <-. unfold shutdown_step. by rewrite IH.
Qed.

(** A shutdown that is left alone, and whose system calls succeed, publishes the statistics. *)
Lemma shutdown_saves n v f f' p unix now : save_run (replicate n (IoOk 0)) (v, f) = (SvIdle, f') → v ≠ SvIdle → v ≠ SvAsked →
  pr_shutdown p = ShStats v → dk_stats (pr_disk p) = f →
  ∃ m p', process_run p (replicate m (PeShutdownStep (IoOk 0) unix now)) = Some p' ∧ dk_stats (pr_disk p') = f'.
Proof.
  revert v f p. induction n as [|n IH]; intros v f p; cbn [replicate save_run fst snd]; [congruence|]. intros Hr Hi Ha Hh Hf.
  assert (E : stats_save (IoOk 0) (as_engine (sv_app (pr_server p))) v f = save_step (IoOk 0) v f) by (by destruct v).
  assert (Hna : (save_step (IoOk 0) v f).1 ≠ SvAsked).
  { destruct v as [| |text|text fd off|text]; try done; cbn [save_step]; [by destruct (open_tmp f)|by destruct (_ <=? _)]. }
  destruct (save_step (IoOk 0) v f) as [v1 f1] eqn:Ev. cbn [fst snd] in *.
  assert (Es : shutdown_step (IoOk 0) unix now p = with_shutdown (match v1 with SvIdle => ShCache SvAsked | _ => ShStats v1 end)
                 {| dk_stats := f1; dk_cache := dk_cache (pr_disk p) |} p) by (unfold shutdown_step; by rewrite Hh, Hf, E).
  destruct (decide (v1 = SvIdle)) as [->|Hn].
  - rewrite save_run_idle in Hr. injection Hr as <-. exists 1. eexists. cbn [replicate process_run process_step mbind option_bind].
    rewrite Es. by split.
  - destruct (IH v1 f1 (shutdown_step (IoOk 0) unix now p)) as (m & p' & Hm & Hp); [done|done|done|rewrite Es; by destruct v1|by rewrite Es|].
    exists (S m), p'. split; [|done]. cbn [replicate process_run process_step mbind option_bind]. exact Hm.
Qed.
Lemma shutdown_publishes p unix now : pr_shutdown p = ShNot → persists (pr_server p) = true → two_files (dk_stats (pr_disk p)) →
  ∃ m p', process_run p (PeSignal :: replicate m (PeShutdownStep (IoOk 0) unix now)) = Some p'
    ∧ sf_text (dk_stats (pr_disk p')) = Some (snapshot_stats to_json (as_engine (sv_app (pr_server p)))).
Proof.
  intros Hh Hp H2. set (text := snapshot_stats to_json _). destruct (save_completes (dk_stats (pr_disk p)) text H2) as (n & f' & Hr & Ht).
  set (p1 := with_shutdown (ShStats (SvTaken text)) {| dk_stats := dk_stats (pr_disk p); dk_cache := dk_cache (pr_disk p) |} p).
  destruct (shutdown_saves n (SvTaken text) (dk_stats (pr_disk p)) f' p1 unix now Hr) as (m & p' & Hm & Hd); [done..|].
  exists (S m), p'. split; [|by rewrite Hd]. cbn [replicate process_run process_step mbind option_bind].
  unfold shutdown_signalled. rewrite Hh, Hp. exact Hm.
Qed.

(** C22: a snapshot file is never torn while one save at a time writes it.  Saves are sequences of
    system calls, each of which can fail and between which anything else happens.  At every moment of
    every run, so wherever the process stops, the statistics file and the cache file hold what they held at
    the start or a complete snapshot of a state the server went through (of the statistics, only when a
    configuration asked for it), unless before that moment the shutdown's save and the periodic
    save of that file were at its temporary file at the same time; that does not happen before the signal
    that starts the shutdown.  ([overlapping_saves_tear] is what can happen then.) *)
Theorem snapshots_are_whole y d es p' : two_files (dk_stats d) → two_files (dk_cache d) →
  let p := process_of y d in
  process_run p es = Some p' →
  ((∃ q, visits p es q ∧ stats_overlap q = true)
   ∨ whole_file (stats_of (passes p es)) (sf_text (dk_stats d)) (dk_stats (pr_disk p')))
  ∧ ((∃ q, visits p es q ∧ cache_overlap q = true)
     ∨ whole_file (cache_of (passes p es)) (sf_text (dk_cache d)) (dk_cache (pr_disk p')))
  ∧ (PeSignal ∉ es → ∀ q, visits p es q → stats_overlap q = false ∧ cache_overlap q = false).
Proof.
  intros H1 H2 p Hr. split_and!.
  - destruct (run_until (λ seen, stats_ok_at seen (sf_text (dk_stats d))) stats_overlap p es p') as [?|[_ [_ Hw _ _]]];
      [done|done| | |intros; by eapply stats_step_ok|by left|by right].
    + intros seen. constructor; [done|by left|done..].
    + intros seen seen' q Hs. apply file_mono; unfold stats_of, asks; naive_solver.
  - destruct (run_until (λ seen, cache_ok_at seen (sf_text (dk_cache d))) cache_overlap p es p') as [?|[_ [_ Hw _ _]]];
      [done|done| | |intros; by eapply cache_step_ok|by left|by right].
    + intros seen. constructor; [done|by left|done..].
    + intros seen seen' q Hs. apply file_mono; unfold cache_of; naive_solver.
  - intros Hn q Hq. unfold stats_overlap, cache_overlap. rewrite (quiet_shutdown p es q eq_refl Hn Hq). cbn [shutdown_stats shutdown_cache busy].
    by rewrite !andb_false_r.
Qed.
End persist.
