(* ===== verification/PersistProps.v ===== *)
(** * What survives a restart of the process ([Persist]): the counters of the statistics and of
    the cache, with the configuration and the sessions. *)
From Stdlib Require Import Ascii.
From S2P Require Import Prelude RustStr RustNet RustFloat Rule Glob Parser ParserProps Instances FilterEngine FilterEngineProps FilterSpec Compiler Wire Dns DnsInstances Clients Block QueryLog Cache CacheProps Snapshot SnapshotProps Stats StatsProps Engine EngineText EngineProps EngineInstances EngineSafety Spec ProbeLog Pool Config ConfigProps Auth Http Dto App AppProps AppInstances Api ApiProps ApiInstances Startup StartupProps Server ServerProps ServerInstances Persist.

(** ** The statistics through their JSON text *)

(** The codec carries the integers of [s]; a float may lose its last bit. *)
Definition json_carries (to_json : StatsInner → option bytes) (from_json : bytes → option StatsInner) (s : StatsInner) : Prop :=
  ∃ text s', to_json s = Some text ∧ from_json text = Some s' ∧ totals s' = totals s ∧ si_cache s' = si_cache s.

Section counters.
Context {HO : HashOrder}.

(** The sum of one counter over the shards. *)
Definition shard_sum (j : nat) (l : list StatsInner) : Z := foldr Z.add 0%Z ((λ i, nth j (totals i) 0%Z) <$> l).
Lemma empty_shards j (f : nat → StatsInner → StatsInner) l : j < 5 → (∀ i x, f i x = stats_default) → shard_sum j (imap f l) = 0%Z.
Proof.
  intros Hj. revert f. induction l as [|x l IH]; intros f Hf; [done|]. unfold shard_sum in *. simpl.
  rewrite IH by (intros; apply Hf). rewrite Hf. by do 5 (destruct j as [|j]; [done|]); lia.
Qed.
(** Importing puts everything into the first shard, and merging gives it back. *)
Lemma import_totals to_json from_json (s0 s1 : Stats) k : st_shards s0 ≠ [] → st_shards s1 ≠ [] →
  json_carries to_json from_json (Stats.with_cache k (merged s1)) →
  let r := stats_import from_json s0 (stats_export to_json s1 k) in totals (merged r.2) = totals (merged s1) ∧ r.1 = k.
Proof.
  intros H0 H1 (text & s' & Ht & Hf & Htot & Hk). unfold stats_import, stats_export. rewrite Ht. cbn [default id]. rewrite Hf.
  split; [|exact Hk]. cbn [snd]. set (s2 := set_stat_shards _ s0).
  assert (H2 : st_shards s2 ≠ []) by (unfold s2; simpl; by destruct (st_shards s0)).
  assert (Hj : ∀ j, j < 5 → nth j (totals (merged s2)) 0%Z = nth j (totals (merged s1)) 0%Z).
  { intros j Hj. rewrite (merged_totals s2 j Hj H2). change (foldr Z.add 0%Z _) with (shard_sum j (st_shards s2)).
    assert (E : shard_sum j (st_shards s2) = nth j (totals s') 0%Z).
    { unfold s2. simpl. destruct (st_shards s0) as [|x l]; [done|]. rewrite imap_cons. cbn [Nat.eqb].
      change (shard_sum j (?a :: ?l)) with (nth j (totals a) 0 + shard_sum j l)%Z. rewrite empty_shards by done. apply Z.add_0_r. }
    rewrite E, Htot. change (totals (Stats.with_cache k (merged s1))) with (totals (merged s1)).
    rewrite (merged_totals s1 j Hj H1). apply wrap_small, wrap_in_u. lia. }
  unfold totals in *. f_equal; [exact (Hj 0 ltac:(lia))|]. f_equal; [exact (Hj 1 ltac:(lia))|].
  f_equal; [exact (Hj 2 ltac:(lia))|]. f_equal; [exact (Hj 3 ltac:(lia))|]. f_equal. exact (Hj 4 ltac:(lia)).
Qed.
End counters.

Section restart.
Context {DL : DnsLib} {DC : DnsCodec} {RX : RegexLib} {IL : IpNetLib} {US : UnstableSort} {HO : HashOrder}.
Context {L : LruLib QueryKey Entry} {LL : LruLaws L} (khash : QueryKey → Z) {CC : ConfigCodec} {CL : ConfigCodecLaws CC} {SL : SessionLib}.
Context (dhash : bytes → Z) (chash : list (bytes * Z * Action) → Z) (parallelism : option Z).
Context (make_transport : list SocketAddr → UpstreamSpec → result () UpstreamError).
Context (to_json : StatsInner → option bytes) (from_json : bytes → option StatsInner).
Context {qsender psender qstore pstore : Type}.

Local Abbreviation App := (AppState (qsender:=qsender) (psender:=psender) (qstore:=qstore) (pstore:=pstore)).
Local Abbreviation boots := (boot khash dhash chash parallelism make_transport from_json (qsender:=qsender)).

(** A restart loses no statistics.  The process that boots from the files of a consistent
    server, unless an upstream cannot be set up, runs on the same configuration
    with an engine built from it, and accepts the sessions issued before; when the configuration
    persists the statistics and the file holds those of the server's last state, it continues with the same numbers of queries,
    blocked, cached, rewritten and failed queries and the same cache counters, whatever
    happened to the snapshot of the cache. *)
Lemma restart_keeps_counters `{!RegexLaws RX} `{!GlobLaws RX} B env d (s : App) secret :
  let g := as_engine s in
  consistent dhash chash make_transport B s → stats_ok (eg_stats g) →
  au_session_secret (cf_auth (as_config s)) = Some secret → as_sessions s = signer_new secret SESSION_TTL_SECS →
  sn_dns_bind env = None → sn_http_bind env = None → lists_fit (as_config s) (as_files s) →
  (0 <= cg_min_ttl_secs (cf_cache (as_config s)))%Z → (0 <= cg_max_ttl_secs (cf_cache (as_config s)))%Z →
  (∃ e, boots (start_from d env) (as_files s) = Some (Err (SeEngine (AePool e)))) ∨
  (∃ b, boots (start_from d env) (as_files s) = Some (Ok b) ∧ ∀ qtx ptx qs ps, let s' : App := assemble qtx ptx qs ps b in
    as_config s' = as_config s ∧ as_sessions s' = as_sessions s
    ∧ runs_on dhash chash make_transport (as_config s') (as_files s') s'
    ∧ (stc_persist (cf_stats (as_config s)) = true → sf_text (dk_stats d) = Some (snapshot_stats to_json g) →
       json_carries to_json from_json (Stats.with_cache (dc_counters (eg_cache g)) (merged (eg_stats g))) →
       totals (merged (eg_stats (as_engine s'))) = totals (merged (eg_stats g))
       ∧ dc_counters (eg_cache (as_engine s')) = dc_counters (eg_cache g))).
Proof.
  intros g Hs Hst Hsec Hsig Hd Hh Hf H1 H2.
  destruct (restart_spec khash dhash chash parallelism make_transport from_json B (start_from d env) s secret)
    as [He|(b & E & Hb)]; [done..|by left|].
  right. exists b. split; [done|]. intros qtx ptx qs ps. destruct (Hb qtx ptx qs ps) as (Hc & _ & Hss & Hr & g0 & Hne & Hstats & Hcnt). cbn zeta.
  do 3 (split; [done|]). intros Hp Ht Hj. rewrite Hp in Hstats, Hcnt. cbn [start_from sn_stats] in Hstats, Hcnt. rewrite Ht in Hstats, Hcnt.
  destruct (import_totals to_json from_json (eg_stats g0) (eg_stats g) (dc_counters (eg_cache g)) Hne (stats_shards_ne _ Hst) Hj) as [Htot Hk].
  unfold load_stats, snapshot_stats in Hstats, Hcnt. fold g in Hstats, Hcnt. destruct (stats_import _ _ _) as [k st] eqn:Ei. cbn [fst snd] in *.
  split; [by rewrite Hstats|by rewrite Hcnt, <- Hk].
Qed.
End restart.

(** ** A run *)

(** A codec that writes the ten integers, each in four bytes. *)
Definition ten_to_json (s : StatsInner) : option bytes :=
  let k := si_cache s in
  Some (mjoin ((λ z, be_bytes2 (z / 65536) ++ be_bytes2 z) <$> totals s ++ [cn_hits k; cn_misses k; cn_stale_hits k; cn_refreshes k; cn_refresh_failures k])).
Definition read4 (b : bytes) (i : nat) : Z :=
  match drop (4 * i) b with
  | a :: b :: c :: d :: _ => (be16 a b * 65536 + be16 c d)%Z
  | _ => 0
  end.
Definition ten_from_json (b : bytes) : option StatsInner :=
  let n := read4 b in
  Some {| si_total := n 0; si_blocked := n 1; si_cached := n 2; si_rewritten := n 3; si_errors := n 4; si_proc_time_hist := [];
          si_resolved_domains := ∅; si_blocked_domains := ∅; si_clients := ∅; si_upstreams := ∅; si_upstream_rtt_sum := ∅;
          si_upstream_rtt_count := ∅; si_upstream_latency_hist := ∅; si_series := [];
          si_cache := {| cn_hits := n 5; cn_misses := n 6; cn_stale_hits := n 7; cn_refreshes := n 8; cn_refresh_failures := n 9 |} |}.
(** The server of [ServerInstances] after its query, reload and answer. *)
Definition demo_after := default demo_server (demo_server_run demo_events).
Lemma demo_after_run : demo_server_run demo_events = Some demo_after.
Proof. apply is_Some_default. vm_refl. Qed.
Lemma demo_after_ok : server_ok sample_hash demo_hash pipe_chash demo_transport demo_installed false 5 demo_after.
Proof.
  exact (reaches_ok sample_hash demo_hash pipe_chash demo_transport pipe_send demo_installed 1 demo_server 4 false
    demo_after demo_server_ok ltac:(lia) ltac:(lia) (demo_reaches _ demo_after_run)).
Qed.
Definition no_file : SnapFile := {| sf_inodes := []; sf_file := None; sf_tmp := None |}.
Definition empty_disk : Disk := {| dk_stats := no_file; dk_cache := no_file |}.
Definition demo_process : Process (qsender:=list QueryLogEntry) (psender:=list ProbeEvent) (qstore:=unit) (pstore:=unit) :=
  process_of demo_after empty_disk.
Lemma no_file_two : two_files no_file.
Proof. split; by intros i [=]. Qed.
Example demo_counts : totals (merged (eg_stats (as_engine (sv_app demo_after)))) = [1; 0; 0; 0; 0]%Z.
Proof. vm_refl. Qed.
Local Abbreviation demo_process_run := (process_run sample_hash demo_hash pipe_chash demo_transport pipe_send ten_to_json demo_process).
(** A save of the statistics, a packet between its system calls, a save of the cache that fails,
    and a second save of the statistics that is still writing when the run ends. *)
Definition demo_ticks : list ProcessEvent :=
  [PeStatsTick; PeStatsStep (IoOk 0); PeStatsStep (IoOk 0); PeServer (EvPacket (pipe_env 2) 7 pipe_packet pipe_client_ip);
   PeStatsStep (IoOk 100); PeStatsStep (IoOk 0); PeStatsStep (IoOk 0); PeCacheTick; PeCacheStep (IoOk 0) 1000 (2 * NANOS);
   PeCacheStep (IoOk 0) 1000 (2 * NANOS); PeCacheStep IoFailed 1000 (2 * NANOS); PeStatsTick; PeStatsStep (IoOk 0);
   PeStatsStep (IoOk 0); PeStatsStep (IoOk 7)].
Lemma ticks_no_signal : PeSignal ∉ demo_ticks.
Proof. unfold demo_ticks. rewrite !not_elem_of_cons. split_and!; try discriminate. apply not_elem_of_nil. Qed.
Lemma snapshots_are_whole_witness :
  ∃ p', demo_process_run demo_ticks = Some p'
    ∧ sf_text (dk_stats (pr_disk p')) = Some (snapshot_stats ten_to_json (as_engine (sv_app demo_after)))
    ∧ whole_file (stats_of ten_to_json (passes sample_hash demo_hash pipe_chash demo_transport pipe_send ten_to_json demo_process demo_ticks))
        None (dk_stats (pr_disk p')).
Proof.
  destruct (demo_process_run demo_ticks) as [p'|] eqn:E.
  - exists p'. split; [reflexivity|]. split.
    + assert (H : (λ p, bool_decide (sf_text (dk_stats (pr_disk p)) = Some (snapshot_stats ten_to_json (as_engine (sv_app demo_after)))))
        <$> demo_process_run demo_ticks = Some true) by vm_refl.
      rewrite E in H. apply (inj Some), bool_decide_eq_true in H. exact H.
    + destruct (snapshots_are_whole sample_hash demo_hash pipe_chash demo_transport pipe_send ten_to_json demo_after empty_disk demo_ticks p'
        no_file_two no_file_two E) as ([(q & Hq & Hb)|Hw] & _ & Hn); [|exact Hw].
      exfalso. rewrite (proj1 (Hn ticks_no_signal q Hq)) in Hb. discriminate Hb.
  - exfalso. assert (H : is_some (demo_process_run demo_ticks) = true) by vm_refl. rewrite E in H. discriminate H.
Defined.

(** The periodic task has written the temporary file and is about to rename it when the shutdown
    opens it for its own save: the rename publishes an empty file. *)
Definition torn_events : list ProcessEvent :=
  [PeStatsTick; PeStatsStep (IoOk 0); PeStatsStep (IoOk 0); PeStatsStep (IoOk 100); PeStatsStep (IoOk 0);
   PeSignal; PeShutdownStep (IoOk 0) 1001 (3 * NANOS); PeShutdownStep (IoOk 0) 1001 (3 * NANOS); PeStatsStep (IoOk 0)].
Lemma overlapping_saves_tear :
  (λ p, (sf_text (dk_stats (pr_disk p)), pr_stats_task p)) <$> demo_process_run torn_events = Some (Some [], SvIdle)
  ∧ snapshot_stats ten_to_json (as_engine (sv_app demo_after)) ≠ [].
Proof. split; [vm_refl|]. intros H. apply (f_equal length) in H. vm_compute in H. discriminate H. Qed.

Definition demo_boot : StartEnv :=
  {| sn_dns_bind := None; sn_http_bind := None; sn_random := []; sn_save_ok := true; sn_draw := demo_draw; sn_stats := None;
     sn_cache := None; sn_first_instant := 0; sn_unix := 2000; sn_now := 0 |}.
(** The shutdown saves the statistics; the cache cannot be saved. *)
Definition halt_events : list ProcessEvent :=
  PeSignal :: replicate 5 (PeShutdownStep (IoOk 100) 1001 (3 * NANOS)) ++ replicate 2 (PeShutdownStep IoFailed 1001 (3 * NANOS)).
Definition demo_halted : Disk := default empty_disk (pr_disk <$> demo_process_run halt_events).
Local Abbreviation demo_last := (sv_app (pr_server demo_process)).
Example demo_halted_texts : sf_text (dk_cache demo_halted) = None
  ∧ sf_text (dk_stats demo_halted) = Some (snapshot_stats ten_to_json (as_engine demo_last)).
Proof.
  split; [vm_refl|]. assert (H : bool_decide (sf_text (dk_stats demo_halted) = Some (snapshot_stats ten_to_json (as_engine demo_last))) = true) by vm_refl.
  by apply bool_decide_eq_true in H.
Qed.
Lemma demo_last_ok : server_ok sample_hash demo_hash pipe_chash demo_transport demo_installed false 5 (pr_server demo_process).
Proof. exact demo_after_ok. Qed.
Lemma demo_last_fits : lists_fit (as_config demo_last) (as_files demo_last).
Proof. split; [vm_compute; repeat constructor|]. apply fits_engine_ok. vm_refl. Qed.
Lemma demo_json : json_carries ten_to_json ten_from_json
  (Stats.with_cache (dc_counters (eg_cache (as_engine demo_last))) (merged (eg_stats (as_engine demo_last)))).
Proof.
  set (s := Stats.with_cache _ _). exists (default [] (ten_to_json s)), (default stats_default (ten_from_json (default [] (ten_to_json s)))).
  split; [reflexivity|]. split; [reflexivity|]. unfold s. split; vm_refl.
Qed.
