(* ===== verification/Assets.v ===== *)
(** * server: the web interface ([assets.rs]).

    The embedded files and the table of MIME types are parameters: the first is produced by
    the build of the front end, the second is a library's. *)
From Stdlib Require Import Ascii.
From S2P Require Import Prelude RustStr RustNet RustFloat Rule Glob Parser ParserProps FilterEngine FilterEngineProps Instances Compiler Wire Dns Clients Block QueryLog Cache Stats Engine Spec ProbeLog Pool Config Auth Http Dto App Api.

(** [Assets::get] and [mime_guess::from_path(..).first_or_octet_stream()]. *)
Class AssetLib := { asset_get : bytes → option bytes; mime_of : bytes → bytes }.

(** A response of these handlers: status, content type, body.  axum sends a plain text for a
    string. *)
Record Page : Type := { pg_status : Z; pg_type : bytes; pg_body : bytes }.
Definition text_page (status : Z) (body : bytes) : Page :=
  {| pg_status := status; pg_type := bs "text/plain; charset=utf-8"; pg_body := body |}.
Definition is_slash (b : byte) : bool := bool_decide (b = "/"%char).
Definition INDEX : bytes := bs "index.html".
Definition NOT_BUILT : bytes := bs "Web UI not built. Run `pnpm install && pnpm build` in web/.".

Section assets.
Context {AL : AssetLib}.

Definition serve_index : Page :=
  match asset_get INDEX with
  | Some content => {| pg_status := 200; pg_type := bs "text/html"; pg_body := content |}
  | None => text_page 404 NOT_BUILT
  end.
Definition serve_path (path : bytes) : Page :=
  let path := trim_start_matches is_slash path in
  let path := if bool_decide (path = []) then INDEX else path in
  match asset_get path with
  | Some content => {| pg_status := 200; pg_type := mime_of path; pg_body := content |}
  | None => serve_index
  end.
(** The handlers; [asset] is given the wildcard of its route. *)
Definition index : Page := serve_path INDEX.
Definition asset (path : bytes) : Page := serve_path (bs "assets/" ++ path).
Definition fallback (uri_path : bytes) : Page :=
  if starts_with (bs "/api") uri_path then text_page 404 (bs "not found") else serve_path uri_path.

(** ** Properties *)

(** The file a path stands for. *)
Definition asset_name (path : bytes) : bytes :=
  let path := trim_start_matches is_slash path in if bool_decide (path = []) then INDEX else path.

Lemma serve_path_built path html : asset_get INDEX = Some html →
  pg_status (serve_path path) = 200%Z
  ∧ pg_body (serve_path path) = default html (asset_get (asset_name path))
  ∧ (asset_get (asset_name path) = None → pg_type (serve_path path) = bs "text/html").
Proof.
  intros Hi. unfold serve_path, serve_index. rewrite Hi. fold (asset_name path). by destruct (asset_get (asset_name path)).
Qed.
(** The API and the interface share one router: the paths of the API all begin with the prefix
    that [fallback] refuses, and with neither of the two routes of the interface. *)
Lemma api_path_prefix c : ∃ rest, path_of c = bs "/api" ++ rest.
Proof. by destruct c; eexists. Qed.

(** The web interface.  With the front end built in, every path outside the API answers
    200: an embedded file under its own name with its type, and any other path, such as a
    route of the single-page application, with [index.html]; nothing is ever served but
    embedded files.  A path of the API that no endpoint takes answers 404 and never the
    interface, and no path of an endpoint is one of the interface's.  Without the front end
    every path answers 404 unless it names an embedded file. *)
Theorem assets_serve :
  (∀ html, asset_get INDEX = Some html →
    ∀ path, starts_with (bs "/api") path = false →
      pg_status (fallback path) = 200%Z ∧ pg_body (fallback path) = default html (asset_get (asset_name path))
      ∧ (asset_get (asset_name path) = None → pg_type (fallback path) = bs "text/html")
      ∧ fallback (bs "/") = index)
  ∧ (∀ path, pg_status (fallback path) = 200%Z → ∃ name, asset_get name = Some (pg_body (fallback path)))
  ∧ (∀ c, fallback (path_of c) = text_page 404 (bs "not found") ∧ path_of c ≠ bs "/" ∧ starts_with (bs "/assets/") (path_of c) = false)
  ∧ (asset_get INDEX = None → ∀ path, asset_get (asset_name path) = None → pg_status (fallback path) = 404%Z).
Proof.
  split_and!.
  - intros html Hi path Hp. unfold fallback. rewrite Hp. destruct (serve_path_built path html Hi) as (H1 & H2 & H3). by split_and!.
  - intros path. unfold fallback. destruct (starts_with _ _); [done|]. unfold serve_path, serve_index.
    fold (asset_name path). destruct (asset_get (asset_name path)) eqn:E; [by intros _; eexists|]. destruct (asset_get INDEX) eqn:Ei; [by intros _; eexists|done].
  - intros c. destruct (api_path_prefix c) as [rest ->]. unfold fallback. rewrite starts_with_app. by split_and!.
  - intros Hi path Hn. unfold fallback. destruct (starts_with _ _); [done|]. unfold serve_path, serve_index.
    fold (asset_name path). by rewrite Hn, Hi.
Qed.
End assets.

(** A built front end. *)
Definition demo_assets : AssetLib :=
  {| asset_get := λ p, if bool_decide (p = INDEX) then Some (bs "<html>") else if bool_decide (p = bs "assets/app.js") then Some (bs "run()") else None;
     mime_of := λ p, if ends_with (bs ".js") p then bs "text/javascript" else bs "text/html" |}.
Example demo_script : asset (AL:=demo_assets) (bs "app.js") = {| pg_status := 200; pg_type := bs "text/javascript"; pg_body := bs "run()" |}.
Proof. reflexivity. Qed.
Example demo_route : fallback (AL:=demo_assets) (bs "/settings/clients") = index (AL:=demo_assets).
Proof. reflexivity. Qed.
Lemma assets_serve_witness :
  pg_status (fallback (AL:=demo_assets) (bs "/settings/clients")) = 200%Z
  ∧ pg_body (fallback (AL:=demo_assets) (bs "/settings/clients")) = bs "<html>"
  ∧ fallback (AL:=demo_assets) (bs "/api/status") = text_page 404 (bs "not found").
Proof.
  destruct (assets_serve (AL:=demo_assets)) as (H1 & _ & H3 & _).
  destruct (H1 (bs "<html>") eq_refl (bs "/settings/clients") eq_refl) as (Hs & Hb & _).
  split; [exact Hs|]. split; [exact Hb|]. exact (proj1 (H3 CStatus)).
Defined.
