(* ===== verification/Framing.v ===== *)
(** * Framing of DNS messages on a byte stream: the two-byte length prefix of TCP, DNS over
    TLS and DNS over QUIC ([plain.rs], [doq.rs], and the TCP listener of [server.rs]).

    A stream is the list of bytes still to come before its end. *)
From Stdlib Require Import Ascii.
From S2P Require Import Prelude RustStr RustNet Rule Wire Dns Spec.

(** [read_exact]. *)
Definition read_exact (n : nat) (s : bytes) : option (bytes * bytes) :=
  if length s <? n then None else Some (take n s, drop n s).
(** The length prefix, then the body. *)
Definition read_frame (s : bytes) : option (bytes * bytes) :=
  let! (len_buf, s) := read_exact 2 s in
  match len_buf with
  | [hi; lo] => read_exact (Z.to_nat (be16 hi lo)) s
  | _ => None
  end.
(** [write_tcp_bytes]: what reaches the stream. *)
Definition frame (b : bytes) : bytes := be_bytes2 (Z.of_nat (length b)) ++ b.
Definition write_tcp_bytes (b : bytes) : result bytes UpstreamError :=
  if (U16_MAX <? Z.of_nat (length b))%Z then Err (UeProto (bs "message too large for TCP")) else Ok (frame b).

Section framing.
Context {DL : DnsLib} {DC : DnsCodec} (io_text proto_text : bytes).

(** [encode] and [decode]; the text of an error is the library's. *)
Definition encode (m : Message) : result bytes UpstreamError := ok_or (msg_to_vec m) (UeProto proto_text).
Definition decode (b : bytes) : result Message UpstreamError := ok_or (msg_from_vec b) (UeProto proto_text).
(** [read_tcp_message] and [write_tcp_message]. *)
Definition read_tcp_message (s : bytes) : result (Message * bytes) UpstreamError :=
  let? (b, rest) := ok_or (read_frame s) (UeIo io_text) in
  let? m := decode b in
  Ok (m, rest).
Definition write_tcp_message (m : Message) : result bytes UpstreamError :=
  let? b := encode m in write_tcp_bytes b.
End framing.

(** ** Properties *)

Definition frame_fits (b : bytes) : Prop := (Z.of_nat (length b) <= U16_MAX)%Z.

Lemma length_frame b : length (frame b) = 2 + length b.
Proof. done. Qed.
Lemma read_exact_app b s : read_exact (length b) (b ++ s) = Some (b, s).
Proof.
  unfold read_exact. rewrite (proj2 (Nat.ltb_ge _ _)) by (rewrite length_app; lia). by rewrite take_app_length, drop_app_length.
Qed.
(** A frame reads back, and leaves what follows it. *)
Lemma read_frame_app b s : frame_fits b → read_frame (frame b ++ s) = Some (b, s).
Proof.
  intros Hb. unfold read_frame, frame. rewrite <- app_assoc. change 2 with (length (be_bytes2 (Z.of_nat (length b)))).
  rewrite read_exact_app. cbn [mbind option_bind]. unfold be_bytes2. unfold frame_fits in Hb.
  rewrite be16_bytes by (unfold in_u, U16_MAX in *; lia). by rewrite Nat2Z.id, read_exact_app.
Qed.
Lemma read_frame_shorter s b rest : read_frame s = Some (b, rest) → length rest < length s.
Proof.
  unfold read_frame, read_exact. destruct (Nat.ltb_spec (length s) 2); [done|]. cbn [mbind option_bind].
  destruct s as [|hi [|lo s]]; [simpl in *; lia..|]. cbn [take drop]. generalize (Z.to_nat (be16 hi lo)). intros n.
  destruct (_ <? _); [done|]. intros [= _ <-]. rewrite !length_drop. cbn [length]. lia.
Qed.
(** All frames of a stream, until its end or a truncated frame. *)
Fixpoint read_frames (fuel : nat) (s : bytes) : list bytes :=
  match fuel with
  | 0 => []
  | S fuel => match read_frame s with None => [] | Some (b, rest) => b :: read_frames fuel rest end
  end.
Lemma read_frames_join fs n : Forall frame_fits fs → length fs <= n → read_frames n (mjoin (frame <$> fs)) = fs.
Proof.
  intros H. revert n. induction H as [|b fs Hb _ IH]; intros n Hn; [by destruct n|]. destruct n as [|n]; simpl in Hn; [lia|].
  change (mjoin (frame <$> b :: fs)) with (frame b ++ mjoin (frame <$> fs)). cbn [read_frames].
  rewrite read_frame_app by done. by rewrite IH by lia.
Qed.
