(* ===== verification/Listener.v ===== *)
(** * bulwark-engine: the DNS listeners ([crates/bulwark-engine/src/server.rs]).

    The engine is a state machine [handle : S → Ingress → S * EngineResponse] here; its own
    contract is in [EngineSafety].  A TCP connection is the stream of bytes the client sends
    before it closes or stalls. *)
From Stdlib Require Import Ascii.
From S2P Require Import Prelude RustStr RustNet Rule FilterEngine Wire Dns DnsInstances Clients Block Cache QueryLog Stats Engine Spec Framing.

Definition MAX_UDP_INFLIGHT : Z := 1024.
Definition MAX_TCP_CONNS : Z := 512.

Section listener.
Context {DL : DnsLib} {DC : DnsCodec} {S : Type} (handle : S → Ingress → S * EngineResponse).

(** The truncated answer of [encode_udp]. *)
Definition truncated (resp : Message) : Message :=
  {| msg_id := msg_id resp; msg_type := MtResponse; msg_opcode := msg_opcode resp; msg_truncation := true;
     msg_rd := msg_rd resp; msg_ra := msg_ra resp; msg_cd := msg_cd (message_new (msg_id resp) MtResponse (msg_opcode resp));
     msg_rcode := msg_rcode resp; msg_queries := msg_queries resp; msg_answers := []; msg_authorities := [];
     msg_additionals := []; msg_edns := None |}.
Definition encode_udp (resp : Message) (max : nat) : bytes :=
  match msg_to_vec resp with
  | Some b => if length b <=? max then b else default [] (msg_to_vec (truncated resp))
  | None => []
  end.
(** The reply to one datagram, as [spawn_udp] chooses it; an empty one is not sent. *)
Definition udp_reply (max : nat) (r : EngineResponse) : bytes :=
  match r with
  | ErWire b => if length b <=? max then b else encode_udp (response_into_message r) max
  | ErMessage _ => encode_udp (response_into_message r) max
  end.
Definition serve_udp (s : S) (datagram : bytes) : S * option bytes :=
  match ingress_parse datagram with
  | None => (s, None)
  | Some ingress =>
      let max := Z.to_nat (udp_max_payload ingress) in
      let '(s, r) := handle s ingress in
      (s, match udp_reply max r with [] => None | b => Some b end)
  end.

(** [serve_tcp_conn]: the frames written back, until the stream ends or a message cannot be
    parsed or answered.  Every round consumes two bytes at least, so the length of the
    stream is fuel enough. *)
Fixpoint serve_tcp (fuel : nat) (s : S) (stream : bytes) : S * bytes :=
  match fuel with
  | 0 => (s, [])
  | Datatypes.S fuel =>
      match read_frame stream with
      | None => (s, [])
      | Some (msg_buf, rest) =>
          match ingress_parse msg_buf with
          | None => (s, [])
          | Some ingress =>
              let '(s, r) := handle s ingress in
              match response_into_wire r with
              | None => (s, [])
              | Some b =>
                  if (U16_MAX <? Z.of_nat (length b))%Z then (s, [])
                  else let '(s, out) := serve_tcp fuel s rest in (s, frame b ++ out)
              end
          end
      end
  end.
Definition serve_tcp_conn (s : S) (stream : bytes) : S * bytes := serve_tcp (length stream) s stream.

(** ** Properties *)

(** A datagram a client is sent is at most [max] bytes, or a truncated answer. *)
Lemma encode_udp_cases m max b : encode_udp m max = b →
  (msg_to_vec m = Some b ∧ length b ≤ max) ∨ (∃ full, msg_to_vec m = Some full ∧ max < length full ∧ b = default [] (msg_to_vec (truncated m)))
  ∨ (msg_to_vec m = None ∧ b = []).
Proof.
  unfold encode_udp. intros <-. destruct (msg_to_vec m) as [full|]; [|by right; right].
  destruct (Nat.leb_spec (length full) max); [by left|right; left; eauto].
Qed.
(** The wire format: a message without records takes a header of 12 bytes and, for each question,
    a name of at most 255 and four bytes of type and class. *)
Definition questions_fit : Prop :=
  ∀ m b, msg_to_vec m = Some b → msg_answers m = [] → msg_authorities m = [] →
    msg_additionals m = [] → msg_edns m = None → length b ≤ 12 + 259 * length (msg_queries m).
Lemma max_payload_bounds (i : Ingress) : (512 <= udp_max_payload i <= 4096)%Z.
Proof. unfold udp_max_payload, clamp. lia. Qed.
(** A truncated answer: the truncation bit, the id, the questions and the response code of the
    original, no records. *)
Definition truncates (m t : Message) : Prop :=
  msg_truncation t = true ∧ msg_type t = MtResponse ∧ msg_id t = msg_id m ∧ msg_queries t = msg_queries m ∧ msg_rcode t = msg_rcode m
  ∧ msg_answers t = [] ∧ msg_authorities t = [] ∧ msg_additionals t = [] ∧ msg_edns t = None.
Lemma encode_udp_exact m max b : questions_fit → encode_udp m max = b → b ≠ [] →
  (msg_to_vec m = Some b ∧ length b ≤ max) ∨
  ((∃ full, msg_to_vec m = Some full ∧ max < length full) ∧ (∃ t, truncates m t ∧ msg_to_vec t = Some b)
   ∧ length b ≤ 12 + 259 * length (msg_queries m)).
Proof.
  intros Hq Hb Hne. destruct (encode_udp_cases m max b Hb) as [H|[(full & Hf & Hl & Ht)|[_ ?]]]; [by left| |done]. right.
  destruct (msg_to_vec (truncated m)) as [t|] eqn:E; [|done]. simpl in Ht. subst b. rewrite Ht in *.
  split; [eauto|]. split; [|exact (Hq _ _ E eq_refl eq_refl eq_refl eq_refl)]. exists (truncated m). split; [repeat split|done].
Qed.

(** The truncated reply is sent whatever its length: a blocked query of many questions, all of
    which the answer repeats, gets a datagram longer than the limit. *)
Lemma truncated_reply_exceeds q mode v4 v6 ttl max full b :
  (∀ m b, msg_to_vec m = Some b → 12 + 5 * length (msg_queries m) ≤ length b) →
  max < 12 + 5 * length (msg_queries q) →
  msg_to_vec (block_response q mode v4 v6 ttl) = Some full → msg_to_vec (truncated (block_response q mode v4 v6 ttl)) = Some b →
  encode_udp (block_response q mode v4 v6 ttl) max = b ∧ max < length b.
Proof.
  intros Hw Hm Hf Ht.
  assert (Hq : msg_queries (block_response q mode v4 v6 ttl) = msg_queries q).
  { destruct mode; try done; unfold block_response, push_ip; repeat case_match; done. }
  pose proof (Hw _ _ Hf) as H1. pose proof (Hw _ _ Ht) as H2. cbn [truncated msg_queries] in H2. rewrite Hq in H1, H2.
  split; [|lia]. unfold encode_udp. rewrite Hf, Ht. destruct (Nat.leb_spec (length full) max); [lia|done].
Qed.

(** What a connection owes its client: the answers to its messages one after the other, up to
    the first that cannot be parsed, encoded or framed. *)
Fixpoint tcp_answers (s : S) (qs : list bytes) : S * list bytes :=
  match qs with
  | [] => (s, [])
  | q :: qs =>
      match ingress_parse q with
      | None => (s, [])
      | Some i =>
          let '(s, r) := handle s i in
          match response_into_wire r with
          | None => (s, [])
          | Some b => if (Z.of_nat (length b) <=? U16_MAX)%Z then
                        let '(s, bs) := tcp_answers s qs in (s, b :: bs)
                      else (s, [])
          end
      end
  end.
Lemma tcp_answers_fit s qs : Forall frame_fits (tcp_answers s qs).2.
Proof.
  revert s. induction qs as [|q qs IH]; intros s; simpl; [constructor|]. destruct (ingress_parse q); [|constructor].
  destruct (handle s _) as [s1 r]. destruct (response_into_wire r) as [b|]; [|constructor].
  destruct (Z.leb_spec (Z.of_nat (length b)) U16_MAX); [|constructor]. specialize (IH s1). destruct (tcp_answers s1 qs).
  constructor; done.
Qed.
(** A TCP connection serves pipelined queries in order: for any sequence of framed
    queries, the bytes written are exactly the frames of the engine's answers to them, one
    after the other with the engine's state threaded through, and a client that reads frames
    gets these answers back. *)
Theorem tcp_pipelining s qs : Forall frame_fits qs →
  serve_tcp_conn s (mjoin (frame <$> qs)) = ((tcp_answers s qs).1, mjoin (frame <$> (tcp_answers s qs).2))
  ∧ read_frames (length (tcp_answers s qs).2) (serve_tcp_conn s (mjoin (frame <$> qs))).2 = (tcp_answers s qs).2.
Proof.
  intros Hq. assert (H : ∀ n, length (mjoin (frame <$> qs)) ≤ n →
    serve_tcp n s (mjoin (frame <$> qs)) = ((tcp_answers s qs).1, mjoin (frame <$> (tcp_answers s qs).2))).
  { revert s. induction Hq as [|q qs Hf _ IH]; intros s n Hn; [by destruct n|].
    change (mjoin (frame <$> q :: qs)) with (frame q ++ mjoin (frame <$> qs)) in *.
    destruct n as [|n]; [rewrite length_app, length_frame in Hn; lia|].
    cbn [serve_tcp tcp_answers]. rewrite read_frame_app by done. destruct (ingress_parse q) as [i|]; [|done].
    destruct (handle s i) as [s1 r]. destruct (response_into_wire r) as [b|]; [|done].
    rewrite Z.ltb_antisym. destruct (Z.of_nat (length b) <=? U16_MAX)%Z; [|done]. cbn [negb].
    rewrite IH by (rewrite length_app, length_frame in Hn; lia). by destruct (tcp_answers s1 qs). }
  unfold serve_tcp_conn. rewrite H by done. split; [done|]. apply read_frames_join; [apply tcp_answers_fit|done].
Qed.
End listener.

(** ** Witnesses *)

(** An engine that answers every query with the same message. *)
Definition echo_engine (m : Message) (n : nat) (_ : Ingress) : nat * EngineResponse := (S n, ErMessage m).
Definition echo_reply : Message := sample_response (bs "ads.example") 300.
Lemma small_questions_fit : questions_fit (DL:=small_dns) (DC:=small_codec).
Proof.
  intros m b Hb Ha _ _ _. cbn [msg_to_vec small_codec] in Hb. unfold small_to_vec in Hb.
  destruct (msg_queries m) as [|q [|q' qs]]; try done. rewrite Ha in Hb. destruct (_ && _); [|done].
  unfold small_name in Hb. destruct (Nat.ltb_spec (length (q_name q)) 64); [|done]. destruct (negb _); [|done].
  cbn [mbind option_bind andb mapM mret option_ret] in Hb.
  destruct (_ <? 65536)%Z; [|done]. injection Hb as <-. simpl. repeat (rewrite length_app; simpl). lia.
Qed.
(** The small codec with the truncation bit, in the third byte. *)
Definition plain_of (m : Message) : Message :=
  {| msg_id := msg_id m; msg_type := msg_type m; msg_opcode := msg_opcode m; msg_truncation := false;
     msg_rd := msg_rd m; msg_ra := msg_ra m; msg_cd := msg_cd m; msg_rcode := msg_rcode m;
     msg_queries := msg_queries m; msg_answers := msg_answers m; msg_authorities := msg_authorities m;
     msg_additionals := msg_additionals m; msg_edns := msg_edns m |}.
Definition tc_codec : DnsCodec (DL:=small_dns) :=
  {| msg_to_vec m := (λ b, if msg_truncation m then <[2 := byte_of 131]> b else b) <$> msg_to_vec (DnsCodec:=small_codec) (plain_of m);
     msg_from_vec := msg_from_vec (DnsCodec:=small_codec); summarize := summarize (DnsCodec:=small_codec);
     rcode_debug := rcode_debug (DnsCodec:=small_codec); rtype_display := rtype_display (DnsCodec:=small_codec) |}.
Lemma tc_questions_fit : questions_fit (DL:=small_dns) (DC:=tc_codec).
Proof.
  intros m b Hb H1 H2 H3 H4. cbn [msg_to_vec tc_codec] in Hb. apply fmap_Some in Hb as (b' & Hb & ->).
  pose proof (small_questions_fit (plain_of m) b' Hb H1 H2 H3 H4). by destruct (msg_truncation m); [rewrite length_insert|].
Qed.
(** A reply of sixty records, too long for the 1232 bytes the client advertised: it is truncated. *)
Definition long_reply : Message :=
  {| msg_id := msg_id echo_reply; msg_type := msg_type echo_reply; msg_opcode := msg_opcode echo_reply; msg_truncation := false;
     msg_rd := msg_rd echo_reply; msg_ra := msg_ra echo_reply; msg_cd := msg_cd echo_reply; msg_rcode := msg_rcode echo_reply;
     msg_queries := msg_queries echo_reply; msg_answers := mjoin (replicate 60 (msg_answers echo_reply));
     msg_authorities := []; msg_additionals := []; msg_edns := None |}.
Lemma tcp_pipelining_witness :
  Forall frame_fits [enc_query demo_query; enc_query demo_query] ∧
  ∃ b, serve_tcp_conn (DL:=small_dns) (DC:=small_codec) (echo_engine echo_reply) 0
         (mjoin (frame <$> [enc_query demo_query; enc_query demo_query])) = (2, mjoin (frame <$> [b; b])).
Proof.
  assert (Hf : Forall frame_fits [enc_query demo_query; enc_query demo_query]).
  { repeat constructor; unfold frame_fits; vm_compute; discriminate. }
  split; [exact Hf|].
  destruct (tcp_pipelining (DL:=small_dns) (DC:=small_codec) (echo_engine echo_reply) 0 _ Hf) as [-> _].
  exists (default [] (msg_to_vec echo_reply)). vm_compute. reflexivity.
Defined.
