(* ===== verification/Accept.v ===== *)
(** * bulwark-engine: the serving loops of the DNS listeners
    ([crates/bulwark-engine/src/server.rs]).

    [Listener] takes one datagram or one connection from bytes to bytes.  Here are the tasks
    around it: the receive loop with its permits and the tasks it spawns, the accept loop,
    and a connection as a state machine with its timeouts.  The engine is an interface
    ([EngineOps]): a query is answered at once or is suspended and resumed later, and other
    parts of the server may change the engine between any two steps, so that every step is
    taken in a state of the engine of its own. *)
From Stdlib Require Import Ascii.
From S2P Require Import Prelude RustStr RustNet RustFloat Rule FilterEngine Wire Dns DnsInstances Clients Block QueryLog Cache Stats Engine Spec ProbeLog Pool Config Framing Listener.

Definition TCP_IDLE : Z := (30 * NANOS)%Z.
Definition TCP_IO : Z := (10 * NANOS)%Z.
(** The receive buffer of [spawn_udp]; a longer datagram is cut off. *)
Definition UDP_BUF : nat := 4096.

(** [SocketAddr::ip]. *)
Definition sock_ip (a : SocketAddr) : ip_addr := match a with SaV4 ip _ => V4 ip | SaV6 ip _ _ => V6 ip end.

(** [spawn]: the addresses whose loops run, and the error of the first socket that could not
    be bound.  The loops spawned before it go on running. *)
Fixpoint spawn (udp_bind tcp_bind : SocketAddr → result () bytes) (binds : list SocketAddr) : list SocketAddr * result () bytes :=
  match binds with
  | [] => ([], Ok ())
  | addr :: binds =>
      match udp_bind addr with
      | Err e => ([], Err e)
      | Ok _ =>
          match tcp_bind addr with
          | Err e => ([], Err e)
          | Ok _ => let '(up, r) := spawn udp_bind tcp_bind binds in (addr :: up, r)
          end
      end
  end.

(** What a listener uses of the engine: [handle] answers, or waits for the pool ([P]); [E] is
    what the surroundings contribute to a step.  [None] is a panic. *)
Class EngineOps {DL : DnsLib} (G P E : Type) := {
  en_begin : G → E → Ingress → ip_addr → option (G * (EngineResponse + P));
  en_resume : G → E → P → option (G * EngineResponse);
}.

Section accept.
Context {DL : DnsLib} {DC : DnsCodec} {G P E : Type} {EO : EngineOps G P E}.

(** The call of [handle] for a query of [ip], before and after it first waits. *)
Definition Call : Type := Ingress * option P.
Definition poll_call (g : G) (e : E) (ip : ip_addr) (c : Call) : option (G * (EngineResponse + Call)) :=
  match c.2 with
  | None =>
      let! (g, r) := en_begin g e c.1 ip in
      Some (g, match r with inl resp => inl resp | inr p => inr (c.1, Some p) end)
  | Some p => let! (g, resp) := en_resume g e p in Some (g, inl resp)
  end.

(** ** [spawn_udp] *)

Record UdpTask : Type := { ut_peer : SocketAddr; ut_call : Call }.
Inductive UdpLoop : Type :=
| UlRecv
| UlPermit (peer : SocketAddr) (i : Ingress).
Record UdpListener : Type := { ul_loop : UdpLoop; ul_free : nat; ul_tasks : list UdpTask }.
Definition udp_listener_new : UdpListener := {| ul_loop := UlRecv; ul_free := Z.to_nat MAX_UDP_INFLIGHT; ul_tasks := [] |}.

Inductive UdpEvent : Type :=
| UdRecv (datagram : option (bytes * SocketAddr))
| UdPermit
| UdPoll (n : nat) (e : E).
(** What can be observed of a step: a query taken up, its call to the engine returned, a
    datagram sent. *)
Inductive UdpOut : Type :=
| UoTaken (peer : SocketAddr) (i : Ingress)
| UoReturned (peer : SocketAddr) (i : Ingress) (r : EngineResponse) (sent : option bytes).

(** The permit is taken when there is one, and goes with the task. *)
Definition udp_admit (peer : SocketAddr) (i : Ingress) (l : UdpListener) : UdpListener :=
  match ul_free l with
  | 0 => {| ul_loop := UlPermit peer i; ul_free := 0; ul_tasks := ul_tasks l |}
  | S free => {| ul_loop := UlRecv; ul_free := free; ul_tasks := ul_tasks l ++ [{| ut_peer := peer; ut_call := (i, None) |}] |}
  end.
Definition udp_sent (i : Ingress) (r : EngineResponse) : option bytes :=
  match udp_reply (Z.to_nat (udp_max_payload i)) r with [] => None | b => Some b end.
Definition udp_step (g : G) (l : UdpListener) (ev : UdpEvent) : option (G * UdpListener * list UdpOut) :=
  match ev, ul_loop l with
  | UdRecv (Some (d, peer)), UlRecv =>
      match ingress_parse (take UDP_BUF d) with
      | None => Some (g, l, [])
      | Some i => Some (g, udp_admit peer i l, [UoTaken peer i])
      end
  | UdRecv _, _ => Some (g, l, [])
  | UdPermit, UlPermit peer i => Some (g, udp_admit peer i l, [])
  | UdPermit, UlRecv => Some (g, l, [])
  | UdPoll n e, _ =>
      match ul_tasks l !! n with
      | None => Some (g, l, [])
      | Some t =>
          let! (g, r) := poll_call g e (sock_ip (ut_peer t)) (ut_call t) in
          match r with
          | inr c => Some (g, {| ul_loop := ul_loop l; ul_free := ul_free l;
                                 ul_tasks := <[n := {| ut_peer := ut_peer t; ut_call := c |}]> (ul_tasks l) |}, [])
          | inl resp =>
              let i := (ut_call t).1 in
              Some (g, {| ul_loop := ul_loop l; ul_free := S (ul_free l); ul_tasks := delete n (ul_tasks l) |},
                    [UoReturned (ut_peer t) i resp (udp_sent i resp)])
          end
      end
  end.
(** A run of the listener: each event with the state of the engine it finds. *)
Fixpoint udp_run (l : UdpListener) (es : list (G * UdpEvent)) : option (UdpListener * list UdpOut) :=
  match es with
  | [] => Some (l, [])
  | (g, ev) :: es =>
      let! (_, l, out) := udp_step g l ev in
      let! (l, outs) := udp_run l es in Some (l, out ++ outs)
  end.

(** ** [serve_tcp_conn] *)

Inductive ConnStage : Type :=
| CsLen (deadline : Z)
| CsBody (len : nat) (deadline : Z)
| CsEngine (c : Call)
| CsWrite (rest : bytes) (deadline : Z).
(** [cn_rx]: the bytes that arrived and are not read yet. *)
Record Conn : Type := { cn_peer : SocketAddr; cn_rx : bytes; cn_stage : ConnStage }.
Definition conn_new (peer : SocketAddr) (now : Z) : Conn :=
  {| cn_peer := peer; cn_rx := []; cn_stage := CsLen (now + TCP_IDLE) |}.
Definition to_stage (s : ConnStage) (c : Conn) : Conn := {| cn_peer := cn_peer c; cn_rx := cn_rx c; cn_stage := s |}.
Definition set_rx (rx : bytes) (c : Conn) : Conn := {| cn_peer := cn_peer c; cn_rx := rx; cn_stage := cn_stage c |}.

(** Bytes arrive; the reader is polled; the call to the engine is polled; some of the answer
    is written; the stream ends or fails; a timer fires. *)
Inductive ConnEvent : Type :=
| CeArrive (b : bytes)
| CeRead (now : Z)
| CePoll (now : Z) (e : E)
| CeWrote (now : Z) (k : nat)
| CeEnd
| CeTimer (now : Z).

(** A read that can complete does so before an end of stream or a timer is looked at. *)
Definition starving (c : Conn) : bool :=
  match cn_stage c with
  | CsLen _ => length (cn_rx c) <? 2
  | CsBody len _ => length (cn_rx c) <? len
  | CsEngine _ => false
  | CsWrite _ _ => true
  end.
Definition deadline_of (s : ConnStage) : option Z :=
  match s with CsLen d | CsBody _ d | CsWrite _ d => Some d | CsEngine _ => None end.
(** The answer: a response that cannot be encoded or framed closes the connection. *)
Definition conn_reply (now : Z) (r : EngineResponse) (c : Conn) : option Conn :=
  match response_into_wire r with
  | None => None
  | Some b => if (U16_MAX <? Z.of_nat (length b))%Z then None else Some (to_stage (CsWrite (frame b) (now + TCP_IO)) c)
  end.
(** One step of a connection: the state of the engine, the connection ([None] when it has
    been closed) and what was written. *)
Definition conn_step (g : G) (c : Conn) (ev : ConnEvent) : option (G * option Conn * bytes) :=
  let stay := Some (g, Some c, []) in
  match ev, cn_stage c with
  | CeArrive b, _ => Some (g, Some (set_rx (cn_rx c ++ b) c), [])
  | CeRead now, CsLen _ =>
      match read_exact 2 (cn_rx c) with
      | Some ([hi; lo], rest) => Some (g, Some (to_stage (CsBody (Z.to_nat (be16 hi lo)) (now + TCP_IO)) (set_rx rest c)), [])
      | _ => stay
      end
  | CeRead _, CsBody len _ =>
      match read_exact len (cn_rx c) with
      | None => stay
      | Some (msg_buf, rest) =>
          Some (g, (λ i, to_stage (CsEngine (i, None)) (set_rx rest c)) <$> ingress_parse msg_buf, [])
      end
  | CePoll now e, CsEngine call =>
      let! (g, r) := poll_call g e (sock_ip (cn_peer c)) call in
      match r with
      | inr call => Some (g, Some (to_stage (CsEngine call) c), [])
      | inl resp => Some (g, conn_reply now resp c, [])
      end
  | CeWrote now k, CsWrite rest deadline =>
      Some (g, Some (to_stage (match drop k rest with [] => CsLen (now + TCP_IDLE) | rest => CsWrite rest deadline end) c),
            take k rest)
  | CeEnd, _ => if starving c then Some (g, None, []) else stay
  | CeTimer now, s =>
      match deadline_of s with
      | Some d => if starving c && (d <=? now)%Z then Some (g, None, []) else stay
      | None => stay
      end
  | _, _ => stay
  end.
(** A connection on its own; a closed one stays closed. *)
Fixpoint conn_run (oc : option Conn) (es : list (G * ConnEvent)) : option (option Conn * bytes) :=
  match es, oc with
  | [], _ | _, None => Some (oc, [])
  | (g, ev) :: es, Some c =>
      let! (_, oc, out) := conn_step g c ev in
      let! (oc, outs) := conn_run oc es in Some (oc, out ++ outs)
  end.

(** ** [spawn_tcp] *)

(** The loop waits for a permit, or holds one and waits for a connection. *)
Inductive TcpLoop : Type := TlPermit | TlAccept.
Record TcpListener : Type := { tl_loop : TcpLoop; tl_free : nat; tl_conns : list Conn }.
Definition tcp_listener_new : TcpListener := {| tl_loop := TlPermit; tl_free := Z.to_nat MAX_TCP_CONNS; tl_conns := [] |}.
Inductive TcpEvent : Type :=
| TePermit
| TeAccept (now : Z) (peer : option SocketAddr)
| TeConn (n : nat) (ev : ConnEvent).
Definition tcp_release (n : nat) (l : TcpListener) : TcpListener :=
  {| tl_loop := tl_loop l; tl_free := S (tl_free l); tl_conns := delete n (tl_conns l) |}.
Definition tcp_step (g : G) (l : TcpListener) (ev : TcpEvent) : option (G * TcpListener) :=
  match ev with
  | TePermit =>
      Some (g, match tl_loop l, tl_free l with
               | TlPermit, S free => {| tl_loop := TlAccept; tl_free := free; tl_conns := tl_conns l |}
               | _, _ => l
               end)
  | TeAccept now peer =>
      Some (g, match tl_loop l, peer with
               | TlPermit, _ => l
               | TlAccept, Some peer => {| tl_loop := TlPermit; tl_free := tl_free l; tl_conns := tl_conns l ++ [conn_new peer now] |}
               | TlAccept, None => {| tl_loop := TlPermit; tl_free := S (tl_free l); tl_conns := tl_conns l |}
               end)
  | TeConn n ev =>
      match tl_conns l !! n with
      | None => Some (g, l)
      | Some c =>
          let! (g, oc, _) := conn_step g c ev in
          Some (g, match oc with
                   | Some c => {| tl_loop := tl_loop l; tl_free := tl_free l; tl_conns := <[n := c]> (tl_conns l) |}
                   | None => tcp_release n l
                   end)
      end
  end.
Fixpoint tcp_run (l : TcpListener) (es : list (G * TcpEvent)) : option TcpListener :=
  match es with
  | [] => Some l
  | (g, ev) :: es => let! (_, l) := tcp_step g l ev in tcp_run l es
  end.

End accept.
