(* ===== verification/AcceptProps.v ===== *)
(** * Properties of the serving loops ([Accept]): permits, answers and timeouts. *)
From Stdlib Require Import Ascii.
From S2P Require Import Prelude RustStr RustNet RustFloat Rule FilterEngine Wire Dns DnsInstances Clients Block QueryLog Cache Stats Engine Spec ProbeLog Pool Config Framing Listener Accept.

Section props.
Context {DL : DnsLib} {DC : DnsCodec} {G P E : Type} {EO : EngineOps G P E} (Good : G → Prop).

(** ** What a call to the engine can return *)

(** [began i ip p]: a call for the query [i] of [ip] waits as [p]; [answers]: it returned
    [r]; every step was taken in a good state of the engine. *)
Definition began (i : Ingress) (ip : ip_addr) (p : P) : Prop :=
  ∃ b g e g', ingress_parse b = Some i ∧ Good g ∧ en_begin g e i ip = Some (g', inr p).
Inductive answers (i : Ingress) (ip : ip_addr) (r : EngineResponse) : Prop :=
| answers_now g e g' : Good g → en_begin g e i ip = Some (g', inl r) → answers i ip r
| answers_later g e p g' : began i ip p → Good g → en_resume g e p = Some (g', r) → answers i ip r.
(** In a good state the engine does not panic. *)
Class EngineLaws : Prop := {
  el_begin b g e i ip : ingress_parse b = Some i → Good g → is_Some (en_begin g e i ip);
  el_resume g e i ip p : began i ip p → Good g → is_Some (en_resume g e p);
}.
Definition call_ok (ip : ip_addr) (c : Call (P:=P)) : Prop :=
  (∃ b, ingress_parse b = Some c.1) ∧ match c.2 with Some p => began c.1 ip p | None => True end.
Lemma poll_call_ok g e ip c g' r : Good g → call_ok ip c → poll_call g e ip c = Some (g', r) →
  match r with inl resp => answers c.1 ip resp | inr c' => c'.1 = c.1 ∧ call_ok ip c' end.
Proof.
  destruct c as [i [p|]]; unfold poll_call, call_ok; simpl; intros Hg [[b Hb] Hc].
  - destruct (en_resume g e p) as [[g1 resp]|] eqn:E1; [|done]. intros [= _ <-]. by eapply answers_later.
  - destruct (en_begin g e i ip) as [[g1 [resp|p]]|] eqn:E1; [| |done]; intros [= _ <-]; [by eapply answers_now|].
    split; [done|]. split; [by exists b|]. by exists b, g, e, g1.
Qed.
(** A call returns within two polls. *)
Lemma poll_call_ends `{!EngineLaws} g e ip c : Good g → call_ok ip c →
  ∃ g', (∃ r, poll_call g e ip c = Some (g', inl r)) ∨ (∃ p, c.2 = None ∧ poll_call g e ip c = Some (g', inr (c.1, Some p))).
Proof.
  destruct c as [i [p|]]; unfold poll_call, call_ok; simpl; intros Hg [[b Hb] Hc].
  - destruct (el_resume g e i ip p Hc Hg) as [[g1 r] ->]. exists g1. left. by exists r.
  - destruct (el_begin b g e i ip Hb Hg) as [[g1 [r|p]] ->]; exists g1; [left; by exists r|right; by exists p].
Qed.

(** ** UDP *)

Local Abbreviation UdpListener := (UdpListener (P:=P)).
Definition taken (outs : list UdpOut) : list (SocketAddr * Ingress) :=
  omap (λ o, match o with UoTaken peer i => Some (peer, i) | _ => None end) outs.
Definition returned (outs : list UdpOut) : list (SocketAddr * Ingress) :=
  omap (λ o, match o with UoReturned peer i _ _ => Some (peer, i) | _ => None end) outs.
(** The queries a listener has taken up and not answered yet. *)
Definition held (l : UdpListener) : list (SocketAddr * Ingress) :=
  match ul_loop l with UlPermit peer i => [(peer, i)] | UlRecv => [] end
  ++ ((λ t, (ut_peer t, (ut_call t).1)) <$> ul_tasks l).
Definition task_ok (t : UdpTask (P:=P)) : Prop := call_ok (sock_ip (ut_peer t)) (ut_call t).
Record udp_ok (l : UdpListener) : Prop := {
  uo_permits : ul_free l + length (ul_tasks l) = Z.to_nat MAX_UDP_INFLIGHT;
  uo_tasks : Forall task_ok (ul_tasks l);
  uo_loop : match ul_loop l with UlPermit _ i => ∃ b, ingress_parse b = Some i | UlRecv => True end;
}.
Lemma udp_new_ok : udp_ok udp_listener_new.
Proof. constructor; [apply Nat.add_0_r|constructor|done]. Qed.
Lemma udp_admit_ok peer i l : udp_ok l → (∃ b, ingress_parse b = Some i) → udp_ok (udp_admit peer i l).
Proof.
  intros [Hp Ht _] Hi. unfold udp_admit. destruct (ul_free l) as [|free] eqn:Ef; [by constructor|].
  constructor; cbn [ul_free ul_tasks ul_loop]; [rewrite length_app; simpl; lia| |done]. apply Forall_app. split; [done|]. by repeat constructor.
Qed.
Lemma udp_admit_held peer i l :
  held (udp_admit peer i l) ≡ₚ (peer, i) :: ((λ t, (ut_peer t, (ut_call t).1)) <$> ul_tasks l).
Proof.
  unfold udp_admit, held. destruct (ul_free l); [done|]. simpl. rewrite fmap_app. simpl. by rewrite Permutation_app_comm.
Qed.
Lemma length_delete_lt {A} n (l : list A) x : l !! n = Some x → S (length (delete n l)) = length l.
Proof. intros H. rewrite length_delete by done. apply lookup_lt_Some in H. lia. Qed.
Lemma delete_held {A B} (f : A → B) n (l : list A) x : l !! n = Some x → f <$> l ≡ₚ f x :: (f <$> delete n l).
Proof. intros H. by rewrite (delete_Permutation l n x H) at 1. Qed.

(** One step keeps the permits, loses no query, and a call that returns has the answer of
    the engine. *)
Lemma udp_step_spec g l ev g' l' out : udp_ok l → Good g → udp_step g l ev = Some (g', l', out) →
  udp_ok l' ∧ taken out ++ held l ≡ₚ returned out ++ held l'
  ∧ (∀ peer i, UoTaken peer i ∈ out → ∃ d, ev = UdRecv (Some (d, peer)) ∧ ingress_parse (take UDP_BUF d) = Some i)
  ∧ (∀ peer i r sent, UoReturned peer i r sent ∈ out → answers i (sock_ip peer) r ∧ sent = udp_sent i r).
Proof.
  intros Hl Hg.
  destruct ev as [[[d peer]|]| |n e]; cbn [udp_step].
  - destruct (ul_loop l) as [|pr i] eqn:El; [|intros [= <- <- <-]; split_and!; set_solver].
    destruct (ingress_parse (take UDP_BUF d)) as [i|] eqn:Ei; intros [= <- <- <-]; [|split_and!; set_solver].
    split_and!; [apply udp_admit_ok; eauto| |set_solver|set_solver].
    rewrite udp_admit_held. unfold held. by rewrite El.
  - intros H. assert (Some (g, l, []) = Some (g', l', out)) as [= <- <- <-] by (by destruct (ul_loop l)). split_and!; set_solver.
  - destruct (ul_loop l) as [|peer i] eqn:El; intros [= <- <- <-]; [split_and!; set_solver|].
    split_and!; [apply udp_admit_ok; [done|]; by pose proof (uo_loop _ Hl) as H; rewrite El in H| |set_solver|set_solver].
    rewrite udp_admit_held. unfold held. by rewrite El.
  - destruct (ul_tasks l !! n) as [t|] eqn:Et; [|intros [= <- <- <-]; split_and!; set_solver].
    destruct Hl as [Hp Ht Hloop]. pose proof (Forall_lookup_1 _ _ _ _ Ht Et) as Hc.
    destruct (poll_call g e _ (ut_call t)) as [[g1 r]|] eqn:Ec; [|done]. cbn [mbind option_bind].
    pose proof (poll_call_ok _ _ _ _ _ _ Hg Hc Ec) as Hr. destruct r as [resp|c]; intros [= <- <- <-].
    + split_and!; [constructor; simpl; [|by apply Forall_delete|done]| |set_solver|].
      * pose proof (length_delete_lt _ _ _ Et). lia.
      * unfold held. simpl. rewrite (delete_held (λ t, (ut_peer t, (ut_call t).1)) _ _ _ Et). solve_Permutation.
      * intros peer i r sent H. apply list_elem_of_singleton in H. by injection H as -> -> -> ->.
    + destruct Hr as [Hi Hc']. split_and!; [constructor; simpl| |set_solver|set_solver].
      * by rewrite length_insert.
      * by apply Forall_insert.
      * done.
      * unfold held. simpl. rewrite list_fmap_insert, list_insert_id; [done|]. rewrite list_lookup_fmap, Et. simpl. by rewrite Hi.
Qed.

Lemma taken_app a b : taken (a ++ b) = taken a ++ taken b.
Proof. apply omap_app. Qed.
Lemma returned_app a b : returned (a ++ b) = returned a ++ returned b.
Proof. apply omap_app. Qed.
Lemma udp_run_spec es l l' outs : udp_ok l → Forall (λ x, Good x.1) es → udp_run l es = Some (l', outs) →
  udp_ok l' ∧ taken outs ++ held l ≡ₚ returned outs ++ held l'
  ∧ (∀ peer i, UoTaken peer i ∈ outs → ∃ g d, (g, UdRecv (Some (d, peer))) ∈ es ∧ ingress_parse (take UDP_BUF d) = Some i)
  ∧ (∀ peer i r sent, UoReturned peer i r sent ∈ outs → answers i (sock_ip peer) r ∧ sent = udp_sent i r).
Proof.
  revert l outs. induction es as [|[g ev] es IH]; intros l outs Hl Hg; cbn [udp_run].
  { intros [= <- <-]. split_and!; set_solver. }
  apply Forall_cons in Hg as [Hg Hgs]. destruct (udp_step g l ev) as [[[g1 l1] out]|] eqn:E1; [|done]. cbn [mbind option_bind].
  destruct (udp_run l1 es) as [[l2 outs2]|] eqn:E2; [|done]. intros [= -> <-].
  destruct (udp_step_spec _ _ _ _ _ _ Hl Hg E1) as (H1 & Hh1 & Ht1 & Hr1).
  destruct (IH _ _ H1 Hgs E2) as (H2 & Hh2 & Ht2 & Hr2). split_and!; [done|..].
  - rewrite taken_app, returned_app, <- !app_assoc, <- Hh2.
    rewrite (Permutation_app_swap_app (taken out)), Hh1. solve_Permutation.
  - intros peer i [H|H]%elem_of_app; [|destruct (Ht2 _ _ H) as (g2 & d & ? & ?); exists g2, d; split; [by right|done]].
    destruct (Ht1 _ _ H) as (d & -> & ?). exists g, d. split; [by left|done].
  - intros peer i r sent [H|H]%elem_of_app; eauto.
Qed.
Lemma udp_run_app es1 es2 (l : UdpListener) : udp_run l (es1 ++ es2) =
  let! (l1, o1) := udp_run l es1 in let! (l2, o2) := udp_run l1 es2 in Some (l2, o1 ++ o2).
Proof.
  revert l. induction es1 as [|[g ev] es1 IH]; intros l; cbn [udp_run app mbind option_bind].
  { by destruct (udp_run l es2) as [[]|]. }
  destruct (udp_step g l ev) as [[[g1 l1] out]|]; [|done]. cbn [mbind option_bind]. rewrite IH.
  destruct (udp_run l1 es1) as [[l2 o1]|]; [|done]. cbn [mbind option_bind].
  destruct (udp_run l2 es2) as [[l3 o2]|]; [|done]. cbn [mbind option_bind]. by rewrite app_assoc.
Qed.

(** Two polls finish the first task; a listener without tasks ignores polls. *)
Lemma udp_poll_first `{!EngineLaws} g e l t ts : Good g → udp_ok l → ul_tasks l = t :: ts →
  ∃ outs, (∃ r, outs = [UoReturned (ut_peer t) (ut_call t).1 r (udp_sent (ut_call t).1 r)]) ∧
  (udp_run l [(g, UdPoll 0 e)] = Some ({| ul_loop := ul_loop l; ul_free := S (ul_free l); ul_tasks := ts |}, outs)
   ∨ udp_run l [(g, UdPoll 0 e); (g, UdPoll 0 e)] = Some ({| ul_loop := ul_loop l; ul_free := S (ul_free l); ul_tasks := ts |}, outs)).
Proof.
  intros Hg [_ Ht _] El. rewrite El in Ht. apply Forall_cons in Ht as [Ht _].
  cbn [udp_run udp_step]. rewrite El. cbn [lookup list_lookup].
  destruct (poll_call_ends g e _ _ Hg Ht) as (g1 & [(r & Ec)|(p & Hn & Ec)]); rewrite Ec; cbn [mbind option_bind].
  { eexists. split; [by exists r|]. by left. }
  pose proof (poll_call_ok _ _ _ _ _ _ Hg Ht Ec) as [_ Hc].
  destruct (poll_call_ends g e _ _ Hg Hc) as (g2 & [(r & Ec2)|(p2 & Hn2 & _)]); [|done].
  eexists. split; [by exists r|]. right. cbn [list_insert insert ul_tasks lookup list_lookup ul_loop ut_peer ut_call ul_free].
  by rewrite Ec2.
Qed.
Lemma udp_drain `{!EngineLaws} g e l : Good g → udp_ok l →
  ∃ n l' outs, n ≤ 2 * length (ul_tasks l) ∧ udp_run l (replicate n (g, UdPoll 0 e)) = Some (l', outs)
    ∧ ul_tasks l' = [] ∧ ul_loop l' = ul_loop l.
Proof.
  intros Hg. remember (ul_tasks l) as ts eqn:El. revert l El. induction ts as [|t ts IH]; intros l El Hl.
  { exists 0, l, []. split_and!; [simpl; lia|done..]. }
  destruct (udp_poll_first g e l t ts Hg Hl (eq_sym El)) as (o & _ & Ho).
  assert (∃ k, k ≤ 2 ∧ udp_run l (replicate k (g, UdPoll 0 e))
    = Some ({| ul_loop := ul_loop l; ul_free := S (ul_free l); ul_tasks := ts |}, o)) as (k & Hk & E1).
  { destruct Ho; [by exists 1; split; [lia|]|by exists 2]. }
  destruct (IH {| ul_loop := ul_loop l; ul_free := S (ul_free l); ul_tasks := ts |} eq_refl) as (n & l' & outs & Hn & E2 & H2 & H3).
  { eapply udp_run_spec; [exact Hl| |exact E1]. by apply Forall_replicate. }
  exists (k + n), l', (o ++ outs). split_and!; [cbn [length]; lia| |done|done].
  rewrite replicate_add, udp_run_app, E1. cbn [mbind option_bind]. by rewrite E2.
Qed.
(** Polls only, then the permit, then polls: everything held is answered. *)
Lemma udp_answers_all `{!EngineLaws} g (e : E) l : Good g → udp_ok l →
  ∃ es' l' outs, Forall (λ x, x.1 = g ∧ ∀ d, x.2 ≠ UdRecv d) es' ∧ udp_run l es' = Some (l', outs) ∧ held l' = [].
Proof.
  intros Hg Hl. destruct (udp_drain g e l Hg Hl) as (n1 & l1 & o1 & _ & E1 & Ht1 & Hl1).
  assert (Hok1 : udp_ok l1) by (eapply udp_run_spec; [exact Hl| |exact E1]; by apply Forall_replicate).
  assert (Hpoll : ∀ n, Forall (λ x : G * UdpEvent, x.1 = g ∧ ∀ d, x.2 ≠ UdRecv d) (replicate n (g, UdPoll 0 e)))
    by (intros n; by apply Forall_replicate).
  destruct (ul_loop l1) as [|peer i] eqn:El1.
  { exists (replicate n1 (g, UdPoll 0 e)), l1, o1. split_and!; [done|done|]. unfold held. by rewrite El1, Ht1. }
  set (l2 := udp_admit peer i l1).
  assert (E2 : udp_run l1 [(g, UdPermit)] = Some (l2, [])) by (cbn [udp_run udp_step]; by rewrite El1).
  assert (Hok2 : udp_ok l2) by (eapply udp_run_spec; [exact Hok1| |exact E2]; by repeat constructor).
  assert (Hl2 : ul_loop l2 = UlRecv).
  { unfold l2, udp_admit. pose proof (uo_permits _ Hok1) as Hf. rewrite Ht1 in Hf. destruct (ul_free l1); [|done].
    by cbv in Hf. }
  destruct (udp_drain g e l2 Hg Hok2) as (n3 & l3 & o3 & _ & E3 & Ht3 & Hl3).
  exists (replicate n1 (g, UdPoll 0 e) ++ [(g, UdPermit)] ++ replicate n3 (g, UdPoll 0 e)), l3, (o1 ++ [] ++ o3).
  split_and!.
  - by repeat (apply Forall_app; split); [|repeat constructor|].
  - rewrite udp_run_app, E1. cbn [mbind option_bind]. rewrite udp_run_app, E2. cbn [mbind option_bind]. by rewrite E3.
  - unfold held. by rewrite Hl3, Hl2, Ht3.
Qed.

(** C18: a UDP listener.  Whatever arrives and however the tasks interleave with each other and
    with the rest of the server, at most 1024 queries are in flight and every permit is free
    or held by one of them; every query taken up came in a datagram of its peer and is either
    answered or still held, once; a reply goes to the peer that asked and is the engine's
    answer to its query, fitted to the datagram size it advertised; and a listener that is
    left alone answers everything it holds, the query that waits for a permit included. *)
Theorem udp_listener_serves `{!EngineLaws} es l outs :
  Forall (λ x, Good x.1) es → udp_run udp_listener_new es = Some (l, outs) →
  (Z.of_nat (ul_free l) + Z.of_nat (length (ul_tasks l)) = 1024)%Z
  ∧ taken outs ≡ₚ returned outs ++ held l
  ∧ (∀ peer i, UoTaken peer i ∈ outs → ∃ g d, (g, UdRecv (Some (d, peer))) ∈ es ∧ ingress_parse (take UDP_BUF d) = Some i)
  ∧ (∀ peer i r sent, UoReturned peer i r sent ∈ outs → answers i (sock_ip peer) r ∧ sent = udp_sent i r)
  ∧ (∀ g (e : E), Good g → ∃ es' l' outs', Forall (λ x, x.1 = g ∧ ∀ d, x.2 ≠ UdRecv d) es' ∧
       udp_run l es' = Some (l', outs') ∧ taken outs ≡ₚ returned (outs ++ outs')).
Proof.
  intros Hg Hrun. destruct (udp_run_spec _ _ _ _ udp_new_ok Hg Hrun) as (Hl & Hh & Ht & Hr).
  rewrite app_nil_r in Hh. split_and!; [|done|done|done|].
  - pose proof (uo_permits _ Hl) as Hp. change 1024%Z with MAX_UDP_INFLIGHT. by rewrite <- Nat2Z.inj_add, Hp.
  - intros g e Hgood. destruct (udp_answers_all g e l Hgood Hl) as (es' & l' & outs' & Hes & Er & Hd).
    exists es', l', outs'. split_and!; [done|done|]. rewrite returned_app, Hh.
    assert (Hg' : Forall (λ x, Good x.1) es') by (eapply Forall_impl; [exact Hes|]; by intros [? ?] [-> _]).
    destruct (udp_run_spec _ _ _ _ Hl Hg' Er) as (_ & Hh' & Ht' & _). rewrite Hd, app_nil_r in Hh'. rewrite <- Hh'.
    assert (taken outs' = []) as ->; [|done].
    destruct (taken outs') as [|[peer i] k] eqn:Ek; [done|]. exfalso.
    assert (Hin : UoTaken peer i ∈ outs').
    { assert ((peer, i) ∈ taken outs') as Hx by (rewrite Ek; by left). apply list_elem_of_omap in Hx as ([p2 i2|] & Hx & [=]). by subst. }
    destruct (Ht' _ _ Hin) as (g2 & d & Hx & _). rewrite Forall_forall in Hes. by eapply (proj2 (Hes _ Hx)).
Qed.

(** ** A TCP connection *)

Local Abbreviation Conn := (Conn (P:=P)).
Definition frames (qs : list bytes) : bytes := mjoin (frame <$> qs).
(** The message [q] of a client was answered with [b]. *)
Definition served (ip : ip_addr) (q b : bytes) : Prop :=
  ∃ i r, ingress_parse q = Some i ∧ answers i ip r ∧ response_into_wire r = Some b ∧ frame_fits b.
Definition arrived (ev : ConnEvent (E:=E)) : bytes := match ev with CeArrive b => b | _ => [] end.
Definition arrivals (es : list (G * ConnEvent)) : bytes := mjoin ((λ x, arrived x.2) <$> es).
Definition conn_good (c : Conn) : Prop :=
  match cn_stage c with CsEngine call => call_ok (sock_ip (cn_peer c)) call | _ => True end.
Lemma conn_step_runs `{!EngineLaws} g c ev : Good g → conn_good c →
  ∃ g' oc out, conn_step g c ev = Some (g', oc, out) ∧ (∀ c', oc = Some c' → conn_good c' ∧ cn_peer c' = cn_peer c).
Proof.
  intros Hg Hc. assert (Hstay : ∃ g' oc out, Some (g, Some c, [] : bytes) = Some (g', oc, out) ∧
    (∀ c', oc = Some c' → conn_good c' ∧ cn_peer c' = cn_peer c)) by (eexists _, _, _; split; [done|]; by intros c' [= <-]).
  assert (Hclosed : ∃ g' oc out, Some (g, None, [] : bytes) = Some (g', oc, out) ∧
    (∀ c', oc = Some c' → conn_good c' ∧ cn_peer c' = cn_peer c)) by (by eexists _, _, _).
  unfold conn_step. destruct ev as [b|now|now e|now k| |now].
  - eexists _, _, _. split; [done|]. by intros c' [= <-].
  - destruct (cn_stage c) as [d|len d|call|rest d] eqn:Es; [| |done..].
    + destruct (read_exact 2 (cn_rx c)) as [[[|hi [|lo [|? ?]]] rest]|]; try exact Hstay.
      eexists _, _, _. split; [done|]. by intros c' [= <-].
    + destruct (read_exact len (cn_rx c)) as [[b rest]|]; [|exact Hstay]. eexists _, _, _. split; [done|].
      destruct (ingress_parse b) eqn:Ei; [|done]. intros c' [= <-]. split; [|done]. split; [by exists b|done].
  - unfold conn_good in Hc. destruct (cn_stage c) as [d|len d|call|rest d] eqn:Es; try done.
    destruct (poll_call_ends g e _ _ Hg Hc) as (g1 & [(r & Ec)|(p & Hn & Ec)]); rewrite Ec; cbn [mbind option_bind].
    + eexists _, _, _. split; [done|]. unfold conn_reply. intros c'. destruct (response_into_wire r); [|done].
      by destruct (_ <? _)%Z; [|intros [= <-]].
    + eexists _, _, _. split; [done|]. intros c' [= <-]. split; [|done]. exact (proj2 (poll_call_ok _ _ _ _ _ _ Hg Hc Ec)).
  - destruct (cn_stage c) as [d|len d|call|rest d] eqn:Es; try exact Hstay.
    eexists _, _, _. split; [done|]. intros c' [= <-]. split; [|done]. unfold conn_good. simpl. by destruct (drop k rest).
  - by destruct (starving c).
  - destruct (deadline_of (cn_stage c)); [|done]. by destruct (_ && _).
Qed.

Lemma read_exact_split n s a b : read_exact n s = Some (a, b) → s = a ++ b ∧ length a = n.
Proof.
  unfold read_exact. destruct (Nat.ltb_spec (length s) n); [done|]. intros [= <- <-]. rewrite take_drop. split; [done|].
  rewrite length_take. lia.
Qed.
(** The message a length prefix announces, with the prefix, is its frame. *)
Lemma frame_of_length hi lo b : length b = Z.to_nat (be16 hi lo) → frame b = hi :: lo :: b ∧ frame_fits b.
Proof.
  pose proof (u8_range hi) as Hh. pose proof (u8_range lo) as Hl. unfold be16, frame, frame_fits, be_bytes2, U16_MAX. intros H.
  rewrite H, Z2Nat.id by lia. split; [|lia]. simpl. f_equal; [|f_equal].
  - rewrite Z.div_add_l, (Z.div_small (u8 lo)), Z.add_0_r by lia. apply byte_of_u8.
  - rewrite <- (byte_of_u8 lo) at 2. apply u8_inj. rewrite !u8_byte_of, Z.add_comm. by rewrite Z_mod_plus_full.
Qed.
Lemma frames_snoc qs q : frames (qs ++ [q]) = frames qs ++ frame q.
Proof. unfold frames. rewrite fmap_app, join_app. simpl. by rewrite app_nil_r. Qed.

(** The stages of a connection: the messages [qs] read so far with their answers [bs], of
    which the last may still be on its way, and what is between them in the streams. *)
Definition conn_at (qs bs : list bytes) (got put : bytes) (c : Conn) : Prop :=
  match cn_stage c with
  | CsLen _ => got = frames qs ++ cn_rx c ∧ put = frames bs
  | CsBody len _ => ∃ hi lo, len = Z.to_nat (be16 hi lo) ∧ got = frames qs ++ hi :: lo :: cn_rx c ∧ put = frames bs
  | CsEngine call => ∃ q, ingress_parse q = Some call.1 ∧ got = frames qs ++ frame q ++ cn_rx c ∧ put = frames bs
  | CsWrite rest _ => got = frames qs ++ cn_rx c ∧ put ++ rest = frames bs
  end.
Definition conn_inv (peer : SocketAddr) (got put : bytes) (oc : option Conn) : Prop :=
  ∃ qs bs, Forall2 (served (sock_ip peer)) qs bs ∧
  match oc with
  | None => frames qs `prefix_of` got ∧ put `prefix_of` frames bs
  | Some c => cn_peer c = peer ∧ conn_good c ∧ conn_at qs bs got put c
  end.
Lemma conn_at_prefix qs bs got put c : conn_at qs bs got put c → frames qs `prefix_of` got ∧ put `prefix_of` frames bs.
Proof.
  unfold conn_at. destruct (cn_stage c) as [d|len d|call|rest d].
  - intros [-> ->]. split; [by apply prefix_app_r|done].
  - intros (hi & lo & _ & -> & ->). split; [by apply prefix_app_r|done].
  - intros (q & _ & -> & ->). split; [by apply prefix_app_r|done].
  - intros [-> <-]. split; by apply prefix_app_r.
Qed.
Lemma conn_inv_closed peer got put c : conn_inv peer got put (Some c) → conn_inv peer got put None.
Proof. intros (qs & bs & Hs & _ & _ & H). exists qs, bs. split; [done|]. by eapply conn_at_prefix. Qed.
Lemma conn_read_inv peer got put c g now g' oc out : conn_inv peer got put (Some c) →
  conn_step g c (CeRead now) = Some (g', oc, out) → conn_inv peer got (put ++ out) oc.
Proof.
  intros Hi. pose proof Hi as (qs & bs & Hs & Hp & Hgood & H). unfold conn_step, conn_at in *.
  assert (Hstay : Some (g, Some c, []) = Some (g', oc, out) → conn_inv peer got (put ++ out) oc)
    by (intros [= _ <- <-]; by rewrite app_nil_r).
  destruct (cn_stage c) as [d|len d|call|rest d] eqn:Es; [| |done..].
  - destruct (read_exact 2 (cn_rx c)) as [[[|hi [|lo [|? ?]]] rest]|] eqn:Er; try exact Hstay.
    apply read_exact_split in Er as [Er _]. intros [= _ <- <-]. rewrite app_nil_r. exists qs, bs. split_and!; [done..|].
    destruct H as [-> ->]. rewrite Er. by exists hi, lo.
  - destruct (read_exact len (cn_rx c)) as [[b rest]|] eqn:Er; [|exact Hstay].
    apply read_exact_split in Er as [Er Hlen]. intros [= _ <- <-]. rewrite app_nil_r.
    destruct H as (hi & lo & -> & -> & ->). destruct (frame_of_length hi lo b Hlen) as [Hf _].
    destruct (ingress_parse b) as [i|] eqn:Ei; [|by exists qs, bs; split; [done|split; [by apply prefix_app_r|done]]].
    exists qs, bs. split; [done|]. split; [done|]. split; [split; [by exists b|done]|]. exists b. by rewrite Er, Hf.
Qed.
Lemma conn_poll_inv peer got put c g now e g' oc out : Good g → conn_inv peer got put (Some c) →
  conn_step g c (CePoll now e) = Some (g', oc, out) → conn_inv peer got (put ++ out) oc.
Proof.
  intros Hg Hi. pose proof Hi as (qs & bs & Hs & Hp & Hgood & H). unfold conn_step, conn_good, conn_at in *.
  destruct (cn_stage c) as [d|len d|call|rest d] eqn:Es; [intros [= _ <- <-]; by rewrite app_nil_r..| |intros [= _ <- <-]; by rewrite app_nil_r].
  destruct (poll_call g e _ call) as [[g1 [r|call']]|] eqn:Ec; [| |done]; intros [= _ <- <-]; rewrite app_nil_r;
    pose proof (poll_call_ok _ _ _ _ _ _ Hg Hgood Ec) as Hr; destruct H as (q & Hq & -> & ->).
  - unfold conn_reply. assert (Hcl : conn_inv peer (frames qs ++ frame q ++ cn_rx c) (frames bs) None)
      by (by exists qs, bs; split; [done|split; [by apply prefix_app_r|done]]).
    destruct (response_into_wire r) as [b|] eqn:Ew; [|done]. destruct (Z.ltb_spec U16_MAX (Z.of_nat (length b))); [done|].
    rewrite Hp in Hr. exists (qs ++ [q]), (bs ++ [b]). split_and!; [|done..|].
    + apply Forall2_app; [done|]. constructor; [|constructor]. by exists call.1, r.
    + unfold conn_at. simpl. by rewrite !frames_snoc, <- app_assoc.
  - destruct Hr as [Hi' Hc']. exists qs, bs. split_and!; [done..|]. exists q. by rewrite Hi'.
Qed.
Lemma conn_wrote_inv peer got put c g now k g' oc out : conn_inv peer got put (Some c) →
  conn_step g c (CeWrote now k) = Some (g', oc, out) → conn_inv peer got (put ++ out) oc.
Proof.
  intros Hi. pose proof Hi as (qs & bs & Hs & Hp & Hgood & H). unfold conn_step, conn_at in *.
  destruct (cn_stage c) as [d|len d|call|rest d] eqn:Es; [intros [= _ <- <-]; by rewrite app_nil_r..|].
  intros [= _ <- <-]. destruct H as [-> H]. exists qs, bs. split_and!; [done|done|by unfold conn_good; simpl; destruct (drop k rest)|].
  unfold conn_at. simpl. rewrite <- (take_drop k rest) in H. destruct (drop k rest); split; try done; by rewrite <- H, ?app_nil_r, ?app_assoc.
Qed.
Lemma conn_step_inv peer got put c g ev g' oc out : Good g → conn_inv peer got put (Some c) →
  conn_step g c ev = Some (g', oc, out) → conn_inv peer (got ++ arrived ev) (put ++ out) oc.
Proof.
  intros Hg Hi. assert (Hcl : conn_inv peer (got ++ []) (put ++ []) None)
    by (rewrite !app_nil_r; by eapply conn_inv_closed).
  destruct ev as [b|now|now e|now k| |now]; cbn [arrived]; [|rewrite app_nil_r..|].
  - destruct Hi as (qs & bs & Hs & Hp & Hgood & H). intros [= _ <- <-]. rewrite app_nil_r.
    exists qs, bs. split_and!; [done..|]. unfold conn_at in *. cbn [set_rx cn_stage cn_rx]. destruct (cn_stage c) as [d|len d|call|rest d].
    + destruct H as [-> ->]. by rewrite app_assoc.
    + destruct H as (hi & lo & -> & -> & ->). exists hi, lo. by rewrite <- app_assoc.
    + destruct H as (q & Hq & -> & ->). exists q. by rewrite <- !app_assoc.
    + destruct H as [-> <-]. by rewrite app_assoc.
  - by apply conn_read_inv.
  - by apply conn_poll_inv.
  - by apply conn_wrote_inv.
  - cbn [conn_step]. destruct (starving c); intros [= _ <- <-]; rewrite !app_nil_r in *; done.
  - cbn [conn_step]. destruct (deadline_of (cn_stage c)) as [d|]; [destruct (_ && _)|]; intros [= _ <- <-]; rewrite !app_nil_r in *; done.
Qed.
Lemma conn_run_inv `{!EngineLaws} es peer got put oc : Forall (λ x, Good x.1) es → conn_inv peer got put oc →
  ∃ oc' out got', conn_run oc es = Some (oc', out) ∧ got' `prefix_of` arrivals es ∧ conn_inv peer (got ++ got') (put ++ out) oc'
    ∧ (oc' ≠ None → got' = arrivals es).
Proof.
  revert got put oc. induction es as [|[g ev] es IH]; intros got put oc Hg Hi.
  { exists oc, [], []. rewrite !app_nil_r. by destruct oc. }
  destruct oc as [c|]; [|exists None, [], []; rewrite !app_nil_r; split_and!; [done|apply prefix_nil|done|done]].
  apply Forall_cons in Hg as [Hg Hgs]. pose proof Hi as (_ & _ & _ & _ & Hc & _). cbn [conn_run].
  destruct (conn_step_runs g c ev Hg Hc) as (g1 & oc1 & out & Es & _). rewrite Es. cbn [mbind option_bind].
  destruct (IH _ _ _ Hgs (conn_step_inv _ _ _ _ _ _ _ _ _ Hg Hi Es)) as (oc2 & outs & got' & Er & Hp & Hi2 & Hfull).
  rewrite Er. exists oc2, (out ++ outs), (arrived ev ++ got'). cbn [mbind option_bind]. split_and!; [done|..].
  - by apply prefix_app.
  - by rewrite !app_assoc.
  - intros Hn. by rewrite (Hfull Hn).
Qed.

(** C19: a TCP connection, whatever the client sends in whatever pieces, however the writes are
    split, whenever timers fire and whatever happens to the engine in between.  It never
    panics; the messages served are the leading frames of what arrived, in order, the bytes
    written are the leading part of the frames of the engine's answers to them, and whenever
    the connection waits for the next message every message before it has been answered
    completely. *)
Theorem tcp_connection_serves `{!EngineLaws} peer now es :
  Forall (λ x, Good x.1) es →
  ∃ oc written qs bs, conn_run (Some (conn_new peer now)) es = Some (oc, written)
    ∧ Forall2 (served (sock_ip peer)) qs bs ∧ frames qs `prefix_of` arrivals es ∧ written `prefix_of` frames bs
    ∧ (∀ c d, oc = Some c → cn_stage c = CsLen d → written = frames bs ∧ arrivals es = frames qs ++ cn_rx c).
Proof.
  intros Hg. assert (Hnew : conn_inv peer [] [] (Some (conn_new peer now))) by (by exists [], []; repeat split; constructor).
  destruct (conn_run_inv es peer [] [] _ Hg Hnew) as (oc & out & got & Er & Hp & Hi & Hfull). simpl in Hi.
  destruct oc as [c|].
  - rewrite (Hfull ltac:(done)) in Hi. destruct Hi as (qs & bs & Hs & _ & _ & Hst).
    destruct (conn_at_prefix _ _ _ _ _ Hst) as [Hq Hb]. exists (Some c), out, qs, bs. split_and!; [done..|].
    intros c' d [= <-] Hd. unfold conn_at in Hst. rewrite Hd in Hst. by destruct Hst.
  - destruct Hi as (qs & bs & Hs & Hq & Hb). exists None, out, qs, bs. split_and!; [done|done| |done|done].
    by etrans.
Qed.

(** ** The accept loop *)

Local Abbreviation TcpListener := (TcpListener (P:=P)).
(** The clock of an event, and of a run that started at [t]; it does not go back. *)
Definition conn_time (ev : ConnEvent (E:=E)) : option Z :=
  match ev with CeRead now | CePoll now _ | CeWrote now _ | CeTimer now => Some now | _ => None end.
Definition tcp_time (ev : TcpEvent (E:=E)) : option Z :=
  match ev with TePermit => None | TeAccept now _ => Some now | TeConn _ ev => conn_time ev end.
Definition tick (t : Z) (ev : TcpEvent) : Z := default t (tcp_time ev).
Fixpoint clocked (t : Z) (es : list (G * TcpEvent)) : Prop :=
  match es with [] => True | (_, ev) :: es => (t <= tick t ev)%Z ∧ clocked (tick t ev) es end.
Definition clock (t : Z) (es : list (G * TcpEvent)) : Z := foldl (λ t x, tick t x.2) t es.

Definition permits_held (l : TcpListener) : nat := match tl_loop l with TlAccept => 1 | TlPermit => 0 end.
Definition timely (t : Z) (c : Conn) : Prop := ∀ d, deadline_of (cn_stage c) = Some d → (d <= t + TCP_IDLE)%Z.
Record tcp_ok (t : Z) (l : TcpListener) : Prop := {
  to_permits : tl_free l + permits_held l + length (tl_conns l) = Z.to_nat MAX_TCP_CONNS;
  to_conns : Forall (λ c, conn_good c ∧ timely t c) (tl_conns l);
}.
Lemma timely_mono t t' c : (t <= t')%Z → timely t c → timely t' c.
Proof. intros Ht H d Hd. specialize (H d Hd). lia. Qed.
(** A step sets no deadline later than 30 seconds from its own time. *)
Lemma conn_step_timely g c ev g' c' out t : conn_step g c ev = Some (g', Some c', out) →
  timely t c → (t <= default t (conn_time ev))%Z → timely (default t (conn_time ev)) c'.
Proof.
  assert (Hio : (TCP_IO <= TCP_IDLE)%Z) by (unfold TCP_IO, TCP_IDLE, NANOS; lia).
  intros Hs Hc Ht. pose proof (timely_mono _ _ _ Ht Hc) as Hm. revert Hs Hm Hc.
  assert (Hstay : ∀ t', Some (g, Some c, []) = Some (g', Some c', out) → timely t' c → timely t' c') by (by intros t' [= _ <- _]).
  destruct c as [peer rx stage].
  destruct ev as [b|now|now e|now k| |now], stage as [d|len d|call|rest d]; cbn [conn_step conn_time default id cn_stage cn_rx deadline_of] in *;
    try (intros Hs Hm _; exact (Hstay _ Hs Hm)); try (by intros [= _ <- _]);
    try (destruct (starving _); cbn [andb]; [|intros Hs Hm _; exact (Hstay _ Hs Hm)]; try (destruct (_ <=? _)%Z; [|intros Hs Hm _; exact (Hstay _ Hs Hm)]); done).
  - destruct (read_exact 2 rx) as [[[|hi [|lo [|? ?]]] rest]|]; try (intros Hs Hm _; exact (Hstay _ Hs Hm)).
    intros [= _ <- _] _ _ d' [= <-]. lia.
  - destruct (read_exact len rx) as [[b rest]|]; [|intros Hs Hm _; exact (Hstay _ Hs Hm)].
    by destruct (ingress_parse b); intros [= _ <- _] _ _ d'.
  - destruct (poll_call g e _ call) as [[g1 [r|c1]]|]; [| |done]; cbn [mbind option_bind]; [|by intros [= _ <- _]].
    unfold conn_reply. destruct (response_into_wire r); [|done]. destruct (_ <? _)%Z; [done|]. intros [= _ <- _] _ _ d' [= <-]. lia.
  - intros [= _ <- _] Hm _ d'. cbn [to_stage cn_stage]. specialize (Hm d eq_refl).
    destruct (drop k rest); intros [= <-]; lia.
Qed.
Lemma tcp_step_ok `{!EngineLaws} t g l ev : Good g → (t <= tick t ev)%Z → tcp_ok t l →
  ∃ g' l', tcp_step g l ev = Some (g', l') ∧ tcp_ok (tick t ev) l'.
Proof.
  intros Hg Ht [Hp Hc]. assert (Hc' : Forall (λ c, conn_good c ∧ timely (tick t ev) c) (tl_conns l)).
  { eapply Forall_impl; [exact Hc|]. intros c [? ?]. eauto using timely_mono. }
  destruct ev as [|now peer|n ev]; unfold permits_held in Hp; cbn [tcp_step].
  - eexists _, _. split; [done|]. destruct (tl_loop l) eqn:El, (tl_free l) eqn:Ef; constructor; unfold permits_held; simpl;
      rewrite ?El, ?Ef; try done; lia.
  - eexists _, _. split; [done|]. destruct (tl_loop l) eqn:El, peer as [peer|]; constructor; unfold permits_held; simpl; rewrite ?El; try done; try lia.
    + rewrite length_app. simpl. lia.
    + apply Forall_app. split; [done|]. repeat constructor. intros d [= <-]. cbn. lia.
  - destruct (tl_conns l !! n) as [c|] eqn:Ec; [|eexists _, _; split; [done|]; by constructor].
    pose proof (Forall_lookup_1 _ _ _ _ Hc Ec) as [Hgood Htime].
    destruct (conn_step_runs g c ev Hg Hgood) as (g1 & [c1|] & out & Es & Hoc); rewrite Es; cbn [mbind option_bind];
      eexists _, _; (split; [done|]); constructor; unfold permits_held; simpl.
    + by rewrite length_insert.
    + apply Forall_insert; [done|]. split; [by apply Hoc|]. by eapply conn_step_timely.
    + pose proof (length_delete_lt _ _ _ Ec). lia.
    + by apply Forall_delete.
Qed.
Lemma tcp_run_ok `{!EngineLaws} es t l : Forall (λ x, Good x.1) es → clocked t es → tcp_ok t l →
  ∃ l', tcp_run l es = Some l' ∧ tcp_ok (clock t es) l'.
Proof.
  revert t l. induction es as [|[g ev] es IH]; intros t l Hg Ht Hl; [by exists l|].
  apply Forall_cons in Hg as [Hg Hgs]. destruct Ht as [Ht Hts].
  destruct (tcp_step_ok t g l ev Hg Ht Hl) as (g1 & l1 & E1 & Hl1). cbn [tcp_run]. rewrite E1. by apply IH.
Qed.

(** C20: a TCP listener.  However connections arrive, fail, progress and end, the accept loop
    and the connections together never hold more than 512 permits and none is lost; nothing
    panics; and no client can keep a permit by being slow: a connection whose client sends
    or reads nothing has a deadline at most 30 seconds after the last event, and the timer
    that fires then closes it and frees its permit. *)
Theorem tcp_listener_bounded `{!EngineLaws} t es :
  Forall (λ x, Good x.1) es → clocked t es →
  ∃ l, tcp_run tcp_listener_new es = Some l
    ∧ (Z.of_nat (tl_free l) + Z.of_nat (permits_held l) + Z.of_nat (length (tl_conns l)) = 512)%Z
    ∧ ∀ n c g later, tl_conns l !! n = Some c → starving c = true → (clock t es + 30 * NANOS <= later)%Z →
        tcp_step g l (TeConn n (CeTimer later)) = Some (g, tcp_release n l).
Proof.
  intros Hg Ht. destruct (tcp_run_ok es t tcp_listener_new Hg Ht) as (l & Er & [Hp Hc]); [by constructor|].
  exists l. split_and!; [done| |].
  - change 512%Z with MAX_TCP_CONNS. rewrite <- !Nat2Z.inj_add, Hp. done.
  - intros n c g later Ec Hs Hl. cbn [tcp_step]. rewrite Ec. cbn [mbind option_bind conn_step].
    pose proof (Forall_lookup_1 _ _ _ _ Hc Ec) as [_ Htime]. unfold timely, TCP_IDLE in Htime.
    destruct (deadline_of (cn_stage c)) as [d|] eqn:Ed; [|by unfold starving in Hs; destruct (cn_stage c)].
    specialize (Htime d eq_refl). rewrite Hs, (proj2 (Z.leb_le d later)) by lia. done.
Qed.
End props.
