(* ===== verification/AcceptInstances.v ===== *)
(** * The query pipeline behind the listeners: [Engine] implements the interface of [Accept],
    and runs of the three claims of [AcceptProps] on it. *)
From Stdlib Require Import Ascii.
From S2P Require Import Prelude RustStr RustNet RustFloat Rule Glob Parser ParserProps FilterEngine FilterEngineProps Instances FilterSpec Compiler Wire Dns DnsInstances Clients Block QueryLog Cache CacheProps Snapshot SnapshotProps Stats StatsProps Engine EngineText EngineProps EngineInstances EngineSafety Spec ProbeLog Pool Config Framing Listener Accept AcceptProps.

Section pipeline.
Context {DL : DnsLib} {DC : DnsCodec} {IL : IpNetLib} {HO : HashOrder}.
Context {L : LruLib QueryKey Entry} (khash : QueryKey → Z).
Context {sender : Type} (try_send : sender → QueryLogEntry → option sender).
Context {F : Type} {FO : FilterOps F} {pool : Type}.

(** The engine with the refresh tasks it has spawned; a call that waits is a query or the
    target of a CNAME rewrite at the pool. *)
Definition Running : Type := Engine (sender:=sender) (F:=F) (pool:=pool) * list (Refresh (F:=F)).
Definition Waiting : Type := Pending (F:=F) (pool:=pool) + PendingCname.
(** What a step of [handle] reads around it: the clock, the id of a CNAME query, the pool's
    answer. *)
Record Surroundings : Type := { su_env : Env; su_id : Z; su_answer : result Resolved bytes }.
#[export] Instance pipeline_ops : EngineOps Running Waiting Surroundings := {|
  en_begin g e i ip :=
    let! (r, g1) := handle khash try_send g.1 (su_env e) (su_id e) i ip in
    Some match r with
         | HrDone resp task => ((g1, g.2 ++ option_list task), inl resp)
         | HrUpstream p => ((g1, g.2), inr (inl p))
         | HrCname p => ((g1, g.2), inr (inr p))
         end;
  en_resume g e p :=
    let! (resp, g1) := match p with
                       | inl p => resume khash try_send g.1 (su_env e) p (su_answer e)
                       | inr p => resume_cname try_send g.1 (su_env e) p (su_answer e)
                       end in
    Some ((g1, g.2), resp);
|}.

(** The good states are those of the pipeline's invariant. *)
Definition running_ok (Installed : F → Prop) (g : Running) : Prop := engine_ok khash Installed g.1.
Lemma pipeline_engine_laws {NL : NameLaws DL} {CL : CodecLaws DC} {LL : LruLaws L} (Installed : F → Prop)
    {FL : FilterLaws FO Installed} :
  EngineLaws (running_ok Installed).
Proof.
  split.
  - intros b g e i ip Hb Hg. destruct (handle_ok khash try_send Installed g.1 (su_env e) (su_id e) b i ip Hg Hb) as (r & g1 & E & _).
    cbn [en_begin pipeline_ops]. rewrite E. by eexists.
  - intros g e i ip p (b & g0 & e0 & g0' & Hb & Hg0 & E0) Hg. cbn [en_begin en_resume pipeline_ops] in *.
    destruct p as [p|p].
    + destruct (handle_ok khash try_send Installed g0.1 (su_env e0) (su_id e0) b i ip Hg0 Hb) as (r & g1 & E & _ & Hr).
      rewrite E in E0. cbn [mbind option_bind] in E0. destruct r as [resp t|q|q]; [done| |done]. injection E0 as <- ->.
      destruct (resume_ok khash try_send Installed g.1 (su_env e) p (su_answer e) Hg Hr) as (r & g2 & E2 & _).
      rewrite E2. by eexists.
    + destruct (resume_cname_ok khash try_send Installed g.1 (su_env e) p (su_answer e) Hg) as (r & g2 & E2 & _).
      rewrite E2. by eexists.
Qed.
End pipeline.

(** ** Runs *)

Definition acc_ops : EngineOps (Running (pool:=unit)) Waiting Surroundings := pipeline_ops sample_hash pipe_send.
Definition acc_good : Running → Prop := running_ok sample_hash pipe_installed (sender:=list QueryLogEntry) (pool:=unit).
Lemma acc_laws : EngineLaws (EO:=acc_ops) acc_good.
Proof. exact (pipeline_engine_laws sample_hash pipe_send pipe_installed). Qed.
Definition acc_engine : Running := (w_engine pipe_world, []).
Lemma acc_engine_good : acc_good acc_engine.
Proof. exact (wo_engine _ _ _ (reachable_ok sample_hash pipe_send pipe_installed _ pipe_world_reachable)). Qed.
Definition acc_peer : SocketAddr := SaV4 (quad 10 0 0 1) 40000.
Definition acc_at (secs : Z) : Surroundings := {| su_env := pipe_env secs; su_id := 7; su_answer := Ok pipe_answer |}.
Definition acc_here {A} (evs : list A) : list (Running * A) := (acc_engine,.) <$> evs.
Lemma acc_here_good {A} (evs : list A) : Forall (λ x, acc_good x.1) (acc_here evs).
Proof. apply Forall_fmap, Forall_forall. intros x _. exact acc_engine_good. Qed.

(** A query arrives, waits for the pool, and is answered. *)
Definition acc_udp : list (Running * UdpEvent) :=
  acc_here [UdRecv (Some (pipe_packet, acc_peer)); UdPoll 0 (acc_at 0); UdRecv (Some (bs "noise", acc_peer)); UdPoll 0 (acc_at 1)].
Definition acc_sent (o : UdpOut) : bool := match o with UoReturned _ _ _ (Some _) => true | _ => false end.
Lemma udp_listener_serves_witness :
  ∃ l outs, udp_run (EO:=acc_ops) udp_listener_new acc_udp = Some (l, outs) ∧ existsb acc_sent outs = true
    ∧ (Z.of_nat (ul_free l) + Z.of_nat (length (ul_tasks l)) = 1024)%Z ∧ taken outs ≡ₚ returned outs ++ held l.
Proof.
  assert (H : match udp_run (EO:=acc_ops) udp_listener_new acc_udp with Some (_, outs) => existsb acc_sent outs | None => false end = true)
    by (vm_compute; reflexivity).
  destruct (udp_run (EO:=acc_ops) udp_listener_new acc_udp) as [[l outs]|] eqn:Er; [|discriminate H].
  destruct (udp_listener_serves (EO:=acc_ops) acc_good (H:=acc_laws) acc_udp l outs (acc_here_good _) Er) as (H1 & H2 & _).
  exists l, outs. split; [reflexivity|]. split; [exact H|]. split; [exact H1|exact H2].
Defined.

(** A client that sends its query in two pieces, reads the answer in two, and goes away. *)
Definition acc_tcp : list (Running * ConnEvent) :=
  acc_here [CeArrive (take 5 (frame pipe_packet)); CeRead 0; CeTimer (5 * NANOS); CeArrive (drop 5 (frame pipe_packet));
            CeRead (6 * NANOS); CePoll (6 * NANOS) (acc_at 0); CePoll (7 * NANOS) (acc_at 1); CeWrote (7 * NANOS) 10;
            CeWrote (8 * NANOS) 1000; CeTimer (20 * NANOS)].
Lemma tcp_connection_serves_witness :
  ∃ oc written qs bs, conn_run (EO:=acc_ops) (Some (conn_new acc_peer 0)) acc_tcp = Some (oc, written)
    ∧ written ≠ [] ∧ Forall2 (served (EO:=acc_ops) acc_good (sock_ip acc_peer)) qs bs
    ∧ frames qs `prefix_of` arrivals acc_tcp ∧ written `prefix_of` frames bs.
Proof.
  destruct (tcp_connection_serves (EO:=acc_ops) acc_good (H:=acc_laws) acc_peer 0 acc_tcp (acc_here_good _))
    as (oc & written & qs & bs & Er & Hs & Hq & Hb & _).
  exists oc, written, qs, bs. split; [exact Er|]. split; [|split; [exact Hs|split; [exact Hq|exact Hb]]].
  assert (H : match conn_run (EO:=acc_ops) (Some (conn_new acc_peer 0)) acc_tcp with Some (_, w) => length w | None => 0 end ≠ 0)
    by (vm_compute; discriminate).
  intros ->. rewrite Er in H. by destruct H.
Defined.

(** A client that connects and stays silent. *)
Definition acc_idle : list (Running * TcpEvent (E:=Surroundings)) :=
  acc_here [TePermit; TeAccept (1 * NANOS) (Some acc_peer); TePermit; TeConn 0 (CeArrive [(byte_of 0)])].
Definition acc_silent : Conn (P:=Waiting (F:=(bytes → Z) * FilterEngine) (pool:=unit)) :=
  {| cn_peer := acc_peer; cn_rx := [(byte_of 0)]; cn_stage := CsLen 31000000000 |}.
Lemma tcp_listener_bounded_witness :
  ∃ l, tcp_run (EO:=acc_ops) tcp_listener_new acc_idle = Some l
    ∧ (Z.of_nat (tl_free l) + Z.of_nat (permits_held l) + Z.of_nat (length (tl_conns l)) = 512)%Z
    ∧ tcp_step (EO:=acc_ops) acc_engine l (TeConn 0 (CeTimer (31 * NANOS))) = Some (acc_engine, tcp_release 0 l)
    ∧ length (tl_conns l) = 1.
Proof.
  destruct (tcp_listener_bounded (EO:=acc_ops) acc_good (H:=acc_laws) 0 acc_idle (acc_here_good _)) as (l & Er & Hp & Hc).
  { repeat split; vm_compute; discriminate. }
  exists l. split; [exact Er|]. split; [exact Hp|].
  assert (Hl : tl_conns <$> tcp_run (EO:=acc_ops) tcp_listener_new acc_idle = Some [acc_silent]) by vm_refl.
  rewrite Er in Hl. apply (inj Some) in Hl. split; [|rewrite Hl; reflexivity].
  apply (Hc 0 acc_silent acc_engine (31 * NANOS)%Z); [rewrite Hl; reflexivity|reflexivity|vm_compute; discriminate].
Defined.
