(* ===== verification/Replies.v ===== *)
(** * Replies: what a client is sent answers what it asked, from bytes to bytes.

    The pipeline, the cache with its snapshots, the coalescing pool and the listeners
    together: whichever way a packet takes, the reply carries its id. *)
From Stdlib Require Import Ascii.
From S2P Require Import Prelude RustStr RustNet RustFloat Glob Rule Token Parser ParserProps Instances FilterEngine FilterEngineProps FilterSpec Wire Dns DnsInstances Clients Block QueryLog Cache CacheProps Snapshot SnapshotProps Stats StatsProps Engine EngineText EngineProps EngineInstances EngineSafety Spec ProbeLog Pool PoolProps Listener.

(** The id in the first two bytes of a message. *)
Definition packet_id (b : bytes) : option Z := match b with hi :: lo :: _ => Some (be16 hi lo) | _ => None end.

(** What is documented of the codec: the id is in the first two bytes, what was encoded can be
    decoded, and no message is longer than its 16-bit length allows. *)
Class HeaderLaws {DL : DnsLib} (DC : DnsCodec) : Prop := {
  hd_decode b m : msg_from_vec b = Some m → packet_id b = Some (msg_id m);
  hd_encode m b : in_u 16 (msg_id m) → msg_to_vec m = Some b → packet_id b = Some (msg_id m);
  hd_decodes m b : msg_to_vec m = Some b → is_Some (msg_from_vec b);
  hd_length m b : msg_to_vec m = Some b → (Z.of_nat (length b) < 65536)%Z;
}.

(** ** Ids *)

Section ids.
Context {DL : DnsLib} {DC : DnsCodec}.

Lemma packet_id_range b id : packet_id b = Some id → in_u 16 id.
Proof.
  destruct b as [|hi [|lo b]]; try done. intros [= <-]. unfold be16, in_u.
  pose proof (u8_range hi). pose proof (u8_range lo). lia.
Qed.
Lemma packet_id_index b id : index16 b 0 = Ok id → packet_id b = Some id.
Proof. by destruct b as [|hi [|lo b]]; try done; intros [= <-]. Qed.
Lemma parse_query_id b q : parse_query b = Some q → packet_id b = Some (pq_id q).
Proof.
  unfold parse_query, outcome_of. destruct (parse_query_r b) as [q'|] eqn:E; [|done]. intros [= ->].
  apply packet_id_index. unfold parse_query_r in E. destruct (_ <? _); [done|].
  destruct (index16 b 0) as [id|]; [|done]. cbn [result_bind] in E.
  repeat (match type of E with
    | result_bind ?m _ = Ok _ => destruct m; [|done]; cbn [result_bind] in E
    | (if ?c then _ else _) = Ok _ => destruct c; [done|]
    end; repeat match goal with x : (_ * _)%type |- _ => destruct x end).
  by injection E as <-.
Qed.
Lemma patch_packet_id b id ttl offs : (Z.of_nat (length b) < 65536)%Z → scan_ttl_offsets b = Some offs → in_u 16 id →
  packet_id (patch b id ttl offs) = Some id.
Proof.
  intros Hl Hs%scan_Some Hid. apply scan_scanned in Hs; [|lia].
  pose proof (patch_id b id ttl offs 0 Hs ltac:(lia)) as H0. pose proof (patch_id b id ttl offs 1 Hs ltac:(lia)) as H1.
  destruct (patch b id ttl offs) as [|hi [|lo r]]; try done. injection H0 as ->. injection H1 as ->. simpl. by rewrite be16_bytes.
Qed.

Context {HL : HeaderLaws DC}.

(** What the listeners send of a response carries [id]. *)
Definition carries (id : Z) (resp : EngineResponse) : Prop :=
  (∀ out, response_into_wire resp = Some out → packet_id out = Some id)
  ∧ ∀ max, udp_reply max resp = [] ∨ packet_id (udp_reply max resp) = Some id.
Lemma encode_udp_id id m max : in_u 16 id → msg_id m = id → encode_udp m max = [] ∨ packet_id (encode_udp m max) = Some id.
Proof.
  intros Hid <-. destruct (encode_udp_cases m max _ eq_refl) as [[E _]|[(full & _ & _ & ->)|[_ ->]]]; [|..|by left].
  - right. by eapply hd_encode.
  - destruct (msg_to_vec (truncated m)) as [b|] eqn:E; [right|by left]. by apply (hd_encode (truncated m)).
Qed.
Lemma carries_message id m : in_u 16 id → msg_id m = id → carries id (ErMessage m).
Proof.
  intros Hid E. split; simpl; [|intros max; by apply encode_udp_id]. intros out Ho. rewrite <- E. apply hd_encode; [by rewrite E|done].
Qed.
Lemma carries_wire id b : packet_id b = Some id → is_Some (msg_from_vec b) → carries id (ErWire b).
Proof.
  intros E [m Em]. split; [by intros out [= <-]|]. intros max. simpl. destruct (_ <=? _); [by right|]. rewrite Em. simpl.
  apply encode_udp_id; [by eapply packet_id_range|]. apply hd_decode in Em. congruence.
Qed.

(** The parts of a parsed packet agree on its id. *)
Lemma ingress_id b i : ingress_parse b = Some i →
  match into_parts i with
  | Ok (fields, lazy) => packet_id b = Some (qf_id fields) ∧ ∀ m, lazy_into_message lazy = Some m → packet_id b = Some (msg_id m)
  | Err m => packet_id b = Some (msg_id m)
  end.
Proof.
  unfold ingress_parse. destruct (parse_query b) as [q|] eqn:E.
  - intros [= <-]. simpl. split; [by apply parse_query_id|]. intros m. apply hd_decode.
  - destruct (msg_from_vec b) as [m|] eqn:Em; [|done]. intros [= <-]. apply hd_decode in Em. simpl.
    unfold fields_from_message. destruct (head (msg_queries m)) as [q|]; [|done]. simpl. split; [done|]. by intros m' [= <-].
Qed.
Lemma append_resolved_id m res : msg_id (append_resolved m res) = msg_id m.
Proof.
  destruct res as [r|]; [|done]. simpl. generalize (msg_answers (rs_message r)). intros l. revert m.
  induction l as [|a l IH]; intros m; [done|]. simpl. by rewrite IH.
Qed.
End ids.

(** ** The cache *)

Section pipeline.
Context {DL : DnsLib} {DC : DnsCodec} {HL : HeaderLaws DC} {CL : CodecLaws DC} {IL : IpNetLib} {HO : HashOrder}.
Context {L : LruLib QueryKey Entry} {LL : LruLaws L} (khash : QueryKey → Z).
Context {sender : Type} (try_send : sender → QueryLogEntry → option sender).
Context {F : Type} {FO : FilterOps F} {pool : Type} (Installed : F → Prop).
Local Abbreviation Engine := (Engine (sender:=sender) (F:=F) (pool:=pool)).
Local Abbreviation World := (World (sender:=sender) (F:=F) (pool:=pool)).

(** An entry as the cache stores it: an encoded message with the TTL offsets of its scan. *)
Definition wired (e : Entry) : Prop :=
  match e_stored e with
  | StWire b offs _ _ => scan_ttl_offsets b = Some offs ∧ ∃ m, msg_to_vec m = Some b
  | StMessage _ => True
  end.
Local Abbreviation tidy := (cache_wf khash wired).
Definition engine_response (r : CachedResponse) : EngineResponse :=
  match r with CrWire b _ _ => ErWire b | CrMessage m => ErMessage m end.

Lemma store_message_wired cfg m at_ ttl v :
  wired {| e_stored := (store_message cfg m).1; e_stored_at := at_; e_ttl := ttl; e_verdict := v |}.
Proof.
  unfold wired, store_message. destruct (msg_to_vec m) as [b|] eqn:E; [|done]. destruct (scan_ttl_offsets b) as [offs|] eqn:Es; [|done].
  simpl. by eauto.
Qed.
Lemma serve_carries e id ttl : wired e → in_u 16 id → carries id (engine_response (serve (e_stored e) id ttl)).
Proof.
  unfold wired. intros He Hid. destruct (e_stored e) as [b offs rc an|m]; simpl; [|by apply carries_message].
  destruct He as [Hs [m Hm]]. apply carries_wire; [by apply patch_packet_id; [eapply hd_length| |]|].
  destruct (codec_patch m b offs id ttl Hm Hs) as (m' & -> & _). done.
Qed.
Lemma hit_carries now c key id hit c' : tidy c → cache_get khash now c key id = Some (Some hit, c') → in_u 16 id →
  carries id (engine_response (ch_response hit)).
Proof. intros Hc Hg Hid. destruct (cache_get_entry khash wired _ _ _ _ _ _ Hc Hg) as (e & ttl & He & -> & _). by apply serve_carries. Qed.
Lemma get_tidy now c key id r c' : tidy c → cache_get khash now c key id = Some (r, c') → tidy c'.
Proof. intros Hc Hg. destruct (cache_get_ok khash wired now c key id Hc) as (r1 & c1 & E & Hc1). by rewrite Hg in E; injection E as _ <-. Qed.
(** An insertion keeps the cache tidy, and hands back the encoding of the message, if anything. *)
Lemma insert_tidy (g : Engine) env key m v r g' : tidy (eg_cache g) → engine_insert khash g env key m v = Some (r, g') →
  tidy (eg_cache g') ∧ ∀ w, r = Some w → msg_to_vec m = Some (iw_bytes w).
Proof.
  intros Hc. unfold engine_insert.
  destruct (cache_insert_good khash wired (ev_now env) (eg_cache g) key m v Hc) as (r1 & c1 & -> & Hc1 & Hr).
  { intros ttl _. apply store_message_wired. }
  intros [= <- <-]. split; [done|]. intros w ->. destruct Hr as [?|Hr]; [done|]. unfold store_message in Hr.
  destruct (msg_to_vec m) as [b|]; [|done]. by destruct (scan_ttl_offsets b); [injection Hr as ->|].
Qed.

(** ** The pipeline *)

Lemma record_cache (g : Engine) env log a rc an g' : engine_record try_send g env log a rc an = Some g' → eg_cache g' = eg_cache g.
Proof. unfold engine_record. destruct (negb _ && negb _); [by intros [= <-]|]. intros H. by inv_some. Qed.
Lemma finalize_cache (g : Engine) env m a l r g' : finalize try_send g env m a l = Some (r, g') → r = ErMessage m ∧ eg_cache g' = eg_cache g.
Proof.
  unfold finalize. destruct (engine_record _ _ _ _ _ _ _) eqn:E; [|done]. intros [= <- <-]. split; [done|]. by eapply record_cache.
Qed.
Lemma finalize_wire_cache (g : Engine) env b rc an a l r g' :
  finalize_wire try_send g env b rc an a l = Some (r, g') → r = ErWire b ∧ eg_cache g' = eg_cache g.
Proof.
  unfold finalize_wire. destruct (engine_record _ _ _ _ _ _ _) eqn:E; [|done]. intros [= <- <-]. split; [done|]. by eapply record_cache.
Qed.
Lemma maybe_refresh_cache f (g : Engine) st memo lz key : tidy (eg_cache g) → tidy (eg_cache (maybe_refresh f g st memo lz key).2).
Proof. unfold maybe_refresh. destruct (requires_refresh f); [|done]. intros H. by apply inv_counters. Qed.

(** What becomes of a packet with this id: a reply that carries it, or a suspended query that
    remembers it; and the cache stays tidy. *)
Definition tracked (id : Z) (o : option (HandleResult (F:=F) (pool:=pool) * Engine)) : Prop :=
  ∀ r g', o = Some (r, g') → tidy (eg_cache g') ∧
    match r with
    | HrDone resp _ => carries id resp
    | HrUpstream p => msg_id (pd_query p) = id
    | HrCname p => msg_id (pc_message p) = id
    end.
Lemma done_tracked id (g : Engine) env m a l : tidy (eg_cache g) → in_u 16 id → msg_id m = id →
  tracked id (hr_done <$> finalize try_send g env m a l).
Proof.
  intros Hc Hid Hm r g' H. destruct (finalize _ _ _ _ _ _) as [[r0 g0]|] eqn:E; [|done]. apply finalize_cache in E as [-> Ec].
  injection H as <- <-. simpl. rewrite Ec. split; [done|]. by apply carries_message.
Qed.
Lemma handle_hit_tracked (g : Engine) env st client id lz key log hit :
  tidy (eg_cache g) → in_u 16 id → (∀ m, lazy_into_message lz = Some m → msg_id m = id) → carries id (engine_response (ch_response hit)) →
  tracked id (handle_hit try_send g env st client id lz key log hit).
Proof.
  intros Hc Hid Hlz Hr. unfold handle_hit. destruct (hit_block _ _ _) as [[info|]|]; [| |done]; cbn [mbind option_bind].
  - destruct (lazy_into_message lz) as [q|] eqn:El; [|by apply done_tracked]. intros r g'.
    match goal with |- context [maybe_refresh ?f ?g ?s ?m ?l ?k] =>
      pose proof (maybe_refresh_cache f g s m l k Hc) as Hm; destruct (maybe_refresh f g s m l k) as [t g1] end.
    destruct (finalize _ _ _ _ _ _) as [[r0 g0]|] eqn:E; [|done]. apply finalize_cache in E as [-> Ec]. intros [= <- <-].
    rewrite Ec. split; [done|]. apply carries_message; [done|]. unfold blocked_message. rewrite (aq_id _ _ (block_response_answers _ _ _ _ _)). auto.
  - intros r g'. match goal with |- context [maybe_refresh ?f ?g ?s ?m ?l ?k] =>
      pose proof (maybe_refresh_cache f g s m l k Hc) as Hm; destruct (maybe_refresh f g s m l k) as [t g1] end.
    destruct (ch_response hit) as [b rc an|m]; cbn [engine_response] in Hr.
    + destruct (finalize_wire _ _ _ _ _ _ _ _) as [[r0 g0]|] eqn:E; [|done]. apply finalize_wire_cache in E as [-> Ec].
      intros [= <- <-]. by rewrite Ec.
    + destruct (finalize _ _ _ _ _ _) as [[r0 g0]|] eqn:E; [|done]. apply finalize_cache in E as [-> Ec]. intros [= <- <-]. by rewrite Ec.
Qed.
Lemma handle_lookup_tracked (g : Engine) env st client fields lz log :
  tidy (eg_cache g) → in_u 16 (qf_id fields) → (∀ m, lazy_into_message lz = Some m → msg_id m = qf_id fields) →
  tracked (qf_id fields) (handle_lookup khash try_send g env st client fields lz log).
Proof.
  intros Hc Hid Hlz. unfold handle_lookup. destruct (cache_get _ _ _ _ _) as [[found c]|] eqn:E; [|done]. cbn [mbind option_bind].
  pose proof (get_tidy _ _ _ _ _ _ Hc E) as Hc'. destruct found as [hit|]; [apply handle_hit_tracked; [done..|exact (hit_carries _ _ _ _ _ _ Hc E Hid)]|].
  destruct (lazy_into_message lz) as [q|] eqn:El; [|by apply done_tracked]. intros r g' [= <- <-]. split; [done|]. auto.
Qed.
Lemma handle_tracked (g : Engine) env cid b i ip : tidy (eg_cache g) → ingress_parse b = Some i →
  ∃ id, packet_id b = Some id ∧ tracked id (handle khash try_send g env cid i ip).
Proof.
  intros Hc Hi. apply ingress_id in Hi. unfold handle. destruct (into_parts i) as [[fields lz]|m].
  2:{ exists (msg_id m). split; [done|]. destruct (identify _ _) as [client|]; [|done]. intros r g' [= <- <-]. split; [done|].
      apply carries_message; [by eapply packet_id_range|done]. }
  destruct Hi as [Hid Hlz]. exists (qf_id fields). split; [done|]. pose proof (packet_id_range _ _ Hid) as Hr.
  assert (Hm : ∀ m, lazy_into_message lz = Some m → msg_id m = qf_id fields) by (intros m E; apply Hlz in E; congruence).
  destruct (identify _ _) as [client|]; [|done]. cbn [mbind option_bind]. destruct (_ && _); [|by apply handle_lookup_tracked].
  destruct (f_check _ _ _ _) as [[rule|info|info data]|]; [by apply handle_lookup_tracked| | |done]; cbn [mbind option_bind];
    (destruct (lazy_into_message lz) as [q|] eqn:El; [|by apply done_tracked]); specialize (Hm q eq_refl).
  - apply done_tracked; [done..|]. unfold blocked_message. by rewrite (aq_id _ _ (block_response_answers _ _ _ _ _)).
  - pose proof (aq_id _ _ (rewrite_response_answers q data (es_blocked_ttl (eg_state g)))) as Hw.
    destruct (rewrite_response _ _ _); simpl in Hw; [by apply done_tracked; [..|congruence]|].
    intros r g' [= <- <-]. split; [done|]. simpl. congruence.
Qed.
Lemma insert_refresh_tidy (g : Engine) env key m v g' : tidy (eg_cache g) → snd <$> engine_insert khash g env key m v = Some g' → tidy (eg_cache g').
Proof. intros Hc. destruct (engine_insert _ _ _ _ _ _) as [[w g1]|] eqn:E; [|done]. intros [= <-]. by eapply insert_tidy. Qed.
Lemma run_refresh_tidy (g : Engine) env t res g' : tidy (eg_cache g) → run_refresh khash g env t res = Some g' → tidy (eg_cache g').
Proof.
  intros Hc. unfold run_refresh. destruct (lazy_into_message _); [|intros [= <-]; by apply inv_counters].
  destruct res; [|intros [= <-]; by apply inv_counters]. destruct (rf_memoize t); [|by apply insert_refresh_tidy].
  destruct (filter_answers _ _ _); [|done]. by apply insert_refresh_tidy.
Qed.
(** A resumed query: the reply carries the id of its query if the pool's answer does. *)
Lemma resume_carries (g : Engine) env p res resp g' : tidy (eg_cache g) → resume khash try_send g env p res = Some (resp, g') →
  tidy (eg_cache g') ∧
  (in_u 16 (msg_id (pd_query p)) → (∀ r, res = Ok r → msg_id (rs_message r) = msg_id (pd_query p)) → carries (msg_id (pd_query p)) resp).
Proof.
  intros Hc. unfold resume. destruct res as [resolved|].
  2:{ intros [-> ->]%finalize_cache. split; [done|]. intros Hid _. by apply carries_message. }
  intros H. match type of H with (?v ≫= _) = _ => destruct v as [[info|]|]; [| |done] end; cbn [mbind option_bind] in H.
  - destruct (engine_insert _ _ _ _ _ _) as [[w g1]|] eqn:E; [|done]. cbn [mbind option_bind] in H.
    apply (insert_tidy _ _ _ _ _ _ _ Hc) in E as [Hc1 _]. apply finalize_cache in H as [-> ->]. split; [done|].
    intros Hid _. apply carries_message; [done|]. unfold blocked_message. by rewrite (aq_id _ _ (block_response_answers _ _ _ _ _)).
  - match type of H with (?v ≫= _) = _ => destruct v as [verdict|]; [|done] end. cbn [mbind option_bind] in H.
    destruct (engine_insert _ _ _ _ _ _) as [[[w|] g1]|] eqn:E; [| |done]; cbn [mbind option_bind] in H;
      apply (insert_tidy _ _ _ _ _ _ _ Hc) in E as [Hc1 Hw].
    + apply finalize_wire_cache in H as [-> ->]. split; [done|]. intros Hid Hr. specialize (Hw w eq_refl). specialize (Hr resolved eq_refl).
      apply carries_wire; [|by eapply hd_decodes]. rewrite <- Hr. apply hd_encode; [by rewrite Hr|done].
    + apply finalize_cache in H as [-> ->]. split; [done|]. intros Hid Hr. by apply carries_message; [|apply Hr].
Qed.
Lemma serve_step_tidy (w w' : World) : serve_step khash try_send Installed w w' → tidy (eg_cache (w_engine w)) → tidy (eg_cache (w_engine w')).
Proof.
  intros Hst Hc. destruct Hst as [? env cid b i ip r g Hi Hh|? env p1 p p2 res resp g _ Hr|? env p1 p p2 res resp g _ Hr
    |? env t1 t t2 res g _ Hr|? st _|? en cap mn mx stale Hmn Hmx|?|?|?|?|?|?]; simpl; try done.
  - destruct (handle_tracked _ env cid b i ip Hc Hi) as (id & _ & Ht). apply Ht in Hh as [Hg _]. by destruct r.
  - by apply resume_carries in Hr as [? _].
  - by apply finalize_cache in Hr as [_ ->].
  - by eapply run_refresh_tidy.
  - by apply inv_reconfigure.
  - by apply inv_clear.
  - by apply inv_store_summaries.
  - by apply inv_counters.
Qed.

(** ** Snapshots *)

Lemma put_all_tidy c l : tidy c → Forall (λ p, wired p.2) l → ∃ c', put_all khash c l = Some c' ∧ tidy c'.
Proof.
  intros Hc Hl. revert c Hc. induction Hl as [|[k e] l He _ IH]; intros c Hc; simpl; [eauto|].
  destruct (put_entry_ok khash wired c k e Hc He) as (c1 & -> & Hc1). by apply IH.
Qed.
(** A snapshot within the limits of its format. *)
Definition writable (unix now : Z) (c : DnsCache) : Prop :=
  in_u 64 unix ∧ (Z.of_nat (length (exports now c)) < 2 ^ 32)%Z
  ∧ (Z.of_nat (length (export_snapshot unix now c)) <= U64_MAX)%Z ∧ Forall parsed_ok (exports now c).
Lemma exports_wired now c : tidy c → Forall (λ p, match pe_stored p with
  | StWire b offs _ _ => scan_ttl_offsets b = Some offs ∧ ∃ m, msg_to_vec m = Some b | StMessage _ => True end) (exports now c).
Proof.
  intros Hc. apply Forall_forall. intros p ([k e] & Hin & Ep)%list_elem_of_omap. apply list_elem_of_join in Hin as (l & Hke & Hl).
  apply list_elem_of_fmap in Hl as (sh & -> & [i Hi]%list_elem_of_lookup_1).
  pose proof (so_entry _ _ _ _ _ (ci_ok _ _ _ Hc _ _ Hi) k e Hke) as He. unfold exported in Ep. cbn [fst snd] in Ep. unfold wired in He.
  destruct (e_stored e) eqn:Es; [|done]. destruct (_ <=? _)%Z; [done|]. by injection Ep as <-.
Qed.
Lemma import_own_tidy fi u0 now0 c0 unix now c n c' : tidy c → tidy c0 → writable u0 now0 c0 →
  import_snapshot khash fi unix now c (export_snapshot u0 now0 c0) = Some (n, c') → tidy c'.
Proof.
  intros Hc Hc0 (Hu & Hn & Hl & Hp). rewrite import_export by done.
  destruct (put_all_tidy c (omap (restore_entry fi now (Z.max 0 (unix - u0)) (cf_stale_max_age (dc_cfg c))) (exports now0 c0)) Hc) as (c1 & -> & Hc1).
  - apply Forall_forall. intros q (p & Hin & Eq)%list_elem_of_omap. pose proof (proj1 (Forall_forall _ _) (exports_wired now0 c0 Hc0) p Hin) as He.
    unfold restore_entry in Eq. repeat case_match; try done. by injection Eq as <-.
  - by intros [= _ <-].
Qed.

(** The lives of an engine: it serves, is reconfigured, and may restore a snapshot that an
    engine of this kind wrote. *)
Inductive lives : World → Prop :=
| lv_start par cap mn mx stale days on anon log st : (0 <= mn)%Z → (0 <= mx)%Z → state_ok Installed st →
    lives (initial_world par cap mn mx stale days on anon log st)
| lv_serve w w' : lives w → serve_step khash try_send Installed w w' → lives w'
| lv_restore w w0 u0 now0 fi unix now n c : lives w → lives w0 → writable u0 now0 (eg_cache (w_engine w0)) →
    import_snapshot khash fi unix now (eg_cache (w_engine w)) (export_snapshot u0 now0 (eg_cache (w_engine w0))) = Some (n, c) →
    lives (with_cache c w).
Lemma lives_tidy w : lives w → tidy (eg_cache (w_engine w)).
Proof.
  induction 1 as [par cap mn mx stale days on anon log st ? ? _|w w' _ IH Hs|w w0 u0 now0 fi unix now n c _ IH _ IH0 Hw Hi].
  - by apply cache_new_inv.
  - by eapply serve_step_tidy.
  - exact (import_own_tidy _ _ _ _ _ _ _ _ _ IH IH0 Hw Hi).
Qed.
End pipeline.

(** ** The contract *)

(** What the coalescing pool returns for a query, in any run of its calls, attempts,
    cancellations and probes; the engine only tells success from failure. *)
Definition pool_returns {DL : DnsLib} {DC : DnsCodec} (p : Pool) (q : Message) (res : result Resolved bytes) : Prop :=
  ∃ es c r, sy_calls (run (system_new p) es) !! c = Some (ClReturned q r)
    ∧ match res, r with Ok a, Ok b => a = b | Err _, Err _ => True | _, _ => False end.
Lemma pool_returns_id {DL : DnsLib} {DC : DnsCodec} {EL : EdnsLaws DL} p q res r : pool_returns p q res → res = Ok r → msg_id (rs_message r) = msg_id q.
Proof.
  intros (es & c & r0 & Hc & Hr) ->. destruct (run_ok p es) as [_ _ Hcalls _ _ _ _].
  rewrite Forall_lookup in Hcalls. destruct (Hcalls _ _ Hc) as [(f & fl & r1 & _ & _ & _ & E)|[[_ ->]|[_ ->]]]; [|done..].
  subst r0. destruct r1 as [r2|]; [|done]. simpl in Hr. by rewrite Hr.
Qed.

Section replies.
Context {DL : DnsLib} {DC : DnsCodec} {HL : HeaderLaws DC} {CL : CodecLaws DC} {EL : EdnsLaws DL} {IL : IpNetLib} {HO : HashOrder}.
Context {L : LruLib QueryKey Entry} {LL : LruLaws L} (khash : QueryKey → Z).
Context {sender : Type} (try_send : sender → QueryLogEntry → option sender).
Context {F : Type} {FO : FilterOps F} (Installed : F → Prop).
Local Abbreviation World := (World (sender:=sender) (F:=F) (pool:=Pool)).
Local Abbreviation lives := (lives khash try_send (pool:=Pool) Installed).

(** C16: every reply carries the id of the packet it answers.  Whatever the engine has served,
    cached, restored from its own snapshots and reloaded before, a packet it can parse is
    answered, at once or after any number of other steps, with bytes that begin with the id of
    the packet: over TCP, and over UDP at whatever size, truncated or not (an answer that
    cannot be encoded is not sent).  That covers answers that are blocked, rewritten, cached
    for another client, refused, or returned by the pool to several coalesced queries. *)
Theorem replies_carry_the_id (w : World) env cid b i ip r g : lives w → ingress_parse b = Some i →
  handle khash try_send (w_engine w) env cid i ip = Some (r, g) →
  ∃ id, packet_id b = Some id ∧
    match r with
    | HrDone resp _ => carries id resp
    | HrUpstream p => ∀ (w' : World) env' res resp g', lives w' → pool_returns (es_pool (pd_state p)) (pd_query p) res →
        resume khash try_send (w_engine w') env' p res = Some (resp, g') → carries id resp
    | HrCname p => ∀ (w' : World) env' res resp g', resume_cname try_send (w_engine w') env' p res = Some (resp, g') → carries id resp
    end.
Proof.
  intros Hw Hi Hh. destruct (handle_tracked khash try_send (w_engine w) env cid b i ip (lives_tidy _ _ _ _ Hw) Hi) as (id & Hb & Ht).
  exists id. split; [done|]. destruct (Ht _ _ Hh) as [_ Hr]. pose proof (packet_id_range _ _ Hb) as Hid. destruct r as [resp t|p|p]; [done| |].
  - intros w' env' res resp g' Hw' Hp H. apply resume_carries in H as [_ H]; [|by eapply lives_tidy]. rewrite <- Hr. apply H; [by rewrite Hr|].
    intros r0 E. by eapply pool_returns_id.
  - intros w' env' res resp g' [-> _]%finalize_cache. apply carries_message; [done|]. by rewrite append_resolved_id.
Qed.
End replies.

(** ** The small codec, and a run *)

#[export] Instance small_header : HeaderLaws small_codec.
Proof.
  constructor.
  - intros b m. cbn [msg_from_vec small_codec]. destruct b as [|hi [|lo b]]; try done.
    unfold small_from_vec. change (hi :: lo :: b) with ([hi; lo] ++ b) at 1. rewrite read_be_app by done. cbn [mbind option_bind]. intros H.
    repeat match type of H with (?x ≫= _) = _ => destruct x as [[? ?]|]; [|done]; cbn [mbind option_bind] in H end.
    destruct (_ && _); [|done]. injection H as <-. unfold packet_id, be16. cbn [msg_id].
    change (be32 [hi; lo]) with ((0 * 256 + u8 hi) * 256 + u8 lo)%Z. f_equal.
  - intros m b Hid Hb. destruct (small_to_vec_Some m b Hb) as (q & _ & _ & _ & _ & -> & _). simpl. by rewrite be16_bytes.
  - intros m b Hb. destruct (small_to_vec_Some m b Hb) as (q & Hn & Hrc & Hq & Hr & -> & _).
    destruct (small_reads m q (msg_id m) dr_ttl Hn Hrc Hq Hr) as (m' & E & _). by exists m'.
  - intros m b Hb. by destruct (small_to_vec_Some m b Hb) as (q & _ & _ & _ & _ & _ & Hl).
Qed.

(** A packet is forwarded, the pool's second upstream answers, and the reply is sent. *)
Definition reply_state : EngineState (F:=(bytes → Z) * FilterEngine) (pool:=Pool) :=
  {| es_filter := pipe_filter; es_pool := sample_pool; es_clients := build_matcher []; es_filtering_enabled := false;
     es_blocking_mode := BmNullIp; es_block_v4 := UNSPECIFIED4; es_block_v6 := UNSPECIFIED6; es_blocked_ttl := 10 |}.
Definition reply_world : World (sender:=list QueryLogEntry) (F:=(bytes → Z) * FilterEngine) (pool:=Pool) :=
  initial_world (Some 4%Z) 100 0 0 60 30 true false (querylog_new true false) reply_state.
Definition reply_query : Message := set_sections [] [] [] (sample_response (bs "cdn") 300).
Definition reply_events : list Event :=
  [EvEnter reply_query; EvLaunch 0; EvAttempt 0 AtTimeout sample_draw;
   EvAttempt 0 (AtReply (set_id 99 (sample_response (bs "cdn") 300)) 5000000) sample_draw; EvReturn 0].
Definition reply_start : option (HandleResult * Engine) :=
  let! i := ingress_parse pipe_packet in handle sample_hash pipe_send (w_engine reply_world) (pipe_env 0) 7 i pipe_client_ip.
Definition reply_call : option (Message * Resolved) :=
  match sy_calls (run (system_new sample_pool) reply_events) !! 0 with Some (ClReturned q (Ok r)) => Some (q, r) | _ => None end.
Definition reply_resolved : result Resolved bytes := match reply_call with Some (_, r) => Ok r | None => Err [] end.
Definition reply_sent : option bytes :=
  match reply_start with
  | Some (HrUpstream p, g) => let! (resp, _) := resume sample_hash pipe_send g (pipe_env 1) p reply_resolved in response_into_wire resp
  | _ => None
  end.
Definition reply_asks : option (Pool * Message) :=
  match reply_start with Some (HrUpstream p, _) => Some (es_pool (pd_state p), pd_query p) | _ => None end.
Lemma reply_started : reply_asks = Some (sample_pool, reply_query).
Proof. vm_refl. Qed.
Lemma reply_returned : pool_returns sample_pool reply_query reply_resolved.
Proof.
  exists reply_events, 0. assert (H : fst <$> reply_call = Some reply_query) by vm_refl. unfold reply_resolved, reply_call in *.
  destruct (sy_calls _ !! 0) as [[| |q [r|]|]|]; try discriminate H. injection H as ->. by exists (Ok r).
Qed.
Local Abbreviation reply_lives := (lives sample_hash pipe_send pipe_installed).
Lemma reply_world_lives : reply_lives reply_world.
Proof. apply lv_start; [done|done|]. split; [exact pipe_loaded|by exists []]. Qed.
Lemma replies_carry_the_id_witness : ∃ out, reply_sent = Some out ∧ packet_id pipe_packet = Some 4660%Z ∧ packet_id out = Some 4660%Z.
Proof.
  assert (H : is_some reply_sent = true) by vm_refl. pose proof reply_started as Hs. unfold reply_sent, reply_asks in *.
  destruct reply_start as [[[resp t|p|p] g]|] eqn:Es; [discriminate H| |discriminate H..]. injection Hs as Hp Hq.
  destruct (resume sample_hash pipe_send g (pipe_env 1) p reply_resolved) as [[resp g2]|] eqn:Er; [|discriminate H]. cbn [mbind option_bind] in *.
  destruct (response_into_wire resp) as [out|] eqn:Eo; [|discriminate H]. exists out. split; [reflexivity|].
  unfold reply_start in Es. destruct (ingress_parse pipe_packet) as [i|] eqn:Ei; [|discriminate Es]. cbn [mbind option_bind] in Es.
  destruct (replies_carry_the_id sample_hash pipe_send pipe_installed reply_world (pipe_env 0) 7 pipe_packet i pipe_client_ip _ g
    reply_world_lives Ei Es) as (id & Hid & Hc).
  assert (E : packet_id pipe_packet = Some 4660%Z) by vm_refl. split; [exact E|]. rewrite E in Hid. injection Hid as <-.
  refine (proj1 (Hc (after_handle reply_world (HrUpstream p) g) (pipe_env 1) reply_resolved resp g2 _ _ Er) out Eo).
  - eapply lv_serve; [exact reply_world_lives|]. exact (st_query _ _ _ reply_world (pipe_env 0) 7 pipe_packet i pipe_client_ip _ _ Ei Es).
  - rewrite Hp, Hq. exact reply_returned.
Defined.

(** Why the snapshots must be the engine's own: a file may name any offset, also that of the
    id, which a hit then overwrites with the TTL. *)
Definition forged_wire : bytes := default [] (msg_to_vec (sample_response (bs "cdn") 300)).
Definition forged_snapshot : bytes :=
  SNAPSHOT_MAGIC ++ le_bytes 8 0 ++ le_bytes 4 1 ++ write_record [] (sample_key (bs "cdn")) 0 300 RC_NOERROR [] forged_wire [0%Z].
Definition forged_hit : option bytes :=
  let! (_, c) := import_snapshot sample_hash 0 0 0 (cache_new (Some 4%Z) 100 0 0 60) forged_snapshot in
  let! (hit, _) := cache_get sample_hash 0 c (sample_key (bs "cdn")) 9 in
  let! hit := hit in
  match ch_response hit with CrWire b _ _ => Some b | CrMessage _ => None end.
Lemma forged_offset_overwrites_id : (forged_hit ≫= packet_id) = Some 0%Z.
Proof. vm_refl. Qed.
