(* ===== verification/Mux.v ===== *)
(** * bulwark-upstream: the shared connection of the UDP and DNS-over-TLS transports
    ([plain.rs], [dot.rs] and [PendingState] of [transport.rs]).

    Queries on one connection are told apart by a 16-bit id from a counter.  Each exchange
    registers a waiter under its id, sends, and waits; the reader task hands every message to
    the waiter registered under its id.  Asynchronous code is cut at its suspension points:
    the events are what the runtime may interleave. *)
From Stdlib Require Import Ascii.
From S2P Require Import Prelude RustStr RustNet Rule Wire Dns DnsInstances Spec Framing.

Inductive MuxKind : Type := MuxUdp | MuxDot.
Definition closed_text (k : MuxKind) : bytes :=
  match k with MuxUdp => bs "UDP socket closed" | MuxDot => bs "DoT connection closed" end.
Definition mismatch_text (k : MuxKind) : bytes :=
  match k with MuxUdp => bs "UDP response does not match query" | MuxDot => bs "DoT response does not match query" end.

Section mux.
Context {DL : DnsLib} {DC : DnsCodec} (kind : MuxKind) (proto_text : bytes).

(** An exchange: waiting for its reply, with the reply in its channel, or over ([None] when
    its caller gave up). *)
Inductive WaitState : Type :=
| Waiting
| Delivered (m : Message)
| Ended (r : option (result Message UpstreamError)).
Record Waiter : Type := { w_query : Message; w_state : WaitState }.
(** The connection.  Exchange [k] is the [k]-th to draw from the counter; the pending map
    holds the sending half of its channel under its id. *)
Record Conn : Type := { cn_map : gmap Z nat; cn_dead : bool; cn_waiters : list Waiter; cn_sent : list bytes }.
Definition conn_new : Conn := {| cn_map := ∅; cn_dead := false; cn_waiters := []; cn_sent := [] |}.
(** [next_id.fetch_add(1)] on a 16-bit counter. *)
Definition wid (k : nat) : Z := wrap 16 (Z.of_nat k).
(** [buf[..2].copy_from_slice(&id.to_be_bytes())]. *)
Definition with_wire_id (id : Z) (buf : bytes) : bytes := be_bytes2 id ++ drop 2 buf.

Definition set_waiter (k : nat) (st : WaitState) (c : Conn) : Conn :=
  {| cn_map := cn_map c; cn_dead := cn_dead c;
     cn_waiters := alter (λ w, {| w_query := w_query w; w_state := st |}) k (cn_waiters c); cn_sent := cn_sent c |}.
Definition push_waiter (q : Message) (st : WaitState) (c : Conn) : Conn :=
  {| cn_map := cn_map c; cn_dead := cn_dead c; cn_waiters := cn_waiters c ++ [{| w_query := q; w_state := st |}];
     cn_sent := cn_sent c |}.
Definition with_map (m : gmap Z nat) (c : Conn) : Conn :=
  {| cn_map := m; cn_dead := cn_dead c; cn_waiters := cn_waiters c; cn_sent := cn_sent c |}.
(** [PendingGuard::drop] of exchange [k]. *)
Definition guard_drop (k : nat) (c : Conn) : Conn := with_map (delete (wid k) (cn_map c)) c.
Definition over (k : nat) (r : option (result Message UpstreamError)) (c : Conn) : Conn := guard_drop k (set_waiter k (Ended r) c).
(** The reader marks the connection dead and drops the waiters' senders. *)
Definition tear_down (c : Conn) : Conn := {| cn_map := ∅; cn_dead := true; cn_waiters := cn_waiters c; cn_sent := cn_sent c |}.

Inductive MuxEvent : Type :=
| MvStart (q : Message)
| MvSend (k : nat) (ok : result () UpstreamError)
| MvFinish (k : nat)
| MvCancel (k : nat)
| MvMessage (m : Message)
| MvIdle
| MvReadError.

(** [exchange] up to its registration. *)
Definition exchange_start (q : Message) (c : Conn) : Conn :=
  let k := length (cn_waiters c) in
  match encode proto_text q with
  | Err e => push_waiter q (Ended (Some (Err e))) c
  | Ok _ =>
      if cn_dead c then push_waiter q (Ended (Some (Err (UeIo (closed_text kind))))) c
      else push_waiter q Waiting (with_map (<[wid k := k]> (cn_map c)) c)
  end.
(** The write: a failure ends the exchange. *)
Definition exchange_send (k : nat) (ok : result () UpstreamError) (c : Conn) : Conn :=
  match cn_waiters c !! k with
  | None | Some {| w_state := Ended _ |} => c
  | Some {| w_query := q |} =>
      match ok with
      | Err e => over k (Some (Err e)) c
      | Ok _ => {| cn_map := cn_map c; cn_dead := cn_dead c; cn_waiters := cn_waiters c;
                   cn_sent := cn_sent c ++ [with_wire_id (wid k) (default [] (msg_to_vec q))] |}
      end
  end.
(** The result of an exchange whose reply arrived. *)
Definition reply_result (q m : Message) : result Message UpstreamError :=
  let resp := set_id (msg_id q) m in
  if matches_query q resp then Ok resp else Err (UeProto (mismatch_text kind)).
(** [rx.await]: it yields the reply, an error once the sender is dropped, or keeps waiting. *)
Definition exchange_finish (k : nat) (c : Conn) : Conn :=
  match cn_waiters c !! k with
  | Some {| w_query := q; w_state := Delivered m |} => over k (Some (reply_result q m)) c
  | Some {| w_state := Waiting |} =>
      if bool_decide (cn_map c !! wid k = Some k) then c else over k (Some (Err (UeIo (closed_text kind)))) c
  | _ => c
  end.
(** The caller drops the exchange, for instance at its timeout. *)
Definition exchange_cancel (k : nat) (c : Conn) : Conn :=
  match cn_waiters c !! k with
  | None | Some {| w_state := Ended _ |} => c
  | Some _ => over k None c
  end.
(** The reader's step on a decoded message. *)
Definition reader_message (m : Message) (c : Conn) : Conn :=
  match cn_map c !! msg_id m with
  | None => c
  | Some k => set_waiter k (Delivered m) (with_map (delete (msg_id m) (cn_map c)) c)
  end.
(** The reader's idle timeout: the UDP reader goes on while exchanges are pending. *)
Definition reader_idle (c : Conn) : Conn :=
  match kind with
  | MuxUdp => if bool_decide (cn_map c = ∅) then tear_down c else c
  | MuxDot => tear_down c
  end.
Definition mux_step (c : Conn) (e : MuxEvent) : Conn :=
  match e with
  | MvStart q => exchange_start q c
  | MvSend k ok => exchange_send k ok c
  | MvFinish k => exchange_finish k c
  | MvCancel k => exchange_cancel k c
  | MvMessage m => if cn_dead c then c else reader_message m c
  | MvIdle => if cn_dead c then c else reader_idle c
  | MvReadError => tear_down c
  end.

(** ** Properties *)

Definition live (w : Waiter) : Prop := match w_state w with Ended _ => False | _ => True end.
(** The id the next exchange draws is not that of an exchange still going on: there are
    fewer than [2^16] of them and none outlives [2^16] later ones. *)
Definition id_free (c : Conn) : Prop :=
  ∀ k w, cn_waiters c !! k = Some w → live w → wid k ≠ wid (length (cn_waiters c)).
(** States reached from a new connection while ids are free when drawn. *)
Inductive mux_reachable : Conn → Prop :=
| mr_new : mux_reachable conn_new
| mr_step c e : mux_reachable c → (∀ q, e = MvStart q → id_free c) → mux_reachable (mux_step c e).

Record mux_inv (c : Conn) : Prop := {
  mi_map id k : cn_map c !! id = Some k → id = wid k ∧ ∃ q, cn_waiters c !! k = Some {| w_query := q; w_state := Waiting |};
  mi_registered k q : cn_dead c = false → cn_waiters c !! k = Some {| w_query := q; w_state := Waiting |} → cn_map c !! wid k = Some k;
  mi_unique j k v w : cn_waiters c !! j = Some v → cn_waiters c !! k = Some w → live v → live w → wid j = wid k → j = k;
  mi_dead : cn_dead c = true → cn_map c = ∅;
  mi_ok k q r : cn_waiters c !! k = Some {| w_query := q; w_state := Ended (Some (Ok r)) |} → matches_query q r = true ∧ msg_id r = msg_id q;
}.

(** A step that only ends exchange [k]. *)
Lemma over_waiters k r c j : cn_waiters (over k r c) !! j =
  if decide (j = k) then (λ w, {| w_query := w_query w; w_state := Ended r |}) <$> (cn_waiters c !! j) else cn_waiters c !! j.
Proof. cbn [over guard_drop with_map set_waiter cn_waiters]. rewrite list_lookup_alter. repeat case_decide; by subst. Qed.
Lemma over_inv k r c w : mux_inv c → cn_waiters c !! k = Some w → live w →
  (∀ m, r = Some (Ok m) → matches_query (w_query w) m = true ∧ msg_id m = msg_id (w_query w)) → mux_inv (over k r c).
Proof.
  intros [M1 M2 M3 M4 M5] Hk Hl Hr. constructor.
  - intros id j. cbn [over guard_drop with_map cn_map set_waiter]. rewrite lookup_delete_Some. intros [Hne Hj].
    destruct (M1 _ _ Hj) as [-> (q & Hq)]. split; [done|]. exists q. rewrite over_waiters, decide_False; [done|]. by intros ->.
  - intros j q Hd. rewrite over_waiters. case_decide as Hjk; [by destruct (cn_waiters c !! j)|]. intros Hj.
    cbn [over guard_drop with_map cn_map set_waiter]. rewrite lookup_delete_ne; [by eapply M2|].
    intros E. apply Hjk. by eapply (M3 j k).
  - intros i j v u. rewrite !over_waiters. repeat case_decide; subst; try done; eauto;
      rewrite Hk; simpl; intros [= <-] ?; try done; intros ?; done.
  - intros Hd. cbn [over guard_drop with_map cn_map set_waiter]. rewrite (M4 Hd). apply delete_empty.
  - intros j q m. rewrite over_waiters. case_decide as Hjk; [|apply M5]. subst j. rewrite Hk. simpl. intros [= <- ->]. by apply Hr.
Qed.

(** A dead exchange added at the end. *)
Lemma push_waiters q st c k : cn_waiters (push_waiter q st c) !! k =
  if decide (k = length (cn_waiters c)) then Some {| w_query := q; w_state := st |} else cn_waiters c !! k.
Proof.
  cbn [push_waiter cn_waiters]. case_decide as H; [subst; by rewrite list_lookup_middle|].
  destruct (decide (k < length (cn_waiters c))) as [Hk|Hk]; [by rewrite lookup_app_l|].
  rewrite !lookup_ge_None_2; [done|lia|]. rewrite length_app. simpl. lia.
Qed.
Lemma push_ended_inv q r c : (∀ m, r ≠ Some (Ok m)) → mux_inv c → mux_inv (push_waiter q (Ended r) c).
Proof.
  intros Hr [M1 M2 M3 M4 M5]. constructor.
  - intros id k Hk. destruct (M1 _ _ Hk) as [-> (q' & Hq)]. split; [done|]. exists q'. rewrite push_waiters, decide_False; [done|].
    intros ->. by rewrite lookup_ge_None_2 in Hq.
  - intros k q' Hd. rewrite push_waiters. case_decide; [done|]. by apply M2.
  - intros j k v w. rewrite !push_waiters. repeat case_decide; subst; try done; eauto; intros H1 H2 L1 L2; simplify_eq; done.
  - exact M4.
  - intros k q' m. rewrite push_waiters. case_decide; [|apply M5]. intros [= _ ->]. by destruct (Hr m).
Qed.
Lemma start_inv q c : mux_inv c → id_free c → mux_inv (exchange_start q c).
Proof.
  intros Hc Hf. unfold exchange_start. destruct (encode proto_text q); [|by apply push_ended_inv].
  destruct (cn_dead c) eqn:Hd; [by apply push_ended_inv|]. destruct Hc as [M1 M2 M3 M4 M5]. set (n := length (cn_waiters c)).
  assert (Hn : ∀ k w, cn_waiters c !! k = Some w → k ≠ n) by (intros k w Hk ->; by rewrite lookup_ge_None_2 in Hk).
  constructor.
  - intros id k. cbn [push_waiter with_map cn_map]. rewrite lookup_insert_Some. intros [[<- <-]|[Hne Hk]].
    + split; [done|]. exists q. by rewrite push_waiters, decide_True.
    + destruct (M1 _ _ Hk) as [-> (q' & Hq)]. split; [done|]. exists q'. rewrite push_waiters, decide_False; [done|by eapply Hn].
  - intros k q' _. rewrite push_waiters. cbn [push_waiter with_map cn_map cn_waiters]. case_decide as Hk; [subst; by rewrite lookup_insert_eq|].
    intros Hw. rewrite lookup_insert_ne; [by eapply M2|]. intros E. by apply (Hf k _ Hw I).
  - intros j k v w. rewrite !push_waiters. cbn [with_map cn_waiters].
    repeat case_decide; subst; try done; intros H1 H2 L1 L2 E.
    + by destruct (Hf _ _ H2 L2).
    + by destruct (Hf _ _ H1 L1).
    + by eapply M3.
  - cbn. congruence.
  - intros k q' m. rewrite push_waiters. cbn [with_map cn_waiters]. case_decide; [done|apply M5].
Qed.
Lemma tear_down_inv c : mux_inv c → mux_inv (tear_down c).
Proof. intros [M1 M2 M3 M4 M5]. by constructor. Qed.
Lemma message_inv m c : mux_inv c → cn_dead c = false → mux_inv (reader_message m c).
Proof.
  intros [M1 M2 M3 M4 M5] Hd. unfold reader_message. destruct (cn_map c !! msg_id m) as [k|] eqn:Ek; [|done].
  destruct (M1 _ _ Ek) as [Eid (q & Hq)].
  assert (Hw : ∀ j, cn_waiters (set_waiter k (Delivered m) (with_map (delete (msg_id m) (cn_map c)) c)) !! j
    = if decide (j = k) then Some {| w_query := q; w_state := Delivered m |} else cn_waiters c !! j).
  { intros j. cbn [set_waiter with_map cn_waiters]. rewrite list_lookup_alter. repeat case_decide; subst; try done. by rewrite Hq. }
  constructor.
  - intros id j. cbn [set_waiter with_map cn_map]. rewrite lookup_delete_Some. intros [Hne Hj].
    destruct (M1 _ _ Hj) as [-> (q' & Hq')]. split; [done|]. exists q'. rewrite Hw, decide_False; [done|]. intros ->. by rewrite Eid in Hne.
  - intros j q' _. rewrite Hw. case_decide as Hjk; [done|]. intros Hj. cbn [set_waiter with_map cn_map].
    rewrite lookup_delete_ne; [by eapply M2|]. rewrite Eid. intros E. apply Hjk. symmetry. by eapply (M3 k j).
  - intros i j v u. rewrite !Hw. repeat case_decide; subst; try done; intros H1 H2 L1 L2 E; simplify_eq; try done.
    + by eapply (M3 k j).
    + by eapply (M3 i k).
    + by eapply M3.
  - cbn. congruence.
  - intros j q' r. rewrite Hw. case_decide; [done|apply M5].
Qed.
Lemma reply_result_ok q m r : reply_result q m = Ok r → matches_query q r = true ∧ msg_id r = msg_id q.
Proof. unfold reply_result. destruct (matches_query _ _) eqn:E; [|done]. by intros [= <-]. Qed.
Lemma step_inv c e : mux_inv c → (∀ q, e = MvStart q → id_free c) → mux_inv (mux_step c e).
Proof.
  intros Hc Hf. destruct e as [q|k ok|k|k|m| |]; simpl.
  - by apply start_inv; [|apply (Hf q)].
  - unfold exchange_send. destruct (cn_waiters c !! k) as [[q [|m|r]]|] eqn:Ek; try done; destruct ok;
      [destruct Hc; by constructor|by eapply over_inv|destruct Hc; by constructor|by eapply over_inv].
  - unfold exchange_finish. destruct (cn_waiters c !! k) as [[q [|m|r]]|] eqn:Ek; try done.
    + case_bool_decide; [done|]. by eapply over_inv.
    + eapply over_inv; [done..|]. intros r [= H]. by eapply reply_result_ok.
  - unfold exchange_cancel. destruct (cn_waiters c !! k) as [[q [|m|r]]|] eqn:Ek; try done; by eapply over_inv.
  - destruct (cn_dead c) eqn:Hd; [done|]. by apply message_inv.
  - destruct (cn_dead c) eqn:Hd; [done|]. unfold reader_idle. destruct kind; [case_bool_decide; [|done]|]; by apply tear_down_inv.
  - by apply tear_down_inv.
Qed.
Lemma reachable_inv c : mux_reachable c → mux_inv c.
Proof.
  induction 1 as [|c e _ IH Hf]; [|by apply step_inv]. constructor; simpl; try done.
Qed.

(** C15: the shared connection delivers.  While ids are free when drawn: a message with the id
    of a waiting exchange reaches that exchange and no other, which then succeeds exactly if
    the message answers its query, with the caller's own id restored; when the connection is
    torn down, every waiting exchange ends with an error instead of hanging; and no exchange
    ever succeeds with a message that does not answer its query. *)
Theorem mux_delivers c k q : mux_reachable c → cn_waiters c !! k = Some {| w_query := q; w_state := Waiting |} →
  (∀ m, cn_dead c = false → msg_id m = wid k →
     let c' := mux_step (mux_step c (MvMessage m)) (MvFinish k) in
     cn_waiters c' !! k = Some {| w_query := q; w_state := Ended (Some (reply_result q m)) |}
     ∧ ∀ j, j ≠ k → cn_waiters c' !! j = cn_waiters c !! j)
  ∧ cn_waiters (mux_step (tear_down c) (MvFinish k)) !! k
    = Some {| w_query := q; w_state := Ended (Some (Err (UeIo (closed_text kind)))) |}
  ∧ (∀ j q' r, cn_waiters c !! j = Some {| w_query := q'; w_state := Ended (Some (Ok r)) |} →
       matches_query q' r = true ∧ msg_id r = msg_id q').
Proof.
  intros Hc%reachable_inv Hk. split_and!.
  - intros m Hd Hm c'. unfold c'. cbn [mux_step]. rewrite Hd. unfold reader_message.
    rewrite Hm, (mi_registered _ Hc k q Hd Hk). set (c1 := set_waiter k (Delivered m) _).
    assert (H1 : ∀ j, cn_waiters c1 !! j = if decide (j = k) then Some {| w_query := q; w_state := Delivered m |} else cn_waiters c !! j).
    { intros j. unfold c1. cbn [set_waiter with_map cn_waiters]. rewrite list_lookup_alter. repeat case_decide; subst; try done. by rewrite Hk. }
    unfold exchange_finish. rewrite H1, decide_True by done. split.
    + by rewrite over_waiters, decide_True, H1, decide_True.
    + intros j Hj. by rewrite over_waiters, decide_False, H1, decide_False.
  - cbn [mux_step]. unfold exchange_finish. cbn [tear_down cn_waiters cn_map]. rewrite Hk, bool_decide_false by (by rewrite lookup_empty).
    rewrite over_waiters, decide_True by done. cbn [tear_down cn_waiters]. by rewrite Hk.
  - intros j q' r. apply (mi_ok _ Hc).
Qed.
End mux.

(** ** Witness *)

Definition mux_query : Message := sample_response (bs "ads.example") 300.
Definition mux_waiting : Conn := mux_step (DL:=small_dns) (DC:=small_codec) MuxUdp [] conn_new (MvStart mux_query).
Lemma mux_delivers_witness :
  cn_waiters mux_waiting !! 0 = Some {| w_query := mux_query; w_state := Waiting |} ∧
  cn_waiters (mux_step (DL:=small_dns) (DC:=small_codec) MuxUdp [] (mux_step (DL:=small_dns) (DC:=small_codec) MuxUdp [] mux_waiting (MvMessage (set_id 0 mux_query))) (MvFinish 0)) !! 0
  = Some {| w_query := mux_query; w_state := Ended (Some (Ok mux_query)) |}.
Proof.
  assert (Hw : cn_waiters mux_waiting !! 0 = Some {| w_query := mux_query; w_state := Waiting |}) by vm_refl.
  split; [exact Hw|].
  assert (Hr : mux_reachable (DL:=small_dns) (DC:=small_codec) MuxUdp [] mux_waiting).
  { apply mr_step; [apply mr_new|]. intros q _ k w Hk. discriminate Hk. }
  destruct (mux_delivers (DL:=small_dns) (DC:=small_codec) MuxUdp [] mux_waiting 0 mux_query Hr Hw) as [H _].
  destruct (H (set_id 0 mux_query) eq_refl eq_refl) as [E _]. rewrite E. vm_refl.
Defined.
