(* ===== verification/TlsConf.v ===== *)
(** * upstream: the client configurations of TLS ([tlsconf.rs]).

    Two configurations are made on first use and kept for the life of the process, over the
    process-wide cryptography provider; tests can register further trust anchors.  The globals
    are the state.  The library is a parameter: how it reads a certificate into an anchor, the
    anchors it ships, and the protocol versions of a configuration that names none. *)
From S2P Require Import Prelude.

Inductive Provider : Type := Ring | OtherProvider.
Inductive TlsVersion : Type := Tls12 | Tls13.

Section tls.
Context {cert anchor : Type} (TLS_SERVER_ROOTS : list anchor) (read_anchor : cert → option anchor) (DEFAULT_VERSIONS : list TlsVersion).
(** The feature [test-trust-roots]. *)
Context (test_trust_roots : bool).

Record TlsClientConfig : Type := { tc_versions : list TlsVersion; tc_roots : list anchor; tc_alpn : list bytes }.
(** The provider of the process and the statics [INSTALLED], [EXTRA] and the two [CFG]. *)
Record Globals : Type := {
  gl_provider : option Provider; gl_installed : bool; gl_extra : list cert; gl_dot : option TlsClientConfig; gl_doq : option TlsClientConfig;
}.
Definition globals_start : Globals := {| gl_provider := None; gl_installed := false; gl_extra := []; gl_dot := None; gl_doq := None |}.
Definition set_provider (p : option Provider) (once : bool) (s : Globals) : Globals :=
  {| gl_provider := p; gl_installed := once; gl_extra := gl_extra s; gl_dot := gl_dot s; gl_doq := gl_doq s |}.
Definition set_configs (dot doq : option TlsClientConfig) (s : Globals) : Globals :=
  {| gl_provider := gl_provider s; gl_installed := gl_installed s; gl_extra := gl_extra s; gl_dot := dot; gl_doq := doq |}.

(** [install_default] fails when the process has a provider; [ensure_provider] ignores that. *)
Definition install_default (p : Provider) (s : Globals) : Globals :=
  match gl_provider s with Some _ => s | None => set_provider (Some p) (gl_installed s) s end.
Definition ensure_provider (s : Globals) : Globals :=
  if gl_installed s then s else let s := install_default Ring s in set_provider (gl_provider s) true s.
Definition add_trust_root (der : cert) (s : Globals) : Globals :=
  {| gl_provider := gl_provider s; gl_installed := gl_installed s; gl_extra := gl_extra s ++ [der]; gl_dot := gl_dot s; gl_doq := gl_doq s |}.
Definition extra_roots (s : Globals) : list cert := gl_extra s.
(** A certificate the store refuses is passed over. *)
Definition root_store (s : Globals) : list anchor :=
  TLS_SERVER_ROOTS ++ (if test_trust_roots then omap read_anchor (extra_roots s) else []).
(** [ClientConfig::builder]; [None] is its panic without a provider. *)
Definition builder (roots : list anchor) (alpn : list bytes) (s : Globals) : option TlsClientConfig :=
  match gl_provider s with
  | None => None
  | Some _ => Some {| tc_versions := DEFAULT_VERSIONS; tc_roots := roots; tc_alpn := alpn |}
  end.
Definition dot_config (s : Globals) : option (TlsClientConfig * Globals) :=
  match gl_dot s with
  | Some c => Some (c, s)
  | None => let s := ensure_provider s in
            let! c := builder (root_store s) [] s in Some (c, set_configs (Some c) (gl_doq s) s)
  end.
Definition doq_config (s : Globals) : option (TlsClientConfig * Globals) :=
  match gl_doq s with
  | Some c => Some (c, s)
  | None => let s := ensure_provider s in
            let! c := builder (root_store s) [bs "doq"] s in Some (c, set_configs (gl_dot s) (Some c) s)
  end.

(** The calls of a process; another crate may install a provider of its own. *)
Inductive TlsEvent : Type := TvDot | TvDoq | TvAddRoot (der : cert) | TvInstall (p : Provider).
Definition tls_step (s : Globals) (e : TlsEvent) : option (option (bool * TlsClientConfig) * Globals) :=
  match e with
  | TvDot => let! (c, s) := dot_config s in Some (Some (false, c), s)
  | TvDoq => let! (c, s) := doq_config s in Some (Some (true, c), s)
  | TvAddRoot der => Some (None, add_trust_root der s)
  | TvInstall p => Some (None, install_default p s)
  end.
(** The configurations handed out, each with whether it is that of QUIC. *)
Fixpoint tls_run (s : Globals) (es : list TlsEvent) : option (list (bool * TlsClientConfig) * Globals) :=
  match es with
  | [] => Some ([], s)
  | e :: es => let! (o, s) := tls_step s e in
               let! (os, s) := tls_run s es in Some (option_list o ++ os, s)
  end.

(** ** Properties *)

(** The certificates registered before the first call for a configuration. *)
Fixpoint registered (quic : bool) (es : list TlsEvent) : list cert :=
  match es with
  | [] => []
  | TvDot :: es => if quic then registered quic es else []
  | TvDoq :: es => if quic then [] else registered quic es
  | TvAddRoot der :: es => der :: registered quic es
  | TvInstall _ :: es => registered quic es
  end.
Definition config_of (quic : bool) (extra : list cert) : TlsClientConfig :=
  {| tc_versions := DEFAULT_VERSIONS;
     tc_roots := TLS_SERVER_ROOTS ++ (if test_trust_roots then omap read_anchor extra else []);
     tc_alpn := if quic then [bs "doq"] else [] |}.
Definition kept (quic : bool) (s : Globals) : option TlsClientConfig := if quic then gl_doq s else gl_dot s.
(** What the calls for a configuration return from a state on. *)
Definition expected (quic : bool) (s : Globals) (es : list TlsEvent) : TlsClientConfig :=
  default (config_of quic (gl_extra s ++ registered quic es)) (kept quic s).
Lemma ensure_provider_spec s : let s' := ensure_provider s in
  (gl_installed s = true → is_Some (gl_provider s)) → is_Some (gl_provider s') ∧ gl_installed s' = true
  ∧ gl_extra s' = gl_extra s ∧ gl_dot s' = gl_dot s ∧ gl_doq s' = gl_doq s.
Proof. unfold ensure_provider, install_default. destruct s as [p [] ex d q]; simpl; [naive_solver|]. destruct p; naive_solver. Qed.
Lemma tls_step_spec s e : (gl_installed s = true → is_Some (gl_provider s)) →
  ∃ o s', tls_step s e = Some (o, s') ∧ (gl_installed s' = true → is_Some (gl_provider s'))
    ∧ (∀ quic es, expected quic s' es = expected quic s (e :: es))
    ∧ (∀ quic c, o = Some (quic, c) → ∀ es, c = expected quic s (e :: es)).
Proof.
  intros Hp. pose proof (ensure_provider_spec s Hp) as ([p Hq] & Hi & He & Hd & Hk). unfold expected, kept.
  destruct e as [| |der|q]; cbn [tls_step].
  - unfold dot_config. destruct (gl_dot s) as [c|] eqn:E; simpl; [eexists _, _; split_and!; [done|done|by intros [] es; rewrite ?E|naive_solver]|].
    unfold builder. rewrite Hq. simpl. eexists _, _. split_and!; [done|simpl; by rewrite Hq| |].
    + intros [] es; simpl; rewrite ?He, ?Hk; [done|]. unfold config_of, root_store, extra_roots. by rewrite He, app_nil_r.
    + intros quic c [= <- <-] es. unfold config_of, root_store, extra_roots. simpl. by rewrite He, app_nil_r.
  - unfold doq_config. destruct (gl_doq s) as [c|] eqn:E; simpl; [eexists _, _; split_and!; [done|done|by intros [] es; rewrite ?E|naive_solver]|].
    unfold builder. rewrite Hq. simpl. eexists _, _. split_and!; [done|simpl; by rewrite Hq| |].
    + intros [] es; simpl; rewrite ?He, ?Hd; [|done]. unfold config_of, root_store, extra_roots. by rewrite He, app_nil_r.
    + intros quic c [= <- <-] es. unfold config_of, root_store, extra_roots. simpl. by rewrite He, app_nil_r.
  - eexists _, _. split_and!; [done|done| |done]. intros [] es; simpl; by rewrite <- app_assoc.
  - eexists _, _. unfold install_default. split_and!; [done| | |done].
    + destruct (gl_provider s) eqn:E; simpl; rewrite ?E; eauto.
    + intros [] es; by destruct (gl_provider s).
Qed.
(** The configurations are fixed on first use.  Whatever is called in whatever order, no call
    panics for want of a provider, and every call for the configuration of DNS over TLS, or of
    QUIC, returns the same one: that with the shipped anchors and those registered before the
    first of these calls, with the token [doq] for QUIC only. *)
Theorem tls_configs_are_fixed es : ∃ os s', tls_run globals_start es = Some (os, s')
  ∧ ∀ quic c, (quic, c) ∈ os → c = config_of quic (registered quic es).
Proof.
  enough (∀ s, (gl_installed s = true → is_Some (gl_provider s)) → ∃ os s', tls_run s es = Some (os, s')
    ∧ ∀ quic c, (quic, c) ∈ os → c = expected quic s es) as H.
  { destruct (H globals_start) as (os & s' & E & Hos); [done|]. exists os, s'. split; [done|]. intros [] c Hc; by apply Hos in Hc. }
  induction es as [|e es IH]; intros s Hs; [exists [], s; split; [done|]; intros ? ? H; by apply not_elem_of_nil in H|].
  destruct (tls_step_spec s e Hs) as (o & s1 & E & Hs1 & Hexp & Ho). destruct (IH s1 Hs1) as (os & s' & E' & Hos).
  cbn [tls_run]. rewrite E. cbn [mbind option_bind]. rewrite E'. eexists _, _. split; [done|]. intros quic c Hc.
  apply elem_of_app in Hc as [Hc|Hc]; [|rewrite <- Hexp; by apply Hos].
  destruct o as [[q c']|]; [|by apply not_elem_of_nil in Hc]. apply list_elem_of_singleton in Hc as [= -> ->]. by apply Ho.
Qed.
(** The configuration of QUIC offers what the library offers by default. *)
Lemma doq_offers_default_versions s c s' : gl_doq s = None → doq_config s = Some (c, s') → tc_versions c = DEFAULT_VERSIONS.
Proof.
  unfold doq_config. intros ->. unfold builder. destruct (gl_provider _); [|done]. by intros [= <- _].
Qed.
End tls.
