(* ===== verification/Transports.v ===== *)
(** * bulwark-upstream: the transports' query logic ([plain.rs], [dot.rs], [doh.rs],
    [doq.rs]) and the bootstrap resolver ([bootstrap.rs]).

    Sockets, TLS, HTTP and QUIC are external: what they yield (a connection, an exchange, a
    response head, body chunks) is an argument, in the order the code asks for it. *)
From Stdlib Require Import Ascii.
From S2P Require Import Prelude RustStr RustNet Rule Wire Dns DnsInstances Spec Framing Mux.

(** ** Connecting *)

(** The loops of [DotTransport::connect] and [DoqTransport::connection]: the first address
    that connects, else the last error. *)
Fixpoint dial_first {C} (dial : ip_addr → result C UpstreamError) (last : UpstreamError) (ips : list ip_addr) : result C UpstreamError :=
  match ips with
  | [] => Err last
  | ip :: ips => match dial ip with Ok c => Ok c | Err e => dial_first dial e ips end
  end.
Definition dot_connect {C} (host : Host) (ips : result (list ip_addr) UpstreamError) (dial : ip_addr → result C UpstreamError)
  : result C UpstreamError :=
  let? ips := ips in dial_first dial (UeBootstrap (show_host host)) ips.

(** The cached connection of a transport: [connection] reuses it while it is live, else dials
    and stores the new one; [invalidate] forgets it if it is the one that failed. *)
Record ConnSlot : Type := { sl_conn : option nat; sl_next : nat }.
Definition slot_connection (is_dead : nat → bool) (dial : result () UpstreamError) (s : ConnSlot) : result nat UpstreamError * ConnSlot :=
  let fresh := match dial with
               | Err e => (Err e, s)
               | Ok _ => (Ok (sl_next s), {| sl_conn := Some (sl_next s); sl_next := S (sl_next s) |})
               end in
  match sl_conn s with
  | Some c => if is_dead c then fresh else (Ok c, s)
  | None => fresh
  end.
Definition slot_invalidate (dead : nat) (s : ConnSlot) : ConnSlot :=
  if bool_decide (sl_conn s = Some dead) then {| sl_conn := None; sl_next := sl_next s |} else s.

(** [query] of the UDP and DNS-over-TLS transports: one retry on a fresh connection.
    [exchange n c] is the outcome of the [n]-th exchange, on connection [c]. *)
Definition query_with_retry {DL : DnsLib} (is_dead : nat → nat → bool) (dial : nat → result () UpstreamError)
    (exchange : nat → nat → result Message UpstreamError) (s : ConnSlot) : result Message UpstreamError * ConnSlot :=
  match slot_connection (is_dead 0) (dial 0) s with
  | (Err e, s) => (Err e, s)
  | (Ok c, s) =>
      match exchange 0 c with
      | Ok m => (Ok m, s)
      | Err _ =>
          let s := slot_invalidate c s in
          match slot_connection (is_dead 1) (dial 1) s with
          | (Err e, s) => (Err e, s)
          | (Ok c, s) => (exchange 1 c, s)
          end
      end
  end.

Section transports.
Context {DL : DnsLib} {DC : DnsCodec} (io_text proto_text : bytes).

(** [TcpTransport::query_once] after the connect: frames that do not answer the query are
    skipped. *)
Fixpoint tcp_await (fuel : nat) (query : Message) (stream : bytes) : result Message UpstreamError :=
  match fuel with
  | 0 => Err (UeIo io_text)
  | S fuel =>
      let? (m, rest) := read_tcp_message io_text proto_text stream in
      if matches_query query m then Ok m else tcp_await fuel query rest
  end.
Definition tcp_query_once (connected : result () UpstreamError) (query : Message) (stream : bytes) : result Message UpstreamError :=
  let? _ := connected in
  let? _ := write_tcp_message proto_text query in
  tcp_await (S (length stream)) query stream.
(** [UdpTransport::query]: a truncated answer is asked again over TCP. *)
Definition udp_query (udp : result Message UpstreamError) (tcp : result Message UpstreamError) : result Message UpstreamError :=
  let? m := udp in
  if msg_truncation m then tcp else Ok m.

(** ** DNS over HTTPS *)

Definition MAX_DOH_BODY : nat := Z.to_nat (64 * 1024).
Definition DOH_PIN_TTL : Z := 300 * 1000000000.
Definition DEFAULT_ALT_SVC_MA : Z := 86400.

(** [AltSvcH3]; durations in seconds. *)
Inductive AltSvcH3 : Type := AsFound (ma : Z) | AsClear | AsAbsent.
Definition first_ma (params : list bytes) : option bytes :=
  head (omap (strip_prefix (bs "ma=")) params).
Fixpoint alt_svc_entries (entries : list bytes) : AltSvcH3 :=
  match entries with
  | [] => AsAbsent
  | entry :: entries =>
      match trim <$> split_byte ";"%char entry with
      | [] => alt_svc_entries entries
      | proto :: params =>
          let id := trim (hd [] (split_byte "="%char proto)) in
          if bool_decide (id = bs "h3") || starts_with (bs "h3-") id then
            AsFound (default DEFAULT_ALT_SVC_MA (first_ma params ≫= λ s, parse_uint 64 (trim s)))
          else alt_svc_entries entries
      end
  end.
Definition parse_alt_svc_h3 (value : bytes) : AltSvcH3 :=
  let value := trim value in
  if eq_ignore_ascii_case value (bs "clear") then AsClear else alt_svc_entries (split_byte ","%char value).

(** [H3Mode]; instants are nanoseconds on the monotonic clock, whose seconds are a signed
    64-bit integer: an addition past it panics. *)
Inductive H3Mode : Type := H3Forced | H3Auto (until : option Z).
Definition NANOSECONDS : Z := 1000000000.
Definition instant_add (now secs : Z) : option Z :=
  let t := (now + secs * NANOSECONDS)%Z in
  if (t / NANOSECONDS <? 2 ^ 63)%Z then Some t else None.
Definition h3_fresh (now : Z) (h : H3Mode) : bool :=
  match h with H3Auto (Some t) => (now <? t)%Z | _ => false end.
Definition learn_alt_svc (now : Z) (d : AltSvcH3) (h : H3Mode) : option H3Mode :=
  match h with
  | H3Forced => Some h
  | H3Auto until =>
      match d with
      | AsFound ma => let! t := instant_add now ma in Some (H3Auto (Some t))
      | AsClear => Some (H3Auto None)
      | AsAbsent => Some h
      end
  end.

(** A response as the HTTP client yields it: its status, its Alt-Svc header as text, its
    declared length and its chunks, the last of which may be an error. *)
Record HttpResponse : Type := {
  hr_success : bool; hr_status : bytes; hr_alt_svc : option bytes; hr_content_length : option Z;
  hr_chunks : list bytes; hr_error : option bytes;
}.
(** The loop over the chunks. *)
Fixpoint doh_body (body : bytes) (chunks : list bytes) (error : option bytes) : result bytes UpstreamError :=
  match chunks with
  | [] => match error with Some e => Err (UeHttp e) | None => Ok body end
  | chunk :: chunks =>
      if MAX_DOH_BODY <? length body + length chunk then Err (UeHttp (bs "DoH response exceeded size cap"))
      else doh_body (body ++ chunk) chunks error
  end.
(** [exchange]; the outer [None] is the panic of [learn_alt_svc]. *)
Definition doh_exchange (now : Z) (sent : result HttpResponse UpstreamError) (expect : Message) (learn : bool) (h : H3Mode)
  : option (result Message UpstreamError * H3Mode) :=
  match sent with
  | Err e => Some (Err e, h)
  | Ok resp =>
      if negb (hr_success resp) then Some (Err (UeHttp (bs "status " ++ hr_status resp)), h)
      else
        let! h := match (if learn then hr_alt_svc resp else None) with
                  | Some v => learn_alt_svc now (parse_alt_svc_h3 v) h
                  | None => Some h
                  end in
        Some (if match hr_content_length resp with Some n => (Z.of_nat MAX_DOH_BODY <? n)%Z | None => false end then
                Err (UeHttp (bs "DoH response too large"))
              else
                let? body := doh_body [] (hr_chunks resp) (hr_error resp) in
                let? m := decode proto_text body in
                let m := set_id (msg_id expect) m in
                if matches_query expect m then Ok m else Err (UeHttp (bs "DoH response does not match query")), h)
  end.
(** [query_inner]; [client_h3] and [client_h12] are the clients' construction, [send_h3] and
    [send_h12] what posting a body yields.  The body is sent with id 0. *)
Definition doh_query (now : Z) (client_h3 client_h12 : result () UpstreamError) (send_h3 send_h12 : bytes → result HttpResponse UpstreamError)
    (query : Message) (h : H3Mode) : option (result Message UpstreamError * H3Mode) :=
  match encode proto_text query with
  | Err e => Some (Err e, h)
  | Ok buf =>
      let body := with_wire_id 0 buf in
      match h with
      | H3Forced =>
          match client_h3 with Err e => Some (Err e, h) | Ok _ => doh_exchange now (send_h3 body) query false h end
      | H3Auto _ =>
          let h12 h := match client_h12 with Err e => Some (Err e, h) | Ok _ => doh_exchange now (send_h12 body) query true h end in
          if h3_fresh now h then
            match client_h3 with
            | Err e => Some (Err e, h)
            | Ok _ =>
                let! (r, h) := doh_exchange now (send_h3 body) query false h in
                match r with
                | Ok m => Some (Ok m, h)
                | Err _ => let! h := learn_alt_svc now AsClear h in h12 h
                end
            end
          else h12 h
      end
  end.

(** ** DNS over QUIC *)

(** [query_inner]: [exchange] is what a new stream yields for the bytes written to it. *)
Definition doq_query (connected : result () UpstreamError) (exchange : bytes → result bytes UpstreamError) (query : Message) : result Message UpstreamError :=
  let? body := encode proto_text query in
  if (U16_MAX <? Z.of_nat (length body))%Z then Err (UeProto (bs "message too large"))
  else
    let? _ := connected in
    let? data := exchange (frame (with_wire_id 0 body)) in
    if length data <? 2 then Err (UeProto (bs "short DoQ response"))
    else
      let? m := decode proto_text (drop 2 data) in
      let m := set_id (msg_id query) m in
      if matches_query query m then Ok m else Err (UeProto (bs "DoQ response does not match query")).

(** ** Bootstrap *)

Definition CACHE_TTL : Z := 300 * NANOSECONDS.
Record BootEntry : Type := { be_ips : list ip_addr; be_at : Z }.
Definition boot_cached (now : Z) (host : bytes) (c : gmap bytes BootEntry) : option (list ip_addr) :=
  let! e := c !! host in
  if (now - be_at e <? CACHE_TTL)%Z then Some (be_ips e) else None.
Definition extract_ips (m : Message) : list ip_addr :=
  omap (λ r, match dr_data r with RdA a => Some (V4 a) | RdAAAA a => Some (V6 a) | _ => None end) (msg_answers m).
(** [lookup]: the first server whose answer has an address. *)
Fixpoint boot_lookup (last_err : UpstreamError) (answers : list (result Message UpstreamError)) : result (list ip_addr) UpstreamError :=
  match answers with
  | [] => Err last_err
  | Ok m :: answers => match extract_ips m with [] => boot_lookup last_err answers | ips => Ok ips end
  | Err e :: answers => boot_lookup e answers
  end.
(** [resolve]: [a] and [aaaa] are what the servers answer in turn (a timeout is an error);
    they are empty when the host is not a domain name. *)
Definition boot_resolve (now : Z) (host : bytes) (a aaaa : list (result Message UpstreamError)) (c : gmap bytes BootEntry)
  : result (list ip_addr) UpstreamError * gmap bytes BootEntry :=
  match parse_ip host with
  | Some ip => (Ok [ip], c)
  | None =>
      match boot_cached now host c with
      | Some ips => (Ok ips, c)
      | None =>
          let found l := match boot_lookup (UeBootstrap host) l with Ok ips => ips | Err _ => [] end in
          match found a ++ found aaaa with
          | [] => (Err (UeBootstrap host), c)
          | ips => (Ok ips, <[host := {| be_ips := ips; be_at := now |}]> c)
          end
      end
  end.

(** [DoqTransport::query]: an error forgets the connection. *)
Definition doq_after (r : result Message UpstreamError) (cached : bool) : bool := match r with Ok _ => cached | Err _ => false end.

(** ** Properties *)

Lemma tcp_await_matches fuel q s m : tcp_await fuel q s = Ok m → matches_query q m = true.
Proof.
  revert s. induction fuel as [|fuel IH]; intros s; simpl; [done|].
  destruct (read_tcp_message _ _ s) as [[m' rest]|]; [|done]. simpl. destruct (matches_query q m') eqn:E; [by intros [= <-]|apply IH].
Qed.
(** The stream's length is fuel enough: the loop ends with an answer or at the stream's end. *)
Lemma tcp_await_fuel n1 n2 q s : length s < n1 → length s < n2 → tcp_await n1 q s = tcp_await n2 q s.
Proof.
  revert n2 s. induction n1 as [|n1 IH]; intros n2 s H1 H2; [lia|]. destruct n2 as [|n2]; [lia|]. simpl.
  unfold read_tcp_message. destruct (read_frame s) as [[b rest]|] eqn:E; [|done]. simpl. apply read_frame_shorter in E.
  destruct (decode proto_text b) as [m|]; [|done]. simpl. destruct (matches_query q m); [done|]. apply IH; lia.
Qed.
Lemma retry_matches is_dead dial exchange q s m s' :
  (∀ n c r, exchange n c = Ok r → matches_query q r = true) →
  query_with_retry is_dead dial exchange s = (Ok m, s') → matches_query q m = true.
Proof.
  intros Hx. unfold query_with_retry. destruct (slot_connection _ _ s) as [[c|] s1]; [|done].
  destruct (exchange 0 c) as [r|] eqn:E; [intros [= <- _]; by eapply Hx|].
  destruct (slot_connection _ _ _) as [[c2|] s2]; [|done]. intros [= H _]. by eapply Hx.
Qed.
Lemma doh_body_bounded body chunks err b : length body <= MAX_DOH_BODY → doh_body body chunks err = Ok b →
  length b <= MAX_DOH_BODY ∧ b = body ++ mjoin chunks.
Proof.
  revert body. induction chunks as [|ch chunks IH]; intros body Hb; cbn [doh_body].
  - destruct err; [done|]. intros [= <-]. by rewrite app_nil_r.
  - destruct (Nat.ltb_spec MAX_DOH_BODY (length body + length ch)); [done|]. intros Hr.
    destruct (IH (body ++ ch)) as [H1 H2]; [rewrite length_app; lia|done|]. split; [done|].
    rewrite H2, <- app_assoc. done.
Qed.
Lemma doh_exchange_matches now sent q learn h m h' : doh_exchange now sent q learn h = Some (Ok m, h') →
  matches_query q m = true ∧ ∃ resp body, sent = Ok resp ∧ body = mjoin (hr_chunks resp) ∧ length body <= MAX_DOH_BODY.
Proof.
  unfold doh_exchange. destruct sent as [resp|]; [|done]. destruct (negb (hr_success resp)); [done|].
  destruct (match _ with Some v => _ | None => Some h end) as [h1|]; [|done]. cbn [mbind option_bind]. intros [= H _]. revert H.
  destruct (match hr_content_length resp with Some n => _ | None => false end); [done|].
  destruct (doh_body [] (hr_chunks resp) (hr_error resp)) as [body|] eqn:Eb; [|done]. cbn [result_bind].
  apply doh_body_bounded in Eb as [Hl Hb]; [|simpl; lia]. destruct (decode proto_text body) as [m0|]; [|done]. cbn [result_bind].
  destruct (matches_query q _) eqn:E; [|done]. intros [= <-]. split; [done|]. by exists resp, body.
Qed.

Lemma tcp_matches conn q stream m : tcp_query_once conn q stream = Ok m → matches_query q m = true.
Proof. unfold tcp_query_once. destruct conn; [|done]. destruct (write_tcp_message _ q); [|done]. apply tcp_await_matches. Qed.
Lemma udp_matches q udp conn stream m : (∀ r, udp = Ok r → matches_query q r = true) →
  udp_query udp (tcp_query_once conn q stream) = Ok m → matches_query q m = true.
Proof.
  intros Hu. destruct udp as [r|]; [|done]. simpl. destruct (msg_truncation r); [apply tcp_matches|]. intros [= <-]. by apply Hu.
Qed.
Lemma doh_matches now c3 c12 s3 s12 q h m h' : doh_query now c3 c12 s3 s12 q h = Some (Ok m, h') →
  matches_query q m = true ∧ ∃ body resp, (s3 body = Ok resp ∨ s12 body = Ok resp) ∧ length (mjoin (hr_chunks resp)) <= MAX_DOH_BODY.
Proof.
  intros H. assert (Hx : ∀ sent learn h1, doh_exchange now sent q learn h1 = Some (Ok m, h') →
    matches_query q m = true ∧ ∃ resp, sent = Ok resp ∧ length (mjoin (hr_chunks resp)) <= MAX_DOH_BODY).
  { intros sent learn h1 (H1 & resp & body & H2 & -> & H3)%doh_exchange_matches. eauto. }
  unfold doh_query in H. destruct (encode proto_text q) as [buf|]; [|done]. destruct h as [|until].
  - destruct c3; [|done]. destruct (Hx _ _ _ H) as (H1 & resp & H2 & H3). eauto 6.
  - assert (H12 : ∀ h1, match c12 with Err e => Some (Err e, h1) | Ok _ => doh_exchange now (s12 (with_wire_id 0 buf)) q true h1 end = Some (Ok m, h') →
      matches_query q m = true ∧ ∃ body resp, (s3 body = Ok resp ∨ s12 body = Ok resp) ∧ length (mjoin (hr_chunks resp)) <= MAX_DOH_BODY).
    { intros h1 H1. destruct c12; [|done]. destruct (Hx _ _ _ H1) as (? & resp & ? & ?). eauto 6. }
    destruct (h3_fresh _ _); [|by eapply H12]. destruct c3; [|done].
    destruct (doh_exchange now (s3 (with_wire_id 0 buf)) q false _) as [[[m3|e] h1]|] eqn:E3; [| |done]; cbn [mbind option_bind] in H.
    + injection H as -> ->. destruct (Hx _ _ _ E3) as (H1 & resp & H2 & H3). eauto 6.
    + destruct (learn_alt_svc now AsClear h1); [|done]. by eapply H12.
Qed.
Lemma doq_matches conn exchange q m : doq_query conn exchange q = Ok m → matches_query q m = true.
Proof.
  unfold doq_query. destruct (encode proto_text q) as [body|]; [|done]. simpl. destruct (_ <? _)%Z; [done|].
  destruct conn; [|done]. simpl. destruct (exchange _) as [data|]; [|done]. simpl. destruct (length data <? 2); [done|].
  destruct (decode _ _) as [m0|]; [|done]. simpl. destruct (matches_query q _) eqn:E; [|done]. by intros [= <-].
Qed.

(** Whatever an upstream sends, a transport only ever returns a message that answers the
    query (same id, and the same question if the answer repeats it).  This holds for TCP with
    its skipping of stray frames, for UDP and DNS over TLS with their retry and the fallback
    to TCP, for DNS over HTTPS in every HTTP/3 mode with bodies of at most 64 KiB, and for
    DNS over QUIC. *)
Theorem transports_answer_the_query q :
  (∀ conn stream m, tcp_query_once conn q stream = Ok m → matches_query q m = true)
  ∧ (∀ is_dead dial exchange slot slot' udp conn stream m,
       (∀ n c r, exchange n c = Ok r → matches_query q r = true) →
       query_with_retry is_dead dial exchange slot = (udp, slot') → udp_query udp (tcp_query_once conn q stream) = Ok m →
       matches_query q m = true)
  ∧ (∀ now c3 c12 s3 s12 h m h', doh_query now c3 c12 s3 s12 q h = Some (Ok m, h') →
       matches_query q m = true ∧ ∃ body resp, (s3 body = Ok resp ∨ s12 body = Ok resp) ∧ length (mjoin (hr_chunks resp)) <= MAX_DOH_BODY)
  ∧ (∀ conn exchange m, doq_query conn exchange q = Ok m → matches_query q m = true).
Proof.
  split_and!; [intros conn; apply tcp_matches| |intros now c3 c12 s3 s12; apply doh_matches|intros conn ex; apply doq_matches].
  intros is_dead dial exchange s s' udp conn stream m Hx Hr. apply udp_matches. intros r ->. by eapply retry_matches.
Qed.

(** Cached addresses are never empty. *)
Definition boot_inv (c : gmap bytes BootEntry) : Prop := map_Forall (λ _ e, be_ips e ≠ []) c.
(** The bootstrap resolver answers with at least one address or an error, keeps its
    cache so that every entry has one, and, having resolved a host, answers the same for the
    next five minutes whatever the servers say then. *)
Theorem bootstrap_resolves now host a aaaa c ips c' : boot_inv c → boot_resolve now host a aaaa c = (Ok ips, c') →
  ips ≠ [] ∧ boot_inv c'
  ∧ ∀ now' a' aaaa', (now <= now' < now + CACHE_TTL)%Z →
      (boot_cached now host c = None → boot_resolve now' host a' aaaa' c' = (Ok ips, c')).
Proof.
  intros Hc. unfold boot_resolve. destruct (parse_ip host) as [ip|] eqn:Ep; [by intros [= <- <-]|].
  destruct (boot_cached now host c) as [ips0|] eqn:Eb.
  - intros [= <- <-]. unfold boot_cached in Eb. destruct (c !! host) as [e|] eqn:Ee; [|done]. simpl in Eb.
    destruct (_ <? _)%Z; [|done]. injection Eb as <-. split_and!; [by apply (Hc host e)|done|done].
  - destruct (_ ++ _) as [|ip ips0]; [done|]. intros [= <- <-]. split_and!; [done|by apply map_Forall_insert_2|].
    intros now' a' aaaa' Hn _. unfold boot_cached. rewrite lookup_insert_eq. cbn [mbind option_bind be_at be_ips].
    by rewrite (proj2 (Z.ltb_lt _ _)) by lia.
Qed.
End transports.

(** An Alt-Svc header with a huge lifetime: the addition to the clock panics at every instant. *)
Definition huge_alt_svc : bytes := bs "h3=:443; ma=18446744073709551615".
Lemma alt_svc_overflow_panics now until : (0 <= now)%Z → learn_alt_svc now (parse_alt_svc_h3 huge_alt_svc) (H3Auto until) = None.
Proof.
  intros Hn. change (parse_alt_svc_h3 huge_alt_svc) with (AsFound 18446744073709551615). simpl. unfold instant_add.
  rewrite (proj2 (Z.ltb_ge _ _)); [done|]. unfold NANOSECONDS. rewrite Z.div_add by lia. pose proof (Z.div_pos now 1000000000). lia.
Qed.

(** ** Witnesses *)

Definition tcp_stream : bytes :=
  frame (default [] (msg_to_vec (set_id 7 mux_query))) ++ frame (default [] (msg_to_vec mux_query)).
Lemma transports_answer_the_query_witness :
  tcp_query_once (DL:=small_dns) (DC:=small_codec) [] [] (Ok ()) mux_query tcp_stream = Ok mux_query
  ∧ matches_query mux_query mux_query = true.
Proof.
  assert (H : tcp_query_once (DL:=small_dns) (DC:=small_codec) [] [] (Ok ()) mux_query tcp_stream = Ok mux_query) by vm_refl.
  split; [exact H|].
  destruct (transports_answer_the_query (DL:=small_dns) (DC:=small_codec) [] [] mux_query) as [Ht _]. exact (Ht _ _ _ H).
Defined.
Definition boot_answers : list (result Message UpstreamError) := [Err UeTimeout; Ok mux_query].
Lemma bootstrap_resolves_witness :
  ∃ ips c', boot_resolve 1000 (bs "dns.example") boot_answers [] ∅ = (Ok ips, c') ∧ ips ≠ []
    ∧ boot_resolve 2000 (bs "dns.example") [] [] c' = (Ok ips, c').
Proof.
  set (c' := <[bs "dns.example" := {| be_ips := [V4 sample_ip]; be_at := 1000 |}]> ∅ : gmap bytes BootEntry).
  assert (Hr : boot_resolve 1000 (bs "dns.example") boot_answers [] ∅ = (Ok [V4 sample_ip], c')) by vm_refl.
  exists [V4 sample_ip], c'. split; [exact Hr|].
  destruct (bootstrap_resolves 1000 (bs "dns.example") boot_answers [] ∅ [V4 sample_ip] c' (map_Forall_empty _) Hr) as (H1 & _ & H3).
  split; [exact H1|]. apply (H3 2000%Z [] []); [unfold CACHE_TTL, NANOSECONDS; lia|reflexivity].
Defined.

(** A write to the shared TLS stream that is cancelled part way leaves an incomplete frame on
    it: the server reads the next query's frame as the rest of the first, and both messages
    are lost. *)
Definition cancelled_write : bytes := take 7 (frame (bs "first query")) ++ frame (bs "second").
Lemma cancelled_write_corrupts : read_frames 10 cancelled_write = [bs "first" ++ take 6 (frame (bs "second"))].
Proof. vm_compute. reflexivity. Qed.
