(* ===== verification/Connect.v ===== *)
(** * bulwark-upstream: building and connecting the transports ([plain.rs], [dot.rs], [doh.rs],
    [doq.rs], [bootstrap.rs], [pool.rs]).

    The constructors, the shared bootstrap resolver with its servers, the addresses a transport
    dials, the HTTP clients a DNS-over-HTTPS transport keeps, the QUIC endpoint and connection,
    the factory of the pool and the connectivity test.  What a socket, a TLS or QUIC handshake
    or an HTTP client does is an argument. *)
From Stdlib Require Import Ascii.
From S2P Require Import Prelude RustStr RustNet Rule Wire Dns DnsInstances Spec Pool Config Framing Mux Transports.

(** ** Addresses *)

Definition sock (ip : ip_addr) (port : Z) : SocketAddr := match ip with V4 a => SaV4 a port | V6 a => SaV6 a 0 port end.
Definition sock_is_ipv4 (a : SocketAddr) : bool := match a with SaV4 _ _ => true | SaV6 _ _ _ => false end.
(** [SocketAddr]'s [Display]. *)
Definition show_socket_addr (a : SocketAddr) : bytes :=
  match a with
  | SaV4 ip port => show_ipv4 ip ++ bs ":" ++ show_dec port
  | SaV6 ip scope port =>
      bs "[" ++ show_ipv6 ip ++ (if (scope =? 0)%Z then [] else bs "%" ++ show_dec scope) ++ bs "]:" ++ show_dec port
  end.

(** ** The bootstrap resolver *)

Record Bootstrap : Type := { bt_servers : list SocketAddr; bt_cache : gmap bytes BootEntry }.
Definition bootstrap_new (servers : list SocketAddr) : Bootstrap :=
  {| bt_servers := match servers with [] => [SaV4 (quad 1 1 1 1) 53; SaV4 (quad 8 8 8 8) 53] | _ => servers end; bt_cache := ∅ |}.

Section connect.
Context {DL : DnsLib} {DC : DnsCodec} (set_fqdn : dname → dname) (proto_text : bytes).

(** A recursive query for one name. *)
Definition asking (id : Z) (name : dname) (rtype : Z) : Message :=
  let m := message_new id MtQuery OPCODE_QUERY in
  {| msg_id := msg_id m; msg_type := msg_type m; msg_opcode := msg_opcode m; msg_truncation := msg_truncation m; msg_rd := true;
     msg_ra := msg_ra m; msg_cd := msg_cd m; msg_rcode := msg_rcode m;
     msg_queries := [{| q_name := name; q_type := rtype; q_class := CLASS_IN |}];
     msg_answers := []; msg_authorities := []; msg_additionals := []; msg_edns := None |}.
(** [probe_query] and the query of [test_spec]. *)
Definition probe_query (id : Z) : Message := asking id name_root RT_NS.
Definition test_query (id : Z) : Message := asking id (default name_root (name_from_str (bs "example.com."))) RT_A.

(** What the bootstrap servers answer within their five seconds, in the order they are asked. *)
Context (ask : Z → SocketAddr → Message → result Message UpstreamError).
(** [Bootstrap::resolve] with [lookup]; [ids] are the drawn message ids. *)
Definition bootstrap_answers (now id : Z) (host : bytes) (rtype : Z) (b : Bootstrap) : list (result Message UpstreamError) :=
  match name_from_str host with
  | None => []
  | Some name => (λ server, ask now server (asking id (set_fqdn name) rtype)) <$> bt_servers b
  end.
Definition bootstrap_resolve (now : Z) (ids : Z * Z) (host : bytes) (b : Bootstrap) : result (list ip_addr) UpstreamError * Bootstrap :=
  let '(r, c) := boot_resolve now host (bootstrap_answers now ids.1 host RT_A b) (bootstrap_answers now ids.2 host RT_AAAA b) (bt_cache b) in
  (r, {| bt_servers := bt_servers b; bt_cache := c |}).

(** ** Plain transports *)

Record PlainTransport : Type := { pt_addr : SocketAddr; pt_desc : bytes }.
Definition udp_new (addr : SocketAddr) : PlainTransport := {| pt_addr := addr; pt_desc := bs "udp://" ++ show_socket_addr addr |}.
Definition tcp_new (addr : SocketAddr) : PlainTransport := {| pt_addr := addr; pt_desc := bs "tcp://" ++ show_socket_addr addr |}.
(** [UdpTransport::dial]: the local address has the family of the upstream. *)
Definition udp_dial (bind : SocketAddr → result () UpstreamError) (connect : SocketAddr → result () UpstreamError) (t : PlainTransport)
  : result () UpstreamError :=
  let local := if sock_is_ipv4 (pt_addr t) then SaV4 UNSPECIFIED4 0 else SaV6 UNSPECIFIED6 0 0 in
  let? _ := bind local in connect (pt_addr t).

(** ** DNS over TLS *)

Record DotTransport : Type := { tt_spec : UpstreamSpec; tt_desc : bytes; tt_slot : ConnSlot }.
(** [DotTransport::new]: the name must be one TLS can verify. *)
Definition dot_new (valid_name : bytes → result () bytes) (spec : UpstreamSpec) : result DotTransport UpstreamError :=
  match valid_name (server_name spec) with
  | Err e => Err (UeTls (bs "invalid server name: " ++ e))
  | Ok _ => Ok {| tt_spec := spec; tt_desc := bs "tls://" ++ server_name spec; tt_slot := {| sl_conn := None; sl_next := 0 |} |}
  end.

(** ** DNS over QUIC *)

Record DoqTransport : Type := { qt_spec : UpstreamSpec; qt_desc : bytes; qt_endpoint : bool; qt_slot : ConnSlot }.
Definition doq_new (spec : UpstreamSpec) : DoqTransport :=
  {| qt_spec := spec; qt_desc := bs "quic://" ++ server_name spec; qt_endpoint := false; qt_slot := {| sl_conn := None; sl_next := 0 |} |}.
Definition with_doq (endpoint : bool) (slot : ConnSlot) (t : DoqTransport) : DoqTransport :=
  {| qt_spec := qt_spec t; qt_desc := qt_desc t; qt_endpoint := endpoint; qt_slot := slot |}.
(** [endpoint]: made once; a failure is not kept. *)
Definition doq_endpoint (made : result () UpstreamError) (t : DoqTransport) : result () UpstreamError * DoqTransport :=
  if qt_endpoint t then (Ok (), t)
  else match made with Ok _ => (Ok (), with_doq true (qt_slot t) t) | Err e => (Err e, t) end.
(** [connection]: the open one, else the first address that connects. *)
Definition doq_connection (closed : nat → bool) (made : result () UpstreamError) (dial : ip_addr → result () UpstreamError)
    (now : Z) (ids : Z * Z) (t : DoqTransport) (b : Bootstrap) : result nat UpstreamError * DoqTransport * Bootstrap :=
  match (let! c := sl_conn (qt_slot t) in if closed c then None else Some c) with
  | Some c => (Ok c, t, b)
  | None =>
      match doq_endpoint made t with
      | (Err e, t) => (Err e, t, b)
      | (Ok _, t) =>
          let host := show_host (us_host (qt_spec t)) in
          match bootstrap_resolve now ids host b with
          | (Err e, b) => (Err e, t, b)
          | (Ok ips, b) =>
              match dial_first dial (UeBootstrap host) ips with
              | Err e => (Err e, t, b)
              | Ok _ => let n := sl_next (qt_slot t) in (Ok n, with_doq true {| sl_conn := Some n; sl_next := S n |} t, b)
              end
          end
      end
  end.
(** [query]: a query that fails, before or after it has a connection, forgets the connection. *)
Definition doq_forget (t : DoqTransport) : DoqTransport := with_doq (qt_endpoint t) {| sl_conn := None; sl_next := sl_next (qt_slot t) |} t.
Definition doq_transport_query (closed : nat → bool) (made : result () UpstreamError) (dial : ip_addr → result () UpstreamError)
    (exchange : nat → bytes → result bytes UpstreamError) (now : Z) (ids : Z * Z) (query : Message) (t : DoqTransport) (b : Bootstrap)
  : result Message UpstreamError * DoqTransport * Bootstrap :=
  let fits := match encode proto_text query with Ok body => negb (U16_MAX <? Z.of_nat (length body))%Z | Err _ => false end in
  let '(c, t, b) := if fits then doq_connection closed made dial now ids t b else (Ok 0, t, b) in
  let r := match c with
           | Ok c => doq_query proto_text (Ok ()) (exchange c) query
           | Err e => doq_query proto_text (Err e) (exchange 0) query
           end in
  (r, match r with Ok _ => t | Err _ => doq_forget t end, b).

(** ** DNS over HTTPS *)

(** The HTTP client: the addresses it is pinned to, and whether it speaks HTTP/3 only. *)
Record DohClient : Type := { hc_addrs : list SocketAddr; hc_h3 : bool }.
Record DohTransport : Type := {
  dt_spec : UpstreamSpec; dt_url : bytes; dt_ips : option (Z * list ip_addr);
  dt_h12 : option (Z * DohClient); dt_h3 : option (Z * DohClient); dt_mode : H3Mode; dt_desc : bytes;
}.
Definition doh_new (spec : UpstreamSpec) : DohTransport :=
  let url := bs "https://" ++ server_name spec ++ bs ":" ++ show_dec (us_port spec) ++ us_path spec in
  {| dt_spec := spec; dt_url := url; dt_ips := None; dt_h12 := None; dt_h3 := None;
     dt_mode := if us_force_http3 spec then H3Forced else H3Auto None; dt_desc := url |}.
Definition with_ips (p : option (Z * list ip_addr)) (t : DohTransport) : DohTransport :=
  {| dt_spec := dt_spec t; dt_url := dt_url t; dt_ips := p; dt_h12 := dt_h12 t; dt_h3 := dt_h3 t; dt_mode := dt_mode t; dt_desc := dt_desc t |}.
Definition with_client (h3 : bool) (c : option (Z * DohClient)) (t : DohTransport) : DohTransport :=
  {| dt_spec := dt_spec t; dt_url := dt_url t; dt_ips := dt_ips t; dt_h12 := if h3 then dt_h12 t else c;
     dt_h3 := if h3 then c else dt_h3 t; dt_mode := dt_mode t; dt_desc := dt_desc t |}.
Definition with_mode (m : H3Mode) (t : DohTransport) : DohTransport :=
  {| dt_spec := dt_spec t; dt_url := dt_url t; dt_ips := dt_ips t; dt_h12 := dt_h12 t; dt_h3 := dt_h3 t; dt_mode := m; dt_desc := dt_desc t |}.
Definition pinned {A} (now : Z) (p : option (Z * A)) : option A :=
  let! (at_, a) := p in if (now - at_ <? DOH_PIN_TTL)%Z then Some a else None.

(** [ips]. *)
Definition doh_ips (now : Z) (ids : Z * Z) (t : DohTransport) (b : Bootstrap)
  : result (list ip_addr) UpstreamError * DohTransport * Bootstrap :=
  match pinned now (dt_ips t) with
  | Some ips => (Ok ips, t, b)
  | None =>
      match bootstrap_resolve now ids (show_host (us_host (dt_spec t))) b with
      | (Err e, b) => (Err e, t, b)
      | (Ok ips, b) => (Ok ips, with_ips (Some (now, ips)) t, b)
      end
  end.
(** [build_client]; [built] is the outcome of the builder. *)
Definition build_client (built : result () UpstreamError) (ips : list ip_addr) (force_h3 : bool) (t : DohTransport) : result DohClient UpstreamError :=
  let? _ := built in
  Ok {| hc_addrs := (λ ip, sock ip (us_port (dt_spec t))) <$> ips; hc_h3 := force_h3 |}.
(** [h12] and [h3]. *)
Definition doh_client (h3 : bool) (built : result () UpstreamError) (now : Z) (ids : Z * Z) (t : DohTransport) (b : Bootstrap)
  : result DohClient UpstreamError * DohTransport * Bootstrap :=
  match pinned now (if h3 then dt_h3 t else dt_h12 t) with
  | Some c => (Ok c, t, b)
  | None =>
      match doh_ips now ids t b with
      | (Err e, t, b) => (Err e, t, b)
      | (Ok ips, t, b) =>
          match build_client built ips h3 t with
          | Err e => (Err e, t, b)
          | Ok c => (Ok c, with_client h3 (Some (now, c)) t, b)
          end
      end
  end.

(** [query_inner] with the clients it keeps; [send] is what posting a body with a client
    yields.  The clients that were used are listed. *)
Context (built : result () UpstreamError) (send : DohClient → bytes → result HttpResponse UpstreamError).
Definition doh_over (h3 learn : bool) (now : Z) (ids : Z * Z) (body : bytes) (query : Message) (t : DohTransport) (b : Bootstrap)
  : option (result Message UpstreamError * list DohClient * DohTransport * Bootstrap) :=
  match doh_client h3 built now ids t b with
  | (Err e, t, b) => Some (Err e, [], t, b)
  | (Ok c, t, b) =>
      let! (r, m) := doh_exchange proto_text now (send c body) query learn (dt_mode t) in
      Some (r, [c], with_mode m t, b)
  end.
Definition doh_transport_query (now : Z) (ids : Z * Z) (query : Message) (t : DohTransport) (b : Bootstrap)
  : option (result Message UpstreamError * list DohClient * DohTransport * Bootstrap) :=
  match encode proto_text query with
  | Err e => Some (Err e, [], t, b)
  | Ok buf =>
      let body := with_wire_id 0 buf in
      match dt_mode t with
      | H3Forced => doh_over true false now ids body query t b
      | H3Auto _ =>
          if h3_fresh now (dt_mode t) then
            match doh_client true built now ids t b with
            | (Err e, t, b) => Some (Err e, [], t, b)
            | (Ok c, t, b) =>
                let! (r, m) := doh_exchange proto_text now (send c body) query false (dt_mode t) in
                match r with
                | Ok msg => Some (Ok msg, [c], with_mode m t, b)
                | Err _ =>
                    let! m := learn_alt_svc now AsClear m in
                    let! (r, cs, t, b) := doh_over false true now ids body query (with_mode m t) b in
                    Some (r, c :: cs, t, b)
                end
            end
          else doh_over false true now ids body query t b
      end
  end.

(** ** The factory *)

Inductive AnyTransport : Type :=
| AtUdp (t : PlainTransport) | AtTcp (t : PlainTransport) | AtDot (t : DotTransport) | AtDoh (t : DohTransport) | AtDoq (t : DoqTransport).
Definition transport_desc (t : AnyTransport) : bytes :=
  match t with AtUdp t | AtTcp t => pt_desc t | AtDot t => tt_desc t | AtDoh t => dt_desc t | AtDoq t => qt_desc t end.
(** [plain_addr]. *)
Definition plain_addr (now : Z) (ids : Z * Z) (spec : UpstreamSpec) (b : Bootstrap) : result SocketAddr UpstreamError * Bootstrap :=
  match us_host spec with
  | HostIp ip => (Ok (sock ip (us_port spec)), b)
  | HostName name =>
      let '(r, b) := bootstrap_resolve now ids name b in
      (let? ips := r in
       match ips with ip :: _ => Ok (sock ip (us_port spec)) | [] => Err (UeBootstrap name) end, b)
  end.
(** [make_transport]. *)
Definition make_transport (valid_name : bytes → result () bytes) (now : Z) (ids : Z * Z) (spec : UpstreamSpec) (b : Bootstrap)
  : result AnyTransport UpstreamError * Bootstrap :=
  match us_kind spec with
  | TkUdp => let '(r, b) := plain_addr now ids spec b in (let? a := r in Ok (AtUdp (udp_new a)), b)
  | TkTcp => let '(r, b) := plain_addr now ids spec b in (let? a := r in Ok (AtTcp (tcp_new a)), b)
  | TkTls => (let? t := dot_new valid_name spec in Ok (AtDot t), b)
  | TkHttps => (Ok (AtDoh (doh_new spec)), b)
  | TkQuic => (Ok (AtDoq (doq_new spec)), b)
  end.
(** [test_spec]: the outcome and the round-trip time of the one query, or its timeout. *)
Definition test_spec (valid_name : bytes → result () bytes) (query : AnyTransport → Message → option (result Message UpstreamError * Z))
    (now : Z) (ids : Z * Z) (id : Z) (spec_str : bytes) (b : Bootstrap) : result Z UpstreamError * Bootstrap :=
  match spec_parse spec_str with
  | Err e => (Err e, b)
  | Ok spec =>
      let '(r, b) := make_transport valid_name now ids spec b in
      (let? t := r in
       match query t (test_query id) with
       | None => Err UeTimeout
       | Some (r, elapsed) => let? _ := r in Ok elapsed
       end, b)
  end.
End connect.
