(* ===== verification/ConnectProps.v ===== *)
(** * Properties of building and connecting: the transports the factory makes answer the query
    they are asked, and the addresses a DNS-over-HTTPS client is pinned to are never older than
    fifteen minutes. *)
From Stdlib Require Import Ascii.
From S2P Require Import Prelude RustStr RustNet Rule Wire Dns DnsInstances Spec Pool Config Framing Mux Transports Connect.

(** ** The transports with their state *)

Section answers.
Context {DL : DnsLib} {DC : DnsCodec} (set_fqdn : dname → dname) (proto_text : bytes).
Context (ask : Z → SocketAddr → Message → result Message UpstreamError).
Lemma doh_client_mode h3 built now ids t b r t' b' : doh_client set_fqdn ask h3 built now ids t b = (r, t', b') → dt_mode t' = dt_mode t.
Proof.
  unfold doh_client, doh_ips. intros H. destruct (pinned now (if h3 then _ else _)); [by injection H as _ <- _|].
  destruct (pinned now (dt_ips t)); [|destruct (bootstrap_resolve _ _ _ _ _ b) as [[ips|e] b1]; [|by injection H as _ <- _]];
    (destruct (build_client _ _ _ _); by injection H as _ <- _).
Qed.
(** The stateful query is one of the queries of [Transports]: the clients it keeps are the
    clients that query is given. *)
Lemma doh_transport_is_doh built send now ids q t b r cs t' b' :
  doh_transport_query set_fqdn proto_text ask built send now ids q t b = Some (r, cs, t', b') →
  ∃ c3 c12 s3 s12, doh_query proto_text now c3 c12 s3 s12 q (dt_mode t) = Some (r, dt_mode t').
Proof.
  assert (Hover : ∀ h3 learn body t b r cs t' b', doh_over set_fqdn proto_text ask built send h3 learn now ids body q t b = Some (r, cs, t', b') →
    ∃ (c : result () UpstreamError) s, match c with Err e => Some (Err e, dt_mode t) | Ok _ => doh_exchange proto_text now (s body) q learn (dt_mode t) end = Some (r, dt_mode t')).
  { intros h3 learn body t0 b0 r0 cs0 t1 b1 H. unfold doh_over in H. destruct (doh_client _ _ h3 built now ids t0 b0) as [[[c|e] t2] b2] eqn:Ec.
    - apply doh_client_mode in Ec. rewrite Ec in H. destruct (doh_exchange _ _ _ _ _ _) as [[r1 m]|] eqn:Ex; [|done]. cbn in H. injection H as <- <- <- <-.
      exists (Ok ()), (send c). by rewrite Ex.
    - apply doh_client_mode in Ec. injection H as <- <- <- <-. exists (Err e), (λ _, Err e). by rewrite Ec. }
  unfold doh_transport_query, doh_query. destruct (encode proto_text q) as [buf|e].
  2: { intros [= <- <- <- <-]. by exists (Ok ()), (Ok ()), (λ _, Err e), (λ _, Err e). }
  destruct (dt_mode t) as [|until] eqn:Em.
  - intros H. destruct (Hover _ _ _ _ _ _ _ _ _ H) as (c & s & Hc). rewrite Em in Hc. by exists c, c, s, s.
  - destruct (h3_fresh now (H3Auto until)).
    + destruct (doh_client _ _ true built now ids t b) as [[[c|e] t2] b2] eqn:Ec.
      * apply doh_client_mode in Ec. rewrite Ec, Em. intros H.
        destruct (doh_exchange proto_text now (send c _) q false (H3Auto until)) as [[[msg|e] m]|] eqn:Ex; [| |done]; cbn [mbind option_bind] in H.
        -- injection H as <- <- <- <-. exists (Ok ()), (Ok ()), (send c), (send c). by rewrite Ex.
        -- destruct (learn_alt_svc now AsClear m) as [m2|] eqn:El; [|done]. cbn [mbind option_bind] in H.
           destruct (doh_over _ _ _ _ _ false true _ _ _ _ _ _) as [[[[r0 cs0] t3] b3]|] eqn:Eo; [|done]. cbn in H. injection H as <- <- <- <-.
           destruct (Hover _ _ _ _ _ _ _ _ _ Eo) as (c12 & s12 & Hc). exists (Ok ()), c12, (send c), s12. rewrite Ex. cbn [mbind option_bind]. rewrite El. exact Hc.
      * apply doh_client_mode in Ec. rewrite <- Em, <- Ec. intros [= <- <- <- <-]. by exists (Err e), (Ok ()), (λ _, Err e), (λ _, Err e).
    + intros H. destruct (Hover _ _ _ _ _ _ _ _ _ H) as (c & s & Hc). rewrite Em in Hc. by exists (Ok ()), c, s, s.
Qed.
Lemma doq_transport_is_doq closed made dial exchange now ids q t b r t' b' :
  doq_transport_query set_fqdn proto_text ask closed made dial exchange now ids q t b = (r, t', b') →
  ∃ c ex, r = doq_query proto_text c ex q.
Proof.
  unfold doq_transport_query. match goal with |- context [if ?c then doq_connection ?a1 ?a2 ?a3 ?a4 ?a5 ?a6 ?a7 ?a8 ?a9 else ?y] =>
    destruct (if c then doq_connection a1 a2 a3 a4 a5 a6 a7 a8 a9 else y) as [[[c0|e] t1] b1] end; intros [= <- <- <-]; eauto.
Qed.
End answers.

(** ** The age of pinned addresses *)

Section age.
Context {DL : DnsLib} {DC : DnsCodec} (set_fqdn : dname → dname) (proto_text : bytes) (spec : UpstreamSpec).
Local Abbreviation host := (show_host (us_host spec)).

(** The histories of one DNS-over-HTTPS transport and the bootstrap resolver it shares with
    others: queries, and resolutions of any host by anybody else, at times that do not go back.
    Every state of the resolver is kept. *)
Inductive doh_history : list Bootstrap → Z → DohTransport → Bootstrap → Prop :=
| dh_new servers now : doh_history [bootstrap_new servers] now (doh_new spec) (bootstrap_new servers)
| dh_query hist now t b now' ask built send ids q r cs t' b' :
    doh_history hist now t b → (now <= now')%Z →
    doh_transport_query set_fqdn proto_text ask built send now' ids q t b = Some (r, cs, t', b') →
    doh_history (b' :: hist) now' t' b'
| dh_other hist now t b now' ask ids h r b' :
    doh_history hist now t b → (now <= now')%Z → bootstrap_resolve set_fqdn ask now' ids h b = (r, b') →
    doh_history (b' :: hist) now' t b'.

(** Addresses the resolver learned less than [d] before [now]; an IP literal needs no learning. *)
Definition learned (hist : list Bootstrap) (d now : Z) (ips : list ip_addr) : Prop :=
  (∃ ip, parse_ip host = Some ip ∧ ips = [ip])
  ∨ ∃ b e, b ∈ hist ∧ bt_cache b !! host = Some e ∧ be_ips e = ips ∧ (now - d < be_at e <= now)%Z.
Lemma learned_later hist hist' d d' now now' ips : hist ⊆ hist' → (now <= now')%Z → (now' - d' <= now - d)%Z →
  learned hist d now ips → learned hist' d' now' ips.
Proof.
  intros Hh Hn Hd [H|(b & e & Hb & He & Hi & Ht)]; [by left|]. right. exists b, e. split_and!; [by apply Hh|done|done|lia|lia].
Qed.
Record age_inv (hist : list Bootstrap) (now : Z) (t : DohTransport) (b : Bootstrap) : Prop := {
  ai_spec : dt_spec t = spec;
  ai_here : b ∈ hist;
  ai_past : ∀ e, bt_cache b !! host = Some e → (be_at e <= now)%Z;
  ai_ips : ∀ at_ ips, dt_ips t = Some (at_, ips) → (at_ <= now)%Z ∧ learned hist DOH_PIN_TTL at_ ips;
  ai_client : ∀ (h3 : bool) at_ c, (if h3 then dt_h3 t else dt_h12 t) = Some (at_, c) → (at_ <= now)%Z ∧
    ∃ ips, hc_addrs c = (λ ip, sock ip (us_port spec)) <$> ips ∧ learned hist (2 * DOH_PIN_TTL) at_ ips;
}.
Lemma resolve_learned ask hist now now' ids b r b' : b ∈ hist → (∀ e, bt_cache b !! host = Some e → (be_at e <= now)%Z) → (now <= now')%Z →
  bootstrap_resolve set_fqdn ask now' ids host b = (r, b') →
  (∀ e, bt_cache b' !! host = Some e → (be_at e <= now')%Z) ∧ (∀ ips, r = Ok ips → learned (b' :: hist) DOH_PIN_TTL now' ips).
Proof.
  intros Hb Hp Hn. unfold bootstrap_resolve, boot_resolve.
  assert (Hp' : ∀ e, bt_cache b !! host = Some e → (be_at e <= now')%Z) by (intros e He; specialize (Hp e He); lia).
  destruct (parse_ip host) as [ip|] eqn:Ep; [intros [= <- <-]; split; [done|]; intros ips [= <-]; left; by exists ip|].
  destruct (boot_cached now' host (bt_cache b)) as [ips0|] eqn:Ec.
  - intros [= <- <-]. split; [done|]. intros ips [= <-]. right. unfold boot_cached in Ec. destruct (bt_cache b !! host) as [e|] eqn:Ee; [|done]. cbn in Ec.
    destruct (Z.ltb_spec (now' - be_at e) CACHE_TTL); [|done]. injection Ec as <-. exists b, e. specialize (Hp' e eq_refl).
    unfold CACHE_TTL, DOH_PIN_TTL, NANOSECONDS in *. split_and!; [by right|done|done|lia|lia].
  - destruct (_ ++ _) as [|ip0 ips0]; intros [= <- <-]; [by split|]. cbn [bt_cache]. split.
    + intros e. rewrite lookup_insert_eq. intros [= <-]. done.
    + intros ips [= <-]. right. eexists _, _. split; [left|]. cbn [bt_cache]. rewrite lookup_insert_eq. split_and!; [done|done|cbn; unfold DOH_PIN_TTL; lia|cbn; lia].
Qed.

(** One call of the resolver at [now] keeps the host's entry or replaces one that had expired. *)
Definition boot_next (now : Z) (b b' : Bootstrap) : Prop :=
  bt_cache b' !! host = bt_cache b !! host
  ∨ ((∀ e, bt_cache b !! host = Some e → be_at e ≠ now) ∧ ∃ e, bt_cache b' !! host = Some e ∧ be_at e = now).
Lemma resolve_next ask now ids h b r b' : bootstrap_resolve set_fqdn ask now ids h b = (r, b') → boot_next now b b'.
Proof.
  unfold bootstrap_resolve, boot_resolve, boot_next. destruct (parse_ip h); [intros [= _ <-]; by left|].
  destruct (boot_cached now h (bt_cache b)) as [ips|] eqn:Ec; [intros [= _ <-]; by left|].
  destruct (_ ++ _) as [|ip ips]; intros [= _ <-]; [by left|]. cbn [bt_cache]. destruct (decide (h = host)) as [->|Hne].
  - right. split; [|eexists; by rewrite lookup_insert_eq]. intros e He Heq. unfold boot_cached in Ec. rewrite He in Ec. cbn in Ec.
    by rewrite Heq, Z.sub_diag in Ec.
  - left. by rewrite lookup_insert_ne.
Qed.
Lemma boot_next_refl now b : boot_next now b b.
Proof. by left. Qed.
Lemma learned_drop hist d now' now b b1 b2 ips : b ∈ hist → boot_next now b b1 → boot_next now b1 b2 →
  learned (b2 :: b1 :: hist) d now' ips → learned (b2 :: hist) d now' ips.
Proof.
  intros Hb H1 H2 [H|(x & e & Hx & He & Hr)]; [by left|]. right.
  apply elem_of_cons in Hx as [->|[->|Hx]%elem_of_cons]; [by exists b2, e; split; [left|]| |by exists x, e; split; [right|]].
  destruct H1 as [H1|(_ & e1 & H1 & Hn)]; [exists b, e; split; [by right|]; by rewrite <- H1|].
  destruct H2 as [H2|[H2 _]]; [exists b2, e; split; [left|]; by rewrite H2|]. rewrite H1 in He. injection He as <-. by destruct (H2 e1 H1).
Qed.
Lemma age_inv_drop hist now t b b1 b2 : b ∈ hist → boot_next now b b1 → boot_next now b1 b2 → age_inv (b2 :: b1 :: hist) now t b2 → age_inv (b2 :: hist) now t b2.
Proof.
  intros Hb H1 H2 [A1 A2 A3 A4 A5]. constructor; [done|left|done| |].
  - intros at_ ips H. destruct (A4 _ _ H) as [? ?]. split; [done|]. by eapply learned_drop.
  - intros h3 at_ c H. destruct (A5 h3 _ _ H) as (? & ips & ? & ?). split; [done|]. exists ips. split; [done|]. by eapply learned_drop.
Qed.
Lemma age_inv_later hist now now' t b b' : age_inv hist now t b → (now <= now')%Z →
  (∀ e, bt_cache b' !! host = Some e → (be_at e <= now')%Z) → age_inv (b' :: hist) now' t b'.
Proof.
  intros [A1 A2 A3 A4 A5] Hn Hp. constructor; [done|left|done| |].
  - intros at_ ips H. destruct (A4 _ _ H) as [? HL]. split; [lia|]. eapply learned_later; [..|exact HL]; [set_solver|lia|lia].
  - intros h3 at_ c H. destruct (A5 h3 _ _ H) as (? & ips & ? & HL). split; [lia|]. exists ips. split; [done|]. eapply learned_later; [..|exact HL]; [set_solver|lia|lia].
Qed.
Lemma next_past now now' b b' : (∀ e, bt_cache b !! host = Some e → (be_at e <= now)%Z) → (now <= now')%Z → boot_next now' b b' →
  ∀ e, bt_cache b' !! host = Some e → (be_at e <= now')%Z.
Proof. intros Hp Hn [H|(_ & e1 & H & He)] e Hb; [rewrite H in Hb; specialize (Hp e Hb); lia|]. rewrite H in Hb. injection Hb as <-. lia. Qed.

Lemma pinned_inv {A} now (p : option (Z * A)) a : pinned now p = Some a → ∃ at_, p = Some (at_, a) ∧ (now - at_ < DOH_PIN_TTL)%Z.
Proof.
  unfold pinned. destruct p as [[at_ x]|]; [|done]. cbn. destruct (Z.ltb_spec (now - at_) DOH_PIN_TTL); [|done]. intros [= <-]. by exists at_.
Qed.
Lemma ips_age ask hist now now' ids t b r t' b' : age_inv hist now t b → (now <= now')%Z →
  doh_ips set_fqdn ask now' ids t b = (r, t', b') →
  boot_next now' b b' ∧ age_inv (b' :: hist) now' t' b' ∧ (∀ ips, r = Ok ips → learned (b' :: hist) (2 * DOH_PIN_TTL) now' ips).
Proof.
  intros HA Hn. unfold doh_ips. destruct (pinned now' (dt_ips t)) as [ips|] eqn:Ep.
  - intros [= <- <- <-]. split; [apply boot_next_refl|]. split; [eapply age_inv_later; [done..|]; by eapply (next_past now); [apply HA|done|apply boot_next_refl]|].
    intros ? [= <-]. apply pinned_inv in Ep as (at_ & Ep & Ht). destruct (ai_ips _ _ _ _ HA _ _ Ep) as [? HL].
    eapply learned_later; [..|exact HL]; [set_solver|lia|lia].
  - rewrite (ai_spec _ _ _ _ HA). destruct (bootstrap_resolve _ _ _ _ _ b) as [r0 b0] eqn:Er.
    pose proof (resolve_next _ _ _ _ _ _ _ Er) as Hnx.
    destruct (resolve_learned ask hist now now' ids b r0 b0 (ai_here _ _ _ _ HA) (ai_past _ _ _ _ HA) Hn Er) as [Hp HL].
    pose proof (age_inv_later _ _ _ _ _ _ HA Hn Hp) as HA'.
    destruct r0 as [ips|e]; intros [= <- <- <-]; (split; [done|]); [|by split].
    split; [|intros ? [= <-]; eapply learned_later; [..|by apply HL]; [done|lia|unfold DOH_PIN_TTL; lia]].
    destruct HA' as [A1 A2 A3 A4 A5]. constructor; [done|done|done| |done]. cbn [dt_ips with_ips]. intros at_ ips' [= <- <-]. split; [done|by apply HL].
Qed.
Lemma client_age ask built hist now now' ids h3 t b r t' b' : age_inv hist now t b → (now <= now')%Z →
  doh_client set_fqdn ask h3 built now' ids t b = (r, t', b') →
  boot_next now' b b' ∧ age_inv (b' :: hist) now' t' b' ∧
  (∀ c, r = Ok c → ∃ ips, hc_addrs c = (λ ip, sock ip (us_port spec)) <$> ips ∧ learned (b' :: hist) (3 * DOH_PIN_TTL) now' ips).
Proof.
  intros HA Hn. unfold doh_client. destruct (pinned now' _) as [c|] eqn:Ep.
  - intros [= <- <- <-]. split; [apply boot_next_refl|]. split; [eapply age_inv_later; [done..|]; by eapply (next_past now); [apply HA|done|apply boot_next_refl]|].
    intros ? [= <-]. apply pinned_inv in Ep as (at_ & Ep & Ht). destruct (ai_client _ _ _ _ HA _ _ _ Ep) as (? & ips & ? & HL).
    exists ips. split; [done|]. eapply learned_later; [..|exact HL]; [set_solver|lia|lia].
  - destruct (doh_ips _ _ _ _ t b) as [[[ips|e] t1] b1] eqn:Ei; destruct (ips_age _ _ _ _ _ _ _ _ _ _ HA Hn Ei) as (Hnx & HA' & HL); [|by intros [= <- <- <-]].
    unfold build_client. destruct built as [u|e]; cbn [result_bind]; intros [= <- <- <-]; [|by split].
    rewrite (ai_spec _ _ _ _ HA'). split; [done|]. split.
    + destruct HA' as [A1 A2 A3 A4 A5]. constructor; [done|done|done|done|]. intros h3' at_ c. unfold with_client. cbn [dt_h12 dt_h3].
      destruct h3', h3; try (by apply (A5 true)); try (by apply (A5 false)); intros [= <- <-]; (split; [done|]); exists ips; (split; [done|by apply HL]).
    + intros c [= <-]. exists ips. split; [done|]. eapply learned_later; [..|by apply HL]; [done|lia|unfold DOH_PIN_TTL; lia].
Qed.

Lemma with_mode_inv hist now t b m : age_inv hist now t b → age_inv hist now (with_mode m t) b.
Proof. by intros []. Qed.
(** What holds of the clients a query used. *)
Definition used (hist : list Bootstrap) (now : Z) (c : DohClient) : Prop :=
  ∃ ips, hc_addrs c = (λ ip, sock ip (us_port spec)) <$> ips ∧ learned hist (3 * DOH_PIN_TTL) now ips.
Lemma over_age ask built send hist now now' ids h3 learn body q t b r cs t' b' : age_inv hist now t b → (now <= now')%Z →
  doh_over set_fqdn proto_text ask built send h3 learn now' ids body q t b = Some (r, cs, t', b') →
  boot_next now' b b' ∧ age_inv (b' :: hist) now' t' b' ∧ Forall (used (b' :: hist) now') cs.
Proof.
  intros HA Hn H. unfold doh_over in H. destruct (doh_client _ _ h3 built now' ids t b) as [[[c|e] t1] b1] eqn:Ec;
    destruct (client_age _ _ _ _ _ _ _ _ _ _ _ _ HA Hn Ec) as (Hnx & HA' & HC).
  - destruct (doh_exchange _ _ _ _ _ _) as [[r1 m]|]; [|done]. cbn in H. injection H as <- <- <- <-.
    split; [done|]. split; [by apply with_mode_inv|]. constructor; [by apply HC|constructor].
  - injection H as <- <- <- <-. split; [done|]. by split; [|constructor].
Qed.
Lemma age_inv_same hist now now' t b : age_inv hist now t b → (now <= now')%Z → age_inv (b :: hist) now' t b.
Proof. intros HA Hn. eapply age_inv_later; [done..|]. by eapply (next_past now); [apply HA|done|apply boot_next_refl]. Qed.
Lemma query_age ask built send hist now now' ids q t b r cs t' b' : age_inv hist now t b → (now <= now')%Z →
  doh_transport_query set_fqdn proto_text ask built send now' ids q t b = Some (r, cs, t', b') →
  age_inv (b' :: hist) now' t' b' ∧ Forall (used (b' :: hist) now') cs.
Proof.
  intros HA Hn H. unfold doh_transport_query in H.
  destruct (encode proto_text q) as [buf|e]; [|injection H as <- <- <- <-; by split; [eapply age_inv_same|constructor]].
  destruct (dt_mode t) as [|until]; [by destruct (over_age _ _ _ _ _ _ _ _ _ _ _ _ _ _ _ _ _ HA Hn H) as (_ & ? & ?)|].
  destruct (h3_fresh now' _); [|by destruct (over_age _ _ _ _ _ _ _ _ _ _ _ _ _ _ _ _ _ HA Hn H) as (_ & ? & ?)].
  destruct (doh_client _ _ true built now' ids t b) as [[[c|e] t1] b1] eqn:Ec;
    destruct (client_age _ _ _ _ _ _ _ _ _ _ _ _ HA Hn Ec) as (Hnx & HA' & HC);
    [|injection H as <- <- <- <-; by split; [|constructor]].
  destruct (doh_exchange _ _ _ _ _ _) as [[[msg|e] m]|]; [| |done]; cbn [mbind option_bind] in H.
  - injection H as <- <- <- <-. split; [by apply with_mode_inv|]. constructor; [by apply HC|constructor].
  - destruct (learn_alt_svc now' AsClear m) as [m2|]; [|done]. cbn [mbind option_bind] in H.
    destruct (doh_over _ _ _ _ _ false true _ _ _ _ _ _) as [[[[r0 cs0] t3] b3]|] eqn:Eo; [|done]. cbn in H. injection H as <- <- <- <-.
    destruct (over_age _ _ _ _ _ _ _ _ _ _ _ _ _ _ _ _ _ (with_mode_inv _ _ _ _ m2 HA') (Z.le_refl _) Eo) as (Hnx2 & HA2 & HU).
    split; [by eapply age_inv_drop; [apply HA|..]|]. constructor.
    + destruct (HC c eq_refl) as (ips & Hi & HL). exists ips. split; [done|].
      eapply learned_drop; [apply HA|exact Hnx|exact Hnx2|]. eapply learned_later; [..|exact HL]; [set_solver|lia|lia].
    + eapply Forall_impl; [exact HU|]. intros x (ips & Hi & HL). exists ips. split; [done|]. by eapply learned_drop; [apply HA|..].
Qed.
Lemma history_inv hist now t b : doh_history hist now t b → age_inv hist now t b.
Proof.
  induction 1 as [servers now|hist now t b now' ask built send ids q r cs t' b' _ IH Hn H|hist now t b now' ask ids h r b' _ IH Hn H].
  - constructor; [done|by left|done|done|by intros []].
  - by destruct (query_age _ _ _ _ _ _ _ _ _ _ _ _ _ _ IH Hn H).
  - eapply age_inv_later; [done..|]. eapply (next_past now); [apply IH|done|]. by eapply resolve_next.
Qed.
(** A DNS-over-HTTPS request never goes to an address that is too old.  In every history of
    a transport and the resolver it shares, the clients a query uses are pinned to addresses
    that the bootstrap servers gave for the host less than fifteen minutes before (three pins of
    five minutes on top of one another), or to the host itself when it is an IP address. *)
Theorem doh_addresses_are_recent hist now t b now' ask built send ids q r cs t' b' :
  doh_history hist now t b → (now <= now')%Z →
  doh_transport_query set_fqdn proto_text ask built send now' ids q t b = Some (r, cs, t', b') →
  Forall (λ c, ∃ ips, hc_addrs c = (λ ip, sock ip (us_port spec)) <$> ips ∧
    ((∃ ip, parse_ip host = Some ip ∧ ips = [ip])
     ∨ ∃ b0 e, b0 ∈ b' :: hist ∧ bt_cache b0 !! host = Some e ∧ be_ips e = ips ∧ (now' - 900 * NANOSECONDS < be_at e <= now')%Z)) cs.
Proof. intros Hh Hn H. exact (proj2 (query_age _ _ _ _ _ _ _ _ _ _ _ _ _ _ (history_inv _ _ _ _ Hh) Hn H)). Qed.
End age.

(** ** An old address in use, and witnesses *)

Definition doh_spec : UpstreamSpec :=
  {| us_kind := TkHttps; us_host := HostName (bs "dns.example"); us_port := 443; us_path := bs "/dns-query"; us_force_http3 := false;
     us_display := bs "https://dns.example/dns-query" |}.
Definition boot_up (_ : Z) (_ : SocketAddr) (_ : Message) : result Message UpstreamError := Ok mux_query.
Definition boot_down (_ : Z) (_ : SocketAddr) (_ : Message) : result Message UpstreamError := Err UeTimeout.
Definition no_http (_ : DohClient) (_ : bytes) : result HttpResponse UpstreamError := Err (UeHttp []).
Local Abbreviation doh_at := (doh_transport_query (DL:=small_dns) (DC:=small_codec) id []).
(** Somebody else resolves the host at 0 s; the transport pins those addresses at 299 s (its
    client cannot be built), pins a client to them at 598 s, and uses it at 897 s. *)
Definition boot_0 : Bootstrap := (bootstrap_resolve (DL:=small_dns) id boot_up 0 (1, 2)%Z (bs "dns.example") (bootstrap_new [])).2.
Definition state_after (r : option (result Message UpstreamError * list DohClient * DohTransport * Bootstrap)) : DohTransport * Bootstrap :=
  match r with Some (_, _, t, b) => (t, b) | None => (doh_new doh_spec, boot_0) end.
Definition clients_of (r : option (result Message UpstreamError * list DohClient * DohTransport * Bootstrap)) : list DohClient :=
  match r with Some (_, cs, _, _) => cs | None => [] end.
Definition run_299 := doh_at boot_down (Err (UeHttp [])) no_http (299 * NANOSECONDS)%Z (1, 2)%Z mux_query (doh_new doh_spec) boot_0.
Definition run_598 := doh_at boot_down (Ok ()) no_http (598 * NANOSECONDS)%Z (1, 2)%Z mux_query (state_after run_299).1 (state_after run_299).2.
Definition run_897 := doh_at boot_down (Ok ()) no_http (897 * NANOSECONDS)%Z (1, 2)%Z mux_query (state_after run_598).1 (state_after run_598).2.
Definition stale_ips : list ip_addr := [V4 sample_ip; V4 sample_ip].
Lemma stale_address_used :
  bt_cache boot_0 !! bs "dns.example" = Some {| be_ips := stale_ips; be_at := 0 |}
  ∧ hc_addrs <$> clients_of run_897 = [(λ ip, sock ip 443) <$> stale_ips].
Proof. split; vm_compute; reflexivity. Qed.
Lemma state_after_eq r : is_some r = true → ∃ m cs, r = Some (m, cs, (state_after r).1, (state_after r).2).
Proof. destruct r as [[[[m cs] t] b]|]; [|done]. intros _. by exists m, cs. Qed.
Lemma doh_addresses_are_recent_witness : Forall (λ c, ∃ ips, hc_addrs c = (λ ip, sock ip 443) <$> ips) (clients_of run_598) ∧ length (clients_of run_598) = 1.
Proof.
  assert (H0 : doh_history (DL:=small_dns) (DC:=small_codec) id [] doh_spec [boot_0; bootstrap_new []] 0 (doh_new doh_spec) boot_0).
  { eapply (dh_other (DL:=small_dns) (DC:=small_codec) id [] doh_spec _ 0 _ (bootstrap_new []) 0 boot_up (1, 2)%Z (bs "dns.example"));
      [apply (dh_new (DL:=small_dns) (DC:=small_codec) id [] doh_spec [])|lia|exact (surjective_pairing _)]. }
  destruct (state_after_eq run_299 ltac:(vm_refl)) as (r1 & cs1 & E1).
  destruct (state_after_eq run_598 ltac:(vm_refl)) as (r2 & cs2 & E2).
  pose proof (dh_query (DL:=small_dns) (DC:=small_codec) id [] doh_spec _ _ _ _ (299 * NANOSECONDS) boot_down (Err (UeHttp [])) no_http (1, 2)%Z mux_query _ _ _ _ H0
                ltac:(unfold NANOSECONDS; lia) E1) as H1.
  pose proof (doh_addresses_are_recent (DL:=small_dns) (DC:=small_codec) id [] doh_spec _ _ _ _ (598 * NANOSECONDS) boot_down (Ok ()) no_http (1, 2)%Z mux_query _ _ _ _ H1
                ltac:(unfold NANOSECONDS; lia) E2) as HF.
  split; [|vm_refl]. rewrite E2. eapply Forall_impl; [exact HF|]. intros c (ips & Hi & _). by exists ips.
Defined.
