(* ===== verification/Answers.v ===== *)
(** * The pool over its transports: answers come to the questions that were asked.

    [Transport] is the trait of [transport.rs]: a relation between a query and the outcomes
    its transport may have.  The five transports implement it; the pool's failover and
    coalescing are proved against it. *)
From Stdlib Require Import Ascii.
From S2P Require Import Prelude RustStr RustNet RustFloat Rule Wire Dns DnsInstances Clients Block QueryLog Cache Stats Engine Spec ProbeLog Pool PoolProps Framing Mux Transports.

(** Names that print alike up to case compare alike. *)
Class NameEqLaws (DL : DnsLib) : Prop := {
  name_eq_printed a b c : to_ascii_lowercase (name_to_ascii a) = to_ascii_lowercase (name_to_ascii b) →
    name_eq_ignore_root a c = name_eq_ignore_root b c;
}.

(** ** Transports *)

Section transports.
Context {DL : DnsLib} {DC : DnsCodec}.

(** [trait Transport]: what [query] may return. *)
Definition Outcomes : Type := Message → result Message UpstreamError → Prop.
Class Transport (T : Outcomes) : Prop := transport_answers q m : T q (Ok m) → matches_query q m = true.

(** An exchange on a shared connection is the end of one of its exchanges. *)
Definition mux_outcome (kind : MuxKind) (proto_text : bytes) (q : Message) (m : Message) : Prop :=
  ∃ c k, mux_reachable kind proto_text c ∧ cn_waiters c !! k = Some {| w_query := q; w_state := Ended (Some (Ok m)) |}.
Lemma mux_outcome_matches kind text q m : mux_outcome kind text q m → matches_query q m = true.
Proof. intros (c & k & Hr & Hk). apply reachable_inv in Hr. by destruct (mi_ok _ Hr _ _ _ Hk). Qed.

Context (io_text proto_text : bytes).
(** [TcpTransport], [UdpTransport], [DotTransport], [DohTransport], [DoqTransport]. *)
Definition tcp_transport : Outcomes := λ q r, ∃ connected stream, r = tcp_query_once io_text proto_text connected q stream.
Definition shared_query (kind : MuxKind) : Outcomes := λ q r, ∃ is_dead dial exchange slot,
  (∀ n c m, exchange n c = Ok m → mux_outcome kind proto_text q m) ∧ r = (query_with_retry is_dead dial exchange slot).1.
Definition udp_transport : Outcomes := λ q r, ∃ udp tcp, shared_query MuxUdp q udp ∧ tcp_transport q tcp ∧ r = udp_query udp tcp.
Definition dot_transport : Outcomes := shared_query MuxDot.
Definition doh_transport : Outcomes := λ q r, ∃ now c3 c12 s3 s12 h h', doh_query proto_text now c3 c12 s3 s12 q h = Some (r, h').
Definition doq_transport : Outcomes := λ q r, ∃ connected exchange, r = doq_query proto_text connected exchange q.

#[export] Instance tcp_is_transport : Transport tcp_transport.
Proof. intros q m (conn & stream & H). symmetry in H. by eapply tcp_matches. Qed.
Lemma shared_is_transport kind : Transport (shared_query kind).
Proof.
  intros q m (is_dead & dial & exchange & slot & Hx & H). destruct (query_with_retry _ _ _ _) as [r slot'] eqn:E. simpl in H. subst r.
  eapply retry_matches; [|exact E]. intros n c r Hr. by eapply mux_outcome_matches, Hx.
Qed.
#[export] Instance dot_is_transport : Transport dot_transport := shared_is_transport MuxDot.
#[export] Instance udp_is_transport : Transport udp_transport.
Proof.
  intros q m (udp & tcp & Hu & (conn & stream & ->) & H). symmetry in H. eapply udp_matches; [|exact H].
  intros r ->. exact (shared_is_transport MuxUdp q r Hu).
Qed.
#[export] Instance doh_is_transport : Transport doh_transport.
Proof. intros q m (now & c3 & c12 & s3 & s12 & h & h' & H). by apply doh_matches in H as [? _]. Qed.
#[export] Instance doq_is_transport : Transport doq_transport.
Proof. intros q m (conn & exchange & H). symmetry in H. by eapply doq_matches. Qed.

(** [make_transport]: the transport of a specification. *)
Definition transport_of (k : TransportKind) : Outcomes :=
  match k with
  | TkUdp => udp_transport
  | TkTcp => tcp_transport
  | TkTls => dot_transport
  | TkHttps => doh_transport
  | TkQuic => doq_transport
  end.
#[export] Instance transport_of_is k : Transport (transport_of k).
Proof. destruct k; apply _. Qed.
End transports.

(** ** The pool *)

Section pool.
Context {DL : DnsLib} {DC : DnsCodec} {EL : EdnsLaws DL} {NE : NameEqLaws DL}.
Context (io_text proto_text : bytes).

(** An attempt is what the transport of its upstream made of the query, or ran into the
    pool's timeout. *)
Definition attempt_of (T : Outcomes) (q : Message) (a : Attempt) : Prop :=
  match a with AtReply m _ => T q (Ok m) | AtError e => T q (Err e) | AtTimeout => True end.
Definition upstream_transport (p : Pool) (up : nat) : Outcomes :=
  match pl_upstreams p !! up with
  | Some u => transport_of io_text proto_text (us_kind (up_spec u))
  | None => λ _ _, False
  end.
#[export] Instance upstream_is_transport p up : Transport (upstream_transport p up).
Proof. intros q m. unfold upstream_transport. destruct (pl_upstreams p !! up); [apply transport_of_is|done]. Qed.
Definition transported (s : System) (e : Event) : Prop :=
  match e with
  | EvAttempt f a _ => ∀ fl up, sy_flights s !! f = Some fl → loop_target (fl_loop fl) = Some up →
                         attempt_of (upstream_transport (sy_pool s) up) (fl_query fl) a
  | _ => True
  end.
Fixpoint transported_run (s : System) (es : list Event) : Prop :=
  match es with
  | [] => True
  | e :: es => transported s e ∧ transported_run (step s e) es
  end.

(** What a future has tried answers its query. *)
Definition answers (q : Message) (a : Attempt) : Prop := match a with AtReply m _ => matches_query q m = true | _ => True end.
Definition honest (fl : Flight) : Prop := Forall (answers (fl_query fl)) (fl_tried fl).
Lemma attempt_answers T q a : Transport T → attempt_of T q a → answers q a.
Proof. intros HT. destruct a; [apply HT|done..]. Qed.
Lemma step_honest s e : transported s e → Forall honest (sy_flights s) → Forall honest (sy_flights (step s e)).
Proof.
  intros He Hs. destruct e as [q|c|f a d|c|c|i a b d]; simpl; try done.
  - destruct (sy_calls s !! c) as [[q key| | |]|]; try done. unfold resolve_launch. destruct (ordered _) as [order p].
    cbn [with_pool sy_inflight]. destruct (alookup key _); [done|]. cbn [with_calls with_inflight with_flights sy_flights with_pool].
    apply Forall_app_2; [done|]. repeat constructor.
  - destruct (sy_flights s !! f) as [fl|] eqn:Ef; [|done]. destruct (loop_target (fl_loop fl)) as [up|] eqn:Eu; [|done].
    cbn [with_flights sy_flights]. apply Forall_insert; [done|]. pose proof (Forall_lookup_1 _ _ _ _ Hs Ef) as Hfl.
    apply Forall_app_2; [exact Hfl|]. constructor; [|constructor]. eapply attempt_answers; [apply upstream_is_transport|]. exact (He fl up Ef Eu).
  - destruct (sy_calls s !! c) as [[| q key f guard | | ]|]; try done. destruct (fl_loop <$> sy_flights s !! f) as [[]|]; try done.
    unfold drop_guard. by destruct guard.
  - destruct (sy_calls s !! c) as [[| q key f guard | | ]|]; try done. unfold drop_guard. by destruct guard.
Qed.
Lemma run_honest s es : transported_run s es → Forall honest (sy_flights s) → Forall honest (sy_flights (run s es)).
Proof. revert s. induction es as [|e es IH]; intros s; [done|]. intros [He Hr] Hs. apply IH; [done|]. by apply step_honest. Qed.

(** The outcome of the failover loop is one of the replies. *)
Lemma outcome_reply name l r : sequential_outcome name l = Ok r → ∃ up m rtt, (up, AtReply m rtt) ∈ l ∧ rs_message r = m.
Proof.
  assert (Hh : ∀ g, (∀ x r, g x = Some r → ∃ m rtt, x.2 = AtReply m rtt ∧ rs_message r = m) →
    head (omap g l) = Some r → ∃ up m rtt, (up, AtReply m rtt) ∈ l ∧ rs_message r = m).
  { intros g Hg H. apply head_Some_elem_of in H. apply list_elem_of_omap in H as ([up a] & Hin & Hx).
    destruct (Hg _ _ Hx) as (m & rtt & E & Hm). simpl in E. subst a. eauto. }
  unfold sequential_outcome, first_answer, first_reply. destruct (head (omap (attempt_answer name) l)) as [r1|] eqn:Ea.
  - intros [= ->]. eapply Hh; [|exact Ea]. intros [up [m rtt| |]] r'; unfold attempt_answer; simpl; [|done..].
    destruct (classify m); [|done..]. intros [= <-]. eauto.
  - destruct (head (omap (attempt_reply name) l)) as [r1|] eqn:Er; [|done]. intros [= ->]. eapply Hh; [|exact Er].
    intros [up [m rtt| |]] r'; unfold attempt_reply; simpl; [|done..]. intros [= <-]. eauto.
Qed.
Lemma matches_has_key q m : matches_query q m = true → is_Some (key_from_message q).
Proof. unfold matches_query, key_from_message. destruct (negb _); [done|]. destruct (head (msg_queries q)); [by eexists|done]. Qed.
(** Queries of one key are matched by the same responses. *)
Lemma matches_same_key q0 q m : key_from_message q0 = key_from_message q → is_Some (key_from_message q) →
  matches_query q0 m = true → matches_query q (set_id (msg_id q) m) = true.
Proof.
  unfold matches_query, key_from_message. cbn [set_id msg_id msg_queries]. rewrite (Z.eqb_refl (msg_id q)). cbn [negb].
  destruct (head (msg_queries q0)) as [x0|], (head (msg_queries q)) as [x|]; simpl; try (intros ? [? ?]; done).
  intros [= En Et Ec _ _] _. destruct (negb _); [done|]. destruct (head (msg_queries m)) as [y|]; [|done].
  by rewrite Et, Ec, (name_eq_printed _ _ (q_name y) En).
Qed.

(** A message answers a query: it has its id and, when it has a question at all, a first question
    with the name (as hickory compares names), the type and the class of the query's. *)
Definition answers_question (q m : Message) : Prop :=
  msg_id m = msg_id q ∧ ∃ x, head (msg_queries q) = Some x ∧
    (msg_queries m = [] ∨ ∃ y, head (msg_queries m) = Some y ∧ q_type y = q_type x ∧ q_class y = q_class x
                              ∧ name_eq_ignore_root (q_name x) (q_name y) = true).
Lemma matches_answers q m : matches_query q m = true → answers_question q m.
Proof.
  unfold matches_query, answers_question. destruct (Z.eqb_spec (msg_id q) (msg_id m)) as [E|]; [|done]. cbn [negb].
  destruct (msg_queries q) as [|x xs]; [done|]. cbn [head]. intros H. split; [done|]. exists x. split; [done|].
  destruct (msg_queries m) as [|y ys]; [by left|]. right. exists y. cbn [head] in H. apply andb_prop in H as [H Hn]. apply andb_prop in H as [Ht Hc].
  apply Z.eqb_eq in Ht, Hc. by split_and!.
Qed.

(** C31: the pool over its transports returns answers to the questions asked.  Over every
    interleaving of calls, cancellations and attempts, each of which is what the transport of
    its upstream made of whatever the network sent, a call of [resolve] that succeeds returns
    a message with the id of its own query which either has the name, the type and the class of
    that query in its first question or has no question section at all (which the transports
    let pass), also when the call was coalesced with another one and whichever upstream
    answered. *)
Theorem resolve_answers_the_question p es c q r :
  transported_run (system_new p) es → sy_calls (run (system_new p) es) !! c = Some (ClReturned q (Ok r)) →
  answers_question q (rs_message r).
Proof.
  intros Ht Hc. pose proof (run_honest _ _ Ht ltac:(constructor)) as Hh. destruct (run_ok p es) as [_ _ Hcalls _ _ _ _].
  rewrite Forall_lookup in Hcalls. destruct (Hcalls _ _ Hc) as [(f & fl & res & Hf & Hk & [_ Hd] & Hr)|[[_ ?]|[_ ?]]]; [|done..].
  destruct res as [r0|]; [|done]. injection Hr as ->. symmetry in Hd. apply outcome_reply in Hd as (up & m & rtt & Hin & Hm).
  assert (Hma : matches_query (fl_query fl) m = true).
  { apply (proj1 (Forall_forall _ _) (Forall_lookup_1 _ _ _ _ Hh Hf)) with (x := AtReply m rtt). by eapply elem_of_zip_r. }
  apply matches_answers. simpl. rewrite Hm. eapply matches_same_key; [exact Hk| |exact Hma].
  rewrite <- Hk. by eapply matches_has_key.
Qed.
End pool.

(** ** Witness *)

#[export] Instance small_name_eq : NameEqLaws small_dns.
Proof. constructor. intros a b c H. cbn [name_eq_ignore_root small_dns name_to_ascii] in *. by rewrite H. Qed.

(** Two calls share one future; its TCP upstream first sends a stray message. *)
Definition tcp_upstream : Upstream :=
  {| up_spec := {| us_kind := TkTcp; us_host := HostName (bs "up"); us_port := 53; us_path := []; us_force_http3 := false;
                   us_display := bs "up" |}; up_name := bs "up" |}.
Definition tcp_pool : Pool := pool_of [tcp_upstream] pool_settings_default.
Definition asked (id : Z) : Message := set_id id mux_query.
Definition tcp_replies : bytes :=
  frame (default [] (msg_to_vec (asked 7))) ++ frame (default [] (msg_to_vec (asked 1))).
Definition tcp_events : list Event :=
  [EvEnter (asked 1); EvLaunch 0; EvEnter (asked 2); EvAttempt 0 (AtReply (asked 1) 1000) {| dw_now := 0; dw_jitter := λ z, z; dw_startup := λ z, z |};
   EvReturn 1].
Lemma resolve_answers_the_question_witness :
  ∃ r, sy_calls (run (system_new tcp_pool) tcp_events) !! 1 = Some (ClReturned (asked 2) (Ok r))
    ∧ answers_question (asked 2) (rs_message r).
Proof.
  set (r := {| rs_message := asked 2; rs_upstream := bs "up"; rs_rtt_ms := rtt_millis 1000 |}).
  assert (Hc : sy_calls (run (system_new tcp_pool) tcp_events) !! 1 = Some (ClReturned (asked 2) (Ok r))) by vm_refl.
  exists r. split; [exact Hc|].
  apply (resolve_answers_the_question [] [] tcp_pool tcp_events 1 (asked 2) r); [|exact Hc].
  cbn [transported_run tcp_events]. set (st := step (step (step (system_new tcp_pool) _) _) _).
  split; [exact I|]. split; [exact I|]. split; [exact I|]. split; [|split; [exact I|exact I]]. intros fl up Hf Hu.
  assert (Hs : (λ fl, (fl_query fl, loop_target (fl_loop fl))) <$> (sy_flights st !! 0) = Some (asked 1, Some 0)) by vm_refl.
  assert (Hp : pl_upstreams (sy_pool st) !! 0 = Some tcp_upstream) by vm_refl.
  rewrite Hf in Hs. injection Hs as Hq Hup. rewrite Hu in Hup. injection Hup as ->. unfold attempt_of, upstream_transport.
  rewrite Hp, Hq. exists (Ok ()), tcp_replies. vm_refl.
Defined.
