(* ===== verification/Store.v ===== *)
(** * server: the query-log and probe stores ([store.rs], [probe_store.rs]).

    The values bound to the statements, the rows read back, and the text of the statements with
    their parameters.  The database is an external crate; [Sql] says what the statements mean,
    [StoreDb] has the operations of the stores. *)
From Stdlib Require Import Ascii.
From S2P Require Import Prelude RustStr RustNet RustFloat Rule Parser Compiler Clients QueryLog Spec ProbeLog Dto.

(** [turso::Value]. *)
Inductive Value : Type := VNull | VInteger (z : Z) | VReal (r : f64) | VText (s : bytes).
Definition opt_text (v : Value) : option bytes := match v with VText s => Some s | _ => None end.
Definition opt_int (v : Value) : option Z := match v with VInteger z => Some z | _ => None end.
Definition opt_real (v : Value) : option f64 :=
  match v with VReal r => Some r | VInteger z => Some (f64_of z) | _ => None end.
(** [row.get(i)?] at a type. *)
Definition get_text (row : list Value) (i : nat) : option bytes := row !! i ≫= opt_text.
Definition get_int (row : list Value) (i : nat) : option Z := row !! i ≫= opt_int.
Definition get_real (row : list Value) (i : nat) : option f64 :=
  row !! i ≫= λ v, match v with VReal r => Some r | _ => None end.

(** Casts between widths. *)
Definition as_i64 (z : Z) : Z := if (z <? 2 ^ 63)%Z then z else (z - 2 ^ 64)%Z.
Definition bool_int (b : bool) : Z := if b then 1 else 0.
Definition or_null {A} (f : A → Value) (o : option A) : Value := match o with Some a => f a | None => VNull end.

(** ** Query log rows *)

Section rows.
Context (answers_json : list bytes → option bytes) (answers_of_json : bytes → option (list bytes)).

(** [insert_params]: the order of the INSERT statement. *)
Definition insert_params (e : QueryLogEntry) : list Value :=
  let '(action, upstream, rule, list_id) := action_columns (le_action e) in
  [VInteger (le_time_ms e); VText (le_client_ip e); VText (le_question e); VText (le_qtype e); VText action;
   VInteger (bool_int (entry_is_blocked e)); or_null VText upstream; or_null VText rule; or_null VInteger list_id;
   VInteger (bool_int (le_allowlisted e)); VText (le_rcode e); VText (default (bs "[]") (answers_json (le_answers e)));
   VReal (le_elapsed_ms e)].
(** The row the SELECT of [query] yields for stored values: the id first, without [blocked]. *)
Definition selected (id : Z) (stored : list Value) : list Value := VInteger id :: take 5 stored ++ drop 6 stored.
(** [row_to_entry]. *)
Definition row_action (action : bytes) (upstream rule : option bytes) (list_id : option Z) : QueryAction :=
  if bool_decide (action = bs "forwarded") then QaForwarded (default [] upstream)
  else if bool_decide (action = bs "blocked") then QaBlocked (default [] rule) (default 0%Z list_id)
  else if bool_decide (action = bs "rewritten") then QaRewritten (default [] rule) (default 0%Z list_id)
  else if bool_decide (action = bs "error") then QaError
  else QaCached.
Definition row_to_entry (row : list Value) : option QueryLogEntry :=
  let! action := get_text row 5 in
  let! upstream := opt_text <$> row !! 6 in
  let! rule := opt_text <$> row !! 7 in
  let! list_id := opt_int <$> row !! 8 in
  let answers := default [] (get_text row 11 ≫= answers_of_json) in
  let! id := get_int row 0 in
  let! time_ms := get_int row 1 in
  let! client_ip := get_text row 2 in
  let! question := get_text row 3 in
  let! qtype := get_text row 4 in
  let! allowlisted := get_int row 9 in
  let! rcode := get_text row 10 in
  let! elapsed_ms := get_real row 12 in
  Some {| le_id := wrap 64 id; le_time_ms := time_ms; le_client_ip := client_ip; le_question := question; le_qtype := qtype;
          le_action := row_action action upstream rule (wrap 32 <$> list_id); le_allowlisted := negb (allowlisted =? 0)%Z;
          le_rcode := rcode; le_answers := answers; le_elapsed_ms := elapsed_ms |}.
End rows.

(** ** Probe rows *)

(** [insert_params] and [row_to_event]. *)
Definition event_params (e : ProbeEvent) : list Value :=
  [VInteger (pe_time_ms e); VText (pe_upstream e); VText (pe_name e); VText (kind_as_str (pe_kind e));
   VText (outcome_as_str (pe_outcome e)); or_null VReal (pe_rtt_ms e); or_null VReal (pe_first_rtt_ms e);
   or_null VReal (pe_ewma_ms e); VInteger (bool_int (pe_up e)); VInteger (pe_consecutive_failures e);
   or_null VText (pe_detail e); or_null (λ k, VText (error_kind_as_str k)) (pe_error_kind e);
   or_null VReal (pe_live_ewma_ms e); VInteger (as_i64 (pe_live_queries e)); VInteger (as_i64 (pe_live_failures e));
   or_null VInteger (pe_rank e); VInteger (bool_int (pe_lead_held e))].
Definition row_to_event (row : list Value) : option ProbeEvent :=
  let! time_ms := get_int row 0 in
  let! upstream := get_text row 1 in
  let! name := get_text row 2 in
  let! kind := get_text row 3 in
  let! outcome := get_text row 4 in
  let! rtt := opt_real <$> row !! 5 in
  let! first := opt_real <$> row !! 6 in
  let! ewma := opt_real <$> row !! 7 in
  let! up := get_int row 8 in
  let! failures := get_int row 9 in
  let! detail := opt_text <$> row !! 10 in
  let! kind_text := opt_text <$> row !! 11 in
  let! live_ewma := opt_real <$> row !! 12 in
  let! queries := get_int row 13 in
  let! live_failures := get_int row 14 in
  let! rank := opt_int <$> row !! 15 in
  let! held := get_int row 16 in
  Some {| pe_time_ms := time_ms; pe_upstream := upstream; pe_name := name; pe_kind := kind_from_label kind;
          pe_outcome := outcome_from_label outcome; pe_rtt_ms := rtt; pe_first_rtt_ms := first; pe_ewma_ms := ewma;
          pe_up := negb (up =? 0)%Z; pe_consecutive_failures := wrap 32 failures; pe_detail := detail;
          pe_error_kind := error_kind_from_label <$> kind_text; pe_live_ewma_ms := live_ewma;
          pe_live_queries := wrap 64 queries; pe_live_failures := wrap 64 live_failures; pe_rank := wrap 16 <$> rank;
          pe_lead_held := negb (held =? 0)%Z |}.

(** [recent]: the statement's tail and its parameters. *)
Definition recent_where (since_ms : option Z) (limit : Z) : bytes * list Value :=
  let '(where_sql, params) := match since_ms with
                              | Some ms => (bs " WHERE time_ms >= ?1", [VInteger ms])
                              | None => ([], [])
                              end in
  (where_sql ++ bs " ORDER BY id DESC LIMIT ?" ++ show_dec (Z.of_nat (length params) + 1), params ++ [VInteger limit]).

(** ** The WHERE clause *)

(** [like_escape]. *)
Definition BACKSLASH : byte := "\"%char.
Definition is_like_meta (c : byte) : bool :=
  bool_decide (c = BACKSLASH) || bool_decide (c = "%"%char) || bool_decide (c = "_"%char).
Definition like_escape (s : bytes) : bytes := mjoin ((λ c, if is_like_meta c then [BACKSLASH; c] else [c]) <$> s).
Definition like_pattern (s : bytes) : Value := VText (bs "%" ++ like_escape s ++ bs "%").
Definition placeholder (n : nat) : bytes := bs "?" ++ show_dec (Z.of_nat n).
Definition nonempty (o : option bytes) : option bytes := match o with Some [] => None | _ => o end.

(** [distinct_client_ips_matching]: the stored addresses whose current client name contains
    the needle. *)
Fixpoint matching_ips `{IpNetLib} (clients : ClientMatcher) (needle : bytes) (ips : list bytes) : option (list bytes) :=
  match ips with
  | [] => Some []
  | ip :: ips =>
      let! name := name_for_str clients ip in
      let! rest := matching_ips clients needle ips in
      Some (match name with
            | Some n => if is_some (find_str needle (to_ascii_lowercase n)) then ip :: rest else rest
            | None => rest
            end)
  end.
(** [build_where]; [name_ips] is the result of [distinct_client_ips_matching]. *)
Definition build_where (f : LogFilter) (name_ips : list bytes) : bytes * list Value :=
  let clauses := if lf_blocked_only f then [bs "blocked = 1"] else [] in
  let '(clauses, params) :=
    match nonempty (lf_search f) with
    | Some search => (clauses ++ [bs "question LIKE " ++ placeholder 1 ++ bs " ESCAPE '\'"], [like_pattern search])
    | None => (clauses, [])
    end in
  let '(clauses, params) :=
    match nonempty (lf_client f) with
    | Some client =>
        let params := params ++ [like_pattern client] in
        let ip_like := bs "client_ip LIKE " ++ placeholder (length params) ++ bs " ESCAPE '\'" in
        match name_ips with
        | [] => (clauses ++ [ip_like], params)
        | _ =>
            let start := length params in
            let marks := imap (λ i _, placeholder (start + i + 1)) name_ips in
            (clauses ++ [bs "(" ++ ip_like ++ bs " OR client_ip IN (" ++ join (bs ", ") marks ++ bs "))"],
             params ++ (VText <$> name_ips))
        end
    | None => (clauses, params)
    end in
  (match clauses with [] => [] | _ => bs " WHERE " ++ join (bs " AND ") clauses end, params).
(** [query]: the two statements and the parameters of the second. *)
Definition page_query (f : LogFilter) (name_ips : list bytes) (offset limit : Z) : bytes * bytes * list Value :=
  let '(where_sql, params) := build_where f name_ips in
  (bs "SELECT COUNT(*) FROM queries" ++ where_sql,
   bs "SELECT id, time_ms, client_ip, question, qtype, action, upstream, rule, list_id, allowlisted, rcode, answers, elapsed_ms FROM queries"
     ++ where_sql ++ bs " ORDER BY id DESC LIMIT " ++ placeholder (length params + 1) ++ bs " OFFSET " ++ placeholder (length params + 2),
   params ++ [VInteger limit; VInteger offset]).
