(* ===== verification/Sql.v ===== *)
(** * The SQL the stores issue: its syntax and what the statements mean.

    The database engine is an external crate ([turso]).  The stores hand it texts; this file
    reads those texts ([sql_parse]) and says what a statement of the fragment does to a table of
    rows under an integer key ([select_rows], [delete_rows]).  [SqlDb] is the connection as the
    stores use it, [SqlDbLaws] the documented behaviour of the statements that parse: a
    statement may fail at any time, but one that succeeds does what it says. *)
From Stdlib Require Import Ascii.
From S2P Require Import Prelude RustStr RustNet RustFloat Rule Parser Compiler Clients QueryLog Spec ProbeLog Dto Store.

(** LIKE with an escape character: what a pattern asks of a text. *)
Inductive LikeTok : Type := LtAny | LtOne | LtChar (c : byte).
Fixpoint like_tokens (p : bytes) : list LikeTok :=
  match p with
  | [] => []
  | c :: p =>
      if bool_decide (c = BACKSLASH) then match p with [] => [] | d :: p => LtChar d :: like_tokens p end
      else if bool_decide (c = "%"%char) then LtAny :: like_tokens p
      else if bool_decide (c = "_"%char) then LtOne :: like_tokens p
      else LtChar c :: like_tokens p
  end.
Fixpoint like_match (ts : list LikeTok) (text : bytes) : Prop :=
  match ts with
  | [] => text = []
  | LtAny :: ts => ∃ a b, text = a ++ b ∧ like_match ts b
  | LtOne :: ts => ∃ x t, text = x :: t ∧ like_match ts t
  | LtChar c :: ts => ∃ x t, text = x :: t ∧ lower_byte x = lower_byte c ∧ like_match ts t
  end.
Definition like_sql (v : Value) (text : bytes) : Prop := match v with VText p => like_match (like_tokens p) text | _ => False end.

(** ** Syntax *)

Inductive Operand : Type := OParam (n : nat) | OInt (z : Z).
Inductive CmpOp : Type := CmpEq | CmpLt | CmpGe.
Inductive Cond : Type :=
| CCmp (col : bytes) (op : CmpOp) (x : Operand)
| CLike (col : bytes) (n : nat)
| CIn (col : bytes) (ns : list nat)
| COr (a b : Cond).
Inductive Columns : Type := ColCount | ColDistinct (col : bytes) | ColList (cols : list bytes).
Inductive Order : Type := Ascending | Descending.
Record Select : Type := {
  sl_columns : Columns; sl_table : bytes; sl_where : list Cond; sl_order : option Order;
  sl_limit : option Operand; sl_offset : option Operand;
}.
Inductive Stmt : Type :=
| SBegin | SCommit | SRollback
| SInsert (table : bytes) (cols : list bytes) (values : nat)
| SDelete (table : bytes) (where_ : list Cond)
| SSelect (q : Select).
#[export] Instance float_eq : EqDecision f64.
Proof. solve_decision. Defined.
#[export] Instance value_eq : EqDecision Value.
Proof. solve_decision. Defined.
#[export] Instance operand_eq : EqDecision Operand.
Proof. solve_decision. Defined.
#[export] Instance cmp_eq : EqDecision CmpOp.
Proof. solve_decision. Defined.
#[export] Instance cond_eq : EqDecision Cond.
Proof. solve_decision. Defined.
#[export] Instance columns_eq : EqDecision Columns.
Proof. solve_decision. Defined.
#[export] Instance order_eq : EqDecision Order.
Proof. solve_decision. Defined.
#[export] Instance select_eq : EqDecision Select.
Proof. solve_decision. Defined.
#[export] Instance stmt_eq : EqDecision Stmt.
Proof. solve_decision. Defined.

(** ** Reading a text *)

(** Words are separated by white space; parentheses, commas and semicolons stand alone. *)
Definition is_blank (c : byte) : bool := bool_decide (c = " "%char) || bool_decide (c = LF).
Definition is_punct (c : byte) : bool :=
  bool_decide (c = "("%char) || bool_decide (c = ")"%char) || bool_decide (c = ","%char) || bool_decide (c = ";"%char).
Definition flush (acc : bytes) : list bytes := match acc with [] => [] | _ => [acc] end.
Fixpoint lex (acc s : bytes) : list bytes :=
  match s with
  | [] => flush acc
  | c :: s =>
      if is_blank c then flush acc ++ lex [] s
      else if is_punct c then flush acc ++ [c] :: lex [] s
      else lex (acc ++ [c]) s
  end.

Definition kw (t : bytes) (s : string) : bool := bool_decide (t = bs s).
(** [?n] and the parameter-less [?]. *)
Definition parse_param (t : bytes) : option nat :=
  match t with
  | c :: d :: ds => if bool_decide (c = "?"%char) then Z.to_nat <$> digits_val 0 (d :: ds) else None
  | _ => None
  end.
Definition parse_operand (t : bytes) : option Operand :=
  match parse_param t with
  | Some n => Some (OParam n)
  | None => OInt <$> parse_uint 63 t
  end.
Definition parse_cmp (t : bytes) : option CmpOp :=
  if kw t "=" then Some CmpEq else if kw t "<" then Some CmpLt else if kw t ">=" then Some CmpGe else None.
(** The placeholders of IN, up to the closing parenthesis. *)
Fixpoint parse_params (ts : list bytes) : option (list nat * list bytes) :=
  match ts with
  | p :: sep :: ts =>
      let! n := parse_param p in
      if kw sep ")" then Some ([n], ts)
      else if kw sep "," then let! (ns, ts) := parse_params ts in Some (n :: ns, ts)
      else None
  | _ => None
  end.
Definition parse_simple (ts : list bytes) : option (Cond * list bytes) :=
  match ts with
  | col :: op :: ts =>
      if kw op "LIKE" then
        match ts with
        | p :: e :: q :: ts => let! n := parse_param p in if kw e "ESCAPE" && kw q "'\'" then Some (CLike col n, ts) else None
        | _ => None
        end
      else if kw op "IN" then
        match ts with
        | o :: ts => if kw o "(" then let! (ns, ts) := parse_params ts in Some (CIn col ns, ts) else None
        | _ => None
        end
      else match ts with
           | x :: ts => let! op := parse_cmp op in let! x := parse_operand x in Some (CCmp col op x, ts)
           | _ => None
           end
  | _ => None
  end.
Definition parse_cond (ts : list bytes) : option (Cond * list bytes) :=
  match ts with
  | o :: rest =>
      if kw o "(" then
        let! (a, ts) := parse_simple rest in
        match ts with
        | k :: ts =>
            if kw k "OR" then
              let! (b, ts) := parse_simple ts in
              match ts with c :: ts => if kw c ")" then Some (COr a b, ts) else None | _ => None end
            else None
        | _ => None
        end
      else parse_simple ts
  | _ => None
  end.
(** The conditions of a WHERE clause; every condition takes tokens, so their number is fuel. *)
Fixpoint parse_conds (fuel : nat) (ts : list bytes) : option (list Cond * list bytes) :=
  match fuel with
  | 0 => None
  | S fuel =>
      let! (c, ts) := parse_cond ts in
      match ts with
      | k :: rest => if kw k "AND" then let! (cs, ts) := parse_conds fuel rest in Some (c :: cs, ts) else Some ([c], ts)
      | [] => Some ([c], [])
      end
  end.
Definition parse_where (ts : list bytes) : option (list Cond * list bytes) :=
  match ts with
  | k :: rest => if kw k "WHERE" then parse_conds (length rest) rest else Some ([], ts)
  | [] => Some ([], [])
  end.
(** [c1, c2, ...]. *)
Fixpoint parse_words (ts : list bytes) : option (list bytes * list bytes) :=
  match ts with
  | w :: rest =>
      match rest with
      | sep :: ts => if kw sep "," then let! (ws, ts) := parse_words ts in Some (w :: ws, ts) else Some ([w], rest)
      | [] => Some ([w], [])
      end
  | [] => None
  end.
Definition parse_columns (ts : list bytes) : option (Columns * list bytes) :=
  match ts with
  | w :: rest =>
      if kw w "COUNT" then
        match rest with
        | o :: s :: c :: ts => if kw o "(" && kw s "*" && kw c ")" then Some (ColCount, ts) else None
        | _ => None
        end
      else if kw w "DISTINCT" then match rest with c :: ts => Some (ColDistinct c, ts) | _ => None end
      else let! (ws, ts) := parse_words ts in Some (ColList ws, ts)
  | [] => None
  end.
Definition parse_order (ts : list bytes) : option (option Order * list bytes) :=
  match ts with
  | k :: rest =>
      if kw k "ORDER" then
        match rest with
        | b :: i :: d :: ts =>
            if kw b "BY" && kw i "id" then
              if kw d "DESC" then Some (Some Descending, ts) else if kw d "ASC" then Some (Some Ascending, ts) else None
            else None
        | _ => None
        end
      else Some (None, ts)
  | [] => Some (None, [])
  end.
Definition parse_bound (word : string) (ts : list bytes) : option (option Operand * list bytes) :=
  match ts with
  | k :: rest =>
      if kw k word then match rest with x :: ts => let! x := parse_operand x in Some (Some x, ts) | _ => None end
      else Some (None, ts)
  | [] => Some (None, [])
  end.
Definition parse_select (ts : list bytes) : option Select :=
  let! (cols, ts) := parse_columns ts in
  match ts with
  | f :: table :: ts =>
      if kw f "FROM" then
        let! (conds, ts) := parse_where ts in
        let! (order, ts) := parse_order ts in
        let! (limit, ts) := parse_bound "LIMIT" ts in
        let! (offset, ts) := parse_bound "OFFSET" ts in
        match ts with
        | [] => Some {| sl_columns := cols; sl_table := table; sl_where := conds; sl_order := order; sl_limit := limit; sl_offset := offset |}
        | _ => None
        end
      else None
  | _ => None
  end.
(** [(?,?,...)]. *)
Fixpoint parse_marks (ts : list bytes) : option nat :=
  match ts with
  | q :: sep :: ts => if kw q "?" then if kw sep "," then S <$> parse_marks ts else if kw sep ")" then match ts with [] => Some 1 | _ => None end else None else None
  | _ => None
  end.
Definition parse_insert (ts : list bytes) : option Stmt :=
  match ts with
  | table :: o :: ts =>
      if kw o "(" then
        let! (cols, ts) := parse_words ts in
        match ts with
        | c :: v :: o :: ts => if kw c ")" && kw v "VALUES" && kw o "(" then SInsert table cols <$> parse_marks ts else None
        | _ => None
        end
      else None
  | _ => None
  end.
Definition parse_stmt (ts : list bytes) : option Stmt :=
  match ts with
  | [k; m] => if kw k "BEGIN" && kw m "IMMEDIATE" then Some SBegin else None
  | [k] => if kw k "COMMIT" then Some SCommit else if kw k "ROLLBACK" then Some SRollback else None
  | k :: w :: table :: rest =>
      if kw k "SELECT" then SSelect <$> parse_select (w :: table :: rest)
      else if kw k "INSERT" && kw w "INTO" then parse_insert (table :: rest)
      else if kw k "DELETE" && kw w "FROM" then
        let! (conds, ts) := parse_where rest in match ts with [] => Some (SDelete table conds) | _ => None end
      else None
  | _ => None
  end.
Definition sql_parse (text : bytes) : option Stmt := parse_stmt (lex [] text).

(** ** Tables *)

Inductive ColType : Type := TyInteger | TyText | TyReal.
Record Column : Type := { cl_name : bytes; cl_type : ColType; cl_nullable : bool }.
(** The table behind its integer primary key [id]. *)
Record Schema : Type := { sc_table : bytes; sc_columns : list Column }.
Abbreviation Row := (Z * list Value)%type (only parsing).

(** CREATE TABLE, read from its text. *)
Definition parse_type (t : bytes) : option ColType :=
  if kw t "INTEGER" then Some TyInteger else if kw t "TEXT" then Some TyText else if kw t "REAL" then Some TyReal else None.
Fixpoint parse_column_defs (ts : list bytes) : option (list Column) :=
  match ts with
  | name :: ty :: sep :: rest =>
      let! ty := parse_type ty in
      if kw sep "," then cons {| cl_name := name; cl_type := ty; cl_nullable := true |} <$> parse_column_defs rest
      else if kw sep ")" then Some [{| cl_name := name; cl_type := ty; cl_nullable := true |}]
      else match rest with
           | nul :: sep' :: rest =>
               if kw sep "NOT" && kw nul "NULL" then
                 if kw sep' "," then cons {| cl_name := name; cl_type := ty; cl_nullable := false |} <$> parse_column_defs rest
                 else if kw sep' ")" then Some [{| cl_name := name; cl_type := ty; cl_nullable := false |}] else None
               else None
           | _ => None
           end
  | _ => None
  end.
Definition starts_tokens (ws : list string) (ts : list bytes) : bool := bool_decide (take (length ws) ts = (bs <$> ws)).
Definition parse_create (text : bytes) : option Schema :=
  let ts := lex [] text in
  if starts_tokens ["CREATE"; "TABLE"; "IF"; "NOT"; "EXISTS"]%string ts then
    match drop 5 ts with
    | table :: ts =>
        if starts_tokens ["("; "id"; "INTEGER"; "PRIMARY"; "KEY"; ","]%string ts then
          let! cols := parse_column_defs (drop 6 ts) in Some {| sc_table := table; sc_columns := cols |}
        else None
    | [] => None
    end
  else None.

(** ** What a statement does *)

Definition value_typed (c : Column) (v : Value) : bool :=
  match v, cl_type c with
  | VNull, _ => cl_nullable c
  | VInteger _, TyInteger | VText _, TyText | VReal _, TyReal => true
  | _, _ => false
  end.
Fixpoint values_typed (cs : list Column) (vs : list Value) : bool :=
  match cs, vs with
  | [], [] => true
  | c :: cs, v :: vs => value_typed c v && values_typed cs vs
  | _, _ => false
  end.

Section tables.
Context (sch : Schema).
Definition column (row : Row) (col : bytes) : option Value :=
  if bool_decide (col = bs "id") then Some (VInteger row.1)
  else let! i := list_find (λ c, cl_name c = col) (sc_columns sch) in row.2 !! i.1.
(** Placeholders count from one. *)
Definition param (ps : list Value) (n : nat) : option Value := match n with 0 => None | S n => ps !! n end.
Definition operand (ps : list Value) (x : Operand) : option Value :=
  match x with OParam n => param ps n | OInt z => Some (VInteger z) end.
Definition cmp (op : CmpOp) (a b : Z) : bool :=
  match op with CmpEq => (a =? b)%Z | CmpLt => (a <? b)%Z | CmpGe => (b <=? a)%Z end.
(** LIKE as a test. *)
Fixpoint like_b (ts : list LikeTok) (text : bytes) : bool :=
  match ts with
  | [] => bool_decide (text = [])
  | LtAny :: ts => (fix any t := like_b ts t || match t with [] => false | _ :: t => any t end) text
  | LtOne :: ts => match text with _ :: t => like_b ts t | [] => false end
  | LtChar c :: ts => match text with x :: t => bool_decide (lower_byte x = lower_byte c) && like_b ts t | [] => false end
  end.
(** A condition on a row; an operand that is missing or of another type makes it undefined. *)
Fixpoint cond_holds (ps : list Value) (row : Row) (c : Cond) : option bool :=
  match c with
  | CCmp col op x =>
      let! v := column row col in let! w := operand ps x in
      let! a := opt_int v in let! b := opt_int w in Some (cmp op a b)
  | CLike col n =>
      let! v := column row col in let! w := param ps n in
      let! text := opt_text v in let! pat := opt_text w in Some (like_b (like_tokens pat) text)
  | CIn col ns =>
      let! v := column row col in let! text := opt_text v in
      let! ws := mapM (λ n, param ps n ≫= opt_text) ns in Some (bool_decide (text ∈ ws))
  | COr a b => let! x := cond_holds ps row a in let! y := cond_holds ps row b in Some (x || y)
  end.
Fixpoint conds_hold (ps : list Value) (row : Row) (cs : list Cond) : option bool :=
  match cs with
  | [] => Some true
  | c :: cs => let! x := cond_holds ps row c in let! y := conds_hold ps row cs in Some (x && y)
  end.
(** The rows that satisfy a clause that is defined on all of them. *)
Fixpoint where_rows (ps : list Value) (cs : list Cond) (rows : list Row) : option (list Row) :=
  match rows with
  | [] => Some []
  | r :: rows =>
      let! b := conds_hold ps r cs in let! rest := where_rows ps cs rows in
      Some (if (b : bool) then r :: rest else rest)
  end.
(** LIMIT below zero is no limit, OFFSET below zero is none. *)
Definition limited (limit : option Z) (offset : option Z) {A} (l : list A) : list A :=
  let l := match offset with Some z => drop (Z.to_nat z) l | None => l end in
  match limit with Some z => if (z <? 0)%Z then l else take (Z.to_nat z) l | None => l end.
Definition bound (ps : list Value) (o : option Operand) : option (option Z) :=
  match o with None => Some None | Some x => let! v := operand ps x in Some <$> opt_int v end.
(** What a SELECT may return on the rows in key order: without an ORDER BY the order is open. *)
Definition select_rows (q : Select) (ps : list Value) (rows : list Row) (out : list (list Value)) : Prop :=
  ∃ sel limit offset, where_rows ps (sl_where q) rows = Some sel
  ∧ bound ps (sl_limit q) = Some limit ∧ bound ps (sl_offset q) = Some offset
  ∧ match sl_columns q with
    | ColCount => out = limited limit offset [[VInteger (Z.of_nat (length sel))]]
    | ColDistinct col => sl_limit q = None ∧ sl_offset q = None ∧ ∃ vs, mapM (λ r, column r col) sel = Some vs ∧ NoDup out ∧ (∀ v, [v] ∈ out ↔ v ∈ vs) ∧ Forall (λ o, length o = 1) out
    | ColList cols => ∃ outs, mapM (λ r, mapM (column r) cols) sel = Some outs
        ∧ match sl_order q with
          | Some Ascending => out = limited limit offset outs
          | Some Descending => out = limited limit offset (reverse outs)
          | None => ∃ outs', outs' ≡ₚ outs ∧ out = limited limit offset outs'
          end
    end.
(** What DELETE leaves. *)
Fixpoint delete_rows (ps : list Value) (cs : list Cond) (rows : list Row) : option (list Row) :=
  match rows with
  | [] => Some []
  | r :: rows =>
      let! b := conds_hold ps r cs in let! rest := delete_rows ps cs rows in
      Some (if (b : bool) then rest else r :: rest)
  end.
(** INSERT binds its values to the named columns in order; every column is named. *)
Definition insert_matches (cols : list bytes) (values : nat) : bool :=
  bool_decide (cols = (cl_name <$> sc_columns sch)) && (values =? length cols).
End tables.

(** ** The connection *)

Class SqlDb (db : Type) : Type := {
  d_exec : bytes → list Value → db → result Z bytes * db;
  d_query : bytes → list Value → db → result (list (list Value)) bytes;
  (** The committed rows, and the rows of the open transaction, in key order. *)
  d_rows : db → list Row;
  d_tx : db → option (list Row);
}.
Definition MAX_ROWID : Z := 9223372036854775807.
Class SqlDbLaws (db : Type) {SD : SqlDb db} (sch : Schema) : Prop := {
  d_begin_ok sql d n d' : sql_parse sql = Some SBegin → d_exec sql [] d = (Ok n, d') →
    d_tx d = None ∧ d_rows d' = d_rows d ∧ d_tx d' = Some (d_rows d);
  d_begin_err sql d e d' : sql_parse sql = Some SBegin → d_exec sql [] d = (Err e, d') → d' = d;
  d_insert_ok sql cols k ps d n d' t : sql_parse sql = Some (SInsert (sc_table sch) cols k) → insert_matches sch cols k = true →
    d_exec sql ps d = (Ok n, d') → d_tx d = Some t → Forall (λ r : Row, (r.1 < MAX_ROWID)%Z) t →
    d_rows d' = d_rows d ∧ ∃ id, d_tx d' = Some (t ++ [(id, ps)]) ∧ (0 < id)%Z ∧ Forall (λ r : Row, (r.1 < id)%Z) t
      ∧ (id = 1 ∨ ∃ r, r ∈ t ∧ id = r.1 + 1)%Z;
  d_commit_ok sql d n d' : sql_parse sql = Some SCommit → d_exec sql [] d = (Ok n, d') →
    d_tx d = Some (d_rows d') ∧ d_tx d' = None;
  d_rollback_ok sql d n d' : sql_parse sql = Some SRollback → d_exec sql [] d = (Ok n, d') → d_rows d' = d_rows d ∧ d_tx d' = None;
  d_delete_ok sql conds ps d n d' rest : sql_parse sql = Some (SDelete (sc_table sch) conds) → d_exec sql ps d = (Ok n, d') →
    d_tx d = None → delete_rows sch ps conds (d_rows d) = Some rest →
    d_rows d' = rest ∧ d_tx d' = None ∧ n = Z.of_nat (length (d_rows d) - length rest);
  d_delete_err sql conds ps d e d' : sql_parse sql = Some (SDelete (sc_table sch) conds) → d_exec sql ps d = (Err e, d') →
    d_tx d = None → d_tx d' = None;
  d_exec_err sql st ps d e d' : sql_parse sql = Some st → d_exec sql ps d = (Err e, d') → d_rows d' = d_rows d;
  d_query_ok sql q ps d out : sql_parse sql = Some (SSelect q) → sl_table q = sc_table sch → d_query sql ps d = Ok out →
    (∃ out0, select_rows sch q ps (d_rows d) out0) → select_rows sch q ps (d_rows d) out;
}.
