(* ===== verification/StoreDb.v ===== *)
(** * server: the operations of the stores on their database ([store.rs], [probe_store.rs]).

    [QueryStore] and [ProbeStore] hold two connections to one database.  Their operations are
    functions of the database's state over the interface of [Sql]; an operation that issues
    several statements on the read connection takes the state each of them sees, since writers
    may run in between. *)
From Stdlib Require Import Ascii.
From S2P Require Import Prelude RustStr RustNet RustFloat Rule Parser Compiler Clients QueryLog Spec ProbeLog Dto Store Sql.

(** ** The texts *)

(** [SCHEMA], [INSERT_SQL] and [SCHEMA_PROBE] of [store.rs]. *)
Definition QUERY_SCHEMA : bytes := bs "
    CREATE TABLE IF NOT EXISTS queries (
        id          INTEGER PRIMARY KEY,
        time_ms     INTEGER NOT NULL,
        client_ip   TEXT NOT NULL,
        question    TEXT NOT NULL,
        qtype       TEXT NOT NULL,
        action      TEXT NOT NULL,
        blocked     INTEGER NOT NULL,
        upstream    TEXT,
        rule        TEXT,
        list_id     INTEGER,
        allowlisted INTEGER NOT NULL,
        rcode       TEXT NOT NULL,
        answers     TEXT NOT NULL,
        elapsed_ms  REAL NOT NULL
    );
    CREATE INDEX IF NOT EXISTS idx_queries_time ON queries(time_ms);
    CREATE INDEX IF NOT EXISTS idx_queries_client ON queries(client_ip);
    CREATE INDEX IF NOT EXISTS idx_queries_blocked ON queries(id) WHERE blocked = 1;
".
Definition QUERY_INSERT_SQL : bytes := bs "INSERT INTO queries
    (time_ms, client_ip, question, qtype, action, blocked,
     upstream, rule, list_id, allowlisted, rcode, answers, elapsed_ms)
    VALUES (?,?,?,?,?,?,?,?,?,?,?,?,?)".
Definition QUERY_SCHEMA_PROBE : bytes :=
  bs "SELECT id, time_ms, client_ip, question, qtype, action, "
  ++ bs "blocked, upstream, rule, list_id, allowlisted, rcode, answers, elapsed_ms "
  ++ bs "FROM queries LIMIT 0".
(** [SCHEMA], [INSERT_SQL], [COLUMNS] and [MIGRATIONS] of [probe_store.rs]. *)
Definition PROBE_SCHEMA : bytes := bs "
    CREATE TABLE IF NOT EXISTS probes (
        id                   INTEGER PRIMARY KEY,
        time_ms              INTEGER NOT NULL,
        upstream             TEXT NOT NULL,
        name                 TEXT NOT NULL,
        kind                 TEXT NOT NULL,
        outcome              TEXT NOT NULL,
        rtt_ms               REAL,
        first_rtt_ms         REAL,
        ewma_ms              REAL,
        up                   INTEGER NOT NULL,
        consecutive_failures INTEGER NOT NULL,
        detail               TEXT,
        error_kind           TEXT,
        live_ewma_ms         REAL,
        live_queries         INTEGER NOT NULL,
        live_failures        INTEGER NOT NULL,
        rank                 INTEGER,
        lead_held            INTEGER NOT NULL
    );
    CREATE INDEX IF NOT EXISTS idx_probes_time ON probes(time_ms);
    CREATE INDEX IF NOT EXISTS idx_probes_upstream ON probes(upstream);
".
Definition PROBE_INSERT_SQL : bytes :=
  bs "INSERT INTO probes
    (time_ms, upstream, name, kind, outcome, rtt_ms, first_rtt_ms, ewma_ms, up, "
  ++ bs "consecutive_failures, detail, error_kind, live_ewma_ms, live_queries, live_failures, rank, "
  ++ bs "lead_held)
    VALUES (?,?,?,?,?,?,?,?,?,?,?,?,?,?,?,?,?)".
Definition COLUMNS : bytes :=
  bs "time_ms, upstream, name, kind, outcome, rtt_ms, first_rtt_ms, ewma_ms, up, "
  ++ bs "consecutive_failures, detail, error_kind, live_ewma_ms, live_queries, live_failures, "
  ++ bs "rank, lead_held".
Definition MIGRATIONS : list bytes := [bs "ALTER TABLE probes ADD COLUMN first_rtt_ms REAL"].

(** ** Writing *)

Section ops.
Context {db : Type} {SD : SqlDb db}.

(** [insert_all] and [insert_batch], of either store, on the values bound to its statement. *)
Fixpoint insert_all (sql : bytes) (rows : list (list Value)) (d : db) : result () bytes * db :=
  match rows with
  | [] => (Ok (), d)
  | p :: rows => match d_exec sql p d with (Ok _, d) => insert_all sql rows d | (Err e, d) => (Err e, d) end
  end.
Definition insert_batch (sql : bytes) (rows : list (list Value)) (d : db) : result () bytes * db :=
  match rows with
  | [] => (Ok (), d)
  | _ =>
      match d_exec (bs "BEGIN IMMEDIATE") [] d with
      | (Err e, d) => (Err e, d)
      | (Ok _, d) =>
          match insert_all sql rows d with
          | (Ok (), d) => match d_exec (bs "COMMIT") [] d with (Ok _, d) => (Ok (), d) | (Err e, d) => (Err e, d) end
          | (Err e, d) => (Err e, (d_exec (bs "ROLLBACK") [] d).2)
          end
      end
  end.
(** [clear] and [delete_older_than] of the two stores. *)
Definition clear_table (sql : bytes) (d : db) : result () bytes * db :=
  match d_exec sql [] d with (Ok _, d) => (Ok (), d) | (Err e, d) => (Err e, d) end.
Definition query_clear : db → result () bytes * db := clear_table (bs "DELETE FROM queries").
Definition probes_clear : db → result () bytes * db := clear_table (bs "DELETE FROM probes").
Definition query_delete_older_than (cutoff_ms : Z) (d : db) : result Z bytes * db :=
  d_exec (bs "DELETE FROM queries WHERE time_ms < ?1") [VInteger cutoff_ms] d.
Definition probe_delete_older_than (cutoff_ms : Z) (d : db) : result Z bytes * db :=
  d_exec (bs "DELETE FROM probes WHERE time_ms < ?1") [VInteger cutoff_ms] d.

(** ** Reading *)

(** [while let Some(row) = rows.next().await? { out.push(f(&row)?) }]; [row_error] is the
    error of a column that is missing or of another type. *)
Context (row_error : bytes).
Fixpoint read_rows {A} (f : list Value → option A) (rows : list (list Value)) : result (list A) bytes :=
  match rows with
  | [] => Ok []
  | r :: rows => let? a := ok_or (f r) row_error in let? out := read_rows f rows in Ok (a :: out)
  end.

Section query_store.
Context {IL : IpNetLib} (answers_of_json : bytes → option (list bytes)).
(** [distinct_client_ips_matching]; the outer [None] is the panic of [name_for_str]. *)
Definition distinct_client_ips_matching (clients : ClientMatcher) (needle : bytes) (d : db) : option (result (list bytes) bytes) :=
  match (let? rows := d_query (bs "SELECT DISTINCT client_ip FROM queries") [] d in read_rows (λ r, get_text r 0) rows) with
  | Err e => Some (Err e)
  | Ok ips => Ok <$> matching_ips clients needle ips
  end.
(** The query of [build_where]: only a client filter reads the database. *)
Definition name_ips (f : LogFilter) (clients : ClientMatcher) (d : db) : option (result (list bytes) bytes) :=
  match nonempty (lf_client f) with
  | Some client => distinct_client_ips_matching clients (to_ascii_lowercase client) d
  | None => Some (Ok [])
  end.
(** [query]: the addresses of the client filter are read at [d1], the total at [d2] and the
    page at [d3]. *)
Definition query (f : LogFilter) (offset limit : nat) (clients : ClientMatcher) (d1 d2 d3 : db) : option (result LogPage bytes) :=
  let! ips := name_ips f clients d1 in
  Some (let? ips := ips in
        let '(count_sql, page_sql, params) := page_query f ips (as_i64 (Z.of_nat offset)) (as_i64 (Z.of_nat limit)) in
        let? counts := d_query count_sql (take (length params - 2) params) d2 in
        let? total := match counts with r :: _ => ok_or (get_int r 0) row_error | [] => Ok 0%Z end in
        let? rows := d_query page_sql params d3 in
        let? entries := read_rows (row_to_entry answers_of_json) rows in
        Ok {| lp_entries := entries; lp_total := Z.to_nat (Z.max total 0) |}).
End query_store.

(** [recent] and [export_jsonl] of the probe store. *)
Definition recent (since_ms : option Z) (limit : nat) (d : db) : result (list ProbeEvent) bytes :=
  let '(tail, params) := recent_where since_ms (as_i64 (Z.of_nat limit)) in
  let? rows := d_query (bs "SELECT " ++ COLUMNS ++ bs " FROM probes" ++ tail) params d in
  read_rows row_to_event rows.
Definition jsonl (to_json : ProbeEvent → option bytes) (es : list ProbeEvent) : bytes :=
  mjoin ((λ e, match to_json e with Some line => line ++ [LF] | None => [] end) <$> es).
Definition export_jsonl (to_json : ProbeEvent → option bytes) (d : db) : result bytes bytes :=
  let? rows := d_query (bs "SELECT " ++ COLUMNS ++ bs " FROM probes ORDER BY id ASC") [] d in
  let? events := read_rows row_to_event rows in
  Ok (jsonl to_json events).

(** ** Opening *)

(** The files and the crate's [Builder]: building, a further connection, a batch of
    statements, removing a file. *)
Context {disk : Type} (build : bytes → disk → result db bytes * disk) (connect : db → result () bytes).
Context (execute_batch : bytes → db → result () bytes * db) (remove_file : bytes → disk → disk).

(** [reset_db_files]. *)
Definition reset_db_files (path : bytes) (k : disk) : disk :=
  foldl (λ k suffix, remove_file (path ++ suffix) k) k [[]; bs "-wal"; bs "-shm"; bs "-journal"].
(** [try_open] of either store; the query store has no migrations. *)
Definition try_open (schema : bytes) (migrations : list bytes) (probe : bytes) (path : bytes) (k : disk) : result db bytes * disk :=
  let '(r, k) := build path k in
  (let? d := r in
   let? _ := connect d in
   let '(r, d) := execute_batch schema d in
   let? _ := r in
   let d := foldl (λ d sql, (d_exec sql [] d).2) d migrations in
   let? _ := d_query probe [] d in
   let? _ := connect d in
   Ok d, k).
(** [open]: an unusable database on disk is recreated. *)
Definition open_db (schema : bytes) (migrations : list bytes) (probe : bytes) (path : bytes) (k : disk) : result db bytes * disk :=
  match try_open schema migrations probe path k with
  | (Ok d, k) => (Ok d, k)
  | (Err e, k) =>
      if negb (bool_decide (path = bs ":memory:")) then try_open schema migrations probe path (reset_db_files path k)
      else (Err e, k)
  end.
Definition query_open : bytes → disk → result db bytes * disk := open_db QUERY_SCHEMA [] QUERY_SCHEMA_PROBE.
Definition probe_open : bytes → disk → result db bytes * disk :=
  open_db PROBE_SCHEMA MIGRATIONS (bs "SELECT id, " ++ COLUMNS ++ bs " FROM probes LIMIT 0").
End ops.
