(* ===== verification/StoreProps.v ===== *)
(** * Properties of rows and statements: rows read back as they were written, searches are
    literal and never become SQL. *)
From Stdlib Require Import Ascii.
From S2P Require Import Prelude RustStr RustNet RustFloat Rule Parser Compiler Clients QueryLog Spec ProbeLog Dto Store Sql.

(** ** Rows *)

(** An entry whose integers have the widths of the source. *)
Definition entry_widths (e : QueryLogEntry) : Prop :=
  match le_action e with QaBlocked _ i | QaRewritten _ i => in_u 32 i | _ => True end.
Definition with_entry_id (id : Z) (e : QueryLogEntry) : QueryLogEntry :=
  {| le_id := id; le_time_ms := le_time_ms e; le_client_ip := le_client_ip e; le_question := le_question e;
     le_qtype := le_qtype e; le_action := le_action e; le_allowlisted := le_allowlisted e; le_rcode := le_rcode e;
     le_answers := le_answers e; le_elapsed_ms := le_elapsed_ms e |}.
(** A query-log entry that is inserted and selected again is the same entry, under the id
    the database assigned, for every action, provided the JSON of its answers reads back. *)
Theorem entry_roundtrip answers_json answers_of_json id e json :
  in_u 63 id → entry_widths e → answers_json (le_answers e) = Some json → answers_of_json json = Some (le_answers e) →
  row_to_entry answers_of_json (selected id (insert_params answers_json e)) = Some (with_entry_id id e).
Proof.
  intros Hid He Hj Ho. unfold insert_params. rewrite Hj. unfold entry_widths in He.
  assert (Hw : wrap 64 id = id) by (apply wrap_small; unfold in_u in *; lia).
  destruct e as [eid t ip qn qt act al rc ans el]; simpl in *.
  destruct act; simpl; unfold row_to_entry, with_entry_id; simpl; rewrite ?Ho, ?Hw; cbn [default];
    repeat rewrite (wrap_small 32) by done; destruct al; done.
Qed.

Lemma kind_label_roundtrip k : kind_from_label (kind_as_str k) = k.
Proof. by destruct k. Qed.
Lemma outcome_label_roundtrip o : outcome_from_label (outcome_as_str o) = o.
Proof. by destruct o. Qed.
Lemma error_kind_label_roundtrip k : error_kind_from_label (error_kind_as_str k) = k.
Proof. by destruct k. Qed.
Lemma as_i64_wrap z : in_u 64 z → wrap 64 (as_i64 z) = z.
Proof.
  unfold in_u, as_i64, wrap. intros H. destruct (Z.ltb_spec z (2 ^ 63)); [by apply Z.mod_small|].
  replace (z - 2 ^ 64)%Z with (z + (-1) * 2 ^ 64)%Z by lia. rewrite Z.mod_add by lia. by apply Z.mod_small.
Qed.
Definition event_widths (e : ProbeEvent) : Prop :=
  in_u 32 (pe_consecutive_failures e) ∧ in_u 64 (pe_live_queries e) ∧ in_u 64 (pe_live_failures e)
  ∧ match pe_rank e with Some r => in_u 16 r | None => True end.
Lemma or_null_real o : opt_real (or_null VReal o) = o.
Proof. by destruct o. Qed.
Lemma or_null_text o : opt_text (or_null VText o) = o.
Proof. by destruct o. Qed.
Lemma bool_int_roundtrip b : negb (bool_int b =? 0)%Z = b.
Proof. by destruct b. Qed.
(** A probe event that is inserted and selected again is the same event, with its
    counters at their full 64-bit range and every outcome, transport and error kind. *)
Theorem event_roundtrip e : event_widths e → row_to_event (event_params e) = Some e.
Proof.
  intros (H1 & H2 & H3 & H4). unfold row_to_event, event_params, get_int, get_text.
  cbn [lookup list_lookup mbind option_bind opt_int opt_text fmap option_fmap option_map].
  rewrite kind_label_roundtrip, outcome_label_roundtrip, !or_null_real, or_null_text, !bool_int_roundtrip, !as_i64_wrap, (wrap_small 32) by done.
  destruct e as [? ? ? ? ? ? ? ? ? ? ? ek ? ? ? rk ?]. cbn in *. do 2 f_equal.
  - by destruct ek as [[]|].
  - destruct rk as [r|]; [|done]. simpl. by rewrite wrap_small.
Qed.

(** ** Searching *)

Lemma like_tokens_escape s p : like_tokens (like_escape s ++ p) = (LtChar <$> s) ++ like_tokens p.
Proof.
  induction s as [|c s IH]; [done|]. unfold like_escape in *. rewrite fmap_cons.
  change (mjoin (?a :: ?l)) with (a ++ mjoin l). rewrite <- app_assoc. destruct (is_like_meta c) eqn:E.
  - cbn [app like_tokens]. rewrite bool_decide_true by done. by rewrite IH.
  - apply orb_false_iff in E as [[E1 E2]%orb_false_iff E3]. cbn [app like_tokens]. rewrite E1, E2, E3. by rewrite IH.
Qed.
Lemma like_chars s ts text : like_match ((LtChar <$> s) ++ ts) text ↔
  ∃ m b, text = m ++ b ∧ to_ascii_lowercase m = to_ascii_lowercase s ∧ like_match ts b.
Proof.
  revert text. induction s as [|c s IH]; intros text; csimpl.
  - split; [intros H; by exists [], text|]. intros (m & b & -> & Hm & H). by destruct m.
  - split.
    + intros (x & t & -> & Hx & (m & b & -> & Hm & H)%IH). exists (x :: m), b. split; [done|]. split; [|done].
      unfold to_ascii_lowercase in *. csimpl. by rewrite Hx, Hm.
    + intros (m & b & -> & Hm & H). destruct m as [|x m]; [done|]. unfold to_ascii_lowercase in Hm. csimpl. injection Hm as Hx Hm.
      exists x, (m ++ b). split; [done|]. split; [done|]. apply IH. by exists m, b.
Qed.
Lemma search_substring s text : like_sql (like_pattern s) text ↔
  ∃ a m b, text = a ++ m ++ b ∧ to_ascii_lowercase m = to_ascii_lowercase s.
Proof.
  unfold like_sql, like_pattern. change (like_tokens (bs "%" ++ ?p)) with (LtAny :: like_tokens p).
  rewrite like_tokens_escape. change (like_tokens (bs "%")) with [LtAny]. cbn [like_match]. split.
  - intros (a & t & -> & (m & b & -> & Hm & _)%like_chars). by exists a, m, b.
  - intros (a & m & b & -> & Hm). exists a, (m ++ b). split; [done|]. apply like_chars. exists m, b. split_and!; [done..|].
    exists b, []. by rewrite app_nil_r.
Qed.
(** A search is literal: the pattern bound for a search text matches exactly the names
    that contain the text, compared without regard to ASCII case, whatever wildcards or
    escapes the text contains. *)
Theorem search_is_substring s text : like_sql (like_pattern s) text ↔
  ∃ a m b, text = a ++ m ++ b ∧ to_ascii_lowercase m = to_ascii_lowercase s.
Proof. apply search_substring. Qed.

(** ** The statements *)

(** The text of the clause depends on the shape of the filter only. *)
Definition filter_shape (f : LogFilter) (ips : list bytes) : bool * bool * bool * nat :=
  (lf_blocked_only f, is_some (nonempty (lf_search f)), is_some (nonempty (lf_client f)), length ips).
Lemma imap_const {A B} (g : nat → B) (l k : list A) : length l = length k → imap (λ i _, g i) l = imap (λ i _, g i) k.
Proof.
  revert g k. induction l as [|a l IH]; intros g [|b k] H; simpl in *; try lia; [done|]. f_equal. apply (IH (g ∘ S)). lia.
Qed.
Lemma where_text_shape f ips f' ips' : filter_shape f ips = filter_shape f' ips' → (build_where f ips).1 = (build_where f' ips').1.
Proof.
  unfold filter_shape, build_where. intros [= -> Hs Hc Hl].
  destruct (nonempty (lf_search f)), (nonempty (lf_search f')); try done;
    destruct (nonempty (lf_client f)), (nonempty (lf_client f')); try done;
    destruct ips as [|i ips], ips' as [|i' ips']; try done;
    pose proof (λ start, imap_const (λ n, placeholder (start + n + 1)) (i :: ips) (i' :: ips') Hl) as Hm;
    cbn [app length fst]; by rewrite Hm.
Qed.

(** The question marks of a text. *)
Definition marks (s : bytes) : nat := length (filter (λ c, c = "?"%char) s).
Lemma marks_app s t : marks (s ++ t) = marks s + marks t.
Proof. unfold marks. by rewrite filter_app, length_app. Qed.
Lemma marks_placeholder n : marks (placeholder n) = 1.
Proof.
  unfold placeholder. rewrite marks_app. change (marks (bs "?")) with 1. enough (marks (show_dec (Z.of_nat n)) = 0) as -> by done.
  unfold marks. assert (Hn : "?"%char ∉ show_dec (Z.of_nat n)) by (apply digits_without; [lia|done]).
  induction (show_dec (Z.of_nat n)) as [|c s IH]; [done|]. apply not_elem_of_cons in Hn as [Hc Hs].
  rewrite filter_cons_False by congruence. by apply IH.
Qed.
Lemma marks_join sep ls : marks sep = 0 → marks (join sep ls) = sum_list (marks <$> ls).
Proof.
  intros Hs. induction ls as [|l [|k ls] IH]; [done|csimpl; lia|]. change (join sep (l :: k :: ls)) with (l ++ sep ++ join sep (k :: ls)).
  rewrite !marks_app, Hs, IH. csimpl. lia.
Qed.
Lemma marks_imap {A} (g : nat → nat) (l : list A) : sum_list (marks <$> imap (λ i _, placeholder (g i)) l) = length l.
Proof.
  revert g. induction l as [|a l IH]; intros g; [done|]. cbn [imap]. rewrite fmap_cons. cbn [sum_list length].
  rewrite marks_placeholder. specialize (IH (g ∘ S)). unfold compose in *. by rewrite IH.
Qed.
(** Counting the marks of constants. *)
Ltac count_marks :=
  repeat match goal with
  | |- context [marks (bs ?x)] => let v := eval vm_compute in (marks (bs x)) in change (marks (bs x)) with v
  end.
Lemma where_marks f ips : marks (build_where f ips).1 = length (build_where f ips).2.
Proof.
  unfold build_where. destruct (lf_blocked_only f), (nonempty (lf_search f)), (nonempty (lf_client f));
    try destruct ips as [|i ips]; cbn [app length fst snd]; try (vm_compute; reflexivity);
    rewrite ?marks_app, ?marks_join by done; rewrite ?fmap_cons, ?fmap_nil; cbn [sum_list];
    rewrite ?marks_app, ?marks_placeholder, ?marks_join by done; rewrite ?marks_imap, ?length_app, ?length_fmap;
    cbn [length]; count_marks; unfold id; rewrite ?length_fmap; lia.
Qed.
(** No text a client sends becomes SQL.  The statements of a log query depend on which
    filters are set and on how many addresses match, never on the search text, the client
    text or the addresses; and they have exactly as many placeholders as bound parameters. *)
Theorem log_query_has_no_injection f ips offset limit :
  (∀ f' ips' offset' limit', filter_shape f' ips' = filter_shape f ips →
     (page_query f' ips' offset' limit').1 = (page_query f ips offset limit).1)
  ∧ marks (page_query f ips offset limit).1.1 + 2 = length (page_query f ips offset limit).2
  ∧ marks (page_query f ips offset limit).1.2 = length (page_query f ips offset limit).2.
Proof.
  unfold page_query. pose proof (where_marks f ips) as Hm. split.
  - intros f' ips' o' l' Hs. pose proof (where_text_shape f' ips' f ips Hs) as Ht.
    pose proof (where_marks f' ips') as Hm'. destruct (build_where f' ips') as [w' p'], (build_where f ips) as [w p]. simpl in *.
    subst w'. by rewrite <- Hm', Hm.
  - destruct (build_where f ips) as [w p]. cbn [fst snd] in *. rewrite !marks_app, !marks_placeholder, length_app, Hm. count_marks.
    simpl. lia.
Qed.

(** ** Witnesses *)

Definition unary_json (l : list bytes) : option bytes := match l with [] => Some [] | _ => None end.
Definition unary_unjson (s : bytes) : option (list bytes) := match s with [] => Some [] | _ => None end.
Definition blocked_entry : QueryLogEntry :=
  {| le_id := 0; le_time_ms := 1700000000000; le_client_ip := bs "10.0.0.1"; le_question := bs "ads.example"; le_qtype := bs "A";
     le_action := QaBlocked (bs "||ads.example^") 3; le_allowlisted := false; le_rcode := bs "NXDOMAIN"; le_answers := [];
     le_elapsed_ms := f64_of 2 |}.
Lemma entry_roundtrip_witness :
  row_to_entry unary_unjson (selected 42 (insert_params unary_json blocked_entry)) = Some (with_entry_id 42 blocked_entry).
Proof.
  apply (entry_roundtrip unary_json unary_unjson 42 blocked_entry []); [unfold in_u; lia|unfold entry_widths, in_u; simpl; lia|reflexivity|reflexivity].
Defined.
Definition probe_event : ProbeEvent :=
  {| pe_time_ms := 1; pe_upstream := bs "tls://9.9.9.9"; pe_name := bs "q"; pe_kind := TkTls; pe_outcome := PoSoftFail;
     pe_rtt_ms := Some (f64_of 3); pe_first_rtt_ms := None; pe_ewma_ms := None; pe_up := true; pe_consecutive_failures := 2;
     pe_detail := Some (bs "timed out"); pe_error_kind := Some PkTimeout; pe_live_ewma_ms := None; pe_live_queries := 2 ^ 64 - 1;
     pe_live_failures := 0; pe_rank := Some 1%Z; pe_lead_held := false |}.
Lemma event_roundtrip_witness : row_to_event (event_params probe_event) = Some probe_event.
Proof. apply (event_roundtrip probe_event). unfold event_widths, in_u. simpl. lia. Defined.
