(* ===== verification/SqlProps.v ===== *)
(** * Properties of the SQL fragment: the texts the stores put together read back as the
    statements they mean, and the reading of LIKE as a test. *)
From Stdlib Require Import Ascii.
From S2P Require Import Prelude RustStr RustNet RustFloat Rule Parser Compiler Clients QueryLog Spec ProbeLog Dto Store Sql StoreDb StoreProps.

(** ** Words *)

Definition is_sep (c : byte) : bool := is_blank c || is_punct c.
Definition starts_sep (s : bytes) : bool := match s with [] => true | c :: _ => is_sep c end.
Definition ends_sep (s : bytes) : bool := match last s with Some c => is_sep c | None => false end.

Lemma lex_starts acc s t : starts_sep t = true → lex acc (s ++ t) = lex acc s ++ lex [] t.
Proof.
  intros Ht. revert acc. induction s as [|c s IH]; intros acc; cbn [app lex].
  - destruct t as [|c t]; [by rewrite app_nil_r|]. cbn [starts_sep lex] in *. unfold is_sep in Ht.
    destruct (is_blank c); [done|]. cbn in Ht. by rewrite Ht.
  - destruct (is_blank c); [by rewrite IH, app_assoc|]. destruct (is_punct c); [|done]. by rewrite IH, <- app_assoc.
Qed.
Lemma lex_ends acc s t : ends_sep s = true → lex acc (s ++ t) = lex acc s ++ lex [] t.
Proof.
  revert acc. induction s as [|c s IH]; intros acc Hs; [done|]. destruct s as [|c' s].
  - unfold ends_sep in Hs. cbn [last] in Hs. unfold is_sep in Hs. cbn [app lex flush].
    destruct (is_blank c); [by rewrite app_nil_r|]. cbn in Hs. rewrite Hs. by rewrite <- app_assoc.
  - assert (Hs' : ends_sep (c' :: s) = true) by done. change ((c :: ?s) ++ t) with (c :: (s ++ t)).
    remember (c' :: s) as r. cbn [lex]. destruct (is_blank c); [by rewrite IH, app_assoc|].
    destruct (is_punct c); [|by apply IH]. by rewrite IH, <- app_assoc.
Qed.
Lemma lex_word acc w : Forall (λ c, is_sep c = false) w → lex acc w = flush (acc ++ w).
Proof.
  revert acc. induction w as [|c w IH]; intros acc H; cbn [lex]; [by rewrite app_nil_r|].
  apply Forall_cons in H as [Hc Hw]. apply orb_false_iff in Hc as [-> ->]. rewrite IH by done. by rewrite <- app_assoc.
Qed.
Lemma digit_not_sep c : is_ascii_digit c = true → is_sep c = false.
Proof. by destruct c as [[] [] [] [] [] [] [] []]; vm_compute. Qed.
Lemma lex_placeholder n : lex [] (placeholder n) = [placeholder n].
Proof.
  apply (lex_word []). unfold placeholder. apply Forall_app. split; [by repeat constructor|].
  eapply Forall_impl; [apply show_dec_digits; lia|]. apply digit_not_sep.
Qed.
Lemma parse_param_placeholder n : parse_param (placeholder n) = Some n.
Proof.
  destruct (show_dec_value (Z.of_nat n) ltac:(lia)) as [Hv Hne]. unfold placeholder, parse_param.
  destruct (show_dec (Z.of_nat n)) as [|c s]; [done|]. change (bs "?" ++ c :: s) with ("?"%char :: c :: s). cbv iota beta.
  rewrite bool_decide_true by done. rewrite Hv. simpl. f_equal. lia.
Qed.

(** ** Conditions *)

Definition operand_token (x : Operand) : bytes := match x with OParam n => placeholder n | OInt z => show_dec z end.
Definition cmp_token (op : CmpOp) : bytes := match op with CmpEq => bs "=" | CmpLt => bs "<" | CmpGe => bs ">=" end.
Fixpoint params_tokens (ns : list nat) : list bytes :=
  match ns with
  | [] => []
  | [n] => [placeholder n; bs ")"]
  | n :: ns => placeholder n :: bs "," :: params_tokens ns
  end.
Definition simple_tokens (c : Cond) : list bytes :=
  match c with
  | CCmp col op x => [col; cmp_token op; operand_token x]
  | CLike col n => [col; bs "LIKE"; placeholder n; bs "ESCAPE"; bs "'\'"]
  | CIn col ns => col :: bs "IN" :: bs "(" :: params_tokens ns
  | COr _ _ => []
  end.
Definition cond_tokens (c : Cond) : list bytes :=
  match c with COr a b => bs "(" :: simple_tokens a ++ bs "OR" :: simple_tokens b ++ [bs ")"] | _ => simple_tokens c end.
Definition simple_ok (c : Cond) : Prop :=
  match c with
  | CCmp col _ (OInt z) => col ≠ bs "(" ∧ in_u 63 z
  | CCmp col _ _ | CLike col _ => col ≠ bs "("
  | CIn col ns => col ≠ bs "(" ∧ ns ≠ []
  | COr _ _ => False
  end.
Definition cond_ok (c : Cond) : Prop := match c with COr a b => simple_ok a ∧ simple_ok b | _ => simple_ok c end.

Lemma kw_true t s : t = bs s → kw t s = true.
Proof. intros ->. by apply bool_decide_true. Qed.
Lemma parse_operand_token x : match x with OInt z => in_u 63 z | _ => True end → parse_operand (operand_token x) = Some x.
Proof.
  unfold parse_operand. destruct x as [n|z]; cbn [operand_token]; [by rewrite parse_param_placeholder|]. intros Hz.
  assert (parse_param (show_dec z) = None) as ->; [|by rewrite (parse_show_dec 63 z Hz)].
  assert (Hd := show_dec_digits z ltac:(unfold in_u in Hz; lia)). unfold parse_param.
  destruct (show_dec z) as [|c [|d s]]; [done..|]. apply Forall_cons in Hd as [Hc _].
  rewrite bool_decide_false; [done|]. by intros ->.
Qed.
Lemma parse_params_tokens ns rest : ns ≠ [] → parse_params (params_tokens ns ++ rest) = Some (ns, rest).
Proof.
  induction ns as [|n [|m ns] IH]; intros Hne; [done| |].
  - cbn [params_tokens app parse_params]. by rewrite parse_param_placeholder.
  - change (params_tokens (n :: m :: ns)) with (placeholder n :: bs "," :: params_tokens (m :: ns)).
    cbn [app parse_params]. rewrite parse_param_placeholder. cbn [mbind option_bind].
    change (kw (bs ",") ")") with false. change (kw (bs ",") ",") with true. cbv iota. by rewrite IH.
Qed.
Lemma parse_simple_tokens c rest : simple_ok c → parse_simple (simple_tokens c ++ rest) = Some (c, rest).
Proof.
  destruct c as [col op x|col n|col ns|a b]; cbn [simple_tokens simple_ok app]; intros Hok; [| | |done].
  - unfold parse_simple. assert (parse_operand (operand_token x) = Some x) as -> by (apply parse_operand_token; destruct x; naive_solver).
    by destruct op.
  - unfold parse_simple. change (kw (bs "LIKE") "LIKE") with true. cbv iota. by rewrite parse_param_placeholder.
  - unfold parse_simple. change (kw (bs "IN") "LIKE") with false. change (kw (bs "IN") "IN") with true. change (kw (bs "(") "(") with true.
    cbv iota. by rewrite parse_params_tokens by naive_solver.
Qed.
Lemma simple_head c : simple_ok c → ∃ col ts, simple_tokens c = col :: ts ∧ kw col "(" = false.
Proof.
  destruct c as [col op [n|z]|col n|col ns|a b]; simpl; intros H; try done; eexists _, _; (split; [done|]);
    apply bool_decide_false; naive_solver.
Qed.
Lemma parse_cond_tokens c rest : cond_ok c → parse_cond (cond_tokens c ++ rest) = Some (c, rest).
Proof.
  destruct (match c with COr _ _ => true | _ => false end) eqn:E.
  - destruct c as [| | |a b]; try done. intros [Ha Hb]. cbn [cond_tokens app parse_cond]. change (kw (bs "(") "(") with true. cbv iota.
    rewrite <- app_assoc, (parse_simple_tokens a) by done. cbn [mbind option_bind app].
    change (kw (bs "OR") "OR") with true. cbv iota. rewrite <- app_assoc, (parse_simple_tokens b) by done. done.
  - intros H. assert (Hs : simple_ok c) by (by destruct c). assert (cond_tokens c = simple_tokens c) as -> by (by destruct c).
    rewrite <- (parse_simple_tokens c rest Hs). destruct (simple_head c Hs) as (col & ts & -> & Hk). cbn [app parse_cond].
    by rewrite Hk.
Qed.

(** ** Clauses *)

Fixpoint conds_tokens (cs : list Cond) : list bytes :=
  match cs with
  | [] => []
  | [c] => cond_tokens c
  | c :: cs => cond_tokens c ++ bs "AND" :: conds_tokens cs
  end.
Definition where_tokens (cs : list Cond) : list bytes := match cs with [] => [] | _ => bs "WHERE" :: conds_tokens cs end.
(** Words that end a clause. *)
Definition ends_clause (ts : list bytes) : bool :=
  match ts with [] => true | k :: _ => negb (kw k "AND") && negb (kw k "WHERE") end.
Lemma parse_conds_tokens cs fuel rest : cs ≠ [] → Forall cond_ok cs → length cs <= fuel → ends_clause rest = true →
  parse_conds fuel (conds_tokens cs ++ rest) = Some (cs, rest).
Proof.
  revert fuel. induction cs as [|c cs IH]; intros fuel Hne Hok Hf Hr; [done|]. apply Forall_cons in Hok as [Hc Hcs].
  destruct fuel as [|fuel]; [simpl in Hf; lia|]. simpl in Hf. destruct cs as [|c' cs].
  - cbn [conds_tokens parse_conds]. rewrite parse_cond_tokens by done. cbn [mbind option_bind].
    destruct rest as [|k rest]; [done|]. cbn [ends_clause] in Hr. apply andb_true_iff in Hr as [Hr _]. apply negb_true_iff in Hr. by rewrite Hr.
  - change (conds_tokens (c :: c' :: cs)) with (cond_tokens c ++ bs "AND" :: conds_tokens (c' :: cs)).
    rewrite <- app_assoc. cbn [parse_conds]. rewrite parse_cond_tokens by done. cbn [mbind option_bind app].
    change (kw (bs "AND") "AND") with true. cbv iota. rewrite IH; [done|done|done|simpl in *; lia|done].
Qed.
Lemma simple_tokens_length c : simple_ok c → 1 <= length (simple_tokens c).
Proof. by destruct c; simpl; intros; lia || done. Qed.
Lemma cond_tokens_length c : cond_ok c → 1 <= length (cond_tokens c).
Proof. destruct c; simpl; intros; try lia; try (rewrite length_app; simpl; lia). Qed.
Lemma conds_tokens_length cs : Forall cond_ok cs → length cs <= length (conds_tokens cs).
Proof.
  induction cs as [|c [|c' cs] IH]; intros H; [done| |]; apply Forall_cons in H as [Hc Hcs].
  - by apply cond_tokens_length.
  - change (conds_tokens (c :: c' :: cs)) with (cond_tokens c ++ bs "AND" :: conds_tokens (c' :: cs)).
    rewrite length_app. specialize (IH Hcs). cbn [length] in *. pose proof (cond_tokens_length c Hc). lia.
Qed.
Lemma parse_where_tokens cs rest : Forall cond_ok cs → ends_clause rest = true → parse_where (where_tokens cs ++ rest) = Some (cs, rest).
Proof.
  intros Hok Hr. destruct cs as [|c cs].
  - cbn [where_tokens app]. unfold parse_where. destruct rest as [|k rest]; [done|]. cbn [ends_clause] in Hr.
    apply andb_true_iff in Hr as [_ Hr]. apply negb_true_iff in Hr. by rewrite Hr.
  - remember (c :: cs) as l. assert (where_tokens l = bs "WHERE" :: conds_tokens l) as -> by (by subst).
    cbn [app parse_where]. change (kw (bs "WHERE") "WHERE") with true. cbv iota.
    apply parse_conds_tokens; [by subst|done| |done]. rewrite length_app. pose proof (conds_tokens_length l Hok). lia.
Qed.

(** ** The statements of the query log *)

Lemma lex_like (pre : string) col n : lex [] (bs pre) = [bs col; bs "LIKE"] → ends_sep (bs pre) = true →
  lex [] (bs pre ++ placeholder n ++ bs " ESCAPE '\'") = simple_tokens (CLike (bs col) n).
Proof.
  intros H1 H2. rewrite lex_ends by done. rewrite lex_starts by done. by rewrite H1, lex_placeholder.
Qed.
Lemma lex_marks ns : ns ≠ [] → lex [] (join (bs ", ") (placeholder <$> ns) ++ bs "))") = params_tokens ns ++ [bs ")"].
Proof.
  induction ns as [|n [|m ns] IH]; intros Hne; [done| |].
  - cbn [fmap list_fmap join]. rewrite lex_starts by done. by rewrite lex_placeholder.
  - change (join (bs ", ") (placeholder <$> n :: m :: ns)) with (placeholder n ++ bs ", " ++ join (bs ", ") (placeholder <$> m :: ns)).
    change (params_tokens (n :: m :: ns)) with (placeholder n :: bs "," :: params_tokens (m :: ns)).
    rewrite <- !app_assoc, lex_starts by done. rewrite lex_placeholder, (lex_ends [] (bs ", ")), IH by done. done.
Qed.
Lemma lex_and ws cs : Forall2 (λ w c, lex [] w = cond_tokens c) ws cs → lex [] (join (bs " AND ") ws) = conds_tokens cs.
Proof.
  induction 1 as [|w c ws cs Hw Hr IH]; [done|]. destruct Hr as [|w' c' ws cs Hw' Hr]; [done|].
  change (join (bs " AND ") (w :: w' :: ws)) with (w ++ bs " AND " ++ join (bs " AND ") (w' :: ws)).
  change (conds_tokens (c :: c' :: cs)) with (cond_tokens c ++ bs "AND" :: conds_tokens (c' :: cs)).
  rewrite lex_starts by done. rewrite Hw, lex_ends, IH by done. done.
Qed.

(** The conditions a filter stands for. *)
Definition where_conds (f : LogFilter) (ips : list bytes) : list Cond :=
  let k := if nonempty (lf_search f) is Some _ then 1 else 0 in
  (if lf_blocked_only f then [CCmp (bs "blocked") CmpEq (OInt 1)] else [])
  ++ (if nonempty (lf_search f) is Some _ then [CLike (bs "question") 1] else [])
  ++ (if nonempty (lf_client f) is Some _ then
        [match ips with
         | [] => CLike (bs "client_ip") (S k)
         | _ => COr (CLike (bs "client_ip") (S k)) (CIn (bs "client_ip") (seq (S (S k)) (length ips)))
         end]
      else []).
Lemma where_conds_ok f ips : Forall cond_ok (where_conds f ips).
Proof.
  unfold where_conds. repeat apply Forall_app_2.
  - destruct (lf_blocked_only f); repeat constructor; unfold in_u; try lia; done.
  - destruct (nonempty (lf_search f)); repeat constructor; done.
  - destruct (nonempty (lf_client f)); [|done]. destruct ips; repeat constructor; done.
Qed.
Lemma imap_seq {A B} (g : nat → B) k (l : list A) : imap (λ i _, g (k + i + 1)) l = g <$> seq (S k) (length l).
Proof.
  revert k. induction l as [|a l IH]; intros k; [done|]. cbn [imap length seq fmap list_fmap]. f_equal; [f_equal; lia|].
  rewrite <- IH. apply imap_ext. intros i x _. unfold compose. f_equal. lia.
Qed.
Lemma lex_in_clause n ns : ns ≠ [] →
  lex [] (bs "(" ++ (bs "client_ip LIKE " ++ placeholder n ++ bs " ESCAPE '\'") ++ bs " OR client_ip IN ("
          ++ join (bs ", ") (placeholder <$> ns) ++ bs "))")
  = cond_tokens (COr (CLike (bs "client_ip") n) (CIn (bs "client_ip") ns)).
Proof.
  intros Hne. rewrite lex_ends by done. rewrite lex_starts by done.
  rewrite (lex_like "client_ip LIKE " "client_ip") by done. rewrite (lex_ends [] (bs " OR client_ip IN (")) by done.
  rewrite lex_marks by done. done.
Qed.
Lemma where_lex f ips : lex [] (build_where f ips).1 = where_tokens (where_conds f ips).
Proof.
  unfold build_where, where_conds.
  assert (Hj : ∀ w c ws cs, Forall2 (λ w c, lex [] w = cond_tokens c) (w :: ws) (c :: cs) →
     lex [] (bs " WHERE " ++ join (bs " AND ") (w :: ws)) = where_tokens (c :: cs)).
  { intros w c ws cs H. rewrite lex_ends by done. by rewrite (lex_and (w :: ws) (c :: cs)). }
  destruct (lf_blocked_only f), (nonempty (lf_search f)), (nonempty (lf_client f)); try destruct ips as [|i ips];
    cbn [app length fst]; try reflexivity; apply Hj; rewrite ?imap_seq;
    repeat (apply Forall2_cons; split); try apply Forall2_nil_2;
    first [by apply (lex_like "question LIKE ")|by apply (lex_like "client_ip LIKE ")|by apply lex_in_clause|reflexivity].
Qed.

(** The columns of the page. *)
Definition page_columns : list bytes :=
  bs <$> ["id"; "time_ms"; "client_ip"; "question"; "qtype"; "action"; "upstream"; "rule"; "list_id"; "allowlisted"; "rcode"; "answers"; "elapsed_ms"]%string.
Definition count_select (f : LogFilter) (ips : list bytes) : Select :=
  {| sl_columns := ColCount; sl_table := bs "queries"; sl_where := where_conds f ips; sl_order := None; sl_limit := None; sl_offset := None |}.
Definition page_select (f : LogFilter) (ips : list bytes) (n : nat) : Select :=
  {| sl_columns := ColList page_columns; sl_table := bs "queries"; sl_where := where_conds f ips; sl_order := Some Descending;
     sl_limit := Some (OParam (n + 1)); sl_offset := Some (OParam (n + 2)) |}.
Lemma parse_select_from cols rest conds order limit offset ts ts2 ts3 ts4 :
  parse_columns ts = Some (cols, bs "FROM" :: bs "queries" :: where_tokens conds ++ rest) → Forall cond_ok conds → ends_clause rest = true →
  parse_order rest = Some (order, ts2) → parse_bound "LIMIT" ts2 = Some (limit, ts3) → parse_bound "OFFSET" ts3 = Some (offset, ts4) → ts4 = [] →
  parse_select ts = Some {| sl_columns := cols; sl_table := bs "queries"; sl_where := conds; sl_order := order; sl_limit := limit; sl_offset := offset |}.
Proof.
  intros Hc Hok Hr Ho Hl Hf ->. unfold parse_select. rewrite Hc. cbn [mbind option_bind]. change (kw (bs "FROM") "FROM") with true. cbv iota.
  rewrite parse_where_tokens by done. cbn [mbind option_bind]. rewrite Ho. cbn [mbind option_bind]. rewrite Hl. cbn [mbind option_bind].
  by rewrite Hf.
Qed.
Lemma where_starts f ips : starts_sep (build_where f ips).1 = true.
Proof.
  unfold build_where. destruct (lf_blocked_only f), (nonempty (lf_search f)), (nonempty (lf_client f)); try destruct ips; reflexivity.
Qed.
Lemma count_parses f ips : sql_parse (bs "SELECT COUNT(*) FROM queries" ++ (build_where f ips).1) = Some (SSelect (count_select f ips)).
Proof.
  unfold sql_parse. rewrite lex_starts by apply where_starts. rewrite where_lex.
  pose proof (where_conds_ok f ips) as Hok. unfold count_select. generalize dependent (where_conds f ips). intros cs Hok.
  change (lex [] (bs "SELECT COUNT(*) FROM queries")) with (bs <$> ["SELECT"; "COUNT"; "("; "*"; ")"; "FROM"; "queries"]%string).
  cbn [fmap list_fmap app]. unfold parse_stmt. cbv iota. change (kw (bs "SELECT") "SELECT") with true. cbv iota.
  erewrite (parse_select_from ColCount [] cs None None None); [done| |done..].
  rewrite app_nil_r. reflexivity.
Qed.
Lemma bound_tail n m :
  let rest := [bs "ORDER"; bs "BY"; bs "id"; bs "DESC"; bs "LIMIT"; placeholder n; bs "OFFSET"; placeholder m] in
  parse_order rest = Some (Some Descending, drop 4 rest)
  ∧ parse_bound "LIMIT" (drop 4 rest) = Some (Some (OParam n), drop 6 rest)
  ∧ parse_bound "OFFSET" (drop 6 rest) = Some (Some (OParam m), []).
Proof.
  cbn zeta. cbn [drop]. split; [done|]. unfold parse_bound. change (kw (bs "LIMIT") "LIMIT") with true.
  change (kw (bs "OFFSET") "OFFSET") with true. cbv iota. unfold parse_operand. by rewrite !parse_param_placeholder.
Qed.
Fixpoint words_tokens (ws : list bytes) : list bytes :=
  match ws with
  | [] => []
  | [w] => [w]
  | w :: ws => w :: bs "," :: words_tokens ws
  end.
Lemma parse_words_tokens ws k rest : ws ≠ [] → kw k "," = false → parse_words (words_tokens ws ++ k :: rest) = Some (ws, k :: rest).
Proof.
  intros Hne Hk. induction ws as [|w [|w' ws] IH]; [done| |].
  - cbn [words_tokens app parse_words]. by rewrite Hk.
  - change (words_tokens (w :: w' :: ws)) with (w :: bs "," :: words_tokens (w' :: ws)). cbn [app parse_words].
    change (kw (bs ",") ",") with true. cbv iota. by rewrite IH.
Qed.
Definition page_head : bytes :=
  bs "SELECT id, time_ms, client_ip, question, qtype, action, upstream, rule, list_id, allowlisted, rcode, answers, elapsed_ms FROM queries".
Lemma page_head_lex : lex [] page_head = bs "SELECT" :: words_tokens page_columns ++ [bs "FROM"; bs "queries"].
Proof. vm_refl. Qed.
Lemma parse_page_columns rest : parse_columns (words_tokens page_columns ++ bs "FROM" :: rest) = Some (ColList page_columns, bs "FROM" :: rest).
Proof. unfold parse_columns. rewrite parse_words_tokens by done. done. Qed.
Lemma parse_stmt_select ts q : 2 <= length ts → parse_select ts = Some q → parse_stmt (bs "SELECT" :: ts) = Some (SSelect q).
Proof.
  intros Hl H. destruct ts as [|w [|t ts]]; simpl in Hl; try lia. unfold parse_stmt. change (kw (bs "SELECT") "SELECT") with true.
  cbv iota. by rewrite H.
Qed.
Lemma page_parses f ips n :
  sql_parse (page_head ++ (build_where f ips).1 ++ bs " ORDER BY id DESC LIMIT " ++ placeholder (n + 1) ++ bs " OFFSET " ++ placeholder (n + 2))
  = Some (SSelect (page_select f ips n)).
Proof.
  unfold sql_parse. rewrite lex_starts; [|pose proof (where_starts f ips); by destruct (build_where f ips).1].
  rewrite (lex_starts [] (build_where f ips).1) by done. rewrite (lex_ends [] (bs " ORDER BY id DESC LIMIT ")) by done.
  rewrite (lex_starts [] (placeholder _)), (lex_ends [] (bs " OFFSET ")), !lex_placeholder, where_lex, page_head_lex by done.
  pose proof (where_conds_ok f ips) as Hok. unfold page_select. generalize dependent (where_conds f ips). intros cs Hok.
  change (lex [] (bs " ORDER BY id DESC LIMIT ")) with (bs <$> ["ORDER"; "BY"; "id"; "DESC"; "LIMIT"]%string).
  change (lex [] (bs " OFFSET ")) with [bs "OFFSET"]. cbn [fmap list_fmap app].
  destruct (bound_tail (n + 1) (n + 2)) as (H1 & H2 & H3). rewrite <- app_assoc. cbn [app].
  apply parse_stmt_select; [rewrite length_app; simpl; lia|].
  eapply parse_select_from; [apply parse_page_columns|done|done|exact H1|exact H2|exact H3|done].
Qed.

(** ** LIKE *)

Lemma like_b_spec ts text : like_b ts text = true ↔ like_match ts text.
Proof.
  revert text. induction ts as [|[| |c] ts IH]; intros text; cbn [like_b like_match].
  - apply bool_decide_eq_true.
  - induction text as [|x t IHt].
    + rewrite orb_false_r, IH. split; [intros H; by exists [], []|]. intros (a & b & E & H). by destruct a, b.
    + rewrite orb_true_iff, IH, IHt. split.
      * intros [H|(a & b & -> & H)]; [by exists [], (x :: t)|by exists (x :: a), b].
      * intros (a & b & E & H). destruct a as [|y a]; [left; by simpl in E; subst|]. right. injection E as <- ->. by exists a, b.
  - destruct text as [|x t]; [split; [done|by intros (? & ? & ? & ?)]|]. rewrite IH. split; [intros H; by exists x, t|].
    intros (? & ? & [= <- <-] & ?). done.
  - destruct text as [|x t]; [split; [done|by intros (? & ? & ? & ?)]|]. rewrite andb_true_iff, bool_decide_eq_true, IH.
    split; [intros [? ?]; by exists x, t|]. intros (? & ? & [= <- <-] & ? & ?). done.
Qed.
(** A text contains another, without regard to ASCII case. *)
Definition contains_ci (needle text : bytes) : bool := is_some (find_str (to_ascii_lowercase needle) (to_ascii_lowercase text)).
Lemma find_str_spec p s : is_some (find_str p s) = true ↔ ∃ a b, s = a ++ p ++ b.
Proof.
  induction s as [|c s IH]; cbn [find_str].
  - unfold starts_with. case_bool_decide as E.
    + split; [intros _|done]. exists [], []. simpl. rewrite take_nil in E. by rewrite <- E.
    + split; [done|]. intros (a & b & H). destruct a, p; try done.
  - destruct (starts_with p (c :: s)) eqn:E.
    + split; [intros _|done]. unfold starts_with in E. apply bool_decide_eq_true in E. exists [], (drop (length p) (c :: s)).
      rewrite app_nil_l. rewrite <- E at 1. by rewrite take_drop.
    + assert (is_some (S <$> find_str p s) = is_some (find_str p s)) as -> by (by destruct (find_str p s)). rewrite IH. split.
      * intros (a & b & ->). by exists (c :: a), b.
      * intros (a & b & H). destruct a as [|x a]; [|injection H as <- ->; by exists a, b].
        unfold starts_with in E. apply bool_decide_eq_false in E. destruct E. rewrite H. simpl. by rewrite take_app_length.
Qed.
Lemma lowercase_app a b : to_ascii_lowercase (a ++ b) = to_ascii_lowercase a ++ to_ascii_lowercase b.
Proof. apply map_app. Qed.
Lemma lowercase_split s a m b : to_ascii_lowercase s = a ++ m ++ b →
  ∃ a' m' b', s = a' ++ m' ++ b' ∧ to_ascii_lowercase m' = m.
Proof.
  intros H. exists (take (length a) s), (take (length m) (drop (length a) s)), (drop (length m) (drop (length a) s)).
  rewrite !take_drop. split; [done|]. unfold to_ascii_lowercase in *. change (map lower_byte ?l) with (lower_byte <$> l) in *.
  rewrite <- firstn_map. change (map lower_byte ?l) with (lower_byte <$> l). rewrite fmap_drop, H. by rewrite drop_app_length, take_app_length.
Qed.
Lemma like_contains p needle text : opt_text (like_pattern needle) = Some p → like_b (like_tokens p) text = contains_ci needle text.
Proof.
  intros Hp. apply eq_true_iff_eq. rewrite like_b_spec.
  assert (like_match (like_tokens p) text ↔ like_sql (like_pattern needle) text) as ->.
  { unfold like_pattern, like_sql in *. simpl in Hp. by simplify_eq. }
  rewrite search_substring. unfold contains_ci. rewrite find_str_spec. split.
  - intros (a & m & b & -> & Hm). exists (to_ascii_lowercase a), (to_ascii_lowercase b). by rewrite !lowercase_app, Hm.
  - intros (a & b & H). destruct (lowercase_split _ _ _ _ H) as (a' & m' & b' & -> & Hm). by exists a', m', b'.
Qed.
