(* ===== verification/StoreDbProps.v ===== *)
(** * Properties of the stores on their database: the query log is a list of entries that grows
    by whole batches, is pruned by age and is read newest first; the probe log is the list of
    its events. *)
From Stdlib Require Import Ascii.
From S2P Require Import Prelude RustStr RustNet RustFloat Rule Parser Compiler Clients QueryLog Spec ProbeLog Dto Store Sql StoreDb StoreProps SqlProps.

(** ** The tables *)

Definition queries_schema : Schema := Eval vm_compute in default {| sc_table := []; sc_columns := [] |} (parse_create QUERY_SCHEMA).
Definition probes_schema : Schema := Eval vm_compute in default {| sc_table := []; sc_columns := [] |} (parse_create PROBE_SCHEMA).
(** The schema texts create these tables, and the INSERT statements name every column in the
    order of the bound values. *)
Lemma schemas_parse : parse_create QUERY_SCHEMA = Some queries_schema ∧ parse_create PROBE_SCHEMA = Some probes_schema.
Proof. split; vm_refl. Qed.
Lemma query_insert_parses : ∃ cols k, sql_parse QUERY_INSERT_SQL = Some (SInsert (sc_table queries_schema) cols k)
  ∧ insert_matches queries_schema cols k = true.
Proof. eexists _, _. split; vm_compute; reflexivity. Qed.
Lemma probe_insert_parses : ∃ cols k, sql_parse PROBE_INSERT_SQL = Some (SInsert (sc_table probes_schema) cols k)
  ∧ insert_matches probes_schema cols k = true.
Proof. eexists _, _. split; vm_compute; reflexivity. Qed.

(** ** Rows that satisfy a clause *)

Section clauses.
Context {A : Type} (sch : Schema) (row : A → Row) (ps : list Value) (cs : list Cond) (test : A → bool).
Lemma where_rows_filter es : (∀ e, e ∈ es → conds_hold sch ps (row e) cs = Some (test e)) →
  where_rows sch ps cs (row <$> es) = Some (row <$> filter (λ e, test e = true) es).
Proof.
  induction es as [|e es IH]; intros H; [done|]. rewrite fmap_cons. cbn [where_rows]. rewrite H by left.
  cbn [mbind option_bind]. rewrite IH by (intros; apply H; by right). cbn [mbind option_bind]. rewrite filter_cons.
  destruct (test e); [by rewrite decide_True by done|]. by rewrite decide_False by done.
Qed.
Lemma delete_rows_filter es : (∀ e, e ∈ es → conds_hold sch ps (row e) cs = Some (test e)) →
  delete_rows sch ps cs (row <$> es) = Some (row <$> filter (λ e, test e = false) es).
Proof.
  induction es as [|e es IH]; intros H; [done|]. rewrite fmap_cons. cbn [delete_rows]. rewrite H by left.
  cbn [mbind option_bind]. rewrite IH by (intros; apply H; by right). cbn [mbind option_bind]. rewrite filter_cons.
  destruct (test e); [by rewrite decide_False by done|]. by rewrite decide_True by done.
Qed.
Lemma mapM_rows {B} (f : Row → option B) (g : A → B) es : (∀ e, e ∈ es → f (row e) = Some (g e)) →
  mapM f (row <$> es) = Some (g <$> es).
Proof.
  induction es as [|e es IH]; intros H; [done|]. rewrite !fmap_cons. cbn [mapM]. rewrite H by left. cbn [mbind option_bind].
  rewrite IH by (intros; apply H; by right). done.
Qed.
End clauses.
Lemma filter_Forall {A} (P Q : A → Prop) `{!∀ a, Decision (P a)} l : Forall Q l → Forall Q (filter P l).
Proof. rewrite !Forall_forall. intros HQ x [_ Hx]%list_elem_of_filter. by apply HQ. Qed.
Lemma where_rows_all sch ps rows : where_rows sch ps [] rows = Some rows.
Proof. induction rows as [|r rows IH]; [done|]. cbn [where_rows conds_hold mbind option_bind]. by rewrite IH. Qed.
Lemma delete_rows_all sch ps rows : delete_rows sch ps [] rows = Some [].
Proof. induction rows as [|r rows IH]; [done|]. cbn [delete_rows conds_hold mbind option_bind]. by rewrite IH. Qed.
Lemma mapM_params pre ips extra :
  mapM (λ n, param (pre ++ (VText <$> ips) ++ extra) n ≫= opt_text) (seq (S (length pre)) (length ips)) = Some ips.
Proof.
  revert pre. induction ips as [|ip ips IH]; intros pre; [done|]. cbn [length seq mapM param].
  rewrite lookup_app_r by done. rewrite Nat.sub_diag. cbn [fmap list_fmap app lookup list_lookup mbind option_bind opt_text].
  specialize (IH (pre ++ [VText ip])). rewrite length_app in IH. cbn [length] in IH. rewrite Nat.add_1_r in IH.
  rewrite <- app_assoc in IH. cbn [app] in IH. change (VText <$> ip :: ips) with (VText ip :: (VText <$> ips)). cbn [app].
  by rewrite IH.
Qed.
Lemma limited_fmap {A B} (f : A → B) limit offset l : limited limit offset (f <$> l) = f <$> limited limit offset l.
Proof.
  unfold limited. destruct offset as [o|], limit as [z|]; rewrite <- ?fmap_drop; try destruct (_ <? _)%Z; by rewrite <- ?fmap_take.
Qed.

(** ** Batches, in either table *)

Lemma sorted_snoc (l : list Z) x : StronglySorted Z.lt l → Forall (λ y, (y < x)%Z) l → StronglySorted Z.lt (l ++ [x]).
Proof.
  intros Hs Hl. induction Hs as [|y l Hs IH Hy]; [repeat constructor|]. apply Forall_cons in Hl as [Hyx Hl].
  cbn [app]. constructor; [by apply IH|]. apply Forall_app. by split; [|apply Forall_singleton].
Qed.
(** Keys that grow and stay within a bound. *)
Definition keyed (n : Z) (rows : list Row) : Prop :=
  StronglySorted Z.lt rows.*1 ∧ Forall (λ r : Row, (0 < r.1 <= n)%Z) rows.

Section batches.
Context {db : Type} {SD : SqlDb db} (sch : Schema) {SW : SqlDbLaws db sch} (sql : bytes).
Hypothesis sql_inserts : ∃ cols k, sql_parse sql = Some (SInsert (sc_table sch) cols k) ∧ insert_matches sch cols k = true.

Lemma insert_all_rows rows n d t r d' : d_tx d = Some t → keyed n t → (0 <= n)%Z → (n + Z.of_nat (length rows) < MAX_ROWID)%Z →
  insert_all sql rows d = (r, d') →
  d_rows d' = d_rows d ∧ (r = Ok () → ∃ ids, length ids = length rows ∧ d_tx d' = Some (t ++ zip ids rows)
                                      ∧ keyed (n + Z.of_nat (length rows)) (t ++ zip ids rows)).
Proof.
  destruct sql_inserts as (cols & k & Hp & Hm). revert n d t. induction rows as [|p rows IH]; intros n d t Ht [Hs Hb] Hn Hmax H; cbn [insert_all] in H.
  { injection H as <- <-. split; [done|]. intros _. exists []. split_and!; [done|by rewrite app_nil_r|].
    rewrite app_nil_r. split; [done|]. eapply Forall_impl; [exact Hb|]. simpl. lia. }
  cbn [length] in Hmax. destruct (d_exec sql p d) as [[m|e] d1] eqn:E.
  - assert (Hbm : Forall (λ r : Row, (r.1 < MAX_ROWID)%Z) t) by (eapply Forall_impl; [exact Hb|]; simpl; lia).
    destruct (d_insert_ok sql cols k p d m d1 t Hp Hm E Ht Hbm) as (Hr & id & Ht1 & Hpos & Hlt & Hid).
    assert (Hidn : (id <= n + 1)%Z).
    { destruct Hid as [->|(x & Hx & ->)]; [lia|]. rewrite Forall_forall in Hb. specialize (Hb x Hx). lia. }
    destruct (IH (n + 1)%Z d1 (t ++ [(id, p)]) Ht1) as [Hr2 Hok]; [|lia|lia|exact H|].
    + split.
      * rewrite fmap_app. apply sorted_snoc; [done|]. apply Forall_fmap. exact Hlt.
      * apply Forall_app. split; [|apply Forall_singleton; simpl; lia]. eapply Forall_impl; [exact Hb|]. simpl. lia.
    + split; [congruence|]. intros Hr3. destruct (Hok Hr3) as (ids & Hl & Ht2 & Hk). exists (id :: ids).
      cbn [length zip zip_with]. rewrite Hl, Ht2, <- app_assoc. split_and!; [done..|]. rewrite <- app_assoc in Hk. cbn [app] in Hk.
      replace (n + Z.of_nat (S (length rows)))%Z with (n + 1 + Z.of_nat (length rows))%Z by lia. exact Hk.
  - injection H as <- <-. split; [by eapply d_exec_err|done].
Qed.
Lemma rollback_rows d : d_rows (d_exec (bs "ROLLBACK") [] d).2 = d_rows d.
Proof using SW.
  destruct (d_exec (bs "ROLLBACK") [] d) as [[m|e] d'] eqn:Er.
  - exact (proj1 (d_rollback_ok (sch:=sch) _ _ _ _ (eq_refl : sql_parse (bs "ROLLBACK") = _) Er)).
  - exact (d_exec_err (sch:=sch) _ _ _ _ _ _ (eq_refl : sql_parse (bs "ROLLBACK") = Some SRollback) Er).
Qed.
Lemma insert_batch_rows rows n d r d' : d_tx d = None → keyed n (d_rows d) → (0 <= n)%Z → (n + Z.of_nat (length rows) < MAX_ROWID)%Z →
  insert_batch sql rows d = (r, d') →
  match r with
  | Ok _ => ∃ ids, length ids = length rows ∧ d_rows d' = d_rows d ++ zip ids rows ∧ d_tx d' = None
            ∧ keyed (n + Z.of_nat (length rows)) (d_rows d')
  | Err _ => d_rows d' = d_rows d
  end.
Proof.
  intros Hc Hk Hn Hmax H. unfold insert_batch in H.
  assert (H0 : rows = [] → r = Ok () → d' = d → ∃ ids, length ids = length rows ∧ d_rows d' = d_rows d ++ zip ids rows ∧ d_tx d' = None
            ∧ keyed (n + Z.of_nat (length rows)) (d_rows d')).
  { intros -> _ ->. exists []. rewrite app_nil_r. split_and!; [done..|]. by rewrite Z.add_0_r. }
  destruct rows as [|p rows]; [injection H as <- <-; by apply H0|]. clear H0.
  destruct (d_exec (bs "BEGIN IMMEDIATE") [] d) as [[m|e] d1] eqn:Eb.
  - destruct (d_begin_ok (sch:=sch) _ _ _ _ (eq_refl : sql_parse (bs "BEGIN IMMEDIATE") = _) Eb) as (_ & R1 & T1).
    destruct (insert_all sql (p :: rows) d1) as [[[]|e] d2] eqn:Ei.
    + destruct (insert_all_rows _ _ _ _ _ _ T1 Hk Hn Hmax Ei) as [R2 Hok]. destruct (Hok eq_refl) as (ids & Hl & T2 & Hk2).
      destruct (d_exec (bs "COMMIT") [] d2) as [[m2|e] d3] eqn:Ec; injection H as <- <-.
      * destruct (d_commit_ok (sch:=sch) _ _ _ _ (eq_refl : sql_parse (bs "COMMIT") = _) Ec) as [T3 T4]. rewrite T2 in T3. injection T3 as T3.
        exists ids. by rewrite <- T3.
      * rewrite (d_exec_err (sch:=sch) _ _ _ _ _ _ (eq_refl : sql_parse (bs "COMMIT") = Some SCommit) Ec). congruence.
    + destruct (insert_all_rows _ _ _ _ _ _ T1 Hk Hn Hmax Ei) as [R2 _]. injection H as <- <-.
      rewrite rollback_rows. congruence.
  - injection H as <- <-. by rewrite (d_begin_err (sch:=sch) _ _ _ _ (eq_refl : sql_parse (bs "BEGIN IMMEDIATE") = _) Eb).
Qed.
(** A failed COMMIT is not rolled back: if it leaves its transaction open, every later batch
    fails at BEGIN and nothing is ever written again. *)
Lemma stuck_transaction rows d : d_tx d ≠ None → rows ≠ [] → ∃ e, insert_batch sql rows d = (Err e, d).
Proof.
  intros Ht Hr. unfold insert_batch. destruct rows; [done|]. destruct (d_exec (bs "BEGIN IMMEDIATE") [] d) as [[m|e] d1] eqn:Eb.
  - by destruct (d_begin_ok (sch:=sch) _ _ _ _ (eq_refl : sql_parse (bs "BEGIN IMMEDIATE") = _) Eb) as [? _].
  - exists e. by rewrite (d_begin_err (sch:=sch) _ _ _ _ (eq_refl : sql_parse (bs "BEGIN IMMEDIATE") = _) Eb).
Qed.
End batches.

(** ** What the query log promises *)

(** The client filter's test on names. *)
Definition named `{IpNetLib} (clients : ClientMatcher) (needle ip : bytes) : bool :=
  match name_for_str clients ip with
  | Some (Some n) => contains_ci needle n
  | _ => false
  end.
(** The entries a filter selects. *)
Definition log_matches `{IpNetLib} (f : LogFilter) (clients : ClientMatcher) (e : QueryLogEntry) : bool :=
  (negb (lf_blocked_only f) || entry_is_blocked e)
  && match nonempty (lf_search f) with Some s => contains_ci s (le_question e) | None => true end
  && match nonempty (lf_client f) with
     | Some c => contains_ci c (le_client_ip e) || named clients c (le_client_ip e)
     | None => true
     end.
(** The page of a log, oldest entry first, that a query shows. *)
Definition log_page `{IpNetLib} (f : LogFilter) (offset limit : nat) (clients : ClientMatcher) (log : list QueryLogEntry) : LogPage :=
  let hits := filter (λ e, log_matches f clients e = true) log in
  {| lp_entries := take limit (drop offset (reverse hits)); lp_total := length hits |}.

Section query_log.
Context {db : Type} {SD : SqlDb db} {SW : SqlDbLaws db queries_schema} {IL : IpNetLib}.
Context (answers_json : list bytes → option bytes) (answers_of_json : bytes → option (list bytes)) (row_error : bytes).

Definition entry_row (e : QueryLogEntry) : Row := (le_id e, insert_params answers_json e).
Definition storable (e : QueryLogEntry) : Prop :=
  entry_widths e ∧ ∃ json, answers_json (le_answers e) = Some json ∧ answers_of_json json = Some (le_answers e).
(** The database holds a log: its rows are the entries, under ids that grow. *)
Record holds (d : db) (log : list QueryLogEntry) : Prop := {
  ho_rows : d_rows d = entry_row <$> log;
  ho_storable : Forall storable log;
  ho_ids : Forall (λ e, in_u 63 (le_id e)) log;
  ho_sorted : StronglySorted Z.lt (le_id <$> log);
}.

Ltac by_action := intros; unfold entry_row, insert_params; match goal with e : QueryLogEntry |- _ => destruct e as [? ? ? ? ? [] ? ? ? ?] end; reflexivity.
Lemma column_blocked e : column queries_schema (entry_row e) (bs "blocked") = Some (VInteger (bool_int (entry_is_blocked e))).
Proof. by_action. Qed.
Lemma column_question e : column queries_schema (entry_row e) (bs "question") = Some (VText (le_question e)).
Proof. by_action. Qed.
Lemma column_client e : column queries_schema (entry_row e) (bs "client_ip") = Some (VText (le_client_ip e)).
Proof. by_action. Qed.
Lemma column_time e : column queries_schema (entry_row e) (bs "time_ms") = Some (VInteger (le_time_ms e)).
Proof. by_action. Qed.
Lemma columns_selected e : mapM (column queries_schema (entry_row e)) page_columns = Some (selected (le_id e) (insert_params answers_json e)).
Proof. by_action. Qed.

(** The addresses of the client filter, for the entries of the log. *)
Lemma matching_ips_spec clients needle ips out : matching_ips clients (to_ascii_lowercase needle) ips = Some out →
  ∀ ip, ip ∈ out ↔ ip ∈ ips ∧ named clients needle ip = true.
Proof.
  revert out. induction ips as [|i ips IH]; intros out H ip; cbn [matching_ips] in H.
  { simplify_eq. rewrite elem_of_nil. naive_solver. }
  destruct (name_for_str clients i) as [name|] eqn:En; [|done]. cbn [mbind option_bind] in H.
  destruct (matching_ips clients _ ips) as [rest|] eqn:Er; [|done]. cbn [mbind option_bind] in H.
  assert (Hn : named clients needle i = match name with Some n => contains_ci needle n | None => false end) by (unfold named; rewrite En; by destruct name).
  specialize (IH rest eq_refl ip). injection H as <-.
  assert (Hc : ip ∈ (if named clients needle i then i :: rest else rest) ↔ ip ∈ i :: ips ∧ named clients needle ip = true).
  { rewrite elem_of_cons. destruct (named clients needle i) eqn:E; [rewrite elem_of_cons|]; rewrite IH; naive_solver congruence. }
  rewrite <- Hc, Hn. unfold contains_ci. by destruct name as [n|].
Qed.
Definition ips_match (f : LogFilter) (clients : ClientMatcher) (ips : list bytes) (e : QueryLogEntry) : Prop :=
  ∀ c, nonempty (lf_client f) = Some c → (le_client_ip e ∈ ips ↔ named clients c (le_client_ip e) = true).
Lemma like_holds ps n col text needle e : param ps n = Some (like_pattern needle) →
  column queries_schema (entry_row e) col = Some (VText text) →
  cond_holds queries_schema ps (entry_row e) (CLike col n) = Some (contains_ci needle text).
Proof.
  intros Hp Hc. cbn [cond_holds]. rewrite Hc, Hp. cbn [mbind option_bind opt_text].
  destruct (opt_text (like_pattern needle)) as [p|] eqn:E; [|done]. cbn [mbind option_bind]. by rewrite (like_contains _ _ _ E).
Qed.
Lemma client_cond_holds f clients c ips pre extra e :
  nonempty (lf_client f) = Some c → ips_match f clients ips e →
  cond_holds queries_schema ((pre ++ [like_pattern c]) ++ (VText <$> ips) ++ extra) (entry_row e)
    (match ips with
     | [] => CLike (bs "client_ip") (S (length pre))
     | _ => COr (CLike (bs "client_ip") (S (length pre))) (CIn (bs "client_ip") (seq (S (S (length pre))) (length ips)))
     end)
  = Some (contains_ci c (le_client_ip e) || named clients c (le_client_ip e)).
Proof.
  intros Hc Hm. specialize (Hm c Hc).
  assert (HL : cond_holds queries_schema ((pre ++ [like_pattern c]) ++ (VText <$> ips) ++ extra) (entry_row e) (CLike (bs "client_ip") (S (length pre)))
               = Some (contains_ci c (le_client_ip e))).
  { apply like_holds; [|apply column_client]. cbn [param]. rewrite lookup_app_l by (rewrite length_app; simpl; lia). by rewrite lookup_app_r, Nat.sub_diag by done. }
  assert (Hb : bool_decide (le_client_ip e ∈ ips) = named clients c (le_client_ip e)).
  { destruct (named clients c _) eqn:E; [by apply bool_decide_eq_true, Hm|]. apply bool_decide_eq_false. intros Hi%Hm. congruence. }
  destruct ips as [|i ips].
  - rewrite HL. rewrite <- Hb. rewrite bool_decide_false by apply not_elem_of_nil. by rewrite orb_false_r.
  - remember (i :: ips) as l. cbn [cond_holds] in *. rewrite HL. cbn [mbind option_bind]. rewrite column_client. cbn [mbind option_bind opt_text].
    pose proof (mapM_params (pre ++ [like_pattern c]) l extra) as Hp. rewrite length_app in Hp. cbn [length] in Hp. rewrite Nat.add_1_r in Hp.
    rewrite Hp. cbn [mbind option_bind]. by rewrite Hb.
Qed.
Lemma where_holds f clients ips extra e : ips_match f clients ips e →
  conds_hold queries_schema ((build_where f ips).2 ++ extra) (entry_row e) (where_conds f ips) = Some (log_matches f clients e).
Proof.
  intros Hm. unfold where_conds, log_matches.
  pose proof (λ c pre, client_cond_holds f clients c ips pre extra e) as HC.
  assert (HB : ∀ ps, cond_holds queries_schema ps (entry_row e) (CCmp (bs "blocked") CmpEq (OInt 1)) = Some (entry_is_blocked e)).
  { intros ps. cbn [cond_holds]. rewrite column_blocked. by destruct (entry_is_blocked e). }
  assert (HS : ∀ s ps, cond_holds queries_schema (like_pattern s :: ps) (entry_row e) (CLike (bs "question") 1) = Some (contains_ci s (le_question e))).
  { intros s ps. by apply like_holds; [|apply column_question]. }
  unfold build_where. destruct (nonempty (lf_search f)) as [s|], (nonempty (lf_client f)) as [c|].
  - specialize (HC c [like_pattern s] eq_refl Hm). cbn [length app] in HC.
    destruct (lf_blocked_only f), ips; cbn [app conds_hold snd fmap list_fmap] in *; rewrite ?HB, ?HS, HC;
      destruct (entry_is_blocked e), (contains_ci s _); cbn; by rewrite ?andb_true_r.
  - destruct (lf_blocked_only f); cbn [app conds_hold snd]; rewrite ?HB, HS;
      destruct (entry_is_blocked e), (contains_ci s _); reflexivity.
  - specialize (HC c [] eq_refl Hm). cbn [length app] in HC.
    destruct (lf_blocked_only f), ips; cbn [app conds_hold snd fmap list_fmap] in *; rewrite ?HB, HC;
      destruct (entry_is_blocked e); cbn; by rewrite ?andb_true_r.
  - destruct (lf_blocked_only f); cbn [app conds_hold snd]; rewrite ?HB; destruct (entry_is_blocked e); reflexivity.
Qed.

(** ** Reading *)

Lemma read_rows_inv {A} (f : list Value → option A) rows out : read_rows row_error f rows = Ok out → Forall2 (λ r a, f r = Some a) rows out.
Proof.
  revert out. induction rows as [|r rows IH]; intros out H; cbn [read_rows] in H; [by simplify_eq|].
  destruct (f r) as [a|] eqn:E; [|done]. cbn [ok_or result_bind] in H.
  destruct (read_rows row_error f rows) as [out'|]; [|done]. cbn [result_bind] in H. injection H as <-. constructor; [done|by apply IH].
Qed.
Lemma read_rows_fmap {A} (f : list Value → option A) (g : A → list Value) es : (∀ e, e ∈ es → f (g e) = Some e) →
  read_rows row_error f (g <$> es) = Ok es.
Proof.
  induction es as [|e es IH]; intros H; [done|]. rewrite fmap_cons. cbn [read_rows]. rewrite H by left. cbn [ok_or result_bind].
  rewrite IH by (intros; apply H; by right). done.
Qed.
Lemma stored_entry e : storable e → in_u 63 (le_id e) →
  row_to_entry answers_of_json (selected (le_id e) (insert_params answers_json e)) = Some e.
Proof.
  intros (Hw & json & Hj & Ho) Hid. rewrite (entry_roundtrip answers_json answers_of_json _ _ json) by done. by destruct e.
Qed.

Definition distinct_sql : bytes := bs "SELECT DISTINCT client_ip FROM queries".
Definition distinct_select : Select :=
  {| sl_columns := ColDistinct (bs "client_ip"); sl_table := bs "queries"; sl_where := []; sl_order := None; sl_limit := None; sl_offset := None |}.
Lemma distinct_parses : sql_parse distinct_sql = Some (SSelect distinct_select).
Proof. vm_refl. Qed.
Lemma distinct_rows d log rows : holds d log → d_query distinct_sql [] d = Ok rows →
  (∀ ip, [VText ip] ∈ rows ↔ ip ∈ le_client_ip <$> log) ∧ Forall (λ r, ∃ ip, r = [VText ip]) rows.
Proof.
  intros Hh Hq.
  assert (Hw : where_rows queries_schema [] [] (d_rows d) = Some (entry_row <$> log)).
  { rewrite (ho_rows _ _ Hh). apply where_rows_all. }
  assert (Hv : mapM (λ r, column queries_schema r (bs "client_ip")) (entry_row <$> log) = Some (VText ∘ le_client_ip <$> log)).
  { apply mapM_rows. intros e _. apply column_client. }
  destruct (d_query_ok (sch:=queries_schema) distinct_sql distinct_select [] d rows distinct_parses eq_refl Hq) as (sel & l & o & Hs & _ & _ & Hc).
  { exists ((λ v, [v]) <$> remove_dups (VText ∘ le_client_ip <$> log)), (entry_row <$> log), None, None. split_and!; [done..|]. cbn [sl_columns distinct_select].
    split_and!; [done..|]. eexists. split; [exact Hv|]. split_and!.
    - apply NoDup_fmap; [intros ? ? ?; congruence|apply NoDup_remove_dups].
    - intros v. rewrite list_elem_of_fmap. setoid_rewrite elem_of_remove_dups. naive_solver.
    - apply Forall_fmap, Forall_true. done. }
  cbn [sl_where sl_columns distinct_select] in *. rewrite Hw in Hs. injection Hs as <-. destruct Hc as (_ & _ & vs & Hvs & _ & Hin & Hone).
  rewrite Hv in Hvs. injection Hvs as <-. split; [intros ip; rewrite Hin, !list_elem_of_fmap; unfold compose; naive_solver|].
  apply Forall_forall. intros r Hr. rewrite Forall_forall in Hone. destruct r as [|v [|? ?]]; try (by specialize (Hone _ Hr)).
  apply Hin, list_elem_of_fmap in Hr as (e & -> & _). by exists (le_client_ip e).
Qed.
Lemma name_ips_match f clients d log ips e : holds d log → name_ips row_error f clients d = Some (Ok ips) → e ∈ log →
  ips_match f clients ips e.
Proof.
  intros Hh Hn He c Hc. unfold name_ips in Hn. rewrite Hc in Hn. unfold distinct_client_ips_matching in Hn. fold distinct_sql in Hn.
  destruct (d_query distinct_sql [] d) as [rows|] eqn:Eq; [|done]. cbn [result_bind] in Hn.
  destruct (read_rows row_error _ rows) as [all|] eqn:Er; [|done].
  destruct (matching_ips clients _ all) as [out|] eqn:Em; [|done]. cbn in Hn. injection Hn as <-.
  rewrite (matching_ips_spec _ _ _ _ Em). split; [by intros [_ ?]|]. intros Hname. split; [|done].
  assert (Hin : [VText (le_client_ip e)] ∈ rows) by (apply (proj1 (distinct_rows _ _ _ Hh Eq)); by apply list_elem_of_fmap_2).
  apply read_rows_inv in Er. apply list_elem_of_lookup in Hin as [i Hi]. destruct (Forall2_lookup_l _ _ _ _ _ Er Hi) as (ip & Hip & Hg).
  cbn in Hg. injection Hg as <-. by eapply list_elem_of_lookup_2.
Qed.

Lemma clause_hits f clients ips extra log : (∀ e, e ∈ log → ips_match f clients ips e) →
  where_rows queries_schema ((build_where f ips).2 ++ extra) (where_conds f ips) (entry_row <$> log)
  = Some (entry_row <$> filter (λ e, log_matches f clients e = true) log).
Proof. intros H. apply where_rows_filter. intros e He. by apply where_holds, H. Qed.
Lemma count_result f clients ips d log out : holds d log → (∀ e, e ∈ log → ips_match f clients ips e) →
  d_query (bs "SELECT COUNT(*) FROM queries" ++ (build_where f ips).1) (build_where f ips).2 d = Ok out →
  out = [[VInteger (Z.of_nat (length (filter (λ e, log_matches f clients e = true) log)))]].
Proof.
  intros Hh Hm Hq. pose proof (clause_hits f clients ips [] log Hm) as Hc. rewrite app_nil_r, <- (ho_rows _ _ Hh) in Hc.
  destruct (d_query_ok (sch:=queries_schema) _ _ _ _ _ (count_parses f ips) eq_refl Hq) as (sel & l & o & Hs & Hl & Ho & Hr).
  { eexists _, _, None, None. split_and!; [exact Hc|done..]. }
  cbn [sl_where sl_columns sl_limit sl_offset count_select bound] in *. rewrite Hc in Hs. injection Hs as <-. injection Hl as <-. injection Ho as <-.
  rewrite Hr. unfold limited. by rewrite length_fmap.
Qed.
Lemma page_result f clients ips d log (limit offset : nat) out : holds d log → (∀ e, e ∈ log → ips_match f clients ips e) →
  let n := length (build_where f ips).2 in
  d_query (page_head ++ (build_where f ips).1 ++ bs " ORDER BY id DESC LIMIT " ++ placeholder (n + 1) ++ bs " OFFSET " ++ placeholder (n + 2))
    ((build_where f ips).2 ++ [VInteger (Z.of_nat limit); VInteger (Z.of_nat offset)]) d = Ok out →
  out = (λ e, selected (le_id e) (insert_params answers_json e)) <$> take limit (drop offset (reverse (filter (λ e, log_matches f clients e = true) log))).
Proof.
  intros Hh Hm n Hq. set (hits := filter _ log). set (ps := (build_where f ips).2 ++ _) in *.
  pose proof (clause_hits f clients ips [VInteger (Z.of_nat limit); VInteger (Z.of_nat offset)] log Hm) as Hc. rewrite <- (ho_rows _ _ Hh) in Hc.
  fold hits ps in Hc.
  assert (Hl : bound ps (Some (OParam (n + 1))) = Some (Some (Z.of_nat limit))).
  { unfold bound. cbn [operand]. rewrite Nat.add_1_r. cbn [param]. unfold ps. by rewrite lookup_app_r, Nat.sub_diag. }
  assert (Ho : bound ps (Some (OParam (n + 2))) = Some (Some (Z.of_nat offset))).
  { unfold bound. cbn [operand]. replace (n + 2) with (S (n + 1)) by lia. cbn [param]. unfold ps. rewrite lookup_app_r by lia. by replace (n + 1 - _) with 1 by lia. }
  assert (Hcols : mapM (λ r, mapM (column queries_schema r) page_columns) (entry_row <$> hits)
                  = Some ((λ e, selected (le_id e) (insert_params answers_json e)) <$> hits)).
  { apply mapM_rows. intros e _. apply columns_selected. }
  destruct (d_query_ok (sch:=queries_schema) _ _ _ _ _ (page_parses f ips n) eq_refl Hq) as (sel & l & o & Hs & Hl' & Ho' & Hr).
  { eexists _, _, _, _. split_and!; [exact Hc|exact Hl|exact Ho|]. cbn [sl_columns page_select]. eexists. split; [exact Hcols|reflexivity]. }
  cbn [sl_where sl_columns sl_limit sl_offset sl_order page_select] in *. rewrite Hc in Hs. rewrite Hl in Hl'. rewrite Ho in Ho'.
  injection Hs as <-. injection Hl' as <-. injection Ho' as <-. destruct Hr as (outs & Hm2 & ->). rewrite Hcols in Hm2. injection Hm2 as <-.
  rewrite <- fmap_reverse, limited_fmap. unfold limited. rewrite !Nat2Z.id. by destruct (Z.ltb_spec (Z.of_nat limit) 0); [lia|].
Qed.
(** The addresses of the client filter are read without an error of the store's own, and
    without a panic for the clients of a configuration. *)
Lemma read_texts rows : Forall (λ r, ∃ ip, r = [VText ip]) rows → ∃ ips, read_rows row_error (λ r, get_text r 0) rows = Ok ips.
Proof. induction 1 as [|r rows (ip & ->) _ (ips & IH)]; [by exists []|]. exists (ip :: ips). cbn. by rewrite IH. Qed.
Lemma name_ips_error f clients d log e : holds d log → name_ips row_error f clients d = Some (Err e) → ∃ sql ps, d_query sql ps d = Err e.
Proof.
  intros Hh. unfold name_ips. destruct (nonempty (lf_client f)); [|done]. unfold distinct_client_ips_matching. fold distinct_sql.
  destruct (d_query distinct_sql [] d) as [rows|e'] eqn:Eq; cbn [result_bind]; [|intros [= <-]; eauto].
  destruct (read_texts _ (proj2 (distinct_rows _ _ _ Hh Eq))) as [ips ->]. by destruct (matching_ips _ _ _).
Qed.
Lemma matching_ips_runs cfg needle ips : is_Some (matching_ips (build_matcher cfg) needle ips).
Proof.
  induction ips as [|ip ips [out IH]]; [by eexists|]. cbn [matching_ips]. rewrite IH. unfold name_for_str, name_for.
  destruct (parse_ip ip) as [a|]; [destruct (best_match_identifies cfg a) as (o & _ & ->)|]; by eexists.
Qed.
Lemma query_runs cfg f offset limit d : is_Some (query row_error answers_of_json f offset limit (build_matcher cfg) d d d).
Proof.
  unfold query. enough (is_Some (name_ips row_error f (build_matcher cfg) d)) as [ips ->] by (by eexists).
  unfold name_ips. destruct (nonempty (lf_client f)) as [c|]; [|by eexists]. unfold distinct_client_ips_matching.
  destruct (let? rows := _ in _) as [ips|e]; [|by eexists]. destruct (matching_ips_runs cfg (to_ascii_lowercase c) ips) as [out ->]. by eexists.
Qed.
(** A query that returns answers from the log, or with an error of the database. *)
Lemma query_result f offset limit clients d log r : holds d log → (Z.of_nat offset < 2 ^ 63)%Z → (Z.of_nat limit < 2 ^ 63)%Z →
  query row_error answers_of_json f offset limit clients d d d = Some r →
  match r with Ok page => page = log_page f offset limit clients log | Err e => ∃ sql ps, d_query sql ps d = Err e end.
Proof.
  intros Hh Hof Hli. unfold query. destruct (name_ips row_error f clients d) as [ips|] eqn:En; [|done]. cbn [mbind option_bind].
  destruct ips as [ips|e]; [|intros [= <-]; by eapply name_ips_error]. intros [= H]. pose proof (λ e, name_ips_match _ _ _ _ _ e Hh En) as Hm.
  unfold page_query in H. pose proof (count_result f clients ips d log) as HC. pose proof (page_result f clients ips d log limit offset) as HP.
  destruct (build_where f ips) as [w ps]. cbn [fst snd] in *. cbn [result_bind] in H.
  unfold as_i64 in H. rewrite (proj2 (Z.ltb_lt _ _) Hof), (proj2 (Z.ltb_lt _ _) Hli) in H.
  rewrite length_app in H. cbn [length] in H. replace (length ps + 2 - 2) with (length ps) in H by lia. rewrite take_app_length in H.
  destruct (d_query _ ps d) as [counts|e] eqn:Ec; cbn [result_bind] in H; [|subst r; eauto].
  rewrite (HC counts Hh Hm eq_refl) in H. cbn [get_int ok_or] in H.
  fold page_head in H. destruct (d_query _ _ d) as [rows|e] eqn:Er in H; cbn in H; [|subst r; eauto]. rewrite (HP rows Hh Hm Er) in H.
  rewrite read_rows_fmap in H.
  - cbn [result_bind] in H. subst r. unfold log_page. f_equal. lia.
  - intros e He. assert (He' : e ∈ log).
    { apply elem_of_take in He as (i & Hi & _). rewrite lookup_drop in Hi. apply list_elem_of_lookup_2 in Hi.
      rewrite elem_of_reverse, list_elem_of_filter in Hi. by destruct Hi. }
    apply stored_entry; [exact (proj1 (Forall_forall _ _) (ho_storable _ _ Hh) e He')|exact (proj1 (Forall_forall _ _) (ho_ids _ _ Hh) e He')].
Qed.

(** ** Writing *)

Definition ids_upto (n : Z) (log : list QueryLogEntry) : Prop := Forall (λ e, (0 < le_id e <= n)%Z) log.
Lemma keyed_log n log : StronglySorted Z.lt (le_id <$> log) → ids_upto n log → keyed n (entry_row <$> log).
Proof.
  intros Hs Hi. split; [|by apply Forall_fmap]. assert ((entry_row <$> log).*1 = le_id <$> log) as ->; [|done].
  rewrite <- list_fmap_compose. by apply list_fmap_ext.
Qed.
Lemma rows_with_ids ids es : length ids = length es → zip ids (insert_params answers_json <$> es) = entry_row <$> zip_with with_entry_id ids es.
Proof.
  revert es. induction ids as [|i ids IH]; intros [|e es] Hl; cbn [length] in Hl; try lia; [done|]. rewrite fmap_cons. cbn [zip zip_with].
  rewrite fmap_cons, <- IH by lia. by destruct e.
Qed.
Lemma storable_with_id id e : storable e → storable (with_entry_id id e).
Proof. done. Qed.
Lemma zip_storable ids es : Forall storable es → Forall storable (zip_with with_entry_id ids es).
Proof. revert ids. induction es as [|e es IH]; intros [|i ids] H; simpl; auto. apply Forall_cons in H as [? ?]. constructor; [done|by apply IH]. Qed.
Lemma insert_holds es n d log r d' : holds d log → d_tx d = None → ids_upto n log → (0 <= n)%Z → Forall storable es →
  (n + Z.of_nat (length es) < MAX_ROWID)%Z → insert_batch QUERY_INSERT_SQL (insert_params answers_json <$> es) d = (r, d') →
  match r with
  | Ok _ => ∃ ids, length ids = length es ∧ holds d' (log ++ zip_with with_entry_id ids es) ∧ d_tx d' = None
            ∧ ids_upto (n + Z.of_nat (length es)) (log ++ zip_with with_entry_id ids es)
  | Err _ => holds d' log
  end.
Proof.
  intros Hh Hc Hi Hn Hst Hmax H.
  assert (Hl : length (insert_params answers_json <$> es) = length es) by apply length_fmap.
  pose proof (insert_batch_rows queries_schema QUERY_INSERT_SQL query_insert_parses (insert_params answers_json <$> es) n d r d' Hc) as HB.
  rewrite Hl in HB. rewrite (ho_rows _ _ Hh) in HB.
  specialize (HB (keyed_log n log (ho_sorted _ _ Hh) Hi) Hn Hmax H).
  destruct r as [u|e].
  - destruct HB as (ids & Hlen & HR & HT & [HS HF]). exists ids. rewrite rows_with_ids in HR by done. rewrite <- fmap_app in HR.
    rewrite HR in HS, HF. apply (Forall_fmap entry_row) in HF.
    assert (HF' : ids_upto (n + Z.of_nat (length es)) (log ++ zip_with with_entry_id ids es)) by exact HF.
    assert (HS' : StronglySorted Z.lt (le_id <$> (log ++ zip_with with_entry_id ids es))).
    { rewrite <- list_fmap_compose in HS. exact HS. }
    split_and!; [done| |done|done]. constructor; [done| | |done].
    + apply Forall_app. split; [apply Hh|by apply zip_storable].
    + eapply Forall_impl; [exact HF'|]. unfold in_u, MAX_ROWID in *. simpl. lia.
  - destruct Hh. by constructor; [rewrite HB|..].
Qed.

Lemma sorted_filter (P : QueryLogEntry → Prop) `{!∀ e, Decision (P e)} log : StronglySorted Z.lt (le_id <$> log) → StronglySorted Z.lt (le_id <$> filter P log).
Proof.
  induction log as [|e log IH]; intros Hss; [constructor|]. rewrite fmap_cons in Hss. apply StronglySorted_inv in Hss as [Hs Hf]. rewrite filter_cons. case_decide; [|by apply IH].
  rewrite fmap_cons. constructor; [by apply IH|]. rewrite Forall_fmap in Hf. rewrite Forall_fmap. by apply filter_Forall.
Qed.
Lemma holds_filter d d' log (P : QueryLogEntry → Prop) `{!∀ e, Decision (P e)} : holds d log → d_rows d' = entry_row <$> filter P log → holds d' (filter P log).
Proof.
  intros [] HR. constructor; [done|by apply filter_Forall|by apply filter_Forall|by apply sorted_filter].
Qed.
Definition prune_sql : bytes := bs "DELETE FROM queries WHERE time_ms < ?1".
Lemma prune_parses : sql_parse prune_sql = Some (SDelete (sc_table queries_schema) [CCmp (bs "time_ms") CmpLt (OParam 1)]).
Proof. vm_refl. Qed.
Lemma clear_parses : sql_parse (bs "DELETE FROM queries") = Some (SDelete (sc_table queries_schema) []).
Proof. vm_refl. Qed.
(** What a prune keeps. *)
Definition kept (cutoff_ms : Z) (log : list QueryLogEntry) : list QueryLogEntry := filter (λ e, (le_time_ms e <? cutoff_ms)%Z = false) log.
Lemma prune_holds cutoff d log r d' : holds d log → d_tx d = None → query_delete_older_than cutoff d = (r, d') →
  d_tx d' = None ∧ match r with
                   | Ok n => holds d' (kept cutoff log) ∧ n = Z.of_nat (length log - length (kept cutoff log))
                   | Err _ => holds d' log
                   end.
Proof.
  intros Hh Hc H. unfold query_delete_older_than in H. fold prune_sql in H.
  assert (HD : delete_rows queries_schema [VInteger cutoff] [CCmp (bs "time_ms") CmpLt (OParam 1)] (d_rows d) = Some (entry_row <$> kept cutoff log)).
  { rewrite (ho_rows _ _ Hh). apply delete_rows_filter. intros e _. cbn [conds_hold cond_holds]. rewrite column_time. cbn. by rewrite andb_true_r. }
  destruct r as [n|e].
  - destruct (d_delete_ok _ _ _ _ _ _ _ prune_parses H Hc HD) as (HR & HT & ->). split; [done|]. split; [by eapply holds_filter|].
    by rewrite (ho_rows _ _ Hh), !length_fmap.
  - split; [by eapply (d_delete_err (sch:=queries_schema)); [apply prune_parses|..]|].
    pose proof (d_exec_err (sch:=queries_schema) _ _ _ _ _ _ prune_parses H) as HR. destruct Hh. by constructor; [rewrite HR|..].
Qed.
Lemma clear_holds d log r d' : holds d log → d_tx d = None → query_clear d = (r, d') →
  d_tx d' = None ∧ match r with Ok _ => holds d' [] | Err _ => holds d' log end.
Proof.
  intros Hh Hc H. unfold query_clear, clear_table in H. destruct (d_exec _ [] d) as [[n|e] d1] eqn:E; injection H as <- <-.
  - destruct (d_delete_ok _ _ _ _ _ _ _ clear_parses E Hc (delete_rows_all _ _ _)) as (HR & HT & _). split; [done|].
    constructor; [by rewrite HR|constructor..].
  - split; [by eapply (d_delete_err (sch:=queries_schema)); [apply clear_parses|..]|].
    pose proof (d_exec_err (sch:=queries_schema) _ _ _ _ _ _ clear_parses E) as HR. destruct Hh. by constructor; [rewrite HR|..].
Qed.
End query_log.
