(* ===== verification/StoreInstances.v ===== *)
(** * A database in memory: rows in key order, with the rows of an open transaction aside.  It
    reads the statements with [sql_parse] and satisfies the laws of [Sql]. *)
From Stdlib Require Import Ascii.
From S2P Require Import Prelude RustStr RustNet RustFloat Rule Parser Compiler Clients QueryLog Spec ProbeLog Dto Store Sql StoreDb StoreProps SqlProps StoreDbProps.

Record MemDb : Type := { md_rows : list Row; md_tx : option (list Row) }.
Definition mem_empty : MemDb := {| md_rows := []; md_tx := None |}.

Section mem.
Context (sch : Schema).
Definition failed {A} : result A bytes := Err (bs "statement failed").
Definition max_key (rows : list Row) : Z := foldr (λ r m, Z.max r.1 m) 0%Z rows.
Definition mem_exec (sql : bytes) (ps : list Value) (d : MemDb) : result Z bytes * MemDb :=
  match sql_parse sql, md_tx d with
  | Some SBegin, None => (Ok 0%Z, {| md_rows := md_rows d; md_tx := Some (md_rows d) |})
  | Some (SInsert table cols k), Some t =>
      if bool_decide (table = sc_table sch) && insert_matches sch cols k && (max_key t <? MAX_ROWID)%Z
      then (Ok 1%Z, {| md_rows := md_rows d; md_tx := Some (t ++ [(max_key t + 1, ps)%Z]) |})
      else (failed, d)
  | Some SCommit, Some t => (Ok 0%Z, {| md_rows := t; md_tx := None |})
  | Some SRollback, _ => (Ok 0%Z, {| md_rows := md_rows d; md_tx := None |})
  | Some (SDelete table conds), None =>
      match (if bool_decide (table = sc_table sch) then delete_rows sch ps conds (md_rows d) else None) with
      | Some rest => (Ok (Z.of_nat (length (md_rows d) - length rest)), {| md_rows := rest; md_tx := None |})
      | None => (failed, d)
      end
  | _, _ => (failed, d)
  end.
Definition mem_select (q : Select) (ps : list Value) (rows : list Row) : option (list (list Value)) :=
  let! sel := where_rows sch ps (sl_where q) rows in
  let! limit := bound ps (sl_limit q) in
  let! offset := bound ps (sl_offset q) in
  match sl_columns q with
  | ColCount => Some (limited limit offset [[VInteger (Z.of_nat (length sel))]])
  | ColDistinct col =>
      match sl_limit q, sl_offset q with
      | None, None => let! vs := mapM (λ r, column sch r col) sel in Some ((λ v, [v]) <$> remove_dups vs)
      | _, _ => None
      end
  | ColList cols =>
      let! outs := mapM (λ r, mapM (column sch r) cols) sel in
      Some (limited limit offset (match sl_order q with Some Descending => reverse outs | _ => outs end))
  end.
Definition mem_query (sql : bytes) (ps : list Value) (d : MemDb) : result (list (list Value)) bytes :=
  match sql_parse sql with
  | Some (SSelect q) => ok_or (mem_select q ps (md_rows d)) (bs "statement failed")
  | _ => failed
  end.
Definition mem_db : SqlDb MemDb := {| d_exec := mem_exec; d_query := mem_query; d_rows := md_rows; d_tx := md_tx |}.

Lemma mem_select_sound q ps rows out : mem_select q ps rows = Some out → select_rows sch q ps rows out.
Proof.
  unfold mem_select, select_rows. intros H. destruct (where_rows sch ps (sl_where q) rows) as [sel|]; [|done].
  destruct (bound ps (sl_limit q)) as [limit|]; [|done]. destruct (bound ps (sl_offset q)) as [offset|]; [|done]. cbn [mbind option_bind] in H.
  exists sel, limit, offset. split_and!; [done..|]. destruct (sl_columns q) as [|col|cols].
  - by injection H.
  - destruct (sl_limit q), (sl_offset q); try done. destruct (mapM _ sel) as [vs|] eqn:Ev; [|done]. cbn in H. injection H as <-.
    split_and!; [done..|]. exists vs. split_and!; [done|apply NoDup_fmap; [intros ? ? ?; congruence|apply NoDup_remove_dups]| |].
    + intros v. rewrite list_elem_of_fmap. setoid_rewrite elem_of_remove_dups. naive_solver.
    + apply Forall_fmap, Forall_true. done.
  - destruct (mapM _ sel) as [outs|] eqn:Ev; [|done]. cbn in H. injection H as <-. exists outs. split; [done|].
    destruct (sl_order q) as [[]|]; [done..|]. by exists outs.
Qed.
Lemma max_key_spec t : Forall (λ r : Row, (r.1 <= max_key t)%Z) t ∧ (0 <= max_key t)%Z ∧ (max_key t = 0 ∨ ∃ r, r ∈ t ∧ max_key t = r.1)%Z.
Proof.
  induction t as [|r t (Hf & H0 & Hm)]; [split_and!; [constructor|done|by left]|]. cbn [max_key foldr]. fold (max_key t). split_and!.
  - constructor; [lia|]. eapply Forall_impl; [exact Hf|]. simpl. lia.
  - lia.
  - destruct (Z.max_spec r.1 (max_key t)) as [[Hlt ->]|[Hge ->]].
    + destruct Hm as [Hm|(x & Hx & Hm)]; [by left|]. right. exists x. split; [by right|done].
    + right. exists r. split; [left|done].
Qed.
Lemma mem_db_laws : SqlDbLaws (SD:=mem_db) MemDb sch.
Proof.
  constructor; cbn [d_exec d_query d_rows d_tx mem_db]; unfold mem_exec, mem_query.
  - intros sql d n d' ->. destruct (md_tx d); [done|]. by intros [= <- <-].
  - intros sql d e d' ->. destruct (md_tx d); [|done]. by intros [= _ <-].
  - intros sql cols k ps d n d' t -> Hm H Ht Hb. rewrite Ht, Hm, bool_decide_true in H by done. cbn [andb] in H.
    destruct (Z.ltb_spec (max_key t) MAX_ROWID); [|done]. injection H as <- <-. split; [done|]. exists (max_key t + 1)%Z.
    destruct (max_key_spec t) as (Hf & Hz & Hx). split_and!; [done|lia|eapply Forall_impl; [exact Hf|]; simpl; lia|].
    destruct Hx as [->|(x & Hin & ->)]; [by left|]. right. by exists x.
  - intros sql d n d' ->. destruct (md_tx d); [|done]. by intros [= <- <-].
  - intros sql d n d' ->. by destruct (md_tx d); intros [= <- <-].
  - intros sql conds ps d n d' rest -> H Ht Hd. rewrite Ht, bool_decide_true, Hd in H by done. by injection H as <- <-.
  - intros sql conds ps d e d' -> H Ht. rewrite Ht in H. case_bool_decide; [|by injection H as _ <-]. by destruct (delete_rows _ _ _ _); [|injection H as _ <-].
  - intros sql st ps d e d' -> H. destruct st, (md_tx d); try (by injection H as _ <-); try done.
    + destruct (_ && _); [done|by injection H as _ <-].
    + destruct (if bool_decide _ then _ else _); [done|by injection H as _ <-].
  - intros sql q ps d out -> _ H _. destruct (mem_select q ps (md_rows d)) as [o|] eqn:E; [|done]. injection H as <-. by apply mem_select_sound.
Qed.
End mem.
