(* ===== verification/StoreRefine.v ===== *)
(** * The stores as the logs they promise: the operations of the query store, in any order and
    with any failures, implement an abstract log; the probe store exports and lists its events;
    the API reads the abstract log. *)
From Stdlib Require Import Ascii.
From S2P Require Import Prelude RustStr RustNet RustFloat Rule Parser Instances Compiler Clients QueryLog Spec ProbeLog Dto Startup Store Sql StoreDb StoreProps SqlProps StoreDbProps StoreInstances.

(** ** The abstract log *)

Section abstract_log.
Context {IL : IpNetLib}.
Inductive LogOp : Type :=
| OpInsert (es : list QueryLogEntry)
| OpPrune (cutoff_ms : Z)
| OpClear
| OpQuery (f : LogFilter) (offset limit : nat) (clients : ClientMatcher).
Inductive LogOut : Type := OutDone | OutFailed | OutPage (p : LogPage).
(** An operation that failed changes nothing; a batch is appended under fresh ids; a prune drops what
    is older than the cutoff; a query answers from the log. *)
Inductive log_step (log : list QueryLogEntry) : LogOp → LogOut → list QueryLogEntry → Prop :=
| ls_failed op : log_step log op OutFailed log
| ls_insert es ids : length ids = length es → StronglySorted Z.lt ((le_id <$> log) ++ ids) →
    log_step log (OpInsert es) OutDone (log ++ zip_with with_entry_id ids es)
| ls_prune cutoff : log_step log (OpPrune cutoff) OutDone (filter (λ e, (cutoff <= le_time_ms e)%Z) log)
| ls_clear : log_step log OpClear OutDone []
| ls_query f offset limit clients : log_step log (OpQuery f offset limit clients) (OutPage (log_page f offset limit clients log)) log.
Inductive log_run : list QueryLogEntry → list LogOp → list LogOut → list QueryLogEntry → Prop :=
| lr_nil log : log_run log [] [] log
| lr_cons log op out log1 ops outs log2 : log_step log op out log1 → log_run log1 ops outs log2 → log_run log (op :: ops) (out :: outs) log2.
End abstract_log.

Lemma begin_parses : sql_parse (bs "BEGIN IMMEDIATE") = Some SBegin.
Proof. reflexivity. Qed.
Lemma commit_parses : sql_parse (bs "COMMIT") = Some SCommit.
Proof. reflexivity. Qed.
Lemma rollback_parses : sql_parse (bs "ROLLBACK") = Some SRollback.
Proof. reflexivity. Qed.

(** ** The query store implements it *)

Section query_store.
Context {db : Type} {SD : SqlDb db} {IL : IpNetLib}.
Context (answers_json : list bytes → option bytes) (answers_of_json : bytes → option (list bytes)) (row_error : bytes).

Definition done_or {A} (r : result A bytes) : LogOut := match r with Ok _ => OutDone | Err _ => OutFailed end.
(** One operation of the store; [None] is a panic. *)
Definition db_step (op : LogOp) (d : db) : option (LogOut * db) :=
  match op with
  | OpInsert es => let '(r, d) := insert_batch QUERY_INSERT_SQL (insert_params answers_json <$> es) d in Some (done_or r, d)
  | OpPrune cutoff => let '(r, d) := query_delete_older_than cutoff d in Some (done_or r, d)
  | OpClear => let '(r, d) := query_clear d in Some (done_or r, d)
  | OpQuery f offset limit clients =>
      let! r := query row_error answers_of_json f offset limit clients d d d in
      Some (match r with Ok p => OutPage p | Err _ => OutFailed end, d)
  end.
Fixpoint db_run (ops : list LogOp) (d : db) : option (list LogOut * db) :=
  match ops with
  | [] => Some ([], d)
  | op :: ops => let! (out, d) := db_step op d in let! (outs, d) := db_run ops d in Some (out :: outs, d)
  end.
(** The connection was left inside a transaction by a COMMIT or a ROLLBACK that the database
    refused. *)
Definition left_open (d : db) : Prop :=
  d_tx d ≠ None ∧ ∃ sql d0 e, (sql = bs "COMMIT" ∨ sql = bs "ROLLBACK") ∧ d_exec sql [] d0 = (Err e, d).
Definition op_ok (op : LogOp) : Prop :=
  match op with
  | OpInsert es => Forall (storable answers_json answers_of_json) es
  | OpQuery _ offset limit clients =>
      (Z.of_nat offset < 2 ^ 63)%Z ∧ (Z.of_nat limit < 2 ^ 63)%Z ∧ ∃ cfg, clients = build_matcher (NL:=IL) cfg
  | _ => True
  end.
Definition op_size (op : LogOp) : Z := match op with OpInsert es => Z.of_nat (length es) | _ => 0 end.
Definition inserted (ops : list LogOp) : Z := foldr (λ op n, (op_size op + n)%Z) 0%Z ops.
Lemma inserted_nonneg ops : (0 <= inserted ops)%Z.
Proof. induction ops as [|[] ops IH]; simpl; lia. Qed.

Context {SW : SqlDbLaws db queries_schema}.
Local Abbreviation holds := (holds answers_json answers_of_json).
Lemma kept_filter cutoff log : kept cutoff log = filter (λ e, (cutoff <= le_time_ms e)%Z) log.
Proof. apply list_filter_iff. intros e. apply Z.ltb_ge. Qed.
Lemma upto_filter n (P : QueryLogEntry → Prop) `{!∀ e, Decision (P e)} log : ids_upto n log → ids_upto n (filter P log).
Proof. apply filter_Forall. Qed.
Lemma upto_mono n m log : (n <= m)%Z → ids_upto n log → ids_upto m log.
Proof. intros Hn H. eapply Forall_impl; [exact H|]. simpl. lia. Qed.
Lemma insert_ids_sorted d log ids es : length ids = length es → holds d (log ++ zip_with with_entry_id ids es) →
  StronglySorted Z.lt ((le_id <$> log) ++ ids).
Proof.
  intros Hl Hh. pose proof (ho_sorted _ _ _ _ Hh) as Hs. rewrite fmap_app in Hs.
  assert (le_id <$> zip_with with_entry_id ids es = ids) as <-; [|done].
  clear Hs Hh. revert es Hl. induction ids as [|i ids IH]; intros [|e es] Hl; simpl in *; try lia; [done|]. f_equal. apply IH. lia.
Qed.
Lemma step_runs op d : op_ok op → is_Some (db_step op d).
Proof.
  intros Hok. destruct op as [es|cutoff| |f offset limit clients]; cbn [db_step op_ok] in *.
  - destruct (insert_batch _ _ d). by eexists.
  - destruct (query_delete_older_than cutoff d). by eexists.
  - destruct (query_clear d). by eexists.
  - destruct Hok as (_ & _ & cfg & ->). destruct (query_runs (IL:=IL) answers_of_json row_error cfg f offset limit d) as [r ->]. by eexists.
Qed.
Lemma step_refines op d log n out d' : holds d log → ids_upto n log → (0 <= n)%Z → (n + op_size op < MAX_ROWID)%Z → op_ok op →
  d_tx d = None → db_step op d = Some (out, d') →
  ∃ log', log_step log op out log' ∧ holds d' log' ∧ ids_upto (n + op_size op) log'.
Proof.
  intros Hh Hi Hn Hm Hok Hc H. destruct op as [es|cutoff| |f offset limit clients]; cbn [db_step op_size op_ok] in *.
  - destruct (insert_batch _ _ d) as [r d1] eqn:E. injection H as <- <-.
    pose proof (insert_holds _ _ _ _ _ _ _ _ Hh Hc Hi Hn Hok Hm E) as HI. destruct r as [u|e].
    + destruct HI as (ids & Hl & Hh' & _ & Hi'). eexists. split; [|by split]. constructor; [done|by eapply insert_ids_sorted].
    + exists log. split_and!; [constructor|done|eapply upto_mono; [|done]; lia].
  - destruct (query_delete_older_than cutoff d) as [r d1] eqn:E. injection H as <- <-.
    destruct (prune_holds _ _ _ _ _ _ _ Hh Hc E) as [_ HP]. rewrite Z.add_0_r. destruct r as [m|e].
    + destruct HP as [Hh' _]. rewrite kept_filter in Hh'. eexists. split; [constructor|]. split; [done|by apply upto_filter].
    + exists log. by split; [constructor|].
  - destruct (query_clear d) as [r d1] eqn:E. injection H as <- <-.
    destruct (clear_holds _ _ _ _ _ _ Hh Hc E) as [_ HP]. rewrite Z.add_0_r. destruct r as [m|e].
    + exists []. split; [constructor|]. split; [done|constructor].
    + exists log. by split; [constructor|].
  - destruct (query _ _ f offset limit clients d d d) as [[p|e]|] eqn:E; [| |done]; injection H as <- <-; rewrite Z.add_0_r.
    + exists log. split; [|done]. destruct Hok as (Ho & Hl & _). rewrite (query_result _ _ _ _ _ _ _ _ _ (Ok p) Hh Ho Hl E). constructor.
    + exists log. by split; [constructor|].
Qed.
Lemma insert_batch_closes sql rows d r d' : d_tx d = None → insert_batch sql rows d = (r, d') → d_tx d' = None ∨ left_open d'.
Proof.
  intros Hc H. destruct rows as [|p rows]; [injection H as _ <-; by left|]. cbn [insert_batch] in H.
  destruct (d_exec (bs "BEGIN IMMEDIATE") [] d) as [[n|e] d1] eqn:EB.
  2: { injection H as _ <-. rewrite (d_begin_err (sch:=queries_schema) _ _ _ _ begin_parses EB). by left. }
  destruct (insert_all sql (p :: rows) d1) as [[[]|e] d2].
  - destruct (d_exec (bs "COMMIT") [] d2) as [[m|e] d3] eqn:EC; injection H as _ <-.
    + left. by destruct (d_commit_ok (sch:=queries_schema) _ _ _ _ commit_parses EC).
    + destruct (d_tx d3) eqn:Et; [right|by left]. split; [by rewrite Et|]. exists (bs "COMMIT"), d2, e. by split; [left|].
  - destruct (d_exec (bs "ROLLBACK") [] d2) as [[m|e'] d3] eqn:ER; cbn [snd] in H; injection H as _ <-.
    + left. by destruct (d_rollback_ok (sch:=queries_schema) _ _ _ _ rollback_parses ER).
    + destruct (d_tx d3) eqn:Et; [right|by left]. split; [by rewrite Et|]. exists (bs "ROLLBACK"), d2, e'. by split; [right|].
Qed.
Lemma step_closes op d log out d' : holds d log → d_tx d = None → db_step op d = Some (out, d') → d_tx d' = None ∨ left_open d'.
Proof.
  intros Hh Hc H. destruct op as [es|cutoff| |f offset limit clients]; cbn [db_step] in H.
  - destruct (insert_batch _ _ d) as [r d1] eqn:E. injection H as _ <-. by eapply insert_batch_closes.
  - destruct (query_delete_older_than cutoff d) as [r d1] eqn:E. injection H as _ <-. left. by destruct (prune_holds _ _ _ _ _ _ _ Hh Hc E).
  - destruct (query_clear d) as [r d1] eqn:E. injection H as _ <-. left. by destruct (clear_holds _ _ _ _ _ _ Hh Hc E).
  - destruct (query _ _ f offset limit clients d d d) as [r|]; [|done]. injection H as _ <-. by left.
Qed.
Lemma run_runs ops d : Forall op_ok ops → is_Some (db_run ops d).
Proof.
  revert d. induction ops as [|op ops IH]; intros d H; [by eexists|]. apply Forall_cons in H as [Ho Hs]. cbn [db_run].
  destruct (step_runs op d Ho) as [[out d1] ->]. cbn [mbind option_bind]. destruct (IH d1 Hs) as [[outs d2] ->]. by eexists.
Qed.
Lemma run_refines ops d log n : holds d log → ids_upto n log → (0 <= n)%Z → (n + inserted ops < MAX_ROWID)%Z → Forall op_ok ops →
  d_tx d = None → ∃ k outs d' log', db_run (take k ops) d = Some (outs, d') ∧ log_run log (take k ops) outs log' ∧ holds d' log'
    ∧ ((k = length ops ∧ d_tx d' = None) ∨ left_open d').
Proof.
  revert d log n. induction ops as [|op ops IH]; intros d log n Hh Hi Hn Hm Hok Hc.
  { exists 0, [], d, log. split; [done|]. split; [constructor|]. by split; [|left]. }
  cbn [inserted foldr] in Hm. fold (inserted ops) in Hm. apply Forall_cons in Hok as [Ho Hos].
  destruct (step_runs op d Ho) as [[out d1] E]. pose proof (inserted_nonneg ops).
  destruct (step_refines op d log n out d1) as (log1 & Hs & Hh1 & Hi1); [done..|lia|done|done|done|].
  destruct (step_closes op d log out d1 Hh Hc E) as [Hc1|Hl].
  - destruct (IH d1 log1 (n + op_size op)%Z) as (k & outs & d2 & log2 & Hd & Hr & Hh2 & HC); [done|done|destruct op; simpl; lia|lia|done|done|].
    exists (S k), (out :: outs), d2, log2. cbn [take db_run]. rewrite E. cbn [mbind option_bind]. rewrite Hd. split; [done|].
    split; [by econstructor|]. split; [done|]. destruct HC as [[-> ?]|?]; [by left|by right].
  - exists 1, [out], d1, log1. cbn [take db_run]. rewrite E. split; [done|]. split; [by econstructor; [|constructor]|]. by split; [|right].
Qed.
(** C17: the query store implements the abstract log.  From an empty database outside a
    transaction, every sequence of batches, prunes, clears and queries runs without a panic, with
    any statements failing, and it has the results of the abstract log, all of it or up to the
    first batch whose COMMIT or ROLLBACK the database refused, leaving the connection inside the
    transaction: an operation that failed changed nothing, a batch is appended whole under fresh
    ids, a prune drops exactly what is older than the cutoff, and every page a query returns
    holds the matching entries of that log newest first, with their total; a query fails only
    when the database reports an error.  Entries have fields of their widths and answers that
    their JSON gives back, fewer than 2^63 - 1 of them are inserted, and page bounds are below
    2^63.  (After a refused COMMIT every later batch fails: [stuck_transaction].) *)
Theorem query_store_refines_log ops d :
  d_rows d = [] → d_tx d = None → (inserted ops < MAX_ROWID)%Z → Forall op_ok ops →
  is_Some (db_run ops d) ∧
  ∃ k outs d' log, db_run (take k ops) d = Some (outs, d') ∧ log_run [] (take k ops) outs log ∧ d_rows d' = entry_row answers_json <$> log
    ∧ ((k = length ops ∧ d_tx d' = None) ∨ left_open d')
    ∧ (∀ f offset limit clients, op_ok (OpQuery f offset limit clients) →
         db_step (OpQuery f offset limit clients) d' = Some (OutFailed, d') → ∃ sql ps e, d_query sql ps d' = Err e).
Proof.
  intros Hr Hc Hm Hok. split; [by apply run_runs|].
  assert (Hh : holds d []) by (constructor; [by rewrite Hr|constructor..]).
  destruct (run_refines ops d [] 0 Hh) as (k & outs & d' & log & E & Hl & Hh' & HC); [constructor|lia|lia|done..|].
  exists k, outs, d', log. split_and!; [done|done|apply Hh'|done|].
  intros f offset limit clients (Ho & Hli & _) H. cbn [db_step] in H.
  destruct (query _ _ f offset limit clients d' d' d') as [[p|e]|] eqn:Eq; [done| |done].
  destruct (query_result _ _ _ _ _ _ _ _ _ (Err e) Hh' Ho Hli Eq) as (sql & ps & He). by exists sql, ps, e.
Qed.
End query_store.

(** ** Batches of either store *)

(** C26: a batch is written completely or not at all, in either store: when [insert_batch]
    succeeds, readers see all rows of the batch in order after the rows there were, under keys
    that grow; when it fails at any of its statements, they see the rows there were. *)
Theorem insert_batch_atomic {db} {SD : SqlDb db} sch {SW : SqlDbLaws db sch} sql rows n d r d' :
  (sch = queries_schema ∧ sql = QUERY_INSERT_SQL) ∨ (sch = probes_schema ∧ sql = PROBE_INSERT_SQL) →
  d_tx d = None → keyed n (d_rows d) → (0 <= n)%Z → (n + Z.of_nat (length rows) < MAX_ROWID)%Z →
  insert_batch sql rows d = (r, d') →
  match r with
  | Ok _ => ∃ ids, length ids = length rows ∧ d_rows d' = d_rows d ++ zip ids rows ∧ StronglySorted Z.lt (d_rows d').*1
  | Err _ => d_rows d' = d_rows d
  end.
Proof.
  intros Hs Hc Hk Hn Hm H.
  assert (Hp : ∃ cols k, sql_parse sql = Some (SInsert (sc_table sch) cols k) ∧ insert_matches sch cols k = true).
  { destruct Hs as [[-> ->]|[-> ->]]; [apply query_insert_parses|apply probe_insert_parses]. }
  pose proof (insert_batch_rows sch sql Hp rows n d r d' Hc Hk Hn Hm H) as HB. destruct r as [u|e]; [|done].
  destruct HB as (ids & Hl & HR & _ & HK). exists ids. split_and!; [done|done|apply HK].
Qed.

(** ** Retention *)

Section pruner.
Context {db : Type} {SD : SqlDb db}.
(** One tick of [spawn_querylog_pruner] and of [spawn_probe_pruner]. *)
Definition querylog_prune (now_ms retention_days : Z) (d : db) : result Z bytes * db :=
  match prune_cutoff now_ms retention_days with None => (Ok 0%Z, d) | Some cutoff => query_delete_older_than cutoff d end.
Definition probe_prune (now_ms retention_days : Z) (d : db) : result Z bytes * db :=
  match prune_cutoff now_ms retention_days with None => (Ok 0%Z, d) | Some cutoff => probe_delete_older_than cutoff d end.
Context {IL : IpNetLib} {SW : SqlDbLaws db queries_schema}.
Context (answers_json : list bytes → option bytes) (answers_of_json : bytes → option (list bytes)).
(** A tick that succeeds keeps exactly the entries of the last [retention_days] days; with a
    retention of zero it keeps everything. *)
Lemma querylog_prune_keeps now retention d log n d' : holds answers_json answers_of_json d log → d_tx d = None →
  querylog_prune now retention d = (Ok n, d') →
  holds answers_json answers_of_json d' (filter (λ e, retention = 0%Z ∨ (now - le_time_ms e <= retention * 86400000)%Z) log).
Proof.
  intros Hh Hc H. unfold querylog_prune, prune_cutoff in H. destruct (Z.eqb_spec retention 0) as [->|Hr].
  - injection H as _ <-. assert (filter (λ e, 0%Z = 0%Z ∨ (now - le_time_ms e <= 0 * 86400000)%Z) log = log) as ->; [|done].
    clear Hh Hc. induction log as [|e log IH]; [done|]. rewrite filter_cons, decide_True by (by left). by rewrite IH.
  - destruct (prune_holds _ _ _ _ _ _ _ Hh Hc H) as [_ [Hh' _]].
    assert (filter (λ e, retention = 0%Z ∨ (now - le_time_ms e <= retention * 86400000)%Z) log = kept (now - retention * 86400000) log) as ->; [|done].
    apply list_filter_iff. intros e. rewrite Z.ltb_ge. lia.
Qed.
End pruner.

(** ** The probe store *)

Section probe_store.
Context {db : Type} {SD : SqlDb db} {SW : SqlDbLaws db probes_schema} (row_error : bytes).
Definition event_row (r : Z * ProbeEvent) : Row := (r.1, event_params r.2).
(** The rows are the events, in the order they were written. *)
Record holds_events (d : db) (events : list (Z * ProbeEvent)) : Prop := {
  he_rows : d_rows d = event_row <$> events;
  he_widths : Forall (λ r, event_widths r.2) events;
}.
Definition probe_columns : list bytes := cl_name <$> sc_columns probes_schema.
Lemma event_columns r : mapM (column probes_schema (event_row r)) probe_columns = Some (event_params r.2).
Proof. destruct r as [i e]. reflexivity. Qed.
Lemma event_time r : column probes_schema (event_row r) (bs "time_ms") = Some (VInteger (pe_time_ms r.2)).
Proof. reflexivity. Qed.
Definition events_select (conds : list Cond) (order : Order) (limit : option Operand) : Select :=
  {| sl_columns := ColList probe_columns; sl_table := bs "probes"; sl_where := conds; sl_order := Some order; sl_limit := limit; sl_offset := None |}.
Lemma events_result sql conds order limit ps lim (test : Z * ProbeEvent → bool) d events rows :
  holds_events d events → sql_parse sql = Some (SSelect (events_select conds order limit)) → bound ps limit = Some lim →
  (∀ r, conds_hold probes_schema ps (event_row r) conds = Some (test r)) → d_query sql ps d = Ok rows →
  rows = event_params <$> limited lim None ((match order with Ascending => id | Descending => reverse end) (filter (λ r, test r = true) events).*2).
Proof.
  intros Hh Hp Hb Ht Hq. set (hits := filter _ events).
  assert (Hw : where_rows probes_schema ps conds (d_rows d) = Some (event_row <$> hits)) by (rewrite (he_rows _ _ Hh); by apply where_rows_filter).
  assert (Hc : mapM (λ r, mapM (column probes_schema r) probe_columns) (event_row <$> hits) = Some ((λ r, event_params r.2) <$> hits))
    by (apply mapM_rows; intros; apply event_columns).
  destruct (d_query_ok (sch:=probes_schema) sql (events_select conds order limit) ps d rows Hp eq_refl Hq) as (sel & l & o & Hs & Hl & Ho & Hr).
  { destruct order; eexists _, _, _, None; (split_and!; [exact Hw|exact Hb|done|]); eexists; (split; [exact Hc|reflexivity]). }
  cbn [sl_where sl_columns sl_limit sl_offset sl_order events_select bound] in *. rewrite Hw in Hs. rewrite Hb in Hl.
  injection Hs as <-. injection Hl as <-. injection Ho as <-. destruct Hr as (outs & Hm & Hr). rewrite Hc in Hm. injection Hm as <-.
  assert (He : (λ r : Z * ProbeEvent, event_params r.2) <$> hits = event_params <$> hits.*2) by (by rewrite <- list_fmap_compose).
  rewrite He in Hr. rewrite <- limited_fmap. destruct order; [done|]. by rewrite fmap_reverse.
Qed.
Lemma read_events es : Forall event_widths es → read_rows row_error row_to_event (event_params <$> es) = Ok es.
Proof. intros H. apply read_rows_fmap. intros e He. apply event_roundtrip. rewrite Forall_forall in H. by apply H. Qed.
Lemma limited_Forall {A} (P : A → Prop) lim off l : Forall P l → Forall P (limited lim off l).
Proof.
  intros H. unfold limited. assert (H1 : Forall P (match off with Some z => drop (Z.to_nat z) l | None => l end)) by (destruct off; auto using Forall_drop).
  destruct lim; [|done]. destruct (_ <? _)%Z; [done|by apply Forall_take].
Qed.
Lemma event_widths_hits (test : Z * ProbeEvent → bool) d events : holds_events d events → Forall event_widths (filter (λ r, test r = true) events).*2.
Proof. intros Hh. apply Forall_fmap. apply (filter_Forall _ (λ r, event_widths r.2)). apply Hh. Qed.
Lemma filter_true {A} (l : list A) : filter (λ _, true = true) l = l.
Proof. induction l as [|a l IH]; [done|]. rewrite filter_cons, decide_True by done. by rewrite IH. Qed.

Lemma filter_snd {A B} (P : B → Prop) `{!∀ b, Decision (P b)} (l : list (A * B)) : (filter (λ r, P r.2) l).*2 = filter P l.*2.
Proof.
  induction l as [|[a b] l IH]; [done|]. rewrite filter_cons, fmap_cons, filter_cons. cbn [snd].
  case_decide; [rewrite fmap_cons|]; by rewrite IH.
Qed.

Definition since (since_ms : option Z) (e : ProbeEvent) : bool := match since_ms with Some ms => (ms <=? pe_time_ms e)%Z | None => true end.
Lemma export_reads to_json d events text : holds_events d events → export_jsonl row_error to_json d = Ok text → text = jsonl to_json events.*2.
Proof.
  intros Hh. unfold export_jsonl. destruct (d_query _ [] d) as [rows|] eqn:E; [|done]. cbn [result_bind].
  rewrite (events_result _ [] Ascending None [] None (λ _, true) d events rows Hh (ltac:(vm_refl)) eq_refl (λ r, eq_refl) E).
  unfold limited, id. rewrite read_events; [|by eapply event_widths_hits]. rewrite filter_true. by intros [= <-].
Qed.
Lemma recent_reads since_ms limit d events out : holds_events d events → (Z.of_nat limit < 2 ^ 63)%Z →
  recent row_error since_ms limit d = Ok out → out = take limit (reverse (filter (λ e, since since_ms e = true) events.*2)).
Proof.
  intros Hh Hl. unfold recent, recent_where, as_i64. rewrite (proj2 (Z.ltb_lt _ _) Hl).
  assert (Hlim : ∀ l : list ProbeEvent, limited (Some (Z.of_nat limit)) None l = take limit l).
  { intros l. unfold limited. rewrite Nat2Z.id. by destruct (Z.ltb_spec (Z.of_nat limit) 0); [lia|]. }
  assert (Hf : (filter (λ r, since since_ms r.2 = true) events).*2 = filter (λ e, since since_ms e = true) events.*2) by exact (filter_snd (λ e, since since_ms e = true) events).
  destruct since_ms as [ms|]; cbn [length app].
  all: destruct (d_query _ _ d) as [rows|] eqn:E; [|done]; cbn [result_bind].
  - assert (Ht : ∀ r, conds_hold probes_schema [VInteger ms; VInteger (Z.of_nat limit)] (event_row r) [CCmp (bs "time_ms") CmpGe (OParam 1)]
                    = Some (since (Some ms) r.2)) by (intros r; cbn [conds_hold cond_holds]; rewrite event_time; cbn; by rewrite andb_true_r).
    rewrite (events_result _ _ Descending (Some (OParam 2)) [VInteger ms; VInteger (Z.of_nat limit)] (Some (Z.of_nat limit)) _ d events rows Hh (ltac:(vm_refl)) eq_refl Ht E).
    rewrite Hlim. rewrite read_events; [|by apply Forall_take, Forall_reverse, (event_widths_hits (λ r, since (Some ms) r.2) d)].
    intros [= <-]. do 2 f_equal. exact Hf.
  - rewrite (events_result _ [] Descending (Some (OParam 1)) [VInteger (Z.of_nat limit)] (Some (Z.of_nat limit)) (λ r, since None r.2) d events rows Hh (ltac:(vm_refl)) eq_refl (λ r, eq_refl) E).
    rewrite Hlim. rewrite read_events; [|by apply Forall_take, Forall_reverse, (event_widths_hits (λ r, since None r.2) d)].
    intros [= <-]. do 2 f_equal. exact Hf.
Qed.
(** The probe store gives back the events it was given: the export is one JSON line per
    event, oldest first, and the recent events are the newest ones first, from the given time
    on, at most as many as asked for; every field of an event is read back as it was. *)
Theorem probe_store_reads to_json since_ms limit d events text out :
  holds_events d events → (Z.of_nat limit < 2 ^ 63)%Z →
  export_jsonl row_error to_json d = Ok text → recent row_error since_ms limit d = Ok out →
  text = jsonl to_json events.*2 ∧ out = take limit (reverse (filter (λ e, since since_ms e = true) events.*2)).
Proof. intros Hh Hl He Hr. split; [by eapply export_reads|by eapply recent_reads]. Qed.
End probe_store.

(** ** Witnesses *)

Definition query_mem : SqlDb MemDb := mem_db queries_schema.
Definition probe_mem : SqlDb MemDb := mem_db probes_schema.
Definition no_clients : ClientMatcher := {| cm_entries := []; cm_hosts := ∅ |}.
Definition demo_filter : LogFilter := {| lf_search := Some (bs "ADS"); lf_client := Some (bs "10."); lf_blocked_only := true |}.
Definition demo_ops : list LogOp :=
  [OpInsert [blocked_entry; entry_empty]; OpQuery demo_filter 0 10 no_clients; OpPrune 1; OpClear].
Local Abbreviation demo_db_run := (db_run (SD:=query_mem) unary_json unary_unjson [] demo_ops mem_empty).
Lemma query_store_refines_log_witness : ∃ outs d' log, demo_db_run = Some (outs, d')
  ∧ outs !! 1 = Some (OutPage {| lp_entries := [with_entry_id 1 blocked_entry]; lp_total := 1 |})
  ∧ log_run [] demo_ops outs log ∧ d_rows (SqlDb:=query_mem) d' = entry_row unary_json <$> log.
Proof.
  destruct (query_store_refines_log (SD:=query_mem) (SW:=mem_db_laws queries_schema) unary_json unary_unjson [] demo_ops mem_empty)
    as (_ & k & outs & d' & log & E & H1 & H2 & HC & _).
  - reflexivity.
  - reflexivity.
  - vm_compute. reflexivity.
  - constructor; [repeat constructor; try (vm_compute; done); exists []; done|]. constructor; [|repeat constructor].
    split; [vm_compute; reflexivity|]. split; [vm_compute; reflexivity|]. exists []. reflexivity.
  - assert (Hk : take k demo_ops = demo_ops).
    { destruct HC as [[-> _]|(Ht & sql & d0 & e & [-> | ->] & He)]; [apply firstn_all| |].
      all: exfalso; apply Ht; revert He; cbn [d_exec d_tx query_mem mem_db]; unfold mem_exec.
      + rewrite commit_parses. destruct (md_tx d0) eqn:Et; [done|]. by intros [= _ <-].
      + rewrite rollback_parses. by destruct (md_tx d0). }
    rewrite Hk in E, H1. exists outs, d', log. split; [exact E|]. split; [|split; [exact H1|exact H2]].
    assert (H : (demo_db_run ≫= λ r, r.1 !! 1) = Some (OutPage {| lp_entries := [with_entry_id 1 blocked_entry]; lp_total := 1 |}))
      by (vm_compute; reflexivity).
    rewrite E in H. exact H.
Defined.
Lemma insert_batch_atomic_witness :
  ∃ ids, length ids = 1 ∧ d_rows (SqlDb:=probe_mem) (insert_batch (SD:=probe_mem) PROBE_INSERT_SQL [event_params probe_event] mem_empty).2
                          = zip ids [event_params probe_event].
Proof.
  assert (E : insert_batch (SD:=probe_mem) PROBE_INSERT_SQL [event_params probe_event] mem_empty
              = (Ok (), {| md_rows := [(1%Z, event_params probe_event)]; md_tx := None |})) by (vm_compute; reflexivity).
  destruct (insert_batch_atomic (SD:=probe_mem) probes_schema (SW:=mem_db_laws probes_schema) PROBE_INSERT_SQL
              [event_params probe_event] 0 mem_empty _ _ (or_intror (conj eq_refl eq_refl)) eq_refl
              (conj (SSorted_nil _) (Forall_nil_2 _)) ltac:(lia) ltac:(vm_compute; reflexivity) E) as (ids & Hl & HR & _).
  exists ids. rewrite E. by split.
Defined.
Definition demo_events : list (Z * ProbeEvent) := [(1%Z, probe_event)].
Definition demo_probe_db : MemDb := {| md_rows := event_row <$> demo_events; md_tx := None |}.
Lemma probe_store_reads_witness :
  export_jsonl (SD:=probe_mem) [] (λ _, Some (bs "{}")) demo_probe_db = Ok (bs "{}" ++ [LF])
  ∧ recent (SD:=probe_mem) [] (Some 1%Z) 5 demo_probe_db = Ok [probe_event].
Proof.
  destruct (export_jsonl (SD:=probe_mem) [] (λ _, Some (bs "{}")) demo_probe_db) as [text|] eqn:E1; [|exfalso; revert E1; vm_compute; discriminate].
  destruct (recent (SD:=probe_mem) [] (Some 1%Z) 5 demo_probe_db) as [out|] eqn:E2; [|exfalso; revert E2; vm_compute; discriminate].
  destruct (probe_store_reads (SD:=probe_mem) (SW:=mem_db_laws probes_schema) [] (λ _, Some (bs "{}")) (Some 1%Z) 5 demo_probe_db demo_events text out) as [-> ->].
  - constructor; [reflexivity|]. constructor; [|constructor]. unfold event_widths, in_u. simpl. lia.
  - simpl. lia.
  - exact E1.
  - exact E2.
  - split; vm_compute; reflexivity.
Defined.
