(* ===== verification/StoreApi.v ===== *)
(** * The stores behind the API: the operations of [StoreDb] as the stores of [Api], and what
    the log endpoints answer over them. *)
From Stdlib Require Import Ascii.
From S2P Require Import Prelude RustStr RustNet RustFloat Rule Glob Parser ParserProps Instances FilterEngine FilterEngineProps FilterSpec Compiler Wire Dns DnsInstances Clients Block QueryLog Cache Snapshot Stats StatsProps Engine EngineInstances EngineSafety Spec ProbeLog Pool Config ConfigProps Auth Http Dto App AppProps AppInstances Api ApiProps ApiInstances Startup Store Sql StoreDb StoreProps SqlProps StoreDbProps StoreInstances StoreRefine.

Section stores.
Context {qdb pdb : Type} {SQ : SqlDb qdb} {SP : SqlDb pdb} {IL : IpNetLib}.
Context (answers_of_json : bytes → option (list bytes)) (event_json : ProbeEvent → option bytes) (row_error : bytes).
(** The query store and the probe store, each on its database. *)
Definition db_stores : StoreOps qdb pdb :=
  {| store_query := λ d f offset limit clients, query row_error answers_of_json f offset limit clients d d d;
     store_clear := λ d, match query_clear d with (Ok _, d') => Ok d' | (Err e, _) => Err e end;
     probe_clear := λ d, match probes_clear d with (Ok _, d') => Ok d' | (Err e, _) => Err e end;
     probe_export := λ d, export_jsonl row_error event_json d |}.
End stores.

Section querylog.
Context {DL : DnsLib} {DC : DnsCodec} {RX : RegexLib} {IL : IpNetLib} {US : UnstableSort} {HO : HashOrder}.
Context {L : LruLib QueryKey Entry} {CC : ConfigCodec} {SL : SessionLib} {PL : PasswordLib}.
Context {qsender psender qdb pdb : Type} {SQ : SqlDb qdb} {SP : SqlDb pdb} {SW : SqlDbLaws qdb queries_schema} {SV : SqlDbLaws pdb probes_schema}.
Context (answers_json : list bytes → option bytes) (answers_of_json : bytes → option (list bytes)).
Context (event_json : ProbeEvent → option bytes) (row_error : bytes).
Local Abbreviation App := (AppState (qsender:=qsender) (psender:=psender) (qstore:=qdb) (pstore:=pdb)).
Local Abbreviation stores := (db_stores answers_of_json event_json row_error).

Definition query_filter (q : LogQuery) : LogFilter :=
  {| lf_search := lq_search q; lf_client := lq_client q; lf_blocked_only := lq_blocked_only q |}.
Lemma views_run cfg names es : is_Some (views (build_matcher cfg) names es).
Proof.
  induction es as [|e es [vs IH]]; [by eexists|]. cbn [views]. rewrite IH. unfold name_for_str, name_for.
  destruct (parse_ip (le_client_ip e)) as [a|]; [destruct (best_match_identifies cfg a) as (o & _ & ->)|]; by eexists.
Qed.
Lemma probes_clear_empties d r d' : d_tx d = None → probes_clear d = (Ok r, d') → d_rows d' = [].
Proof.
  intros Hc H. unfold probes_clear, clear_table in H. destruct (d_exec _ [] d) as [[n|e] d1] eqn:E; [|done]. injection H as _ <-.
  assert (Hp : sql_parse (bs "DELETE FROM probes") = Some (SDelete (sc_table probes_schema) [])) by reflexivity.
  by destruct (d_delete_ok _ _ _ _ _ _ _ Hp E Hc (delete_rows_all _ _ _)).
Qed.
(** C27: what the log endpoints do with the stores, outside a transaction.  GET of the query log
    leaves the server unchanged and answers either an internal error or the page of the stored log for
    the request's filter: the matching entries newest first, never more than 1000 of them, each
    with the names its client and list have now, and the number of all that match.  The export of
    the probe log is one JSON line per stored event, oldest first.  Clearing either log answers
    an internal error and changes nothing, or leaves that store without rows and the rest of the
    server as it was.  None of them panics. *)
Theorem log_endpoints_read_the_stores q (s : App) cfg log events :
  holds answers_json answers_of_json (as_store s) log → holds_events (as_probe_store s) events →
  d_tx (as_store s) = None → d_tx (as_probe_store s) = None → es_clients (eg_state (as_engine s)) = build_matcher cfg →
  (Z.of_nat (lq_offset q) < 2 ^ 63)%Z →
  let clients := es_clients (eg_state (as_engine s)) in
  let page := log_page (query_filter q) (lq_offset q) (min (lq_limit q) 1000) clients log in
  (∃ o, get_querylog (SO:=stores) q s = Some (o, s) ∧
     ((∃ e, o = fail (Internal e)) ∨
      (∃ vs, o = Done (ok_body (BQuerylog vs (lp_total page))) ∧ views clients (list_names (as_config s)) (lp_entries page) = Some vs)))
  ∧ (∃ o, export_upstream_log (SO:=stores) s = Some (o, s) ∧
       ((∃ e, o = fail (Internal e)) ∨ o = Done (ok_body (BExport (jsonl event_json events.*2)))))
  ∧ (∃ o s', clear_querylog (SO:=stores) s = Some (o, s') ∧
       ((∃ e, o = fail (Internal e) ∧ s' = s) ∨
        (o = Done (ok_body BOk) ∧ ∃ d, s' = with_stores d (as_probe_store s) s ∧ d_rows d = [])))
  ∧ (∃ o s', clear_upstream_log (SO:=stores) s = Some (o, s') ∧
       ((∃ e, o = fail (Internal e) ∧ s' = s) ∨
        (o = Done (ok_body BOk) ∧ ∃ d, s' = with_stores (as_store s) d s ∧ d_rows d = []))).
Proof.
  intros Hh He Hq Hp Hcl Ho clients page. split_and!.
  - unfold get_querylog. cbn [store_query db_stores]. fold (query_filter q). fold clients.
    destruct (query_runs (IL:=IL) answers_of_json row_error cfg (query_filter q) (lq_offset q) (min (lq_limit q) 1000) (as_store s)) as [r E].
    rewrite <- Hcl in E. fold clients in E. rewrite E. cbn [mbind option_bind]. destruct r as [p|e].
    + assert (Hpg : p = page).
      { refine (query_result _ _ _ _ _ _ _ _ _ (Ok p) Hh _ _ E); [done|]. enough (Z.of_nat (min (lq_limit q) 1000) <= 1000)%Z by lia. lia. }
      subst p. destruct (views_run cfg (list_names (as_config s)) (lp_entries page)) as [vs Ev]. rewrite <- Hcl in Ev. fold clients in Ev.
      rewrite Ev. eexists. split; [done|]. right. by exists vs.
    + eexists. split; [done|]. left. by exists e.
  - unfold export_upstream_log. cbn [probe_export db_stores]. destruct (export_jsonl _ _ _) as [text|e] eqn:E; (eexists; split; [done|]).
    + right. by rewrite (export_reads _ _ _ _ _ He E).
    + left. by exists e.
  - unfold clear_querylog. cbn [store_clear db_stores]. destruct (query_clear _) as [[u|e] d] eqn:E; (eexists _, _; split; [done|]).
    + right. split; [done|]. exists d. split; [done|]. destruct (clear_holds _ _ _ _ _ _ Hh Hq E) as [_ Hd]. apply Hd.
    + left. by exists e.
  - unfold clear_upstream_log. cbn [probe_clear db_stores]. destruct (probes_clear _) as [[u|e] d] eqn:E; (eexists _, _; split; [done|]).
    + right. split; [done|]. exists d. split; [done|]. by eapply probes_clear_empties.
    + left. by exists e.
Qed.
End querylog.

(** ** Witness *)

Definition demo_log_db : MemDb := {| md_rows := entry_row unary_json <$> [with_entry_id 1 blocked_entry]; md_tx := None |}.
Definition logging_app : AppState (qsender:=list QueryLogEntry) (psender:=list ProbeEvent) (qstore:=MemDb) (pstore:=MemDb) :=
  {| as_engine := as_engine demo_app; as_config := as_config demo_app; as_files := as_files demo_app; as_sessions := as_sessions demo_app;
     as_probe_log := as_probe_log demo_app; as_store := demo_log_db; as_probe_store := demo_probe_db |}.
Definition demo_log_query : LogQuery := {| lq_search := Some (bs "Example"); lq_client := None; lq_blocked_only := true; lq_offset := 0; lq_limit := 50 |}.
Definition demo_db_stores : StoreOps MemDb MemDb := db_stores (SQ:=query_mem) (SP:=probe_mem) unary_unjson (λ _, Some (bs "{}")) [].
Definition demo_get_querylog := get_querylog (SO:=demo_db_stores) demo_log_query logging_app.
Definition demo_clear_querylog := clear_querylog (SO:=demo_db_stores) logging_app.
Lemma log_endpoints_read_the_stores_witness :
  (∃ vs, demo_get_querylog = Some (Done (ok_body (BQuerylog vs 1)), logging_app))
  ∧ (∃ d, demo_clear_querylog = Some (Done (ok_body BOk), with_stores d (as_probe_store logging_app) logging_app) ∧ d_rows (SqlDb:=query_mem) d = []).
Proof.
  assert (Hh : holds (SD:=query_mem) unary_json unary_unjson demo_log_db [with_entry_id 1 blocked_entry]).
  { constructor; [reflexivity| | |repeat constructor].
    - constructor; [|constructor]. split; [unfold entry_widths, in_u; simpl; lia|by exists []].
    - constructor; [|constructor]. unfold in_u. simpl. lia. }
  assert (He : holds_events (SD:=probe_mem) demo_probe_db demo_events).
  { constructor; [reflexivity|]. constructor; [|constructor]. unfold event_widths, in_u. simpl. lia. }
  destruct (log_endpoints_read_the_stores (SQ:=query_mem) (SP:=probe_mem) (SW:=mem_db_laws queries_schema) (SV:=mem_db_laws probes_schema)
              unary_json unary_unjson (λ _, Some (bs "{}")) [] demo_log_query logging_app [] _ _ Hh He eq_refl eq_refl eq_refl ltac:(simpl; lia))
    as ((o & E & HG) & _ & (o' & s' & E' & HC) & _).
  split.
  - assert (Hok : match demo_get_querylog with Some (Done r, _) => rp_status r | _ => 0%Z end = 200%Z) by (vm_compute; reflexivity).
    unfold demo_get_querylog in Hok |- *. unfold demo_db_stores in *. rewrite E in Hok |- *.
    destruct HG as [(e & ->)|(vs & -> & _)]; [discriminate Hok|]. exists vs.
    assert (Hp : lp_total (log_page (query_filter demo_log_query) 0 50 (es_clients (eg_state (as_engine logging_app))) [with_entry_id 1 blocked_entry]) = 1)
      by (vm_compute; reflexivity).
    change (lq_offset demo_log_query) with 0. change (min (lq_limit demo_log_query) 1000) with 50. by rewrite Hp.
  - assert (Hok : match demo_clear_querylog with Some (Done r, _) => rp_status r | _ => 0%Z end = 200%Z) by (vm_compute; reflexivity).
    unfold demo_clear_querylog, demo_db_stores in *. rewrite E' in Hok |- *.
    destruct HC as [(e & -> & _)|(-> & d & -> & Hd)]; [discriminate Hok|]. exists d. split; [reflexivity|exact Hd].
Defined.
