(* ===== verification/Main.v ===== *)
(** * server: the whole of [main] ([main.rs]).

    [main] makes the directories, loads the configuration and the engine ([Startup.boot]), opens
    the two stores, spawns the DNS listeners and serves HTTP until a signal arrives.  Each of
    these but the listeners can end it with an error.  The world is what it works on: the
    directories, the files, the snapshots and the files of the databases. *)
From Stdlib Require Import Ascii.
From S2P Require Import Prelude RustStr RustNet RustFloat Rule Glob Parser ParserProps Instances FilterEngine FilterEngineProps FilterSpec Compiler Wire Dns DnsInstances Clients Block QueryLog Cache CacheProps Snapshot SnapshotProps Stats StatsProps Engine EngineText EngineProps EngineInstances EngineSafety Spec ProbeLog Pool Config ConfigProps Auth Http Dto App AppProps AppInstances Api ApiProps ApiInstances Startup StartupProps Server ServerProps ServerInstances Persist PersistProps Accept Store Sql StoreDb.

(** [shutdown_signal]: when it returns, if ever.  A source whose handler cannot be installed
    ends at once, so it ends the wait. *)
Definition signal_time (source : result (option Z) ()) : option Z := match source with Ok t => t | Err _ => Some 0%Z end.
Definition shutdown_signal (ctrl_c terminate : result (option Z) ()) : option Z :=
  match signal_time ctrl_c, signal_time terminate with
  | Some a, Some b => Some (Z.min a b)
  | Some a, None => Some a
  | None, b => b
  end.

Inductive MainError : Type :=
| MeDirs (e : bytes)
| MeStart (e : StartError)
| MeQueryStore (e : bytes)
| MeProbeStore (e : bytes)
| MeHttp (e : bytes).
(** The variable of the environment, the outcome of the system calls, and what startup draws. *)
Record MainEnv : Type := {
  mn_data_dir : option bytes; mn_mkdir : bytes → result () bytes; mn_chmod_ok : bytes → bool; mn_umask_mode : Z;
  mn_start : StartEnv; mn_udp_bind : SocketAddr → result () bytes; mn_tcp_bind : SocketAddr → result () bytes;
  mn_http_bind : SocketAddr → result () bytes;
}.

Section main.
Context {DL : DnsLib} {DC : DnsCodec} {RX : RegexLib} {IL : IpNetLib} {US : UnstableSort} {HO : HashOrder}.
Context {L : LruLib QueryKey Entry} (khash : QueryKey → Z) {CC : ConfigCodec} {SL : SessionLib}.
Context (dhash : bytes → Z) (chash : list (bytes * Z * Action) → Z) (parallelism : option Z).
Context (make_transport : list SocketAddr → UpstreamSpec → result () UpstreamError).
Context (from_json : bytes → option StatsInner).
Context {qsender psender db kdisk : Type} {SD : SqlDb db}.
(** The database crate's builder, as in [StoreDb]. *)
Context (build : bytes → kdisk → result db bytes * kdisk) (connect : db → result () bytes).
Context (execute_batch : bytes → db → result () bytes * db) (remove_file : bytes → kdisk → kdisk).

Local Abbreviation Process := (Process (qsender:=qsender) (psender:=psender) (qstore:=db) (pstore:=db)).
Local Abbreviation boot := (boot khash dhash chash parallelism make_transport from_json (qsender:=qsender)).
Local Abbreviation query_open := (query_open build connect execute_batch remove_file).
Local Abbreviation probe_open := (probe_open build connect execute_batch remove_file).

Record World : Type := { wd_dirs : Dirs; wd_files : Files; wd_disk : Disk; wd_dbs : kdisk }.
Definition with_dirs (ds : Dirs) (w : World) : World :=
  {| wd_dirs := ds; wd_files := wd_files w; wd_disk := wd_disk w; wd_dbs := wd_dbs w |}.
Definition with_main_files (fs : Files) (w : World) : World :=
  {| wd_dirs := wd_dirs w; wd_files := fs; wd_disk := wd_disk w; wd_dbs := wd_dbs w |}.
Definition with_dbs (k : kdisk) (w : World) : World :=
  {| wd_dirs := wd_dirs w; wd_files := wd_files w; wd_disk := wd_disk w; wd_dbs := k |}.
(** What runs once [main] serves: the process, the addresses of the DNS listeners with the
    error that stopped their loop, and the address of the web interface. *)
Record Running : Type := { ru_process : Process; ru_dns : list SocketAddr; ru_dns_result : result () bytes; ru_http : SocketAddr }.

(** The configuration file after the attempt to start. *)
Definition files_after (env : StartEnv) (fs : Files) : Files :=
  match start_config env fs with Ok (_, _, fs) => fs | Err _ => fs end.
Definition open_stores (paths : Paths) (config : Config) (k : kdisk) : result (db * db) MainError * kdisk :=
  match query_open (store_path (qc_persist (cf_query_log config)) (pt_querylog_db paths)) k with
  | (Err e, k) => (Err (MeQueryStore e), k)
  | (Ok qs, k) =>
      match probe_open (store_path (ulc_persist (cf_upstream_log config)) (pt_upstream_log_db paths)) k with
      | (Err e, k) => (Err (MeProbeStore e), k)
      | (Ok ps, k) => (Ok (qs, ps), k)
      end
  end.
(** The listeners and the web interface; a DNS socket that cannot be bound is only logged. *)
Definition serve_all (env : MainEnv) (config : Config) (p : Process) : result Running MainError :=
  let '(up, r) := spawn (mn_udp_bind env) (mn_tcp_bind env) (sc_dns_bind (cf_server config)) in
  match mn_http_bind env (sc_http_bind (cf_server config)) with
  | Err e => Err (MeHttp e)
  | Ok _ => Ok {| ru_process := p; ru_dns := up; ru_dns_result := r; ru_http := sc_http_bind (cf_server config) |}
  end.
Definition main (env : MainEnv) (qtx : qsender) (ptx : psender) (w : World) : option (result Running MainError * World) :=
  let paths := paths_new (default (bs "data") (mn_data_dir env)) in
  match ensure_dirs (mn_mkdir env) (mn_chmod_ok env) (mn_umask_mode env) paths (wd_dirs w) with
  | (Err e, ds) => Some (Err (MeDirs e), with_dirs ds w)
  | (Ok _, ds) =>
      let start := start_from (wd_disk w) (mn_start env) in
      let! b := boot start (wd_files w) in
      let w := with_main_files (files_after start (wd_files w)) (with_dirs ds w) in
      match b with
      | Err e => Some (Err (MeStart e), w)
      | Ok b =>
          let config := b.1.1.1 in
          match open_stores paths config (wd_dbs w) with
          | (Err e, k) => Some (Err e, with_dbs k w)
          | (Ok (qs, ps), k) =>
              let y := {| sv_app := assemble qtx ptx qs ps b; sv_requests := []; sv_queries := []; sv_cnames := []; sv_refreshes := [] |} in
              Some (serve_all env config (process_of y (wd_disk w)), with_dbs k w)
          end
      end
  end.

(** ** Properties *)

Definition data_paths (env : MainEnv) : Paths := paths_new (default (bs "data") (mn_data_dir env)).
(** The directories are closed to others, where permissions can be set. *)
Definition private (env : MainEnv) (ds : Dirs) : Prop :=
  ∀ path, path ∈ [pt_data_dir (data_paths env); pt_lists_dir (data_paths env)] → mn_chmod_ok env path = true → ds !! path = Some 448%Z.
(** The first addresses that bind are served, up to the first that does not. *)
Definition served (env : MainEnv) (binds up : list SocketAddr) (r : result () bytes) : Prop :=
  let binds_ok a := mn_udp_bind env a = Ok () ∧ mn_tcp_bind env a = Ok () in
  ∃ rest, binds = up ++ rest ∧ Forall binds_ok up
    ∧ match rest with [] => r = Ok () | a :: _ => ¬ binds_ok a ∧ ∃ e, r = Err e end.
Lemma spawn_served env binds : let '(up, r) := spawn (mn_udp_bind env) (mn_tcp_bind env) binds in served env binds up r.
Proof.
  induction binds as [|a binds IH]; simpl; [by exists []|].
  destruct (mn_udp_bind env a) as [[]|e] eqn:Eu; [|exists (a :: binds); split_and!; [done|constructor|intros [? ?]; congruence|by eexists]].
  destruct (mn_tcp_bind env a) as [[]|e] eqn:Et; [|exists (a :: binds); split_and!; [done|constructor|intros [? ?]; congruence|by eexists]].
  destruct (spawn _ _ binds) as [up r]. destruct IH as (rest & -> & Hup & Hr). exists rest. split_and!; [done| |done].
  by constructor.
Qed.
Lemma restrict_other ok path q ds : ds !! q = Some 448%Z → restrict_to_owner ok path ds !! q = Some 448%Z.
Proof.
  intros H. unfold restrict_to_owner. destruct (ok path); [|done]. destruct (decide (path = q)) as [->|Hn].
  - by rewrite lookup_alter_eq, H.
  - by rewrite lookup_alter_ne.
Qed.
Lemma restrict_self ok path ds : is_Some (ds !! path) → ok path = true → restrict_to_owner ok path ds !! path = Some 448%Z.
Proof. intros [m Hm] H. unfold restrict_to_owner. by rewrite H, lookup_alter_eq, Hm. Qed.
Lemma restrict_some ok path q ds : is_Some (ds !! q) → is_Some (restrict_to_owner ok path ds !! q).
Proof. intros H. unfold restrict_to_owner. destruct (ok path); [|done]. by apply lookup_alter_is_Some. Qed.
Lemma create_some mk mode path q ds ds' : create_dir_all mk mode path ds = (Ok (), ds') →
  is_Some (ds' !! path) ∧ (is_Some (ds !! q) → is_Some (ds' !! q)).
Proof.
  unfold create_dir_all. destruct (ds !! path) eqn:E; [intros [= <-]; by rewrite E|].
  destruct (mk path); [|done]. intros [= <-]. rewrite lookup_insert_is_Some. split; [by left|]. intros ?.
  rewrite lookup_insert_is_Some. destruct (decide (path = q)); auto.
Qed.
Lemma ensure_dirs_private env ds ds' :
  ensure_dirs (mn_mkdir env) (mn_chmod_ok env) (mn_umask_mode env) (data_paths env) ds = (Ok (), ds') → private env ds'.
Proof.
  unfold ensure_dirs. destruct (create_dir_all _ _ (pt_data_dir _) ds) as [[[]|] d1] eqn:E1; [|done].
  destruct (create_dir_all _ _ (pt_lists_dir _) d1) as [[[]|] d2] eqn:E2; [|done]. intros [= <-] path Hp Hok.
  apply (create_some _ _ _ (pt_data_dir (data_paths env))) in E1 as [H1 _].
  apply (create_some _ _ _ (pt_data_dir (data_paths env))) in E2 as [H2 H3].
  apply elem_of_cons in Hp as [->|Hp]; [|apply list_elem_of_singleton in Hp as ->].
  - apply restrict_other, restrict_self; auto.
  - apply restrict_self; [|done]. by apply restrict_some.
Qed.
End main.

Section service.
Context {DL : DnsLib} {DC : DnsCodec} {RX : RegexLib} {IL : IpNetLib} {US : UnstableSort} {HO : HashOrder}.
Context {L : LruLib QueryKey Entry} {LL : LruLaws L} (khash : QueryKey → Z) {CC : ConfigCodec} {CL : ConfigCodecLaws CC} {SL : SessionLib}.
Context (dhash : bytes → Z) (chash : list (bytes * Z * Action) → Z) (parallelism : option Z).
Context (make_transport : list SocketAddr → UpstreamSpec → result () UpstreamError).
Context (to_json : StatsInner → option bytes) (from_json : bytes → option StatsInner).
Context {qsender psender db kdisk : Type} {SD : SqlDb db}.
Context (build : bytes → kdisk → result db bytes * kdisk) (connect : db → result () bytes).
Context (execute_batch : bytes → db → result () bytes * db) (remove_file : bytes → kdisk → kdisk).

Local Abbreviation App := (AppState (qsender:=qsender) (psender:=psender) (qstore:=db) (pstore:=db)).
Local Abbreviation boot := (boot khash dhash chash parallelism make_transport from_json (qsender:=qsender)).
Local Abbreviation main := (main khash dhash chash parallelism make_transport from_json build connect execute_batch remove_file
                              (qsender:=qsender) (psender:=psender)).
Local Abbreviation open_stores := (open_stores build connect execute_batch remove_file).

(** [main] past its directories, boot and stores. *)
Lemma main_runs env qtx ptx w ds b qs ps k :
  ensure_dirs (mn_mkdir env) (mn_chmod_ok env) (mn_umask_mode env) (data_paths env) (wd_dirs w) = (Ok (), ds) →
  boot (start_from (wd_disk w) (mn_start env)) (wd_files w) = Some (Ok b) →
  open_stores (data_paths env) b.1.1.1 (wd_dbs w) = (Ok (qs, ps), k) →
  let s := assemble qtx ptx qs ps b in
  ∃ r w', main env qtx ptx w = Some (r, w') ∧ wd_dirs w' = ds ∧ wd_dbs w' = k ∧
    match r with
    | Err e => ∃ t, e = MeHttp t ∧ mn_http_bind env (sc_http_bind (cf_server (as_config s))) = Err t
    | Ok run => sv_app (pr_server (ru_process run)) = s ∧ pr_disk (ru_process run) = wd_disk w
        ∧ ru_http run = sc_http_bind (cf_server (as_config s))
        ∧ served env (sc_dns_bind (cf_server (as_config s))) (ru_dns run) (ru_dns_result run)
    end.
Proof.
  intros Hd Hb Ho s. unfold Main.main. fold (data_paths env). rewrite Hd, Hb. cbn [mbind option_bind].
  cbn [with_main_files with_dirs wd_dbs]. rewrite Ho. assert (Hc : as_config s = b.1.1.1) by (by destruct b as [[[? ?] ?] ?]).
  unfold serve_all. rewrite <- Hc. pose proof (spawn_served env (sc_dns_bind (cf_server (as_config s)))) as Hs.
  destruct (spawn _ _ _) as [up r]. eexists _, _. split; [done|]. split; [done|]. split; [done|].
  destruct (mn_http_bind _ _) as [[]|e]; [by split_and!|by exists e].
Qed.

(** C21: a restart resumes the service.  [main] is started on the files of a consistent server
    (one no update of which was cut short) whose lists fit the engine, without overrides in the
    environment.  It never panics, and it ends with an error only for the cause the error names: a directory that
    cannot be made, an upstream that cannot be set up, a store that cannot be opened, or an address of
    the web interface that cannot be bound.  Otherwise it serves: on the same configuration, with an engine built
    from it, accepting the sessions issued before, with the stores it opened, on the configured
    address, on the DNS addresses up to the first that cannot be bound, and with directories
    closed to other users.  When the configuration persists the statistics and their file holds
    those of the server's last state, as a shutdown that is left alone leaves it ([shutdown_publishes]), it
    continues with the same numbers of queries, blocked, cached, rewritten and failed
    queries and the same cache counters, whatever became of the snapshot of the cache. *)
Theorem main_resumes_service `{!RegexLaws RX} `{!GlobLaws RX} B env qtx ptx (s : App) secret w :
  let g := as_engine s in let cfg := as_config s in
  consistent dhash chash make_transport B s → stats_ok (eg_stats g) →
  au_session_secret (cf_auth cfg) = Some secret → as_sessions s = signer_new secret SESSION_TTL_SECS →
  sn_dns_bind (mn_start env) = None → sn_http_bind (mn_start env) = None → lists_fit cfg (as_files s) →
  (0 <= cg_min_ttl_secs (cf_cache cfg))%Z → (0 <= cg_max_ttl_secs (cf_cache cfg))%Z → wd_files w = as_files s →
  ∃ r w', main env qtx ptx w = Some (r, w') ∧
    match r with
    | Err (MeDirs e) => ensure_dirs (mn_mkdir env) (mn_chmod_ok env) (mn_umask_mode env) (data_paths env) (wd_dirs w) = (Err e, wd_dirs w')
    | Err (MeStart e) => ∃ cause, e = SeEngine (AePool cause)
    | Err (MeQueryStore e) => open_stores (data_paths env) cfg (wd_dbs w) = (Err (MeQueryStore e), wd_dbs w')
    | Err (MeProbeStore e) => open_stores (data_paths env) cfg (wd_dbs w) = (Err (MeProbeStore e), wd_dbs w')
    | Err (MeHttp e) => mn_http_bind env (sc_http_bind (cf_server cfg)) = Err e
    | Ok run =>
        let s' := sv_app (pr_server (ru_process run)) in
        as_config s' = cfg ∧ as_sessions s' = as_sessions s
        ∧ runs_on dhash chash make_transport (as_config s') (as_files s') s'
        ∧ (∃ qs ps, open_stores (data_paths env) cfg (wd_dbs w) = (Ok (qs, ps), wd_dbs w') ∧ as_store s' = qs ∧ as_probe_store s' = ps)
        ∧ ru_http run = sc_http_bind (cf_server cfg)
        ∧ served env (sc_dns_bind (cf_server cfg)) (ru_dns run) (ru_dns_result run)
        ∧ private env (wd_dirs w')
        ∧ (stc_persist (cf_stats cfg) = true → sf_text (dk_stats (wd_disk w)) = Some (snapshot_stats to_json g) →
           json_carries to_json from_json (Stats.with_cache (dc_counters (eg_cache g)) (merged (eg_stats g))) →
           totals (merged (eg_stats (as_engine s'))) = totals (merged (eg_stats g))
           ∧ dc_counters (eg_cache (as_engine s')) = dc_counters (eg_cache g))
    end.
Proof.
  intros g cfg Hs Hst Hsec Hsig Hdb Hhb Hf H1 H2 Hwf.
  destruct (ensure_dirs (mn_mkdir env) (mn_chmod_ok env) (mn_umask_mode env) (data_paths env) (wd_dirs w)) as [[[]|e] ds] eqn:Hd.
  2:{ eexists _, _. unfold Main.main. fold (data_paths env). rewrite Hd. by split. }
  destruct (restart_keeps_counters khash dhash chash parallelism make_transport to_json from_json B (mn_start env) (wd_disk w) s secret
    Hs Hst Hsec Hsig Hdb Hhb Hf H1 H2) as [(e & E)|(b & Eb & Hb)]; rewrite <- Hwf in *.
  { eexists _, _. unfold Main.main. fold (data_paths env). rewrite Hd, E. split; [done|]. by exists e. }
  assert (Hc : b.1.1.1 = cfg).
  { destruct (Hb qtx ptx (as_store s) (as_probe_store s)) as (Hc & _). by destruct b as [[[? ?] ?] ?]. }
  destruct (open_stores (data_paths env) cfg (wd_dbs w)) as [[[qs ps]|e] k] eqn:Ho.
  2:{ eexists _, _. unfold Main.main. fold (data_paths env). rewrite Hd, Eb. cbn [mbind option_bind with_main_files with_dirs wd_dbs].
      rewrite Hc, Ho. split; [done|]. unfold Main.open_stores in Ho. repeat case_match; simplify_eq; done. }
  rewrite <- Hc in Ho. destruct (main_runs env qtx ptx w ds b qs ps k Hd Eb Ho) as (r & w' & Em & Hds & Hdbs & Hr).
  destruct (Hb qtx ptx qs ps) as (Hcfg & Hss & Hrun & Hcnt). exists r, w'. split; [exact Em|]. fold cfg in Hcfg. rewrite Hcfg in Hr.
  destruct r as [run|e]; [|by destruct Hr as (t & -> & Ht)]. destruct Hr as (Ha & _ & Hhttp & Hdns). cbn zeta. rewrite Ha, Hdbs, Hds.
  split_and!; [done..| |done|done|by eapply ensure_dirs_private|done].
  exists qs, ps. by destruct b as [[[? ?] ?] ?].
Qed.
End service.

(** ** A run *)

(** A database that takes every statement. *)
Definition blank_db : SqlDb unit :=
  {| d_exec := λ _ _ d, (Ok 0%Z, d); d_query := λ _ _ _, Ok []; d_rows := λ _, []; d_tx := λ _, None |}.
(** Nothing can be bound but the web interface. *)
Definition demo_main_env : MainEnv :=
  {| mn_data_dir := None; mn_mkdir := λ _, Ok (); mn_chmod_ok := λ _, true; mn_umask_mode := 493; mn_start := demo_boot;
     mn_udp_bind := λ _, Err (bs "permission denied"); mn_tcp_bind := λ _, Ok (); mn_http_bind := λ _, Ok () |}.
Definition demo_world : World (kdisk:=unit) :=
  {| wd_dirs := ∅; wd_files := as_files (sv_app (pr_server demo_process)); wd_disk := demo_halted; wd_dbs := () |}.
Definition demo_main := main (SD:=blank_db) sample_hash demo_hash pipe_chash (Some 2%Z) demo_transport ten_from_json
  (λ _ k, (Ok (), k)) (λ _, Ok ()) (λ _ d, (Ok (), d)) (λ _ k, k) demo_main_env
  ([] : list QueryLogEntry) ([] : list ProbeEvent) demo_world.
Definition main_ok {A B C} (r : option (result A B * C)) : bool := match r with Some (Ok _, _) => true | _ => false end.
Lemma main_resumes_service_witness :
  ∃ run w', demo_main = Some (Ok run, w')
    ∧ as_config (sv_app (pr_server (ru_process run))) = as_config (sv_app (pr_server demo_process))
    ∧ totals (merged (eg_stats (as_engine (sv_app (pr_server (ru_process run))))))
      = totals (merged (eg_stats (as_engine (sv_app (pr_server demo_process)))))
    ∧ private demo_main_env (wd_dirs w').
Proof.
  destruct (main_resumes_service (SD:=blank_db) sample_hash demo_hash pipe_chash (Some 2%Z) demo_transport ten_to_json ten_from_json
    (λ _ k, (Ok (), k)) (λ _, Ok ()) (λ _ d, (Ok (), d)) (λ _ k, k) 5 demo_main_env ([] : list QueryLogEntry) ([] : list ProbeEvent)
    (sv_app (pr_server demo_process)) (bs "6b") demo_world) as (r & w' & E & Hr).
  - exact (kept_consistent _ _ _ _ _ (so_app _ _ _ _ _ _ _ _ demo_last_ok)).
  - exact (eo_stats _ _ _ (so_engine _ _ _ _ _ _ _ _ demo_last_ok)).
  - vm_refl.
  - vm_refl.
  - reflexivity.
  - reflexivity.
  - exact demo_last_fits.
  - vm_compute. discriminate.
  - vm_compute. discriminate.
  - reflexivity.
  - assert (Ha : main_ok demo_main = true) by vm_refl. unfold demo_main in Ha. rewrite E in Ha. destruct r as [run|]; [|discriminate Ha].
    destruct Hr as (H1 & _ & _ & _ & _ & _ & H3 & H2). exists run, w'. split; [exact E|]. split; [exact H1|].
    split; [|exact H3]. refine (proj1 (H2 _ (proj2 demo_halted_texts) demo_json)). vm_refl.
Defined.

(** When the handler of one signal cannot be installed the wait is over at once: the server
    shuts down as soon as it serves. *)
Lemma uninstalled_handler_stops other : (∀ t, other = Ok (Some t) → (0 <= t)%Z) →
  shutdown_signal (Err ()) other = Some 0%Z ∧ shutdown_signal other (Err ()) = Some 0%Z.
Proof.
  intros H. destruct other as [[t|]|]; [|done..]. specialize (H t eq_refl). unfold shutdown_signal. simpl.
  by rewrite Z.min_l, Z.min_r by done.
Qed.
